(* ===== verification/_CoqProject ===== *)
-Q . S2P
Prelude.v
Bytes.v
Core.v
Wire.v
WireFacts.v
Sequence.v
SequenceFacts.v
SequenceTrace.v
Crypto.v
Packet.v
Machine.v
MachineFacts.v
Relay.v
RelayFacts.v
Kcp.v
KcpWire.v
KcpMessage.v
KcpReceive.v
KcpInv.v
KcpFlush.v
KcpEmit.v
KcpHear.v
KcpTimers.v
KcpStream.v
KcpHonest.v
KcpListen.v
KcpSteady.v
KcpPair.v
KcpTurn.v
KcpLive.v
KcpFit.v
KcpFacts.v
Routing.v
RoutingPath.v
RoutingFacts.v
RoutingFeedback.v
RoutingTotal.v
Endpoint.v
EndpointLifecycle.v
EndpointFacts.v
EndpointSend.v
EndpointTraffic.v
SessionPeer.v
Talk.v
EndpointTalk.v
EndpointEvents.v
Dialogue.v
Config.v
ConfigFacts.v
ConfigSend.v
TestShell.v
TestShellFacts.v
Socks5.v
Socks5Facts.v
UdpChannel.v
UdpChannelFacts.v
Runtime.v
RuntimeFacts.v
Channel.v
ChannelFacts.v
ForwardOut.v
Startup.v
StartupFacts.v
