(* ===== verification/Prelude.v ===== *)
(** * RayNet: a verification library for the Rust sources

    RayNet carries reliable sessions between two endpoints over many
    unreliable channels and relays.  This library models the sans-I/O core
    crate [src/crates/raynet-core/src/], the shell from its startup to its tasks
    ([raynet-shell]), its SOCKS5 and UDP plugins ([raynet-shell-plugins]) and
    the network simulator ([raynet-test-shell]), and proves what makes them
    correct.

    ** How the program is put together

    An [EndpointCore] (endpoint.rs) turns shell events into actions.  A session
    is a KCP connection (kcp/kcp.rs); each KCP datagram becomes an
    [EndpointMessage] (wire.rs), sealed with the message key under a nonce
    derived from its stamp, put in an [Envelope] together with the route chosen
    by the [RoutePlanner] (routing.rs), and sealed again as a transport packet
    (packet.rs) for the first channel of the route.  A [RelayCore] (relay.rs)
    opens the outer layer, checks the stamp against its [SequenceFilter]
    (sequence.rs), consumes one hop and seals the rest for the next channel.
    The receiving endpoint does the same check behind both layers and feeds the
    datagram to the session's KCP.  machine.rs holds the steps both cores
    share, limits.rs the constants, random.rs the random stream.

    The shell runs the cores.  main.rs merges the command line and the file,
    derives the keys, builds the channels and starts a relay or an endpoint.
    config.rs turns the configuration file into the
    records the cores start from; build_route sorts the named edges into the
    graph of the planner.  A proxy plugin turns local connections into sessions
    (proxy_socks5.rs) and a channel plugin carries packets (channel_udp.rs).
    remote.rs runs the tasks: one receives packets, one polls, one accepts
    connections, one hands packets to the channels (channels.rs), and each session
    has a writer; they share the core behind a lock, the map of sessions and
    bounded queues.  Each sending channel has a queue and a worker that reports
    the packets its socket refused; each socket of a receiving channel has a task,
    and a task per channel moves its packets to the one inbound queue (channel.rs,
    channels.rs).  The simulator (raynet-test-shell) joins cores by links with
    delays and loss under a discrete clock.

    ** How the code is modelled

    Every Rust function is one executable definition of the same name, and
    every method takes and returns its state explicitly; actions pushed to a
    [Vec] are a list that is passed along and extended.  A body that may panic
    lives in [comp] ([Ret], [Panic], [NoFuel]) below; Rust's [Result] is
    [result], and [?] is the notation [x ←? m ; k].  Unsigned integers of width
    [w] are [Z] with arithmetic [+{w}], [-{w}], [*{w}] that wraps, which is the
    release profile of the workspace; [debug_assert] is off, [usize] is 64 bits,
    and the cargo feature [fastack-conserve] is off.  Bytes are [list Z].  Slice,
    index and division operations panic exactly where Rust's do.  Records are
    updated with [r <| field := v |>].

    Third-party code is an interface: [Aegis128L] and [Blake3] (Crypto), each
    with a [Spec] class of the documented behaviour the proofs use, and a toy
    instance that satisfies it; so is the keyed hash of the UDP channel
    ([Blake3Keyed]).  The iteration order of a [HashMap] is the class [HashIter]
    (Sequence), or [KeyOrder] (UdpChannel) for its keys, whose law is that it is
    a permutation.  What the operating system and the parsers answer at startup is
    the class [System] (Startup).  tokio's bounded queues are lists with their
    bound ([Mpsc] in Channel): a sender waits while the queue is full, and gets its
    message back once the receiver is gone.  [BTreeMap] is a [gmap] iterated in sorted key order.

    Asynchronous code is split at its [await]s.  A task on its own is the fold
    of a step over the events it awaits, and sockets, clocks, queues and random
    draws are what those events carry.  The tasks of remote.rs interact, so they
    are program counters over a shared state: [EndpointRuntime.do_move] takes one
    task from one point where it can be interrupted to the next, [None] is a
    task that has to wait, and a theorem about every sequence of moves is one
    about every interleaving.

    ** Files

    - [Prelude] (this file): [comp], machine integers, slices, record update,
      loops with their rules ([for_each_inv], [for_range_total], [while_total]),
      automation and generic lemmas.
    - [Bytes]: little-endian integers.  [Core]: limits.rs and the data types of
      machine.rs.
    - [Wire], [WireFacts]: wire.rs; round trips, canonical decoding, decoding
      of untrusted bytes never panics, the nonce.
    - [Sequence], [SequenceFacts], [SequenceTrace]: sequence.rs; the bitmap
      refines a bounded set ([window_refines]), the 26-bit clock, and no replay
      over any trace with evictions ([filter_inv]).
    - [Crypto], [Packet]: random.rs, packet.rs and the interfaces.
    - [Machine], [MachineFacts]: the shared receive steps.
    - [Relay], [RelayFacts]: relay.rs; one hop consumed, nothing forwarded
      twice, every packet accounted for.
    - [Kcp]: kcp.rs.  [KcpWire], [KcpMessage]: segments on the wire, messages
      and fragments.  [KcpReceive], [KcpInv], [KcpFlush]: the receive window
      against the peer's log, the invariant of an endpoint, and its
      preservation by [input], [flush] and [update].  [KcpStream]: two
      endpoints and a network that loses, repeats and reorders, refined by a
      pair of message queues.  [KcpFacts]: untrusted input, timers,
      acknowledgements.
    - Liveness of KCP.  [KcpEmit]: what a flush emits, exactly ([flushed]).
      [KcpHear]: what a datagram does, segment by segment.  [KcpTimers]: the
      timers as windows of an unbounded clock.  [KcpHonest]: acknowledgements
      are true, and what the peer misses is kept.  [KcpListen], [KcpSteady],
      [KcpPair]: hearing an honest peer, every call of an endpoint, and every
      run of two keep this.  [KcpTurn]: one turn over a working network.
      [KcpLive]: after enough turns everything sent is received.  [KcpFit]: a
      message larger than the receiver's window never is.
    - [Routing], [RoutingPath], [RoutingFacts], [RoutingFeedback]: routing.rs;
      the dynamic program computes earliest-arrival paths, sampling picks the
      stalest reachable edge, local failures back off, feedback on a plan
      changes the edges of its path and no other.  [RoutingTotal]: the planner
      returns whatever the clock and the measurements say, and in a graph without
      dead ends every path leads on to the destination.
    - [Endpoint]: endpoint.rs.  [EndpointLifecycle]: the session state machine
      as a step relation, and that every call of a reachable endpoint follows
      it.  [EndpointFacts]: sealing, the authentication and replay gate over
      histories of calls, eviction of a peer, and four concrete flaws.
      [EndpointSend]: the longest route, the [geometry] of an endpoint (what
      the configuration promises and every send keeps), and that a message of
      the promised size leaves within the MTU.  When nothing leaves there was no
      route of usable edges, whether the message is sampled or not, provided
      the graph has no dead end, as DESIGN.md requires ([no_dead_end]); in a graph
      with one, a sampled message also needs a route through the edge sampled
      longest ago.
    - The endpoint end to end.  [EndpointTraffic]: what calls put on the wire,
      and that they return.  [SessionPeer]: a session as one side of two KCP
      endpoints.  [Talk]: a conversation, i.e. what one side of a session wrote,
      heard and told its shell, and the session protocol on it.  [EndpointTalk],
      [EndpointEvents]: the parts of a call, and every call, keep all
      conversations in order.  [Dialogue]: whole runs of two endpoints and their
      shells over a hostile network; no call panics, and each session is a
      reliable stream in both directions.
    - [Config], [ConfigFacts]: config.rs; the topological order, and [build_route]
      against what a route is.  [ConfigSend]: what run hands to the cores:
      a core is created for exactly the routes that pass the program's checks
      ([checked_route]), its graph has no dead end, and it has the geometry of
      [EndpointSend] when the configuration is [within_limits], which the program
      does not check.
    - [TestShell], [TestShellFacts]: the simulator; packets are conserved, links
      are FIFO.
    - [Socks5], [Socks5Facts]: proxy_socks5.rs; the handshake against RFC 1928,
      relaying as a pipe in both directions.
    - [UdpChannel], [UdpChannelFacts]: channel_udp.rs; the probes of a reverse
      channel, and where packets are sent.
    - [Runtime], [RuntimeFacts]: remote.rs and the table of channels.rs; no
      wake-up of a writer is lost under any interleaving, and two runs in which
      the tasks come to a stop.
    - [Channel], [ChannelFacts]: channel.rs, the tasks of channel_udp.rs and those
      of channels.rs; under any interleaving accepted packets are handled in order
      and failures told, datagrams reach the core in order under their id.
      [ForwardOut]: forward_out of remote.rs against these queues, and how the two
      wait for each other.
    - [Startup], [StartupFacts]: main.rs, the channel section of config.rs and the
      clock of utils.rs; the configurations that start a node are exactly the
      [valid] ones, what the node is made of, and the limits under which an
      endpoint is ready to send ([limited]).

    ** Bounds and fuel

    Loops without a structural argument take a budget that their callers
    compute: [Kcp.input_loop] the length of the datagram (a turn consumes a
    28-byte header), [SequenceWindow.clear_after] the number of bits to clear,
    [RoutePlanner.walk_back] the number of nodes (edges point forward),
    [EndpointSession.recv_messages] the number of queued segments (a turn takes
    one off), [Config.topological_order] the number of nodes (each is visited
    once).  The theorems conclude [Ret], so they also say these budgets suffice,
    [recv_messages] included ([backlog_recv], [dialogue_never_panics]).  The
    simulator's
    action handlers call each other on a budget of nested calls; a larger budget
    does not change a result ([handle_actions_more]).  Socks5's digit printers
    have the digits of a [u16] as their budget.  Trace
    theorems assume a monotone clock and at most 2^24 ticks (about 198 days),
    theorems on optimal paths a clock below 2^40 ms and at most 2^12 nodes,
    stream theorems at most 2^32 segments (2^30 for liveness, so that the numbers
    compare without wrapping); a configured route may have 2^30 edges.

    An endpoint starts with every valid configuration, but the program does not
    check that it can then send.  The theorems on sending need the limits of
    [within_limits]: a route of at most 65 names, so that no path has more than
    the 64 hops a packet can carry (or, without a route, at least one sending
    channel); channels of 16 bits and hints of 32 bits, the ranges of their
    types; a padding reserve of 1 to 255 (with 0 a full packet panics,
    [full_packet_without_reserve_panics]); a minimum MTU of at least 446 bytes,
    room for the longest header; and a positive feedback interval (with 0 the
    first sampled packet panics, [sampled_packet_without_interval_panics]).  The default tuning is within them
    ([demo_within_limits]).

    ** The network of a dialogue

    The runs of [Dialogue] put few conditions on the environment, all in
    [ready], [genuine] and [permitted].  Configurations have a route of at most
    64 hops whose channels differ at each node, room for padding, and a receive
    window over 2.  What opens under the message key was sealed by the other
    endpoint: no forgery, and no reflection of an endpoint's own packets, which
    the code does not tell apart ([reflected_packet_mutes_the_peer]).  No packet
    of a session arrives after its tombstone expired, which the code cannot know
    either ([closed_session_reopens]).  Connection ids are fresh.  Shells write
    to open sessions only, and no message needs as many fragments as the KCP
    windows hold: the code panics there ([write_of_a_full_window_panics]).

    ** The network of liveness

    [kcp_eventually_delivers] starts from any run of [KcpStream], so any past.
    From then on [exchange] alternates turns: a side updates, all it puts out
    arrives, the other side reads what is complete.  [spaced] has each turn come
    after the longest timer of its side (the largest probe interval) and within
    half the range of the clock.  Windows and the time scale are positive
    ([live]), and messages fit in the window of their receiver ([fits_window]),
    which the code does not check ([received_messages_fit]).  Three rounds per
    segment are the worst case: a closed window is noticed, probed, and used.

    ** Not modelled

    Logging, the allocator, the parsing of the command line (clap) and of the
    configuration file (serde, toml) and the lookup of host names, which are
    operations of [System]; the listener of the SOCKS5 plugin, whose connections
    are the events of [Socks5]; the integration tests.  [Runtime] and [Channel]
    meet at queues: a [Forward] move is a [Send] of [Outbound], and the batch of a
    [Receive] move is what [Inbound] put in the queue, but no theorem is stated of
    their product.  Liveness is
    proved of KCP, where the sides take turns and nothing is lost from some time
    on; of whole endpoints, whose routes may all be down, it is not, nor is
    anything of an endpoint fed by an authenticated but faulty peer. *)

From Stdlib Require Export ZArith Lia.
From stdpp Require Export base tactics decidable option list sorting gmap.


(** ** Computations that may panic *)

(** The outcome of a Rust expression: a value, a panic (failed [unwrap],
    out-of-range index, [panic!], division by zero), or an exhausted loop
    budget.  The last one is an artefact of the embedding; every loop of the
    development that uses a budget has a lemma that the budget suffices. *)
Inductive comp (A : Type) : Type :=
  | Ret (a : A)
  | Panic
  | NoFuel.
Arguments Ret {A} a.
Arguments Panic {A}.
Arguments NoFuel {A}.

#[export] Instance comp_ret : MRet comp := @Ret.
#[export] Instance comp_bind : MBind comp := λ A B f m,
  match m with Ret a => f a | Panic => Panic | NoFuel => NoFuel end.
#[export] Instance comp_fmap : FMap comp := λ A B f m,
  match m with Ret a => Ret (f a) | Panic => Panic | NoFuel => NoFuel end.

(** Rust's [Result], with the error type first. *)
Inductive result (E A : Type) : Type :=
  | Ok (a : A)
  | Err (e : E).
Arguments Ok {E A} a.
Arguments Err {E A} e.

(** [Option::unwrap] and [Result::unwrap]. *)
Definition unwrap {A} (o : option A) : comp A :=
  match o with Some a => Ret a | None => Panic end.

Definition unwrap_ok {E A} (r : result E A) : comp A :=
  match r with Ok a => Ret a | Err _ => Panic end.

(** [returns m]: the computation finishes with a value. *)
Definition returns {A} (m : comp A) : Prop := ∃ a, m = Ret a.

(** The same as a boolean test, for concrete runs. *)
Definition is_ret {A} (m : comp A) : bool :=
  match m with Ret _ => true | _ => false end.

Lemma is_ret_returns {A} (m : comp A) : is_ret m = true → returns m.
Proof. destruct m; [by eexists|done|done]. Qed.

Definition from_ret {A} (m : comp A) : is_ret m = true → A :=
  match m with
  | Ret a => λ _, a
  | _ => λ H, False_rect A (diff_false_true H)
  end.

Lemma from_ret_eq {A} (m : comp A) H : m = Ret (from_ret m H).
Proof. by destruct m. Qed.

Declare Scope rust_scope.
Delimit Scope rust_scope with rust.
#[global] Open Scope Z_scope.
#[global] Open Scope rust_scope.

(** The [?] operator: leave with the error, go on with the value. *)
Notation "x ←? m ; k" :=
  (mbind (λ r, match r with Ok x => k | Err e => Ret (Err e) end) m)
  (at level 20, m at level 100, k at level 200, right associativity,
   only parsing) : rust_scope.

Notation "' x ←? m ; k" :=
  (mbind (λ r, match r with Ok a => (λ x, k) a | Err e => Ret (Err e) end) m)
  (at level 20, x pattern, m at level 100, k at level 200, right associativity,
   only parsing) : rust_scope.

(** ** Machine integers *)

(** A [w]-bit unsigned integer is a [Z]; arithmetic follows the release
    profile of the workspace, where overflow wraps. *)
Definition wrap (w z : Z) : Z := z mod 2 ^ w.

Notation "a +{ w } b" := (wrap w (a + b))
  (at level 50, left associativity, format "a  +{ w }  b") : rust_scope.
Notation "a -{ w } b" := (wrap w (a - b))
  (at level 50, left associativity, format "a  -{ w }  b") : rust_scope.
Notation "a *{ w } b" := (wrap w (a * b))
  (at level 40, left associativity, format "a  *{ w }  b") : rust_scope.

(** [x as i32] for an unsigned 32-bit [x]. *)
Definition as_i32 (z : Z) : Z :=
  let r := wrap 32 z in if r <? 2 ^ 31 then r else r - 2 ^ 32.

Definition in_width (w z : Z) : Prop := 0 <= z < 2 ^ w.

Definition U64_MAX : Z := 2 ^ 64 - 1.

(** [usize::div_ceil]: panics on a zero divisor. *)
Definition div_ceil (a b : Z) : comp Z :=
  if b =? 0 then Panic else Ret ((a + b - 1) / b).

(** ** Slices *)

Definition len {A} (l : list A) : Z := Z.of_nat (length l).

(** [&l[a..b]] *)
Definition slice {A} (l : list A) (a b : Z) : comp (list A) :=
  if (0 <=? a) && (a <=? b) && (b <=? len l)
  then Ret (take (Z.to_nat (b - a)) (drop (Z.to_nat a) l))
  else Panic.

(** [l[i]] *)
Definition index {A} (l : list A) (i : Z) : comp A :=
  if 0 <=? i then unwrap (l !! Z.to_nat i) else Panic.

(** [l[i] = x] *)
Definition store {A} (l : list A) (i : Z) (x : A) : comp (list A) :=
  if (0 <=? i) && (i <? len l) then Ret (<[Z.to_nat i := x]> l) else Panic.

(** [l[a..b].copy_from_slice(src)] *)
Definition copy_from_slice {A} (l : list A) (a b : Z) (src : list A)
    : comp (list A) :=
  if (0 <=? a) && (a <=? b) && (b <=? len l) && (b - a =? len src)
  then Ret (take (Z.to_nat a) l ++ src ++ drop (Z.to_nat b) l)
  else Panic.

(** [vec![x; n]] *)
Definition vec {A} (n : Z) (x : A) : list A := replicate (Z.to_nat n) x.

(** A byte is a [Z] in [0..256). *)
Definition bytes_ok (l : list Z) : Prop := Forall (in_width 8) l.

(** ** Functional record update

    [r <| f := v |>] is the record [r] with field [f] set to [v].  A record
    type takes part by giving its eta expansion as an instance of [Eta]. *)
Class Eta (R : Type) := eta : R → R.
Class Update {R T : Type} (f : R → T) := update : (T → T) → R → R.
Arguments update {R T} f {Update} g r.

Ltac derive_update f :=
  match type of f with
  | ?R → ?T =>
      let e := eval cbv beta iota delta [eta] in (eta : R → R) in
      let i := lazymatch e with eta => fail | _ => e end in
      let b := eval hnf in i in
      match eval pattern f in b with
      | ?h _ =>
          let u := eval cbv beta in (λ (g : T → T) (r : R), h (λ r', g (f r')) r) in
          exact u
      end
  end.
#[export] Hint Extern 1 (Update ?f) => derive_update f : typeclass_instances.

Notation "r <| f := v |>" := (update f (λ _, v) r)
  (at level 1, f at next level, left associativity,
   format "r  <| f  :=  v |>") : rust_scope.
Notation "r <| f ::= g |>" := (update f g r)
  (at level 1, f at next level, left associativity,
   format "r  <| f  ::=  g |>") : rust_scope.

(** ** Loops *)

(** [while c { b }], with a budget on the number of iterations. *)
Fixpoint while {S} (fuel : nat) (c : S → bool) (b : S → comp S) (s : S)
    : comp S :=
  if c s then
    match fuel with
    | O => NoFuel
    | S n => b s ≫= while n c b
    end
  else Ret s.

(** [for x in l { b }] *)
Fixpoint for_each {A S} (l : list A) (b : A → S → comp S) (s : S) : comp S :=
  match l with
  | [] => Ret s
  | x :: l' => b x s ≫= for_each l' b
  end.

(** ** Automation *)

(** Split a [comp] hypothesis [m ≫= f = Ret x] into its steps. *)
Ltac inv_comp :=
  repeat match goal with
  | H : mbind _ ?m = Ret _ |- _ =>
      let E := fresh "E" in
      destruct m eqn:E; cbn [mbind comp_bind] in H; try discriminate H
  | H : fmap _ ?m = Ret _ |- _ =>
      let E := fresh "E" in
      destruct m eqn:E; cbn [fmap comp_fmap] in H; try discriminate H
  | H : Ret _ = Ret _ |- _ => injection H as H
  end.

(** Turn boolean comparisons on [Z] into facts. *)
Ltac bool_to_prop :=
  repeat match goal with
  | H : (_ && _)%bool = true |- _ => apply andb_true_iff in H as [? ?]
  | H : (_ || _)%bool = false |- _ => apply orb_false_iff in H as [? ?]
  | H : negb _ = true |- _ => apply negb_true_iff in H
  | H : negb _ = false |- _ => apply negb_false_iff in H
  | H : (_ <=? _) = true |- _ => apply Z.leb_le in H
  | H : (_ <=? _) = false |- _ => apply Z.leb_gt in H
  | H : (_ <? _) = true |- _ => apply Z.ltb_lt in H
  | H : (_ <? _) = false |- _ => apply Z.ltb_ge in H
  | H : (_ =? _) = true |- _ => apply Z.eqb_eq in H
  | H : (_ =? _) = false |- _ => apply Z.eqb_neq in H
  | H : (_ >=? _) = _ |- _ => rewrite Z.geb_leb in H
  | H : (_ >? _) = _ |- _ => rewrite Z.gtb_ltb in H
  end.

(** Case analysis on the next comparison of the goal, contradictions closed. *)
Ltac case_cmp :=
  match goal with
  | |- context [if ?a <=? ?b then _ else _] => destruct (Z.leb_spec a b)
  | |- context [if ?a <? ?b then _ else _] => destruct (Z.ltb_spec a b)
  | |- context [if ?a =? ?b then _ else _] => destruct (Z.eqb_spec a b)
  end; try lia.

(** Break a record value of the context into its fields. *)
Ltac destruct_record r := destruct r; cbn in *.

(** ** Lemmas on computations *)

Lemma bind_ret {A B} (m : comp A) (f : A → comp B) b :
  m ≫= f = Ret b ↔ ∃ a, m = Ret a ∧ f a = Ret b.
Proof. destruct m; cbn; (split; [intros Hf|intros (x & Hx & Hf)]); try done; eauto; congruence. Qed.

Lemma Ret_inj {A} (a b : A) : Ret a = Ret b → a = b.
Proof. by intros [=]. Qed.

Lemma Ok_inj {E A} (a b : A) : @Ok E A a = Ok b → a = b.
Proof. by intros [=]. Qed.

Lemma returns_ret {A} (a : A) : returns (Ret a).
Proof. by exists a. Qed.

Lemma returns_bind {A B} (m : comp A) (f : A → comp B) :
  returns m → (∀ a, m = Ret a → returns (f a)) → returns (m ≫= f).
Proof. intros [a ->] H. cbn. by apply H. Qed.

Lemma for_each_app {A S} (l1 l2 : list A) (b : A → S → comp S) s :
  for_each (l1 ++ l2) b s = for_each l1 b s ≫= for_each l2 b.
Proof.
  revert s; induction l1 as [|x l1 IH]; intros s; cbn; [done|].
  destruct (b x s); cbn; [apply IH | done | done].
Qed.

(** The invariant rule for [for_each]. *)
Lemma for_each_inv {A S} (I : S → Prop) (l : list A) (b : A → S → comp S) s s' :
  (∀ x t t', x ∈ l → I t → b x t = Ret t' → I t') →
  I s → for_each l b s = Ret s' → I s'.
Proof.
  revert s; induction l as [|x l IH]; cbn; intros s Hb Hs H.
  - by injection H as <-.
  - apply bind_ret in H as (t & Ht & H).
    eapply (IH t); [|eapply Hb|]; [|by left|done|done|done].
    intros y u u' Hy. apply Hb. by right.
Qed.

(** A [for_each] whose body never fails on the invariant returns. *)
Lemma for_each_returns {A S} (I : S → Prop) (l : list A) (b : A → S → comp S) s :
  (∀ x t, x ∈ l → I t → ∃ t', b x t = Ret t' ∧ I t') →
  I s → ∃ s', for_each l b s = Ret s' ∧ I s'.
Proof.
  revert s; induction l as [|x l IH]; cbn; intros s Hb Hs; [eauto|].
  destruct (Hb x s) as (t & -> & Ht); [by left | done |]. cbn.
  apply IH; [|done]. intros y u Hy. apply Hb. by right.
Qed.

(** Total correctness of [for i in a..b], with an invariant indexed by [i]. *)
Lemma for_range_total {S} (I : Z → S → Prop) a n (b : Z → S → comp S) s :
  (∀ i t, a <= i < a + n → I i t → ∃ t', b i t = Ret t' ∧ I (i + 1) t') →
  0 <= n → I a s → ∃ s', for_each (seqZ a n) b s = Ret s' ∧ I (a + n) s'.
Proof.
  intros Hb Hn. revert a s Hb. pattern n. apply natlike_ind; [|clear n Hn|done].
  - intros a s _ Hs. cbn. rewrite Z.add_0_r. by exists s.
  - intros n Hn IH a s Hb Hs. rewrite seqZ_cons by lia. cbn [for_each].
    rewrite Z.pred_succ. destruct (Hb a s) as (t & -> & Ht); [lia|done|]. cbn [mbind comp_bind].
    destruct (IH (Z.succ a) t) as (u & Hu & Hi); [|done|].
    + intros i v Hi Hv. apply Hb; [lia|done].
    + exists u. split; [done|]. by replace (a + Z.succ n) with (Z.succ a + n) by lia.
Qed.

(** The invariant rule for [while]. *)
Lemma while_inv {S} (I : S → Prop) (c : S → bool) (b : S → comp S) fuel s s' :
  (∀ t t', I t → c t = true → b t = Ret t' → I t') →
  I s → while fuel c b s = Ret s' → I s' ∧ c s' = false.
Proof.
  intros Hb. revert s; induction fuel as [|n IH]; intros s Hs; cbn.
  - destruct (c s) eqn:Hc; [done|]. by intros [= <-].
  - destruct (c s) eqn:Hc; [|by intros [= <-]].
    intros (t & Ht & H)%bind_ret. eapply IH; [|done]. by eapply Hb.
Qed.

(** Total correctness of [while]: an invariant and a measure below the budget. *)
Lemma while_total {S} (I : S → Prop) (m : S → nat) (c : S → bool)
    (b : S → comp S) fuel s :
  (∀ t, I t → c t = true → ∃ t', b t = Ret t' ∧ I t' ∧ (m t' < m t)%nat) →
  I s → (m s <= fuel)%nat →
  ∃ s', while fuel c b s = Ret s' ∧ I s' ∧ c s' = false.
Proof.
  intros Hb. revert s; induction fuel as [|n IH]; intros s Hs Hm; cbn.
  - destruct (c s) eqn:Hc; [|eauto].
    destruct (Hb s Hs Hc) as (t & _ & _ & Ht). lia.
  - destruct (c s) eqn:Hc; [|eauto].
    destruct (Hb s Hs Hc) as (t & -> & It & Ht). cbn. apply IH; [done|lia].
Qed.

(** ** Lemmas on machine integers *)

Lemma wrap_range w z : 0 <= w → in_width w (wrap w z).
Proof. intros Hw. unfold in_width, wrap. apply Z.mod_pos_bound. lia. Qed.

Lemma wrap_small w z : in_width w z → wrap w z = z.
Proof. apply Z.mod_small. Qed.

Lemma wrap_id w z : 0 <= z < 2 ^ w → wrap w z = z.
Proof. apply Z.mod_small. Qed.

Lemma wrap_wrap w z : wrap w (wrap w z) = wrap w z.
Proof. unfold wrap. by rewrite Zmod_mod. Qed.

Lemma wrap_add_l w a b : wrap w (wrap w a + b) = wrap w (a + b).
Proof. unfold wrap. by rewrite Zplus_mod_idemp_l. Qed.

Lemma wrap_add_r w a b : wrap w (a + wrap w b) = wrap w (a + b).
Proof. unfold wrap. by rewrite Zplus_mod_idemp_r. Qed.

Lemma wrap_sub_l w a b : wrap w (wrap w a - b) = wrap w (a - b).
Proof. unfold wrap. by rewrite Zminus_mod_idemp_l. Qed.

Lemma wrap_sub_r w a b : wrap w (a - wrap w b) = wrap w (a - b).
Proof. unfold wrap. by rewrite Zminus_mod_idemp_r. Qed.

Lemma wrap_eq_iff w a b : 0 <= w →
  wrap w a = wrap w b ↔ ∃ k, a = b + k * 2 ^ w.
Proof.
  intros Hw. unfold wrap. assert (0 < 2 ^ w) by lia. split.
  - intros H1. exists (a / 2 ^ w - b / 2 ^ w).
    pose proof (Z.div_mod a (2 ^ w)). pose proof (Z.div_mod b (2 ^ w)). nia.
  - intros [k ->]. apply Z_mod_plus_full.
Qed.

(** Reducing modulo a smaller power of two forgets the wrap. *)
Lemma wrap_mod v w z : 0 <= v <= w → wrap w z mod 2 ^ v = z mod 2 ^ v.
Proof.
  intros H. unfold wrap. apply Z.mod_mod_divide.
  exists (2 ^ (w - v)). rewrite <- Z.pow_add_r by lia. f_equal. lia.
Qed.

Lemma as_i32_range z : - 2 ^ 31 <= as_i32 z < 2 ^ 31.
Proof.
  unfold as_i32. pose proof (wrap_range 32 z ltac:(lia)) as H.
  unfold in_width in H. case_cmp.
Qed.

Lemma as_i32_small z : - 2 ^ 31 <= z < 2 ^ 31 → as_i32 z = z.
Proof.
  intros H. unfold as_i32.
  destruct (Z.leb_spec 0 z).
  - rewrite wrap_id by lia. case_cmp.
  - replace (wrap 32 z) with (z + 2 ^ 32).
    + case_cmp.
    + unfold wrap. apply (Z.mod_unique z _ (-1)); lia.
Qed.

Lemma as_i32_wrap z : as_i32 (wrap 32 z) = as_i32 z.
Proof. unfold as_i32. by rewrite wrap_wrap. Qed.

Lemma as_i32_eq a b : wrap 32 a = wrap 32 b → as_i32 a = as_i32 b.
Proof. unfold as_i32. by intros ->. Qed.

(** [as_i32] is the representative of a residue class in the signed range. *)
Lemma as_i32_mod z : ∃ k, as_i32 z = z + k * 2 ^ 32.
Proof.
  unfold as_i32, wrap. pose proof (Z.div_mod z (2 ^ 32)).
  case_cmp; [exists (- (z / 2 ^ 32)) | exists (- (z / 2 ^ 32) - 1)]; lia.
Qed.

Lemma land_ones_mod a n : 0 <= n → Z.land a (2 ^ n - 1) = a mod 2 ^ n.
Proof.
  intros Hn. rewrite <- Z.land_ones by done. by rewrite Z.ones_equiv, Z.sub_1_r.
Qed.

Lemma half_bound z : 0 <= z → 0 <= z / 2 <= z.
Proof. intros H. split; [by apply Z.div_pos|]. apply Z.div_le_upper_bound; lia. Qed.

(** Disjoint bit fields: [|] is [+]. *)
Lemma lor_shiftl_add a b n :
  0 <= n → 0 <= b < 2 ^ n → Z.lor (Z.shiftl a n) b = a * 2 ^ n + b.
Proof.
  intros Hn Hb. rewrite <- Z.shiftl_mul_pow2 by done.
  assert (Hl : Z.land (Z.shiftl a n) b = 0).
  { apply Z.bits_inj'. intros i Hi. rewrite Z.land_spec, Z.bits_0.
    destruct (Z.ltb_spec i n).
    - rewrite Z.shiftl_spec_low by done. done.
    - rewrite (proj2 (Z.testbit_false b i Hi)); [by rewrite andb_false_r|].
      rewrite Z.div_small; [done|]. split; [lia|].
      apply Z.lt_le_trans with (2 ^ n); [lia|]. apply Z.pow_le_mono_r; lia. }
  rewrite <- Z.lxor_lor by done. symmetry. by apply Z.add_nocarry_lxor.
Qed.

(** ** Lemmas on slices *)

Lemma len_nil {A} : len (@nil A) = 0.
Proof. done. Qed.

Lemma len_cons {A} (x : A) l : len (x :: l) = 1 + len l.
Proof. unfold len. rewrite length_cons. lia. Qed.

Lemma len_app {A} (l1 l2 : list A) : len (l1 ++ l2) = len l1 + len l2.
Proof. unfold len. rewrite length_app. lia. Qed.

Lemma len_nonneg {A} (l : list A) : 0 <= len l.
Proof. unfold len. lia. Qed.

Lemma len_vec {A} n (x : A) : 0 <= n → len (vec n x) = n.
Proof. intros. unfold len, vec. rewrite length_replicate. lia. Qed.

Lemma len_map {A B} (f : A → B) l : len (f <$> l) = len l.
Proof. unfold len. by rewrite length_fmap. Qed.

Lemma len_take {A} n (l : list A) :
  0 <= n <= len l → len (take (Z.to_nat n) l) = n.
Proof. unfold len. rewrite length_take. lia. Qed.

Lemma len_drop {A} n (l : list A) :
  0 <= n <= len l → len (drop (Z.to_nat n) l) = len l - n.
Proof. unfold len. rewrite length_drop. lia. Qed.

Lemma len_zero_nil {A} (l : list A) : len l = 0 → l = [].
Proof. destruct l; [done|]. rewrite len_cons. pose proof (len_nonneg l). lia. Qed.

Lemma slice_returns {A} (l : list A) a b :
  0 <= a <= b → b <= len l →
  slice l a b = Ret (take (Z.to_nat (b - a)) (drop (Z.to_nat a) l)).
Proof.
  intros. unfold slice.
  rewrite !(proj2 (Z.leb_le _ _)) by lia. done.
Qed.

Lemma slice_Ret {A} (l : list A) a b s :
  slice l a b = Ret s →
  0 <= a <= b ∧ b <= len l ∧ s = take (Z.to_nat (b - a)) (drop (Z.to_nat a) l).
Proof.
  unfold slice. destruct (_ && _ && _) eqn:E; [|done].
  intros [= <-]. bool_to_prop. done.
Qed.

(** A slice that is the middle part of an append. *)
Lemma slice_app {A} (l1 l2 l3 : list A) a b :
  a = len l1 → b = len l1 + len l2 → slice (l1 ++ l2 ++ l3) a b = Ret l2.
Proof.
  intros -> ->. pose proof (len_nonneg l1). pose proof (len_nonneg l2).
  pose proof (len_nonneg l3).
  rewrite slice_returns by (rewrite ?len_app; lia). f_equal.
  unfold len. rewrite Nat2Z.id, drop_app_length.
  replace (Z.to_nat _) with (length l2) by lia. apply take_app_length.
Qed.

Lemma slice_app_l {A} (l1 l2 : list A) b :
  b = len l1 → slice (l1 ++ l2) 0 b = Ret l1.
Proof. intros. by apply (slice_app []). Qed.

Lemma slice_app_r {A} (l1 l2 : list A) a b :
  a = len l1 → b = len l1 + len l2 → slice (l1 ++ l2) a b = Ret l2.
Proof.
  intros. rewrite <- (app_nil_r l2) at 1. by apply slice_app.
Qed.

Lemma slice_tail {A} (x : A) l : slice (x :: l) 1 (len (x :: l)) = Ret l.
Proof.
  apply (slice_app_r [x]); [done|]. rewrite len_cons. done.
Qed.

Lemma slice_cons_app {A} (x : A) l1 l2 l3 a b :
  a = 1 + len l1 → b = a + len l2 → slice (x :: l1 ++ l2 ++ l3) a b = Ret l2.
Proof.
  intros -> ->. apply (slice_app (x :: l1)); rewrite len_cons; lia.
Qed.

Lemma slice_len {A} (l s : list A) a b : slice l a b = Ret s → len s = b - a.
Proof.
  intros (? & ? & ->)%slice_Ret. unfold len in *.
  rewrite length_take, length_drop. lia.
Qed.

Lemma slice_bytes_ok l a b s : bytes_ok l → slice l a b = Ret s → bytes_ok s.
Proof.
  intros Hl (_ & _ & ->)%slice_Ret. by apply Forall_take, Forall_drop.
Qed.

(** A list is the concatenation of two adjacent slices. *)
Lemma slice_join {A} (l s1 s2 : list A) a b c :
  slice l a b = Ret s1 → slice l b c = Ret s2 → slice l a c = Ret (s1 ++ s2).
Proof.
  intros (Ha & Hb & ->)%slice_Ret (Hb' & Hc & ->)%slice_Ret.
  rewrite slice_returns by lia. f_equal.
  replace (Z.to_nat (c - a)) with (Z.to_nat (b - a) + Z.to_nat (c - b))%nat by lia.
  rewrite <- take_take_drop, drop_drop. do 3 f_equal. lia.
Qed.

Lemma slice_all {A} (l : list A) : slice l 0 (len l) = Ret l.
Proof.
  pose proof (len_nonneg l). rewrite slice_returns by lia. f_equal.
  cbn. rewrite drop_0, firstn_all2; [done|]. unfold len. lia.
Qed.

Lemma index_returns {A} (l : list A) i :
  0 <= i < len l → ∃ x, index l i = Ret x ∧ l !! Z.to_nat i = Some x.
Proof.
  intros Hi. unfold index. rewrite (proj2 (Z.leb_le _ _)) by lia.
  destruct (lookup_lt_is_Some_2 l (Z.to_nat i)) as [x ->]; [unfold len in *; lia|].
  by exists x.
Qed.

Lemma index_Ret {A} (l : list A) i x :
  index l i = Ret x → 0 <= i < len l ∧ l !! Z.to_nat i = Some x.
Proof.
  unfold index. destruct (Z.leb_spec 0 i); [|done].
  destruct (l !! Z.to_nat i) eqn:E; [|done]. cbn. intros [= <-].
  apply lookup_lt_Some in E as ?. unfold len. split; [lia|done].
Qed.

Lemma index_eq {A} (l : list A) i x : 0 <= i → l !! Z.to_nat i = Some x → index l i = Ret x.
Proof. intros Hi Hx. unfold index. by rewrite (proj2 (Z.leb_le _ _) Hi), Hx. Qed.

Lemma store_returns {A} (l : list A) i x :
  0 <= i < len l → store l i x = Ret (<[Z.to_nat i := x]> l).
Proof.
  intros. unfold store.
  rewrite (proj2 (Z.leb_le _ _)), (proj2 (Z.ltb_lt _ _)) by lia. done.
Qed.

Lemma copy_from_slice_returns {A} (l src : list A) a b :
  0 <= a <= b → b <= len l → b - a = len src →
  copy_from_slice l a b src
  = Ret (take (Z.to_nat a) l ++ src ++ drop (Z.to_nat b) l).
Proof.
  intros. unfold copy_from_slice.
  rewrite !(proj2 (Z.leb_le _ _)), (proj2 (Z.eqb_eq _ _)) by lia. done.
Qed.

Lemma bytes_ok_app l1 l2 : bytes_ok (l1 ++ l2) ↔ bytes_ok l1 ∧ bytes_ok l2.
Proof. apply Forall_app. Qed.

Lemma bytes_ok_vec n x : in_width 8 x → bytes_ok (vec n x).
Proof. intros. by apply Forall_replicate. Qed.

Create HintDb rust.
#[export] Hint Resolve returns_ret wrap_range len_nonneg : rust.
#[export] Hint Resolve slice_bytes_ok bytes_ok_vec : rust.
Create Rewrite HintDb rust.
#[export] Hint Rewrite @len_nil @len_cons @len_app @len_map : rust.
