(* ===== verification/Bytes.v ===== *)
(** * Little-endian integers

    The standard-library conversions the wire format rests on:
    [uN::to_le_bytes], [uN::from_le_bytes], [u64::get_u64_le] and friends, on
    lists of bytes, with their round trips. *)

From S2P Require Import Prelude.

(** [to_le n z]: the [n] low bytes of [z], least significant first. *)
Fixpoint to_le (n : nat) (z : Z) : list Z :=
  match n with
  | O => []
  | S n' => z mod 256 :: to_le n' (z / 256)
  end.

(** [from_le bs]: the unsigned value of [bs], least significant first. *)
Fixpoint from_le (bs : list Z) : Z :=
  match bs with
  | [] => 0
  | b :: bs' => b + 256 * from_le bs'
  end.

Lemma to_le_S n z : to_le (S n) z = z mod 256 :: to_le n (z / 256).
Proof. done. Qed.

Lemma length_to_le n z : length (to_le n z) = n.
Proof. revert z; induction n as [|n IH]; intros z; cbn; [done|]. by rewrite IH. Qed.

Lemma len_to_le n z : len (to_le n z) = Z.of_nat n.
Proof. unfold len. by rewrite length_to_le. Qed.

Lemma to_le_bytes_ok n z : bytes_ok (to_le n z).
Proof.
  revert z; induction n as [|n IH]; intros z; cbn; constructor; [|apply IH].
  apply Z.mod_pos_bound. lia.
Qed.

Lemma from_le_bound bs : bytes_ok bs → 0 <= from_le bs < 2 ^ (8 * len bs).
Proof.
  induction 1 as [|b bs Hb _ IH]; cbn [from_le].
  { change (2 ^ (8 * len [])) with 1. lia. }
  rewrite len_cons, Z.mul_add_distr_l, Z.pow_add_r by (pose proof (len_nonneg bs); lia).
  unfold in_width in Hb. change (2 ^ 8) with 256 in Hb.
  change (2 ^ (8 * 1)) with 256. nia.
Qed.

Lemma pow_256_succ n : 2 ^ (8 * Z.of_nat (S n)) = 256 * 2 ^ (8 * Z.of_nat n).
Proof.
  rewrite Nat2Z.inj_succ, Z.mul_succ_r, Z.pow_add_r by lia.
  change (2 ^ 8) with 256. lia.
Qed.

(** Encoding then decoding keeps the value modulo the width. *)
Lemma from_le_to_le n z : from_le (to_le n z) = wrap (8 * Z.of_nat n) z.
Proof.
  revert z; induction n as [|n IH]; intros z; cbn [from_le to_le].
  - unfold wrap. cbn. by rewrite Z.mod_1_r.
  - rewrite IH. unfold wrap. rewrite pow_256_succ.
    assert (0 < 2 ^ (8 * Z.of_nat n)) by (apply Z.pow_pos_nonneg; lia).
    rewrite Z.rem_mul_r by lia. lia.
Qed.

(** Decoding then encoding is the identity on bytes. *)
Lemma to_le_from_le n bs :
  bytes_ok bs → length bs = n → to_le n (from_le bs) = bs.
Proof.
  intros Hb <-. induction Hb as [|b bs Hb _ IH]; cbn [to_le from_le length]; [done|].
  unfold in_width in Hb. change (2 ^ 8) with 256 in Hb.
  f_equal.
  - rewrite (Z.mul_comm 256), Z_mod_plus_full. by apply Z.mod_small.
  - rewrite (Z.mul_comm 256), Z.div_add by lia. by rewrite Z.div_small, Z.add_0_l.
Qed.

Lemma from_le_app bs1 bs2 :
  from_le (bs1 ++ bs2) = from_le bs1 + 2 ^ (8 * len bs1) * from_le bs2.
Proof.
  induction bs1 as [|b bs1 IH]; cbn [app from_le].
  - change (2 ^ (8 * len (@nil Z))) with 1. lia.
  - rewrite IH. replace (8 * len (b :: bs1)) with (8 + 8 * len bs1)
      by (rewrite len_cons; lia).
    rewrite Z.pow_add_r by (pose proof (len_nonneg bs1); lia).
    change (2 ^ 8) with 256. lia.
Qed.

Lemma take_to_le k n z : (k <= n)%nat → take k (to_le n z) = to_le k z.
Proof.
  revert k z; induction n as [|n IH]; intros [|k] z Hk; cbn; try done; [lia|].
  f_equal. apply IH. lia.
Qed.

(** The encoding depends only on the value modulo the width. *)
Lemma to_le_wrap n z : to_le n (wrap (8 * Z.of_nat n) z) = to_le n z.
Proof.
  rewrite <- from_le_to_le.
  apply to_le_from_le; [apply to_le_bytes_ok | apply length_to_le].
Qed.

Lemma to_le_inj n a b :
  0 <= a < 2 ^ (8 * Z.of_nat n) → 0 <= b < 2 ^ (8 * Z.of_nat n) →
  to_le n a = to_le n b → a = b.
Proof.
  intros Ha Hb H%(f_equal from_le). rewrite !from_le_to_le in H.
  by rewrite !wrap_id in H.
Qed.

Lemma from_le_to_le_id n z :
  0 <= z < 2 ^ (8 * Z.of_nat n) → from_le (to_le n z) = z.
Proof. intros. rewrite from_le_to_le. by apply wrap_id. Qed.

Lemma from_le_zeros n : from_le (replicate n 0) = 0.
Proof. induction n as [|n IH]; cbn [replicate from_le]; [done|]. rewrite IH. lia. Qed.

#[export] Hint Resolve to_le_bytes_ok : rust.
#[export] Hint Rewrite len_to_le : rust.
#[global] Opaque to_le from_le.
