(* ===== verification/Core.v ===== *)
(** * Shared data of the core crate

    The protocol limits of [limits.rs] and the data types of [machine.rs]:
    channels, conversations, events, actions, results and metrics. *)

From S2P Require Import Prelude.

(** ** limits.rs *)

Definition TRANSPORT_PACKET_OVERHEAD : Z := 32.
Definition ENDPOINT_MESSAGE_OVERHEAD : Z := 17.
Definition MIN_PADDING : Z := 1.
Definition MAX_TRANSPORT_PACKET_SIZE : Z := 64 * 1024.
Definition MAX_SESSION_DATA_SIZE : Z := 65535.
Definition LOCAL_COOLDOWN_INITIAL_MS : Z := 50.
Definition LOCAL_COOLDOWN_MAX_MS : Z := 200.
Definition SESSION_TOMBSTONE_MS : Z := Z.shiftl 646 10.

Definition effective_transport_mtu (configured_mtu : Z) : Z :=
  configured_mtu `min` MAX_TRANSPORT_PACKET_SIZE.

(** ** machine.rs: data *)

(** [u16] and [u64] identifiers. *)
Abbreviation ChannelId := Z (only parsing).
Abbreviation ConvId := Z (only parsing).

Inductive CloseReason : Set := LocalClosed | RemoteClosed | Reset | Error.

(** [reason as u8] for the [repr(u8)] enum. *)
Definition close_reason_u8 (r : CloseReason) : Z :=
  match r with LocalClosed => 0 | RemoteClosed => 1 | Reset => 2 | Error => 3 end.

Record CoreMetrics := {
  packets_received : Z;
  packets_sent : Z;
  packets_dropped : Z;
  authentication_failures : Z;
  freshness_drops : Z;
  replay_drops : Z;
  malformed_packets : Z;
  send_failures : Z;
  active_sessions : Z;
  active_sequences : Z;
  latest_seq_time : Z;
}.

(** [CoreMetrics::default()] *)
Definition default_metrics : CoreMetrics :=
  Build_CoreMetrics 0 0 0 0 0 0 0 0 0 0 0.

Inductive CoreEvent : Type :=
  | TransportPacketReceived (channel_id : ChannelId) (bytes : list Z)
  | TransportPacketSendFailed (channel_id : ChannelId) (bytes : list Z)
  | SessionOpen
  | SessionWrite (conv_id : ConvId) (bytes : list Z)
  | SessionClose (conv_id : ConvId) (reason : CloseReason).

Inductive CoreAction : Type :=
  | SendTransportPacket (channel_id : ChannelId) (bytes : list Z)
  | OpenSession (conv_id : ConvId)
  | WriteSession (conv_id : ConvId) (bytes : list Z)
  | CloseSession (conv_id : ConvId) (reason : CloseReason).

Inductive CoreEventResult : Type :=
  | ResultNone
  | SessionCreated (conv_id : ConvId)
  | SessionWriteBlocked.

#[global] Instance eta_CoreMetrics : Eta CoreMetrics := λ m,
  Build_CoreMetrics (packets_received m) (packets_sent m) (packets_dropped m)
    (authentication_failures m) (freshness_drops m) (replay_drops m)
    (malformed_packets m) (send_failures m) (active_sessions m)
    (active_sequences m) (latest_seq_time m).

#[export] Instance CloseReason_eq_dec : EqDecision CloseReason.
Proof. solve_decision. Defined.

#[export] Instance CoreAction_eq_dec : EqDecision CoreAction.
Proof. solve_decision. Defined.

(** ** Facts *)

Lemma effective_transport_mtu_le m :
  effective_transport_mtu m <= MAX_TRANSPORT_PACKET_SIZE.
Proof. apply Z.le_min_r. Qed.

Lemma close_reason_u8_inj r1 r2 :
  close_reason_u8 r1 = close_reason_u8 r2 → r1 = r2.
Proof. by destruct r1, r2. Qed.
