(* ===== verification/Wire.v ===== *)
(** * The wire format

    [wire.rs]: the envelope seen by every hop, the endpoint message inside it,
    the session message carried by KCP, and the endpoint nonce.  Encoders
    append to a vector, decoders slice an untrusted buffer; slicing out of
    range panics, so the totality of [Envelope.decode] on arbitrary network
    input is a theorem ([WireFacts.v]). *)

From S2P Require Import Prelude Bytes Core.

Definition U48_SIZE : Z := 6.
Definition ROUTE_BITS : Z := 6.
Definition TIME_BITS : Z := 32 - ROUTE_BITS.
Definition TIME_MASK : Z := Z.shiftl 1 TIME_BITS - 1.
Definition ROUTE_MASK : Z := Z.shiftl 1 ROUTE_BITS - 1.
Definition ENVELOPE_FIXED_OVERHEAD : Z := 4 + 2 * U48_SIZE.
Definition CHANNEL_ID_SIZE : Z := 2.
Definition FLAG_KCP : Z := Z.shiftl 1 0.
Definition FLAG_KEEP_ALIVE : Z := Z.shiftl 1 1.
Definition FLAG_ROUTE_REPLY : Z := Z.shiftl 1 2.
Definition REPLY_DEPTH_SHIFT : Z := 3.
Definition REPLY_DEPTH_MASK : Z := 3.

Record EnvelopeStamp := { stamp_time : Z; stamp_seq_id : Z; stamp_seq_no : Z }.

Variant WireError : Set := MkWireError.

(** ** 48-bit integers *)

Definition put_u48 (out : list Z) (value : Z) : list Z :=
  out ++ take (Z.to_nat U48_SIZE) (to_le 8 value).

(** [put_u48_slice(&mut out[a..b], value)] *)
Definition put_u48_slice (out : list Z) (a b : Z) (value : Z) : comp (list Z) :=
  copy_from_slice out a b (take 6 (to_le 8 value)).

Definition get_u48 (bytes : list Z) : comp Z :=
  value ← copy_from_slice (vec 8 0) 0 6 bytes;
  Ret (from_le value).

(** ** Envelope *)

Definition envelope_prefix (bytes : list Z)
    : comp (result WireError (EnvelopeStamp * Z)) :=
  if len bytes <? ENVELOPE_FIXED_OVERHEAD then Ret (Err MkWireError) else
  word ← slice bytes 0 4;
  let time_and_route := from_le word in
  let time := Z.shiftr time_and_route ROUTE_BITS in
  let route_plan_len := Z.land time_and_route ROUTE_MASK in
  seq_id ← slice bytes 4 10 ≫= get_u48;
  seq_no ← slice bytes 10 16 ≫= get_u48;
  Ret (Ok (Build_EnvelopeStamp time seq_id seq_no, route_plan_len)).

Module Envelope.

Record t := {
  time : Z;
  seq_id : Z;
  seq_no : Z;
  route_plan : list ChannelId;
  payload : list Z;
  padding_len : Z;
}.

#[global] Instance eta_Envelope : Eta t := λ e,
  Build_t (time e) (seq_id e) (seq_no e) (route_plan e) (payload e)
    (padding_len e).

Definition encode_with_prefix (self : t) (prefix_len : Z) : list Z :=
  let out := vec prefix_len 0 in
  let time_and_route :=
    Z.lor (wrap 32 (Z.shiftl (Z.land (time self) TIME_MASK) ROUTE_BITS))
      (wrap 32 (len (route_plan self))) in
  let out := out ++ to_le 4 time_and_route in
  let out := put_u48 out (seq_id self) in
  let out := put_u48 out (seq_no self) in
  let out := out ++ payload self in
  let out := out ++ concat (to_le 2 <$> route_plan self) in
  out ++ vec (padding_len self) (padding_len self).

(** The loop that reads the route plan two bytes at a time. *)
Definition decode_route (fuel : nat) (bytes : list Z) (offset route_end : Z)
    : comp (list ChannelId) :=
  snd <$> while fuel
    (λ '(offset, _), offset <? route_end)
    (λ '(offset, route_plan),
       channel ← slice bytes offset (offset + 2);
       Ret (offset + 2, route_plan ++ [from_le channel]))
    (offset, []).

Definition decode (bytes : list Z) : comp (result WireError t) :=
  '(stamp, route_plan_len) ←? envelope_prefix bytes;
  match last bytes with
  | None => Ret (Err MkWireError)
  | Some padding_len =>
      let route_bytes := route_plan_len * CHANNEL_ID_SIZE in
      let tail := padding_len + route_bytes in
      if padding_len =? 0 then Ret (Err MkWireError) else
      if len bytes <? ENVELOPE_FIXED_OVERHEAD + tail
      then Ret (Err MkWireError) else
      padding ← slice bytes (len bytes - padding_len) (len bytes);
      if negb (forallb (λ byte, byte =? padding_len) padding)
      then Ret (Err MkWireError) else
      let payload_end := len bytes - tail in
      let route_end := len bytes - padding_len in
      payload ← slice bytes ENVELOPE_FIXED_OVERHEAD payload_end;
      route_plan ←
        decode_route (Z.to_nat route_plan_len) bytes payload_end route_end;
      Ret (Ok (Build_t (stamp_time stamp) (stamp_seq_id stamp)
                 (stamp_seq_no stamp) route_plan payload (wrap 8 padding_len)))
  end.

(** What the encoder may be given: fields within their wire widths. *)
Record wf (e : t) : Prop := {
  wf_time : in_width TIME_BITS (time e);
  wf_seq_id : in_width 48 (seq_id e);
  wf_seq_no : in_width 48 (seq_no e);
  wf_route : Forall (in_width 16) (route_plan e);
  wf_route_len : len (route_plan e) < 64;
  wf_padding : 1 <= padding_len e <= 255;
}.

(** The length of an encoded envelope, prefix excluded. *)
Definition encoded_len (e : t) : Z :=
  ENVELOPE_FIXED_OVERHEAD + len (payload e)
  + len (route_plan e) * CHANNEL_ID_SIZE + padding_len e.

End Envelope.

Definition envelope_stamp (e : Envelope.t) : EnvelopeStamp :=
  Build_EnvelopeStamp (Envelope.time e) (Envelope.seq_id e) (Envelope.seq_no e).

Definition endpoint_nonce (stamp : EnvelopeStamp) : comp (list Z) :=
  let nonce := vec 16 0 in
  let time_and_route :=
    wrap 32 (Z.shiftl (Z.land (stamp_time stamp) TIME_MASK) ROUTE_BITS) in
  nonce ← copy_from_slice nonce 0 4 (to_le 4 time_and_route);
  nonce ← put_u48_slice nonce 4 10 (stamp_seq_id stamp);
  put_u48_slice nonce 10 16 (stamp_seq_no stamp).

(** ** Endpoint messages *)

Definition encode_flags_body (prefix_len type_flag reply_depth : Z)
    (body : list Z) : list Z :=
  let out := vec prefix_len 0 in
  let out :=
    out ++ [Z.lor type_flag (wrap 8 (Z.shiftl reply_depth REPLY_DEPTH_SHIFT))] in
  out ++ body.

Module EndpointMessage.

Inductive t : Type :=
  | KcpPacket (reply_depth : Z) (packet : list Z)
  | KeepAlive (reply_depth : Z)
  | RouteReply (reply_depth : Z) (received_seq_id received_seq_no : Z).

Definition encode_with_prefix (self : t) (prefix_len : Z) : comp (list Z) :=
  match self with
  | KcpPacket reply_depth packet =>
      Ret (encode_flags_body prefix_len FLAG_KCP reply_depth packet)
  | KeepAlive reply_depth =>
      Ret (encode_flags_body prefix_len FLAG_KEEP_ALIVE reply_depth [])
  | RouteReply reply_depth received_seq_id received_seq_no =>
      let body := vec 12 0 in
      body ← put_u48_slice body 0 6 received_seq_id;
      body ← put_u48_slice body 6 12 received_seq_no;
      Ret (encode_flags_body prefix_len FLAG_ROUTE_REPLY reply_depth body)
  end.

Definition decode (bytes : list Z) : comp t :=
  flags ← index bytes 0;
  let reply_depth := Z.land (Z.shiftr flags REPLY_DEPTH_SHIFT) REPLY_DEPTH_MASK in
  let type_bits :=
    Z.land flags
      (wrap 8 (Z.lnot (wrap 8 (Z.shiftl REPLY_DEPTH_MASK REPLY_DEPTH_SHIFT)))) in
  if type_bits =? FLAG_KCP then
    packet ← slice bytes 1 (len bytes);
    Ret (KcpPacket reply_depth packet)
  else if type_bits =? FLAG_KEEP_ALIVE then Ret (KeepAlive reply_depth)
  else if type_bits =? FLAG_ROUTE_REPLY then
    received_seq_id ← slice bytes 1 7 ≫= get_u48;
    received_seq_no ← slice bytes 7 13 ≫= get_u48;
    Ret (RouteReply reply_depth received_seq_id received_seq_no)
  else Panic.

Definition reply_depth (self : t) : Z :=
  match self with
  | KcpPacket reply_depth _ | KeepAlive reply_depth
  | RouteReply reply_depth _ _ => reply_depth
  end.

(** Messages whose fields fit the wire. *)
Definition wf (m : t) : Prop :=
  0 <= reply_depth m <= 3 ∧
  match m with
  | RouteReply _ received_seq_id received_seq_no =>
      in_width 48 received_seq_id ∧ in_width 48 received_seq_no
  | _ => True
  end.

End EndpointMessage.

(** ** Session messages *)

Module SessionMessage.

Inductive t : Type :=
  | Open
  | Data (bytes : list Z)
  | Close (reason : CloseReason).

Definition encode (self : t) : list Z :=
  match self with
  | Open => [0]
  | Data bytes => [1] ++ bytes
  | Close reason => [2] ++ [close_reason_u8 reason]
  end.

Definition decode (bytes : list Z) : comp t :=
  tag ← index bytes 0;
  if tag =? 0 then Ret Open
  else if tag =? 1 then
    rest ← slice bytes 1 (len bytes);
    Ret (Data rest)
  else if tag =? 2 then
    r ← index bytes 1;
    (if r =? 0 then Ret (Close LocalClosed)
     else if r =? 1 then Ret (Close RemoteClosed)
     else if r =? 2 then Ret (Close Reset)
     else if r =? 3 then Ret (Close Error)
     else Panic)
  else Panic.

End SessionMessage.
