(* ===== verification/WireFacts.v ===== *)
(** * Correctness of the wire format

    Round trips of the three message layers, canonicity and totality of the
    envelope decoder, and the relation between the endpoint nonce and the
    envelope header. *)

From S2P Require Import Prelude Bytes Core Wire.

(** The sixteen header bytes of an envelope. *)
Definition header_bytes (time seq_id seq_no route_len : Z) : list Z :=
  to_le 4 (time * 64 + route_len) ++ to_le 6 seq_id ++ to_le 6 seq_no.

(** The header with the six route-length bits cleared. *)
Definition clear_route_bits (header : list Z) : list Z :=
  match header with
  | [] => []
  | b :: bs => Z.land b (wrap 8 (Z.lnot ROUTE_MASK)) :: bs
  end.

(** ** Pieces *)

Lemma TIME_MASK_eq : TIME_MASK = 2 ^ 26 - 1.
Proof. done. Qed.

Lemma put_u48_eq out v : put_u48 out v = out ++ to_le 6 v.
Proof. unfold put_u48. by rewrite (take_to_le 6 8) by lia. Qed.

Lemma put_u48_slice_eq l1 l2 l3 v a b :
  a = len l1 → len l2 = 6 → b = a + 6 →
  put_u48_slice (l1 ++ l2 ++ l3) a b v = Ret (l1 ++ to_le 6 v ++ l3).
Proof.
  intros -> Hl ->. unfold put_u48_slice. rewrite (take_to_le 6 8) by lia.
  pose proof (len_nonneg l1). pose proof (len_nonneg l3).
  rewrite copy_from_slice_returns by (rewrite ?len_app, ?len_to_le; lia).
  replace (Z.to_nat (len l1)) with (length l1) by (unfold len; lia).
  rewrite take_app_length. repeat f_equal.
  replace (Z.to_nat (len l1 + 6)) with (length (l1 ++ l2))
    by (rewrite length_app; unfold len in *; lia).
  by rewrite app_assoc, drop_app_length.
Qed.

Lemma get_u48_eq bs : len bs = 6 → get_u48 bs = Ret (from_le bs).
Proof.
  intros H. unfold get_u48.
  rewrite copy_from_slice_returns; [|lia|by vm_compute|lia].
  cbn [mbind comp_bind]. f_equal. change (take _ _) with (@nil Z).
  change (drop _ _) with [0; 0]. cbn [app]. rewrite from_le_app.
  rewrite (from_le_zeros 2 : from_le [0; 0] = 0). lia.
Qed.

Lemma get_u48_to_le v : in_width 48 v → get_u48 (to_le 6 v) = Ret v.
Proof.
  intros H. rewrite get_u48_eq by apply len_to_le.
  f_equal. by apply from_le_to_le_id.
Qed.

Lemma header_word time route_len :
  in_width TIME_BITS time → 0 <= route_len < 64 →
  Z.lor (wrap 32 (Z.shiftl (Z.land time TIME_MASK) ROUTE_BITS)) (wrap 32 route_len)
  = time * 64 + route_len.
Proof.
  intros Ht Hr. unfold in_width in Ht. change (2 ^ TIME_BITS) with (2 ^ 26) in Ht.
  rewrite TIME_MASK_eq, land_ones_mod, Z.mod_small by lia.
  rewrite !wrap_id; [|lia|].
  - change ROUTE_BITS with 6. rewrite lor_shiftl_add by lia. lia.
  - rewrite Z.shiftl_mul_pow2 by done. change (2 ^ ROUTE_BITS) with 64. lia.
Qed.

Lemma header_word_bound time route_len :
  in_width TIME_BITS time → 0 <= route_len < 64 →
  0 <= time * 64 + route_len < 2 ^ 32.
Proof.
  unfold in_width. change (2 ^ TIME_BITS) with (2 ^ 26). lia.
Qed.

Lemma len_header_bytes t i n r : len (header_bytes t i n r) = 16.
Proof. unfold header_bytes. by rewrite !len_app, !len_to_le. Qed.

Lemma len_routes (rp : list Z) : len (concat (to_le 2 <$> rp)) = len rp * 2.
Proof.
  induction rp as [|c rp IH]; [done|].
  rewrite fmap_cons. cbn [concat]. rewrite len_app, len_to_le, IH, len_cons. lia.
Qed.

(** The encoder's output, laid out. *)
Lemma encode_layout e p : Envelope.wf e →
  Envelope.encode_with_prefix e p
  = vec p 0 ++ header_bytes (Envelope.time e) (Envelope.seq_id e)
      (Envelope.seq_no e) (len (Envelope.route_plan e))
    ++ Envelope.payload e
    ++ concat (to_le 2 <$> Envelope.route_plan e)
    ++ vec (Envelope.padding_len e) (Envelope.padding_len e).
Proof.
  intros [Ht _ _ _ Hl _]. unfold Envelope.encode_with_prefix, header_bytes.
  rewrite header_word by (pose proof (len_nonneg (Envelope.route_plan e)); auto).
  rewrite !put_u48_eq. by rewrite <- !(assoc_L (++)).
Qed.

Lemma len_encode e p : 0 <= p → Envelope.wf e →
  len (Envelope.encode_with_prefix e p) = p + Envelope.encoded_len e.
Proof.
  intros Hp He. rewrite encode_layout by done. destruct He.
  rewrite !len_app, !len_vec, len_header_bytes, len_routes by lia.
  unfold Envelope.encoded_len. change ENVELOPE_FIXED_OVERHEAD with 16.
  change CHANNEL_ID_SIZE with 2. lia.
Qed.

Lemma envelope_prefix_header t i n r rest :
  in_width TIME_BITS t → in_width 48 i → in_width 48 n → 0 <= r < 64 →
  envelope_prefix (header_bytes t i n r ++ rest)
  = Ret (Ok (Build_EnvelopeStamp t i n, r)).
Proof.
  intros Ht Hi Hn Hr. unfold envelope_prefix.
  pose proof (len_nonneg rest).
  rewrite len_app, len_header_bytes. change ENVELOPE_FIXED_OVERHEAD with 16.
  case_cmp. unfold header_bytes. rewrite <- !(assoc_L (++)).
  rewrite (slice_app_l (to_le 4 _) _ 4) by (rewrite ?len_to_le; lia). cbn [mbind comp_bind].
  rewrite (slice_app (to_le 4 _) (to_le 6 i) _ 4 10) by (rewrite ?len_to_le; lia). cbn [mbind comp_bind].
  rewrite get_u48_to_le by done. cbn [mbind comp_bind].
  rewrite (assoc_L (++) (to_le 4 _) (to_le 6 i)).
  rewrite (slice_app (_ ++ _) (to_le 6 n)) by (rewrite len_app, !len_to_le; lia).
  cbn [mbind comp_bind]. rewrite get_u48_to_le by done. cbn [mbind comp_bind].
  pose proof (header_word_bound t r Ht Hr).
  rewrite from_le_to_le_id by done.
  do 2 f_equal. rewrite Z.shiftr_div_pow2 by done. change (2 ^ ROUTE_BITS) with 64.
  change ROUTE_MASK with (2 ^ 6 - 1). rewrite land_ones_mod by done.
  rewrite Z.add_comm, Z.div_add, Z.div_small, Z.add_0_l by lia.
  change (2 ^ 6) with 64. rewrite Z_mod_plus_full, Z.mod_small by lia. done.
Qed.

(** The loop reads back the route plan it is pointed at. *)
Lemma decode_route_while rp acc pre post fuel offset route_end :
  Forall (in_width 16) rp → (length rp <= fuel)%nat →
  offset = len pre → route_end = len pre + len rp * 2 →
  while fuel (λ '(offset, _), offset <? route_end)
    (λ '(offset, route_plan),
       channel ← slice (pre ++ concat (to_le 2 <$> rp) ++ post) offset (offset + 2);
       Ret (offset + 2, route_plan ++ [from_le channel])) (offset, acc)
  = Ret (route_end, acc ++ rp).
Proof.
  intros Hrp. revert acc pre fuel offset.
  induction Hrp as [|c rp Hc Hrp IH]; intros acc pre fuel offset Hf -> Hend.
  - rewrite (@len_nil Z) in Hend. replace route_end with (len pre) by lia.
    rewrite app_nil_r. destruct fuel; cbn; by rewrite Z.ltb_irrefl.
  - pose proof (len_nonneg rp). rewrite len_cons in Hend.
    destruct fuel as [|fuel]; cbn in Hf; [lia|]. cbn [while].
    rewrite (proj2 (Z.ltb_lt _ _)) by lia.
    rewrite fmap_cons. cbn [concat]. rewrite <- (assoc_L (++) (to_le 2 c)).
    rewrite (slice_app pre (to_le 2 c)) by (rewrite ?len_to_le; lia).
    cbn [mbind comp_bind]. rewrite from_le_to_le_id by done.
    rewrite (assoc_L (++) pre (to_le 2 c)).
    rewrite IH; [by rewrite <- (assoc_L (++) acc) | lia | |].
    + by rewrite len_app, len_to_le.
    + rewrite len_app, len_to_le. lia.
Qed.

Lemma decode_route_eq rp pre post fuel :
  Forall (in_width 16) rp → (length rp <= fuel)%nat →
  Envelope.decode_route fuel (pre ++ concat (to_le 2 <$> rp) ++ post)
    (len pre) (len pre + len rp * 2) = Ret rp.
Proof.
  intros. unfold Envelope.decode_route. by rewrite decode_route_while.
Qed.

Lemma last_app_vec (l : list Z) n x : 0 < n → last (l ++ vec n x) = Some x.
Proof.
  intros Hn. unfold vec. replace (Z.to_nat n) with (S (Z.to_nat (n - 1))) by lia.
  rewrite replicate_S_end, (assoc_L (++)). by rewrite last_snoc.
Qed.

Lemma forallb_vec n x : forallb (λ b, b =? x) (vec n x) = true.
Proof.
  unfold vec. induction (Z.to_nat n) as [|k IH]; cbn; [done|].
  by rewrite Z.eqb_refl.
Qed.

(** ** Envelope round trip *)

Lemma envelope_decode_encode e :
  Envelope.wf e →
  Envelope.decode (Envelope.encode_with_prefix e 0) = Ret (Ok e).
Proof.
  intros He. pose proof (len_encode e 0 ltac:(lia) He) as Hlen.
  rewrite encode_layout in * by done. change (vec 0 0) with (@nil Z) in *.
  cbn [app] in *.
  destruct e as [t i n rp pl pad], He as [Ht Hi Hn Hrp Hrl Hp].
  cbn [Envelope.time Envelope.seq_id Envelope.seq_no Envelope.route_plan
       Envelope.payload Envelope.padding_len] in *.
  unfold Envelope.encoded_len in Hlen. cbn [Envelope.payload Envelope.route_plan Envelope.padding_len] in Hlen.
  change ENVELOPE_FIXED_OVERHEAD with 16 in Hlen.
  change CHANNEL_ID_SIZE with 2 in Hlen.
  pose proof (len_nonneg rp). pose proof (len_nonneg pl).
  unfold Envelope.decode.
  rewrite envelope_prefix_header by (done || lia). cbn [mbind comp_bind].
  change ENVELOPE_FIXED_OVERHEAD with 16. change CHANNEL_ID_SIZE with 2.
  set (hdr := header_bytes t i n (len rp)) in *.
  assert (Hh : len hdr = 16) by apply len_header_bytes.
  rewrite !(assoc_L (++)), last_app_vec, <- !(assoc_L (++)) by lia.
  cbn beta iota zeta. rewrite Hlen.
  case_cmp. case_cmp.
  replace (slice _ (_ - pad) (0 + _)) with (Ret (vec pad pad)).
  2: { rewrite !(assoc_L (++)), slice_app_r; [done| |];
       rewrite !len_app, Hh, len_routes, ?len_vec; lia. }
  cbn [mbind comp_bind]. rewrite forallb_vec. cbn [negb].
  rewrite (slice_app hdr pl) by (rewrite ?Hh; lia). cbn [mbind comp_bind].
  rewrite (assoc_L (++) hdr pl).
  replace (0 + _ - (pad + _)) with (len (hdr ++ pl)) by (rewrite len_app, Hh; lia).
  replace (0 + _ - pad) with (len (hdr ++ pl) + len rp * 2)
    by (rewrite len_app, Hh; lia).
  rewrite decode_route_eq by (done || unfold len; lia).
  cbn [mbind comp_bind stamp_time stamp_seq_id stamp_seq_no].
  rewrite wrap_id by (change (2 ^ 8) with 256; lia). done.
Qed.

(** ** Canonicity: the decoder accepts only the encoder's output *)

Lemma get_u48_Ret bs v :
  bytes_ok bs → len bs = 6 → get_u48 bs = Ret v → in_width 48 v ∧ bs = to_le 6 v.
Proof.
  intros Hok Hl. rewrite get_u48_eq by done. intros [= <-]. split.
  - pose proof (from_le_bound bs Hok) as Hb. by rewrite Hl in Hb.
  - symmetry. apply to_le_from_le; [done|]. unfold len in Hl. lia.
Qed.

Lemma header_word_split w :
  in_width 32 w →
  in_width TIME_BITS (Z.shiftr w ROUTE_BITS) ∧ 0 <= Z.land w ROUTE_MASK < 64
  ∧ w = Z.shiftr w ROUTE_BITS * 64 + Z.land w ROUTE_MASK.
Proof.
  unfold in_width. intros Hw. change ROUTE_MASK with (2 ^ 6 - 1).
  rewrite land_ones_mod, Z.shiftr_div_pow2 by done.
  change (2 ^ ROUTE_BITS) with 64. change (2 ^ 6) with 64.
  change (2 ^ TIME_BITS) with (2 ^ 26).
  pose proof (Z.div_mod w 64). pose proof (Z.mod_pos_bound w 64).
  assert (w / 64 < 2 ^ 26) by (apply Z.div_lt_upper_bound; lia).
  assert (0 <= w / 64) by (apply Z.div_pos; lia). lia.
Qed.

Lemma envelope_prefix_Ok bytes s r :
  bytes_ok bytes → envelope_prefix bytes = Ret (Ok (s, r)) →
  slice bytes 0 16
  = Ret (header_bytes (stamp_time s) (stamp_seq_id s) (stamp_seq_no s) r)
  ∧ in_width TIME_BITS (stamp_time s) ∧ in_width 48 (stamp_seq_id s)
  ∧ in_width 48 (stamp_seq_no s) ∧ 0 <= r < 64.
Proof.
  intros Hok. unfold envelope_prefix. change ENVELOPE_FIXED_OVERHEAD with 16.
  case_cmp; [done|]. intros Hp.
  apply bind_ret in Hp as (w & Hw & Hp).
  apply bind_ret in Hp as (i & Hi & Hp). apply bind_ret in Hi as (bi & Hbi & Hi).
  apply bind_ret in Hp as (n & Hn & Hp). apply bind_ret in Hn as (bn & Hbn & Hn).
  injection Hp as <- <-. cbn [stamp_time stamp_seq_id stamp_seq_no].
  apply get_u48_Ret in Hi as [? ->]; [|eauto with rust|by apply slice_len in Hbi].
  apply get_u48_Ret in Hn as [? ->]; [|eauto with rust|by apply slice_len in Hbn].
  assert (bytes_ok w) as Hwok by eauto with rust.
  apply slice_len in Hw as Hwl.
  assert (in_width 32 (from_le w)) as (?&?&He)%header_word_split.
  { pose proof (from_le_bound w Hwok) as Hb. by rewrite Hwl in Hb. }
  split; [|done]. unfold header_bytes. rewrite <- He, to_le_from_le by
    (done || (unfold len in Hwl; lia)).
  eapply slice_join; [|eapply slice_join]; done.
Qed.

Lemma decode_route_Ret fuel bytes a b rp :
  bytes_ok bytes → a <= b → (2 | b - a) →
  Envelope.decode_route fuel bytes a b = Ret rp → 0 <= a → b <= len bytes →
  slice bytes a b = Ret (concat (to_le 2 <$> rp)) ∧ Forall (in_width 16) rp
  ∧ b - a = len rp * 2.
Proof.
  intros Hok Hab [k Hk] H Ha Hb. unfold Envelope.decode_route in H.
  destruct (while _ _ _ _) as [[o acc]| |] eqn:Hw; cbn in H; try done.
  injection H as ->.
  apply (while_inv (λ '(o, acc), a <= o <= b ∧ o - a = len acc * 2
    ∧ slice bytes a o = Ret (concat (to_le 2 <$> acc)) ∧ Forall (in_width 16) acc))
    in Hw as [(Ho & Hl & Hs & Hf) Hc].
  - bool_to_prop. assert (o = b) as -> by lia. done.
  - intros [o1 a1] t' (Ho & Hl & Hs & Hf) Hc Ht. bool_to_prop.
    apply bind_ret in Ht as (ch & Hch & [= <-]).
    apply slice_len in Hch as Hcl. assert (bytes_ok ch) as Hcok by eauto with rust.
    rewrite len_app, fmap_app, concat_app. cbn [fmap list_fmap concat].
    rewrite to_le_from_le by (done || (unfold len in Hcl; lia)).
    split_and!; [lia|lia|rewrite len_cons, (@len_nil Z); lia| |].
    + rewrite app_nil_r. by eapply slice_join.
    + apply Forall_app; split; [done|]. repeat constructor;
      pose proof (from_le_bound ch Hcok) as Hbd; rewrite Hcl in Hbd;
      replace (8 * _) with 16 in Hbd by lia; apply Hbd.
  - split; [lia|]. split; [rewrite (@len_nil Z); lia|]. split; [|constructor].
    rewrite slice_returns by lia. by rewrite Z.sub_diag.
Qed.

Lemma forallb_eq_vec l x n :
  len l = n → forallb (λ b, b =? x) l = true → l = vec n x.
Proof.
  intros <- H. unfold vec, len. rewrite Nat2Z.id.
  induction l as [|y l IH]; cbn in *; [done|]. bool_to_prop. subst. f_equal. auto.
Qed.

Lemma last_byte bytes x : bytes_ok bytes → last bytes = Some x → in_width 8 x.
Proof.
  intros Hok (l & ->)%last_Some. apply Forall_app in Hok as [_ Hok].
  by apply Forall_cons in Hok as [? _].
Qed.

Lemma envelope_decode_Ok bytes e :
  bytes_ok bytes → Envelope.decode bytes = Ret (Ok e) →
  Envelope.wf e ∧ bytes_ok (Envelope.payload e)
  ∧ Envelope.encode_with_prefix e 0 = bytes.
Proof.
  intros Hok. unfold Envelope.decode. intros H.
  apply bind_ret in H as ([[s r]|] & Hpre & H); [|done].
  apply envelope_prefix_Ok in Hpre as (Hhdr & Ht & Hi & Hn & Hr); [|done].
  cbn beta iota in H. destruct (last bytes) as [pad|] eqn:Hlast; [|done].
  apply last_byte in Hlast as Hpad; [|done].
  change ENVELOPE_FIXED_OVERHEAD with 16 in H. change CHANNEL_ID_SIZE with 2 in H.
  destruct (Z.eqb_spec pad 0); [done|].
  destruct (Z.ltb_spec (len bytes) (16 + (pad + r * 2))); [done|].
  unfold in_width in Hpad. change (2 ^ 8) with 256 in Hpad.
  apply bind_ret in H as (padding & Hpd & H).
  destruct (forallb _ padding) eqn:Hall; [|done]. cbn [negb] in H.
  apply bind_ret in H as (pl & Hpl & H). apply bind_ret in H as (rp & Hrp & H).
  injection H as <-.
  apply forallb_eq_vec with (n := pad) in Hall as ->;
    [|apply slice_len in Hpd; lia].
  apply decode_route_Ret in Hrp as (Hrs & Hrw & Hrl); [|done|lia| |lia|lia].
  2: { exists r. lia. }
  assert (len rp = r) as <- by lia.
  assert (Envelope.wf (Envelope.Build_t (stamp_time s) (stamp_seq_id s)
    (stamp_seq_no s) rp pl pad)) as Hwf by (constructor; cbn; done || lia).
  rewrite wrap_id by (change (2 ^ 8) with 256; lia). split_and!; [done|..].
  { eauto with rust. }
  rewrite encode_layout by done. change (vec 0 0) with (@nil Z).
  rewrite (app_nil_l (header_bytes _ _ _ _ ++ _)).
  apply Ret_inj. rewrite <- (slice_all bytes). symmetry.
  repeat (eapply slice_join; [eassumption|]). done.
Qed.

(** ** Totality on untrusted input *)

Lemma slice_returns' {A} (l : list A) a b :
  0 <= a <= b → b <= len l → ∃ s, slice l a b = Ret s ∧ len s = b - a.
Proof.
  intros. destruct (slice l a b) eqn:E.
  - exists a0. by apply slice_len in E as ->.
  - rewrite slice_returns in E by lia. done.
  - rewrite slice_returns in E by lia. done.
Qed.

Lemma envelope_prefix_returns bytes : returns (envelope_prefix bytes).
Proof.
  unfold envelope_prefix. change ENVELOPE_FIXED_OVERHEAD with 16.
  case_cmp; [eauto with rust|].
  destruct (slice_returns' bytes 0 4) as (w & -> & _); [lia..|].
  destruct (slice_returns' bytes 4 10) as (i & -> & Hi); [lia..|].
  destruct (slice_returns' bytes 10 16) as (n & -> & Hn); [lia..|].
  cbn [mbind comp_bind]. rewrite !get_u48_eq by lia. eauto with rust.
Qed.

Lemma decode_route_returns fuel bytes a b :
  0 <= a → b <= len bytes → b - a = 2 * Z.of_nat fuel →
  returns (Envelope.decode_route fuel bytes a b).
Proof.
  intros Ha Hb Hf. unfold Envelope.decode_route.
  assert (∃ s, while fuel (λ '(offset, _), offset <? b)
    (λ '(offset, route_plan), channel ← slice bytes offset (offset + 2);
       Ret (offset + 2, route_plan ++ [from_le channel])) (a, []) = Ret s)
    as [s ->].
  2: { cbn. eauto with rust. }
  edestruct (while_total (λ '((o, _) : Z * list Z), a <= o ∧ (2 | b - o))
    (λ '((o, _) : Z * list Z), Z.to_nat ((b - o) / 2))) as (s & Hs & _); [| | |by exists s].
  - intros [o acc] [Ho [k Hk]] Hc. bool_to_prop.
    destruct (slice_returns' bytes o (o + 2)) as (ch & -> & _); [lia..|].
    cbn. eexists; split; [done|]. split; [split; [lia|exists (k - 1); lia]|].
    replace (b - o) with (k * 2) by lia.
    replace (b - (o + 2)) with ((k - 1) * 2) by lia. rewrite !Z.div_mul; lia.
  - split; [lia|]. exists (Z.of_nat fuel). lia.
  - cbn. rewrite Hf, Z.mul_comm, Z.div_mul; lia.
Qed.

Lemma envelope_decode_returns bytes :
  bytes_ok bytes → returns (Envelope.decode bytes).
Proof.
  intros Hok. unfold Envelope.decode.
  destruct (envelope_prefix_returns bytes) as [[[s r]|] Hpre];
    rewrite Hpre; [|by eexists]. cbn [mbind comp_bind].
  apply envelope_prefix_Ok in Hpre as (_ & _ & _ & _ & Hr); [|done].
  destruct (last bytes) as [pad|] eqn:Hlast; [|by eexists].
  apply last_byte in Hlast as Hpad; [|done].
  unfold in_width in Hpad. change (2 ^ 8) with 256 in Hpad.
  change ENVELOPE_FIXED_OVERHEAD with 16. change CHANNEL_ID_SIZE with 2.
  destruct (Z.eqb_spec pad 0); [by eexists|].
  destruct (Z.ltb_spec (len bytes) (16 + (pad + r * 2))); [by eexists|].
  destruct (slice_returns' bytes (len bytes - pad) (len bytes)) as (pd & -> & _);
    [lia..|]. cbn [mbind comp_bind].
  destruct (negb _); [by eexists|].
  destruct (slice_returns' bytes 16 (len bytes - (pad + r * 2))) as (pl & -> & _);
    [lia..|]. cbn [mbind comp_bind].
  apply returns_bind; [|intros; by eexists].
  apply decode_route_returns; lia.
Qed.

(** ** Endpoint messages *)

(** The plaintext of an endpoint message. *)
Definition message_bytes (m : EndpointMessage.t) : list Z :=
  match m with
  | EndpointMessage.KcpPacket d packet => Z.lor FLAG_KCP (d * 8) :: packet
  | EndpointMessage.KeepAlive d => [Z.lor FLAG_KEEP_ALIVE (d * 8)]
  | EndpointMessage.RouteReply d i n =>
      Z.lor FLAG_ROUTE_REPLY (d * 8) :: to_le 6 i ++ to_le 6 n
  end.

Lemma encode_flags_body_eq p f d body :
  0 <= d <= 3 →
  encode_flags_body p f d body = vec p 0 ++ Z.lor f (d * 8) :: body.
Proof.
  intros Hd. unfold encode_flags_body. rewrite <- (assoc_L (++)).
  rewrite Z.shiftl_mul_pow2 by done. change (2 ^ REPLY_DEPTH_SHIFT) with 8.
  by rewrite wrap_id by (change (2 ^ 8) with 256; lia).
Qed.

Lemma message_encode_eq m p :
  EndpointMessage.wf m →
  EndpointMessage.encode_with_prefix m p = Ret (vec p 0 ++ message_bytes m).
Proof.
  intros [Hd Hm]. destruct m as [d pk|d|d i n]; cbn in Hd, Hm |- *.
  - by rewrite encode_flags_body_eq.
  - by rewrite encode_flags_body_eq.
  - change (vec 12 0) with ([] ++ vec 6 0 ++ vec 6 0).
    rewrite put_u48_slice_eq by done. cbn [mbind comp_bind].
    rewrite (app_nil_l (to_le 6 i ++ _)), <- (app_nil_r (vec 6 0)).
    rewrite put_u48_slice_eq by done. cbn [mbind comp_bind].
    by rewrite app_nil_r, encode_flags_body_eq.
Qed.

Lemma flags_decode d f :
  0 <= d <= 3 → 0 <= f < 8 →
  Z.land (Z.shiftr (Z.lor f (d * 8)) REPLY_DEPTH_SHIFT) REPLY_DEPTH_MASK = d
  ∧ Z.land (Z.lor f (d * 8))
      (wrap 8 (Z.lnot (wrap 8 (Z.shiftl REPLY_DEPTH_MASK REPLY_DEPTH_SHIFT)))) = f.
Proof.
  intros Hd Hf.
  assert (d = 0 ∨ d = 1 ∨ d = 2 ∨ d = 3) as Hd' by lia.
  assert (f = 0 ∨ f = 1 ∨ f = 2 ∨ f = 3 ∨ f = 4 ∨ f = 5 ∨ f = 6 ∨ f = 7) as Hf'
    by lia.
  destruct_or!; subst; by vm_compute.
Qed.

Lemma message_decode_bytes m :
  EndpointMessage.wf m → EndpointMessage.decode (message_bytes m) = Ret m.
Proof.
  intros [Hd Hm]. unfold EndpointMessage.decode.
  assert (∃ f rest, message_bytes m = Z.lor f (EndpointMessage.reply_depth m * 8) :: rest
    ∧ 0 <= f < 8 ∧ f = match m with EndpointMessage.KcpPacket _ _ => FLAG_KCP
      | EndpointMessage.KeepAlive _ => FLAG_KEEP_ALIVE
      | EndpointMessage.RouteReply _ _ _ => FLAG_ROUTE_REPLY end)
    as (f & rest & Hb & Hf & Hfe).
  { destruct m; cbn; eexists _, _; (split; [done|]); by vm_compute. }
  rewrite Hb. change (index (_ :: rest) 0) with (Ret (Z.lor f (EndpointMessage.reply_depth m * 8))).
  cbn [mbind comp_bind].
  destruct (flags_decode (EndpointMessage.reply_depth m) f Hd Hf) as [-> ->].
  destruct m as [d pk|d|d i n]; cbn in Hd, Hm; subst f;
    cbn [EndpointMessage.reply_depth] in *; injection Hb as <-.
  - change (FLAG_KCP =? FLAG_KCP) with true. cbv iota.
    by rewrite slice_tail.
  - done.
  - change (FLAG_ROUTE_REPLY =? FLAG_KCP) with false.
    change (FLAG_ROUTE_REPLY =? FLAG_KEEP_ALIVE) with false.
    change (FLAG_ROUTE_REPLY =? FLAG_ROUTE_REPLY) with true. cbv iota.
    rewrite (slice_cons_app _ [] (to_le 6 i) (to_le 6 n) 1 7)
      by (rewrite ?len_to_le; done).
    cbn [mbind comp_bind]. rewrite get_u48_to_le by apply Hm. cbn [mbind comp_bind].
    pose proof (slice_cons_app (Z.lor FLAG_ROUTE_REPLY (d * 8)) (to_le 6 i)
      (to_le 6 n) [] 7 13) as Hs. rewrite app_nil_r in Hs.
    rewrite Hs by (rewrite ?len_to_le; done).
    cbn [mbind comp_bind]. by rewrite get_u48_to_le by apply Hm.
Qed.

(** ** Session messages *)

Lemma session_decode_encode m :
  SessionMessage.decode (SessionMessage.encode m) = Ret m.
Proof.
  destruct m as [|bs|[]]; [done| |done..].
  unfold SessionMessage.decode, SessionMessage.encode.
  change ([1] ++ bs) with (1 :: bs). change (index (1 :: bs) 0) with (Ret 1).
  cbn [mbind comp_bind]. by rewrite slice_tail.
Qed.

(** ** The endpoint nonce *)

Lemma clear_low_bits b : 0 <= b < 256 →
  Z.land b (wrap 8 (Z.lnot ROUTE_MASK)) = b - b mod 64.
Proof.
  intros Hb.
  assert (forallb (λ b, Z.land b (wrap 8 (Z.lnot ROUTE_MASK)) =? b - b mod 64)
    (seqZ 0 256) = true) as H by by vm_compute.
  rewrite forallb_forall in H. apply Z.eqb_eq, H.
  apply list_elem_of_In, elem_of_seqZ. lia.
Qed.

Lemma clear_header t i n r :
  0 <= r < 64 → clear_route_bits (header_bytes t i n r) = header_bytes t i n 0.
Proof.
  intros Hr. unfold header_bytes.
  rewrite !(to_le_S 3).
  cbn [clear_route_bits app]. rewrite clear_low_bits by (apply Z.mod_pos_bound; lia).
  f_equal; [|f_equal; f_equal].
  - Z.div_mod_to_equations; lia.
  - Z.div_mod_to_equations; lia.
Qed.

Lemma endpoint_nonce_eq s :
  in_width TIME_BITS (stamp_time s) →
  endpoint_nonce s
  = Ret (header_bytes (stamp_time s) (stamp_seq_id s) (stamp_seq_no s) 0).
Proof.
  intros Ht. unfold endpoint_nonce.
  pose proof (header_word (stamp_time s) 0 Ht ltac:(lia)) as Hw.
  change (wrap 32 0) with 0 in Hw. rewrite Z.lor_0_r in Hw. rewrite Hw.
  rewrite copy_from_slice_returns by (rewrite ?len_to_le; by vm_compute).
  change (take _ _) with (@nil Z). cbn [mbind comp_bind].
  change (drop _ _) with (vec 6 0 ++ vec 6 0). rewrite app_nil_l.
  rewrite put_u48_slice_eq by (rewrite ?len_to_le; done). cbn [mbind comp_bind].
  rewrite <- (app_nil_r (vec 6 0)), (assoc_L (++)).
  rewrite put_u48_slice_eq by (rewrite ?len_app, ?len_to_le; done).
  unfold header_bytes. by rewrite app_nil_r, <- (assoc_L (++)).
Qed.

Lemma header_bytes_inj t1 i1 n1 t2 i2 n2 :
  in_width TIME_BITS t1 → in_width TIME_BITS t2 →
  in_width 48 i1 → in_width 48 i2 → in_width 48 n1 → in_width 48 n2 →
  header_bytes t1 i1 n1 0 = header_bytes t2 i2 n2 0 →
  t1 = t2 ∧ i1 = i2 ∧ n1 = n2.
Proof.
  intros Ht1 Ht2 Hi1 Hi2 Hn1 Hn2 H. unfold header_bytes in H.
  apply app_inj_1 in H as [Ht H]; [|by rewrite !length_to_le].
  apply app_inj_1 in H as [Hi Hn]; [|by rewrite !length_to_le].
  pose proof (header_word_bound t1 0 Ht1 ltac:(lia)).
  pose proof (header_word_bound t2 0 Ht2 ltac:(lia)).
  apply to_le_inj in Ht; [|done..]. apply to_le_inj in Hi; [|done..].
  apply to_le_inj in Hn; [|done..]. lia.
Qed.

#[export] Hint Resolve envelope_decode_returns envelope_decode_encode : rust.

(** ** Properties *)

(** C18: an envelope within the wire widths survives encoding and decoding. *)
Theorem envelope_roundtrip e :
  Envelope.wf e →
  Envelope.decode (Envelope.encode_with_prefix e 0) = Ret (Ok e)
  ∧ len (Envelope.encode_with_prefix e 0) = Envelope.encoded_len e.
Proof. intros He. split; [by apply envelope_decode_encode|by apply len_encode]. Qed.

(** C19: decoding is canonical. *)
Theorem envelope_canonical bytes e :
  bytes_ok bytes → Envelope.decode bytes = Ret (Ok e) →
  Envelope.wf e ∧ Envelope.encode_with_prefix e 0 = bytes.
Proof. intros Hb He. by apply envelope_decode_Ok in He as (? & _ & ?). Qed.

(** C20: the decoder of untrusted bytes never panics nor loops. *)
Theorem envelope_decode_total bytes :
  bytes_ok bytes → ∃ r, Envelope.decode bytes = Ret r.
Proof. apply envelope_decode_returns. Qed.

(** C30: Decoding the encoding of a well-formed endpoint message gives back the
    message. *)
Theorem endpoint_message_roundtrip m :
  EndpointMessage.wf m →
  (EndpointMessage.encode_with_prefix m 0 ≫= EndpointMessage.decode) = Ret m.
Proof.
  intros Hm. rewrite message_encode_eq by done. by apply message_decode_bytes.
Qed.

(** Every session message decodes to itself after encoding. *)
Theorem session_message_roundtrip m :
  SessionMessage.decode (SessionMessage.encode m) = Ret m.
Proof. apply session_decode_encode. Qed.

(** The nonce of a message is the first 16 bytes of its encoded envelope with
    the bits of the route length cleared, so it is the same at every hop. *)
Lemma nonce_masked_header e :
  Envelope.wf e →
  endpoint_nonce (envelope_stamp e)
  = Ret (clear_route_bits (take 16 (Envelope.encode_with_prefix e 0))).
Proof.
  intros He. rewrite encode_layout by done. change (vec 0 0) with (@nil Z).
  destruct He. rewrite app_nil_l, take_app_length' by
    (pose proof (len_header_bytes (Envelope.time e) (Envelope.seq_id e)
      (Envelope.seq_no e) (len (Envelope.route_plan e))); unfold len in *; lia).
  rewrite clear_header by (pose proof (len_nonneg (Envelope.route_plan e)); lia).
  by rewrite endpoint_nonce_eq.
Qed.

(** Packets with different stamps have different message nonces. *)
Theorem nonce_injective s1 s2 :
  in_width TIME_BITS (stamp_time s1) → in_width TIME_BITS (stamp_time s2) →
  in_width 48 (stamp_seq_id s1) → in_width 48 (stamp_seq_id s2) →
  in_width 48 (stamp_seq_no s1) → in_width 48 (stamp_seq_no s2) →
  endpoint_nonce s1 = endpoint_nonce s2 → s1 = s2.
Proof.
  intros. rewrite !endpoint_nonce_eq in * by done.
  destruct s1, s2; cbn in *.
  match goal with H : Ret _ = Ret _ |- _ => apply Ret_inj in H; rename H into Hn end.
  by apply header_bytes_inj in Hn as (-> & -> & ->).
Qed.

(** ** Witnesses *)

Definition demo_envelope : Envelope.t :=
  Envelope.Build_t 5 1 2 [3] [9; 8] 4.

Definition demo_bytes : list Z := Eval vm_compute in Envelope.encode_with_prefix demo_envelope 0.

Lemma demo_envelope_wf : Envelope.wf demo_envelope.
Proof. split; cbn; repeat constructor; by vm_compute. Qed.

Lemma demo_bytes_ok : bytes_ok demo_bytes.
Proof. repeat constructor; by vm_compute. Qed.

Lemma envelope_roundtrip_witness :
  Envelope.decode (Envelope.encode_with_prefix demo_envelope 0) = Ret (Ok demo_envelope)
  ∧ len (Envelope.encode_with_prefix demo_envelope 0) = 24.
Proof. apply (envelope_roundtrip demo_envelope). exact demo_envelope_wf. Defined.

Lemma envelope_canonical_witness :
  Envelope.wf demo_envelope ∧ Envelope.encode_with_prefix demo_envelope 0 = demo_bytes.
Proof. apply envelope_canonical; [exact demo_bytes_ok|by vm_compute]. Defined.

Lemma envelope_decode_total_witness : ∃ r, Envelope.decode [1; 2; 3] = Ret r.
Proof. apply envelope_decode_total. repeat constructor; by vm_compute. Defined.

Lemma endpoint_message_roundtrip_witness :
  (EndpointMessage.encode_with_prefix (EndpointMessage.RouteReply 2 7 9) 0
     ≫= EndpointMessage.decode) = Ret (EndpointMessage.RouteReply 2 7 9).
Proof.
  apply endpoint_message_roundtrip. split; [by vm_compute|split; by vm_compute].
Defined.

Lemma nonce_masked_header_witness :
  endpoint_nonce (envelope_stamp demo_envelope)
  = Ret (clear_route_bits (take 16 (Envelope.encode_with_prefix demo_envelope 0))).
Proof. apply nonce_masked_header. exact demo_envelope_wf. Defined.

Lemma nonce_injective_witness :
  envelope_stamp demo_envelope = Build_EnvelopeStamp 5 1 2.
Proof. apply nonce_injective; by vm_compute. Defined.
