(* ===== verification/Sequence.v ===== *)
(** * Replay and freshness filter

    [sequence.rs]: a 2^20-bit circular bitmap per sender ([SequenceWindow]),
    a map of such windows keyed by [seq_id] ([SequenceFilter]), and the 26-bit
    modular clock comparison [time_diff].  [HashMap] iteration order is
    unspecified, so the two methods that iterate take it as a parameter. *)

From S2P Require Import Prelude Wire.

Definition TS_SHIFT : Z := 10.
Definition MAX_PAST_TICKS : Z := 645.
Definition MAX_FUTURE_TICKS : Z := 59.
Definition WINDOW_BITS : Z := Z.shiftl 1 20.
Definition WINDOW_WORDS : Z := WINDOW_BITS / 64.

Inductive SequenceDrop : Set := Freshness | Replay.

(** Signed difference of two 26-bit tick counters. *)
Definition time_diff (later earlier : Z) : Z :=
  let difference := Z.land (later -{32} earlier) TIME_MASK in
  if Z.shiftl 1 (TIME_BITS - 1) <=? difference
  then as_i32 difference - Z.shiftl 1 TIME_BITS
  else as_i32 difference.

(** The iteration order of a [HashMap]: any enumeration of its entries. *)
Class HashIter := hash_iter : ∀ {V : Type}, gmap Z V → list (Z * V).
Class HashIterSpec `{HashIter} : Prop :=
  hash_iter_perm : ∀ {V} (m : gmap Z V), hash_iter m ≡ₚ map_to_list m.

(** One order that satisfies the law. *)
#[local] Instance toy_iter : HashIter := λ V m, map_to_list m.
#[local] Instance toy_iter_spec : HashIterSpec.
Proof. by intros V m. Qed.

Module SequenceWindow.

Record t := {
  max_seq_no : Z;
  newest_time : Z;
  bitmap : list Z;
}.

#[global] Instance eta_SequenceWindow : Eta t := λ w,
  Build_t (max_seq_no w) (newest_time w) (bitmap w).

(** [1 << (bit & 63)] *)
Definition bit_mask (bit : Z) : Z := Z.shiftl 1 (Z.land bit 63).

(** [(seq_no as u32 & (WINDOW_BITS - 1)) as usize] *)
Definition bit_of (seq_no : Z) : Z := Z.land (wrap 32 seq_no) (WINDOW_BITS - 1).

Definition set (self : t) (seq_no : Z) : comp t :=
  let bit := bit_of seq_no in
  word ← index (bitmap self) (Z.shiftr bit 6);
  bitmap' ← store (bitmap self) (Z.shiftr bit 6) (Z.lor word (bit_mask bit));
  Ret (self <| bitmap := bitmap' |>).

Definition is_set (self : t) (seq_no : Z) : comp bool :=
  let bit := bit_of seq_no in
  word ← index (bitmap self) (Z.shiftr bit 6);
  Ret (negb (Z.land word (bit_mask bit) =? 0)).

Definition clear_bit (self : t) (bit : Z) : comp t :=
  word ← index (bitmap self) (Z.shiftr bit 6);
  bitmap' ← store (bitmap self) (Z.shiftr bit 6)
    (Z.land word (wrap 64 (Z.lnot (bit_mask bit))));
  Ret (self <| bitmap := bitmap' |>).

Definition new (seq_no time : Z) : comp t :=
  set (Build_t seq_no time (vec WINDOW_WORDS 0)) seq_no.

(** One iteration of the bitwise loops of [clear_after]. *)
Definition clear_one (s : Z * Z * t) : comp (Z * Z * t) :=
  let '(bit, remaining, self) := s in
  self ← clear_bit self bit;
  Ret (Z.land (bit +{32} 1) (WINDOW_BITS - 1), remaining - 1, self).

(** One iteration of the wordwise loop. *)
Definition clear_word (s : Z * Z * t) : comp (Z * Z * t) :=
  let '(bit, remaining, self) := s in
  bitmap' ← store (bitmap self) (Z.shiftr bit 6) 0;
  Ret (Z.land (bit +{32} 64) (WINDOW_BITS - 1), remaining - 64,
       self <| bitmap := bitmap' |>).

Definition clear_after (self : t) (old_max count : Z) : comp t :=
  let fuel := Z.to_nat count in
  let bit := Z.land (wrap 32 (old_max +{64} 1)) (WINDOW_BITS - 1) in
  s ← while fuel
    (λ '(bit, remaining, _),
       negb (remaining =? 0) && negb (Z.land bit 63 =? 0))
    clear_one (bit, count, self);
  s ← while fuel (λ '(_, remaining, _), 64 <=? remaining) clear_word s;
  s ← while fuel (λ '(_, remaining, _), negb (remaining =? 0)) clear_one s;
  Ret (snd s).

Definition insert (self : t) (seq_no time : Z)
    : comp (result SequenceDrop unit * t) :=
  let finish (self : t) : comp (result SequenceDrop unit * t) :=
    if 0 <? time_diff time (newest_time self)
    then Ret (Ok tt, self <| newest_time := time |>)
    else Ret (Ok tt, self) in
  if seq_no <=? max_seq_no self then
    if WINDOW_BITS <=? max_seq_no self - seq_no then Ret (Err Replay, self) else
    seen ← is_set self seq_no;
    if (seen : bool) then Ret (Err Replay, self) else
    self ← set self seq_no;
    finish self
  else
    let delta := seq_no - max_seq_no self in
    self ←
      (if WINDOW_BITS <=? delta
       then Ret (self <| bitmap ::= fmap (λ _, 0) |>)
       else clear_after self (max_seq_no self) (wrap 32 delta));
    let self := self <| max_seq_no := seq_no |> in
    self ← set self seq_no;
    finish self.

End SequenceWindow.

Module SequenceFilter.

Record t := { windows : gmap Z SequenceWindow.t }.

(** [SequenceFilter::default()] *)
Definition default : t := Build_t ∅.

(** [self.windows.len()] *)
Definition filter_len (self : t) : Z := Z.of_nat (size (windows self)).

Definition check_and_insert (self : t)
    (current_time packet_time seq_id seq_no : Z)
    : comp (result SequenceDrop unit * t) :=
  let age := time_diff current_time packet_time in
  if MAX_PAST_TICKS <? age then Ret (Err Freshness, self) else
  if age <? - MAX_FUTURE_TICKS then Ret (Err Freshness, self) else
  match windows self !! seq_id with
  | Some window =>
      '(r, window) ← SequenceWindow.insert window seq_no packet_time;
      Ret (r, Build_t (<[seq_id := window]> (windows self)))
  | None =>
      window ← SequenceWindow.new seq_no packet_time;
      Ret (Ok tt, Build_t (<[seq_id := window]> (windows self)))
  end.

(** The order of [sort_by_key(|(_, time)| time_diff(current_time, *time))];
    [merge_sort] is stable, as [sort_by_key] is. *)
Definition age_le (current_time : Z) (x y : Z * Z) : Prop :=
  time_diff current_time (snd x) <= time_diff current_time (snd y).

#[global] Instance age_le_dec current_time : RelDecision (age_le current_time).
Proof. intros x y. apply Z_le_dec. Defined.

Section iteration.
Context `{HashIter}.

Definition remove_expired (self : t) (current_time cap : Z) : list Z * t :=
  if filter_len self <=? cap then ([], self) else
  let expired :=
    (λ '(seq_id, window), (seq_id, SequenceWindow.newest_time window)) <$>
      List.filter
        (λ '(_, window),
           MAX_PAST_TICKS
           <? time_diff current_time (SequenceWindow.newest_time window))
        (hash_iter (windows self)) in
  let expired := reverse (merge_sort (age_le current_time) expired) in
  let remove_count := len expired `min` (filter_len self - cap) in
  let expired := take (Z.to_nat remove_count) expired in
  (expired.*1,
   Build_t (foldl (λ m '(seq_id, _), delete seq_id m) (windows self) expired)).

Definition next_expiry_delay_ms (self : t) (current_time cap : Z) : option Z :=
  if filter_len self <=? cap then None else
  let delays :=
    (λ '(_, window),
       let age := time_diff current_time (SequenceWindow.newest_time window) in
       wrap 64 (Z.shiftl ((MAX_PAST_TICKS + 1 - age) `max` 0) TS_SHIFT)) <$>
      hash_iter (windows self) in
  match delays with
  | [] => None
  | d :: ds => Some (foldl Z.min d ds)
  end.

End iteration.
End SequenceFilter.
