(* ===== verification/SequenceFacts.v ===== *)
(** * The replay window refines a set of accepted numbers

    The circular bitmap of [SequenceWindow], with its wordwise clearing, is
    related to the abstract window: the finite set of sequence numbers
    accepted so far and its maximum. *)

From S2P Require Import Prelude Wire Sequence.

Module SW := SequenceWindow.

(** The size of the window, as a plain number. *)
Definition NBITS : Z := 1048576.

(** Bit [i] of the bitmap. *)
Definition bit_at (bm : list Z) (i : Z) : bool :=
  Z.testbit (bm !!! Z.to_nat (i / 64)) (i mod 64).

(** Shape of a bitmap: [WINDOW_WORDS] 64-bit words. *)
Definition bitmap_ok (bm : list Z) : Prop :=
  len bm = WINDOW_WORDS ∧ Forall (in_width 64) bm.

(** The abstract window: accepted numbers and the largest of them. *)
Abbreviation spec_window := (gset Z * Z)%type.

Definition spec_insert (s : spec_window) (seq_no : Z) : option spec_window :=
  let '(seen, top) := s in
  if decide (seq_no ∈ seen ∨ seq_no <= top - NBITS) then None
  else Some ({[seq_no]} ∪ seen, top `max` seq_no).

(** The refinement relation between a window and its abstraction. *)
Record window_refines (w : SW.t) (s : spec_window) : Prop := {
  wr_bitmap : bitmap_ok (SW.bitmap w);
  wr_max : SW.max_seq_no w = snd s;
  wr_width : in_width 64 (snd s);
  wr_bound : ∀ n, n ∈ fst s → 0 <= n <= snd s;
  wr_bits : ∀ n, 0 <= n → snd s - NBITS < n <= snd s →
    bit_at (SW.bitmap w) (n mod NBITS) = bool_decide (n ∈ fst s);
}.

(** ** Constants and masks *)

Lemma WINDOW_BITS_eq : WINDOW_BITS = NBITS.
Proof. done. Qed.

Lemma WINDOW_WORDS_eq : WINDOW_WORDS = 16384.
Proof. done. Qed.

Lemma bit_of_eq n : SW.bit_of n = n mod NBITS.
Proof.
  unfold SW.bit_of. change (WINDOW_BITS - 1) with (2 ^ 20 - 1).
  rewrite land_ones_mod by done. by apply wrap_mod.
Qed.

Lemma bit_mask_eq b : SW.bit_mask b = 2 ^ (b mod 64).
Proof.
  unfold SW.bit_mask. change 63 with (2 ^ 6 - 1). rewrite land_ones_mod by done.
  rewrite Z.shiftl_1_l. done.
Qed.

Lemma shiftr_6 b : Z.shiftr b 6 = b / 64.
Proof. by rewrite Z.shiftr_div_pow2. Qed.

(** ** Single-word updates *)

Lemma bitmap_index bm i :
  bitmap_ok bm → 0 <= i < NBITS →
  index bm (i / 64) = Ret (bm !!! Z.to_nat (i / 64))
  ∧ (∀ x, store bm (i / 64) x = Ret (<[Z.to_nat (i / 64) := x]> bm))
  ∧ in_width 64 (bm !!! Z.to_nat (i / 64)).
Proof.
  intros [Hl Hw] Hi. rewrite WINDOW_WORDS_eq in Hl. unfold NBITS in Hi.
  assert (0 <= i / 64 < len bm) as Hb.
  { rewrite Hl. split; [apply Z.div_pos|apply Z.div_lt_upper_bound]; lia. }
  destruct (index_returns bm (i / 64) Hb) as (x & -> & Hx).
  rewrite (list_lookup_total_correct _ _ _ Hx). split_and!; [done| |].
  - intros y. by apply store_returns.
  - by eapply Forall_lookup_1 in Hw.
Qed.

(** Replacing the word of bit [b] changes bits of that word only. *)
Lemma bit_at_insert bm b x i :
  bitmap_ok bm → 0 <= b < NBITS → 0 <= i < NBITS →
  bit_at (<[Z.to_nat (b / 64) := x]> bm) i
  = if i / 64 =? b / 64 then Z.testbit x (i mod 64) else bit_at bm i.
Proof.
  intros [Hl _] Hb Hi. rewrite WINDOW_WORDS_eq in Hl. unfold bit_at, NBITS in *.
  assert (0 <= b / 64 < 16384)
    by (split; [apply Z.div_pos|apply Z.div_lt_upper_bound]; lia).
  assert (0 <= i / 64) by (apply Z.div_pos; lia).
  destruct (Z.eqb_spec (i / 64) (b / 64)) as [->|Hne].
  - rewrite list_lookup_total_insert_eq; [done|]. unfold len in Hl. lia.
  - rewrite list_lookup_total_insert_ne; [done|]. lia.
Qed.

Lemma bitmap_ok_insert bm k x :
  bitmap_ok bm → in_width 64 x → bitmap_ok (<[k := x]> bm).
Proof.
  intros [Hl Hw] Hx. split.
  - unfold len. by rewrite length_insert.
  - by apply Forall_insert.
Qed.

Lemma bit_index_eqb i b : i / 64 = b / 64 → (i mod 64 =? b mod 64) = (i =? b).
Proof.
  intros H. pose proof (Z.div_mod i 64). pose proof (Z.div_mod b 64).
  destruct (Z.eqb_spec (i mod 64) (b mod 64)), (Z.eqb_spec i b); lia.
Qed.

Lemma in_width_bits w x :
  0 <= w → 0 <= x → (∀ i, w <= i → Z.testbit x i = false) → in_width w x.
Proof.
  intros Hw Hx Hb. split; [done|].
  destruct (Z.eq_dec x 0) as [->|]; [apply Z.pow_pos_nonneg; lia|].
  apply Z.log2_lt_pow2; [lia|]. destruct (Z.lt_ge_cases (Z.log2 x) w); [done|].
  specialize (Hb (Z.log2 x) ltac:(done)). rewrite Z.bit_log2 in Hb by lia. done.
Qed.

Lemma testbit_high w x i : 0 <= w → in_width w x → w <= i → Z.testbit x i = false.
Proof.
  intros Hw [Hx Hlt] Hi. destruct (Z.eq_dec x 0) as [->|]; [apply Z.bits_0|].
  apply Z.bits_above_log2; [lia|]. apply Z.lt_le_trans with w; [|done].
  apply Z.log2_lt_pow2; lia.
Qed.

Lemma in_width_lor w x y :
  0 <= w → in_width w x → in_width w y → in_width w (Z.lor x y).
Proof.
  intros Hw Hx Hy. apply in_width_bits; [done| |].
  - apply Z.lor_nonneg. split; [apply Hx|apply Hy].
  - intros i Hi. rewrite Z.lor_spec, !(testbit_high w) by done. done.
Qed.

Lemma in_width_land_l w x y :
  0 <= w → in_width w x → in_width w (Z.land x y).
Proof.
  intros Hw Hx. apply in_width_bits; [done| |].
  - apply Z.land_nonneg. left. apply Hx.
  - intros i Hi. rewrite Z.land_spec, (testbit_high w) by done. done.
Qed.

Lemma in_width_pow2 w k : 0 <= k < w → in_width w (2 ^ k).
Proof. intros. split; [apply Z.pow_nonneg; lia|apply Z.pow_lt_mono_r; lia]. Qed.

Lemma mod_64_range b : 0 <= b mod 64 < 64.
Proof. by apply Z.mod_pos_bound. Qed.
#[local] Hint Resolve mod_64_range : core.

(** Setting and clearing a bit of a word. *)
Lemma testbit_set x b i : 0 <= i →
  Z.testbit (Z.lor x (2 ^ (b mod 64))) i = (i =? b mod 64) || Z.testbit x i.
Proof.
  intros Hi. rewrite Z.lor_spec, Z.pow2_bits_eqb by (apply mod_64_range).
  rewrite (Z.eqb_sym (b mod 64)). apply orb_comm.
Qed.

Lemma testbit_clear x b i : 0 <= i < 64 →
  Z.testbit (Z.land x (wrap 64 (Z.lnot (2 ^ (b mod 64))))) i
  = negb (i =? b mod 64) && Z.testbit x i.
Proof.
  intros Hi. unfold wrap. rewrite Z.land_spec, Z.mod_pow2_bits_low by lia.
  rewrite Z.lnot_spec, Z.pow2_bits_eqb by (try lia; apply mod_64_range).
  rewrite (Z.eqb_sym (b mod 64)). apply andb_comm.
Qed.

Lemma testbit_is_set x b :
  negb (Z.land x (2 ^ (b mod 64)) =? 0) = Z.testbit x (b mod 64).
Proof.
  destruct (Z.testbit x (b mod 64)) eqn:E.
  - destruct (Z.eqb_spec (Z.land x (2 ^ (b mod 64))) 0) as [H|]; [|done].
    apply (f_equal (λ z, Z.testbit z (b mod 64))) in H.
    rewrite Z.land_spec, Z.bits_0, E, Z.pow2_bits_true in H by apply mod_64_range.
    done.
  - replace (Z.land x (2 ^ (b mod 64))) with 0; [done|]. symmetry.
    apply Z.bits_inj'. intros i Hi. rewrite Z.land_spec, Z.bits_0.
    rewrite Z.pow2_bits_eqb by apply mod_64_range.
    destruct (Z.eqb_spec (b mod 64) i) as [<-|]; [by rewrite E|apply andb_false_r].
Qed.

Lemma nbits_mod n : 0 <= n mod NBITS < NBITS.
Proof. by apply Z.mod_pos_bound. Qed.

(** ** The bit operations of the window *)

Lemma set_spec w n :
  bitmap_ok (SW.bitmap w) →
  ∃ bm, SW.set w n = Ret (w <| SW.bitmap := bm |>) ∧ bitmap_ok bm ∧
    ∀ i, 0 <= i < NBITS →
      bit_at bm i = (i =? n mod NBITS) || bit_at (SW.bitmap w) i.
Proof.
  intros Hok. unfold SW.set. rewrite bit_of_eq, shiftr_6, bit_mask_eq.
  pose proof (nbits_mod n) as Hn. set (b := n mod NBITS) in *.
  destruct (bitmap_index _ b Hok Hn) as (-> & Hst & Hx). cbn [mbind comp_bind].
  rewrite Hst. cbn [mbind comp_bind]. eexists. split_and!; [done| |].
  - apply bitmap_ok_insert; [done|]. apply in_width_lor; [done|done|].
    apply in_width_pow2. apply mod_64_range.
  - intros i Hi. rewrite bit_at_insert by done. unfold bit_at.
    destruct (Z.eqb_spec (i / 64) (b / 64)) as [He|Hne].
    + rewrite testbit_set by apply mod_64_range. by rewrite bit_index_eqb, He.
    + destruct (Z.eqb_spec i b); [by subst|done].
Qed.

Lemma is_set_spec w n :
  bitmap_ok (SW.bitmap w) →
  SW.is_set w n = Ret (bit_at (SW.bitmap w) (n mod NBITS)).
Proof.
  intros Hok. unfold SW.is_set. rewrite bit_of_eq, shiftr_6, bit_mask_eq.
  destruct (bitmap_index _ _ Hok (nbits_mod n)) as (-> & _ & _).
  cbn [mbind comp_bind]. by rewrite testbit_is_set.
Qed.

Lemma clear_bit_spec w b :
  bitmap_ok (SW.bitmap w) → 0 <= b < NBITS →
  ∃ bm, SW.clear_bit w b = Ret (w <| SW.bitmap := bm |>) ∧ bitmap_ok bm ∧
    ∀ i, 0 <= i < NBITS → bit_at bm i = negb (i =? b) && bit_at (SW.bitmap w) i.
Proof.
  intros Hok Hb. unfold SW.clear_bit. rewrite shiftr_6, bit_mask_eq.
  destruct (bitmap_index _ b Hok Hb) as (-> & Hst & Hx). cbn [mbind comp_bind].
  rewrite Hst. cbn [mbind comp_bind]. eexists. split_and!; [done| |].
  - apply bitmap_ok_insert; [done|]. by apply in_width_land_l.
  - intros i Hi. rewrite bit_at_insert by done. unfold bit_at.
    destruct (Z.eqb_spec (i / 64) (b / 64)) as [He|Hne].
    + rewrite testbit_clear by apply mod_64_range. by rewrite bit_index_eqb, He.
    + destruct (Z.eqb_spec i b); [by subst|done].
Qed.

Lemma clear_word_spec w b :
  bitmap_ok (SW.bitmap w) → 0 <= b < NBITS →
  ∃ bm, store (SW.bitmap w) (Z.shiftr b 6) 0 = Ret bm ∧ bitmap_ok bm ∧
    ∀ i, 0 <= i < NBITS →
      bit_at bm i = negb (i / 64 =? b / 64) && bit_at (SW.bitmap w) i.
Proof.
  intros Hok Hb. rewrite shiftr_6.
  destruct (bitmap_index _ b Hok Hb) as (_ & Hst & _). rewrite Hst.
  eexists. split_and!; [done| |].
  - apply bitmap_ok_insert; [done|]. by split.
  - intros i Hi. rewrite bit_at_insert by done.
    destruct (i / 64 =? b / 64); [by rewrite Z.bits_0|done].
Qed.

Lemma bitmap_zero_ok : bitmap_ok (vec WINDOW_WORDS 0).
Proof.
  split; [by apply len_vec|]. apply Forall_replicate. by split.
Qed.

Lemma bit_at_zero i : 0 <= i < NBITS → bit_at (vec WINDOW_WORDS 0) i = false.
Proof.
  intros Hi. unfold bit_at, vec. unfold NBITS in Hi.
  assert (i / 64 < 16384) by (apply Z.div_lt_upper_bound; lia).
  rewrite lookup_total_replicate_2; [apply Z.bits_0|].
  rewrite WINDOW_WORDS_eq. lia.
Qed.

Lemma bitmap_fill_ok bm : bitmap_ok bm → (λ _, 0) <$> bm = vec WINDOW_WORDS 0.
Proof.
  intros [Hl _]. unfold vec. rewrite <- Hl. unfold len. rewrite Nat2Z.id.
  clear Hl. induction bm as [|x bm IH]; cbn; [done|]. by rewrite <- IH.
Qed.

(** ** Clearing an arc of the circle *)

(** Bit [i] is one of the [c] bits that follow [start] on the circle. *)
Definition in_arc (start c i : Z) : bool := (i - start) mod NBITS <? c.

Lemma in_arc_step start c k i :
  0 <= c → 0 <= k → c + k < NBITS → 0 <= i < NBITS →
  in_arc start (c + k) i
  = in_arc start c i || in_arc ((start + c) mod NBITS) k i.
Proof.
  intros Hc Hk Hck Hi. unfold in_arc. unfold NBITS in *.
  rewrite Zminus_mod_idemp_r. replace (i - (start + c)) with (i - start - c) by lia.
  rewrite <- (Zminus_mod_idemp_l (i - start)).
  pose proof (Z.mod_pos_bound (i - start) 1048576 ltac:(lia)) as Hd.
  set (d := (i - start) mod 1048576) in *.
  destruct (Z.ltb_spec d c); cbn [orb].
  - apply Z.ltb_lt. lia.
  - rewrite (Z.mod_small (d - c)) by lia.
    destruct (Z.ltb_spec d (c + k)), (Z.ltb_spec (d - c) k); lia.
Qed.

Lemma in_arc_one b i : 0 <= b < NBITS → 0 <= i < NBITS →
  in_arc b 1 i = (i =? b).
Proof.
  intros Hb Hi. unfold in_arc, NBITS in *.
  destruct (Z.eqb_spec i b) as [->|Hne]; [by rewrite Z.sub_diag|].
  apply Z.ltb_ge. destruct (Z.lt_ge_cases i b).
  - rewrite <- (Z_mod_plus_full _ 1), Z.mod_small by lia. lia.
  - rewrite Z.mod_small by lia. lia.
Qed.

Lemma in_arc_word b i : 0 <= b < NBITS → 0 <= i < NBITS → b mod 64 = 0 →
  in_arc b 64 i = (i / 64 =? b / 64).
Proof.
  intros Hb Hi H64. unfold in_arc, NBITS in *.
  pose proof (Z.div_mod b 64 ltac:(lia)) as Eb.
  pose proof (Z.div_mod i 64 ltac:(lia)) as Ei.
  pose proof (mod_64_range i).
  assert (b / 64 < 16384) by (apply Z.div_lt_upper_bound; lia).
  destruct (Z.lt_ge_cases i b).
  - rewrite <- (Z_mod_plus_full _ 1), Z.mod_small by lia.
    destruct (Z.ltb_spec (i - b + 1 * 1048576) 64), (Z.eqb_spec (i / 64) (b / 64)); lia.
  - rewrite Z.mod_small by lia.
    destruct (Z.ltb_spec (i - b) 64), (Z.eqb_spec (i / 64) (b / 64)); lia.
Qed.

(** The loop invariant of [clear_after]: [c] bits are cleared so far. *)
Record clearing (w0 : SW.t) (start count : Z) (s : Z * Z * SW.t) : Prop := {
  cl_left : 0 <= snd (fst s) <= count;
  cl_bit : fst (fst s) = (start + (count - snd (fst s))) mod NBITS;
  cl_state : ∃ bm, snd s = w0 <| SW.bitmap := bm |> ∧ bitmap_ok bm ∧
    ∀ i, 0 <= i < NBITS →
      bit_at bm i = negb (in_arc start (count - snd (fst s)) i)
                    && bit_at (SW.bitmap w0) i;
}.

Lemma next_bit b k : 0 <= b < NBITS → 0 <= k < 128 →
  Z.land (b +{32} k) (WINDOW_BITS - 1) = (b + k) mod NBITS.
Proof.
  intros Hb Hk. change (WINDOW_BITS - 1) with (2 ^ 20 - 1).
  rewrite land_ones_mod by done. by apply wrap_mod.
Qed.

Lemma clear_one_step w0 start count s :
  count < NBITS → clearing w0 start count s → 0 < snd (fst s) →
  ∃ s', SW.clear_one s = Ret s' ∧ clearing w0 start count s'
    ∧ snd (fst s') = snd (fst s) - 1.
Proof.
  intros Hc [Hleft Hbit (bm & Hw & Hok & Hbits)] Hpos.
  destruct s as [[b rem] w]; cbn [fst snd] in *. subst w. cbn [SW.clear_one].
  pose proof (nbits_mod (start + (count - rem))) as Hb. rewrite <- Hbit in Hb.
  destruct (clear_bit_spec (w0 <| SW.bitmap := bm |>) b) as (bm' & -> & Hok' & Hbits');
    [exact Hok|exact Hb|].
  cbn [mbind comp_bind]. eexists; split; [done|]. cbn [fst snd].
  split; [constructor|lia]; cbn [fst snd].
  - lia.
  - rewrite next_bit, Hbit by lia. rewrite Zplus_mod_idemp_l. f_equal. lia.
  - exists bm'. split_and!; [done|done|]. intros i Hi.
    rewrite Hbits' by done. cbn. rewrite Hbits by done.
    replace (count - (rem - 1)) with (count - rem + 1) by lia.
    rewrite in_arc_step, <- Hbit, in_arc_one by lia.
    destruct (i =? b), (in_arc start (count - rem) i); done.
Qed.

Lemma clear_word_step w0 start count s :
  count < NBITS → clearing w0 start count s → 64 <= snd (fst s) →
  fst (fst s) mod 64 = 0 →
  ∃ s', SW.clear_word s = Ret s' ∧ clearing w0 start count s'
    ∧ snd (fst s') = snd (fst s) - 64 ∧ fst (fst s') mod 64 = 0.
Proof.
  intros Hc [Hleft Hbit (bm & Hw & Hok & Hbits)] Hpos H64.
  destruct s as [[b rem] w]; cbn [fst snd] in *. subst w. cbn [SW.clear_word].
  pose proof (nbits_mod (start + (count - rem))) as Hb. rewrite <- Hbit in Hb.
  destruct (clear_word_spec (w0 <| SW.bitmap := bm |>) b) as (bm' & -> & Hok' & Hbits');
    [exact Hok|exact Hb|].
  cbn [mbind comp_bind]. eexists; split; [done|]. cbn [fst snd].
  rewrite next_bit by lia.
  split; [constructor|split; [lia|]]; cbn [fst snd].
  - lia.
  - rewrite Hbit. rewrite Zplus_mod_idemp_l. f_equal. lia.
  - exists bm'. split_and!; [done|done|]. intros i Hi.
    rewrite Hbits' by done. cbn. rewrite Hbits by done.
    replace (count - (rem - 64)) with (count - rem + 64) by lia.
    rewrite in_arc_step, <- Hbit, in_arc_word by lia.
    destruct (i / 64 =? b / 64), (in_arc start (count - rem) i); done.
  - unfold NBITS. rewrite Z.mod_mod_divide by (by exists 16384).
    rewrite <- Zplus_mod_idemp_l, H64. done.
Qed.

(** The bitwise loops keep the invariant and end when their condition fails. *)
Lemma clear_ones_loop w start count c fuel s :
  count < NBITS → (∀ s, c s = true → snd (fst s) ≠ 0) →
  clearing w start count s → count <= Z.of_nat fuel →
  ∃ s', while fuel c SW.clear_one s = Ret s' ∧ clearing w start count s'
    ∧ c s' = false.
Proof.
  intros Hc Hcond Hs Hf.
  apply (while_total _ (λ s : Z * Z * SW.t, Z.to_nat (snd (fst s)))); [|done|].
  - intros t Ht Hct. pose proof (cl_left _ _ _ _ Ht). apply Hcond in Hct.
    destruct (clear_one_step w start count t) as (t' & ? & ? & ?); [lia|done|lia|].
    exists t'. split_and!; [done|done|]. lia.
  - pose proof (cl_left _ _ _ _ Hs). lia.
Qed.

(** The wordwise loop, entered with nothing left or on a word boundary. *)
Lemma clear_words_loop w start count fuel s :
  count < NBITS → clearing w start count s →
  snd (fst s) = 0 ∨ fst (fst s) mod 64 = 0 → count <= Z.of_nat fuel →
  ∃ s', while fuel (λ '(_, remaining, _), 64 <=? remaining) SW.clear_word s = Ret s'
    ∧ clearing w start count s'.
Proof.
  intros Hc Hs Hal Hf.
  edestruct (while_total (λ s, clearing w start count s ∧
      (snd (fst s) = 0 ∨ fst (fst s) mod 64 = 0))
    (λ s : Z * Z * SW.t, Z.to_nat (snd (fst s)))
    (λ '(_, remaining, _), 64 <=? remaining)
    SW.clear_word fuel s) as (s' & Hw & [H _] & _); [|done| |by eexists].
  - intros [[b rem] w'] [Ht Hb] Hct. bool_to_prop. cbn [fst snd] in Hb.
    destruct Hb as [|Hb]; [lia|].
    destruct (clear_word_step w start count (b, rem, w')) as (s' & ? & ? & Hm1 & ?);
      [lia|done|done|done|]. exists s'. split_and!; [done|done|by right|].
    cbn [fst snd] in *. lia.
  - pose proof (cl_left _ _ _ _ Hs). lia.
Qed.

Lemma clearing_start w start count :
  bitmap_ok (SW.bitmap w) → 0 <= count →
  clearing w start count (start mod NBITS, count, w).
Proof.
  intros Hok Hc. constructor; cbn [fst snd];
    [lia|by rewrite Z.sub_diag, Z.add_0_r|].
  exists (SW.bitmap w). split_and!; [by destruct w|done|]. intros i Hi.
  rewrite Z.sub_diag. unfold in_arc. pose proof (nbits_mod (i - start)).
  destruct (Z.ltb_spec ((i - start) mod NBITS) 0); [lia|done].
Qed.

(** [clear_after] clears exactly the [count] bits after [old_max], for every
    [count] below the window size, and always within its budget. *)
Lemma clear_after_spec w old_max count :
  bitmap_ok (SW.bitmap w) → 0 <= old_max → old_max + 1 < 2 ^ 64 →
  0 <= count < NBITS →
  ∃ bm, SW.clear_after w old_max count = Ret (w <| SW.bitmap := bm |>)
    ∧ bitmap_ok bm
    ∧ ∀ i, 0 <= i < NBITS →
        bit_at bm i = negb (in_arc (old_max + 1) count i) && bit_at (SW.bitmap w) i.
Proof.
  intros Hok Hm Hm' Hc. unfold SW.clear_after.
  rewrite (wrap_id 64) by lia. fold (SW.bit_of (old_max + 1)). rewrite bit_of_eq.
  set (start := old_max + 1). pose proof (clearing_start w start count Hok ltac:(lia)) as H0.
  edestruct (clear_ones_loop w start count) as (s1 & Hw1 & H1 & Hc1);
    [lia| |exact H0| |rewrite Hw1].
  { intros [[b rem] w'] Hcd. by bool_to_prop. } { lia. }
  cbn [mbind comp_bind].
  edestruct (clear_words_loop w start count) as (s2 & Hw2 & H2);
    [lia|exact H1| | |rewrite Hw2].
  { destruct s1 as [[b rem] w']. cbn [fst snd].
    change 63 with (2 ^ 6 - 1) in Hc1. rewrite land_ones_mod in Hc1 by done.
    apply andb_false_iff in Hc1 as [Hc1|Hc1]; bool_to_prop; [by left|by right]. }
  { lia. }
  cbn [mbind comp_bind].
  edestruct (clear_ones_loop w start count) as (s3 & Hw3 & H3 & Hc3);
    [lia| |exact H2| |rewrite Hw3].
  { intros [[b rem] w'] Hcd. by bool_to_prop. } { lia. }
  cbn [mbind comp_bind]. destruct s3 as [[b rem] w']. bool_to_prop. subst rem.
  destruct H3 as [_ _ (bm & Hw & Hok3 & Hb3)]. cbn [fst snd] in *.
  exists bm. rewrite Hw. split_and!; [done|done|]. intros i Hi.
  rewrite Hb3 by done. by rewrite Z.sub_0_r.
Qed.

(** ** Refinement of the insertion *)

(** The newer of two packet times, as [insert] keeps it. *)
Definition newer (time newest : Z) : Z :=
  if 0 <? time_diff time newest then time else newest.

Lemma mod_window_inj a b :
  a mod NBITS = b mod NBITS → - NBITS < a - b < NBITS → a = b.
Proof.
  unfold NBITS. intros H Hab.
  pose proof (Z.div_mod a 1048576). pose proof (Z.div_mod b 1048576). lia.
Qed.

Lemma finish_eq (w : SW.t) time :
  (if 0 <? time_diff time (SW.newest_time w)
   then Ret (Ok tt, w <| SW.newest_time := time |>) else Ret (Ok tt, w))
  = Ret (@Ok SequenceDrop _ tt,
         w <| SW.newest_time := newer time (SW.newest_time w) |>).
Proof. unfold newer. destruct w; cbn. by destruct (_ <? _). Qed.

(** The window after accepting [n], from its new bitmap. *)
Lemma accepted_refines w s n bm bm' t top' :
  window_refines w s → in_width 64 n → n ∉ fst s →
  top' = snd s `max` n → bitmap_ok bm' →
  (∀ i, 0 <= i < NBITS → bit_at bm' i = (i =? n mod NBITS) || bit_at bm i) →
  (∀ k, 0 <= k → k ≠ n → top' - NBITS < k <= top' →
     bit_at bm (k mod NBITS) = bool_decide (k ∈ fst s)) →
  top' - NBITS < n →
  window_refines (SW.Build_t top' t bm') ({[n]} ∪ fst s, top').
Proof.
  intros Hr Hn Hns -> Hok Hbits Hrest Hlow.
  destruct Hr as [_ _ Hwd Hbd _]. unfold in_width in *.
  constructor; cbn [fst snd SW.bitmap SW.max_seq_no]; [done|done| | |].
  - unfold in_width. lia.
  - intros k [->%elem_of_singleton|Hk]%elem_of_union; [lia|]. apply Hbd in Hk. lia.
  - intros k Hk Hkr. rewrite Hbits by apply nbits_mod.
    destruct (Z.eqb_spec (k mod NBITS) (n mod NBITS)) as [He|Hne].
    + apply mod_window_inj in He as ->; [|lia].
      rewrite bool_decide_eq_true_2 by set_solver. done.
    + assert (k ≠ n) by congruence. cbn [orb]. rewrite Hrest by done.
      apply bool_decide_ext. set_solver.
Qed.

Lemma insert_refines w s n t :
  window_refines w s → in_width 64 n →
  match spec_insert s n with
  | None => SW.insert w n t = Ret (Err Replay, w)
  | Some s' =>
      ∃ w', SW.insert w n t = Ret (Ok tt, w') ∧ window_refines w' s'
        ∧ SW.newest_time w' = newer t (SW.newest_time w)
  end.
Proof.
  intros Hr Hn. pose proof Hr as [Hok Hmax Hwd Hbd Hbits].
  destruct s as [A top]. cbn [fst snd spec_insert] in *.
  unfold SW.insert. rewrite WINDOW_BITS_eq, Hmax. unfold in_width in *.
  destruct (Z.leb_spec n top) as [Hle|Hgt].
  - destruct (Z.leb_spec NBITS (top - n)) as [Hold|Hin].
    { rewrite decide_True by (right; lia). done. }
    rewrite is_set_spec, Hbits by (done || lia). cbn [mbind comp_bind].
    destruct (decide (n ∈ A)) as [Hs|Hs].
    { rewrite bool_decide_eq_true_2, decide_True by auto. done. }
    rewrite bool_decide_eq_false_2, decide_False by (done || (intros [?|?]; [done|lia])).
    destruct (set_spec w n Hok) as (bm' & -> & Hok' & Hb'). cbn [mbind comp_bind].
    rewrite finish_eq. eexists; split_and!; [done| |by destruct w].
    rewrite Z.max_l by done. destruct w as [m nt bm]. cbn in *. subst m.
    eapply (accepted_refines _ (A, top)); cbn [fst snd]; try done; [lia| |lia].
    intros k Hk _ Hkr. by apply Hbits.
  - assert (n ∉ A) as Hs by (intros Ha; apply Hbd in Ha; lia).
    rewrite decide_False by (intros [?|?]; [done|]; unfold NBITS in *; lia).
    rewrite Z.max_r by lia.
    assert (∃ bm, (if NBITS <=? n - top then Ret (w <| SW.bitmap ::= fmap (λ _, 0) |>)
      else SW.clear_after w top (wrap 32 (n - top))) = Ret (w <| SW.bitmap := bm |>)
      ∧ bitmap_ok bm ∧ ∀ k, 0 <= k → k ≠ n → n - NBITS < k <= n →
        bit_at bm (k mod NBITS) = bool_decide (k ∈ A)) as (bm & -> & Hokm & Hbm).
    { destruct (Z.leb_spec NBITS (n - top)) as [Hfar|Hnear].
      - exists (vec WINDOW_WORDS 0). split_and!; [|apply bitmap_zero_ok|].
        + destruct w as [m nt bm]. unfold update; cbn.
          by rewrite bitmap_fill_ok by apply Hok.
        + intros k Hk Hkn Hkr. rewrite bit_at_zero by apply nbits_mod.
          rewrite bool_decide_eq_false_2; [done|]. intros Ha%Hbd. lia.
      - unfold NBITS in Hnear. rewrite wrap_id by lia.
        destruct (clear_after_spec w top (n - top) Hok) as (bm & -> & Hokm & Hb);
          [lia..|unfold NBITS; lia|].
        exists bm. split_and!; [done|done|]. intros k Hk Hkn Hkr.
        rewrite Hb by apply nbits_mod. unfold in_arc. rewrite Zminus_mod_idemp_l.
        unfold NBITS in *. destruct (Z.lt_ge_cases top k).
        + rewrite Z.mod_small, (proj2 (Z.ltb_lt _ _)) by lia. cbn.
          rewrite bool_decide_eq_false_2; [done|]. intros Ha%Hbd. lia.
        + rewrite <- (Z_mod_plus_full _ 1), Z.mod_small by lia.
          rewrite (proj2 (Z.ltb_ge _ _)) by lia. cbn. apply Hbits; lia. }
    cbn [mbind comp_bind].
    destruct (set_spec (w <| SW.bitmap := bm |> <| SW.max_seq_no := n |>) n)
      as (bm' & -> & Hok' & Hb'); [exact Hokm|]. cbn [mbind comp_bind].
    rewrite finish_eq. eexists; split_and!; [done| |by destruct w].
    destruct w as [m nt bm0]. cbn in *. subst m.
    eapply (accepted_refines _ (A, top)); cbn [fst snd]; try done; [lia|unfold NBITS; lia].
Qed.
