(* ===== verification/SequenceTrace.v ===== *)
(** * The replay filter over time

    The filter of [Sequence.v] driven by a trace of packets and evictions.
    Real time is the unwrapped tick count [T]; the code sees its 26 low bits.
    The main result is that evicting expired windows never lets a packet in
    twice. *)

From S2P Require Import Prelude Wire Sequence SequenceFacts.

Module SF := SequenceFilter.

(** A packet's stamp as the filter sees it. *)
Abbreviation packet := (Z * Z * Z)%type.

(** One call on the filter, at unwrapped tick [T]. *)
Inductive filter_op : Type :=
  | OpPacket (T time seq_id seq_no : Z)
  | OpExpire (T cap : Z).

Definition op_time (op : filter_op) : Z :=
  match op with OpPacket T _ _ _ => T | OpExpire T _ => T end.

(** Stamps come from the decoder, so they are within their wire widths. *)
Definition op_wf (op : filter_op) : Prop :=
  match op with
  | OpPacket _ time _ seq_no => in_width 26 time ∧ in_width 48 seq_no
  | OpExpire _ _ => True
  end.

(** The ticks of a trace start at [T], never go back, and stay within 2^24. *)
Fixpoint monotone_ops (T0 T : Z) (ops : list filter_op) : Prop :=
  match ops with
  | [] => True
  | op :: ops' =>
      T <= op_time op ∧ op_time op < T0 + 2 ^ 24 ∧ op_wf op
      ∧ monotone_ops T0 (op_time op) ops'
  end.

Section run.
Context `{HashIter}.

(** One operation; an accepted packet is reported. *)
Definition filter_step (f : SF.t) (op : filter_op) : comp (list packet * SF.t) :=
  match op with
  | OpPacket T time seq_id seq_no =>
      '(r, f) ← SF.check_and_insert f (T mod 2 ^ 26) time seq_id seq_no;
      Ret (match r with Ok _ => [(time, seq_id, seq_no)] | Err _ => [] end, f)
  | OpExpire T cap => Ret ([], (SF.remove_expired f (T mod 2 ^ 26) cap).2)
  end.

(** The packets accepted by a trace, in order. *)
Fixpoint run_filter (f : SF.t) (ops : list filter_op) : comp (list packet * SF.t) :=
  match ops with
  | [] => Ret ([], f)
  | op :: ops' =>
      '(acc, f) ← filter_step f op;
      '(accs, f) ← run_filter f ops';
      Ret (acc ++ accs, f)
  end.
End run.

(** The ghost state of one window: accepted numbers, and the unwrapped tick of
    [newest_time]. *)
Abbreviation ghost_window := (spec_window * Z)%type.

(** The window of a sender, its ghost, and the tick range of the trace. *)
Definition window_ok (T0 T : Z) (w : SW.t) (g : ghost_window) : Prop :=
  window_refines w (fst g) ∧ SW.newest_time w = snd g mod 2 ^ 26
  ∧ T0 - 645 <= snd g <= T + 59.

Definition same_senders (T0 T : Z) (f : SF.t) (G : gmap Z ghost_window) : Prop :=
  ∀ id, option_relation (window_ok T0 T) (λ _, False) (λ _, False)
          (SF.windows f !! id) (G !! id).

(** An accepted packet is still remembered or has expired for good. *)
Definition remembered (T0 T : Z) (G : gmap Z ghost_window) (p : packet) : Prop :=
  let '(time, id, no) := p in
  ∃ τ, time = τ mod 2 ^ 26 ∧ T0 - 645 <= τ <= T + 59 ∧
    (645 < T - τ ∨ ∃ s ν, G !! id = Some (s, ν) ∧ no ∈ fst s ∧ τ <= ν).

Definition filter_inv (T0 T : Z) (f : SF.t) (log : list packet) : Prop :=
  ∃ G, same_senders T0 T f G ∧ Forall (remembered T0 T G) log ∧ NoDup log.

(** ** The 26-bit clock *)

Lemma time_diff_mod a b :
  - 2 ^ 25 <= time_diff a b < 2 ^ 25
  ∧ ∃ k, time_diff a b = a - b + k * 2 ^ 26.
Proof.
  unfold time_diff. change TIME_MASK with (2 ^ 26 - 1). rewrite land_ones_mod by done.
  rewrite wrap_mod by lia. change (Z.shiftl 1 (TIME_BITS - 1)) with (2 ^ 25).
  change (Z.shiftl 1 TIME_BITS) with (2 ^ 26).
  pose proof (Z.mod_pos_bound (a - b) (2 ^ 26) ltac:(lia)) as Hb.
  pose proof (Z.div_mod (a - b) (2 ^ 26) ltac:(lia)) as Hd.
  rewrite as_i32_small by lia.
  case_cmp; (split; [lia|]); [exists (- ((a - b) / 2 ^ 26) - 1)|exists (- ((a - b) / 2 ^ 26))]; lia.
Qed.

Lemma time_diff_real T τ :
  - 2 ^ 25 <= T - τ < 2 ^ 25 →
  time_diff (T mod 2 ^ 26) (τ mod 2 ^ 26) = T - τ.
Proof.
  intros H. destruct (time_diff_mod (T mod 2 ^ 26) (τ mod 2 ^ 26)) as [Hr [k Hk]].
  pose proof (Z.div_mod T (2 ^ 26)). pose proof (Z.div_mod τ (2 ^ 26)). lia.
Qed.

(** The unwrapped tick of an accepted stamp. *)
Lemma stamp_tick T time :
  in_width 26 time →
  time = (T - time_diff (T mod 2 ^ 26) time) mod 2 ^ 26.
Proof.
  intros Ht. destruct (time_diff_mod (T mod 2 ^ 26) time) as [_ [k ->]].
  replace (T - _) with (time + (T / 2 ^ 26 - k) * 2 ^ 26).
  - rewrite Z_mod_plus_full. symmetry. by apply Z.mod_small.
  - pose proof (Z.div_mod T (2 ^ 26)). lia.
Qed.

Lemma newer_real T0 T τ ν :
  T < T0 + 2 ^ 24 → T0 - 645 <= τ <= T + 59 → T0 - 645 <= ν <= T + 59 →
  newer (τ mod 2 ^ 26) (ν mod 2 ^ 26) = (τ `max` ν) mod 2 ^ 26.
Proof.
  intros. unfold newer. rewrite time_diff_real by lia.
  case_cmp; f_equal; lia.
Qed.

(** ** Windows *)

Lemma new_refines n t :
  in_width 64 n →
  ∃ w, SW.new n t = Ret w ∧ window_refines w ({[n]}, n) ∧ SW.newest_time w = t.
Proof.
  intros Hn. unfold SW.new.
  destruct (set_spec (SW.Build_t n t (vec WINDOW_WORDS 0)) n bitmap_zero_ok)
    as (bm & -> & Hok & Hb). unfold in_width in *.
  eexists; split_and!; [done| |done]. constructor; cbn in *; [done|done|done| |].
  - intros k ->%elem_of_singleton. lia.
  - intros k Hk Hkr. rewrite Hb, bit_at_zero by apply nbits_mod.
    destruct (Z.eqb_spec (k mod NBITS) (n mod NBITS)) as [He|He].
    + apply mod_window_inj in He as ->; [|lia].
      by rewrite bool_decide_eq_true_2 by set_solver.
    + rewrite bool_decide_eq_false_2; [done|]. intros ->%elem_of_singleton. done.
Qed.

Lemma spec_insert_Some s n s' :
  spec_insert s n = Some s' → (n ∉ fst s) ∧ fst s' = ({[n]} ∪ fst s).
Proof.
  destruct s as [A top]. cbn. destruct (decide _) as [|Hd]; [done|].
  intros [= <-]. naive_solver.
Qed.

Lemma in_width_mono v w x : v <= w → in_width v x → in_width w x.
Proof.
  intros H [? ?]. split; [done|]. eapply Z.lt_le_trans; [done|].
  by apply Z.pow_le_mono_r.
Qed.

(** ** Eviction *)

Section eviction.
Context `{HashIterSpec}.

Lemma foldl_delete {V} (l : list (Z * Z)) (m : gmap Z V) k :
  foldl (λ m '(seq_id, _), delete seq_id m) m l !! k
  = if decide (k ∈ l.*1) then None else m !! k.
Proof.
  revert m; induction l as [|[i t] l IH]; intros m; cbn.
  - by rewrite decide_False by (by apply not_elem_of_nil).
  - rewrite IH, lookup_delete.
    repeat case_decide; set_solver.
Qed.

(** The entries that may be evicted, oldest first. *)
Definition expired_list (f : SF.t) (current_time : Z) : list (Z * Z) :=
  reverse (merge_sort (SF.age_le current_time)
    ((λ '(seq_id, window), (seq_id, SW.newest_time window)) <$>
      List.filter (λ '(_, window),
        MAX_PAST_TICKS <? time_diff current_time (SW.newest_time window))
        (hash_iter (SF.windows f)))).

Lemma elem_of_expired f current_time id t :
  (id, t) ∈ expired_list f current_time ↔
  ∃ w, SF.windows f !! id = Some w ∧ t = SW.newest_time w
       ∧ MAX_PAST_TICKS < time_diff current_time t.
Proof.
  unfold expired_list. rewrite elem_of_reverse, merge_sort_Permutation.
  rewrite list_elem_of_fmap. split.
  - intros ([id' w] & [= -> ->] & Hin). rewrite list_elem_of_In, filter_In in Hin.
    destruct Hin as [Hin Hage]. rewrite <- list_elem_of_In, hash_iter_perm in Hin.
    apply elem_of_map_to_list in Hin. bool_to_prop. eauto.
  - intros (w & Hw & -> & Hage). exists (id, w). split; [done|].
    rewrite list_elem_of_In, filter_In, <- list_elem_of_In, hash_iter_perm.
    split; [by apply elem_of_map_to_list|]. by apply Z.ltb_lt.
Qed.

Lemma filter_fst_sublist {A B} (p : A * B → bool) (l : list (A * B)) :
  (List.filter p l).*1 `sublist_of` l.*1.
Proof.
  induction l as [|x l IH]; cbn; [done|].
  destruct (p x); cbn; by constructor.
Qed.

Lemma NoDup_expired f current_time : NoDup (expired_list f current_time).*1.
Proof.
  unfold expired_list. rewrite fmap_reverse.
  rewrite reverse_Permutation, merge_sort_Permutation, <- list_fmap_compose.
  rewrite (list_fmap_ext _ fst) by (by intros ? []).
  eapply sublist_NoDup; [|apply filter_fst_sublist].
  rewrite hash_iter_perm. apply NoDup_fst_map_to_list.
Qed.

Lemma remove_expired_eq f current_time cap :
  cap < SF.filter_len f →
  let kept := take (Z.to_nat (len (expired_list f current_time)
                     `min` (SF.filter_len f - cap))) (expired_list f current_time) in
  SF.remove_expired f current_time cap
  = (kept.*1, SF.Build_t (foldl (λ m '(seq_id, _), delete seq_id m)
                            (SF.windows f) kept)).
Proof. intros Hc. unfold SF.remove_expired. case_cmp. done. Qed.

(** What an eviction removes: only expired windows, and nothing else changes. *)
Lemma remove_expired_lookup f current_time cap ids f' :
  SF.remove_expired f current_time cap = (ids, f') →
  (∀ id, SF.windows f' !! id = if decide (id ∈ ids) then None else SF.windows f !! id)
  ∧ ∀ id, id ∈ ids → ∃ w, SF.windows f !! id = Some w
      ∧ MAX_PAST_TICKS < time_diff current_time (SW.newest_time w).
Proof.
  intros Hr. destruct (Z.le_gt_cases (SF.filter_len f) cap).
  - unfold SF.remove_expired in Hr. rewrite (proj2 (Z.leb_le _ _)) in Hr by done.
    injection Hr as <- <-. split; [|set_solver].
    intros id. by rewrite decide_False by (by apply not_elem_of_nil).
  - rewrite remove_expired_eq in Hr by done. injection Hr as <- <-. split.
    + intros id. apply foldl_delete.
    + intros id ([id' t] & -> & Hin)%list_elem_of_fmap. cbn.
      apply elem_of_take in Hin as (i & Hi & _).
      apply list_elem_of_lookup_2, elem_of_expired in Hi as (w & ? & -> & ?). eauto.
Qed.
End eviction.

(** ** The invariant of the filter *)

Section invariant.
Context `{HashIterSpec}.

Lemma window_ok_mono T0 T T' w g :
  T <= T' → window_ok T0 T w g → window_ok T0 T' w g.
Proof. intros HT (? & ? & ?). split_and!; [done|done|lia|lia]. Qed.

Lemma same_senders_mono T0 T T' f G :
  T <= T' → same_senders T0 T f G → same_senders T0 T' f G.
Proof.
  intros HT Hs id. specialize (Hs id).
  destruct (SF.windows f !! id), (G !! id); cbn in *; try done.
  by eapply window_ok_mono.
Qed.

Lemma remembered_mono T0 T T' G p :
  T <= T' → remembered T0 T G p → remembered T0 T' G p.
Proof.
  destruct p as [[t id] no]. intros HT (τ & Ht & Hr & Hd).
  exists τ. split_and!; [done|lia|lia|]. destruct Hd; [left; lia|by right].
Qed.

(** A remembered packet is never fresh and unseen again. *)
Lemma remembered_not_accepted T0 T G time id no :
  T0 <= T < T0 + 2 ^ 24 → remembered T0 T G (time, id, no) →
  time_diff (T mod 2 ^ 26) time <= 645 →
  ∃ s ν, G !! id = Some (s, ν) ∧ no ∈ fst s.
Proof.
  intros HT (τ & -> & Hτ & Hd) Hage. rewrite time_diff_real in Hage by lia.
  destruct Hd as [|(s & ν & ? & ? & _)]; [lia|eauto].
Qed.

(** The state after an accepted packet. *)
Lemma accept_inv T0 T f G log time id no w' s' τ :
  T0 <= T < T0 + 2 ^ 24 →
  same_senders T0 T f G → Forall (remembered T0 T G) log → NoDup log →
  time = τ mod 2 ^ 26 → - 59 <= T - τ <= 645 →
  window_refines w' s' → no ∈ fst s' →
  match G !! id with
  | Some (s, ν) => (no ∉ fst s) ∧ (fst s ⊆ fst s')
      ∧ SW.newest_time w' = (τ `max` ν) mod 2 ^ 26
  | None => SW.newest_time w' = τ mod 2 ^ 26
  end →
  filter_inv T0 T (SF.Build_t (<[id := w']> (SF.windows f))) (log ++ [(time, id, no)]).
Proof.
  intros HT Hs Hlog Hnd Ht Hτ Hw' Hin Hg.
  set (ν' := match G !! id with Some (_, ν) => τ `max` ν | None => τ end).
  assert (window_ok T0 T w' (s', ν')) as Hok'.
  { specialize (Hs id). subst ν'. split_and!; cbn [fst snd]; try done.
    - destruct (G !! id) as [[s ν]|]; naive_solver.
    - destruct (SF.windows f !! id), (G !! id) as [[s ν]|]; cbn in Hs; try done;
        [destruct Hs as (_ & _ & ?); cbn in *|]; lia.
    - destruct (SF.windows f !! id), (G !! id) as [[s ν]|]; cbn in Hs; try done;
        [destruct Hs as (_ & _ & ?); cbn in *|]; lia. }
  exists (<[id := (s', ν')]> G). split_and!.
  - intros i. cbn. destruct (decide (id = i)) as [<-|Hne].
    + by rewrite !lookup_insert_eq.
    + rewrite !lookup_insert_ne by done. apply Hs.
  - apply Forall_app; split.
    + eapply Forall_impl; [exact Hlog|]. intros [[t' i] n] (τ' & ? & ? & Hd).
      exists τ'. split_and!; [done|lia|lia|].
      destruct Hd as [|(s & ν & HG & Hn & Hle)]; [by left|right].
      destruct (decide (id = i)) as [<-|Hne].
      * exists s', ν'. rewrite lookup_insert_eq. rewrite HG in Hg.
        assert (ν' = τ `max` ν) by (unfold ν'; by rewrite HG).
        split_and!; [done|set_solver|lia].
      * exists s, ν. by rewrite lookup_insert_ne.
    + constructor; [|done]. exists τ. split_and!; [done|lia|lia|right].
      exists s', ν'. rewrite lookup_insert_eq. split_and!; [done|done|].
      subst ν'. destruct (G !! id) as [[s ν]|]; lia.
  - apply NoDup_app; split_and!; [done| |apply NoDup_singleton].
    intros p Hp ->%list_elem_of_singleton.
    rewrite Forall_forall in Hlog. apply Hlog in Hp.
    apply remembered_not_accepted in Hp as (s & ν & HG & Hn); [|done|].
    + rewrite HG in Hg. by destruct Hg.
    + rewrite Ht, time_diff_real by lia. lia.
Qed.

Lemma packet_step_inv T0 T f log time id no :
  T0 <= T < T0 + 2 ^ 24 → in_width 26 time → in_width 48 no →
  filter_inv T0 T f log →
  ∃ acc f', filter_step f (OpPacket T time id no) = Ret (acc, f')
    ∧ filter_inv T0 T f' (log ++ acc).
Proof.
  intros HT Htime Hno (G & Hs & Hlog & Hnd).
  assert (in_width 64 no) as Hno64 by (apply (in_width_mono 48); [lia|done]).
  assert (filter_inv T0 T f (log ++ [])) as Hsame
    by (rewrite app_nil_r; by exists G).
  pose proof (stamp_tick T time Htime) as Htick.
  set (τ := T - time_diff (T mod 2 ^ 26) time) in *.
  cbn [filter_step]. unfold SF.check_and_insert, MAX_PAST_TICKS, MAX_FUTURE_TICKS.
  destruct (Z.ltb_spec 645 (time_diff (T mod 2 ^ 26) time)); [cbn; eauto|].
  destruct (Z.ltb_spec (time_diff (T mod 2 ^ 26) time) (Z.opp 59)); [cbn; eauto|].
  pose proof (Hs id) as Hid.
  destruct (SF.windows f !! id) as [w|] eqn:Ew, (G !! id) as [[s ν]|] eqn:EG;
    cbn in Hid; try done.
  - destruct Hid as (Hr & Hnew & Hν). cbn [fst snd] in *.
    pose proof (insert_refines w s no time Hr Hno64) as Hins.
    destruct (spec_insert s no) as [s'|] eqn:Es.
    + destruct Hins as (w' & -> & Hr' & Ht'). cbn [mbind comp_bind].
      apply spec_insert_Some in Es as [Hns Es].
      eexists _, _; split; [done|].
      eapply (accept_inv T0 T f G log time id no w' s' τ); try done; [lia|set_solver|].
      rewrite EG. split_and!; [done|set_solver|].
      rewrite Ht', Hnew, Htick. apply (newer_real T0 T); lia.
    + rewrite Hins. cbn [mbind comp_bind]. eexists _, _; split; [done|].
      rewrite insert_id by done. by destruct f.
  - destruct (new_refines no time Hno64) as (w' & -> & Hr' & Ht').
    cbn [mbind comp_bind]. eexists _, _; split; [done|].
    eapply (accept_inv T0 T f G log time id no w' ({[no]}, no) τ); try done;
      [lia|set_solver|]. rewrite EG. by rewrite Ht'.
Qed.

Lemma expire_step_inv T0 T f log cap :
  T0 <= T < T0 + 2 ^ 24 → filter_inv T0 T f log →
  ∃ f', filter_step f (OpExpire T cap) = Ret ([], f') ∧ filter_inv T0 T f' (log ++ []).
Proof.
  intros HT (G & Hs & Hlog & Hnd). cbn [filter_step].
  destruct (SF.remove_expired f (T mod 2 ^ 26) cap) as [ids f'] eqn:Er.
  apply remove_expired_lookup in Er as [Hlook Hold].
  eexists; split; [done|]. cbn [snd]. rewrite app_nil_r.
  exists (filter (λ '(i, _), i ∉ ids) G). split_and!; [| |done].
  - intros i. specialize (Hs i). rewrite Hlook.
    destruct (decide (i ∈ ids)) as [Hi|Hi].
    + replace (filter _ G !! i) with (@None ghost_window); [done|].
      symmetry. apply map_lookup_filter_None. right. naive_solver.
    + destruct (SF.windows f !! i), (G !! i) as [g|] eqn:EG; cbn in Hs; try done.
      * by rewrite (map_lookup_filter_Some_2 _ _ _ _ EG) by done.
      * replace (filter _ G !! i) with (@None ghost_window); [done|].
        symmetry. apply map_lookup_filter_None. by left.
  - eapply Forall_impl; [exact Hlog|]. intros [[t i] n] (τ & Ht & Hτ & Hd).
    exists τ. split_and!; [done|lia|lia|].
    destruct Hd as [|(s & ν & HG & Hn & Hle)]; [by left|].
    destruct (decide (i ∈ ids)) as [Hi|Hi].
    + left. apply Hold in Hi as (w & Hw & Hage). unfold MAX_PAST_TICKS in Hage.
      specialize (Hs i). rewrite Hw, HG in Hs. destruct Hs as (_ & Hnew & Hν).
      cbn [snd] in *. rewrite Hnew, time_diff_real in Hage by lia. lia.
    + right. exists s, ν. split_and!; [|done|done].
      by apply map_lookup_filter_Some_2.
Qed.

Lemma filter_inv_mono T0 T T' f log :
  T <= T' → filter_inv T0 T f log → filter_inv T0 T' f log.
Proof.
  intros HT (G & Hs & Hlog & Hnd). exists G. split_and!; [|..|done].
  - by eapply same_senders_mono.
  - eapply Forall_impl; [done|]. intros p. by apply remembered_mono.
Qed.

Lemma run_filter_inv T0 T ops f log :
  T0 <= T → monotone_ops T0 T ops → filter_inv T0 T f log →
  ∃ accs f' T', run_filter f ops = Ret (accs, f') ∧ filter_inv T0 T' f' (log ++ accs).
Proof.
  revert T f log; induction ops as [|op ops IH]; intros T f log HT Hm Hinv; cbn.
  - exists [], f, T. by rewrite app_nil_r.
  - destruct Hm as (Hle & Hlt & Hwf & Hm).
    apply (filter_inv_mono _ _ (op_time op)) in Hinv; [|done].
    assert (∃ acc f', filter_step f op = Ret (acc, f')
      ∧ filter_inv T0 (op_time op) f' (log ++ acc)) as (acc & f' & Hstep & Hinv').
    { destruct op as [T' time id no|T' cap]; cbn [op_time op_wf] in *.
      - apply packet_step_inv; [lia|apply Hwf|apply Hwf|done].
      - destruct (expire_step_inv T0 T' f log cap) as (f' & ? & ?); [lia|done|eauto]. }
    rewrite Hstep. cbn [mbind comp_bind].
    destruct (IH (op_time op) f' (log ++ acc)) as (accs & f2 & T2 & Hrun & Hinv2);
      [lia|done|done|]. rewrite Hrun. cbn [mbind comp_bind].
    eexists _, _, _; split; [done|]. by rewrite (assoc_L (++)).
Qed.

Lemma filter_inv_default T0 : filter_inv T0 T0 SF.default [].
Proof.
  exists ∅. split_and!; [|done|constructor].
  intros i. cbn. by rewrite !lookup_empty.
Qed.

End invariant.

(** A window never reports [Freshness]. *)
Lemma insert_not_freshness w n t w' : SW.insert w n t ≠ Ret (Err Freshness, w').
Proof.
  unfold SW.insert. set (finish := λ s : SW.t, _).
  assert (∀ s, finish s ≠ Ret (Err Freshness, w')) as Hf.
  { intros s. unfold finish. by destruct (_ <? _). }
  destruct (_ <=? _).
  - destruct (_ <=? _); [done|]. intros (seen & _ & Hr)%bind_ret.
    destruct seen; [done|]. apply bind_ret in Hr as (s & _ & Hr). by apply Hf in Hr.
  - intros (s & _ & Hr)%bind_ret. apply bind_ret in Hr as (s' & _ & Hr). by apply Hf in Hr.
Qed.

(** ** Runs of one window *)

(** Insert numbers in order; [true] for each accepted one. *)
Fixpoint run_window (w : SW.t) (inserts : list (Z * Z)) : comp (list bool * SW.t) :=
  match inserts with
  | [] => Ret ([], w)
  | (seq_no, time) :: rest =>
      '(r, w) ← SW.insert w seq_no time;
      '(accepted, w) ← run_window w rest;
      Ret (match r with Ok _ => true | Err _ => false end :: accepted, w)
  end.

(** The same numbers against the abstract window. *)
Fixpoint run_spec (s : spec_window) (inserts : list (Z * Z)) : list bool :=
  match inserts with
  | [] => []
  | (seq_no, _) :: rest =>
      match spec_insert s seq_no with
      | None => false :: run_spec s rest
      | Some s => true :: run_spec s rest
      end
  end.

Lemma run_window_refines inserts : ∀ w s,
  window_refines w s → Forall (λ i, in_width 64 (i.1)) inserts →
  ∃ w', run_window w inserts = Ret (run_spec s inserts, w').
Proof.
  induction inserts as [|[n t] rest IH]; intros w s Hw Hi; cbn [run_window run_spec].
  { by exists w. }
  apply Forall_cons in Hi as [Hn Hi]. cbn in Hn.
  pose proof (insert_refines w s n t Hw Hn) as Hins.
  destruct (spec_insert s n) as [s'|].
  - destruct Hins as (w1 & -> & Hw1 & _). cbn [mbind comp_bind].
    destruct (IH w1 s' Hw1 Hi) as (w2 & ->). by exists w2.
  - rewrite Hins. cbn [mbind comp_bind]. destruct (IH w s Hw Hi) as (w2 & ->). by exists w2.
Qed.

(** ** Properties *)

Section properties.
Context `{HashIterSpec}.


(** C9: no trace of packets and evictions accepts the same stamp twice. *)
Theorem no_replay_across_evictions T0 ops :
  monotone_ops T0 T0 ops →
  ∃ accepted f, run_filter SF.default ops = Ret (accepted, f) ∧ NoDup accepted.
Proof.
  intros Hm.
  destruct (run_filter_inv T0 T0 ops SF.default []) as (accs & f & T' & Hrun & G & _ & _ & Hnd);
    [lia|done|apply filter_inv_default|]. by exists accs, f.
Qed.
End properties.

(** C26: the circular bitmap implements its specification, the set of accepted
    numbers with the last 2^20 remembered: over any series of inserts of any
    64-bit numbers, both accept exactly the same ones, and nothing panics. *)
Theorem window_implements_bounded_set seq_no time inserts :
  in_width 64 seq_no → Forall (λ i, in_width 64 (i.1)) inserts →
  ∃ w w', SW.new seq_no time = Ret w
    ∧ run_window w inserts = Ret (run_spec ({[seq_no]}, seq_no) inserts, w').
Proof.
  intros Hn Hi. destruct (new_refines seq_no time Hn) as (w & Hw & Hr & _).
  destruct (run_window_refines inserts w _ Hr Hi) as (w' & Hrun). by exists w, w'.
Qed.

(** C27: the filter judges freshness by the real tick distance, although it
    sees 26 bits of either clock: within 2^25 ticks, a packet is dropped as
    stale or early exactly when it is more than 645 ticks old or more than 59
    ticks ahead, and the filter is then unchanged. *)
Theorem freshness_is_tick_distance f T τ seq_id seq_no :
  - 2 ^ 25 <= T - τ < 2 ^ 25 →
  (T - τ > 645 ∨ T - τ < -59 →
   SF.check_and_insert f (T mod 2 ^ 26) (τ mod 2 ^ 26) seq_id seq_no
   = Ret (Err Freshness, f))
  ∧ (-59 <= T - τ <= 645 → ∀ f',
     SF.check_and_insert f (T mod 2 ^ 26) (τ mod 2 ^ 26) seq_id seq_no
     ≠ Ret (Err Freshness, f')).
Proof.
  intros Hd. unfold SF.check_and_insert, MAX_PAST_TICKS, MAX_FUTURE_TICKS.
  rewrite time_diff_real by done. split.
  - intros Ha. destruct (Z.ltb_spec 645 (T - τ)); [done|].
    by rewrite (proj2 (Z.ltb_lt _ _)) by lia.
  - intros Ha f'. rewrite !(proj2 (Z.ltb_ge _ _)) by lia.
    destruct (SF.windows f !! seq_id) as [w|].
    + intros ([r w'] & Hi & Hr)%bind_ret. apply Ret_inj in Hr as [= -> _].
      by apply insert_not_freshness in Hi.
    + intros (w & _ & Hr)%bind_ret. done.
Qed.

(** ** Witnesses *)

#[local] Existing Instance Sequence.toy_iter.
#[local] Existing Instance Sequence.toy_iter_spec.

(** A packet, its replay, a peer restart, an eviction, and the replay again. *)
Definition demo_ops : list filter_op :=
  [OpPacket 100 100 1 7; OpPacket 101 100 1 7; OpPacket 700 700 2 0;
   OpExpire 800 1; OpPacket 800 100 1 7].

Lemma no_replay_across_evictions_witness :
  ∃ accepted f, run_filter SF.default demo_ops = Ret (accepted, f) ∧ NoDup accepted.
Proof.
  apply (no_replay_across_evictions 100). unfold demo_ops, in_width.
  cbn [monotone_ops op_time op_wf]. unfold in_width. lia.
Defined.

Lemma window_implements_bounded_set_witness :
  ∃ w w', SW.new 5 9 = Ret w
    ∧ run_window w [(7, 9); (5, 9); (6, 10)]
      = Ret ([true; false; true], w').
Proof.
  apply (window_implements_bounded_set 5 9 [(7, 9); (5, 9); (6, 10)]); [by vm_compute|].
  repeat constructor; by vm_compute.
Defined.

Lemma freshness_is_tick_distance_witness :
  (700 - 50 > 645 ∨ 700 - 50 < -59 →
   SF.check_and_insert SF.default 700 50 1 0 = Ret (Err Freshness, SF.default))
  ∧ (-59 <= 700 - 50 <= 645 → ∀ f',
     SF.check_and_insert SF.default 700 50 1 0 ≠ Ret (Err Freshness, f')).
Proof. apply (freshness_is_tick_distance SF.default 700 50 1 0). lia. Defined.
