(* ===== verification/Crypto.v ===== *)
(** * Interfaces of the cryptographic crates, and the random stream

    [aegis] and [blake3] are third-party: they are interfaces here, one class
    for the operations the code calls and one for the documented behaviour it
    relies on.  [RandomStream] is [random.rs].  [toy_aegis] and [toy_blake3]
    show that the laws can hold; nothing else depends on them. *)

From S2P Require Import Prelude Bytes.

(** [Aegis128L::new(key, nonce)] with [encrypt_in_place] and
    [decrypt_in_place] on a 16-byte tag and no associated data. *)
Class Aegis128L : Type := {
  encrypt_in_place (key nonce plaintext : list Z) : list Z * list Z;
  decrypt_in_place (key nonce ciphertext tag : list Z) : option (list Z);
}.

Class Aegis128LSpec `{Aegis128L} : Prop := {
  encrypt_len : ∀ k n p, len (encrypt_in_place k n p).1 = len p;
  encrypt_tag_len : ∀ k n p, len (encrypt_in_place k n p).2 = 16;
  encrypt_bytes_ok : ∀ k n p, bytes_ok p → bytes_ok (encrypt_in_place k n p).1;
  decrypt_encrypt : ∀ k n p,
    decrypt_in_place k n (encrypt_in_place k n p).1 (encrypt_in_place k n p).2
    = Some p;
  decrypt_len : ∀ k n c t p, decrypt_in_place k n c t = Some p → len p = len c;
  decrypt_bytes_ok : ∀ k n c t p,
    bytes_ok c → decrypt_in_place k n c t = Some p → bytes_ok p;
}.

(** [blake3::hash] and the [OutputReader] of a keyed hasher. *)
Class Blake3 : Type := {
  output_reader : Type;
  blake3_hash (input : list Z) : list Z;
  keyed_xof (key : list Z) : output_reader;
  reader_fill (r : output_reader) (n : Z) : list Z * output_reader;
}.

Class Blake3Spec `{Blake3} : Prop := {
  reader_fill_len : ∀ r n, 0 <= n → len (reader_fill r n).1 = n;
  reader_fill_ok : ∀ r n, bytes_ok (reader_fill r n).1;
}.

Module RandomStream.
Section random.
Context `{Blake3}.

Record t := { reader : output_reader }.

Definition new (seed : list Z) : t := Build_t (keyed_xof (blake3_hash seed)).

(** [fill] of a buffer of [n] bytes. *)
Definition fill (self : t) (n : Z) : list Z * t :=
  let '(bytes, r) := reader_fill (reader self) n in (bytes, Build_t r).

Definition u64 (self : t) : Z * t :=
  let '(bytes, self) := fill self 8 in (from_le bytes, self).

End random.
End RandomStream.

(** ** A concrete model of the laws *)

(** The identity cipher with a checksum tag. *)
Definition toy_tag (k n p : list Z) : list Z :=
  to_le 16 (from_le k + 3 * from_le n + 7 * from_le p).

#[local] Instance toy_aegis : Aegis128L := {
  encrypt_in_place k n p := (p, toy_tag k n p);
  decrypt_in_place k n c t := if decide (t = toy_tag k n c) then Some c else None;
}.

(** A counter as a byte stream. *)
#[local] Instance toy_blake3 : Blake3 := {
  output_reader := Z;
  blake3_hash input := input;
  keyed_xof key := from_le key;
  reader_fill r n := ((λ i, (r + i) mod 256) <$> seqZ 0 n, r + n);
}.

(** ** Facts *)

Lemma random_u64_range `{Blake3Spec} r : in_width 64 (RandomStream.u64 r).1.
Proof.
  unfold RandomStream.u64, RandomStream.fill.
  pose proof (reader_fill_len (RandomStream.reader r) 8 ltac:(lia)) as Hl.
  pose proof (reader_fill_ok (RandomStream.reader r) 8) as Ho.
  destruct (reader_fill _ _) as [bytes r']. cbn in *.
  pose proof (from_le_bound bytes Ho) as Hb. by rewrite Hl in Hb.
Qed.

Lemma random_fill_len `{Blake3Spec} r n :
  0 <= n → len (RandomStream.fill r n).1 = n.
Proof.
  intros Hn. unfold RandomStream.fill.
  pose proof (reader_fill_len (RandomStream.reader r) n Hn).
  by destruct (reader_fill _ _).
Qed.

Lemma random_fill_ok `{Blake3Spec} r n : bytes_ok (RandomStream.fill r n).1.
Proof.
  unfold RandomStream.fill. pose proof (reader_fill_ok (RandomStream.reader r) n).
  by destruct (reader_fill _ _).
Qed.

#[local] Instance toy_aegis_spec : Aegis128LSpec.
Proof.
  split; cbn; try done.
  - intros. by rewrite decide_True.
  - intros k n c t p. case_decide; [|done]. by intros [= <-].
  - intros k n c t p. case_decide; [|done]. by intros ? [= <-].
Qed.

#[local] Instance toy_blake3_spec : Blake3Spec.
Proof.
  split; cbn.
  - intros r n Hn. unfold len. rewrite length_fmap, length_seqZ. lia.
  - intros r n. apply Forall_fmap, Forall_true. intros i. cbn.
    by apply Z.mod_pos_bound.
Qed.

#[export] Hint Resolve random_u64_range random_fill_ok : rust.
