(* ===== verification/Packet.v ===== *)
(** * Transport packets

    [packet.rs]: the outer AEAD layer around an envelope,
    [nonce (16) | tag (16) | encrypted envelope], and its rejection of
    packets outside the length limits. *)

From S2P Require Import Prelude Bytes Core Wire WireFacts Crypto.

Inductive TransportPacketError : Set :=
  | InvalidLength | Authentication | MalformedEnvelope.

Section packet.
Context `{Aegis128L, Blake3}.

Definition encode_transport_packet (key : list Z) (random : RandomStream.t)
    (envelope : Envelope.t) : comp (list Z * RandomStream.t) :=
  let '(nonce, random) := RandomStream.fill random 16 in
  let packet := Envelope.encode_with_prefix envelope TRANSPORT_PACKET_OVERHEAD in
  packet ← copy_from_slice packet 0 16 nonce;
  body ← slice packet TRANSPORT_PACKET_OVERHEAD (len packet);
  let '(ciphertext, tag) := encrypt_in_place key nonce body in
  packet ← copy_from_slice packet TRANSPORT_PACKET_OVERHEAD (len packet) ciphertext;
  packet ← copy_from_slice packet 16 TRANSPORT_PACKET_OVERHEAD tag;
  Ret (packet, random).

Definition decode_transport_packet (key packet : list Z)
    : comp (result TransportPacketError Envelope.t) :=
  if (len packet <? TRANSPORT_PACKET_OVERHEAD)
     || (MAX_TRANSPORT_PACKET_SIZE <? len packet)
  then Ret (Err InvalidLength) else
  nonce ← slice packet 0 16;
  tag ← slice packet 16 TRANSPORT_PACKET_OVERHEAD;
  body ← slice packet TRANSPORT_PACKET_OVERHEAD (len packet);
  match decrypt_in_place key nonce body tag with
  | None => Ret (Err Authentication)
  | Some body =>
      r ← Envelope.decode body;
      Ret (match r with Ok e => Ok e | Err _ => Err MalformedEnvelope end)
  end.

End packet.

(** ** Facts *)

Section facts.
Context `{Aegis128LSpec, Blake3Spec}.

(** Overwriting the middle part of an append. *)
Lemma copy_middle {A} (l1 l2 l3 src : list A) a b :
  a = len l1 → b = len l1 + len l2 → len src = len l2 →
  copy_from_slice (l1 ++ l2 ++ l3) a b src = Ret (l1 ++ src ++ l3).
Proof.
  intros -> -> Hs. pose proof (len_nonneg l1). pose proof (len_nonneg l2).
  pose proof (len_nonneg l3).
  rewrite copy_from_slice_returns by (rewrite ?len_app; lia). f_equal.
  rewrite (assoc_L (++) l1 l2 l3) at 2. f_equal; [|f_equal].
  - apply take_app_length'. unfold len. lia.
  - apply drop_app_length'. rewrite length_app. unfold len. lia.
Qed.

Lemma copy_prefix {A} (l2 l3 src : list A) b :
  b = len l2 → len src = len l2 →
  copy_from_slice (l2 ++ l3) 0 b src = Ret (src ++ l3).
Proof. intros. by apply (copy_middle []). Qed.

(** The bytes of an encoded packet. *)
Lemma encode_transport_packet_eq key random e :
  Envelope.wf e →
  let nonce := (RandomStream.fill random 16).1 in
  let sealed := encrypt_in_place key nonce (Envelope.encode_with_prefix e 0) in
  encode_transport_packet key random e
  = Ret (nonce ++ sealed.2 ++ sealed.1, (RandomStream.fill random 16).2).
Proof.
  intros He. cbn zeta. unfold encode_transport_packet.
  pose proof (random_fill_len random 16 ltac:(lia)) as Hn.
  destruct (RandomStream.fill random 16) as [nonce random']. cbn [fst snd] in *.
  replace (Envelope.encode_with_prefix e TRANSPORT_PACKET_OVERHEAD)
    with (vec 16 0 ++ vec 16 0 ++ Envelope.encode_with_prefix e 0)
    by (rewrite !encode_layout by done; done).
  set (body := Envelope.encode_with_prefix e 0).
  rewrite copy_prefix by done. cbn [mbind comp_bind]. rewrite (assoc_L (++) nonce).
  rewrite slice_app_r by (rewrite ?len_app, ?len_vec, ?Hn; done || lia).
  cbn [mbind comp_bind].
  pose proof (encrypt_len key nonce body) as Hc.
  pose proof (encrypt_tag_len key nonce body) as Ht.
  destruct (encrypt_in_place key nonce body) as [c t]. cbn [fst snd] in *.
  rewrite <- (app_nil_r body) at 1.
  rewrite copy_middle by (rewrite ?len_app, ?len_vec, ?Hn; done || lia).
  cbn [mbind comp_bind]. rewrite app_nil_r, <- (assoc_L (++)).
  rewrite copy_middle by (rewrite ?len_vec, ?Hn; done || lia). done.
Qed.

Lemma decode_transport_packet_parts key nonce tag body :
  len nonce = 16 → len tag = 16 → 32 + len body <= MAX_TRANSPORT_PACKET_SIZE →
  decode_transport_packet key (nonce ++ tag ++ body)
  = match decrypt_in_place key nonce body tag with
    | None => Ret (Err Authentication)
    | Some body =>
        r ← Envelope.decode body;
        Ret (match r with Ok e => Ok e | Err _ => Err MalformedEnvelope end)
    end.
Proof.
  intros Hn Ht Hl. unfold decode_transport_packet.
  pose proof (len_nonneg body). rewrite !len_app, Hn, Ht.
  change TRANSPORT_PACKET_OVERHEAD with 32.
  rewrite (proj2 (Z.ltb_ge _ _)), (proj2 (Z.ltb_ge _ _)) by lia. cbn [orb].
  rewrite (slice_app_l nonce _ 16) by done. cbn [mbind comp_bind].
  rewrite (slice_app nonce tag body 16 32) by lia. cbn [mbind comp_bind].
  by rewrite (assoc_L (++)), slice_app_r by (rewrite len_app; lia).
Qed.

Lemma transport_decode_encode key random e :
  Envelope.wf e → 32 + Envelope.encoded_len e <= MAX_TRANSPORT_PACKET_SIZE →
  ∃ packet random',
    encode_transport_packet key random e = Ret (packet, random')
    ∧ len packet = 32 + Envelope.encoded_len e
    ∧ decode_transport_packet key packet = Ret (Ok e).
Proof.
  intros He Hl. rewrite encode_transport_packet_eq by done.
  eexists _, _; split; [done|].
  pose proof (len_encode e 0 ltac:(lia) He) as Hb.
  pose proof (random_fill_len random 16 ltac:(lia)) as Hn.
  set (nonce := (RandomStream.fill random 16).1) in *.
  set (body := Envelope.encode_with_prefix e 0) in *.
  pose proof (encrypt_len key nonce body) as Hc.
  pose proof (encrypt_tag_len key nonce body) as Ht.
  rewrite !len_app, Hn, Hc, Ht, Hb. split; [lia|].
  rewrite decode_transport_packet_parts by (done || lia).
  rewrite decrypt_encrypt. unfold body. rewrite envelope_decode_encode by done. done.
Qed.

(** Untrusted packets never make the decoder panic. *)
Lemma decode_transport_packet_returns key packet :
  bytes_ok packet → returns (decode_transport_packet key packet).
Proof.
  intros Hok. unfold decode_transport_packet.
  change TRANSPORT_PACKET_OVERHEAD with 32.
  destruct (_ || _) eqn:E; [by eexists|]. bool_to_prop.
  destruct (slice_returns' packet 0 16) as (nonce & -> & _); [lia..|].
  destruct (slice_returns' packet 16 32) as (tag & -> & _); [lia..|].
  destruct (slice_returns' packet 32 (len packet)) as (body & Hb & _); [lia..|].
  rewrite Hb. cbn [mbind comp_bind].
  destruct (decrypt_in_place _ _ _ _) as [p|] eqn:Ed; [|by eexists].
  apply returns_bind; [|by eexists].
  apply envelope_decode_returns. eapply decrypt_bytes_ok; [|exact Ed].
  by eapply slice_bytes_ok.
Qed.

(** An accepted packet carries a well-formed envelope. *)
Lemma decode_transport_packet_Ok key packet e :
  bytes_ok packet → decode_transport_packet key packet = Ret (Ok e) →
  Envelope.wf e ∧ bytes_ok (Envelope.payload e)
  ∧ len packet = 32 + Envelope.encoded_len e
  ∧ len packet <= MAX_TRANSPORT_PACKET_SIZE.
Proof.
  intros Hok. unfold decode_transport_packet.
  change TRANSPORT_PACKET_OVERHEAD with 32.
  destruct (_ || _) eqn:E; [done|]. bool_to_prop. intros Hd.
  apply bind_ret in Hd as (nonce & _ & Hd). apply bind_ret in Hd as (tag & _ & Hd).
  apply bind_ret in Hd as (body & Hb & Hd).
  destruct (decrypt_in_place _ _ _ _) as [p|] eqn:Ed; [|done].
  apply bind_ret in Hd as ([e'|] & He & Hd); [|done]. injection Hd as ->.
  apply decrypt_len in Ed as Hpl. apply decrypt_bytes_ok in Ed;
    [|by eapply slice_bytes_ok].
  apply envelope_decode_Ok in He as (Hwf & Hp & Henc); [|done].
  split_and!; [done|done| |lia].
  rewrite <- Henc, len_encode in Hpl by done.
  apply slice_len in Hb. lia.
Qed.

(** ** Properties *)

(** C21: A well-formed envelope that fits a transport packet is sealed into one of
    at most the maximal size, and opening that packet with the same key gives back
    the envelope. *)
Theorem transport_packet_roundtrip key random e :
  Envelope.wf e → 32 + Envelope.encoded_len e <= MAX_TRANSPORT_PACKET_SIZE →
  ∃ packet random',
    encode_transport_packet key random e = Ret (packet, random')
    ∧ len packet = 32 + Envelope.encoded_len e
    ∧ decode_transport_packet key packet = Ret (Ok e).
Proof. apply transport_decode_encode. Qed.

End facts.

(** ** Witnesses *)

#[local] Existing Instance toy_aegis.
#[local] Existing Instance toy_aegis_spec.
#[local] Existing Instance toy_blake3.
#[local] Existing Instance toy_blake3_spec.

Definition demo_key : list Z := vec 16 1.

Lemma transport_packet_roundtrip_witness :
  ∃ packet random',
    encode_transport_packet demo_key (RandomStream.new demo_key) demo_envelope
      = Ret (packet, random')
    ∧ len packet = 56
    ∧ decode_transport_packet demo_key packet = Ret (Ok demo_envelope).
Proof.
  apply (transport_packet_roundtrip demo_key (RandomStream.new demo_key) demo_envelope);
    [exact demo_envelope_wf|by vm_compute].
Defined.
