(* ===== verification/Machine.v ===== *)
(** * Shared receive steps

    The functions of [machine.rs] that both cores call on an inbound packet:
    decoding with metrics, the sequence check with metrics, and the recovery
    of the full tick of the newest packet. *)

From S2P Require Import Prelude Bytes Core Wire Sequence Crypto Packet.

(** [counter += 1] on a [u64] metric. *)
Definition bump (n : Z) : Z := n +{64} 1.

Section machine.
Context `{Aegis128L}.

Definition receive_transport_packet (envelope_key : list Z)
    (metrics : CoreMetrics) (bytes : list Z)
    : comp (option Envelope.t * CoreMetrics) :=
  r ← decode_transport_packet envelope_key bytes;
  Ret match r with
  | Ok envelope => (Some envelope, metrics)
  | Err InvalidLength => (None, metrics <| packets_dropped ::= bump |>)
  | Err Authentication => (None, metrics <| authentication_failures ::= bump |>)
  | Err MalformedEnvelope => (None, metrics <| malformed_packets ::= bump |>)
  end.

End machine.

Definition check_sequence (sequence_filter : SequenceFilter.t)
    (metrics : CoreMetrics) (current_time : Z) (stamp : EnvelopeStamp)
    : comp (bool * SequenceFilter.t * CoreMetrics) :=
  '(r, sequence_filter) ←
    SequenceFilter.check_and_insert sequence_filter current_time
      (stamp_time stamp) (stamp_seq_id stamp) (stamp_seq_no stamp);
  Ret match r with
  | Ok _ => (true, sequence_filter, metrics)
  | Err Freshness =>
      (false, sequence_filter, metrics <| freshness_drops ::= bump |>)
  | Err Replay => (false, sequence_filter, metrics <| replay_drops ::= bump |>)
  end.

Definition note_latest_sequence (metrics : CoreMetrics)
    (boot_time_ms elapsed_ms packet_time : Z) (first : bool) : CoreMetrics :=
  let current_tick :=
    wrap 32 (Z.shiftr (boot_time_ms +{64} elapsed_ms) TS_SHIFT) in
  let packet_tick :=
    current_tick -{32}
      wrap 32 (time_diff (Z.land current_tick TIME_MASK) packet_time) in
  if first || (packet_tick -{32} latest_seq_time metrics <? Z.shiftl 1 31)
  then metrics <| latest_seq_time := packet_tick |>
  else metrics.

(** [(((boot_time_ms + elapsed_ms) >> TS_SHIFT) as u32) & TIME_MASK] *)
Definition current_time_of (boot_time_ms elapsed_ms : Z) : Z :=
  Z.land (wrap 32 (Z.shiftr (boot_time_ms +{64} elapsed_ms) TS_SHIFT)) TIME_MASK.

(** [a % b] on unsigned integers. *)
Definition checked_rem (a b : Z) : comp Z :=
  if b =? 0 then Panic else Ret (a mod b).

(** ** Facts *)

(** The unwrapped tick of a call, as long as the clock fits [u64]. *)
Definition tick_of (boot_time_ms elapsed_ms : Z) : Z :=
  (boot_time_ms + elapsed_ms) / 1024.

Lemma current_time_of_tick boot elapsed :
  0 <= boot + elapsed < 2 ^ 64 →
  current_time_of boot elapsed = tick_of boot elapsed mod 2 ^ 26.
Proof.
  intros H. unfold current_time_of, tick_of. rewrite (wrap_id 64) by done.
  change TIME_MASK with (2 ^ 26 - 1). rewrite land_ones_mod, wrap_mod by lia.
  by rewrite Z.shiftr_div_pow2 by done.
Qed.

Lemma tick_of_mono boot e1 e2 : e1 <= e2 → tick_of boot e1 <= tick_of boot e2.
Proof. intros H. apply Z.div_le_mono; lia. Qed.

Lemma checked_rem_returns a b :
  0 < b → ∃ r, checked_rem a b = Ret r ∧ 0 <= r < b.
Proof.
  intros Hb. unfold checked_rem. case_cmp. eexists; split; [done|].
  apply Z.mod_pos_bound. lia.
Qed.
