(* ===== verification/MachineFacts.v ===== *)
(** * Facts of the shared receive steps

    Every outcome of [receive_transport_packet] and [check_sequence] bumps
    exactly one counter or hands the packet on; a sequence check keeps the
    filter's invariant and accepts a stamp only once. *)

From S2P Require Import Prelude Bytes Core Wire WireFacts Sequence.
From S2P Require Import SequenceFacts SequenceTrace Crypto Packet Machine.

(** The number of packets a set of counters accounts for. *)
Definition handled (m : CoreMetrics) : Z :=
  packets_sent m + packets_dropped m + authentication_failures m
  + freshness_drops m + replay_drops m + malformed_packets m.

(** The counters after one more packet was handled. *)
Definition one_more_handled (m m' : CoreMetrics) : Prop :=
  wrap 64 (handled m') = wrap 64 (handled m + 1)
  ∧ packets_received m' = packets_received m.

Definition envelope_packet (e : Envelope.t) : packet :=
  (Envelope.time e, Envelope.seq_id e, Envelope.seq_no e).

(** ** Counters *)

Lemma bump_mod n : ∃ k, bump n = n + 1 + k * 2 ^ 64.
Proof.
  unfold bump, wrap. exists (- ((n + 1) / 2 ^ 64)).
  pose proof (Z.div_mod (n + 1) (2 ^ 64)). lia.
Qed.

(** Any single counter of [handled] may be the bumped one. *)
Ltac count_bump :=
  unfold one_more_handled, handled; cbn;
  match goal with
  | |- context [bump ?n] =>
      let k := fresh "k" in let E := fresh "E" in
      destruct (bump_mod n) as [k E]; rewrite E;
      split; [apply wrap_eq_iff; [lia|]; exists k; lia|done]
  end.

Lemma note_latest_handled m b e t f :
  handled (note_latest_sequence m b e t f) = handled m
  ∧ packets_received (note_latest_sequence m b e t f) = packets_received m.
Proof. unfold note_latest_sequence. by destruct (_ || _). Qed.

(** ** The two checks *)

Section checks.
Context `{Aegis128LSpec, HashIterSpec}.

Lemma receive_cases key m bytes :
  bytes_ok bytes →
  (∃ m', receive_transport_packet key m bytes = Ret (None, m') ∧ one_more_handled m m')
  ∨ ∃ e, receive_transport_packet key m bytes = Ret (Some e, m)
      ∧ decode_transport_packet key bytes = Ret (Ok e)
      ∧ Envelope.wf e ∧ bytes_ok (Envelope.payload e).
Proof.
  intros Hok. unfold receive_transport_packet.
  destruct (decode_transport_packet_returns key bytes Hok) as [[e|[]] Hd];
    rewrite Hd; cbn [mbind comp_bind].
  - right. apply decode_transport_packet_Ok in Hd as (Hwf & Hp & _); [|done]. by exists e.
  - left. eexists; split; [done|]. count_bump.
  - left. eexists; split; [done|]. count_bump.
  - left. eexists; split; [done|]. count_bump.
Qed.

Lemma check_sequence_cases T0 T f m e log :
  T0 <= T < T0 + 2 ^ 24 → Envelope.wf e → filter_inv T0 T f log →
  (∃ f' m', check_sequence f m (T mod 2 ^ 26) (envelope_stamp e) = Ret (false, f', m')
     ∧ filter_inv T0 T f' log ∧ one_more_handled m m')
  ∨ ∃ f', check_sequence f m (T mod 2 ^ 26) (envelope_stamp e) = Ret (true, f', m)
     ∧ filter_inv T0 T f' (log ++ [envelope_packet e]).
Proof.
  intros HT He Hinv. destruct He as [Ht _ Hn _ _ _].
  destruct (packet_step_inv T0 T f log (Envelope.time e) (Envelope.seq_id e)
    (Envelope.seq_no e) HT Ht Hn Hinv) as (acc & f' & Hstep & Hinv').
  cbn [filter_step] in Hstep. unfold check_sequence. cbn [stamp_time stamp_seq_id stamp_seq_no envelope_stamp].
  apply bind_ret in Hstep as ([r f''] & -> & Hstep). injection Hstep as <- <-.
  destruct r as [[]|[]]; cbn [mbind comp_bind].
  - right. eexists; split; [done|]. done.
  - left. rewrite app_nil_r in Hinv'. eexists _, _; split_and!; [done|done|..]; count_bump.
  - left. rewrite app_nil_r in Hinv'. eexists _, _; split_and!; [done|done|..]; count_bump.
Qed.

End checks.
