(* ===== verification/Relay.v ===== *)
(** * The relay core

    [relay.rs]: a relay authenticates the envelope, checks its sequence,
    consumes the first hop of the route plan and re-seals the rest with fresh
    padding for the next channel. *)

From S2P Require Import Prelude Bytes Core Wire Sequence Crypto Packet Machine.

Module RelayConfig.
Record t := {
  envelope_key : list Z;
  random_seed : list Z;
  boot_time_ms : Z;
  local_channels : list ChannelId;
  local_min_mtu : Z;
}.
End RelayConfig.

Module RelayCore.
Section relay.
Context `{Aegis128L, Blake3, HashIter}.

Record t := {
  config : RelayConfig.t;
  random : RandomStream.t;
  sequence_filter : SequenceFilter.t;
  metrics : CoreMetrics;
}.

#[global] Instance eta_RelayCore : Eta t := λ r,
  Build_t (config r) (random r) (sequence_filter r) (metrics r).

Definition new (config : RelayConfig.t) : t :=
  Build_t config (RandomStream.new (RelayConfig.random_seed config))
    SequenceFilter.default default_metrics.

Definition get_metrics (self : t) : CoreMetrics :=
  (metrics self) <| active_sequences :=
    SequenceFilter.filter_len (sequence_filter self) |>.

Definition drop_packet (self : t) : t :=
  self <| metrics ::= λ m, m <| packets_dropped ::= bump |> |>.

Definition forward_packet (self : t) (elapsed_ms : Z) (bytes : list Z)
    (actions : list CoreAction) : comp (t * list CoreAction) :=
  let current_time :=
    current_time_of (RelayConfig.boot_time_ms (config self)) elapsed_ms in
  let first_sequence :=
    SequenceFilter.filter_len (sequence_filter self) =? 0 in
  '(received, m) ← receive_transport_packet
    (RelayConfig.envelope_key (config self)) (metrics self) bytes;
  let self := self <| metrics := m |> in
  match received with
  | None => Ret (self, actions)
  | Some envelope =>
      let stamp := envelope_stamp envelope in
      '(fresh, f, m) ← check_sequence (sequence_filter self) (metrics self)
        current_time stamp;
      let self := self <| sequence_filter := f |> <| metrics := m |> in
      if negb fresh then Ret (self, actions) else
      let self := self <| sequence_filter ::= λ f,
        (SequenceFilter.remove_expired f current_time 0).2 |> in
      let self := self <| metrics ::= λ m,
        note_latest_sequence m (RelayConfig.boot_time_ms (config self))
          elapsed_ms (stamp_time stamp) first_sequence |> in
      match head (Envelope.route_plan envelope) with
      | None => Ret (drop_packet self, actions)
      | Some channel_id =>
          if negb (existsb (Z.eqb channel_id)
                     (RelayConfig.local_channels (config self)))
          then Ret (drop_packet self, actions) else
          let envelope := envelope <| Envelope.route_plan ::= tail |> in
          let unpadded_len :=
            TRANSPORT_PACKET_OVERHEAD + ENVELOPE_FIXED_OVERHEAD
            + len (Envelope.route_plan envelope) * CHANNEL_ID_SIZE
            + len (Envelope.payload envelope) in
          let local_min_mtu :=
            effective_transport_mtu (RelayConfig.local_min_mtu (config self)) in
          if local_min_mtu <? unpadded_len + MIN_PADDING
          then Ret (drop_packet self, actions) else
          let available := (local_min_mtu -{64} unpadded_len) `min` 255 in
          let '(r, random') := RandomStream.u64 (random self) in
          let self := self <| random := random' |> in
          p ← checked_rem r available;
          let envelope := envelope <| Envelope.padding_len := wrap 8 (1 + p) |> in
          '(bytes, random') ← encode_transport_packet
            (RelayConfig.envelope_key (config self)) (random self) envelope;
          let self := self <| random := random' |> in
          let self := self <| metrics ::= λ m, m <| packets_sent ::= bump |> |> in
          Ret (self, actions ++ [SendTransportPacket channel_id bytes])
      end
  end.

Definition handle_event (self : t) (elapsed_ms : Z) (event : CoreEvent)
    (actions : list CoreAction)
    : comp (CoreEventResult * t * list CoreAction) :=
  match event with
  | TransportPacketReceived _ bytes =>
      let self :=
        self <| metrics ::= λ m, m <| packets_received ::= bump |> |> in
      '(self, actions) ← forward_packet self elapsed_ms bytes actions;
      Ret (ResultNone, self, actions)
  | TransportPacketSendFailed _ _ =>
      let self :=
        self <| metrics ::= λ m, m <| send_failures ::= bump |> |> in
      Ret (ResultNone, self, actions)
  | SessionOpen | SessionWrite _ _ | SessionClose _ _ => Panic
  end.

Definition poll (self : t) (elapsed_ms : Z) (actions : list CoreAction)
    : t * list CoreAction := (self, actions).

Definition next_deadline (self : t) (elapsed_ms : Z) : Z := U64_MAX.

End relay.
End RelayCore.
