(* ===== verification/RelayFacts.v ===== *)
(** * Correctness of the relay core

    One hop is consumed and the sealed message is untouched; forwarded packets
    respect the local MTU; every received packet is accounted for in exactly
    one metric; and no stamp is forwarded twice over a whole trace. *)

From S2P Require Import Prelude Bytes Core Wire WireFacts Sequence.
From S2P Require Import SequenceFacts SequenceTrace Crypto Packet Machine.
From S2P Require Import MachineFacts Relay.

Module RC := RelayCore.

Section defs.
Context `{Aegis128L, Blake3, HashIter}.

(** [out] is [e] after one hop over [channel]: same stamp and payload, the
    first hop gone, fresh padding, and a size within the MTU. *)
Definition one_hop (cfg : RelayConfig.t) (e : Envelope.t) (channel : Z)
    (out : list Z) : Prop :=
  ∃ rest pad,
    Envelope.route_plan e = channel :: rest
    ∧ channel ∈ RelayConfig.local_channels cfg
    ∧ 1 <= pad <= 255
    ∧ decode_transport_packet (RelayConfig.envelope_key cfg) out
      = Ret (Ok (e <| Envelope.route_plan := rest |> <| Envelope.padding_len := pad |>))
    ∧ len out <= effective_transport_mtu (RelayConfig.local_min_mtu cfg).

(** What forwarding one packet may emit, next to the packets it accepted. *)
Definition forward_output (cfg : RelayConfig.t) (bytes : list Z)
    (accepted : list packet) (out : list CoreAction) : Prop :=
  out = [] ∨
  ∃ e channel b,
    decode_transport_packet (RelayConfig.envelope_key cfg) bytes = Ret (Ok e)
    ∧ accepted = [envelope_packet e]
    ∧ out = [SendTransportPacket channel b] ∧ one_hop cfg e channel b.

(** A trace of transport events, each with its [elapsed_ms]. *)
Fixpoint run_relay (self : RC.t) (events : list (Z * CoreEvent))
    (actions : list CoreAction) : comp (RC.t * list CoreAction) :=
  match events with
  | [] => Ret (self, actions)
  | (elapsed, event) :: events' =>
      '(_, self, actions) ← RC.handle_event self elapsed event actions;
      run_relay self events' actions
  end.

(** The stamp of a sent packet, as the next hop decodes it. *)
Definition sent_stamp (key : list Z) (a : CoreAction) : option packet :=
  match a with
  | SendTransportPacket _ bytes =>
      match decode_transport_packet key bytes with
      | Ret (Ok e) => Some (envelope_packet e)
      | _ => None
      end
  | _ => None
  end.

(** The events a relay's shell submits. *)
Definition transport_event (e : CoreEvent) : Prop :=
  match e with
  | TransportPacketReceived _ bytes => bytes_ok bytes
  | TransportPacketSendFailed _ _ => True
  | _ => False
  end.

(** A run of at most 2^24 ticks (about 198 days) with a monotone clock. *)
Fixpoint relay_trace (boot T0 elapsed0 : Z) (events : list (Z * CoreEvent)) : Prop :=
  match events with
  | [] => True
  | (elapsed, event) :: events' =>
      elapsed0 <= elapsed ∧ 0 <= boot + elapsed < 2 ^ 64
      ∧ tick_of boot elapsed < T0 + 2 ^ 24
      ∧ transport_event event ∧ relay_trace boot T0 elapsed events'
  end.

(** The number of packets received in a trace. *)
Definition received_count (events : list (Z * CoreEvent)) : Z :=
  len (List.filter (λ '(_, e), match e with TransportPacketReceived _ _ => true
                               | _ => false end) events).
End defs.

(** ** One packet *)

Section forward.
Context `{Aegis128LSpec, Blake3Spec, HashIterSpec}.

Lemma existsb_elem (c : Z) l : existsb (Z.eqb c) l = true → c ∈ l.
Proof.
  intros (x & Hx & Hc)%existsb_exists. apply Z.eqb_eq in Hc as <-.
  by apply list_elem_of_In.
Qed.

Lemma wf_next_hop e c rest pad :
  Envelope.wf e → Envelope.route_plan e = c :: rest → 1 <= pad <= 255 →
  Envelope.wf (e <| Envelope.route_plan := rest |> <| Envelope.padding_len := pad |>).
Proof.
  intros [] Hr Hp. rewrite Hr in *.
  match goal with H : Forall _ (_ :: _) |- _ => apply Forall_cons in H as [_ ?] end.
  match goal with H : len (_ :: _) < _ |- _ => rewrite len_cons in H end.
  constructor; cbn; done || lia.
Qed.

(** Re-sealing an envelope whose unpadded form leaves room for padding. *)
Lemma reseal_spec cfg random e c rest bytes :
  Envelope.wf e → Envelope.route_plan e = c :: rest →
  c ∈ RelayConfig.local_channels cfg →
  decode_transport_packet (RelayConfig.envelope_key cfg) bytes = Ret (Ok e) →
  let unpadded := TRANSPORT_PACKET_OVERHEAD + ENVELOPE_FIXED_OVERHEAD
    + len rest * CHANNEL_ID_SIZE + len (Envelope.payload e) in
  let mtu := effective_transport_mtu (RelayConfig.local_min_mtu cfg) in
  unpadded + MIN_PADDING <= mtu →
  ∃ p b random',
    checked_rem (RandomStream.u64 random).1 ((mtu -{64} unpadded) `min` 255) = Ret p
    ∧ encode_transport_packet (RelayConfig.envelope_key cfg) (RandomStream.u64 random).2
        (e <| Envelope.route_plan := rest |> <| Envelope.padding_len := wrap 8 (1 + p) |>)
      = Ret (b, random')
    ∧ one_hop cfg e c b.
Proof.
  intros He Hr Hc Hd unpadded mtu Hfit.
  pose proof (effective_transport_mtu_le (RelayConfig.local_min_mtu cfg)) as Hmax.
  fold mtu in Hmax. unfold MAX_TRANSPORT_PACKET_SIZE in Hmax.
  change TRANSPORT_PACKET_OVERHEAD with 32 in unpadded.
  change ENVELOPE_FIXED_OVERHEAD with 16 in unpadded.
  change CHANNEL_ID_SIZE with 2 in unpadded. unfold MIN_PADDING in Hfit.
  pose proof (len_nonneg rest). pose proof (len_nonneg (Envelope.payload e)).
  assert (0 <= mtu - unpadded < 2 ^ 64) by lia. rewrite wrap_id by done.
  destruct (checked_rem_returns (RandomStream.u64 random).1 ((mtu - unpadded) `min` 255))
    as (p & -> & Hp); [lia|]. exists p.
  rewrite wrap_id by (change (2 ^ 8) with 256; lia).
  pose proof (wf_next_hop e c rest (1 + p) He Hr ltac:(lia)) as Hwf.
  assert (Hlen : 32 + Envelope.encoded_len
    (e <| Envelope.route_plan := rest |> <| Envelope.padding_len := 1 + p |>)
    = unpadded + 1 + p).
  { unfold Envelope.encoded_len, update.
    cbn [Envelope.payload Envelope.route_plan Envelope.padding_len].
    change ENVELOPE_FIXED_OVERHEAD with 16. change CHANNEL_ID_SIZE with 2.
    unfold unpadded. lia. }
  destruct (transport_decode_encode (RelayConfig.envelope_key cfg)
    (RandomStream.u64 random).2 _ Hwf) as (b & random' & -> & Hbl & Hdec).
  { rewrite Hlen. unfold MAX_TRANSPORT_PACKET_SIZE. lia. }
  exists b, random'. split_and!; [done|done|].
  exists rest, (1 + p). split_and!; [done|done|lia|lia|done|].
  rewrite Hbl, Hlen. fold mtu. lia.
Qed.

(** Expose the fields of a relay state. *)
Ltac rc_cbn :=
  unfold update;
  cbn [mbind comp_bind RC.config RC.random RC.sequence_filter RC.metrics
       Envelope.time Envelope.seq_id Envelope.seq_no Envelope.route_plan
       Envelope.payload Envelope.padding_len negb fst snd].

(** The outcome of [forward_packet] on any bytes: it returns, the filter
    invariant is kept, exactly one counter moves, and any output is one hop. *)
Lemma forward_packet_spec T0 self elapsed bytes actions log :
  let cfg := RC.config self in
  let T := tick_of (RelayConfig.boot_time_ms cfg) elapsed in
  0 <= RelayConfig.boot_time_ms cfg + elapsed < 2 ^ 64 →
  T0 <= T < T0 + 2 ^ 24 → bytes_ok bytes →
  filter_inv T0 T (RC.sequence_filter self) log →
  ∃ self' out accepted,
    RC.forward_packet self elapsed bytes actions = Ret (self', actions ++ out)
    ∧ RC.config self' = cfg
    ∧ filter_inv T0 T (RC.sequence_filter self') (log ++ accepted)
    ∧ one_more_handled (RC.metrics self) (RC.metrics self')
    ∧ forward_output cfg bytes accepted out.
Proof.
  intros cfg T Hclk HT Hok Hinv. unfold RC.forward_packet.
  rewrite current_time_of_tick by done. fold cfg T.
  destruct self as [cfg' rnd f m]. cbn in cfg. subst cfg.
  cbn [RC.config RC.sequence_filter RC.metrics RC.random] in *.
  destruct (receive_cases (RelayConfig.envelope_key cfg') m bytes Hok)
    as [(m' & -> & Hm)|(e & -> & Hd & Hwf & Hpl)]; rc_cbn.
  { eexists _, [], []. rewrite !app_nil_r. split_and!; try done. by left. }
  destruct (check_sequence_cases T0 T f m e log HT Hwf Hinv)
    as [(f' & m' & -> & Hinv' & Hm)|(f' & -> & Hinv')]; rc_cbn.
  { eexists _, [], []. rewrite !app_nil_r. split_and!; try done. by left. }
  destruct (expire_step_inv T0 T f' _ 0 HT Hinv') as (f2 & Hf2 & Hinv2).
  cbn [filter_step] in Hf2. injection Hf2 as Hf2. rewrite app_nil_r in Hinv2.
  pose proof (note_latest_handled m (RelayConfig.boot_time_ms cfg') elapsed
    (stamp_time (envelope_stamp e)) (SF.filter_len f =? 0)) as [Hh Hrc].
  set (m1 := note_latest_sequence _ _ _ _ _) in *. rewrite Hf2.
  assert (∀ self', self' = RC.drop_packet (RC.Build_t cfg' rnd f2 m1) →
    ∃ out accepted, Ret (self', actions) = Ret (self', actions ++ out)
      ∧ RC.config self' = cfg'
      ∧ filter_inv T0 T (RC.sequence_filter self') (log ++ accepted)
      ∧ one_more_handled m (RC.metrics self')
      ∧ forward_output cfg' bytes accepted out) as Hdrop.
  { intros self' ->. exists [], [envelope_packet e]. rewrite app_nil_r.
    split_and!; try done; [|by left].
    cbn in Hh, Hrc |- *. unfold one_more_handled in *. rewrite <- Hh, <- Hrc. count_bump. }
  destruct (Envelope.route_plan e) as [|c rest] eqn:Hroute; cbn [head tail].
  { eexists. by apply Hdrop. }
  destruct (existsb (Z.eqb c) _) eqn:Hc; cbn [negb]; [|eexists; by apply Hdrop].
  apply existsb_elem in Hc.
  destruct (Z.ltb_spec (effective_transport_mtu (RelayConfig.local_min_mtu cfg'))
    (TRANSPORT_PACKET_OVERHEAD + ENVELOPE_FIXED_OVERHEAD + len rest * CHANNEL_ID_SIZE
     + len (Envelope.payload e) + MIN_PADDING)) as [|Hfit];
    [eexists; by apply Hdrop|].
  destruct (reseal_spec cfg' rnd e c rest bytes Hwf Hroute Hc Hd Hfit)
    as (p & b & rnd' & Hp & Henc & Hhop).
  destruct (RandomStream.u64 rnd) as [r rnd1]. cbn [fst snd] in *.
  rewrite Hp. cbn [mbind comp_bind]. unfold update in Henc.
  cbn [Envelope.time Envelope.seq_id Envelope.seq_no Envelope.route_plan
       Envelope.payload Envelope.padding_len] in Henc.
  rewrite Henc. cbn [mbind comp_bind].
  eexists _, [SendTransportPacket c b], [envelope_packet e].
  split_and!; [done|done|done| |].
  - cbn in Hh, Hrc |- *. unfold one_more_handled in *. rewrite <- Hh, <- Hrc. count_bump.
  - right. by exists e, c, b.
Qed.

(** ** Traces *)

Lemma forward_stamp cfg bytes accepted out :
  forward_output cfg bytes accepted out →
  omap (sent_stamp (RelayConfig.envelope_key cfg)) out `sublist_of` accepted.
Proof.
  intros [->|(e & c & b & Hd & -> & -> & rest & pad & Hr & _ & _ & Hdec & _)].
  - apply sublist_nil_l.
  - cbn [omap list_omap]. unfold sent_stamp at 1. by rewrite Hdec.
Qed.

(** The state of a run: the configuration is fixed, every packet sent so far
    is among the accepted ones, and the counters add up. *)
Definition relay_inv (cfg : RelayConfig.t) (T0 T : Z) (self : RC.t)
    (actions : list CoreAction) (log : list packet) : Prop :=
  RC.config self = cfg
  ∧ filter_inv T0 T (RC.sequence_filter self) log
  ∧ omap (sent_stamp (RelayConfig.envelope_key cfg)) actions `sublist_of` log
  ∧ wrap 64 (handled (RC.metrics self)) = wrap 64 (packets_received (RC.metrics self)).

Lemma relay_step_inv cfg T0 self actions log elapsed event :
  let T := tick_of (RelayConfig.boot_time_ms cfg) elapsed in
  0 <= RelayConfig.boot_time_ms cfg + elapsed < 2 ^ 64 →
  T0 <= T < T0 + 2 ^ 24 → transport_event event →
  relay_inv cfg T0 T self actions log →
  ∃ r self' actions' log',
    RC.handle_event self elapsed event actions = Ret (r, self', actions')
    ∧ relay_inv cfg T0 T self' actions' log'
    ∧ wrap 64 (packets_received (RC.metrics self'))
      = wrap 64 (packets_received (RC.metrics self) + received_count [(elapsed, event)]).
Proof.
  intros T Hclk HT Hev (<- & Hinv & Hsub & Hm).
  destruct event as [c bytes|c bytes| | |]; try done; cbn [RC.handle_event].
  - edestruct (forward_packet_spec T0
      (self <| RC.metrics ::= λ m, m <| packets_received ::= bump |> |>)
      elapsed bytes actions log) as (self' & out & acc & -> & Hc & Hf & Hmm & Hout);
      [done|done|done|done|].
    change (RC.config (update RC.metrics _ self)) with (RC.config self) in *.
    cbn [mbind comp_bind].
    eexists _, self', _, (log ++ acc); split_and!; [done|split_and!|].
    + done.
    + done.
    + rewrite omap_app. apply sublist_app; [done|]. by eapply forward_stamp.
    + destruct Hmm as [-> ->]. cbn. unfold handled in *. cbn.
      destruct (bump_mod (packets_received (RC.metrics self))) as [k ->].
      apply wrap_eq_iff in Hm as [j Hj]; [|lia].
      apply wrap_eq_iff; [lia|]. exists (j - k). lia.
    + destruct Hmm as [_ ->]. unfold received_count, bump. cbn. by rewrite wrap_wrap.
  - eexists _, _, _, log. split_and!; [done|split_and!|]; try done.
    unfold received_count. cbn. by rewrite Z.add_0_r.
Qed.

Lemma run_relay_inv cfg T0 events : ∀ self actions log elapsed0,
  let boot := RelayConfig.boot_time_ms cfg in
  relay_trace boot T0 elapsed0 events → T0 <= tick_of boot elapsed0 →
  relay_inv cfg T0 (tick_of boot elapsed0) self actions log →
  ∃ self' actions' log' T',
    run_relay self events actions = Ret (self', actions')
    ∧ relay_inv cfg T0 T' self' actions' log'
    ∧ wrap 64 (packets_received (RC.metrics self'))
      = wrap 64 (packets_received (RC.metrics self) + received_count events).
Proof.
  induction events as [|[elapsed ev] events IH];
    intros self actions log elapsed0; cbn zeta; intros Htr HT0 Hinv.
  - eexists _, _, log, _; split_and!; [done|done|]. cbn. unfold received_count. cbn. by rewrite Z.add_0_r.
  - destruct Htr as (Hle & Hclk & HT & Hev & Htr).
    pose proof (tick_of_mono (RelayConfig.boot_time_ms cfg) _ _ Hle) as Hmono.
    destruct (relay_step_inv cfg T0 self actions log elapsed ev)
      as (r & self1 & actions1 & log1 & Hstep & Hinv1 & Hrc); [done|lia|done| |].
    { destruct Hinv as (? & ? & ? & ?). split_and!; try done.
      by eapply filter_inv_mono. }
    destruct (IH self1 actions1 log1 elapsed) as (self2 & actions2 & log2 & T2 & Hrun & Hinv2 & Hrc2);
      [done|lia|done|].
    exists self2, actions2, log2, T2. split_and!; [|done|].
    + cbn [run_relay]. rewrite Hstep. cbn [mbind comp_bind]. done.
    + rewrite Hrc2, <- wrap_add_l, Hrc, wrap_add_l. f_equal.
      unfold received_count. destruct ev; cbn [List.filter];
        rewrite ?len_cons, ?(@len_nil (Z * CoreEvent)); lia.
Qed.

Lemma relay_inv_new cfg :
  let T0 := tick_of (RelayConfig.boot_time_ms cfg) 0 in
  relay_inv cfg T0 T0 (RC.new cfg) [] [].
Proof.
  split_and!; [done|apply filter_inv_default|done|done].
Qed.

(** ** Properties *)

(** C17: a relay fed any packet bytes in any order neither panics nor loses
    count: after a trace, received packets equal sent plus dropped ones. *)
Theorem relay_accounts_for_every_packet cfg events :
  relay_trace (RelayConfig.boot_time_ms cfg) (tick_of (RelayConfig.boot_time_ms cfg) 0)
    0 events →
  ∃ self actions,
    run_relay (RC.new cfg) events [] = Ret (self, actions)
    ∧ wrap 64 (packets_received (RC.metrics self)) = wrap 64 (received_count events)
    ∧ wrap 64 (handled (RC.metrics self)) = wrap 64 (received_count events).
Proof.
  intros Htr.
  destruct (run_relay_inv cfg _ events (RC.new cfg) [] [] 0 Htr ltac:(lia)
    (relay_inv_new cfg)) as (self & actions & log & T & Hrun & Hinv & Hrc).
  destruct Hinv as (_ & _ & _ & Hm). exists self, actions.
  by rewrite Hm, Hrc.
Qed.

(** C8: over a whole trace of arbitrary bytes, a relay forwards each stamp at
    most once, so replayed packets do not multiply. *)
Theorem relay_forwards_once cfg events self actions :
  relay_trace (RelayConfig.boot_time_ms cfg) (tick_of (RelayConfig.boot_time_ms cfg) 0)
    0 events →
  run_relay (RC.new cfg) events [] = Ret (self, actions) →
  NoDup (omap (sent_stamp (RelayConfig.envelope_key cfg)) actions).
Proof.
  intros Htr Hrun.
  destruct (run_relay_inv cfg _ events (RC.new cfg) [] [] 0 Htr ltac:(lia)
    (relay_inv_new cfg)) as (self' & actions' & log & T & Hrun' & Hinv & _).
  rewrite Hrun' in Hrun. injection Hrun as -> ->.
  destruct Hinv as (_ & (G & _ & _ & Hnd) & Hsub & _).
  by eapply sublist_NoDup.
Qed.

(** C10: whatever a relay emits for a packet is the same sealed message one hop
    further: first hop consumed, a local channel, new padding, size within
    the MTU. *)
Theorem relay_consumes_one_hop T0 self elapsed bytes log channel :
  let cfg := RC.config self in
  let T := tick_of (RelayConfig.boot_time_ms cfg) elapsed in
  0 <= RelayConfig.boot_time_ms cfg + elapsed < 2 ^ 64 →
  T0 <= T < T0 + 2 ^ 24 → bytes_ok bytes →
  filter_inv T0 T (RC.sequence_filter self) log →
  ∃ r self' out,
    RC.handle_event self elapsed (TransportPacketReceived channel bytes) []
      = Ret (r, self', out)
    ∧ (out = [] ∨ ∃ e hop b,
         out = [SendTransportPacket hop b] ∧ one_hop cfg e hop b
         ∧ decode_transport_packet (RelayConfig.envelope_key cfg) bytes = Ret (Ok e)
         ∧ envelope_packet e ∉ log).
Proof.
  intros cfg T Hclk HT Hok Hinv. cbn [RC.handle_event].
  edestruct (forward_packet_spec T0
    (self <| RC.metrics ::= λ m, m <| packets_received ::= bump |> |>)
    elapsed bytes [] log) as (self' & out & acc & -> & _ & Hf & _ & Hout);
    [done|done|done|done|].
  cbn [mbind comp_bind app]. eexists _, self', out; split; [done|].
  destruct Hout as [|(e & hop & b & Hd & -> & -> & Hhop)]; [by left|right].
  exists e, hop, b. split_and!; try done.
  destruct Hf as (G & _ & _ & Hnd). apply NoDup_app in Hnd as (_ & Hnd & _).
  intros Hin. apply (Hnd _ Hin). by apply list_elem_of_singleton.
Qed.
End forward.

(** ** Witnesses *)

#[local] Existing Instance toy_aegis.
#[local] Existing Instance toy_aegis_spec.
#[local] Existing Instance toy_blake3.
#[local] Existing Instance toy_blake3_spec.
#[local] Existing Instance Sequence.toy_iter.
#[local] Existing Instance Sequence.toy_iter_spec.

Definition demo_relay : RelayConfig.t :=
  RelayConfig.Build_t demo_key demo_key 5120 [3] 200.

(** A packet of [demo_envelope], as some sender sealed it. *)
Definition demo_packet : list Z :=
  Eval vm_compute in
    match encode_transport_packet demo_key (RandomStream.new demo_key) demo_envelope with
    | Ret (packet, _) => packet
    | _ => []
    end.

(** The packet, its replay, a truncated packet and a local failure. *)
Definition demo_events : list (Z * CoreEvent) :=
  [(5, TransportPacketReceived 0 demo_packet); (6, TransportPacketReceived 1 demo_packet);
   (7, TransportPacketReceived 0 [1; 2; 3]); (9, TransportPacketSendFailed 3 demo_packet)].

Lemma demo_packet_ok : bytes_ok demo_packet.
Proof. repeat constructor; by vm_compute. Qed.

Lemma demo_relay_trace : relay_trace 5120 (tick_of 5120 0) 0 demo_events.
Proof.
  cbn [relay_trace demo_events transport_event]. pose proof demo_packet_ok.
  split_and!; try done; try lia; try by vm_compute.
  repeat constructor; by vm_compute.
Qed.

Lemma relay_accounts_for_every_packet_witness :
  ∃ self actions,
    run_relay (RC.new demo_relay) demo_events [] = Ret (self, actions)
    ∧ wrap 64 (packets_received (RC.metrics self)) = 3
    ∧ wrap 64 (handled (RC.metrics self)) = 3.
Proof.
  apply (relay_accounts_for_every_packet demo_relay demo_events).
  exact demo_relay_trace.
Defined.

Lemma relay_forwards_once_witness :
  ∃ self actions,
    run_relay (RC.new demo_relay) demo_events [] = Ret (self, actions)
    ∧ NoDup (omap (sent_stamp demo_key) actions).
Proof.
  destruct (is_ret_returns (run_relay (RC.new demo_relay) demo_events []))
    as [[self actions] E]; [by vm_compute|].
  exists self, actions. split; [exact E|].
  apply (relay_forwards_once demo_relay demo_events self actions); [|exact E].
  exact demo_relay_trace.
Defined.

Lemma relay_consumes_one_hop_witness :
  ∃ r self' out,
    RC.handle_event (RC.new demo_relay) 5 (TransportPacketReceived 0 demo_packet) []
      = Ret (r, self', out)
    ∧ (out = [] ∨ ∃ e hop b,
         out = [SendTransportPacket hop b] ∧ one_hop demo_relay e hop b
         ∧ decode_transport_packet demo_key demo_packet = Ret (Ok e)
         ∧ envelope_packet e ∉ []).
Proof.
  apply (relay_consumes_one_hop 5 (RC.new demo_relay) 5 demo_packet [] 0);
    [by vm_compute|by vm_compute|exact demo_packet_ok|apply filter_inv_default].
Defined.
