(* ===== verification/Kcp.v ===== *)
(** * The KCP protocol

    [kcp/kcp.rs] and [kcp/error.rs]: the reliable stream of a session.  Time
    is an argument of every entry point; output datagrams are collected in
    [output].  Sequence numbers and clocks are 32-bit and compared with
    [timediff].  Features: [fastack-conserve] is off, as by default.  The
    capacity of [buf] (an allocation) is not modelled. *)

From S2P Require Import Prelude Bytes.

Definition KCP_CMD_PUSH : Z := 81.
Definition KCP_CMD_ACK : Z := 82.
Definition KCP_CMD_WASK : Z := 83.
Definition KCP_CMD_WINS : Z := 84.

Definition KCP_ASK_SEND : Z := 1.
Definition KCP_ASK_TELL : Z := 2.

Definition KCP_OVERHEAD : Z := 28.
Definition KCP_THRESH_INIT : Z := 2.
Definition KCP_THRESH_MIN : Z := 2.
Definition KCP_RTO_MAX_SCALE : Z := 6000.
Definition KCP_FASTACK_LIMIT : Z := 5.

Definition U32_MAX : Z := 2 ^ 32 - 1.
Definition U16_MAX : Z := 2 ^ 16 - 1.

Module KcpError.
Inductive t : Set :=
  | ConvInconsistent | InvalidSegmentSize | InvalidSegmentDataSize | NeedUpdate
  | RecvQueueEmpty | ExpectingFragment | UnsupportedCmd | UserBufTooBig
  | UserBufTooSmall.
End KcpError.

Module KcpParams.
Record t := {
  mtu : Z;
  send_window : Z;
  receive_window : Z;
  nodelay : bool;
  fast_resend : option Z;
  congestion_control : bool;
  time_scale : Z;
}.
End KcpParams.

Module KcpTiming.
Record t := {
  rto_nodelay : Z;
  rto_normal : Z;
  rto_initial : Z;
  rto_max : Z;
  interval : Z;
  probe_initial : Z;
  probe_max : Z;
}.

Definition new (time_scale : Z) : t :=
  let scale := time_scale in
  {| rto_nodelay := 3 *{32} scale;
     rto_normal := 10 *{32} scale;
     rto_initial := 20 *{32} scale;
     rto_max := KCP_RTO_MAX_SCALE *{32} scale;
     interval := 2 *{32} scale;
     probe_initial := 700 *{32} scale;
     probe_max := 12000 *{32} scale |}.
End KcpTiming.

(** [buf.get_uN_le()] with [n] bytes: the value and the rest of the buffer. *)
Definition get_le (n : Z) (buf : list Z) : comp (Z * list Z) :=
  bytes ← slice buf 0 n;
  rest ← slice buf n (len buf);
  Ret (from_le bytes, rest).

Definition get_conv (buf : list Z) : comp Z :=
  '(conv, _) ← get_le 8 buf; Ret conv.

Definition timediff (later earlier : Z) : Z := as_i32 (later -{32} earlier).

(** [u32::clamp]: panics unless [lo <= hi]. *)
Definition clamp (x lo hi : Z) : comp Z :=
  if hi <? lo then Panic else Ret ((x `max` lo) `min` hi).

(** [a / b] on unsigned integers. *)
Definition checked_div (a b : Z) : comp Z :=
  if b =? 0 then Panic else Ret (a / b).

(** [VecDeque::insert] *)
Definition insert_at {A} (l : list A) (i : Z) (x : A) : comp (list A) :=
  if (0 <=? i) && (i <=? len l)
  then Ret (take (Z.to_nat i) l ++ x :: drop (Z.to_nat i) l)
  else Panic.

Module KcpSegment.
Record t := {
  conv : Z;
  cmd : Z;
  frg : Z;
  wnd : Z;
  ts : Z;
  sn : Z;
  una : Z;
  resendts : Z;
  rto : Z;
  fastack : Z;
  xmit : Z;
  data : list Z;
}.

#[global] Instance eta_KcpSegment : Eta t := λ s,
  Build_t (conv s) (cmd s) (frg s) (wnd s) (ts s) (sn s) (una s) (resendts s)
    (rto s) (fastack s) (xmit s) (data s).

Definition default : t := Build_t 0 0 0 0 0 0 0 0 0 0 0 [].

Definition new_with_data (bytes : list Z) : t := default <| data := bytes |>.

(** Appends the segment to [buf]. *)
Definition encode (self : t) (buf : list Z) : list Z :=
  buf ++ to_le 8 (conv self) ++ to_le 1 (cmd self) ++ to_le 1 (frg self)
      ++ to_le 2 (wnd self) ++ to_le 4 (ts self) ++ to_le 4 (sn self)
      ++ to_le 4 (una self) ++ to_le 4 (wrap 32 (len (data self)))
      ++ data self.
End KcpSegment.

Module Kcp.
Import KcpSegment.

Record t := {
  conv : Z;
  mtu : Z;
  mss : Z;
  snd_una : Z;
  snd_nxt : Z;
  rcv_nxt : Z;
  ssthresh : Z;
  rx_rttval : Z;
  rx_srtt : Z;
  rx_rto : Z;
  rx_minrto : Z;
  timing : KcpTiming.t;
  snd_wnd : Z;
  rcv_wnd : Z;
  rmt_wnd : Z;
  cwnd : Z;
  probe : Z;
  current : Z;
  ts_flush : Z;
  nodelay : bool;
  updated : bool;
  ts_probe : Z;
  probe_wait : Z;
  incr : Z;
  snd_queue : list KcpSegment.t;
  rcv_queue : list KcpSegment.t;
  snd_buf : list KcpSegment.t;
  rcv_buf : list KcpSegment.t;
  acklist : list (Z * Z);
  buf : list Z;
  fastresend : option Z;
  fastlimit : Z;
  congestion_control : bool;
  output : list (list Z);
}.

#[global] Instance eta_Kcp : Eta t := λ k,
  Build_t (conv k) (mtu k) (mss k) (snd_una k) (snd_nxt k) (rcv_nxt k)
    (ssthresh k) (rx_rttval k) (rx_srtt k) (rx_rto k) (rx_minrto k) (timing k)
    (snd_wnd k) (rcv_wnd k) (rmt_wnd k) (cwnd k) (probe k) (current k)
    (ts_flush k) (nodelay k) (updated k) (ts_probe k) (probe_wait k) (incr k)
    (snd_queue k) (rcv_queue k) (snd_buf k) (rcv_buf k) (acklist k) (buf k)
    (fastresend k) (fastlimit k) (congestion_control k) (output k).

Definition new (conv : Z) (params : KcpParams.t) : t :=
  let timing := KcpTiming.new (KcpParams.time_scale params) in
  {| conv := conv;
     snd_una := 0;
     snd_nxt := 0;
     rcv_nxt := 0;
     ts_probe := 0;
     probe_wait := 0;
     snd_wnd := KcpParams.send_window params;
     rcv_wnd := KcpParams.receive_window params;
     rmt_wnd := KcpParams.receive_window params;
     cwnd := 0;
     incr := 0;
     probe := 0;
     mtu := KcpParams.mtu params;
     mss := KcpParams.mtu params -{64} KCP_OVERHEAD;
     buf := [];
     snd_queue := [];
     rcv_queue := [];
     snd_buf := [];
     rcv_buf := [];
     acklist := [];
     rx_srtt := 0;
     rx_rttval := 0;
     rx_rto := KcpTiming.rto_initial timing;
     rx_minrto :=
       if KcpParams.nodelay params
       then KcpTiming.rto_nodelay timing
       else KcpTiming.rto_normal timing;
     timing := timing;
     current := 0;
     ts_flush := KcpTiming.interval timing;
     nodelay := KcpParams.nodelay params;
     updated := false;
     ssthresh := KCP_THRESH_INIT;
     fastresend := KcpParams.fast_resend params;
     fastlimit := KCP_FASTACK_LIMIT;
     congestion_control := KcpParams.congestion_control params;
     output := [] |}.

(** ** Receiving *)

(** The loop of [move_buf]: the remaining [rcv_buf], [rcv_queue], [rcv_nxt]. *)
Fixpoint move_loop (rcv_wnd : Z) (rcv_buf rcv_queue : list KcpSegment.t)
    (rcv_nxt : Z) : list KcpSegment.t * list KcpSegment.t * Z :=
  match rcv_buf with
  | [] => ([], rcv_queue, rcv_nxt)
  | seg :: rest =>
      let nrcv_que := len rcv_queue in
      if (sn seg =? rcv_nxt) && (nrcv_que <? rcv_wnd)
      then move_loop rcv_wnd rest (rcv_queue ++ [seg]) (rcv_nxt +{32} 1)
      else (rcv_buf, rcv_queue, rcv_nxt)
  end.

Definition move_buf (self : t) : t :=
  let '(b, q, n) :=
    move_loop (rcv_wnd self) (rcv_buf self) (rcv_queue self) (rcv_nxt self) in
  self <| rcv_buf := b |> <| rcv_queue := q |> <| rcv_nxt := n |>.

(** The length of the first message, up to its last fragment. *)
Fixpoint message_len (queue : list KcpSegment.t) (acc : Z) : Z :=
  match queue with
  | [] => acc
  | seg :: rest =>
      let acc := acc +{64} len (data seg) in
      if frg seg =? 0 then acc else message_len rest acc
  end.

Definition peeksize (self : t) : result KcpError.t Z :=
  match rcv_queue self with
  | segment :: _ =>
      if frg segment =? 0 then Ok (len (data segment)) else
      if len (rcv_queue self) <? frg segment +{8} 1
      then Err KcpError.ExpectingFragment
      else Ok (message_len (rcv_queue self) 0)
  | [] => Err KcpError.RecvQueueEmpty
  end.

(** Copy the fragments of the first message into [buf] from [written] on. *)
Fixpoint merge_fragments (queue : list KcpSegment.t) (buf : list Z) (written : Z)
    : comp (list KcpSegment.t * list Z * Z) :=
  match queue with
  | [] => Ret ([], buf, written)
  | seg :: rest =>
      let end_ := written +{64} len (data seg) in
      buf ← copy_from_slice buf written end_ (data seg);
      if frg seg =? 0 then Ret (rest, buf, end_)
      else merge_fragments rest buf end_
  end.

(** [recv] into a caller's buffer, which is returned as it was filled. *)
Definition recv (self : t) (buf : list Z)
    : comp (result KcpError.t Z * t * list Z) :=
  match rcv_queue self with
  | [] => Ret (Err KcpError.RecvQueueEmpty, self, buf)
  | _ :: _ =>
      match peeksize self with
      | Err e => Ret (Err e, self, buf)
      | Ok peeksize =>
          if len buf <? peeksize
          then Ret (Err KcpError.UserBufTooSmall, self, buf) else
          let recover := rcv_wnd self <=? len (rcv_queue self) in
          '(queue, buf, written) ← merge_fragments (rcv_queue self) buf 0;
          let self := self <| rcv_queue := queue |> in
          let self := move_buf self in
          let self :=
            if (len (rcv_queue self) <? rcv_wnd self) && recover
            then self <| probe ::= λ p, Z.lor p KCP_ASK_TELL |> else self in
          Ret (Ok written, self, buf)
      end
  end.

(** ** Sending *)

(** One fragment: the first [mss] bytes of [buf], numbered down to 0. *)
Definition send_fragment (count i : Z) (st : t * list Z) : comp (t * list Z) :=
  let '(self, buf) := st in
  let size := mss self `min` len buf in
  lf ← slice buf 0 size;
  rt ← slice buf size (len buf);
  let new_segment := new_with_data lf in
  let new_segment := new_segment <| frg := wrap 8 (count -{64} i -{64} 1) |> in
  Ret (self <| snd_queue ::= λ q, q ++ [new_segment] |>, rt).

Definition send (self : t) (buf : list Z) : comp (result KcpError.t Z * t) :=
  let sent_size := len buf in
  n ← div_ceil (len buf) (mss self);
  let count := n `max` 1 in
  if (rcv_wnd self <=? count) || (256 <=? count)
  then Ret (Err KcpError.UserBufTooBig, self) else
  '(self, _) ← for_each (seqZ 0 count) (send_fragment count) (self, buf);
  Ret (Ok sent_size, self).

(** ** Acknowledgements *)

Definition abs_diff (a b : Z) : Z := Z.abs (a - b).

Definition update_ack (self : t) (rtt : Z) : comp t :=
  let self :=
    if rx_srtt self =? 0
    then self <| rx_srtt := rtt |> <| rx_rttval := rtt / 2 |>
    else
      let delta := abs_diff rtt (rx_srtt self) in
      let self := self <| rx_rttval := (3 *{32} rx_rttval self +{32} delta) / 4 |> in
      self <| rx_srtt := ((7 *{32} rx_srtt self +{32} rtt) / 8) `max` 1 |> in
  let rto := rx_srtt self
    +{32} (KcpTiming.interval (timing self) `max` (4 *{32} rx_rttval self)) in
  rto ← clamp rto (rx_minrto self) (KcpTiming.rto_max (timing self));
  Ret (self <| rx_rto := rto |>).

Definition shrink_buf (self : t) : t :=
  self <| snd_una :=
    match snd_buf self with seg :: _ => sn seg | [] => snd_nxt self end |>.

(** Remove the segment numbered [sn0], looking no further than its place. *)
Fixpoint remove_acked (sn0 : Z) (snd_buf : list KcpSegment.t) : list KcpSegment.t :=
  match snd_buf with
  | [] => []
  | seg :: rest =>
      if sn0 =? sn seg then rest
      else if sn0 <? sn seg then snd_buf
      else seg :: remove_acked sn0 rest
  end.

Definition parse_ack (self : t) (sn0 : Z) : t :=
  if (timediff sn0 (snd_una self) <? 0) || (0 <=? timediff sn0 (snd_nxt self))
  then self
  else self <| snd_buf ::= remove_acked sn0 |>.

(** Drop every leading segment before [una0]. *)
Fixpoint drop_acked (una0 : Z) (snd_buf : list KcpSegment.t) : list KcpSegment.t :=
  match snd_buf with
  | [] => []
  | seg :: rest =>
      if 0 <? timediff una0 (sn seg) then drop_acked una0 rest else snd_buf
  end.

Definition parse_una (self : t) (una0 : Z) : t :=
  self <| snd_buf ::= drop_acked una0 |>.

Fixpoint count_fastack (sn0 ts0 : Z) (snd_buf : list KcpSegment.t)
    : list KcpSegment.t :=
  match snd_buf with
  | [] => []
  | seg :: rest =>
      if timediff sn0 (sn seg) <? 0 then snd_buf
      else
        let seg :=
          if negb (sn0 =? sn seg) && (0 <=? timediff ts0 (ts seg))
          then seg <| fastack ::= λ n, n +{32} 1 |> else seg in
        seg :: count_fastack sn0 ts0 rest
  end.

Definition parse_fastack (self : t) (sn0 ts0 : Z) : t :=
  if (timediff sn0 (snd_una self) <? 0) || (0 <=? timediff sn0 (snd_nxt self))
  then self
  else self <| snd_buf ::= count_fastack sn0 ts0 |>.

Definition ack_push (self : t) (sn0 ts0 : Z) : t :=
  self <| acklist ::= λ l, l ++ [(sn0, ts0)] |>.

(** The scan of [rcv_buf] from its end: a duplicate?, and the insertion index. *)
Fixpoint insert_index (sn0 : Z) (rev_buf : list KcpSegment.t) (new_index : Z)
    : bool * Z :=
  match rev_buf with
  | [] => (false, new_index)
  | segment :: rest =>
      if sn segment =? sn0 then (true, new_index)
      else if 0 <? timediff sn0 (sn segment) then (false, new_index)
      else insert_index sn0 rest (new_index -{64} 1)
  end.

Definition parse_data (self : t) (new_segment : KcpSegment.t) : comp t :=
  let sn0 := sn new_segment in
  if (0 <=? timediff sn0 (rcv_nxt self +{32} rcv_wnd self))
     || (timediff sn0 (rcv_nxt self) <? 0)
  then Ret self else
  let '(repeat, new_index) :=
    insert_index sn0 (rev (rcv_buf self)) (len (rcv_buf self)) in
  self ← (if negb repeat
          then b ← insert_at (rcv_buf self) new_index new_segment;
               Ret (self <| rcv_buf := b |>)
          else Ret self);
  Ret (move_buf self).

(** ** Input *)

(** The header fields of one segment. *)
Record header := {
  h_conv : Z; h_cmd : Z; h_frg : Z; h_wnd : Z; h_ts : Z; h_sn : Z; h_una : Z;
  h_len : Z;
}.

(** The local variables of [input]'s loop. *)
Record input_state := {
  in_self : t;
  in_buf : list Z;
  in_flag : bool;
  in_max_ack : Z;
  in_latest_ts : Z;
}.

(** The reads of one iteration: each error leaves the loop at once. *)
Definition read_header (conv0 : Z) (buf : list Z)
    : comp (result KcpError.t (header * list Z)) :=
  '(conv, buf) ← get_le 8 buf;
  if negb (conv =? conv0) then Ret (Err KcpError.ConvInconsistent) else
  '(cmd, buf) ← get_le 1 buf;
  '(frg, buf) ← get_le 1 buf;
  '(wnd, buf) ← get_le 2 buf;
  '(ts, buf) ← get_le 4 buf;
  '(sn, buf) ← get_le 4 buf;
  '(una, buf) ← get_le 4 buf;
  '(n, buf) ← get_le 4 buf;
  if len buf <? n then Ret (Err KcpError.InvalidSegmentDataSize) else
  if (cmd =? KCP_CMD_PUSH) || (cmd =? KCP_CMD_ACK) || (cmd =? KCP_CMD_WASK)
     || (cmd =? KCP_CMD_WINS)
  then Ret (Ok (Build_header conv cmd frg wnd ts sn una n, buf))
  else Ret (Err KcpError.UnsupportedCmd).

(** [KCP_CMD_ACK]: the round-trip sample, the acknowledgement, and the
    newest one seen in this datagram. *)
Definition input_ack (h : header) (s : input_state) : comp input_state :=
  let self := in_self s in
  let rtt := timediff (current self) (h_ts h) in
  self ← (if 0 <=? rtt then update_ack self rtt else Ret self);
  let self := parse_ack self (h_sn h) in
  let self := shrink_buf self in
  Ret (if negb (in_flag s)
       then Build_input_state self (in_buf s) true (h_sn h) (h_ts h)
       else if (0 <? timediff (h_sn h) (in_max_ack s))
               && (0 <? timediff (h_ts h) (in_latest_ts s))
       then Build_input_state self (in_buf s) true (h_sn h) (h_ts h)
       else Build_input_state self (in_buf s) (in_flag s) (in_max_ack s)
              (in_latest_ts s)).

(** [KCP_CMD_PUSH] *)
Definition input_push (h : header) (self : t) (buf : list Z) : comp t :=
  if timediff (h_sn h) (rcv_nxt self +{32} rcv_wnd self) <? 0 then
    let self := ack_push self (h_sn h) (h_ts h) in
    if 0 <=? timediff (h_sn h) (rcv_nxt self) then
      bytes ← slice buf 0 (h_len h);
      parse_data self
        {| KcpSegment.conv := h_conv h; cmd := h_cmd h; frg := h_frg h;
           wnd := h_wnd h; ts := h_ts h; sn := h_sn h; una := h_una h;
           resendts := 0; rto := 0; fastack := 0; xmit := 0; data := bytes |}
    else Ret self
  else Ret self.

(** One iteration of [input]: an error, if any, and the state it leaves. *)
Definition input_segment (s : input_state) : comp (option KcpError.t * input_state) :=
  r ← read_header (conv (in_self s)) (in_buf s);
  match r with
  | Err e => Ret (Some e, s)
  | Ok (h, buf) =>
      let self := (in_self s) <| rmt_wnd := h_wnd h |> in
      let self := parse_una self (h_una h) in
      let self := shrink_buf self in
      let s := Build_input_state self buf (in_flag s) (in_max_ack s)
        (in_latest_ts s) in
      s ← (if h_cmd h =? KCP_CMD_ACK then input_ack h s
           else if h_cmd h =? KCP_CMD_PUSH then
             self ← input_push h self buf;
             Ret (Build_input_state self buf (in_flag s) (in_max_ack s)
                    (in_latest_ts s))
           else if h_cmd h =? KCP_CMD_WASK then
             Ret (Build_input_state
                    (self <| probe ::= λ p, Z.lor p KCP_ASK_TELL |>) buf
                    (in_flag s) (in_max_ack s) (in_latest_ts s))
           else Ret s);
      rest ← slice (in_buf s) (h_len h) (len (in_buf s));
      Ret (None, Build_input_state (in_self s) rest (in_flag s) (in_max_ack s)
                   (in_latest_ts s))
  end.

(** [while buf.remaining() >= KCP_OVERHEAD] *)
Fixpoint input_loop (fuel : nat) (s : input_state)
    : comp (option KcpError.t * input_state) :=
  if KCP_OVERHEAD <=? len (in_buf s) then
    match fuel with
    | O => NoFuel
    | S n =>
        '(e, s) ← input_segment s;
        match e with
        | Some e => Ret (Some e, s)
        | None => input_loop n s
        end
    end
  else Ret (None, s).

(** The congestion window after the datagram moved [snd_una]. *)
Definition grow_cwnd (self : t) (old_una : Z) : comp t :=
  if (0 <? timediff (snd_una self) old_una) && (cwnd self <? rmt_wnd self) then
    let mss := mss self in
    self ← (if cwnd self <? ssthresh self
            then Ret (self <| cwnd ::= λ c, c +{16} 1 |>
                           <| incr ::= λ i, i +{64} mss |>)
            else
              let self := self <| incr ::= λ i, i `max` mss |> in
              q ← checked_div (mss *{64} mss) (incr self);
              let self := self <| incr ::= λ i, i +{64} (q +{64} mss / 16) |> in
              if (cwnd self +{64} 1) *{64} mss <=? incr self
              then c ← div_ceil (incr self) mss;
                   Ret (self <| cwnd := wrap 16 (c `min` rmt_wnd self) |>)
              else Ret self);
    Ret (if rmt_wnd self <? cwnd self
         then self <| cwnd := rmt_wnd self |>
                   <| incr := rmt_wnd self *{64} mss |>
         else self)
  else Ret self.

(** [input]; the loop consumes at least the header of a segment per turn, so
    the length of the datagram is a sufficient budget. *)
Definition input (self : t) (current0 : Z) (buf : list Z)
    : comp (result KcpError.t Z * t) :=
  if len buf <? KCP_OVERHEAD
  then Ret (Err KcpError.InvalidSegmentSize, self) else
  let self := self <| current := current0 |> in
  let input_size := len buf in
  let old_una := snd_una self in
  '(e, s) ← input_loop (length buf) (Build_input_state self buf false 0 0);
  match e with
  | Some e => Ret (Err e, in_self s)
  | None =>
      let self := in_self s in
      let self :=
        if in_flag s && bool_decide (is_Some (fastresend self))
        then parse_fastack self (in_max_ack s) (in_latest_ts s) else self in
      self ← grow_cwnd self old_una;
      Ret (Ok (input_size -{64} len (in_buf s)), self)
  end.

(** ** Flushing *)

Definition wnd_unused (self : t) : Z :=
  if len (rcv_queue self) <? rcv_wnd self
  then rcv_wnd self -{16} wrap 16 (len (rcv_queue self))
  else 0.

Definition probe_wnd_size (self : t) : t :=
  if rmt_wnd self =? 0 then
    if probe_wait self =? 0 then
      let self :=
        self <| probe_wait := KcpTiming.probe_initial (timing self) |> in
      self <| ts_probe := current self +{32} probe_wait self |>
    else if 0 <=? timediff (current self) (ts_probe self) then
      let self := self <| probe_wait ::= λ w,
        w `max` KcpTiming.probe_initial (timing self) |> in
      let self := self <| probe_wait ::= λ w, w +{32} w / 2 |> in
      let self := self <| probe_wait ::= λ w,
        w `min` KcpTiming.probe_max (timing self) |> in
      let self := self <| ts_probe := current self +{32} probe_wait self |> in
      self <| probe ::= λ p, Z.lor p KCP_ASK_SEND |>
    else self
  else self <| ts_probe := 0 |> <| probe_wait := 0 |>.

(** The earliest retransmission of [snd_buf] after [current0]; [None] when one
    is due. *)
Fixpoint next_resend (current0 : Z) (snd_buf : list KcpSegment.t) (tm_packet : Z)
    : option Z :=
  match snd_buf with
  | [] => Some tm_packet
  | seg :: rest =>
      let diff := timediff (resendts seg) current0 in
      if diff <=? 0 then None
      else next_resend current0 rest (tm_packet `min` wrap 32 diff)
  end.

Definition check (self : t) (current0 : Z) : Z :=
  if negb (updated self) then 0 else
  let ts_flush :=
    if (10000 <=? timediff current0 (ts_flush self))
       || (timediff current0 (ts_flush self) <? -10000)
    then current0 else ts_flush self in
  if 0 <=? timediff current0 ts_flush then 0 else
  let tm_flush := wrap 32 (timediff ts_flush current0) in
  match next_resend current0 (snd_buf self) U32_MAX with
  | None => 0
  | Some tm_packet =>
      (tm_packet `min` tm_flush) `min` KcpTiming.interval (timing self)
  end.

Definition wait_snd (self : t) : Z :=
  len (snd_buf self) +{64} len (snd_queue self).

(** [emit_output] on the pair of [buf] and [output]. *)
Definition emit_output (buf : list Z) (output : list (list Z))
    : list Z * list (list Z) :=
  match buf with
  | [] => (buf, output)
  | _ :: _ => ([], output ++ [buf])
  end.

Definition take_output (self : t) : list (list Z) * t :=
  (output self, self <| output := [] |>).

(** Append a segment of [need] bytes to [buf], after emitting [buf] when the
    two do not fit in [mtu]. *)
Definition append_segment (mtu need : Z) (segment : KcpSegment.t)
    (buf : list Z) (output : list (list Z)) : list Z * list (list Z) :=
  let '(buf, output) :=
    if mtu <? len buf +{64} need then emit_output buf output
    else (buf, output) in
  (KcpSegment.encode segment buf, output).

Fixpoint flush_acks (mtu : Z) (acklist : list (Z * Z)) (segment : KcpSegment.t)
    (buf : list Z) (output : list (list Z))
    : KcpSegment.t * list Z * list (list Z) :=
  match acklist with
  | [] => (segment, buf, output)
  | (sn0, ts0) :: rest =>
      let segment := segment <| sn := sn0 |> <| ts := ts0 |> in
      let '(buf, output) := append_segment mtu KCP_OVERHEAD segment buf output in
      flush_acks mtu rest segment buf output
  end.

Definition flush_ack (self : t) (segment : KcpSegment.t) : t * KcpSegment.t :=
  let '(segment, b, o) :=
    flush_acks (mtu self) (acklist self) segment (buf self) (output self) in
  (self <| buf := b |> <| output := o |> <| acklist := [] |>, segment).

Definition flush_probe_command (self : t) (cmd0 : Z) (segment : KcpSegment.t)
    : t * KcpSegment.t :=
  let segment := segment <| cmd := cmd0 |> in
  let '(b, o) :=
    append_segment (mtu self) KCP_OVERHEAD segment (buf self) (output self) in
  (self <| buf := b |> <| output := o |>, segment).

Definition flush_probe_commands (self : t) (segment : KcpSegment.t)
    : t * KcpSegment.t :=
  let '(self, segment) :=
    if negb (Z.land (probe self) KCP_ASK_SEND =? 0)
    then flush_probe_command self KCP_CMD_WASK segment else (self, segment) in
  let '(self, segment) :=
    if negb (Z.land (probe self) KCP_ASK_TELL =? 0)
    then flush_probe_command self KCP_CMD_WINS segment else (self, segment) in
  (self <| probe := 0 |>, segment).

(** Move segments from [snd_queue] to [snd_buf] while the window allows. *)
Fixpoint move_to_snd_buf (cwnd wnd0 : Z) (queue : list KcpSegment.t) (self : t)
    : t :=
  if timediff (snd_nxt self) (snd_una self +{32} cwnd) <? 0 then
    match queue with
    | [] => self
    | new_segment :: rest =>
        let new_segment := new_segment
          <| KcpSegment.conv := conv self |>
          <| cmd := KCP_CMD_PUSH |>
          <| wnd := wnd0 |>
          <| ts := current self |>
          <| sn := snd_nxt self |>
          <| una := rcv_nxt self |>
          <| resendts := current self |>
          <| rto := rx_rto self |>
          <| fastack := 0 |>
          <| xmit := 0 |> in
        let self := self
          <| snd_queue := rest |>
          <| snd_nxt ::= λ n, n +{32} 1 |>
          <| snd_buf ::= λ l, l ++ [new_segment] |> in
        move_to_snd_buf cwnd wnd0 rest self
    end
  else self.

(** What the retransmission loop carries besides [snd_buf]. *)
Record flush_state := {
  fl_buf : list Z;
  fl_output : list (list Z);
  fl_lost : bool;
  fl_change : Z;
}.

(** The decision for one segment: send it?, the segment with its new timers,
    and the loss indications. *)
Definition flush_decide (self : t) (resent : option Z) (rtomin rto_max : Z)
    (seg : KcpSegment.t) (st : flush_state)
    : bool * KcpSegment.t * flush_state :=
  if xmit seg =? 0 then
    let seg := seg <| xmit ::= λ x, x +{32} 1 |> <| rto := rx_rto self |> in
    let seg := seg
      <| resendts := current self +{32} (rto seg +{32} rtomin) |> in
    (true, seg, st)
  else if 0 <=? timediff (current self) (resendts seg) then
    let seg := seg <| xmit ::= λ x, x +{32} 1 |> in
    let seg :=
      if negb (nodelay self)
      then seg <| rto ::= λ r, (r +{32} (r `max` rx_rto self)) `min` rto_max |>
      else seg <| rto ::= λ r, (r +{32} r / 2) `min` rto_max |> in
    let seg := seg <| resendts := current self +{32} rto seg |> in
    (true, seg, Build_flush_state (fl_buf st) (fl_output st) true (fl_change st))
  else if (match resent with Some threshold => threshold <=? fastack seg
           | None => false end)
          && ((xmit seg <=? fastlimit self) || (fastlimit self =? 0)) then
    let seg := seg <| xmit ::= λ x, x +{32} 1 |> <| fastack := 0 |> in
    let seg := seg <| resendts := current self +{32} rto seg |> in
    (true, seg, Build_flush_state (fl_buf st) (fl_output st) (fl_lost st)
                  (as_i32 (fl_change st + 1)))
  else (false, seg, st).

Definition flush_segment (self : t) (wnd0 : Z) (resent : option Z)
    (rtomin rto_max : Z) (seg : KcpSegment.t) (st : flush_state)
    : KcpSegment.t * flush_state :=
  let '(need_send, seg, st) := flush_decide self resent rtomin rto_max seg st in
  if need_send then
    let seg := seg <| ts := current self |> <| wnd := wnd0 |>
                   <| una := rcv_nxt self |> in
    let need := KCP_OVERHEAD +{64} len (data seg) in
    let '(b, o) :=
      append_segment (mtu self) need seg (fl_buf st) (fl_output st) in
    (seg, Build_flush_state b o (fl_lost st) (fl_change st))
  else (seg, st).

Fixpoint flush_segments (self : t) (wnd0 : Z) (resent : option Z)
    (rtomin rto_max : Z) (snd_buf : list KcpSegment.t) (st : flush_state)
    : list KcpSegment.t * flush_state :=
  match snd_buf with
  | [] => ([], st)
  | seg :: rest =>
      let '(seg, st) := flush_segment self wnd0 resent rtomin rto_max seg st in
      let '(rest, st) := flush_segments self wnd0 resent rtomin rto_max rest st in
      (seg :: rest, st)
  end.

(** The congestion reaction at the end of [flush]. *)
Definition flush_congestion (self : t) (cwnd0 : Z) (resent : option Z)
    (change : Z) (lost : bool) : comp t :=
  self ← (if 0 <? change then
            let inflight := snd_nxt self -{32} snd_una self in
            let self := self
              <| ssthresh := (wrap 16 inflight / 2) `max` KCP_THRESH_MIN |> in
            r ← unwrap resent;
            let self := self
              <| cwnd := ((ssthresh self + r) `min` U32_MAX) `min` U16_MAX |> in
            Ret (self <| incr := cwnd self *{64} mss self |>)
          else Ret self);
  let self :=
    if lost
    then self <| ssthresh := (cwnd0 / 2) `max` KCP_THRESH_MIN |>
              <| cwnd := 1 |> <| incr := mss self |>
    else self in
  Ret (if cwnd self <? 1 then self <| cwnd := 1 |> <| incr := mss self |>
       else self).

Definition flush (self : t) : comp (result KcpError.t unit * t) :=
  if negb (updated self) then Ret (Err KcpError.NeedUpdate, self) else
  let segment := KcpSegment.default
    <| KcpSegment.conv := conv self |>
    <| cmd := KCP_CMD_ACK |>
    <| wnd := wnd_unused self |>
    <| una := rcv_nxt self |> in
  let '(self, segment) := flush_ack self segment in
  let self := probe_wnd_size self in
  let '(self, segment) := flush_probe_commands self segment in
  let cwnd0 := snd_wnd self `min` rmt_wnd self in
  let cwnd0 :=
    if congestion_control self then cwnd0 `min` cwnd self else cwnd0 in
  let self := move_to_snd_buf cwnd0 (wnd segment) (snd_queue self) self in
  let resent := fastresend self in
  let rtomin := if negb (nodelay self) then Z.shiftr (rx_rto self) 3 else 0 in
  let rto_max := KcpTiming.rto_max (timing self) in
  let '(segs, st) :=
    flush_segments self (wnd segment) resent rtomin rto_max (snd_buf self)
      (Build_flush_state (buf self) (output self) false 0) in
  let '(b, o) := emit_output (fl_buf st) (fl_output st) in
  let self := self <| snd_buf := segs |> <| buf := b |> <| output := o |> in
  self ← flush_congestion self cwnd0 resent (fl_change st) (fl_lost st);
  Ret (Ok tt, self).

Definition update (self : t) (current0 : Z) : comp (result KcpError.t unit * t) :=
  let self := self <| current := current0 |> in
  let self :=
    if negb (updated self)
    then self <| updated := true |> <| ts_flush := current self |> else self in
  let slap := timediff (current self) (ts_flush self) in
  let '(self, slap) :=
    if negb ((-10000 <=? slap) && (slap <? 10000))
    then (self <| ts_flush := current self |>, 0) else (self, slap) in
  if 0 <=? slap then
    let self := self
      <| ts_flush ::= λ f, f +{32} KcpTiming.interval (timing self) |> in
    let self :=
      if 0 <=? timediff (current self) (ts_flush self)
      then self <| ts_flush :=
             current self +{32} KcpTiming.interval (timing self) |>
      else self in
    '(r, self) ← flush self;
    Ret (r, self)
  else Ret (Ok tt, self).

End Kcp.
