(* ===== verification/KcpWire.v ===== *)
(** * KCP segments on the wire

    The layout of a segment, its parsing by [read_header], datagrams as
    sequences of segments, and the consumption of one segment per turn of the
    input loop. *)

From S2P Require Import Prelude Bytes Kcp.

Module Seg := KcpSegment.

(** Every field is within its wire width. *)
Record seg_wf (s : Seg.t) : Prop := {
  wf_conv : in_width 64 (Seg.conv s);
  wf_cmd : in_width 8 (Seg.cmd s);
  wf_frg : in_width 8 (Seg.frg s);
  wf_wnd : in_width 16 (Seg.wnd s);
  wf_ts : in_width 32 (Seg.ts s);
  wf_sn : in_width 32 (Seg.sn s);
  wf_una : in_width 32 (Seg.una s);
  wf_len : in_width 32 (len (Seg.data s));
}.

Definition valid_cmd (cmd : Z) : bool :=
  (cmd =? KCP_CMD_PUSH) || (cmd =? KCP_CMD_ACK) || (cmd =? KCP_CMD_WASK)
  || (cmd =? KCP_CMD_WINS).

Definition seg_bytes (s : Seg.t) : list Z := Seg.encode s [].

(** A datagram: segments back to back. *)
Definition datagram (segs : list Seg.t) : list Z := mjoin (seg_bytes <$> segs).

Definition header_of (s : Seg.t) : Kcp.header :=
  Kcp.Build_header (Seg.conv s) (Seg.cmd s) (Seg.frg s) (Seg.wnd s) (Seg.ts s)
    (Seg.sn s) (Seg.una s) (len (Seg.data s)).

(** A header as the loop reads it: fields in range, its data in the buffer. *)
Record header_ok (h : Kcp.header) (buf : list Z) : Prop := {
  ok_conv : in_width 64 (Kcp.h_conv h);
  ok_frg : in_width 8 (Kcp.h_frg h);
  ok_wnd : in_width 16 (Kcp.h_wnd h);
  ok_ts : in_width 32 (Kcp.h_ts h);
  ok_sn : in_width 32 (Kcp.h_sn h);
  ok_una : in_width 32 (Kcp.h_una h);
  ok_len : 0 <= Kcp.h_len h <= len buf;
  ok_cmd : valid_cmd (Kcp.h_cmd h) = true;
}.

(** ** Reading integers *)

Lemma get_le_app n x rest :
  0 <= x < 2 ^ (8 * Z.of_nat n) → get_le (Z.of_nat n) (to_le n x ++ rest) = Ret (x, rest).
Proof.
  intros Hx. unfold get_le.
  rewrite slice_app_l by (by rewrite len_to_le). cbn [mbind comp_bind].
  rewrite slice_app_r by (rewrite ?len_app, ?len_to_le; lia).
  cbn [mbind comp_bind]. by rewrite from_le_to_le_id.
Qed.

Lemma get_le_returns n buf :
  0 <= n <= len buf → bytes_ok buf →
  ∃ x rest, get_le n buf = Ret (x, rest) ∧ in_width (8 * n) x
    ∧ bytes_ok rest ∧ len rest = len buf - n.
Proof.
  intros Hn Hb. unfold get_le.
  rewrite !slice_returns by lia. cbn [mbind comp_bind].
  eexists _, _; split; [done|]. rewrite drop_0.
  pose proof (from_le_bound (take (Z.to_nat (n - 0)) buf) (Forall_take _ _ _ Hb)) as Hx.
  rewrite Z.sub_0_r in *. rewrite len_take in Hx by lia.
  split_and!; [done|by apply Forall_take, Forall_drop|].
  rewrite len_take by (rewrite len_drop; lia). done.
Qed.

(** ** Encoding *)

Lemma encode_app s buf : Seg.encode s buf = buf ++ seg_bytes s.
Proof. unfold seg_bytes, Seg.encode. by rewrite app_nil_l. Qed.

Lemma len_seg_bytes s : len (seg_bytes s) = KCP_OVERHEAD + len (Seg.data s).
Proof.
  unfold seg_bytes, Seg.encode. rewrite !len_app, !len_to_le, (@len_nil Z).
  change KCP_OVERHEAD with 28. lia.
Qed.

Lemma seg_bytes_ok s : bytes_ok (Seg.data s) → bytes_ok (seg_bytes s).
Proof.
  intros H. unfold seg_bytes, Seg.encode.
  repeat (apply bytes_ok_app; split); try apply to_le_bytes_ok; [constructor|done].
Qed.

Lemma datagram_cons s segs : datagram (s :: segs) = seg_bytes s ++ datagram segs.
Proof. done. Qed.

Lemma datagram_snoc segs s : datagram (segs ++ [s]) = datagram segs ++ seg_bytes s.
Proof.
  unfold datagram. rewrite fmap_app, join_app. cbn. by rewrite app_nil_r.
Qed.

(** ** Parsing *)

Lemma read_header_encode s rest :
  seg_wf s → valid_cmd (Seg.cmd s) = true →
  Kcp.read_header (Seg.conv s) (seg_bytes s ++ rest)
  = Ret (Ok (header_of s, Seg.data s ++ rest)).
Proof.
  intros [] Hc. unfold Kcp.read_header, seg_bytes, Seg.encode.
  rewrite app_nil_l, wrap_id by done. rewrite <- !(assoc_L (++)).
  rewrite (get_le_app 8) by done. cbn [mbind comp_bind].
  rewrite Z.eqb_refl. cbn [negb].
  do 2 (rewrite (get_le_app 1) by done; cbn [mbind comp_bind]).
  rewrite (get_le_app 2) by done. cbn [mbind comp_bind].
  do 4 (rewrite (get_le_app 4) by done; cbn [mbind comp_bind]).
  rewrite (proj2 (Z.ltb_ge _ _)) by (rewrite len_app; pose proof (len_nonneg rest); lia).
  unfold valid_cmd in Hc. by rewrite Hc.
Qed.

(** Step over one read of the goal, naming its value and what is left. *)
Ltac read_le x rest :=
  let E := fresh "E" in
  match goal with
  | |- context [get_le ?n ?buf] =>
      destruct (get_le_returns n buf) as (x & rest & E & ? & ? & ?);
      [lia|done|]; rewrite E; cbn [mbind comp_bind]
  end.

(** Parsing any 28 bytes or more never panics, and yields a usable header. *)
Lemma read_header_returns conv buf :
  KCP_OVERHEAD <= len buf → bytes_ok buf →
  (∃ e, Kcp.read_header conv buf = Ret (Err e))
  ∨ ∃ h rest, Kcp.read_header conv buf = Ret (Ok (h, rest))
      ∧ header_ok h rest ∧ bytes_ok rest ∧ len rest = len buf - KCP_OVERHEAD
      ∧ Kcp.h_conv h = conv.
Proof.
  unfold KCP_OVERHEAD. intros Hl Hb. unfold Kcp.read_header.
  read_le v b0. destruct (Z.eqb_spec v conv) as [->|]; cbn [negb]; [|by left; eexists].
  read_le cmd b1. read_le frg b2. read_le wnd b3. read_le t b4. read_le sq b5.
  read_le u b6. read_le n b7.
  destruct (Z.ltb_spec (len b7) n); [by left; eexists|].
  fold (valid_cmd cmd). destruct (valid_cmd cmd) eqn:Hc; [|by left; eexists].
  right. eexists _, _; split; [done|]. split_and!; [|done|lia|done].
  unfold in_width in *. constructor; cbn; try done; lia.
Qed.
