(* ===== verification/KcpMessage.v ===== *)
(** * Messages over KCP: fragmentation and reassembly

    [send] cuts a message into fragments numbered down to 0; [peeksize] and
    [recv] find and merge the fragments at the head of [rcv_queue].  The two
    are inverse on complete messages, and [recv] never overruns its buffer
    whatever the peer queued. *)

From S2P Require Import Prelude Bytes Kcp KcpWire.

(** The fragments of a message, as [(frg, data)] pairs: the specification. *)
Fixpoint fragments (mss : Z) (n : nat) (bytes : list Z) : list (Z * list Z) :=
  match n with
  | O => []
  | S m => (Z.of_nat m, take (Z.to_nat mss) bytes)
           :: fragments mss m (drop (Z.to_nat mss) bytes)
  end.

Definition fragment_seg (f : Z * list Z) : Seg.t :=
  (Seg.new_with_data f.2) <| Seg.frg := f.1 |>.

(** The number of fragments of a message. *)
Definition fragment_count (mss : Z) (bytes : list Z) : Z :=
  ((len bytes + mss - 1) / mss) `max` 1.

Definition message_fragments (mss : Z) (bytes : list Z) : list (Z * list Z) :=
  fragments mss (Z.to_nat (fragment_count mss bytes)) bytes.

(** What a segment carries. *)
Definition carried (s : Seg.t) : Z * list Z := (Seg.frg s, Seg.data s).

(** ** Fragmentation *)

Lemma length_fragments mss n bytes : length (fragments mss n bytes) = n.
Proof. revert bytes; induction n as [|n IH]; intros; cbn; [done|]. by rewrite IH. Qed.

Lemma fragments_concat mss n bytes :
  0 < mss → len bytes <= Z.of_nat n * mss →
  mjoin (snd <$> fragments mss n bytes) = bytes.
Proof.
  intros Hm. revert bytes; induction n as [|n IH]; intros bytes Hl; cbn.
  - pose proof (len_nonneg bytes). by rewrite (len_zero_nil bytes) by lia.
  - rewrite IH; [apply take_drop|]. unfold len in *. rewrite length_drop. lia.
Qed.

Lemma fragments_bounded mss n bytes :
  0 <= mss → Forall (λ f, len (f.2) <= mss) (fragments mss n bytes).
Proof.
  intros Hm. revert bytes; induction n as [|n IH]; intros; cbn; constructor; [|apply IH].
  unfold len. cbn. rewrite length_take. lia.
Qed.

Lemma fragments_frg mss n bytes i f :
  fragments mss n bytes !! i = Some f → f.1 = Z.of_nat n - 1 - Z.of_nat i.
Proof.
  revert bytes i; induction n as [|n IH]; intros bytes i; cbn; [by rewrite lookup_nil|].
  destruct i as [|i]; cbn.
  - intros [= <-]. cbn. lia.
  - intros H%IH. lia.
Qed.

Lemma fragments_bytes_ok mss n bytes :
  bytes_ok bytes → Forall (λ f, bytes_ok (f.2)) (fragments mss n bytes).
Proof.
  revert bytes; induction n as [|n IH]; intros bytes Hb; cbn; constructor; cbn.
  - by apply Forall_take.
  - by apply IH, Forall_drop.
Qed.

Lemma fragment_count_pos mss bytes : 1 <= fragment_count mss bytes.
Proof. unfold fragment_count. lia. Qed.

Lemma fragment_count_covers mss bytes :
  0 < mss → len bytes <= fragment_count mss bytes * mss.
Proof.
  intros Hm. unfold fragment_count.
  pose proof (Z.div_mod (len bytes + mss - 1) mss ltac:(lia)).
  pose proof (Z.mod_pos_bound (len bytes + mss - 1) mss Hm). nia.
Qed.

Lemma message_fragments_concat mss bytes :
  0 < mss → mjoin (snd <$> message_fragments mss bytes) = bytes.
Proof.
  intros Hm. apply fragments_concat; [done|].
  pose proof (fragment_count_pos mss bytes).
  rewrite Z2Nat.id by lia. by apply fragment_count_covers.
Qed.

(** ** The loop of [send] *)

Lemma take_min m (bytes : list Z) :
  0 <= m → take (Z.to_nat (m `min` len bytes)) bytes = take (Z.to_nat m) bytes.
Proof.
  intros Hm. unfold len. destruct (Z.min_spec m (Z.of_nat (length bytes))) as [[? ->]|[? ->]];
    [done|]. rewrite Nat2Z.id, !firstn_all2 by lia. done.
Qed.

Lemma drop_min m (bytes : list Z) :
  0 <= m →
  take (Z.to_nat (len bytes - m `min` len bytes))
    (drop (Z.to_nat (m `min` len bytes)) bytes) = drop (Z.to_nat m) bytes.
Proof.
  intros Hm. unfold len. rewrite firstn_all2 by (rewrite length_drop; lia).
  destruct (Z.min_spec m (Z.of_nat (length bytes))) as [[? ->]|[? ->]];
    [done|]. rewrite Nat2Z.id, !skipn_all2 by lia. done.
Qed.

(** Modular subtraction of the fragment number. *)
Lemma fragment_number n i count :
  0 <= i → i + Z.of_nat (S n) = count → count < 256 →
  wrap 8 (count -{64} i -{64} 1) = Z.of_nat n.
Proof.
  intros Hi Hc Hlt. replace (count - i) with (Z.of_nat (S n)) by lia.
  rewrite (wrap_id 64 (Z.of_nat _)) by lia. replace (Z.of_nat (S n) - 1) with (Z.of_nat n) by lia.
  rewrite (wrap_id 64), wrap_id; [done|lia..].
Qed.

Lemma send_loop n : ∀ i count self buf,
  0 <= i → i + Z.of_nat n = count → count < 256 → 0 < Kcp.mss self →
  for_each (seqZ i (Z.of_nat n)) (Kcp.send_fragment count) (self, buf)
  = Ret (self <| Kcp.snd_queue ::= λ q,
           q ++ (fragment_seg <$> fragments (Kcp.mss self) n buf) |>,
         drop (n * Z.to_nat (Kcp.mss self)) buf).
Proof.
  induction n as [|n IH]; intros i count self buf Hi Hc Hlt Hm.
  - rewrite seqZ_nil by done. cbn [for_each fragments fmap list_fmap].
    cbn [Nat.mul]. rewrite drop_0. unfold update. rewrite app_nil_r. by destruct self.
  - rewrite seqZ_cons by lia. cbn [for_each]. unfold Kcp.send_fragment at 2.
    cbn beta iota zeta. rewrite !slice_returns by (pose proof (len_nonneg buf); lia).
    cbn [mbind comp_bind]. rewrite drop_0, Z.sub_0_r.
    replace (Z.pred (Z.of_nat (S n))) with (Z.of_nat n) by lia.
    replace (Z.succ i) with (i + 1) by lia.
    rewrite take_min, drop_min, (fragment_number n) by lia.
    rewrite (IH (i + 1)) by (cbn [Kcp.mss update]; done || lia).
    f_equal. f_equal.
    + unfold update. cbn [Kcp.snd_queue Kcp.mss]. rewrite <- (assoc_L (++)). done.
    + cbn [update Kcp.mss]. rewrite drop_drop. by f_equal.
Qed.

Lemma send_eq self buf :
  0 < Kcp.mss self →
  Kcp.send self buf
  = Ret (if (Kcp.rcv_wnd self <=? fragment_count (Kcp.mss self) buf)
            || (256 <=? fragment_count (Kcp.mss self) buf)
         then (Err KcpError.UserBufTooBig, self)
         else (Ok (len buf), self <| Kcp.snd_queue ::= λ q,
                 q ++ (fragment_seg <$> message_fragments (Kcp.mss self) buf) |>)).
Proof.
  intros Hm. unfold Kcp.send, div_ceil. case_cmp. cbn [mbind comp_bind].
  fold (fragment_count (Kcp.mss self) buf).
  destruct (_ || _) eqn:E; [done|]. bool_to_prop.
  pose proof (fragment_count_pos (Kcp.mss self) buf).
  rewrite <- (Z2Nat.id (fragment_count _ _)) at 1 by lia.
  rewrite send_loop by lia. done.
Qed.

(** ** Reassembly *)

(** The fragments of one complete message, numbered down to 0. *)
Definition complete (segs : list Seg.t) : Prop :=
  segs ≠ [] ∧ ∀ i s, segs !! i = Some s → Seg.frg s = len segs - 1 - Z.of_nat i.

Definition payload (segs : list Seg.t) : list Z := mjoin (Seg.data <$> segs).

Lemma payload_cons s segs : payload (s :: segs) = Seg.data s ++ payload segs.
Proof. done. Qed.

Lemma payload_app s1 s2 : payload (s1 ++ s2) = payload s1 ++ payload s2.
Proof. unfold payload. by rewrite fmap_app, join_app. Qed.

Lemma complete_cons s segs :
  complete (s :: segs) →
  Seg.frg s = len segs ∧ (segs = [] ∨ complete segs).
Proof.
  intros [_ H]. split.
  - rewrite (H 0%nat s) by done. rewrite len_cons. lia.
  - destruct segs as [|s' segs]; [by left|right; split; [done|]].
    intros i x Hi. rewrite (H (S i) x) by done. rewrite !len_cons. lia.
Qed.

(** The head of a queue up to and including its last fragment: what [recv]
    consumes, whether or not the message is complete. *)
Fixpoint first_message (queue : list Seg.t) : list Seg.t * list Seg.t :=
  match queue with
  | [] => ([], [])
  | s :: rest =>
      if Seg.frg s =? 0 then ([s], rest)
      else let '(m, q) := first_message rest in (s :: m, q)
  end.

Lemma first_message_split queue :
  let '(m, q) := first_message queue in queue = m ++ q.
Proof.
  induction queue as [|s rest IH]; cbn; [done|].
  destruct (Seg.frg s =? 0); [done|].
  destruct (first_message rest). cbn. by rewrite IH.
Qed.

Lemma first_message_complete segs rest :
  complete segs → first_message (segs ++ rest) = (segs, rest).
Proof.
  induction segs as [|s segs IH]; [by intros []|].
  intros [Hf Hc]%complete_cons. cbn. destruct (Z.eqb_spec (Seg.frg s) 0) as [Hz|Hz].
  - rewrite (len_zero_nil segs) by lia. done.
  - destruct Hc as [->|Hc]; [done|]. by rewrite IH.
Qed.

Lemma message_len_first queue acc :
  0 <= acc → acc + len (payload queue) < 2 ^ 64 →
  Kcp.message_len queue acc = acc + len (payload (first_message queue).1).
Proof.
  revert acc; induction queue as [|s rest IH]; intros acc Ha Hl; cbn.
  - change (len []) with 0. lia.
  - rewrite payload_cons, len_app in Hl.
    pose proof (len_nonneg (Seg.data s)). pose proof (len_nonneg (payload rest)).
    rewrite wrap_id by lia. destruct (Seg.frg s =? 0).
    + cbn. rewrite app_nil_r. done.
    + rewrite IH by lia. destruct (first_message rest) as [m q]. cbn [fst].
      rewrite payload_cons, len_app. lia.
Qed.

(** Merging fills the buffer with the payload of the first message. *)
Lemma merge_fragments_spec queue done_ free :
  len (done_ ++ free) < 2 ^ 64 →
  len (payload (first_message queue).1) <= len free →
  Kcp.merge_fragments queue (done_ ++ free) (len done_)
  = Ret ((first_message queue).2,
         done_ ++ payload (first_message queue).1
           ++ drop (Z.to_nat (len (payload (first_message queue).1))) free,
         len done_ + len (payload (first_message queue).1)).
Proof.
  revert done_ free; induction queue as [|s rest IH]; intros done_ free Hl Hp; cbn.
  - change (len []) with 0. cbn. by rewrite drop_0, Z.add_0_r.
  - set (d := Seg.data s) in *.
    assert (Hd : len d <= len free).
    { cbn in Hp. destruct (Seg.frg s =? 0); [|destruct (first_message rest)];
        cbn [fst] in Hp; rewrite payload_cons, len_app in Hp;
        match type of Hp with context [len (payload ?x)] =>
          pose proof (len_nonneg (payload x)) end; fold d in Hp; lia. }
    pose proof (len_nonneg done_). pose proof (len_nonneg d).
    rewrite len_app in Hl. rewrite wrap_id by lia.
    rewrite copy_from_slice_returns by (rewrite ?len_app; lia).
    cbn [mbind comp_bind].
    assert (Hsplit : take (Z.to_nat (len done_)) (done_ ++ free) ++ d
              ++ drop (Z.to_nat (len done_ + len d)) (done_ ++ free)
            = (done_ ++ d) ++ drop (Z.to_nat (len d)) free).
    { rewrite <- (assoc_L (++)). f_equal; [|f_equal].
      - apply take_app_length'. unfold len. lia.
      - rewrite drop_app_ge by (unfold len; lia). f_equal. unfold len. lia. }
    rewrite Hsplit. destruct (Z.eqb_spec (Seg.frg s) 0) as [Hz|Hz].
    + cbn [fst snd]. unfold payload. cbn. rewrite app_nil_r, <- (assoc_L (++)). done.
    + replace (len done_ + len d) with (len (done_ ++ d)) by (rewrite len_app; lia).
      cbn in Hp. rewrite (proj2 (Z.eqb_neq _ _) Hz) in Hp.
      destruct (first_message rest) as [m q] eqn:Em. cbn [fst snd] in *.
      rewrite payload_cons, len_app in Hp. fold d in Hp.
      rewrite IH by (rewrite ?len_app, ?len_drop by lia; lia).
      rewrite payload_cons, !len_app. fold d. f_equal. f_equal; [f_equal|lia].
      rewrite <- !(assoc_L (++)). do 3 f_equal. rewrite drop_drop. f_equal.
      pose proof (len_nonneg (payload m)). lia.
Qed.

(** The state after [recv] consumed [q] from the queue, leaving [rest]. *)
Definition after_recv (self : Kcp.t) (rest : list Seg.t) : Kcp.t :=
  let recover := Kcp.rcv_wnd self <=? len (Kcp.rcv_queue self) in
  let self := Kcp.move_buf (self <| Kcp.rcv_queue := rest |>) in
  if (len (Kcp.rcv_queue self) <? Kcp.rcv_wnd self) && recover
  then self <| Kcp.probe ::= λ p, Z.lor p KCP_ASK_TELL |> else self.

Lemma peeksize_Ok self n :
  len (payload (Kcp.rcv_queue self)) < 2 ^ 64 →
  Kcp.peeksize self = Ok n → n = len (payload (first_message (Kcp.rcv_queue self)).1).
Proof.
  intros Hl. unfold Kcp.peeksize. destruct (Kcp.rcv_queue self) as [|s rest]; [done|].
  destruct (Z.eqb_spec (Seg.frg s) 0) as [Hz|Hz].
  - cbn. rewrite Hz. cbn. rewrite app_nil_r. by intros [= ->].
  - case_cmp; [done|]. intros <-%Ok_inj. rewrite message_len_first by lia. lia.
Qed.

Lemma payload_first_le queue :
  len (payload (first_message queue).1) <= len (payload queue).
Proof.
  pose proof (first_message_split queue) as H.
  destruct (first_message queue) as [m q]. rewrite H, payload_app, len_app.
  pose proof (len_nonneg (payload q)). cbn [fst]. lia.
Qed.

Lemma recv_eq self buf :
  len (payload (Kcp.rcv_queue self)) < 2 ^ 64 → len buf < 2 ^ 64 →
  Kcp.recv self buf
  = Ret (match Kcp.peeksize self with
         | Err e => (Err e, self, buf)
         | Ok n =>
             if len buf <? n then (Err KcpError.UserBufTooSmall, self, buf)
             else (Ok n, after_recv self (first_message (Kcp.rcv_queue self)).2,
                   payload (first_message (Kcp.rcv_queue self)).1
                     ++ drop (Z.to_nat n) buf)
         end).
Proof.
  intros Hl Hb. unfold Kcp.recv.
  destruct (Kcp.rcv_queue self) as [|s rest] eqn:Hq.
  { unfold Kcp.peeksize. by rewrite Hq. }
  rewrite <- Hq in *. destruct (Kcp.peeksize self) as [n|e] eqn:Hp; [|done].
  apply peeksize_Ok in Hp as ->; [|done].
  destruct (Z.ltb_spec (len buf) (len (payload (first_message (Kcp.rcv_queue self)).1)))
    as [|Hfit]; [done|].
  pose proof (merge_fragments_spec (Kcp.rcv_queue self) [] buf Hb Hfit) as Hm.
  cbn [app] in Hm. change (len (@nil Z)) with 0 in Hm. rewrite Hm. done.
Qed.

Lemma recv_exact self n :
  len (payload (Kcp.rcv_queue self)) < 2 ^ 64 → Kcp.peeksize self = Ok n →
  Kcp.recv self (vec n 0)
  = Ret (Ok n, after_recv self (first_message (Kcp.rcv_queue self)).2,
         payload (first_message (Kcp.rcv_queue self)).1).
Proof.
  intros Hl Hp. apply peeksize_Ok in Hp as Hn; [|done].
  pose proof (payload_first_le (Kcp.rcv_queue self)).
  pose proof (len_nonneg (payload (first_message (Kcp.rcv_queue self)).1)).
  assert (len (vec n 0) = n) as Hv by (apply len_vec; lia).
  rewrite recv_eq by (rewrite ?Hv; lia). rewrite Hp, Hv, (proj2 (Z.ltb_ge _ _)) by lia.
  rewrite drop_ge by (unfold vec; rewrite length_replicate; lia). by rewrite app_nil_r.
Qed.

(** The segments waiting to be received. *)
Definition backlog (self : Kcp.t) : nat :=
  length (Kcp.rcv_queue self) + length (Kcp.rcv_buf self).

Lemma move_loop_length wnd buf : ∀ queue nxt,
  let '(b, q, _) := Kcp.move_loop wnd buf queue nxt in
  (length q + length b = length queue + length buf)%nat.
Proof.
  induction buf as [|s buf IH]; intros queue nxt; cbn [Kcp.move_loop]; [done|].
  destruct (_ && _); [|done]. specialize (IH (queue ++ [s]) (nxt +{32} 1)).
  destruct (Kcp.move_loop _ _ _ _) as [[b q] n]. rewrite IH, length_app. cbn. lia.
Qed.

Lemma move_buf_backlog self : backlog (Kcp.move_buf self) = backlog self.
Proof.
  unfold Kcp.move_buf, backlog.
  pose proof (move_loop_length (Kcp.rcv_wnd self) (Kcp.rcv_buf self) (Kcp.rcv_queue self)
    (Kcp.rcv_nxt self)) as Hl.
  destruct (Kcp.move_loop _ _ _ _) as [[b q] n]. exact Hl.
Qed.

Lemma backlog_recv self n :
  Kcp.peeksize self = Ok n →
  (backlog (after_recv self (first_message (Kcp.rcv_queue self)).2) < backlog self)%nat.
Proof.
  intros Hp. unfold after_recv.
  assert (backlog (Kcp.move_buf (self <| Kcp.rcv_queue
    := (first_message (Kcp.rcv_queue self)).2 |>)) < backlog self)%nat as H.
  { rewrite move_buf_backlog. unfold backlog. cbn.
    pose proof (first_message_split (Kcp.rcv_queue self)) as Hs. unfold Kcp.peeksize in Hp.
    destruct (Kcp.rcv_queue self) as [|s rest]; [done|]. cbn [first_message] in *.
    destruct (Seg.frg s =? 0); [cbn; lia|]. destruct (first_message rest) as [m q].
    injection Hs as ->. cbn. rewrite length_app. lia. }
  by destruct (_ && _).
Qed.

Lemma peeksize_Err self e :
  Kcp.peeksize self = Err e → e = KcpError.RecvQueueEmpty ∨ e = KcpError.ExpectingFragment.
Proof.
  unfold Kcp.peeksize. destruct (Kcp.rcv_queue self) as [|s rest]; [intros [= <-]; by left|].
  destruct (_ =? _); [done|]. destruct (_ <? _); [intros [= <-]; by right|done].
Qed.

Lemma peeksize_complete self segs rest :
  complete segs → len segs < 256 → Kcp.rcv_queue self = segs ++ rest →
  len (payload (Kcp.rcv_queue self)) < 2 ^ 64 →
  Kcp.peeksize self = Ok (len (payload segs)).
Proof.
  intros Hc Hlt Hq Hl. unfold Kcp.peeksize. rewrite Hq in *.
  destruct segs as [|s segs]; [by destruct Hc|]. cbn [app].
  rewrite len_cons in Hlt. pose proof (len_nonneg segs).
  apply complete_cons in Hc as Hf. destruct Hf as [Hf _].
  destruct (Z.eqb_spec (Seg.frg s) 0) as [Hz|Hz].
  - rewrite (len_zero_nil segs) by lia. unfold payload. cbn. by rewrite app_nil_r.
  - rewrite (proj2 (Z.ltb_ge _ _)).
    + rewrite message_len_first by (rewrite ?app_comm_cons; lia).
      by rewrite app_comm_cons, first_message_complete.
    + rewrite wrap_id by lia. rewrite len_cons, len_app.
      pose proof (len_nonneg rest). lia.
Qed.

Lemma carried_fragments segs mss bytes :
  carried <$> segs = message_fragments mss bytes → 0 < mss →
  complete segs ∧ payload segs = bytes ∧ len segs = fragment_count mss bytes.
Proof.
  intros Hc Hm. pose proof (fragment_count_pos mss bytes).
  assert (Hlen : length segs = Z.to_nat (fragment_count mss bytes)).
  { rewrite <- (length_fmap carried), Hc. apply length_fragments. }
  assert (len segs = fragment_count mss bytes) as Hl by (unfold len; lia).
  split_and!; [split|..|done].
  - intros ->. change (len []) with 0 in Hl. lia.
  - intros i s Hi.
    assert ((carried <$> segs) !! i = Some (carried s)) as Hf
      by (by rewrite list_lookup_fmap, Hi).
    rewrite Hc in Hf. apply fragments_frg in Hf. cbn in Hf. lia.
  - unfold payload.
    replace (Seg.data <$> segs) with (snd <$> (carried <$> segs))
      by (rewrite <- list_fmap_compose; done).
    rewrite Hc. by apply message_fragments_concat.
Qed.

(** ** Properties *)

(** C24: [send] either rejects a message that needs too many fragments and
    changes nothing, or queues fragments that concatenate to the message, fit
    the segment size and are numbered down to zero. *)
Theorem send_fragments_message self bytes :
  0 < Kcp.mss self →
  let count := fragment_count (Kcp.mss self) bytes in
  if (Kcp.rcv_wnd self <=? count) || (256 <=? count)
  then Kcp.send self bytes = Ret (Err KcpError.UserBufTooBig, self)
  else ∃ segs,
    Kcp.send self bytes
      = Ret (Ok (len bytes), self <| Kcp.snd_queue ::= λ q, q ++ segs |>)
    ∧ payload segs = bytes ∧ complete segs ∧ len segs = count
    ∧ Forall (λ s, len (Seg.data s) <= Kcp.mss self) segs.
Proof.
  intros Hm count. rewrite send_eq by done. fold count.
  destruct (_ || _); [done|].
  exists (fragment_seg <$> message_fragments (Kcp.mss self) bytes).
  split; [done|].
  destruct (carried_fragments (fragment_seg <$> message_fragments (Kcp.mss self) bytes)
    (Kcp.mss self) bytes) as (Hc & Hp & Hl); [|done|].
  { rewrite <- list_fmap_compose. rewrite <- (list_fmap_id (message_fragments _ _)) at 2.
    apply list_fmap_ext. by intros ? []. }
  split_and!; [done|done|done|].
  apply Forall_fmap. eapply Forall_impl; [apply fragments_bounded; lia|]. done.
Qed.

(** C23: what [send] queued as one message, [recv] returns as one message: a
    queue that starts with segments carrying its fragments yields exactly the
    sent bytes and leaves the rest of the queue. *)
Theorem send_recv_roundtrip sender receiver bytes segs rest n sender' buf :
  0 < Kcp.mss sender → Kcp.snd_queue sender = [] →
  Kcp.send sender bytes = Ret (Ok n, sender') →
  carried <$> segs = carried <$> Kcp.snd_queue sender' →
  Kcp.rcv_queue receiver = segs ++ rest →
  len (payload (segs ++ rest)) < 2 ^ 64 → n <= len buf < 2 ^ 64 →
  Kcp.recv receiver buf
  = Ret (Ok n, after_recv receiver rest, bytes ++ drop (Z.to_nat n) buf).
Proof.
  intros Hm Hempty Hsend Hsegs Hq Hl Hn. rewrite send_eq in Hsend by done.
  destruct (_ || _) eqn:E in Hsend; [done|]. injection Hsend as <- <-. bool_to_prop.
  cbn in Hsegs. rewrite Hempty in Hsegs. cbn in Hsegs.
  destruct (carried_fragments segs (Kcp.mss sender) bytes) as (Hc & Hp & Hcnt); [|done|].
  { rewrite Hsegs, <- list_fmap_compose.
    rewrite <- (list_fmap_id (message_fragments _ _)) at 2.
    apply list_fmap_ext. by intros ? []. }
  rewrite recv_eq by (rewrite ?Hq; lia).
  rewrite (peeksize_complete _ segs rest) by (rewrite ?Hq; done || lia).
  rewrite Hp, Hq, first_message_complete by done. cbn [fst snd].
  rewrite (proj2 (Z.ltb_ge _ _)) by lia. by rewrite Hp.
Qed.

(** ** Witnesses *)

Definition demo_params : KcpParams.t := KcpParams.Build_t 40 8 8 true (Some 2) false 1.

(** Twenty bytes are two fragments at an MTU of 40. *)
Definition demo_message : list Z := vec 20 7.

Definition demo_sender : Kcp.t := Kcp.new 5 demo_params.

(** The sender after [send]. *)
Definition demo_sent : Kcp.t :=
  demo_sender <| Kcp.snd_queue :=
    fragment_seg <$> message_fragments (Kcp.mss demo_sender) demo_message |>.

(** A receiver whose queue holds those segments and the next message. *)
Definition demo_receiver : Kcp.t :=
  demo_sender <| Kcp.rcv_queue := Kcp.snd_queue demo_sent ++ [fragment_seg (0, [9])] |>.

Lemma send_fragments_message_witness :
  ∃ segs,
    Kcp.send demo_sender demo_message
      = Ret (Ok 20, demo_sender <| Kcp.snd_queue ::= λ q, q ++ segs |>)
    ∧ payload segs = demo_message ∧ complete segs ∧ len segs = 2
    ∧ Forall (λ s, len (Seg.data s) <= 12) segs.
Proof. apply (send_fragments_message demo_sender demo_message). by vm_compute. Defined.

Lemma send_recv_roundtrip_witness :
  Kcp.recv demo_receiver (vec 25 0)
  = Ret (Ok 20, after_recv demo_receiver [fragment_seg (0, [9])], demo_message ++ vec 5 0).
Proof.
  apply (send_recv_roundtrip demo_sender demo_receiver demo_message
    (Kcp.snd_queue demo_sent) [fragment_seg (0, [9])] 20 demo_sent (vec 25 0));
    by vm_compute.
Defined.
