(* ===== verification/KcpReceive.v ===== *)
(** * The receive window of KCP

    [rcv_inv P hist self]: unwrapping the 32-bit sequence numbers, everything
    consumed ([hist]) or queued has consecutive numbers from 0 and satisfies
    [P]; [rcv_buf] is strictly sorted inside the window.  [parse_data],
    [move_buf] and [recv] preserve it, so delivery is in order, without gaps
    and without duplicates. *)

From S2P Require Import Prelude Bytes Kcp KcpWire KcpMessage.

(** ** 32-bit sequence arithmetic *)

Lemma timediff_wrap a b :
  - 2 ^ 31 <= a - b < 2 ^ 31 → timediff (wrap 32 a) (wrap 32 b) = a - b.
Proof.
  intros H. unfold timediff. rewrite as_i32_wrap.
  rewrite (as_i32_eq _ (a - b)); [by apply as_i32_small|].
  by rewrite wrap_sub_l, wrap_sub_r.
Qed.

Lemma timediff_range a b : - 2 ^ 31 <= timediff a b < 2 ^ 31.
Proof. apply as_i32_range. Qed.

(** A number is its distance from a base. *)
Lemma timediff_unwrap sn n :
  in_width 32 sn → sn = wrap 32 (n + timediff sn (wrap 32 n)).
Proof.
  intros Hs. unfold timediff. rewrite as_i32_wrap.
  destruct (as_i32_mod (sn - wrap 32 n)) as [k ->].
  transitivity (wrap 32 sn); [by rewrite wrap_small|].
  apply wrap_eq_iff; [lia|]. unfold wrap.
  pose proof (Z.div_mod n (2 ^ 32) ltac:(lia)).
  exists (- (n / 2 ^ 32) - k). lia.
Qed.

Lemma wrap_inj_window a b :
  wrap 32 a = wrap 32 b → - 2 ^ 32 < a - b < 2 ^ 32 → a = b.
Proof. intros [k Hk]%wrap_eq_iff ?; [|lia]. assert (k = 0) by nia. lia. Qed.

Section receive.
(** What is known of the segment with unwrapped number [j]. *)
Context (P : Z → Seg.t → Prop).

(** A segment that may be stored under any unwrapping of its number. *)
Definition accept (s : Seg.t) : Prop :=
  ∀ j, 0 <= j → Seg.sn s = wrap 32 j → P j s.

(** [rcv_buf]: strictly increasing numbers in [lo..hi). *)
Fixpoint buf_inv (lo hi : Z) (l : list Seg.t) : Prop :=
  match l with
  | [] => True
  | s :: l' =>
      ∃ j, lo <= j < hi ∧ Seg.sn s = wrap 32 j ∧ P j s ∧ buf_inv (j + 1) hi l'
  end.

Record rcv_inv_at (n : Z) (hist : list Seg.t) (self : Kcp.t) : Prop := {
  rcv_next : Kcp.rcv_nxt self = wrap 32 n;
  rcv_count : n = len hist + len (Kcp.rcv_queue self);
  rcv_log : ∀ i s, (hist ++ Kcp.rcv_queue self) !! i = Some s → P (Z.of_nat i) s;
  rcv_queue_bound : len (Kcp.rcv_queue self) <= Kcp.rcv_wnd self;
  rcv_buf_inv : buf_inv n (n + Kcp.rcv_wnd self) (Kcp.rcv_buf self);
}.

Definition rcv_inv (hist : list Seg.t) (self : Kcp.t) : Prop :=
  in_width 16 (Kcp.rcv_wnd self) ∧ ∃ n, rcv_inv_at n hist self.

(** ** The sorted buffer *)

Lemma buf_inv_weaken lo hi lo' hi' l :
  lo' <= lo → hi <= hi' → buf_inv lo hi l → buf_inv lo' hi' l.
Proof.
  revert lo lo'; induction l as [|s l IH]; intros lo lo' Hlo Hhi; [done|].
  intros (j & Hj & Hs & HP & Hl). exists j. split_and!; try done; [lia|lia|].
  by apply (IH (j + 1)); [lia|lia|].
Qed.

Lemma buf_inv_app lo m hi l1 l2 :
  lo <= m → m <= hi → buf_inv lo m l1 → buf_inv m hi l2 → buf_inv lo hi (l1 ++ l2).
Proof.
  revert lo; induction l1 as [|s l1 IH]; intros lo Hlo Hm; cbn [app].
  - intros _. by apply buf_inv_weaken.
  - intros (j & Hj & Hs & HP & Hl) Hl2. exists j. split_and!; try done; [lia|lia|].
    apply IH; [lia|done|done|done].
Qed.

Lemma buf_inv_snoc lo hi l x :
  buf_inv lo hi (l ++ [x]) →
  ∃ j, lo <= j < hi ∧ Seg.sn x = wrap 32 j ∧ P j x ∧ buf_inv lo j l.
Proof.
  revert lo; induction l as [|s l IH]; intros lo; cbn [app].
  - intros (j & Hj & Hs & HP & _). by exists j.
  - intros (j & Hj & Hs & HP & Hl).
    destruct (IH (j + 1) Hl) as (j' & Hj' & Hs' & HP' & Hl').
    exists j'. split_and!; try done; [lia|lia|].
    exists j. split_and!; try done; lia.
Qed.

Lemma buf_inv_len lo hi l : lo <= hi → buf_inv lo hi l → len l <= hi - lo.
Proof.
  revert lo; induction l as [|s l IH]; intros lo Hh.
  - rewrite len_nil. lia.
  - intros (j & Hj & _ & _ & Hl). rewrite len_cons.
    specialize (IH (j + 1) ltac:(lia) Hl). lia.
Qed.

(** The insertion point keeps the buffer sorted. *)
Lemma insert_index_spec lo m hi j s l1 : ∀ l2 idx,
  Seg.sn s = wrap 32 j → P j s → lo <= j < hi → lo <= m <= hi → hi <= lo + 2 ^ 31 →
  buf_inv lo m l1 → buf_inv m hi l2 → buf_inv (j + 1) hi l2 →
  idx = len l1 → len l1 < 2 ^ 64 →
  match Kcp.insert_index (Seg.sn s) (rev l1) idx with
  | (true, _) => True
  | (false, k) => ∃ l1' l1'', l1 = l1' ++ l1'' ∧ k = len l1'
      ∧ buf_inv lo hi (l1' ++ s :: l1'' ++ l2)
  end.
Proof.
  revert m. induction l1 as [|x l1 IH] using rev_ind;
    intros m l2 idx Hs HP Hj Hm Hw H1 H2 H2' -> Hlen; cbn [rev Kcp.insert_index].
  - exists [], []. split_and!; try done. exists j. split_and!; try done; lia.
  - rewrite rev_app_distr. cbn [rev app Kcp.insert_index].
    apply buf_inv_snoc in H1 as (jx & Hjx & Hx & HPx & H1).
    destruct (Z.eqb_spec (Seg.sn x) (Seg.sn s)); [done|].
    rewrite Hs, Hx, timediff_wrap by lia.
    destruct (Z.ltb_spec 0 (j - jx)) as [Hlt|Hge].
    + exists (l1 ++ [x]), []. rewrite app_nil_r. split_and!; try done.
      apply (buf_inv_app lo j); [lia|lia| |].
      * apply (buf_inv_app lo jx); [lia|lia|done|].
        exists jx. split_and!; done || lia.
      * exists j. split_and!; try done; lia.
    + assert (jx ≠ j) by congruence. rewrite <- Hs. rewrite len_app in *.
      rewrite (len_cons x), len_nil in *. pose proof (len_nonneg l1).
      rewrite wrap_id by lia.
      specialize (IH jx (x :: l2) (len l1 + (1 + 0) - 1) Hs HP Hj ltac:(lia) Hw H1).
      destruct (Kcp.insert_index (Seg.sn s) (rev l1) _) as [[|] k]; [done|].
      destruct IH as (l1' & l1'' & -> & -> & Hb); [| |lia|lia|].
      * exists jx. split_and!; try done; try lia.
        by apply (buf_inv_weaken m hi); [lia|lia|].
      * exists jx. split_and!; try done; try lia.
        by apply (buf_inv_weaken m hi); [lia|lia|].
      * exists l1', (l1'' ++ [x]). rewrite <- !(assoc_L (++)). done.
Qed.

(** ** Moving to the queue *)

Lemma move_loop_inv wnd hist hi l : ∀ q n,
  n = len hist + len q → (∀ i s, (hist ++ q) !! i = Some s → P (Z.of_nat i) s) →
  len q <= wnd → hi <= n + 2 ^ 32 → buf_inv n hi l →
  let '(b, q', n') := Kcp.move_loop wnd l q (wrap 32 n) in
  ∃ m, n' = wrap 32 m ∧ n <= m ∧ m = len hist + len q' ∧ q `prefix_of` q'
    ∧ (∀ i s, (hist ++ q') !! i = Some s → P (Z.of_nat i) s)
    ∧ len q' <= wnd ∧ buf_inv m hi b.
Proof.
  induction l as [|s l IH]; intros q n Hn Hlog Hq Hhi Hb; cbn [Kcp.move_loop].
  - exists n. split_and!; try done; lia.
  - destruct Hb as (j & Hj & Hs & HP & Hl).
    destruct (_ && _) eqn:E; bool_to_prop.
    + assert (j = n) as -> by (apply wrap_inj_window; [congruence|lia]).
      rewrite wrap_add_l.
      specialize (IH (q ++ [s]) (n + 1)). destruct (Kcp.move_loop _ _ _ _) as [[b q'] n'].
      destruct IH as (m & -> & Hm & Hm' & Hpre & Hlog' & Hq' & Hb'); try done.
      * rewrite len_app, len_cons, len_nil. lia.
      * intros i x Hi. rewrite (assoc_L (++)) in Hi.
        apply lookup_app_Some in Hi as [Hi|[Hi Hx]]; [by apply Hlog|].
        apply list_lookup_singleton_Some in Hx as [Hx ->].
        rewrite length_app in *. replace (Z.of_nat i) with n; [done|].
        unfold len in *. lia.
      * rewrite len_app, len_cons, len_nil. lia.
      * lia.
      * exists m. split_and!; try done; try lia.
        etrans; [|done]. by apply prefix_app_r.
    + exists n. split_and!; try done. exists j. done.
Qed.

(** [move_buf] touches the receive side only. *)
Lemma move_buf_frame self :
  ∃ b q n, Kcp.move_buf self
    = self <| Kcp.rcv_buf := b |> <| Kcp.rcv_queue := q |> <| Kcp.rcv_nxt := n |>.
Proof.
  unfold Kcp.move_buf. destruct (Kcp.move_loop _ _ _ _) as [[b q] n]. by exists b, q, n.
Qed.

Lemma move_buf_rcv_wnd self : Kcp.rcv_wnd (Kcp.move_buf self) = Kcp.rcv_wnd self.
Proof. by destruct (move_buf_frame self) as (? & ? & ? & ->). Qed.

Lemma move_buf_inv n hist self :
  in_width 16 (Kcp.rcv_wnd self) →
  rcv_inv_at n hist self →
  ∃ m, rcv_inv_at m hist (Kcp.move_buf self) ∧ n <= m
    ∧ Kcp.rcv_queue self `prefix_of` Kcp.rcv_queue (Kcp.move_buf self).
Proof.
  intros Hw [Hnext Hn Hlog Hq Hb]. unfold in_width in Hw.
  unfold Kcp.move_buf. rewrite Hnext.
  pose proof (move_loop_inv (Kcp.rcv_wnd self) hist (n + Kcp.rcv_wnd self)
    (Kcp.rcv_buf self) (Kcp.rcv_queue self) n Hn Hlog Hq ltac:(lia) Hb) as H.
  destruct (Kcp.move_loop _ _ _ _) as [[b q'] n'].
  destruct H as (m & -> & Hm & Hm' & Hpre & Hlog' & Hq' & Hb').
  exists m. split_and!; [|done|done]. constructor; cbn; try done.
  apply (buf_inv_weaken m (n + Kcp.rcv_wnd self)); [lia|lia|done].
Qed.

(** ** A data segment *)

Lemma parse_data_inv hist self s :
  rcv_inv hist self → in_width 32 (Seg.sn s) → accept s →
  ∃ self', Kcp.parse_data self s = Ret self' ∧ rcv_inv hist self'.
Proof.
  intros (Hw & n & Hinv) Hsn Hacc. unfold in_width in Hw. unfold Kcp.parse_data.
  destruct (_ || _) eqn:E; [eexists; split; [done|]; split; [done|by exists n]|].
  bool_to_prop. pose proof Hinv as [Hnext Hn Hlog Hq Hb].
  rewrite Hnext in H, H0. rewrite wrap_add_l in H.
  pose proof (len_nonneg hist). pose proof (len_nonneg (Kcp.rcv_queue self)).
  pose proof (timediff_unwrap (Seg.sn s) n Hsn) as Hj.
  set (j := n + timediff (Seg.sn s) (wrap 32 n)) in *.
  assert (Hwin : j < n + Kcp.rcv_wnd self).
  { assert (timediff (Seg.sn s) (wrap 32 (n + Kcp.rcv_wnd self)) < 0) as Hlt by lia.
    destruct (Z.lt_ge_cases j (n + Kcp.rcv_wnd self)) as [|Hge]; [done|].
    pose proof (timediff_range (Seg.sn s) (wrap 32 n)).
    rewrite Hj, timediff_wrap in Hlt by lia. lia. }
  pose proof (buf_inv_len n (n + Kcp.rcv_wnd self) _ ltac:(lia) Hb).
  pose proof (insert_index_spec n (n + Kcp.rcv_wnd self) (n + Kcp.rcv_wnd self) j s
    (Kcp.rcv_buf self) [] (len (Kcp.rcv_buf self))) as Hins.
  destruct (Kcp.insert_index _ _ _) as [[|] k]; cbn [negb mbind comp_bind].
  - eexists; split; [done|]. split; [by rewrite move_buf_rcv_wnd|].
    destruct (move_buf_inv n hist self Hw) as (m & Hm & _); [done|by exists m].
  - destruct Hins as (l1 & l2 & Hl & -> & Hb'); [done|by apply Hacc; [lia|]|lia|lia|lia|done|done|done|done|lia|].
    rewrite app_nil_r in Hb'.
    assert (Kcp.rcv_buf self = l1 ++ l2) as -> by done.
    unfold insert_at. rewrite len_app.
    pose proof (len_nonneg l1). pose proof (len_nonneg l2).
    rewrite !(proj2 (Z.leb_le _ _)) by lia. cbn [andb mbind comp_bind].
    eexists; split; [done|]. split; [by rewrite move_buf_rcv_wnd|].
    rewrite take_app_length', drop_app_length' by (unfold len; lia).
    destruct (move_buf_inv n hist (self <| Kcp.rcv_buf := l1 ++ s :: l2 |>))
      as (m & Hm & _); [done|by constructor|by exists m].
Qed.
End receive.
