(* ===== verification/KcpInv.v ===== *)
(** * The invariant of a KCP endpoint under arbitrary input

    Configuration bounds, the send window with its log, and the receive window
    form one invariant.  [input] keeps it and never panics on any bytes; what
    the bytes may carry is a parameter ([Q]), so the same lemma serves
    untrusted datagrams and those of an honest peer. *)

From S2P Require Import Prelude Bytes Kcp KcpWire KcpMessage KcpReceive.

(** ** The invariant *)

(** What a connection never changes. *)
Class Static : Set := { st_conv : Z; st_mtu : Z; st_rcv_wnd : Z }.

Record conf_ok `{Static} (self : Kcp.t) : Prop := {
  conf_static : Kcp.conv self = st_conv ∧ Kcp.mtu self = st_mtu ∧ Kcp.rcv_wnd self = st_rcv_wnd;
  conf_mtu : KCP_OVERHEAD < Kcp.mtu self < 2 ^ 32;
  conf_mss : Kcp.mss self = Kcp.mtu self - KCP_OVERHEAD;
  conf_conv : in_width 64 (Kcp.conv self);
  conf_current : in_width 32 (Kcp.current self);
  conf_rcv_nxt : in_width 32 (Kcp.rcv_nxt self);
  conf_snd_wnd : in_width 16 (Kcp.snd_wnd self);
  conf_rcv_wnd : in_width 16 (Kcp.rcv_wnd self);
  conf_rmt_wnd : in_width 16 (Kcp.rmt_wnd self);
  conf_cwnd : in_width 16 (Kcp.cwnd self);
  conf_ssthresh : in_width 16 (Kcp.ssthresh self);
  conf_rto : 0 <= Kcp.rx_minrto self <= Kcp.rx_rto self
             ∧ Kcp.rx_rto self <= KcpTiming.rto_max (Kcp.timing self) < 2 ^ 31;
  conf_fast : from_option (λ r, 0 < r < 2 ^ 32) True (Kcp.fastresend self);
}.

(** [s] carries entry [i] of the log under the number [i]. *)
Definition logged (slog : list (Z * list Z)) (s : Seg.t) : Prop :=
  ∃ i, slog !! i = Some (carried s) ∧ Seg.sn s = wrap 32 (Z.of_nat i).

Definition fits (mss : Z) (s : Seg.t) : Prop :=
  in_width 8 (Seg.frg s) ∧ len (Seg.data s) <= mss ∧ bytes_ok (Seg.data s).

(** A segment on the wire. *)
Record wire_seg (conv : Z) (slog : list (Z * list Z)) (s : Seg.t) : Prop := {
  wire_wf : seg_wf s;
  wire_cmd : valid_cmd (Seg.cmd s) = true;
  wire_conv : Seg.conv s = conv;
  wire_bytes : bytes_ok (Seg.data s);
  wire_log : Seg.cmd s = KCP_CMD_PUSH → logged slog s;
}.

(** A segment of [snd_buf]. *)
Definition in_flight (conv mss : Z) (slog : list (Z * list Z)) (s : Seg.t) : Prop :=
  wire_seg conv slog s ∧ Seg.cmd s = KCP_CMD_PUSH ∧ fits mss s.

Record snd_inv (slog : list (Z * list Z)) (self : Kcp.t) : Prop := {
  snd_next : Kcp.snd_nxt self = wrap 32 (len slog);
  snd_buf_ok :
    Forall (in_flight (Kcp.conv self) (Kcp.mss self) slog) (Kcp.snd_buf self);
  snd_queue_ok : Forall (fits (Kcp.mss self)) (Kcp.snd_queue self);
  snd_count : len (Kcp.snd_buf self) <= len slog;
}.

(** A datagram: whole segments, non-empty, within the MTU. *)
Definition good_datagram (conv mtu : Z) (slog : list (Z * list Z)) (d : list Z) : Prop :=
  ∃ segs, segs ≠ [] ∧ d = datagram segs ∧ len d <= mtu
    ∧ Forall (wire_seg conv slog) segs.

Definition ack_ok (a : Z * Z) : Prop := in_width 32 (a.1) ∧ in_width 32 (a.2).

Record out_inv (slog : list (Z * list Z)) (self : Kcp.t) : Prop := {
  out_buf : Kcp.buf self = [];
  out_output :
    Forall (good_datagram (Kcp.conv self) (Kcp.mtu self) slog) (Kcp.output self);
  out_acks : Forall ack_ok (Kcp.acklist self);
}.

Definition kcp_inv `{Static} (P : Z → Seg.t → Prop) (slog : list (Z * list Z))
    (hist : list Seg.t) (self : Kcp.t) : Prop :=
  conf_ok self ∧ snd_inv slog self ∧ out_inv slog self ∧ rcv_inv P hist self.

(** The segment [input] builds from a header and its data. *)
Definition push_segment (h : Kcp.header) (bytes : list Z) : Seg.t :=
  {| Seg.conv := Kcp.h_conv h; Seg.cmd := Kcp.h_cmd h; Seg.frg := Kcp.h_frg h;
     Seg.wnd := Kcp.h_wnd h; Seg.ts := Kcp.h_ts h; Seg.sn := Kcp.h_sn h;
     Seg.una := Kcp.h_una h; Seg.resendts := 0; Seg.rto := 0; Seg.fastack := 0;
     Seg.xmit := 0; Seg.data := bytes |}.

(** Same receive side, same invariant. *)
Lemma rcv_inv_ext P hist self self' :
  Kcp.rcv_nxt self' = Kcp.rcv_nxt self → Kcp.rcv_queue self' = Kcp.rcv_queue self →
  Kcp.rcv_wnd self' = Kcp.rcv_wnd self → Kcp.rcv_buf self' = Kcp.rcv_buf self →
  rcv_inv P hist self → rcv_inv P hist self'.
Proof.
  intros H1 H2 H3 H4 (Hw & n & []). split; [by rewrite H3|].
  exists n. constructor; congruence || (rewrite ?H1, ?H2, ?H3, ?H4; done).
Qed.

(** ** Acknowledgements only remove segments or touch their counters *)

Lemma remove_acked_Forall Q sn l : Forall Q l → Forall Q (Kcp.remove_acked sn l).
Proof.
  induction 1 as [|s l Hs Hl IH]; cbn; [done|].
  destruct (_ =? _); [done|]. destruct (_ <? _); by constructor.
Qed.

Lemma drop_acked_Forall Q una l : Forall Q l → Forall Q (Kcp.drop_acked una l).
Proof.
  induction 1 as [|s l Hs Hl IH]; cbn; [done|]. destruct (_ <? _); [done|by constructor].
Qed.

Lemma count_fastack_Forall conv mss slog sn ts l :
  Forall (in_flight conv mss slog) l →
  Forall (in_flight conv mss slog) (Kcp.count_fastack sn ts l).
Proof.
  induction 1 as [|s l Hs Hl IH]; cbn; [done|].
  destruct (_ <? _); [by constructor|]. constructor; [|done].
  destruct (_ && _); [|done].
  destruct Hs as ([[] ? ? ? ?] & ? & ?). split_and!; done.
Qed.

Lemma remove_acked_len sn l : len (Kcp.remove_acked sn l) <= len l.
Proof.
  induction l as [|s l IH]; cbn [Kcp.remove_acked]; [done|].
  destruct (_ =? _); [rewrite len_cons; lia|]. destruct (_ <? _); rewrite !len_cons; lia.
Qed.

Lemma drop_acked_len una l : len (Kcp.drop_acked una l) <= len l.
Proof.
  induction l as [|s l IH]; cbn [Kcp.drop_acked]; [done|].
  destruct (_ <? _); [|done]. rewrite len_cons. lia.
Qed.

Lemma count_fastack_len sn ts l : len (Kcp.count_fastack sn ts l) = len l.
Proof.
  induction l as [|s l IH]; cbn [Kcp.count_fastack]; [done|].
  destruct (_ <? _); [done|]. rewrite !len_cons. lia.
Qed.

Lemma clamp_spec x lo hi :
  lo <= hi → ∃ y, clamp x lo hi = Ret y ∧ lo <= y <= hi.
Proof. intros H. unfold clamp. case_cmp. eexists; split; [done|]. lia. Qed.

Lemma checked_div_returns a b : b ≠ 0 → checked_div a b = Ret (a / b).
Proof. intros H. unfold checked_div. by rewrite (proj2 (Z.eqb_neq _ _)). Qed.

Lemma div_ceil_returns a b : b ≠ 0 → div_ceil a b = Ret ((a + b - 1) / b).
Proof. intros H. unfold div_ceil. by rewrite (proj2 (Z.eqb_neq _ _)). Qed.

Section ops.
Context `{St : Static} (P : Z → Seg.t → Prop) (slog : list (Z * list Z)) (hist : list Seg.t).

Abbreviation Inv := (kcp_inv P slog hist) (only parsing).

(** Reestablish the invariant after an update of fields it does not bind, or
    whose new values are in range. *)
Ltac frame_inv :=
  match goal with
  | H : kcp_inv _ _ _ _ |- kcp_inv _ _ _ _ =>
      let Hr := fresh in destruct H as ([] & [] & [] & Hr);
      split_and!;
      [constructor; cbn; done || lia | constructor; cbn; done
      | constructor; cbn; done | eapply rcv_inv_ext; [..|exact Hr]; done]
  end.

Lemma set_current_inv self c :
  in_width 32 c → Inv self → Inv (self <| Kcp.current := c |>).
Proof. intros Hc H. frame_inv. Qed.

Lemma set_rmt_wnd_inv self w :
  in_width 16 w → Inv self → Inv (self <| Kcp.rmt_wnd := w |>).
Proof. intros Hw H. frame_inv. Qed.

Lemma set_probe_inv self g : Inv self → Inv (self <| Kcp.probe ::= g |>).
Proof. intros H. frame_inv. Qed.

Lemma ack_push_inv self sn ts :
  ack_ok (sn, ts) → Inv self → Inv (Kcp.ack_push self sn ts).
Proof.
  intros Ha H. unfold Kcp.ack_push.
  assert (Forall ack_ok (Kcp.acklist self ++ [(sn, ts)])).
  { apply Forall_app; split; [apply H|by apply Forall_singleton]. }
  frame_inv.
Qed.

Lemma shrink_buf_inv self : Inv self → Inv (Kcp.shrink_buf self).
Proof. intros H. unfold Kcp.shrink_buf. frame_inv. Qed.

Lemma set_snd_buf_inv self g :
  (∀ l, Forall (in_flight (Kcp.conv self) (Kcp.mss self) slog) l →
        Forall (in_flight (Kcp.conv self) (Kcp.mss self) slog) (g l)) →
  (∀ l, len (g l) <= len l) →
  Inv self → Inv (self <| Kcp.snd_buf ::= g |>).
Proof.
  intros Hg Hl H. assert (Forall (in_flight (Kcp.conv self) (Kcp.mss self) slog)
    (g (Kcp.snd_buf self))) by (apply Hg, H).
  assert (len (g (Kcp.snd_buf self)) <= len slog).
  { etrans; [apply Hl|]. apply H. }
  frame_inv.
Qed.

Lemma parse_una_inv self una : Inv self → Inv (Kcp.parse_una self una).
Proof. apply set_snd_buf_inv; intros l; [apply drop_acked_Forall|apply drop_acked_len]. Qed.

Lemma parse_ack_inv self sn : Inv self → Inv (Kcp.parse_ack self sn).
Proof.
  unfold Kcp.parse_ack. destruct (_ || _); [done|].
  apply set_snd_buf_inv; intros l; [apply remove_acked_Forall|apply remove_acked_len].
Qed.

Lemma parse_fastack_inv self sn ts : Inv self → Inv (Kcp.parse_fastack self sn ts).
Proof.
  unfold Kcp.parse_fastack. destruct (_ || _); [done|].
  apply set_snd_buf_inv; intros l; [apply count_fastack_Forall|by rewrite count_fastack_len].
Qed.

(** The round-trip estimate: the timeout stays in its range. *)
Lemma update_ack_eq self rtt :
  conf_ok self →
  ∃ srtt rttval rto,
    Kcp.update_ack self rtt
    = Ret (self <| Kcp.rx_srtt := srtt |> <| Kcp.rx_rttval := rttval |>
                <| Kcp.rx_rto := rto |>)
    ∧ Kcp.rx_minrto self <= rto <= KcpTiming.rto_max (Kcp.timing self).
Proof.
  intros []. unfold Kcp.update_ack.
  destruct (Kcp.rx_srtt self =? 0).
  - edestruct (clamp_spec) as (y & Hy & Hr); [|erewrite Hy]; [cbn; lia|].
    eexists _, _, y. split; [reflexivity|]. done.
  - edestruct (clamp_spec) as (y & Hy & Hr); [|erewrite Hy]; [cbn; lia|].
    eexists _, _, y. split; [reflexivity|]. done.
Qed.

Lemma update_ack_inv self rtt :
  Inv self → ∃ self', Kcp.update_ack self rtt = Ret self' ∧ Inv self'.
Proof.
  intros H. destruct (update_ack_eq self rtt) as (a & b & r & -> & Hr); [apply H|].
  eexists; split; [done|]. frame_inv.
Qed.

Lemma conf_mss_pos self : conf_ok self → 0 < Kcp.mss self < 2 ^ 32.
Proof. intros []. unfold KCP_OVERHEAD in *. lia. Qed.

(** The congestion window grows within 16 bits; no division by zero. *)
Lemma grow_cwnd_eq self una :
  conf_ok self →
  ∃ c i, Kcp.grow_cwnd self una = Ret (self <| Kcp.cwnd := c |> <| Kcp.incr := i |>)
    ∧ in_width 16 c ∧ (c <= Kcp.rmt_wnd self ∨ c = Kcp.cwnd self).
Proof.
  intros Hc. pose proof (conf_mss_pos self Hc) as Hm. destruct Hc.
  unfold Kcp.grow_cwnd. destruct (_ && _) eqn:E; bool_to_prop.
  2:{ exists (Kcp.cwnd self), (Kcp.incr self). destruct self; cbn; auto. }
  assert (∀ c i, in_width 16 c → ∃ c' i',
    Ret (if Kcp.rmt_wnd self <? c
         then self <| Kcp.cwnd := Kcp.rmt_wnd self |>
                   <| Kcp.incr := Kcp.rmt_wnd self *{64} Kcp.mss self |>
         else self <| Kcp.cwnd := c |> <| Kcp.incr := i |>)
    = Ret (self <| Kcp.cwnd := c' |> <| Kcp.incr := i' |>)
    ∧ in_width 16 c' ∧ (c' <= Kcp.rmt_wnd self ∨ c' = Kcp.cwnd self)) as Hend.
  { intros c i Hci. destruct (Z.ltb_spec (Kcp.rmt_wnd self) c).
    - eexists _, _; split; [done|]. split; [done|left; lia].
    - eexists _, _; split; [done|]. split; [done|left; lia]. }
  destruct (Kcp.cwnd self <? Kcp.ssthresh self); cbn [mbind comp_bind].
  - apply (Hend (Kcp.cwnd self +{16} 1) (Kcp.incr self +{64} Kcp.mss self)).
    by apply wrap_range.
  - rewrite checked_div_returns by (cbn; lia). cbn [mbind comp_bind].
    destruct (_ <=? _) eqn:E2.
    + rewrite div_ceil_returns by lia. cbn [mbind comp_bind].
      match goal with |- context [wrap 16 ?c] =>
        eapply (Hend (wrap 16 c)) end.
      by apply wrap_range.
    + cbn [mbind comp_bind]. by eapply (Hend (Kcp.cwnd self)).
Qed.

Lemma grow_cwnd_inv self una :
  Inv self → ∃ self', Kcp.grow_cwnd self una = Ret self' ∧ Inv self'.
Proof.
  intros H. destruct (grow_cwnd_eq self una) as (c & i & -> & Hc & _); [apply H|].
  eexists; split; [done|]. frame_inv.
Qed.

(** ** One data segment *)

Lemma parse_data_frame self s self' :
  Kcp.parse_data self s = Ret self' →
  ∃ b q n, self'
    = self <| Kcp.rcv_buf := b |> <| Kcp.rcv_queue := q |> <| Kcp.rcv_nxt := n |>.
Proof.
  unfold Kcp.parse_data. destruct (_ || _).
  { intros <-%Ret_inj. exists (Kcp.rcv_buf self), (Kcp.rcv_queue self), (Kcp.rcv_nxt self).
    by destruct self. }
  destruct (Kcp.insert_index _ _ _) as [[|] k]; cbn [negb].
  - cbn [mbind comp_bind]. intros <-%Ret_inj. apply move_buf_frame.
  - intros (self1 & H1 & H2)%bind_ret. apply bind_ret in H1 as (b & _ & H1).
    apply Ret_inj in H1 as <-. apply Ret_inj in H2 as <-.
    destruct (move_buf_frame (self <| Kcp.rcv_buf := b |>)) as (b' & q & n & ->).
    by exists b', q, n.
Qed.

Lemma rcv_nxt_width self : rcv_inv P hist self → in_width 32 (Kcp.rcv_nxt self).
Proof. intros (_ & n & [Hn _ _ _ _]). rewrite Hn. by apply wrap_range. Qed.

Lemma parse_data_kinv self s :
  Inv self → in_width 32 (Seg.sn s) → accept P s →
  ∃ self', Kcp.parse_data self s = Ret self' ∧ Inv self'.
Proof.
  intros (Hc & Hs & Ho & Hr) Hsn Hacc.
  destruct (parse_data_inv P hist self s Hr Hsn Hacc) as (self' & Hp & Hr').
  exists self'. split; [done|].
  apply rcv_nxt_width in Hr' as Hw.
  destruct (parse_data_frame self s self' Hp) as (b & q & n & ->).
  destruct Hc, Hs, Ho. split_and!; [by constructor..|done].
Qed.

Lemma input_push_inv h self buf :
  Inv self → header_ok h buf → (∀ bytes, slice buf 0 (Kcp.h_len h) = Ret bytes →
    accept P (push_segment h bytes)) →
  ∃ self', Kcp.input_push h self buf = Ret self' ∧ Inv self'
    ∧ Kcp.conv self' = Kcp.conv self.
Proof.
  intros H [] Hacc. unfold Kcp.input_push.
  assert (Inv (Kcp.ack_push self (Kcp.h_sn h) (Kcp.h_ts h))) by (by apply ack_push_inv).
  destruct (_ <? _); [|by eexists].
  destruct (_ <=? _); [|by eexists].
  rewrite slice_returns in * by lia. cbn [mbind comp_bind].
  match goal with |- context [Kcp.parse_data ?k ?s] =>
    destruct (parse_data_kinv k s) as (self' & E & Hinv);
      [done|done|by apply Hacc|] end.
  rewrite E. exists self'. split_and!; [done|done|].
  by destruct (parse_data_frame _ _ _ E) as (b & q & n & ->).
Qed.

Lemma input_ack_inv h s :
  Inv (Kcp.in_self s) →
  ∃ s', Kcp.input_ack h s = Ret s' ∧ Inv (Kcp.in_self s')
    ∧ Kcp.in_buf s' = Kcp.in_buf s ∧ Kcp.conv (Kcp.in_self s') = Kcp.conv (Kcp.in_self s).
Proof.
  intros H. unfold Kcp.input_ack.
  assert (∃ self, (if 0 <=? timediff (Kcp.current (Kcp.in_self s)) (Kcp.h_ts h)
      then Kcp.update_ack (Kcp.in_self s) (timediff (Kcp.current (Kcp.in_self s)) (Kcp.h_ts h))
      else Ret (Kcp.in_self s)) = Ret self ∧ Inv self
      ∧ Kcp.conv self = Kcp.conv (Kcp.in_self s)) as (self & -> & Hself & Hconv).
  { destruct (_ <=? _); [|by eexists].
    destruct (update_ack_eq (Kcp.in_self s)
      (timediff (Kcp.current (Kcp.in_self s)) (Kcp.h_ts h))) as (a & b & r & E & Hr);
      [apply H|]. rewrite E. eexists; split; [done|]. split; [frame_inv|done]. }
  cbn [mbind comp_bind].
  assert (Inv (Kcp.shrink_buf (Kcp.parse_ack self (Kcp.h_sn h)))) as Hinv
    by (by apply shrink_buf_inv, parse_ack_inv).
  assert (Kcp.conv (Kcp.shrink_buf (Kcp.parse_ack self (Kcp.h_sn h)))
    = Kcp.conv (Kcp.in_self s)) as Hconv'.
  { rewrite <- Hconv. unfold Kcp.shrink_buf, Kcp.parse_ack. by destruct (_ || _). }
  destruct (negb _); [|destruct (_ && _)]; eexists; split; try reflexivity; done.
Qed.

(** ** The input loop *)

(** What the datagram may contain: [Q buf] says that the rest of the datagram
    starts with an acceptable segment, if it parses at all. *)
Section loop.
Context (conv0 : Z) (Q : list Z → Prop).
Hypothesis Q_bytes : ∀ buf, Q buf → bytes_ok buf.
Hypothesis Q_step : ∀ buf h rest bytes rest',
  Q buf → KCP_OVERHEAD <= len buf → Kcp.read_header conv0 buf = Ret (Ok (h, rest)) →
  slice rest 0 (Kcp.h_len h) = Ret bytes →
  slice rest (Kcp.h_len h) (len rest) = Ret rest' →
  (Kcp.h_cmd h = KCP_CMD_PUSH → accept P (push_segment h bytes)) ∧ Q rest'.

(** Every part of the datagram starts with a well-formed header. *)
Definition Q_reads : Prop := ∀ buf, Q buf → KCP_OVERHEAD <= len buf →
  ∀ e, Kcp.read_header conv0 buf ≠ Ret (Err e).

Lemma input_segment_inv s :
  Inv (Kcp.in_self s) → Kcp.conv (Kcp.in_self s) = conv0 → Q (Kcp.in_buf s) →
  KCP_OVERHEAD <= len (Kcp.in_buf s) →
  ∃ e s', Kcp.input_segment s = Ret (e, s') ∧ Inv (Kcp.in_self s')
    ∧ Kcp.conv (Kcp.in_self s') = conv0
    ∧ (e = None → Q (Kcp.in_buf s') ∧ len (Kcp.in_buf s') < len (Kcp.in_buf s))
    ∧ (Q_reads → e = None).
Proof.
  intros H Hconv HQ Hlen. unfold Kcp.input_segment. rewrite Hconv.
  destruct (read_header_returns conv0 (Kcp.in_buf s) Hlen (Q_bytes _ HQ))
    as [(e & He)|(h & rest & Hrd & Hok & Hrest & Hl & Hhc)].
  { rewrite He. cbn [mbind comp_bind]. eexists _, s. split_and!; [done..|].
    intros Hreads. by destruct (Hreads _ HQ Hlen e). }
  rewrite Hrd. cbn [mbind comp_bind].
  pose proof (ok_len _ _ Hok) as Hdl.
  assert (∃ rest', slice rest (Kcp.h_len h) (len rest) = Ret rest') as (rest' & Hr')
    by (rewrite slice_returns by lia; by eexists).
  assert (∃ bytes, slice rest 0 (Kcp.h_len h) = Ret bytes) as (bytes & Hb)
    by (rewrite slice_returns by lia; by eexists).
  destruct (Q_step _ _ _ _ _ HQ Hlen Hrd Hb Hr') as [Hacc HQ'].
  pose proof (slice_len _ _ _ _ Hr') as Hl'. unfold KCP_OVERHEAD in *.
  set (self1 := Kcp.shrink_buf _). assert (Inv self1) as H1.
  { apply shrink_buf_inv, parse_una_inv, set_rmt_wnd_inv; [apply Hok|done]. }
  assert (Kcp.conv self1 = conv0) as Hconv1 by done.
  match goal with |- ∃ e s', ?m ≫= _ = _ ∧ _ =>
    assert (∃ s2, m = Ret s2 ∧ Inv (Kcp.in_self s2)
      ∧ Kcp.conv (Kcp.in_self s2) = conv0 ∧ Kcp.in_buf s2 = rest) as (s2 & -> & H2 & Hc2 & Hb2)
  end.
  { destruct (Z.eqb_spec (Kcp.h_cmd h) KCP_CMD_ACK).
    - destruct (input_ack_inv h (Kcp.Build_input_state self1 rest (Kcp.in_flag s)
        (Kcp.in_max_ack s) (Kcp.in_latest_ts s)) H1) as (s2 & -> & ? & ? & Hc).
      exists s2. split_and!; try done. by rewrite Hc.
    - destruct (Z.eqb_spec (Kcp.h_cmd h) KCP_CMD_PUSH).
      + destruct (input_push_inv h self1 rest H1 Hok) as (self2 & -> & ? & ?).
        { intros bytes' Hb'. rewrite Hb in Hb'. apply Ret_inj in Hb' as <-. by apply Hacc. }
        cbn [mbind comp_bind]. eexists; split; [done|]. cbn. split_and!; congruence || done.
      + destruct (_ =? _); eexists; (split; [done|]); cbn; split_and!; try done.
        by apply set_probe_inv. }
  cbn [mbind comp_bind]. rewrite Hb2, Hr'. cbn [mbind comp_bind].
  eexists _, _; split; [done|]. cbn. split_and!; [done|done| |done].
  intros _. split; [done|lia].
Qed.

Lemma input_loop_inv fuel : ∀ s,
  Inv (Kcp.in_self s) → Kcp.conv (Kcp.in_self s) = conv0 → Q (Kcp.in_buf s) →
  (length (Kcp.in_buf s) <= fuel)%nat →
  ∃ e s', Kcp.input_loop fuel s = Ret (e, s') ∧ Inv (Kcp.in_self s')
    ∧ (Q_reads → e = None).
Proof.
  induction fuel as [|fuel IH]; intros s H Hconv HQ Hf; cbn [Kcp.input_loop].
  - rewrite (proj2 (Z.leb_gt _ _)); [by eexists _, _|].
    unfold len, KCP_OVERHEAD. lia.
  - destruct (Z.leb_spec KCP_OVERHEAD (len (Kcp.in_buf s))); [|by eexists _, _].
    destruct (input_segment_inv s) as (e & s' & -> & Hinv & Hc & Hnone & Hreads); [done..|].
    cbn [mbind comp_bind]. destruct e as [e|]; [by eexists _, _|].
    destruct Hnone as [HQ' Hl]; [done|].
    apply IH; [done|done|done|]. unfold len in *. lia.
Qed.

Lemma input_inv self c buf :
  Inv self → Kcp.conv self = conv0 → Q buf → in_width 32 c →
  ∃ r self', Kcp.input self c buf = Ret (r, self') ∧ Inv self'
    ∧ (Q_reads → KCP_OVERHEAD <= len buf → ∃ n, r = Ok n).
Proof.
  intros H Hconv HQ Hc. unfold Kcp.input.
  destruct (Z.ltb_spec (len buf) KCP_OVERHEAD); [eexists _, _; split_and!; [done|done|lia]|].
  destruct (input_loop_inv (length buf) (Kcp.Build_input_state
    (self <| Kcp.current := c |>) buf false 0 0)) as (e & s & -> & Hinv & Hreads);
    [by apply set_current_inv|done|done|done|].
  cbn [mbind comp_bind]. destruct e as [e|].
  { eexists _, _. split_and!; [done|done|]. intros Hq. by specialize (Hreads Hq). }
  set (self1 := if _ && _ then _ else _).
  assert (Inv self1) as H1.
  { unfold self1. destruct (_ && _); [by apply parse_fastack_inv|done]. }
  destruct (grow_cwnd_inv self1 (Kcp.snd_una (self <| Kcp.current := c |>)) H1)
    as (self2 & E & H2).
  rewrite E. eexists _, self2. split_and!; [done|done|]. by eexists.
Qed.
End loop.
End ops.

(** ** [input] leaves the send queue alone *)

Abbreviation queue_kept self self' :=
  (Kcp.snd_queue self' = Kcp.snd_queue self) (only parsing).

Lemma update_ack_queue self rtt self' :
  Kcp.update_ack self rtt = Ret self' → queue_kept self self'.
Proof.
  unfold Kcp.update_ack. intros (y & _ & <-%Ret_inj)%bind_ret.
  by destruct (_ =? _).
Qed.

Lemma grow_cwnd_queue self una self' :
  Kcp.grow_cwnd self una = Ret self' → queue_kept self self'.
Proof.
  unfold Kcp.grow_cwnd. destruct (_ && _); [|by intros <-%Ret_inj].
  intros (k & Hk & <-%Ret_inj)%bind_ret.
  assert (queue_kept self k) as Hq.
  { destruct (_ <? _); [by apply Ret_inj in Hk as <-|].
    apply bind_ret in Hk as (q & _ & Hk). destruct (_ <=? _).
    - by apply bind_ret in Hk as (c & _ & <-%Ret_inj).
    - by apply Ret_inj in Hk as <-. }
  destruct (Kcp.rmt_wnd k <? _); exact Hq.
Qed.

Lemma input_push_queue h self buf self' :
  Kcp.input_push h self buf = Ret self' → queue_kept self self'.
Proof.
  unfold Kcp.input_push. destruct (_ <? _); [|by intros <-%Ret_inj].
  destruct (_ <=? _); [|by intros <-%Ret_inj].
  intros (bytes & _ & Hp)%bind_ret.
  by apply parse_data_frame in Hp as (b & q & n & ->).
Qed.

Lemma input_ack_queue h s s' :
  Kcp.input_ack h s = Ret s' → queue_kept (Kcp.in_self s) (Kcp.in_self s').
Proof.
  unfold Kcp.input_ack. intros (k & Hk & Hs)%bind_ret.
  assert (queue_kept (Kcp.in_self s) k) as Hq.
  { destruct (_ <=? _); [by eapply update_ack_queue|by apply Ret_inj in Hk as <-]. }
  assert (queue_kept (Kcp.in_self s) (Kcp.shrink_buf (Kcp.parse_ack k (Kcp.h_sn h)))).
  { unfold Kcp.shrink_buf, Kcp.parse_ack. destruct (_ || _); exact Hq. }
  apply Ret_inj in Hs as <-. destruct (negb _); [|destruct (_ && _)]; done.
Qed.

Lemma input_segment_queue s e s' :
  Kcp.input_segment s = Ret (e, s') → queue_kept (Kcp.in_self s) (Kcp.in_self s').
Proof.
  unfold Kcp.input_segment. intros ([[h buf]|e'] & _ & H)%bind_ret;
    [|by injection H as <- <-].
  apply bind_ret in H as (s2 & Hs2 & H). apply bind_ret in H as (rest & _ & H).
  injection H as <- <-. cbn [Kcp.in_self].
  set (k := Kcp.shrink_buf _) in Hs2. assert (queue_kept (Kcp.in_self s) k) as Hk by done.
  destruct (_ =? _); [apply input_ack_queue in Hs2; by rewrite <- Hk|].
  destruct (_ =? _).
  - apply bind_ret in Hs2 as (k2 & Hp & <-%Ret_inj). apply input_push_queue in Hp.
    cbn. by rewrite <- Hk.
  - destruct (_ =? _); by apply Ret_inj in Hs2 as <-.
Qed.

Lemma input_loop_queue fuel : ∀ s e s',
  Kcp.input_loop fuel s = Ret (e, s') → queue_kept (Kcp.in_self s) (Kcp.in_self s').
Proof.
  induction fuel as [|fuel IH]; intros s e s'; cbn [Kcp.input_loop];
    destruct (_ <=? _); [done|by intros [= <- <-]| |by intros [= <- <-]].
  intros ([[e'|] s1] & H1 & H)%bind_ret; apply input_segment_queue in H1.
  - by injection H as <- <-.
  - apply IH in H. congruence.
Qed.

Lemma input_queue self c buf r self' :
  Kcp.input self c buf = Ret (r, self') → queue_kept self self'.
Proof.
  unfold Kcp.input. destruct (_ <? _); [by intros [= <- <-]|].
  intros ([[e|] s] & Hl & H)%bind_ret; apply input_loop_queue in Hl.
  - by injection H as <- <-.
  - apply bind_ret in H as (k & Hg & H). injection H as <- <-.
    apply grow_cwnd_queue in Hg. rewrite Hg. cbn in Hl. rewrite <- Hl.
    unfold Kcp.parse_fastack. by destruct (_ && _); [destruct (_ || _)|].
Qed.
