(* ===== verification/KcpFlush.v ===== *)
(** * Flushing KCP: datagrams, the send log and the windows

    [flush] packs acknowledgements, probes and data into datagrams of at most
    [mtu] bytes, moves queued segments into the log under consecutive numbers,
    and keeps the invariant of [KcpInv].  So do [update], [send], [recv] and
    [take_output]. *)

From S2P Require Import Prelude Bytes Kcp KcpWire KcpMessage KcpReceive KcpInv.

(** ** Logs grow at the end *)

Lemma logged_mono slog slog' s :
  slog `prefix_of` slog' → logged slog s → logged slog' s.
Proof.
  intros Hp (i & Hi & Hs). exists i. split; [|done]. by eapply prefix_lookup_Some.
Qed.

Lemma wire_seg_mono conv slog slog' s :
  slog `prefix_of` slog' → wire_seg conv slog s → wire_seg conv slog' s.
Proof.
  intros Hp [? ? ? ? Hlog]. constructor; try done. intros Hc. by eapply logged_mono, Hlog.
Qed.

Lemma in_flight_mono conv mss slog slog' s :
  slog `prefix_of` slog' → in_flight conv mss slog s → in_flight conv mss slog' s.
Proof. intros Hp (Hw & Hr). split; [|done]. by eapply wire_seg_mono. Qed.

Lemma good_datagram_mono conv mtu slog slog' d :
  slog `prefix_of` slog' → good_datagram conv mtu slog d → good_datagram conv mtu slog' d.
Proof.
  intros Hp (segs & Hn & Hd & Hl & Hs). exists segs. split_and!; try done.
  eapply Forall_impl; [done|]. intros s. by apply wire_seg_mono.
Qed.

(** ** Packing segments into datagrams *)

(** A datagram under construction, possibly empty. *)
Definition partial (conv mtu : Z) (slog : list (Z * list Z)) (buf : list Z) : Prop :=
  ∃ segs, buf = datagram segs ∧ len buf <= mtu ∧ Forall (wire_seg conv slog) segs.

Definition packing (conv mtu : Z) (slog : list (Z * list Z)) (buf : list Z)
    (output : list (list Z)) : Prop :=
  partial conv mtu slog buf ∧ Forall (good_datagram conv mtu slog) output.

Lemma emit_packing conv mtu slog buf output :
  packing conv mtu slog buf output →
  let '(buf', output') := Kcp.emit_output buf output in
  buf' = [] ∧ Forall (good_datagram conv mtu slog) output'.
Proof.
  intros [(segs & Hb & Hl & Hs) Ho]. destruct buf as [|b buf]; cbn; [done|].
  split; [done|]. apply Forall_app. split; [done|]. apply Forall_singleton.
  exists segs. split_and!; try done. by intros ->.
Qed.

Lemma append_packing conv mtu slog s buf output :
  mtu < 2 ^ 32 → packing conv mtu slog buf output → wire_seg conv slog s →
  KCP_OVERHEAD + len (Seg.data s) <= mtu →
  let '(buf', output') :=
    Kcp.append_segment mtu (KCP_OVERHEAD + len (Seg.data s)) s buf output in
  packing conv mtu slog buf' output'.
Proof.
  intros Hm Hp Hs Hl. unfold Kcp.append_segment.
  pose proof (emit_packing _ _ _ _ _ Hp) as He. destruct Hp as [(segs & Hb & Hbl & Hss) Ho].
  pose proof (len_nonneg buf). pose proof (len_nonneg (Seg.data s)).
  unfold KCP_OVERHEAD in *. rewrite wrap_id by lia.
  destruct (Z.ltb_spec mtu (len buf + (28 + len (Seg.data s)))).
  - destruct (Kcp.emit_output buf output) as [b o]. destruct He as [-> He].
    split; [|done]. exists [s]. rewrite encode_app. cbn [app].
    split_and!; [by rewrite datagram_cons, app_nil_r| |by constructor].
    rewrite len_seg_bytes. unfold KCP_OVERHEAD. lia.
  - split; [|done]. exists (segs ++ [s]). rewrite encode_app.
    split_and!; [by rewrite datagram_snoc, Hb| |by apply Forall_app; split; [|constructor]].
    rewrite len_app, len_seg_bytes. unfold KCP_OVERHEAD. lia.
Qed.

(** ** The invariant inside [flush] *)

Record out_part (slog : list (Z * list Z)) (self : Kcp.t) : Prop := {
  part_packing :
    packing (Kcp.conv self) (Kcp.mtu self) slog (Kcp.buf self) (Kcp.output self);
  part_acks : Forall ack_ok (Kcp.acklist self);
}.

Definition flush_inv `{Static} (P : Z → Seg.t → Prop) (slog : list (Z * list Z))
    (hist : list Seg.t) (self : Kcp.t) : Prop :=
  conf_ok self ∧ snd_inv slog self ∧ out_part slog self ∧ rcv_inv P hist self.

Lemma out_part_of_inv `{Static} slog self : conf_ok self → out_inv slog self → out_part slog self.
Proof.
  intros [] [Hb Ho Ha]. constructor; [|done]. split; [|done]. rewrite Hb.
  exists []. unfold KCP_OVERHEAD in *. rewrite len_nil. split_and!; done || lia.
Qed.

(** A segment without data: acknowledgements and probes. *)
Definition control (conv : Z) (slog : list (Z * list Z)) (s : Seg.t) : Prop :=
  wire_seg conv slog s ∧ Seg.data s = [] ∧ Seg.cmd s ≠ KCP_CMD_PUSH.

Section flush.
Context `{St : Static} (P : Z → Seg.t → Prop) (hist : list Seg.t).

Ltac frame_flush :=
  match goal with
  | H : flush_inv _ _ _ _ |- flush_inv _ _ _ _ =>
      let Hr := fresh in destruct H as ([] & [] & [] & Hr);
      split_and!;
      [constructor; cbn; done || lia | constructor; cbn; done
      | constructor; cbn; done | eapply rcv_inv_ext; [..|exact Hr]; done]
  end.

Lemma control_stamp conv slog s sn ts :
  ack_ok (sn, ts) → control conv slog s →
  control conv slog (s <| Seg.sn := sn |> <| Seg.ts := ts |>).
Proof.
  intros [Hs Ht] ([[] ? ? ? ?] & Hd & Hc). cbn in *.
  split_and!; [|done|done]. constructor; cbn; done || constructor; cbn; done.
Qed.

Lemma flush_acks_packing conv mtu slog acks : ∀ seg buf output,
  KCP_OVERHEAD < mtu < 2 ^ 32 → Forall ack_ok acks → control conv slog seg →
  packing conv mtu slog buf output →
  let '(seg', buf', output') := Kcp.flush_acks mtu acks seg buf output in
  packing conv mtu slog buf' output' ∧ control conv slog seg'
  ∧ Seg.wnd seg' = Seg.wnd seg.
Proof.
  induction acks as [|[sn ts] acks IH]; intros seg buf output Hm Ha Hc Hp;
    cbn [Kcp.flush_acks]; [done|].
  apply Forall_cons in Ha as [Ha Has].
  apply (control_stamp _ _ _ sn ts Ha) in Hc as Hc'.
  pose proof (append_packing conv mtu slog _ buf output ltac:(lia) Hp (proj1 Hc')) as Happ.
  rewrite (proj1 (proj2 Hc')) in Happ. change (KCP_OVERHEAD + len []) with KCP_OVERHEAD in Happ.
  specialize (Happ ltac:(lia)).
  destruct (Kcp.append_segment _ _ _ _ _) as [b o].
  specialize (IH _ b o Hm Has Hc' Happ).
  by destruct (Kcp.flush_acks _ _ _ _ _) as [[seg' b'] o'].
Qed.

Lemma flush_ack_inv slog self seg :
  flush_inv P slog hist self → control (Kcp.conv self) slog seg →
  let '(self', seg') := Kcp.flush_ack self seg in
  flush_inv P slog hist self' ∧ control (Kcp.conv self') slog seg'
  ∧ Kcp.snd_queue self' = Kcp.snd_queue self
  ∧ Seg.wnd seg' = Seg.wnd seg ∧ Kcp.conv self' = Kcp.conv self.
Proof.
  intros H Hc. unfold Kcp.flush_ack.
  pose proof (flush_acks_packing (Kcp.conv self) (Kcp.mtu self) slog (Kcp.acklist self)
    seg (Kcp.buf self) (Kcp.output self)) as Hf.
  destruct (Kcp.flush_acks _ _ _ _ _) as [[seg' b] o].
  destruct Hf as (Hp & Hc' & Hw); [apply H|apply H|done|apply H|].
  split_and!; [frame_flush|done|done|done|done].
Qed.

Lemma probe_wnd_size_inv slog self :
  flush_inv P slog hist self → flush_inv P slog hist (Kcp.probe_wnd_size self).
Proof.
  intros H. unfold Kcp.probe_wnd_size.
  destruct (_ =? _); [destruct (_ =? _); [|destruct (_ <=? _); [|done]]|]; frame_flush.
Qed.

Lemma probe_wnd_size_frame self :
  Kcp.snd_queue (Kcp.probe_wnd_size self) = Kcp.snd_queue self
  ∧ Kcp.conv (Kcp.probe_wnd_size self) = Kcp.conv self.
Proof.
  unfold Kcp.probe_wnd_size.
  by destruct (_ =? _); [destruct (_ =? _); [|destruct (_ <=? _)]|].
Qed.

Lemma flush_probe_command_inv slog self cmd seg :
  flush_inv P slog hist self → control (Kcp.conv self) slog seg →
  valid_cmd cmd = true → cmd ≠ KCP_CMD_PUSH → in_width 8 cmd →
  let '(self', seg') := Kcp.flush_probe_command self cmd seg in
  flush_inv P slog hist self' ∧ control (Kcp.conv self') slog seg'
  ∧ Kcp.snd_queue self' = Kcp.snd_queue self ∧ Seg.wnd seg' = Seg.wnd seg
  ∧ Kcp.conv self' = Kcp.conv self.
Proof.
  intros H Hc Hv Hn Hw. unfold Kcp.flush_probe_command.
  assert (control (Kcp.conv self) slog (seg <| Seg.cmd := cmd |>)) as Hc'.
  { destruct Hc as ([[] ? ? ? ?] & Hd & Hc). cbn in *.
    split_and!; [|done|done]. constructor; cbn; done || constructor; cbn; done. }
  pose proof (append_packing (Kcp.conv self) (Kcp.mtu self) slog
    (seg <| Seg.cmd := cmd |>) (Kcp.buf self) (Kcp.output self)) as Happ.
  pose proof (conf_mtu _ (proj1 H)) as Hm.
  rewrite (proj1 (proj2 Hc')) in Happ.
  change (KCP_OVERHEAD + len []) with KCP_OVERHEAD in Happ.
  destruct (Kcp.append_segment _ _ _ _ _) as [b o].
  specialize (Happ ltac:(lia) (part_packing _ _ (proj1 (proj2 (proj2 H)))) (proj1 Hc')
    ltac:(lia)).
  split_and!; [frame_flush|done|done|done|done].
Qed.

Lemma flush_probe_commands_inv slog self seg :
  flush_inv P slog hist self → control (Kcp.conv self) slog seg →
  let '(self', seg') := Kcp.flush_probe_commands self seg in
  flush_inv P slog hist self' ∧ Kcp.snd_queue self' = Kcp.snd_queue self
  ∧ Seg.wnd seg' = Seg.wnd seg ∧ Kcp.conv self' = Kcp.conv self.
Proof.
  intros H Hc. unfold Kcp.flush_probe_commands.
  set (st1 := if negb _ then _ else _).
  assert (flush_inv P slog hist (st1.1) ∧ control (Kcp.conv (st1.1)) slog (st1.2)
    ∧ Kcp.snd_queue (st1.1) = Kcp.snd_queue self ∧ Seg.wnd (st1.2) = Seg.wnd seg
    ∧ Kcp.conv (st1.1) = Kcp.conv self) as (H1 & Hc1 & Hq1 & Hw1 & Hv1).
  { unfold st1. destruct (negb _); [|done].
    pose proof (flush_probe_command_inv slog self KCP_CMD_WASK seg H Hc) as Hp.
    destruct (Kcp.flush_probe_command _ _ _). by apply Hp. }
  destruct st1 as [self1 seg1]. cbn [fst snd] in *.
  set (st2 := if negb _ then _ else _).
  assert (flush_inv P slog hist (st2.1)
    ∧ Kcp.snd_queue (st2.1) = Kcp.snd_queue self1 ∧ Seg.wnd (st2.2) = Seg.wnd seg1
    ∧ Kcp.conv (st2.1) = Kcp.conv self1) as (H2 & Hq2 & Hw2 & Hv2).
  { unfold st2. destruct (negb _); [|done].
    pose proof (flush_probe_command_inv slog self1 KCP_CMD_WINS seg1 H1 Hc1) as Hp.
    destruct (Kcp.flush_probe_command _ _ _) as [self2 seg2].
    destruct Hp as (? & _ & ? & ? & ?); done. }
  destruct st2 as [self2 seg2]. cbn [fst snd] in *.
  split_and!; [frame_flush|cbn; congruence..].
Qed.

(** ** The send queue and the log *)

(** Numbering one queued segment. *)
Definition numbered (self : Kcp.t) (wnd : Z) (s : Seg.t) : Seg.t :=
  s <| Seg.conv := Kcp.conv self |> <| Seg.cmd := KCP_CMD_PUSH |>
    <| Seg.wnd := wnd |> <| Seg.ts := Kcp.current self |>
    <| Seg.sn := Kcp.snd_nxt self |> <| Seg.una := Kcp.rcv_nxt self |>
    <| Seg.resendts := Kcp.current self |> <| Seg.rto := Kcp.rx_rto self |>
    <| Seg.fastack := 0 |> <| Seg.xmit := 0 |>.

Lemma numbered_in_flight slog self wnd s :
  conf_ok self → in_width 16 wnd → fits (Kcp.mss self) s →
  Kcp.snd_nxt self = wrap 32 (len slog) →
  in_flight (Kcp.conv self) (Kcp.mss self) (slog ++ [carried s]) (numbered self wnd s).
Proof.
  intros Hconf Hw (Hf & Hl & Hb) Hn. pose proof (conf_mss_pos self Hconf). destruct Hconf.
  pose proof (len_nonneg (Seg.data s)).
  split_and!; [|done|done]. constructor; cbn; try done.
  - constructor; cbn; try done; [by rewrite Hn; apply wrap_range|].
    unfold in_width. lia.
  - intros _. exists (length slog). cbn. split; [|done].
    rewrite lookup_app_r by done. by rewrite Nat.sub_diag.
Qed.

Lemma out_part_mono slog slog' self :
  slog `prefix_of` slog' → out_part slog self → out_part slog' self.
Proof.
  intros Hp [[(segs & Hb & Hl & Hs) Ho] Ha]. constructor; [|done]. split.
  - exists segs. split_and!; try done. eapply Forall_impl; [done|].
    intros s. by apply wire_seg_mono.
  - eapply Forall_impl; [done|]. intros d. by apply good_datagram_mono.
Qed.

(** The segments moved are numbered in order and appended to the log. *)
Lemma move_to_snd_buf_inv cwnd wnd queue : ∀ slog self,
  flush_inv P slog hist self → in_width 16 wnd → Kcp.snd_queue self = queue →
  ∃ taken, let self' := Kcp.move_to_snd_buf cwnd wnd queue self in
    flush_inv P (slog ++ (carried <$> taken)) hist self'
    ∧ Kcp.snd_queue self = taken ++ Kcp.snd_queue self'.
Proof.
  induction queue as [|s rest IH]; intros slog self H Hw Hq; cbn [Kcp.move_to_snd_buf].
  { exists []. destruct (_ <? _); by rewrite ?app_nil_r. }
  destruct (_ <? _).
  2:{ exists []. by rewrite ?app_nil_r. }
  fold (numbered self wnd s). set (self1 := self <| Kcp.snd_queue := rest |>
    <| Kcp.snd_nxt ::= λ n, n +{32} 1 |>
    <| Kcp.snd_buf ::= λ l, l ++ [numbered self wnd s] |>).
  destruct (IH (slog ++ [carried s]) self1) as (taken & Hinv & Htaken); [|done|done|].
  { destruct H as (Hconf & [Hn Hb Hqs] & Ho & Hr).
    rewrite Hq in Hqs. apply Forall_cons in Hqs as [Hs Hqs].
    pose proof (numbered_in_flight slog self wnd s Hconf Hw Hs Hn) as Hfl.
    assert (slog `prefix_of` slog ++ [carried s]) as Hpre by (by eexists).
    pose proof (out_part_mono _ _ _ Hpre Ho) as []. destruct Hconf. unfold self1.
    split_and!; [by constructor|constructor; cbn|by constructor|].
    - rewrite Hn, len_app, wrap_add_l. done.
    - apply Forall_app. split; [|by apply Forall_singleton].
      eapply Forall_impl; [done|]. intros x. by apply in_flight_mono.
    - done.
    - rewrite !len_app, !len_cons, (@len_nil Seg.t), (@len_nil (Z * list Z)). lia.
    - by eapply rcv_inv_ext; [..|exact Hr]. }
  exists (s :: taken). split; [|by rewrite Hq; cbn; rewrite <- Htaken].
  rewrite fmap_cons. by rewrite <- (assoc_L (++)) in Hinv.
Qed.

(** ** Retransmission *)

Definition flush_st_ok (conv mtu : Z) (slog : list (Z * list Z)) (resent : option Z)
    (st : Kcp.flush_state) : Prop :=
  packing conv mtu slog (Kcp.fl_buf st) (Kcp.fl_output st)
  ∧ (resent = None → Kcp.fl_change st = 0).

(** A decision changes timers and counters, never what the segment carries. *)
Lemma flush_decide_spec self resent rtomin rto_max seg st :
  let '(_, seg', st') := Kcp.flush_decide self resent rtomin rto_max seg st in
  (∃ rs r f x, seg' = Seg.Build_t (Seg.conv seg) (Seg.cmd seg) (Seg.frg seg)
    (Seg.wnd seg) (Seg.ts seg) (Seg.sn seg) (Seg.una seg) rs r f x (Seg.data seg))
  ∧ Kcp.fl_buf st' = Kcp.fl_buf st ∧ Kcp.fl_output st' = Kcp.fl_output st
  ∧ (resent = None → Kcp.fl_change st' = Kcp.fl_change st).
Proof.
  unfold Kcp.flush_decide. destruct (_ =? _).
  { split_and!; try done. do 4 eexists; reflexivity. }
  destruct (_ <=? _).
  { split_and!; try done. destruct (negb _); do 4 eexists; reflexivity. }
  destruct (_ && _) eqn:E.
  - split_and!; try done; [do 4 eexists; reflexivity|].
    intros ->. done.
  - split_and!; try done.
    exists (Seg.resendts seg), (Seg.rto seg), (Seg.fastack seg), (Seg.xmit seg).
    by destruct seg.
Qed.

Lemma flush_segment_inv slog self wnd resent rtomin rto_max seg st :
  conf_ok self → in_width 16 wnd →
  in_flight (Kcp.conv self) (Kcp.mss self) slog seg →
  flush_st_ok (Kcp.conv self) (Kcp.mtu self) slog resent st →
  let '(seg', st') := Kcp.flush_segment self wnd resent rtomin rto_max seg st in
  in_flight (Kcp.conv self) (Kcp.mss self) slog seg'
  ∧ flush_st_ok (Kcp.conv self) (Kcp.mtu self) slog resent st'.
Proof.
  intros Hconf Hw (Hwire & Hcmd & Hfit) [Hp Hch]. unfold Kcp.flush_segment.
  pose proof (flush_decide_spec self resent rtomin rto_max seg st) as Hd.
  destruct (Kcp.flush_decide _ _ _ _ _ _) as [[send seg1] st1].
  destruct Hd as ((rs & r & f & x & ->) & Hb & Ho & Hch1).
  destruct Hwire as [[] ? ? ? ?]. destruct Hconf.
  destruct send.
  - match goal with |- context [Kcp.append_segment _ _ ?s _ _] => set (seg2 := s) end.
    assert (in_flight (Kcp.conv self) (Kcp.mss self) slog seg2) as Hfl
      by (split_and!; [constructor; cbn; done || by constructor|done|done]).
    pose proof (append_packing (Kcp.conv self) (Kcp.mtu self) slog seg2 (Kcp.fl_buf st)
      (Kcp.fl_output st) ltac:(lia) Hp (proj1 Hfl)) as Happ.
    destruct Hfit as (_ & Hlen & _). pose proof (len_nonneg (Seg.data seg)).
    change (Seg.data seg2) with (Seg.data seg) in Happ.
    specialize (Happ ltac:(unfold KCP_OVERHEAD in *; lia)).
    rewrite Hb, Ho. change (KcpSegment.data _) with (Seg.data seg).
    rewrite wrap_id by (unfold KCP_OVERHEAD in *; lia).
    destruct (Kcp.append_segment _ _ _ _ _) as [b o].
    split; [done|]. split; [done|]. cbn. intros Hr. by rewrite Hch1, Hch.
  - split; [split_and!; [by constructor|done|done]|].
    split; [by rewrite Hb, Ho|]. intros Hr. by rewrite Hch1, Hch.
Qed.

Lemma flush_segments_inv slog self wnd resent rtomin rto_max l : ∀ st,
  conf_ok self → in_width 16 wnd →
  Forall (in_flight (Kcp.conv self) (Kcp.mss self) slog) l →
  flush_st_ok (Kcp.conv self) (Kcp.mtu self) slog resent st →
  let '(l', st') := Kcp.flush_segments self wnd resent rtomin rto_max l st in
  Forall (in_flight (Kcp.conv self) (Kcp.mss self) slog) l'
  ∧ flush_st_ok (Kcp.conv self) (Kcp.mtu self) slog resent st'.
Proof.
  induction l as [|s l IH]; intros st Hc Hw Hl Hst; cbn [Kcp.flush_segments]; [done|].
  apply Forall_cons in Hl as [Hs Hl].
  pose proof (flush_segment_inv slog self wnd resent rtomin rto_max s st Hc Hw Hs Hst) as H.
  destruct (Kcp.flush_segment _ _ _ _ _ _ _) as [s' st1]. destruct H as [Hs' Hst1].
  specialize (IH st1 Hc Hw Hl Hst1).
  destruct (Kcp.flush_segments _ _ _ _ _ _ _) as [l' st2]. destruct IH as [Hl' Hst2].
  split; [by constructor|done].
Qed.

Lemma flush_segments_len self wnd resent rtomin rto_max l : ∀ st,
  len (Kcp.flush_segments self wnd resent rtomin rto_max l st).1 = len l.
Proof.
  induction l as [|seg l IH]; intros st; cbn [Kcp.flush_segments]; [done|].
  destruct (Kcp.flush_segment _ _ _ _ _ _ _) as [seg' st']. specialize (IH st').
  destruct (Kcp.flush_segments _ _ _ _ _ l st') as [l' st'']. cbn in *. by rewrite !len_cons, IH.
Qed.

(** ** [flush] and [update] *)

(** The queue moves to the end of the log; nothing else is lost or added. *)
Definition log_step (slog : list (Z * list Z)) (self : Kcp.t)
    (slog' : list (Z * list Z)) (self' : Kcp.t) : Prop :=
  slog `prefix_of` slog'
  ∧ slog' ++ (carried <$> Kcp.snd_queue self')
    = slog ++ (carried <$> Kcp.snd_queue self).

Lemma log_step_refl slog self self' :
  Kcp.snd_queue self' = Kcp.snd_queue self → log_step slog self slog self'.
Proof. intros H. split; [done|]. by rewrite H. Qed.

(** The congestion reaction touches [ssthresh], [cwnd] and [incr] only. *)
Lemma flush_congestion_eq self cwnd0 change lost :
  conf_ok self → in_width 16 cwnd0 →
  (Kcp.fastresend self = None → change = 0) →
  ∃ ss c i,
    Kcp.flush_congestion self cwnd0 (Kcp.fastresend self) change lost
    = Ret (self <| Kcp.ssthresh := ss |> <| Kcp.cwnd := c |> <| Kcp.incr := i |>)
    ∧ in_width 16 ss ∧ 1 <= c < 2 ^ 16.
Proof.
  intros Hconf Hc0 Hch. pose proof (wrap_range 16 (Kcp.snd_nxt self -{32} Kcp.snd_una self)
    ltac:(lia)) as Hin.
  pose proof (conf_fast _ Hconf) as Hfast. destruct Hconf. unfold in_width in *.
  pose proof (half_bound _ (proj1 Hin)). pose proof (half_bound _ (proj1 Hc0)).
  set (ss1 := (wrap 16 (Kcp.snd_nxt self -{32} Kcp.snd_una self) / 2) `max` KCP_THRESH_MIN).
  assert (0 <= ss1 < 2 ^ 16) as Hss1 by (unfold ss1, KCP_THRESH_MIN; lia).
  set (self1 ss c i := self <| Kcp.ssthresh := ss |> <| Kcp.cwnd := c |> <| Kcp.incr := i |>).
  assert (∀ ss c i, 0 <= ss < 2 ^ 16 → 0 <= c < 2 ^ 16 → ∃ ss' c' i',
    (let k := if lost
       then (self1 ss c i) <| Kcp.ssthresh := (cwnd0 / 2) `max` KCP_THRESH_MIN |>
              <| Kcp.cwnd := 1 |> <| Kcp.incr := Kcp.mss (self1 ss c i) |>
       else self1 ss c i in
     if Kcp.cwnd k <? 1 then k <| Kcp.cwnd := 1 |> <| Kcp.incr := Kcp.mss k |> else k)
    = self1 ss' c' i' ∧ 0 <= ss' < 2 ^ 16 ∧ 1 <= c' < 2 ^ 16) as Hend.
  { intros ss c i Hs Hc. destruct lost; cbn zeta.
    - exists ((cwnd0 / 2) `max` KCP_THRESH_MIN), 1, (Kcp.mss self).
      split_and!; try done; unfold KCP_THRESH_MIN; lia.
    - change (Kcp.cwnd (self1 ss c i)) with c.
      destruct (Z.ltb_spec c 1).
      + exists ss, 1, (Kcp.mss self). split_and!; done || lia.
      + exists ss, c, i. split_and!; done || lia. }
  unfold Kcp.flush_congestion. destruct (Z.ltb_spec 0 change) as [Hpos|].
  - destruct (Kcp.fastresend self) as [r|] eqn:Hr; [|specialize (Hch eq_refl); lia].
    cbn [unwrap mbind comp_bind]. cbn in Hfast.
    destruct (Hend ss1 (((ss1 + r) `min` U32_MAX) `min` U16_MAX)
      ((((ss1 + r) `min` U32_MAX) `min` U16_MAX) *{64} Kcp.mss self))
      as (ss' & c' & i' & E & Hs' & Hc'); [done|unfold U32_MAX, U16_MAX; lia|].
    exists ss', c', i'. split; [|done]. exact (f_equal Ret E).
  - cbn [mbind comp_bind].
    destruct (Hend (Kcp.ssthresh self) (Kcp.cwnd self) (Kcp.incr self))
      as (ss' & c' & i' & E & Hs' & Hc'); [done|done|].
    exists ss', c', i'. split; [|done]. etrans; [|exact (f_equal Ret E)].
    by destruct self.
Qed.

Lemma wnd_unused_width self : conf_ok self → in_width 16 (Kcp.wnd_unused self).
Proof.
  intros _. unfold Kcp.wnd_unused. destruct (_ <? _); [by apply wrap_range|done].
Qed.

Lemma flush_header_control slog self :
  conf_ok self →
  control (Kcp.conv self) slog
    (Seg.default <| Seg.conv := Kcp.conv self |> <| Seg.cmd := KCP_CMD_ACK |>
       <| Seg.wnd := Kcp.wnd_unused self |> <| Seg.una := Kcp.rcv_nxt self |>).
Proof.
  intros H. pose proof (wnd_unused_width self H). destruct H.
  split_and!; [|done|done]. constructor; cbn; try done. by constructor.
Qed.

(** The tail of [flush], from the segments of [snd_buf] on. *)
Lemma flush_tail_inv slog self wnd cwnd0 rtomin rto_max :
  flush_inv P slog hist self → in_width 16 wnd → in_width 16 cwnd0 →
  ∃ self',
    (let '(segs, st) :=
       Kcp.flush_segments self wnd (Kcp.fastresend self) rtomin rto_max (Kcp.snd_buf self)
         (Kcp.Build_flush_state (Kcp.buf self) (Kcp.output self) false 0) in
     let '(b, o) := Kcp.emit_output (Kcp.fl_buf st) (Kcp.fl_output st) in
     let k := self <| Kcp.snd_buf := segs |> <| Kcp.buf := b |> <| Kcp.output := o |> in
     k ← Kcp.flush_congestion k cwnd0 (Kcp.fastresend self) (Kcp.fl_change st) (Kcp.fl_lost st);
     Ret (Ok tt, k)) = Ret (@Ok KcpError.t unit tt, self')
    ∧ kcp_inv P slog hist self' ∧ Kcp.snd_queue self' = Kcp.snd_queue self
    ∧ 1 <= Kcp.cwnd self'.
Proof.
  intros (Hconf & Hs & Ho & Hr) Hw Hc0.
  pose proof (flush_segments_inv slog self wnd (Kcp.fastresend self) rtomin rto_max
    (Kcp.snd_buf self) (Kcp.Build_flush_state (Kcp.buf self) (Kcp.output self) false 0)
    Hconf Hw (snd_buf_ok _ _ Hs)) as Hf.
  match type of Hf with context [Kcp.flush_segments ?a ?b ?c ?d ?e ?l ?st] =>
    pose proof (flush_segments_len a b c d e l st) as Hlen end.
  destruct (Kcp.flush_segments _ _ _ _ _ _ _) as [segs st].
  destruct Hf as [Hsegs [Hp Hch]]; [split; [apply Ho|done]|].
  apply emit_packing in Hp as He.
  destruct (Kcp.emit_output _ _) as [b o]. destruct He as [-> Hout].
  cbn beta iota zeta. set (k := self <| Kcp.snd_buf := segs |> <| Kcp.buf := [] |> <| Kcp.output := o |>).
  destruct (flush_congestion_eq k cwnd0 (Kcp.fl_change st) (Kcp.fl_lost st))
    as (ss & c & i & E & Hss & Hc); [by destruct Hconf|done|done|].
  change (Kcp.fastresend k) with (Kcp.fastresend self) in E. rewrite E.
  cbn [mbind comp_bind]. eexists; split; [done|]. unfold in_width in *.
  destruct Hconf, Hs, Ho. split; [split_and!; [|constructor; [done..|]|by constructor|]|].
  - constructor; cbn; try done. unfold in_width. lia.
  - cbn in *. by rewrite Hlen.
  - by eapply rcv_inv_ext; [..|exact Hr].
  - split; [done|cbn; lia].
Qed.

Lemma flush_kinv slog self :
  kcp_inv P slog hist self →
  ∃ r self' slog', Kcp.flush self = Ret (r, self') ∧ kcp_inv P slog' hist self'
    ∧ log_step slog self slog' self'.
Proof.
  intros (Hconf & Hs & Ho & Hr). unfold Kcp.flush.
  destruct (Kcp.updated self); cbn [negb].
  2:{ exists (Err KcpError.NeedUpdate), self, slog. split_and!; [done..|by apply log_step_refl]. }
  assert (flush_inv P slog hist self) as H
    by (split_and!; [done|done|by apply out_part_of_inv|done]).
  pose proof (flush_header_control slog self Hconf) as Hctl.
  pose proof (flush_ack_inv slog self _ H Hctl) as H1.
  destruct (Kcp.flush_ack _ _) as [self1 seg1].
  destruct H1 as (H1 & Hc1 & Hq1 & Hw1 & Hv1).
  apply probe_wnd_size_inv in H1 as H2.
  destruct (probe_wnd_size_frame self1) as [Hq2 Hv2].
  pose proof (flush_probe_commands_inv slog (Kcp.probe_wnd_size self1) seg1 H2) as H3.
  rewrite Hv2 in H3. specialize (H3 Hc1).
  destruct (Kcp.flush_probe_commands _ _) as [self3 seg3].
  destruct H3 as (H3 & Hq3 & Hw3 & Hv3).
  assert (in_width 16 (Seg.wnd seg3)) as Hw.
  { rewrite Hw3, Hw1. by apply wnd_unused_width. }
  set (cwnd0 := if Kcp.congestion_control self3 then _ else _).
  assert (in_width 16 cwnd0) as Hcw.
  { destruct H3 as ([] & _). unfold in_width, cwnd0 in *.
    destruct (Kcp.congestion_control self3); lia. }
  destruct (move_to_snd_buf_inv cwnd0 (Seg.wnd seg3) (Kcp.snd_queue self3) slog self3 H3 Hw)
    as (taken & H4 & Hq4); [done|].
  set (self4 := Kcp.move_to_snd_buf _ _ _ _) in *.
  cbn beta iota zeta. fold self4.
  match goal with |- context [Kcp.flush_segments _ _ _ ?rtomin ?rto_max] =>
    destruct (flush_tail_inv (slog ++ (carried <$> taken)) self4 (Seg.wnd seg3) cwnd0
      rtomin rto_max H4 Hw Hcw) as (self5 & E & H5 & Hq5 & _) end.
  cbn beta iota zeta in E. fold cwnd0. rewrite E.
  exists (Ok tt), self5, (slog ++ (carried <$> taken)). split_and!; [done|done|].
  split; [by eexists|]. rewrite Hq5, <- (assoc_L (++)), <- fmap_app, <- Hq4.
  congruence.
Qed.

Lemma update_kinv slog self c :
  kcp_inv P slog hist self → in_width 32 c →
  ∃ r self' slog', Kcp.update self c = Ret (r, self') ∧ kcp_inv P slog' hist self'
    ∧ log_step slog self slog' self'.
Proof.
  intros H Hc. unfold Kcp.update.
  set (self1 := if negb (Kcp.updated _) then _ else _).
  set (st := if negb ((_ <=? _) && (_ <? _)) then _ else _).
  assert (kcp_inv P slog hist (st.1) ∧ Kcp.snd_queue (st.1) = Kcp.snd_queue self) as [H1 Hq1].
  { destruct H as ([] & [] & [] & Hr).
    unfold st, self1. destruct (negb (_ && _)), (negb _); (split; [|done]);
      (split_and!; [by constructor..|by eapply rcv_inv_ext; [..|exact Hr]]). }
  destruct st as [self2 slap]. cbn [fst] in *.
  destruct (_ <=? _).
  2:{ exists (Ok tt), self2, slog. split_and!; [done|done|by apply log_step_refl]. }
  set (self3 := if _ <=? _ then _ else _).
  assert (kcp_inv P slog hist self3 ∧ Kcp.snd_queue self3 = Kcp.snd_queue self) as [H3 Hq3].
  { destruct H1 as ([] & [] & [] & Hr). unfold self3.
    destruct (_ <=? _); (split; [|done]);
      (split_and!; [by constructor..|by eapply rcv_inv_ext; [..|exact Hr]]). }
  destruct (flush_kinv slog self3 H3) as (r & self4 & slog' & -> & H4 & [Hp Hl]).
  exists r, self4, slog'. split_and!; [done|done|]. split; [done|]. by rewrite Hl, Hq3.
Qed.
End flush.

(** ** What flushing leaves alone *)

(** Segments accepted by [send] and not yet acknowledged. *)
Definition pending (self : Kcp.t) : Z := len (Kcp.snd_buf self) + len (Kcp.snd_queue self).

Definition untouched (self self' : Kcp.t) : Prop :=
  Kcp.updated self' = Kcp.updated self ∧ Kcp.snd_buf self' = Kcp.snd_buf self
  ∧ Kcp.snd_queue self' = Kcp.snd_queue self.

#[local] Instance untouched_trans : Transitive untouched.
Proof. intros x y z (? & ? & ?) (? & ? & ?). split_and!; congruence. Qed.

Lemma flush_ack_untouched self seg : untouched self (Kcp.flush_ack self seg).1.
Proof. unfold Kcp.flush_ack. by destruct (Kcp.flush_acks _ _ _ _ _) as [[? ?] ?]. Qed.

Lemma probe_wnd_size_untouched self : untouched self (Kcp.probe_wnd_size self).
Proof.
  unfold Kcp.probe_wnd_size. destruct (_ =? 0); [|done].
  destruct (_ =? 0); [done|]. by destruct (_ <=? _).
Qed.

Lemma flush_probe_commands_untouched self seg :
  untouched self (Kcp.flush_probe_commands self seg).1.
Proof.
  unfold Kcp.flush_probe_commands, Kcp.flush_probe_command.
  destruct (negb (Z.land (Kcp.probe self) KCP_ASK_SEND =? 0));
    [destruct (Kcp.append_segment _ _ _ _ _)|]; cbn beta iota zeta;
    (destruct (negb (Z.land _ KCP_ASK_TELL =? 0)); [destruct (Kcp.append_segment _ _ _ _ _)|]); done.
Qed.

Lemma move_to_snd_buf_pending cwnd wnd queue : ∀ self,
  Kcp.snd_queue self = queue →
  Kcp.updated (Kcp.move_to_snd_buf cwnd wnd queue self) = Kcp.updated self
  ∧ pending (Kcp.move_to_snd_buf cwnd wnd queue self) = pending self.
Proof.
  induction queue as [|s queue IH]; intros self Hq; cbn [Kcp.move_to_snd_buf];
    destruct (_ <? _); [done..| |done].
  match goal with |- context [Kcp.move_to_snd_buf cwnd wnd queue ?k] => set (self1 := k) end.
  destruct (IH self1 eq_refl) as [-> ->]. split; [done|]. unfold pending, self1. rewrite Hq.
  cbn. rewrite len_app, !len_cons, (@len_nil Seg.t). lia.
Qed.

Lemma flush_congestion_untouched self cwnd0 resent change lost self' :
  Kcp.flush_congestion self cwnd0 resent change lost = Ret self' → untouched self self'.
Proof.
  unfold Kcp.flush_congestion. intros (k & Hk & Hr)%bind_ret.
  assert (untouched self k) as Hu.
  { destruct (0 <? change); [|by apply Ret_inj in Hk as <-].
    apply bind_ret in Hk as (r & _ & Hk). by apply Ret_inj in Hk as <-. }
  etrans; [exact Hu|]. apply Ret_inj in Hr as <-. destruct lost; cbn; [done|].
  by destruct (_ <? 1).
Qed.

Lemma flush_frame self r self' :
  Kcp.flush self = Ret (r, self') → Kcp.updated self = true →
  r = Ok tt ∧ Kcp.updated self' = true ∧ pending self' = pending self.
Proof.
  unfold Kcp.flush. intros Hf Hup. rewrite Hup in Hf. cbn [negb] in Hf.
  match type of Hf with context [Kcp.flush_ack self ?s] =>
    pose proof (flush_ack_untouched self s) as (U1 & B1 & Q1);
    destruct (Kcp.flush_ack self s) as [k1 seg1] end. cbn [fst] in *.
  destruct (probe_wnd_size_untouched k1) as (U2 & B2 & Q2).
  pose proof (flush_probe_commands_untouched (Kcp.probe_wnd_size k1) seg1) as (U3 & B3 & Q3).
  destruct (Kcp.flush_probe_commands _ _) as [k3 seg3]. cbn [fst] in *. cbn zeta in Hf.
  match type of Hf with context [Kcp.move_to_snd_buf ?c ?w ?q k3] =>
    destruct (move_to_snd_buf_pending c w q k3 eq_refl) as [U4 P4];
    set (k4 := Kcp.move_to_snd_buf c w q k3) in * end.
  match type of Hf with context [Kcp.flush_segments ?a ?b ?c ?d ?e ?l ?st] =>
    pose proof (flush_segments_len a b c d e l st) as L5;
    destruct (Kcp.flush_segments a b c d e l st) as [segs st5] end. cbn [fst] in *.
  destruct (Kcp.emit_output _ _) as [b o].
  apply bind_ret in Hf as (k6 & H6%flush_congestion_untouched & Hr).
  apply Ret_inj in Hr as [= <- <-]. destruct H6 as (U6 & B6 & Q6). cbn in U6, B6, Q6.
  split; [done|]. split; [congruence|]. unfold pending in *. rewrite B6, Q6, L5, P4. congruence.
Qed.

Lemma update_frame self now r self' :
  Kcp.update self now = Ret (r, self') →
  r = Ok tt ∧ Kcp.updated self' = true ∧ pending self' = pending self.
Proof.
  unfold Kcp.update. cbn zeta. intros Hu.
  set (k1 := if negb (Kcp.updated _) then _ else _) in Hu.
  assert (Kcp.updated k1 = true ∧ pending k1 = pending self) as [U1 P1].
  { unfold k1. cbn. by destruct (Kcp.updated self) eqn:E; cbn. }
  set (st := if negb ((_ <=? _) && (_ <? _)) then _ else _) in Hu.
  assert (Kcp.updated (st.1) = true ∧ pending (st.1) = pending self) as [U2 P2].
  { unfold st. clearbody k1. destruct (negb _); (split; [exact U1|exact P1]). }
  destruct st as [k2 slap]. cbn [fst] in *. destruct (_ <=? _).
  2:{ by apply Ret_inj in Hu as [= <- <-]. }
  apply bind_ret in Hu as ([r' k4] & Hf & Hr). apply Ret_inj in Hr as [= <- <-].
  apply flush_frame in Hf as (-> & U4 & P4).
  - split_and!; [done|done|]. rewrite P4, <- P2. by destruct (_ <=? _).
  - by destruct (_ <=? _).
Qed.
