(* ===== verification/KcpEmit.v ===== *)
(** * What a flush puts on the wire

    The datagrams of one [flush], exactly: the acknowledgements, the window
    probes and the data segments that are due, in this order, packed one after
    the other.  The rest of the endpoint changes by [flush_core]. *)

From S2P Require Import Prelude Bytes Kcp KcpWire KcpMessage KcpReceive KcpInv KcpFlush.

(** ** Packing *)

(** [segs] went, in order, into the datagrams after [out0] and into [buf]. *)
Definition packed (segs : list Seg.t) (out0 out : list (list Z)) (buf : list Z) : Prop :=
  ∃ groups last, out = out0 ++ (datagram <$> groups) ∧ buf = datagram last
    ∧ mjoin groups ++ last = segs ∧ Forall (λ g, g ≠ []) groups.

Lemma datagram_nil segs : datagram segs = [] → segs = [].
Proof.
  destruct segs as [|s segs]; [done|]. rewrite datagram_cons. intros H.
  apply (f_equal len) in H. rewrite len_app, len_seg_bytes in H.
  pose proof (len_nonneg (Seg.data s)). pose proof (len_nonneg (datagram segs)).
  unfold KCP_OVERHEAD in H. rewrite (@len_nil Z) in H. lia.
Qed.

Lemma packed_start out0 : packed [] out0 out0 [].
Proof. exists [], []. by rewrite app_nil_r. Qed.

Lemma emit_packed segs out0 out buf :
  packed segs out0 out buf →
  let '(b, o) := Kcp.emit_output buf out in b = [] ∧ packed segs out0 o [].
Proof.
  intros (groups & last & -> & -> & <- & Hne). unfold Kcp.emit_output.
  destruct (datagram last) as [|x d] eqn:Ed.
  - apply datagram_nil in Ed as ->. split; [done|]. by exists groups, [].
  - split; [done|]. exists (groups ++ [last]), []. rewrite fmap_app, join_app. cbn.
    rewrite Ed, !app_nil_r, (assoc_L (++)). split_and!; [done|done|done|].
    apply Forall_app. split; [done|]. apply Forall_singleton. by intros ->.
Qed.

Lemma append_packed mtu need s segs out0 out buf :
  packed segs out0 out buf →
  let '(b, o) := Kcp.append_segment mtu need s buf out in packed (segs ++ [s]) out0 o b.
Proof.
  intros Hp. unfold Kcp.append_segment. pose proof (emit_packed _ _ _ _ Hp) as He.
  destruct (_ <? _).
  - destruct (Kcp.emit_output buf out) as [b o]. destruct He as [-> (g & l & -> & Hl & <- & Hne)].
    symmetry in Hl. apply datagram_nil in Hl as ->. exists g, [s].
    rewrite app_nil_r, encode_app. cbn [app]. split_and!; try done.
    by rewrite datagram_cons, app_nil_r.
  - destruct Hp as (g & l & -> & -> & <- & Hne). exists g, (l ++ [s]).
    by rewrite encode_app, datagram_snoc, (assoc_L (++)).
Qed.

(** Nothing is left in the buffer: the output is whole datagrams. *)
Lemma packed_groups segs out0 out :
  packed segs out0 out [] →
  ∃ groups, out = out0 ++ (datagram <$> groups) ∧ mjoin groups = segs
    ∧ Forall (λ g, g ≠ []) groups.
Proof.
  intros (g & l & -> & Hl & <- & Hne). symmetry in Hl. apply datagram_nil in Hl as ->.
  exists g. by rewrite app_nil_r.
Qed.

(** ** The control segments *)

(** The header of a flush: every segment carries its window and [una]. *)
Definition flush_header (self : Kcp.t) : Seg.t :=
  Seg.default <| Seg.conv := Kcp.conv self |> <| Seg.cmd := KCP_CMD_ACK |>
    <| Seg.wnd := Kcp.wnd_unused self |> <| Seg.una := Kcp.rcv_nxt self |>.

Definition stamped (hdr : Seg.t) (a : Z * Z) : Seg.t :=
  hdr <| Seg.sn := a.1 |> <| Seg.ts := a.2 |>.

Definition ack_segments (self : Kcp.t) : list Seg.t :=
  stamped (flush_header self) <$> Kcp.acklist self.

(** The header after the acknowledgements. *)
Definition last_header (self : Kcp.t) : Seg.t :=
  default (flush_header self) (last (ack_segments self)).

Definition asks (self : Kcp.t) (flag : Z) : bool := negb (Z.land (Kcp.probe self) flag =? 0).

Definition probe_segments (self : Kcp.t) : list Seg.t :=
  let probe := Kcp.probe_wnd_size self in
  (if asks probe KCP_ASK_SEND then [(last_header self) <| Seg.cmd := KCP_CMD_WASK |>] else [])
  ++ (if asks probe KCP_ASK_TELL then [(last_header self) <| Seg.cmd := KCP_CMD_WINS |>] else []).

Lemma flush_acks_packed mtu acks : ∀ hdr segs out0 buf out,
  packed segs out0 out buf →
  let '(hdr', b, o) := Kcp.flush_acks mtu acks hdr buf out in
  packed (segs ++ (stamped hdr <$> acks)) out0 o b
  ∧ hdr' = default hdr (last (stamped hdr <$> acks)).
Proof.
  induction acks as [|[n t] acks IH]; intros hdr segs out0 buf out Hp; cbn [Kcp.flush_acks].
  { by rewrite app_nil_r. }
  fold (stamped hdr (n, t)).
  pose proof (append_packed mtu KCP_OVERHEAD (stamped hdr (n, t)) _ _ _ _ Hp) as H.
  destruct (Kcp.append_segment _ _ _ _ _) as [b o].
  specialize (IH (stamped hdr (n, t)) _ _ _ _ H).
  destruct (Kcp.flush_acks _ _ _ _ _) as [[hdr' b'] o'].
  replace (stamped (stamped hdr (n, t)) <$> acks) with (stamped hdr <$> acks) in IH
    by (apply list_fmap_ext; intros i [x y] _; reflexivity).
  rewrite <- (assoc_L (++)) in IH. destruct IH as [IH ->]. split; [exact IH|].
  rewrite fmap_cons, last_cons. by destruct (last (stamped hdr <$> acks)).
Qed.

(** ** The data segments *)

Section emit.
Context (self : Kcp.t) (wnd : Z).

Definition rto_min : Z := if negb (Kcp.nodelay self) then Z.shiftr (Kcp.rx_rto self) 3 else 0.

(** The copy of a segment of [snd_buf] that a flush sends, if it sends one. *)
Definition transmission (seg : Seg.t) : option Seg.t :=
  let '(send, seg, _) :=
    Kcp.flush_decide self (Kcp.fastresend self) rto_min (KcpTiming.rto_max (Kcp.timing self))
      seg (Kcp.Build_flush_state [] [] false 0) in
  if send : bool
  then Some (seg <| Seg.ts := Kcp.current self |> <| Seg.wnd := wnd |>
                 <| Seg.una := Kcp.rcv_nxt self |>)
  else None.

(** The segment as it stays in [snd_buf]. *)
Definition retimed (seg : Seg.t) : Seg.t := default seg (transmission seg).

Lemma flush_segment_packed seg st segs out0 :
  packed segs out0 (Kcp.fl_output st) (Kcp.fl_buf st) →
  let '(seg', st') :=
    Kcp.flush_segment self wnd (Kcp.fastresend self) rto_min
      (KcpTiming.rto_max (Kcp.timing self)) seg st in
  seg' = retimed seg
  ∧ packed (segs ++ option_list (transmission seg)) out0 (Kcp.fl_output st') (Kcp.fl_buf st').
Proof.
  intros Hp. unfold Kcp.flush_segment, retimed, transmission, Kcp.flush_decide.
  destruct (Seg.xmit seg =? 0); [|destruct (0 <=? _); [|destruct (_ && _)]];
    cbn beta iota zeta; cbn [option_list default from_option fst snd Kcp.fl_buf Kcp.fl_output];
    try (match goal with |- context [Kcp.append_segment ?m ?n ?s ?b ?o] =>
      pose proof (append_packed m n s _ _ _ _ Hp) as H;
      destruct (Kcp.append_segment m n s b o) as [b' o'] end; by split).
  by rewrite app_nil_r.
Qed.

Lemma flush_segments_packed l : ∀ st segs out0,
  packed segs out0 (Kcp.fl_output st) (Kcp.fl_buf st) →
  let '(l', st') :=
    Kcp.flush_segments self wnd (Kcp.fastresend self) rto_min
      (KcpTiming.rto_max (Kcp.timing self)) l st in
  l' = retimed <$> l
  ∧ packed (segs ++ omap transmission l) out0 (Kcp.fl_output st') (Kcp.fl_buf st').
Proof.
  induction l as [|s l IH]; intros st segs out0 Hp; cbn [Kcp.flush_segments].
  { by rewrite app_nil_r. }
  pose proof (flush_segment_packed s st segs out0 Hp) as H.
  destruct (Kcp.flush_segment _ _ _ _ _ _ _) as [s' st1]. destruct H as [-> H].
  specialize (IH st1 _ _ H). destruct (Kcp.flush_segments _ _ _ _ _ l st1) as [l' st2].
  destruct IH as [-> IH]. split; [done|]. rewrite <- (assoc_L (++)) in IH.
  cbn [omap list_omap]. by destruct (transmission s).
Qed.

End emit.

(** ** Moving segments out of the queue *)

Definition numbered_at (self : Kcp.t) (wnd n : Z) (s : Seg.t) : Seg.t :=
  Seg.Build_t (Kcp.conv self) KCP_CMD_PUSH (Seg.frg s) wnd (Kcp.current self) n
    (Kcp.rcv_nxt self) (Kcp.current self) (Kcp.rx_rto self) 0 0 (Seg.data s).

(** The queued segments [l] under the numbers from [n] on. *)
Fixpoint number_all (self : Kcp.t) (wnd n : Z) (l : list Seg.t) : list Seg.t :=
  match l with
  | [] => []
  | s :: l => numbered_at self wnd n s :: number_all self wnd (n +{32} 1) l
  end.

Lemma number_all_ext self self' wnd l : ∀ n,
  Kcp.conv self' = Kcp.conv self → Kcp.current self' = Kcp.current self →
  Kcp.rcv_nxt self' = Kcp.rcv_nxt self → Kcp.rx_rto self' = Kcp.rx_rto self →
  number_all self' wnd n l = number_all self wnd n l.
Proof.
  induction l as [|s l IH]; intros n H1 H2 H3 H4; cbn [number_all]; [done|].
  rewrite IH by done. unfold numbered_at. by rewrite H1, H2, H3, H4.
Qed.

Lemma same_send self q n b :
  Kcp.snd_queue self = q → Kcp.snd_nxt self = n → Kcp.snd_buf self = b →
  self = self <| Kcp.snd_queue := q |> <| Kcp.snd_nxt := n |> <| Kcp.snd_buf := b |>.
Proof. intros <- <- <-. by destruct self. Qed.

Lemma move_spec cwnd wnd queue : ∀ self,
  Kcp.snd_queue self = queue → in_width 32 (Kcp.snd_nxt self) →
  ∃ taken rest, queue = taken ++ rest
    ∧ Kcp.move_to_snd_buf cwnd wnd queue self
      = self <| Kcp.snd_queue := rest |>
             <| Kcp.snd_nxt := Kcp.snd_nxt self +{32} len taken |>
             <| Kcp.snd_buf := Kcp.snd_buf self ++ number_all self wnd (Kcp.snd_nxt self) taken |>
    ∧ (rest = [] ∨ 0 <= timediff (Kcp.snd_nxt self +{32} len taken) (Kcp.snd_una self +{32} cwnd)).
Proof.
  induction queue as [|s queue IH]; intros self Hq Hn; cbn [Kcp.move_to_snd_buf].
  - exists [], []. rewrite (@len_nil Seg.t), Z.add_0_r, (wrap_small 32 (Kcp.snd_nxt self)) by done.
    cbn [number_all]. rewrite !app_nil_r.
    split_and!; [done| |by left]. destruct (_ <? _); by apply same_send.
  - destruct (Z.ltb_spec (timediff (Kcp.snd_nxt self) (Kcp.snd_una self +{32} cwnd)) 0) as [Hlt|Hge].
    2:{ exists [], (s :: queue).
        rewrite (@len_nil Seg.t), Z.add_0_r, (wrap_small 32 (Kcp.snd_nxt self)) by done. cbn [number_all].
        rewrite !app_nil_r. split_and!; [done|by apply same_send|by right]. }
    match goal with |- context [Kcp.move_to_snd_buf cwnd wnd queue ?k] => set (self1 := k) end.
    destruct (IH self1) as (taken & rest & Hsplit & E & Hend); [done|by apply wrap_range|].
    exists (s :: taken), rest. change (Kcp.snd_nxt self1) with (Kcp.snd_nxt self +{32} 1) in *.
    change (Kcp.snd_una self1) with (Kcp.snd_una self) in *.
    rewrite wrap_add_l, <- Z.add_assoc in E, Hend. rewrite len_cons.
    split_and!; [by rewrite Hsplit| |exact Hend]. rewrite E. cbn [number_all].
    rewrite (number_all_ext self self1) by done.
    replace (Kcp.snd_buf self ++ _ :: _)
      with (Kcp.snd_buf self1 ++ number_all self wnd (Kcp.snd_nxt self +{32} 1) taken); [done|].
    unfold self1. cbn. by rewrite <- (assoc_L (++)).
Qed.

(** ** The whole flush *)

(** The send window of a flush. *)
Definition window (self : Kcp.t) : Z :=
  let w := Kcp.snd_wnd self `min` Kcp.rmt_wnd self in
  if Kcp.congestion_control self then w `min` Kcp.cwnd self else w.

Lemma probe_wnd_size_eq self :
  Kcp.probe_wnd_size self
  = self <| Kcp.probe := Kcp.probe (Kcp.probe_wnd_size self) |>
         <| Kcp.ts_probe := Kcp.ts_probe (Kcp.probe_wnd_size self) |>
         <| Kcp.probe_wait := Kcp.probe_wait (Kcp.probe_wnd_size self) |>.
Proof.
  unfold Kcp.probe_wnd_size. destruct (_ =? 0); [destruct (_ =? 0); [|destruct (_ <=? _)]|];
    by destruct self.
Qed.

(** The state after the control segments. *)
Definition opened (self : Kcp.t) (buf : list Z) (out : list (list Z)) : Kcp.t :=
  self <| Kcp.acklist := [] |> <| Kcp.probe := 0 |>
       <| Kcp.ts_probe := Kcp.ts_probe (Kcp.probe_wnd_size self) |>
       <| Kcp.probe_wait := Kcp.probe_wait (Kcp.probe_wnd_size self) |>
       <| Kcp.buf := buf |> <| Kcp.output := out |>.

Lemma probe_wnd_size_ext self b o l :
  Kcp.probe_wnd_size (self <| Kcp.buf := b |> <| Kcp.output := o |> <| Kcp.acklist := l |>)
  = (Kcp.probe_wnd_size self) <| Kcp.buf := b |> <| Kcp.output := o |> <| Kcp.acklist := l |>.
Proof.
  unfold Kcp.probe_wnd_size. cbn [Kcp.rmt_wnd update].
  by destruct (_ =? 0); [destruct (_ =? 0); [|destruct (_ <=? _)]|].
Qed.

Lemma flush_probe_command_packed self cmd hdr segs out0 :
  packed segs out0 (Kcp.output self) (Kcp.buf self) →
  ∃ b o, Kcp.flush_probe_command self cmd hdr
      = (self <| Kcp.buf := b |> <| Kcp.output := o |>, hdr <| Seg.cmd := cmd |>)
    ∧ packed (segs ++ [hdr <| Seg.cmd := cmd |>]) out0 o b.
Proof.
  intros Hp. unfold Kcp.flush_probe_command.
  match goal with |- context [Kcp.append_segment ?m ?n ?s ?b ?o] =>
    pose proof (append_packed m n s _ _ _ _ Hp) as H;
    destruct (Kcp.append_segment m n s b o) as [b' o'] end.
  by exists b', o'.
Qed.

(** The second test of the probe flags sees the flags of the first. *)
Ltac tell p :=
  match goal with
  | |- context [Z.land (Kcp.probe ?k) KCP_ASK_TELL] => change (Kcp.probe k) with p
  end.

Lemma flush_control self :
  Kcp.buf self = [] →
  ∃ buf out hdr,
    (let '(k, hdr) := Kcp.flush_ack self (flush_header self) in
     Kcp.flush_probe_commands (Kcp.probe_wnd_size k) hdr) = (opened self buf out, hdr)
    ∧ Seg.wnd hdr = Kcp.wnd_unused self
    ∧ packed (ack_segments self ++ probe_segments self) (Kcp.output self) out buf.
Proof.
  intros Hb. unfold Kcp.flush_ack.
  pose proof (flush_acks_packed (Kcp.mtu self) (Kcp.acklist self) (flush_header self)
    [] (Kcp.output self) (Kcp.buf self) (Kcp.output self)) as Ha.
  destruct (Kcp.flush_acks _ _ _ _ _) as [[hdr b] o].
  destruct Ha as [Ha Eh]; [rewrite Hb; apply packed_start|].
  fold (ack_segments self) in Ha, Eh. fold (last_header self) in Eh. subst hdr.
  cbn [app] in Ha. rewrite probe_wnd_size_ext, probe_wnd_size_eq.
  assert (Seg.wnd (last_header self) = Kcp.wnd_unused self) as Hw.
  { unfold last_header, ack_segments. rewrite fmap_last. by destruct (last (Kcp.acklist self)). }
  unfold Kcp.flush_probe_commands, probe_segments, asks.
  set (p := Kcp.probe (Kcp.probe_wnd_size self)). cbn [Kcp.probe update].
  destruct (negb (Z.land p KCP_ASK_SEND =? 0)).
  - match goal with |- context [Kcp.flush_probe_command ?k ?c ?h] =>
      destruct (flush_probe_command_packed k c h _ _ Ha) as (b1 & o1 & -> & H1) end.
    cbn [fst snd]. tell p. destruct (negb (Z.land p KCP_ASK_TELL =? 0)).
    + match goal with |- context [Kcp.flush_probe_command ?k ?c ?h] =>
        destruct (flush_probe_command_packed k c h _ _ H1) as (b2 & o2 & -> & H2) end.
      exists b2, o2, ((last_header self) <| Seg.cmd := KCP_CMD_WINS |>).
      split_and!; [done|done|]. by rewrite <- (assoc_L (++)) in H2.
    + eexists b1, o1, _. split_and!; [done|done|]. by rewrite app_nil_r.
  - cbn [fst snd]. tell p. destruct (negb (Z.land p KCP_ASK_TELL =? 0)).
    + match goal with |- context [Kcp.flush_probe_command ?k ?c ?h] =>
        destruct (flush_probe_command_packed k c h _ _ Ha) as (b2 & o2 & -> & H2) end.
      eexists b2, o2, _. by split_and!.
    + eexists b, o, _. split_and!; [done|done|]. by rewrite app_nil_r.
Qed.

(** The fields a flush does not touch, and those it resets. *)
Record flush_keeps (self self' : Kcp.t) : Prop := {
  fk_una : Kcp.snd_una self' = Kcp.snd_una self;
  fk_rcv_nxt : Kcp.rcv_nxt self' = Kcp.rcv_nxt self;
  fk_rcv_queue : Kcp.rcv_queue self' = Kcp.rcv_queue self;
  fk_rcv_buf : Kcp.rcv_buf self' = Kcp.rcv_buf self;
  fk_rcv_wnd : Kcp.rcv_wnd self' = Kcp.rcv_wnd self;
  fk_rmt_wnd : Kcp.rmt_wnd self' = Kcp.rmt_wnd self;
  fk_snd_wnd : Kcp.snd_wnd self' = Kcp.snd_wnd self;
  fk_timing : Kcp.timing self' = Kcp.timing self;
  fk_current : Kcp.current self' = Kcp.current self;
  fk_ts_flush : Kcp.ts_flush self' = Kcp.ts_flush self;
  fk_updated : Kcp.updated self' = Kcp.updated self;
  fk_congestion : Kcp.congestion_control self' = Kcp.congestion_control self;
  fk_acklist : Kcp.acklist self' = [];
  fk_probe : Kcp.probe self' = 0;
  fk_ts_probe : Kcp.ts_probe self' = Kcp.ts_probe (Kcp.probe_wnd_size self);
  fk_probe_wait : Kcp.probe_wait self' = Kcp.probe_wait (Kcp.probe_wnd_size self);
}.

(** What a flush of [self] leaves and emits: [taken] left the queue, and the
    segments of [groups] are the new datagrams. *)
Record flushed (self self' : Kcp.t) (groups : list (list Seg.t)) (taken rest : list Seg.t)
    : Prop := {
  fd_queue : Kcp.snd_queue self = taken ++ rest;
  fd_rest : Kcp.snd_queue self' = rest;
  fd_next : Kcp.snd_nxt self' = Kcp.snd_nxt self +{32} len taken;
  fd_buf : Kcp.snd_buf self'
    = retimed self (Kcp.wnd_unused self) <$>
        (Kcp.snd_buf self ++ number_all self (Kcp.wnd_unused self) (Kcp.snd_nxt self) taken);
  fd_stop : rest = []
    ∨ 0 <= timediff (Kcp.snd_nxt self') (Kcp.snd_una self +{32} window self);
  fd_output : Kcp.output self' = Kcp.output self ++ (datagram <$> groups);
  fd_groups : Forall (λ g, g ≠ []) groups;
  fd_segments : mjoin groups
    = ack_segments self ++ probe_segments self
      ++ omap (transmission self (Kcp.wnd_unused self))
           (Kcp.snd_buf self ++ number_all self (Kcp.wnd_unused self) (Kcp.snd_nxt self) taken);
  fd_cwnd : 1 <= Kcp.cwnd self';
  fd_keeps : flush_keeps self self';
}.

Section whole.
Context `{St : Static} (P : Z → Seg.t → Prop) (hist : list Seg.t) (slog : list (Z * list Z)).

(** The state after the queue was served. *)
Definition served (self : Kcp.t) (b : list Z) (o : list (list Z)) (taken rest : list Seg.t) : Kcp.t :=
  (opened self b o) <| Kcp.snd_queue := rest |>
    <| Kcp.snd_nxt := Kcp.snd_nxt self +{32} len taken |>
    <| Kcp.snd_buf := Kcp.snd_buf self
         ++ number_all self (Kcp.wnd_unused self) (Kcp.snd_nxt self) taken |>.

Lemma flush_served self :
  kcp_inv P slog hist self → Kcp.updated self = true →
  ∃ b o taken rest,
    Kcp.snd_queue self = taken ++ rest
    ∧ packed (ack_segments self ++ probe_segments self) (Kcp.output self) o b
    ∧ (rest = []
       ∨ 0 <= timediff (Kcp.snd_nxt self +{32} len taken) (Kcp.snd_una self +{32} window self))
    ∧ Kcp.flush self
      = (let m := served self b o taken rest in
         let '(segs, st) :=
           Kcp.flush_segments m (Kcp.wnd_unused self) (Kcp.fastresend m) (rto_min m)
             (KcpTiming.rto_max (Kcp.timing m)) (Kcp.snd_buf m)
             (Kcp.Build_flush_state (Kcp.buf m) (Kcp.output m) false 0) in
         let '(b, o) := Kcp.emit_output (Kcp.fl_buf st) (Kcp.fl_output st) in
         let k := m <| Kcp.snd_buf := segs |> <| Kcp.buf := b |> <| Kcp.output := o |> in
         k ← Kcp.flush_congestion k (window self) (Kcp.fastresend m) (Kcp.fl_change st)
           (Kcp.fl_lost st);
         Ret (Ok tt, k)).
Proof.
  intros (Hconf & Hs & Ho & _) Hup. unfold Kcp.flush. rewrite Hup. cbn [negb].
  fold (flush_header self).
  destruct (flush_control self (out_buf _ _ Ho)) as (b & o & hdr & E & Hw & Hp).
  destruct (Kcp.flush_ack self (flush_header self)) as [k1 h1]. cbn beta iota zeta in E |- *.
  rewrite E. clear E k1 h1.
  destruct (move_spec (window self) (Kcp.wnd_unused self) (Kcp.snd_queue self) (opened self b o))
    as (taken & rest & Hq & E & Hstop).
  { done. }
  { change (in_width 32 (Kcp.snd_nxt self)). rewrite (snd_next _ _ Hs). by apply wrap_range. }
  exists b, o, taken, rest. split_and!; [done|done|exact Hstop|].
  rewrite <- Hw in E. cbn beta iota zeta.
  match goal with |- context [Kcp.move_to_snd_buf ?c ?w ?q ?k] =>
    change (Kcp.move_to_snd_buf c w q k) with
      (Kcp.move_to_snd_buf (window self) (Seg.wnd hdr) (Kcp.snd_queue self) (opened self b o)) end.
  rewrite (number_all_ext self) in E by done.
  change (Kcp.snd_nxt (opened self b o)) with (Kcp.snd_nxt self) in E.
  change (Kcp.snd_buf (opened self b o)) with (Kcp.snd_buf self) in E.
  rewrite E, Hw. fold (served self b o taken rest).
  change (if Kcp.congestion_control (opened self b o) then _ else _) with (window self).
  set (m := served self b o taken rest). clearbody m. fold (rto_min m). reflexivity.
Qed.

(** The congestion reaction leaves a window of at least one segment. *)
Lemma flush_congestion_shape self cwnd0 resent change lost self' :
  Kcp.flush_congestion self cwnd0 resent change lost = Ret self' →
  1 <= Kcp.cwnd self' ∧ ∃ ss i,
    self' = self <| Kcp.ssthresh := ss |> <| Kcp.cwnd := Kcp.cwnd self' |> <| Kcp.incr := i |>.
Proof.
  unfold Kcp.flush_congestion. intros (k & Hk & Hr)%bind_ret.
  assert (∃ ss c i, k = self <| Kcp.ssthresh := ss |> <| Kcp.cwnd := c |> <| Kcp.incr := i |>)
    as (ss & c & i & ->).
  { destruct (0 <? change).
    - apply bind_ret in Hk as (r & _ & Hk). apply Ret_inj in Hk as <-. by do 3 eexists.
    - apply Ret_inj in Hk as <-. exists (Kcp.ssthresh self), (Kcp.cwnd self), (Kcp.incr self).
      by destruct self. }
  apply Ret_inj in Hr. destruct lost; cbn zeta in Hr.
  - rewrite <- Hr. split; [done|]. by do 2 eexists.
  - destruct (Z.ltb_spec c 1) as [Hlt|Hge].
    + change (Kcp.cwnd _ <? 1) with (c <? 1) in Hr. rewrite (proj2 (Z.ltb_lt _ _) Hlt) in Hr.
      rewrite <- Hr. split; [done|]. by do 2 eexists.
    + change (Kcp.cwnd _ <? 1) with (c <? 1) in Hr. rewrite (proj2 (Z.ltb_ge _ _) Hge) in Hr.
      rewrite <- Hr. split; [done|]. by do 2 eexists.
Qed.

Lemma flush_flushed self r self' :
  kcp_inv P slog hist self → Kcp.updated self = true → Kcp.flush self = Ret (r, self') →
  r = Ok tt ∧ ∃ groups taken rest, flushed self self' groups taken rest.
Proof.
  intros Hinv Hup Hf.
  destruct (flush_served self Hinv Hup) as (b & o & taken & rest & Hq & Hp & Hstop & E).
  rewrite Hf in E. cbn zeta in E. set (m := served self b o taken rest) in E.
  pose proof (flush_segments_packed m (Kcp.wnd_unused self) (Kcp.snd_buf m)
    (Kcp.Build_flush_state (Kcp.buf m) (Kcp.output m) false 0) _ _ Hp) as Hs.
  destruct (Kcp.flush_segments _ _ _ _ _ _ _) as [segs st]. destruct Hs as [-> Hs].
  apply emit_packed in Hs. destruct (Kcp.emit_output _ _) as [b' o'].
  destruct Hs as [-> Hs]. apply packed_groups in Hs as (groups & -> & Hj & Hne).
  symmetry in E. apply bind_ret in E as (k & Hk & Hr). apply Ret_inj in Hr as [= <- ->].
  apply flush_congestion_shape in Hk as (Hc & ss & i & Ek). split; [done|].
  exists groups, taken, rest. rewrite <- (assoc_L (++)) in Hj.
  split; [exact Hq|..]; try exact Hne; try exact Hc; try exact Hj.
  - by rewrite Ek.
  - by rewrite Ek.
  - by rewrite Ek.
  - rewrite Ek. exact Hstop.
  - by rewrite Ek.
  - rewrite Ek. by split.
Qed.

End whole.
