(* ===== verification/KcpHear.v ===== *)
(** * What an endpoint hears from a datagram

    [input] on a datagram of whole segments is the fold of [segment_effect], one
    segment after the other, and a last adjustment of the congestion window and
    of the fast-retransmit counters.  Received numbers stay received ([got]). *)

From S2P Require Import Prelude Bytes Kcp KcpWire KcpMessage KcpReceive KcpInv KcpFlush.

(** ** One segment *)

Definition segment_effect (s : Seg.t) (self : Kcp.t) : comp Kcp.t :=
  let self := self <| Kcp.rmt_wnd := Seg.wnd s |> in
  let self := Kcp.shrink_buf (Kcp.parse_una self (Seg.una s)) in
  if Seg.cmd s =? KCP_CMD_ACK then
    let rtt := timediff (Kcp.current self) (Seg.ts s) in
    self ← (if 0 <=? rtt then Kcp.update_ack self rtt else Ret self);
    Ret (Kcp.shrink_buf (Kcp.parse_ack self (Seg.sn s)))
  else if Seg.cmd s =? KCP_CMD_PUSH then Kcp.input_push (header_of s) self (Seg.data s)
  else if Seg.cmd s =? KCP_CMD_WASK
  then Ret (self <| Kcp.probe ::= λ p, Z.lor p KCP_ASK_TELL |>)
  else Ret self.

Lemma input_push_app s self rest :
  Kcp.input_push (header_of s) self (Seg.data s ++ rest)
  = Kcp.input_push (header_of s) self (Seg.data s).
Proof.
  unfold Kcp.input_push. cbn [Kcp.h_len header_of].
  by rewrite slice_app_l, slice_all by done.
Qed.

Lemma input_segment_eq s self rest f m l self' :
  seg_wf s → valid_cmd (Seg.cmd s) = true → Kcp.conv self = Seg.conv s →
  segment_effect s self = Ret self' →
  ∃ f' m' l', Kcp.input_segment (Kcp.Build_input_state self (seg_bytes s ++ rest) f m l)
    = Ret (None, Kcp.Build_input_state self' rest f' m' l').
Proof.
  intros Hwf Hc Hconv. unfold Kcp.input_segment, segment_effect. cbn [Kcp.in_self Kcp.in_buf].
  rewrite Hconv, read_header_encode by done. cbn [mbind comp_bind].
  change (Kcp.h_cmd (header_of s)) with (Seg.cmd s).
  change (Kcp.h_wnd (header_of s)) with (Seg.wnd s).
  change (Kcp.h_una (header_of s)) with (Seg.una s).
  change (Kcp.h_len (header_of s)) with (len (Seg.data s)).
  set (k := Kcp.shrink_buf _). cbn [Kcp.in_flag Kcp.in_max_ack Kcp.in_latest_ts].
  destruct (Seg.cmd s =? KCP_CMD_ACK).
  - unfold Kcp.input_ack. cbn [Kcp.in_self Kcp.in_buf Kcp.in_flag Kcp.in_max_ack Kcp.in_latest_ts].
    change (Kcp.h_ts (header_of s)) with (Seg.ts s). intros (k2 & -> & <-%Ret_inj)%bind_ret.
    cbn [mbind comp_bind]. change (Kcp.h_sn (header_of s)) with (Seg.sn s).
    destruct (negb f); [|destruct (_ && _)]; cbn [mbind comp_bind Kcp.in_buf Kcp.in_self];
      rewrite slice_app_r by (rewrite ?len_app; done); by do 3 eexists.
  - destruct (Seg.cmd s =? KCP_CMD_PUSH).
    + intros E. rewrite input_push_app, E. cbn [mbind comp_bind Kcp.in_buf Kcp.in_self].
      rewrite slice_app_r by (rewrite ?len_app; done). by do 3 eexists.
    + destruct (_ =? _); intros <-%Ret_inj; cbn [mbind comp_bind Kcp.in_buf Kcp.in_self];
        rewrite slice_app_r by (rewrite ?len_app; done); by do 3 eexists.
Qed.

(** ** Frames *)

(** What hearing does not touch. *)
Record hear_keeps (self self' : Kcp.t) : Prop := {
  hk_conv : Kcp.conv self' = Kcp.conv self;
  hk_nxt : Kcp.snd_nxt self' = Kcp.snd_nxt self;
  hk_queue : Kcp.snd_queue self' = Kcp.snd_queue self;
  hk_snd_wnd : Kcp.snd_wnd self' = Kcp.snd_wnd self;
  hk_rcv_wnd : Kcp.rcv_wnd self' = Kcp.rcv_wnd self;
  hk_timing : Kcp.timing self' = Kcp.timing self;
  hk_updated : Kcp.updated self' = Kcp.updated self;
  hk_ts_flush : Kcp.ts_flush self' = Kcp.ts_flush self;
  hk_ts_probe : Kcp.ts_probe self' = Kcp.ts_probe self;
  hk_probe_wait : Kcp.probe_wait self' = Kcp.probe_wait self;
  hk_output : Kcp.output self' = Kcp.output self;
  hk_congestion : Kcp.congestion_control self' = Kcp.congestion_control self;
}.

#[export] Instance hear_keeps_refl : Reflexive hear_keeps.
Proof. by intros k. Qed.

#[export] Instance hear_keeps_trans : Transitive hear_keeps.
Proof. intros x y z [] []. split; congruence. Qed.

(** The receive side and what it still has to acknowledge. *)
Definition same_rcv (self self' : Kcp.t) : Prop :=
  Kcp.rcv_nxt self' = Kcp.rcv_nxt self ∧ Kcp.rcv_buf self' = Kcp.rcv_buf self
  ∧ Kcp.rcv_queue self' = Kcp.rcv_queue self ∧ Kcp.acklist self' = Kcp.acklist self.

(** The number of the oldest segment in flight. *)
Definition front (self : Kcp.t) : Z :=
  match Kcp.snd_buf self with seg :: _ => Seg.sn seg | [] => Kcp.snd_nxt self end.

(** The segments in flight that [s] does not acknowledge. *)
Definition remaining (s : Seg.t) (self : Kcp.t) : list Seg.t :=
  let l := Kcp.drop_acked (Seg.una s) (Kcp.snd_buf self) in
  let una := match l with seg :: _ => Seg.sn seg | [] => Kcp.snd_nxt self end in
  if (Seg.cmd s =? KCP_CMD_ACK)
     && negb ((timediff (Seg.sn s) una <? 0) || (0 <=? timediff (Seg.sn s) (Kcp.snd_nxt self)))
  then Kcp.remove_acked (Seg.sn s) l else l.

Record heard (s : Seg.t) (self self' : Kcp.t) : Prop := {
  hs_keeps : hear_keeps self self';
  hs_rmt_wnd : Kcp.rmt_wnd self' = Seg.wnd s;
  hs_cwnd : Kcp.cwnd self' = Kcp.cwnd self;
  hs_current : Kcp.current self' = Kcp.current self;
  hs_snd_buf : Kcp.snd_buf self' = remaining s self;
  hs_snd_una : Kcp.snd_una self' = front self';
  hs_probe : Kcp.probe self' = if Seg.cmd s =? KCP_CMD_WASK
    then Z.lor (Kcp.probe self) KCP_ASK_TELL else Kcp.probe self;
  hs_rcv : if Seg.cmd s =? KCP_CMD_PUSH
    then ∃ self1, same_rcv self self1 ∧ Kcp.rcv_wnd self1 = Kcp.rcv_wnd self
      ∧ Kcp.input_push (header_of s) self1 (Seg.data s) = Ret self'
    else same_rcv self self';
}.

Lemma update_ack_frame self rtt self' :
  Kcp.update_ack self rtt = Ret self' →
  ∃ a b r, self' = self <| Kcp.rx_srtt := a |> <| Kcp.rx_rttval := b |> <| Kcp.rx_rto := r |>.
Proof.
  unfold Kcp.update_ack. intros (r & _ & <-%Ret_inj)%bind_ret.
  destruct (_ =? 0); [by do 3 eexists|]. by do 3 eexists.
Qed.

Lemma input_push_keeps h self buf self' :
  Kcp.input_push h self buf = Ret self' →
  hear_keeps self self' ∧ Kcp.snd_buf self' = Kcp.snd_buf self
  ∧ Kcp.snd_una self' = Kcp.snd_una self ∧ Kcp.rmt_wnd self' = Kcp.rmt_wnd self
  ∧ Kcp.probe self' = Kcp.probe self ∧ Kcp.cwnd self' = Kcp.cwnd self
  ∧ Kcp.current self' = Kcp.current self.
Proof.
  unfold Kcp.input_push. destruct (_ <? _); [|by intros <-%Ret_inj].
  destruct (_ <=? _); [|by intros <-%Ret_inj].
  intros (bytes & _ & (b & q & n & ->)%parse_data_frame)%bind_ret. done.
Qed.

Lemma parse_ack_buf self n :
  Kcp.snd_buf (Kcp.parse_ack self n)
  = if negb ((timediff n (Kcp.snd_una self) <? 0) || (0 <=? timediff n (Kcp.snd_nxt self)))
    then Kcp.remove_acked n (Kcp.snd_buf self) else Kcp.snd_buf self.
Proof. unfold Kcp.parse_ack. by destruct (_ || _). Qed.

Lemma segment_heard s self self' :
  valid_cmd (Seg.cmd s) = true → segment_effect s self = Ret self' → heard s self self'.
Proof.
  intros Hcmd. unfold segment_effect.
  set (k1 := Kcp.shrink_buf (Kcp.parse_una (self <| Kcp.rmt_wnd := Seg.wnd s |>) (Seg.una s))).
  assert (Kcp.snd_una k1 = front k1) as Hf1 by done.
  destruct (Z.eqb_spec (Seg.cmd s) KCP_CMD_ACK) as [Hack|Hack].
  - intros (k2 & Hk2 & <-%Ret_inj)%bind_ret.
    assert (∃ x y z, k2 = k1 <| Kcp.rx_srtt := x |> <| Kcp.rx_rttval := y |> <| Kcp.rx_rto := z |>)
      as (x & y & z & ->).
    { destruct (_ <=? _); [by apply update_ack_frame in Hk2|]. apply Ret_inj in Hk2 as <-.
      exists (Kcp.rx_srtt k1), (Kcp.rx_rttval k1), (Kcp.rx_rto k1). done. }
    split; try rewrite Hack; try (unfold Kcp.parse_ack; destruct (_ || _); done).
    match goal with |- Kcp.snd_buf (Kcp.shrink_buf ?k) = _ =>
      change (Kcp.snd_buf (Kcp.shrink_buf k)) with (Kcp.snd_buf k) end.
    rewrite parse_ack_buf. unfold remaining. rewrite Hack. reflexivity.
  - assert (remaining s self = Kcp.drop_acked (Seg.una s) (Kcp.snd_buf self)) as Hrem.
    { unfold remaining. by rewrite (proj2 (Z.eqb_neq _ _) Hack). }
    destruct (Z.eqb_spec (Seg.cmd s) KCP_CMD_PUSH) as [Hpush|Hpush].
    + intros E. apply input_push_keeps in E as Hk. destruct Hk as (Hk & Hb & Hu & Hr & Hp & Hc & Ht).
      split; rewrite ?Hpush; [by etrans; [|exact Hk]|done|done|done|by rewrite Hb, Hrem| |done|].
      * rewrite Hu, Hf1. unfold front. by rewrite Hb, (hk_nxt _ _ Hk).
      * by exists k1.
    + destruct (Z.eqb_spec (Seg.cmd s) KCP_CMD_WASK) as [Hw|Hw]; intros <-%Ret_inj.
      * split; rewrite ?Hw; done.
      * split; try done; [by rewrite (proj2 (Z.eqb_neq _ _) Hw)|].
        by rewrite (proj2 (Z.eqb_neq _ _) Hpush).
Qed.

(** ** A whole datagram *)

Lemma input_loop_segs segs : ∀ fuel self f m l self',
  Forall (λ s, seg_wf s ∧ valid_cmd (Seg.cmd s) = true ∧ Seg.conv s = Kcp.conv self) segs →
  (length (datagram segs) <= fuel)%nat →
  for_each segs segment_effect self = Ret self' →
  ∃ f' m' l', Kcp.input_loop fuel (Kcp.Build_input_state self (datagram segs) f m l)
    = Ret (None, Kcp.Build_input_state self' [] f' m' l').
Proof.
  induction segs as [|s segs IH]; intros fuel self f m l self' Hs Hfuel; cbn [for_each].
  { intros <-%Ret_inj. exists f, m, l. by destruct fuel. }
  intros (k & Hk & Hrest)%bind_ret. apply Forall_cons in Hs as [(Hwf & Hc & Hv) Hs].
  rewrite datagram_cons in Hfuel |- *.
  pose proof (len_seg_bytes s) as Hl. pose proof (len_nonneg (Seg.data s)).
  unfold len, KCP_OVERHEAD in *. rewrite length_app in Hfuel.
  destruct fuel as [|fuel]; [lia|]. cbn [Kcp.input_loop Kcp.in_buf].
  rewrite (proj2 (Z.leb_le _ _)) by (unfold len, KCP_OVERHEAD; rewrite length_app; lia).
  destruct (input_segment_eq s self (datagram segs) f m l k) as (f1 & m1 & l1 & ->); [done..|].
  cbn [mbind comp_bind]. apply (IH fuel k f1 m1 l1); [|lia|done].
  apply segment_heard in Hk as [[-> _ _ _ _ _ _ _ _ _ _ _] _ _ _ _ _ _ _]; done.
Qed.

(** What happens after the last segment. *)
Record settled (self self' : Kcp.t) : Prop := {
  st_keeps : hear_keeps self self';
  st_rcv : same_rcv self self';
  st_una : Kcp.snd_una self' = Kcp.snd_una self;
  st_rmt_wnd : Kcp.rmt_wnd self' = Kcp.rmt_wnd self;
  st_probe : Kcp.probe self' = Kcp.probe self;
  st_current : Kcp.current self' = Kcp.current self;
  st_cwnd : Kcp.cwnd self' = Kcp.cwnd self ∨ 1 <= Kcp.cwnd self';
  st_snd_buf : ∃ n t, Kcp.snd_buf self' = Kcp.snd_buf self
    ∨ Kcp.snd_buf self' = Kcp.count_fastack n t (Kcp.snd_buf self);
}.

(** The congestion window never shrinks to nothing. *)
Lemma grow_cwnd_settled self una self' :
  conf_ok (H := {| st_conv := Kcp.conv self; st_mtu := Kcp.mtu self; st_rcv_wnd := Kcp.rcv_wnd self |}) self →
  Kcp.grow_cwnd self una = Ret self' →
  ∃ c i, self' = self <| Kcp.cwnd := c |> <| Kcp.incr := i |> ∧ (c = Kcp.cwnd self ∨ 1 <= c).
Proof.
  intros Hconf. pose proof (conf_mss_pos self Hconf) as Hm. destruct Hconf.
  unfold in_width in *. unfold Kcp.grow_cwnd. destruct (_ && _) eqn:E.
  2:{ intros <-%Ret_inj. exists (Kcp.cwnd self), (Kcp.incr self). split; [by destruct self|by left]. }
  apply andb_true_iff in E as [_ Hlt]. apply Z.ltb_lt in Hlt.
  assert (∀ c i, c = Kcp.cwnd self ∨ 1 <= c →
    (if Kcp.rmt_wnd self <? c
     then self <| Kcp.cwnd := Kcp.rmt_wnd self |> <| Kcp.incr := Kcp.rmt_wnd self *{64} Kcp.mss self |>
     else self <| Kcp.cwnd := c |> <| Kcp.incr := i |>) = self' →
    ∃ c i, self' = self <| Kcp.cwnd := c |> <| Kcp.incr := i |> ∧ (c = Kcp.cwnd self ∨ 1 <= c)) as Hend.
  { intros c i Hc. destruct (_ <? _); intros <-; do 2 eexists; (split; [reflexivity|]); [right; lia|done]. }
  intros (k & Hk & Hr)%bind_ret. apply Ret_inj in Hr. destruct (Kcp.cwnd self <? Kcp.ssthresh self).
  - apply Ret_inj in Hk as <-. apply (Hend (Kcp.cwnd self +{16} 1) (Kcp.incr self +{64} Kcp.mss self)).
    + right. rewrite wrap_id by lia. lia.
    + exact Hr.
  - apply bind_ret in Hk as (q & _ & Hk).
    match type of Hk with (if ?y <=? ?x then _ else _) = _ =>
      set (i := x) in Hk; change y with ((Kcp.cwnd self +{64} 1) *{64} Kcp.mss self) in Hk end.
    destruct (Z.leb_spec ((Kcp.cwnd self +{64} 1) *{64} Kcp.mss self) i) as [Hle|].
    + apply bind_ret in Hk as (n & Hn & Hk). apply Ret_inj in Hk as <-.
      apply (Hend (wrap 16 (n `min` Kcp.rmt_wnd self)) i); [|exact Hr].
      right. rewrite (wrap_id 64 (_ + 1)), wrap_id in Hle by nia.
      unfold div_ceil in Hn. rewrite (proj2 (Z.eqb_neq _ _)) in Hn by lia.
      apply Ret_inj in Hn as <-. rewrite wrap_id.
      * assert (1 <= (i + Kcp.mss self - 1) / Kcp.mss self); [|lia].
        apply Z.div_le_lower_bound; nia.
      * assert (0 <= (i + Kcp.mss self - 1) / Kcp.mss self) by (apply Z.div_pos; nia). lia.
    + apply Ret_inj in Hk as <-. by apply (Hend (Kcp.cwnd self) i); [left|].
Qed.

Lemma input_settled self now segs self' :
  segs ≠ [] →
  Forall (λ s, seg_wf s ∧ valid_cmd (Seg.cmd s) = true ∧ Seg.conv s = Kcp.conv self) segs →
  for_each segs segment_effect (self <| Kcp.current := now |>) = Ret self' →
  conf_ok (H := {| st_conv := Kcp.conv self'; st_mtu := Kcp.mtu self'; st_rcv_wnd := Kcp.rcv_wnd self' |}) self' →
  ∃ r k, Kcp.input self now (datagram segs) = Ret (r, k) ∧ settled self' k.
Proof.
  intros Hne Hs Hfe Hconf. unfold Kcp.input.
  rewrite (proj2 (Z.ltb_ge _ _)).
  2:{ destruct segs as [|s segs]; [done|]. rewrite datagram_cons, len_app, len_seg_bytes.
      pose proof (len_nonneg (Seg.data s)). pose proof (len_nonneg (datagram segs)). lia. }
  change (Kcp.conv self) with (Kcp.conv (self <| Kcp.current := now |>)) in Hs.
  destruct (input_loop_segs segs (length (datagram segs)) (self <| Kcp.current := now |>)
    false 0 0 self' Hs (Nat.le_refl _) Hfe) as (f & m & l & ->). cbn [mbind comp_bind].
  cbn [Kcp.in_self Kcp.in_flag Kcp.in_max_ack Kcp.in_latest_ts].
  set (k1 := if f && _ then _ else _).
  assert (∃ b, k1 = self' <| Kcp.snd_buf := b |> ∧ ∃ n t, b = Kcp.snd_buf self'
    ∨ b = Kcp.count_fastack n t (Kcp.snd_buf self')) as (b & E1 & n & t & Hb).
  { unfold k1, Kcp.parse_fastack. destruct (f && _); [destruct (_ || _)|].
    - exists (Kcp.snd_buf self'). split; [by destruct self'|]. exists 0, 0. by left.
    - eexists. split; [done|]. exists m, l. by right.
    - exists (Kcp.snd_buf self'). split; [by destruct self'|]. exists 0, 0. by left. }
  destruct (grow_cwnd_eq (St := {| st_conv := Kcp.conv self'; st_mtu := Kcp.mtu self';
    st_rcv_wnd := Kcp.rcv_wnd self' |}) k1 (Kcp.snd_una (self <| Kcp.current := now |>)))
    as (c & i & E & _ & _).
  { rewrite E1. destruct Hconf. by constructor. }
  apply grow_cwnd_settled in E as Hc.
  2:{ rewrite E1. destruct Hconf. by constructor. }
  destruct Hc as (c' & i' & Ek & Hc). rewrite E. cbn [mbind comp_bind].
  eexists _, _. split; [done|]. rewrite E1 in Ek, Hc |- *. split; try done.
  - destruct Hc as [Hc|Hc]; [left|right].
    + apply (f_equal Kcp.cwnd) in Ek. cbn in Ek, Hc |- *. by rewrite Ek.
    + apply (f_equal Kcp.cwnd) in Ek. cbn in Ek, Hc |- *. by rewrite Ek.
  - exists n, t. by destruct Hb as [-> | ->]; [left|right].
Qed.

(** ** Every segment of the peer is taken in *)

(** A segment that [input] accepts, data included. *)
Record hearable (P : Z → Seg.t → Prop) (conv : Z) (s : Seg.t) : Prop := {
  hb_wf : seg_wf s;
  hb_cmd : valid_cmd (Seg.cmd s) = true;
  hb_conv : Seg.conv s = conv;
  hb_accept : Seg.cmd s = KCP_CMD_PUSH → accept P (push_segment (header_of s) (Seg.data s));
}.

Lemma header_of_ok s : seg_wf s → valid_cmd (Seg.cmd s) = true → header_ok (header_of s) (Seg.data s).
Proof. intros [] Hc. pose proof (len_nonneg (Seg.data s)). by constructor. Qed.

Section take.
Context `{St : Static} (P : Z → Seg.t → Prop) (slog : list (Z * list Z)) (hist : list Seg.t).

Lemma segment_kinv s self :
  kcp_inv P slog hist self → hearable P (Kcp.conv self) s →
  ∃ self', segment_effect s self = Ret self' ∧ kcp_inv P slog hist self'.
Proof.
  intros H [Hwf Hc Hv Hacc]. unfold segment_effect.
  set (k1 := Kcp.shrink_buf _). assert (kcp_inv P slog hist k1) as H1.
  { apply shrink_buf_inv, parse_una_inv, set_rmt_wnd_inv; [apply Hwf|done]. }
  destruct (_ =? _).
  - assert (∃ k2, (if 0 <=? timediff (Kcp.current k1) (Seg.ts s)
      then Kcp.update_ack k1 (timediff (Kcp.current k1) (Seg.ts s)) else Ret k1) = Ret k2
      ∧ kcp_inv P slog hist k2) as (k2 & -> & H2).
    { destruct (_ <=? _); [by apply update_ack_inv|by exists k1]. }
    eexists. split; [done|]. by apply shrink_buf_inv, parse_ack_inv.
  - destruct (Z.eqb_spec (Seg.cmd s) KCP_CMD_PUSH) as [Hp|_].
    + destruct (input_push_inv P slog hist (header_of s) k1 (Seg.data s) H1) as (k2 & E & H2 & _).
      { by apply header_of_ok. }
      { intros bytes Hb. cbn [header_of Kcp.h_len] in Hb. rewrite slice_all in Hb.
        apply Ret_inj in Hb as <-. by apply Hacc. }
      by exists k2.
    + destruct (_ =? _); (eexists; split; [done|]); [by apply set_probe_inv|done].
Qed.

Lemma segments_kinv segs : ∀ self,
  kcp_inv P slog hist self → Forall (hearable P (Kcp.conv self)) segs →
  ∃ self', for_each segs segment_effect self = Ret self' ∧ kcp_inv P slog hist self'.
Proof.
  induction segs as [|s segs IH]; intros self H Hs; cbn [for_each]; [by exists self|].
  apply Forall_cons in Hs as [Hs1 Hs]. destruct (segment_kinv s self H Hs1) as (k & E & Hk).
  rewrite E. cbn [mbind comp_bind]. apply IH; [done|].
  apply segment_heard in E as [Hkeep _ _ _ _ _ _ _]; [|apply Hs1].
  by rewrite (hk_conv _ _ Hkeep).
Qed.
End take.

(** ** Received numbers *)

(** Segment [n] was received: consumed, queued, or waiting for a gap to fill. *)
Definition got (self : Kcp.t) (n : Z) : Prop :=
  n < Kcp.rcv_nxt self ∨ n ∈ Seg.sn <$> Kcp.rcv_buf self.

(** The next number to receive is not at hand, unless the queue is full. *)
Definition gap (self : Kcp.t) : Prop :=
  Kcp.rcv_wnd self <= len (Kcp.rcv_queue self)
  ∨ match Kcp.rcv_buf self with s :: _ => Seg.sn s ≠ Kcp.rcv_nxt self | [] => True end.

(** The receive numbers are far from their wrap-around. *)
Definition roomy (self : Kcp.t) : Prop :=
  0 <= Kcp.rcv_nxt self < 2 ^ 30 ∧ in_width 16 (Kcp.rcv_wnd self)
  ∧ len (Kcp.rcv_buf self) < 2 ^ 29.

Lemma move_loop_got wnd l : ∀ q nxt,
  0 <= nxt → nxt + len l < 2 ^ 32 →
  let '(b, q', nxt') := Kcp.move_loop wnd l q nxt in
  nxt <= nxt' ∧ (∀ n, n < nxt ∨ n ∈ Seg.sn <$> l → n < nxt' ∨ n ∈ Seg.sn <$> b)
  ∧ (wnd <= len q' ∨ match b with s :: _ => Seg.sn s ≠ nxt' | [] => True end).
Proof.
  induction l as [|s l IH]; intros q nxt H0 Hl; cbn [Kcp.move_loop].
  { split_and!; [lia|done|by right]. }
  rewrite len_cons in Hl. pose proof (len_nonneg l).
  destruct (Z.eqb_spec (Seg.sn s) nxt) as [Hs|Hs]; cbn [andb].
  2:{ split_and!; [lia|done|by right]. }
  destruct (Z.ltb_spec (len q) wnd) as [Hw|Hw].
  2:{ split_and!; [lia|done|by left]. }
  specialize (IH (q ++ [s]) (nxt +{32} 1)). rewrite (wrap_id 32) in * by lia.
  destruct (Kcp.move_loop wnd l (q ++ [s]) (nxt + 1)) as [[b q'] nxt'].
  destruct IH as (Hle & Hgot & Hg); [lia|lia|]. split_and!; [lia| |done].
  intros n Hn. apply Hgot. rewrite fmap_cons, elem_of_cons in Hn.
  destruct Hn as [Hn|[->|Hn]]; [left; lia|left; lia|by right].
Qed.

(** [move_buf] on a receive buffer [b]. *)
Lemma move_loop_room self b :
  0 <= Kcp.rcv_nxt self < 2 ^ 30 → in_width 16 (Kcp.rcv_wnd self) → len b < 2 ^ 30 →
  let self1 := self <| Kcp.rcv_buf := b |> in
  Kcp.rcv_nxt self1 <= Kcp.rcv_nxt (Kcp.move_buf self1)
  ∧ (∀ n, got self1 n → got (Kcp.move_buf self1) n) ∧ gap (Kcp.move_buf self1).
Proof.
  intros Hn Hw Hb. unfold Kcp.move_buf, got, gap. cbn zeta.
  pose proof (move_loop_got (Kcp.rcv_wnd self) b (Kcp.rcv_queue self)
    (Kcp.rcv_nxt self) ltac:(lia) ltac:(lia)) as H.
  change (Kcp.rcv_buf (self <| Kcp.rcv_buf := b |>)) with b.
  change (Kcp.rcv_wnd (self <| Kcp.rcv_buf := b |>)) with (Kcp.rcv_wnd self).
  change (Kcp.rcv_queue (self <| Kcp.rcv_buf := b |>)) with (Kcp.rcv_queue self).
  change (Kcp.rcv_nxt (self <| Kcp.rcv_buf := b |>)) with (Kcp.rcv_nxt self).
  by destruct (Kcp.move_loop _ _ _ _) as [[b' q] nxt].
Qed.

Lemma move_buf_got self :
  roomy self → Kcp.rcv_nxt self <= Kcp.rcv_nxt (Kcp.move_buf self)
  ∧ (∀ n, got self n → got (Kcp.move_buf self) n) ∧ gap (Kcp.move_buf self).
Proof.
  intros (Hn & Hw & Hb). pose proof (move_loop_room self (Kcp.rcv_buf self) Hn Hw ltac:(lia)) as H.
  by destruct self.
Qed.

Lemma insert_index_repeat sn0 l : ∀ k j,
  Kcp.insert_index sn0 l k = (true, j) → sn0 ∈ Seg.sn <$> l.
Proof.
  induction l as [|s l IH]; intros k j; cbn [Kcp.insert_index]; [done|].
  rewrite fmap_cons. destruct (Z.eqb_spec (Seg.sn s) sn0) as [<-|]; [by left|].
  destruct (_ <? _); [done|]. intros H. right. by eapply IH.
Qed.

(** A segment of the receive window is received. *)
Lemma parse_data_got self s self' :
  roomy self → Kcp.parse_data self s = Ret self' →
  in_width 30 (Seg.sn s) → gap self →
  Kcp.rcv_nxt self <= Kcp.rcv_nxt self' ∧ (∀ n, got self n → got self' n) ∧ gap self'
  ∧ (Seg.sn s < Kcp.rcv_nxt self + Kcp.rcv_wnd self → got self' (Seg.sn s)).
Proof.
  intros Hr. pose proof Hr as (Hn & Hw & Hb). unfold in_width in *. unfold Kcp.parse_data.
  intros E Hs Hgap.
  rewrite <- (wrap_id 32 (Seg.sn s)), <- (wrap_id 32 (Kcp.rcv_nxt self)) in E by lia.
  rewrite wrap_add_l, !timediff_wrap in E by lia.
  destruct (_ || _) eqn:Eb in E.
  { apply Ret_inj in E as <-. split_and!; [lia|done|done|]. intros Hlt.
    apply orb_true_iff in Eb as [Eb|Eb]; [apply Z.leb_le in Eb; lia|]. left.
    apply Z.ltb_lt in Eb. lia. }
  rewrite wrap_id in E by lia.
  destruct (Kcp.insert_index (Seg.sn s) (rev (Kcp.rcv_buf self)) (len (Kcp.rcv_buf self)))
    as [[|] k] eqn:Ei; cbn [negb mbind comp_bind] in E.
  - apply Ret_inj in E as <-. destruct (move_buf_got self Hr) as (H1 & H2 & H3).
    split_and!; [done|done|done|]. intros _. apply H2. right.
    apply insert_index_repeat, list_elem_of_fmap in Ei as (x & -> & Hx).
    apply list_elem_of_fmap. exists x. split; [done|].
    by apply list_elem_of_In, in_rev, list_elem_of_In.
  - apply bind_ret in E as (k1 & E1 & E2). apply bind_ret in E1 as (b & Eins & E1).
    apply Ret_inj in E1 as <-. apply Ret_inj in E2 as <-.
    unfold insert_at in Eins. destruct (_ && _) in Eins; [|done]. apply Ret_inj in Eins.
    assert (∀ n, n ∈ Seg.sn <$> b ↔ n = Seg.sn s ∨ n ∈ Seg.sn <$> Kcp.rcv_buf self) as Hin.
    { intros n. rewrite <- Eins, fmap_app, fmap_cons, elem_of_app, elem_of_cons.
      rewrite <- (take_drop (Z.to_nat k) (Kcp.rcv_buf self)) at 3.
      rewrite fmap_app, elem_of_app. tauto. }
    assert (len b = 1 + len (Kcp.rcv_buf self)) as Hlb.
    { rewrite <- Eins, len_app, len_cons.
      rewrite <- (take_drop (Z.to_nat k) (Kcp.rcv_buf self)) at 3. rewrite len_app. lia. }
    destruct (move_loop_room self b) as (H1 & H2 & H3); [done|done|lia|].
    split_and!; [exact H1| |exact H3|].
    + intros n Hg. apply H2. destruct Hg as [Hg|Hg]; [by left|]. right. apply Hin. by right.
    + intros _. apply H2. right. apply Hin. by left.
Qed.

(** What hearing a segment does to the receive side. *)
Record hears_in (s : Seg.t) (self self' : Kcp.t) : Prop := {
  hi_next : Kcp.rcv_nxt self <= Kcp.rcv_nxt self';
  hi_got : ∀ n, got self n → got self' n;
  hi_gap : gap self';
  hi_acks : ∃ l, Kcp.acklist self' = Kcp.acklist self ++ l ∧ Forall (λ a, got self' a.1) l;
  hi_push : Seg.cmd s = KCP_CMD_PUSH →
    Seg.sn s < Kcp.rcv_nxt self + Kcp.rcv_wnd self →
    got self' (Seg.sn s) ∧ Kcp.acklist self' ≠ [];
}.

Lemma got_ext self self' n :
  Kcp.rcv_nxt self' = Kcp.rcv_nxt self → Kcp.rcv_buf self' = Kcp.rcv_buf self →
  got self n → got self' n.
Proof. intros H1 H2. unfold got. by rewrite H1, H2. Qed.

Lemma got_same self self' n : same_rcv self self' → got self n → got self' n.
Proof. intros (H1 & H2 & _). by apply got_ext. Qed.

Lemma gap_same self self' :
  same_rcv self self' → Kcp.rcv_wnd self' = Kcp.rcv_wnd self → gap self → gap self'.
Proof. intros (H1 & H2 & H3 & _) H4. unfold gap. by rewrite H1, H2, H3, H4. Qed.

Lemma heard_in s self self' :
  heard s self self' → roomy self → gap self →
  (Seg.cmd s = KCP_CMD_PUSH → in_width 30 (Seg.sn s)) → hears_in s self self'.
Proof.
  intros [Hk _ _ _ _ _ _ Hrcv] Hroom Hgap Hs.
  destruct (Z.eqb_spec (Seg.cmd s) KCP_CMD_PUSH) as [Hp|Hp].
  2:{ pose proof Hrcv as (H1 & H2 & H3 & H4).
      split; [lia|intros n; by apply got_same|by apply (gap_same self); [|apply hk_rcv_wnd|]| |done].
      exists []. by rewrite app_nil_r. }
  specialize (Hs Hp). destruct Hrcv as (k1 & Hsame & Hwnd & E). pose proof Hsame as (E1 & E2 & E3 & E4).
  assert (roomy k1) as Hroom1 by (unfold roomy; rewrite E1, E2, Hwnd; exact Hroom).
  assert (gap k1) as Hgap1 by (by eapply gap_same).
  pose proof Hroom as (Hn & Hw & _). unfold in_width in Hs, Hw.
  unfold Kcp.input_push in E. cbn [header_of Kcp.h_sn Kcp.h_ts Kcp.h_len] in E.
  rewrite <- (wrap_id 32 (Seg.sn s)), E1, Hwnd, <- (wrap_id 32 (Kcp.rcv_nxt self)), wrap_add_l,
    timediff_wrap in E by lia.
  destruct (Z.ltb_spec (Seg.sn s - (Kcp.rcv_nxt self + Kcp.rcv_wnd self)) 0) as [Hlt|Hge].
  2:{ apply Ret_inj in E as <-. split; [lia|intros n; by apply got_same|done| |lia].
      exists []. by rewrite app_nil_r. }
  change (Kcp.rcv_nxt (Kcp.ack_push k1 _ _)) with (Kcp.rcv_nxt k1) in E.
  rewrite E1, <- (wrap_id 32 (Kcp.rcv_nxt self)), timediff_wrap in E by lia.
  rewrite !(wrap_id 32 (Seg.sn s)) in E by lia.
  set (k2 := Kcp.ack_push k1 (Seg.sn s) (Seg.ts s)) in E.
  assert (∀ k3, (∀ n, got k2 n → got k3 n) → got k3 (Seg.sn s) → Kcp.acklist k3 = Kcp.acklist k2 →
    (∃ l, Kcp.acklist k3 = Kcp.acklist self ++ l ∧ Forall (λ a, got k3 a.1) l)
    ∧ Kcp.acklist k3 ≠ []) as Hacks.
  { intros k3 _ Hg3 Ea. rewrite Ea. change (Kcp.acklist k2) with (Kcp.acklist k1 ++ [(Seg.sn s, Seg.ts s)]).
    rewrite E4. split; [|by destruct (Kcp.acklist self)].
    exists [(Seg.sn s, Seg.ts s)]. split; [done|by apply Forall_singleton]. }
  destruct (Z.leb_spec 0 (Seg.sn s - Kcp.rcv_nxt self)) as [Hle|Hgt].
  - rewrite slice_all in E. cbn [mbind comp_bind] in E.
    destruct (parse_data_got k2 _ _ Hroom1 E Hs Hgap1) as (P1 & P2 & P3 & P4).
    apply parse_data_frame in E as (b & q & n & Eq).
    assert (got self' (Seg.sn s)) as Hg by (apply P4; cbn; rewrite E1, Hwnd; lia).
    destruct (Hacks self' P2 Hg) as [Ha Hne]; [by rewrite Eq|].
    split; [by rewrite <- E1| |done|done|done]. intros m Hm. apply P2. by apply (got_ext self).
  - apply Ret_inj in E as <-. assert (got k2 (Seg.sn s)) as Hg
      by (left; change (Seg.sn s < Kcp.rcv_nxt k1); lia).
    destruct (Hacks k2 (λ _ H, H) Hg eq_refl) as [Ha Hne].
    split; [by rewrite <- E1| |done|done|done]. intros m Hm. by apply (got_ext self).
Qed.

(** ** Acknowledged numbers *)

(** The numbers of [snd_buf], unwrapped, increase from [lo] on. *)
Fixpoint numbered_from (lo hi : Z) (l : list Seg.t) : Prop :=
  match l with
  | [] => lo <= hi
  | s :: l' => ∃ j, lo <= j < hi ∧ Seg.sn s = j ∧ numbered_from (j + 1) hi l'
  end.

Lemma remove_acked_spec lo hi sn l :
  numbered_from lo hi l →
  Kcp.remove_acked sn l = List.filter (λ s, negb (Seg.sn s =? sn)) l.
Proof.
  revert lo; induction l as [|s l IH]; intros lo; cbn; [done|].
  intros (j & Hj & Hs & Hl). rewrite Hs.
  assert (∀ lo', sn < lo' → numbered_from lo' hi l →
    List.filter (λ s, negb (Seg.sn s =? sn)) l = l) as Hrest.
  { clear. induction l as [|s l IH]; intros lo Hlt; cbn; [done|].
    intros (j & Hj & Hs & Hl). rewrite Hs, (proj2 (Z.eqb_neq _ _)) by lia. cbn.
    f_equal. apply (IH (j + 1)); [lia|done]. }
  destruct (Z.eqb_spec sn j) as [->|Hne].
  - rewrite Z.eqb_refl. cbn. by rewrite (Hrest (j + 1)) by (done || lia).
  - rewrite (proj2 (Z.eqb_neq j sn)) by lia. cbn. destruct (Z.ltb_spec sn j).
    + by rewrite (Hrest (j + 1)) by (done || lia).
    + f_equal. by eapply IH.
Qed.

Lemma numbered_from_ext lo hi l : ∀ l',
  Seg.sn <$> l' = Seg.sn <$> l → numbered_from lo hi l → numbered_from lo hi l'.
Proof.
  revert lo; induction l as [|s l IH]; intros lo l' E; destruct l' as [|s' l']; try done.
  rewrite !fmap_cons in E. injection E as Es El.
  intros (j & Hj & Hs & Hl). exists j. split_and!; [lia|lia|congruence|by apply IH].
Qed.

Lemma numbered_from_in lo hi l n :
  numbered_from lo hi l → n ∈ Seg.sn <$> l → lo <= n < hi.
Proof.
  revert lo; induction l as [|s l IH]; intros lo; cbn; [intros _ H; by apply elem_of_nil in H|].
  intros (j & Hj & Hs & Hl) [->|Hn]%elem_of_cons; [lia|].
  specialize (IH (j + 1) Hl Hn). lia.
Qed.

Lemma numbered_from_weaken lo lo' hi l :
  lo' <= lo → numbered_from lo hi l → numbered_from lo' hi l.
Proof.
  destruct l as [|s l]; cbn; [lia|]. intros Hle (j & Hj & Hs & Hl). exists j.
  split_and!; [lia|lia|done|done].
Qed.

Lemma numbered_from_app lo hi hi' l l' :
  numbered_from lo hi l → numbered_from hi hi' l' → numbered_from lo hi' (l ++ l').
Proof.
  revert lo; induction l as [|s l IH]; intros lo; cbn [numbered_from app].
  - intros Hle. by apply numbered_from_weaken.
  - intros (j & Hj & Hs & Hl) Hl'. exists j. split_and!; [lia| |done|by apply IH].
    assert (hi <= hi'); [|lia]. clear -Hl'. revert hi Hl'. induction l' as [|s' l' IH]; intros hi; cbn; [done|].
    intros (j' & Hj' & _ & Hl'). specialize (IH _ Hl'). lia.
Qed.

Lemma drop_acked_numbers una lo hi l :
  numbered_from lo hi l → 0 <= lo → hi <= 2 ^ 30 → 0 <= una <= 2 ^ 30 →
  numbered_from (lo `max` una) hi (Kcp.drop_acked una l) ∨ Kcp.drop_acked una l = [].
Proof.
  revert lo; induction l as [|s l IH]; intros lo; cbn [Kcp.drop_acked numbered_from]; [by right|].
  intros (j & Hj & Hs & Hl) H0 Hhi Hu.
  rewrite <- (wrap_id 32 una), Hs, <- (wrap_id 32 j), timediff_wrap by lia.
  rewrite (wrap_id 32 una) by lia. destruct (Z.ltb_spec 0 (una - j)) as [Hlt|Hge].
  - destruct (IH (j + 1) Hl) as [H|H]; [lia|lia|lia| |by right]. left.
    eapply numbered_from_weaken; [|exact H]. lia.
  - left. exists j. split_and!; [lia|lia|done|done].
Qed.

Lemma drop_acked_in una lo hi l n :
  numbered_from lo hi l → 0 <= lo → hi <= 2 ^ 30 → 0 <= una <= 2 ^ 30 →
  n ∈ Seg.sn <$> l → una <= n → n ∈ Seg.sn <$> Kcp.drop_acked una l.
Proof.
  revert lo; induction l as [|s l IH]; intros lo; cbn [Kcp.drop_acked numbered_from]; [done|].
  intros (j & Hj & Hs & Hl) H0 Hhi Hu Hn Hle.
  rewrite <- (wrap_id 32 una), Hs, <- (wrap_id 32 j), timediff_wrap by lia.
  rewrite (wrap_id 32 una) by lia. destruct (Z.ltb_spec 0 (una - j)); [|done].
  rewrite fmap_cons in Hn. apply elem_of_cons in Hn as [->|Hn]; [lia|].
  apply (IH (j + 1)); done || lia.
Qed.

Lemma remove_acked_numbers sn0 lo hi l :
  numbered_from lo hi l → numbered_from lo hi (Kcp.remove_acked sn0 l).
Proof.
  revert lo; induction l as [|s l IH]; intros lo; cbn [Kcp.remove_acked]; [done|].
  intros (j & Hj & Hs & Hl). destruct (_ =? _).
  { eapply numbered_from_weaken; [|exact Hl]. lia. }
  destruct (_ <? _); [by exists j|]. exists j. split_and!; [lia|lia|done|by apply IH].
Qed.

Lemma remove_acked_in sn0 l n :
  n ∈ Seg.sn <$> l → n ≠ sn0 → n ∈ Seg.sn <$> Kcp.remove_acked sn0 l.
Proof.
  intros Hn Hne. induction l as [|s l IH]; cbn [Kcp.remove_acked]; [done|].
  rewrite fmap_cons in Hn. apply elem_of_cons in Hn.
  destruct (Z.eqb_spec sn0 (Seg.sn s)) as [->|]; [by destruct Hn as [->|]|].
  destruct (_ <? _); rewrite fmap_cons; apply elem_of_cons; [done|].
  destruct Hn as [->|Hn]; [by left|right; by apply IH].
Qed.

Lemma count_fastack_sns sn0 ts0 l : Seg.sn <$> Kcp.count_fastack sn0 ts0 l = Seg.sn <$> l.
Proof.
  induction l as [|s l IH]; cbn [Kcp.count_fastack]; [done|].
  destruct (_ <? 0); [done|]. rewrite !fmap_cons, IH. by destruct (_ && _).
Qed.
