(* ===== verification/KcpTimers.v ===== *)
(** * The timers of a KCP endpoint

    Retransmission, flush and probe timers, unwrapped: they stay in a window
    [lo..hi] of the clock, and once the clock reached [hi] an update flushes,
    every segment in flight is sent again, and a pending probe is due. *)

From S2P Require Import Prelude Bytes Kcp KcpWire KcpMessage KcpReceive KcpInv KcpFlush.
From S2P Require Import KcpEmit KcpHear.

(** The stamp [t] is the time of an instant between [lo] and [hi]. *)
Definition at_time (lo hi t : Z) : Prop := ∃ T, t = wrap 32 T ∧ lo <= T <= hi.

Lemma at_time_weaken lo hi lo' hi' t :
  lo' <= lo → hi <= hi' → at_time lo hi t → at_time lo' hi' t.
Proof. intros H1 H2 (T & -> & HT). exists T. split; [done|lia]. Qed.

Lemma at_time_add lo hi T d : lo <= T + d <= hi → at_time lo hi (wrap 32 T +{32} d).
Proof. intros H. exists (T + d). by rewrite wrap_add_l. Qed.

Lemma at_time_due lo hi T t :
  at_time lo hi t → hi <= T < lo + 2 ^ 31 → 0 <= timediff (wrap 32 T) t.
Proof. intros (R & -> & HR) HT. rewrite timediff_wrap by lia. lia. Qed.

(** The longest delay of any timer. *)
Definition patience (self : Kcp.t) : Z := KcpTiming.probe_max (Kcp.timing self).

(** The timing parameters are ordered as [KcpTiming.new] makes them. *)
Record sane (t : KcpTiming.t) : Prop := {
  sn_rto : 0 <= KcpTiming.rto_max t
    ∧ KcpTiming.rto_max t + KcpTiming.rto_max t / 8 <= KcpTiming.probe_max t;
  sn_interval : 0 <= KcpTiming.interval t <= KcpTiming.probe_max t;
  sn_probe : 0 < KcpTiming.probe_initial t <= KcpTiming.probe_max t;
  sn_max : KcpTiming.probe_max t < 2 ^ 30;
}.

Lemma timing_new_sane scale : 0 < scale < 2 ^ 8 → sane (KcpTiming.new scale).
Proof.
  intros H. unfold KcpTiming.new, KCP_RTO_MAX_SCALE.
  split; cbn [KcpTiming.rto_max KcpTiming.probe_max KcpTiming.interval KcpTiming.probe_initial];
    rewrite ?(wrap_id 32) by lia; [|lia|lia|lia].
  split; [lia|]. pose proof (Z.div_mod (6000 * scale) 8 ltac:(lia)).
  pose proof (Z.mod_pos_bound (6000 * scale) 8 ltac:(lia)). lia.
Qed.

(** A segment in flight: when it is due, and its own timeout. *)
Definition timed (lo hi rto_max : Z) (s : Seg.t) : Prop :=
  at_time lo hi (Seg.resendts s) ∧ 0 <= Seg.rto s <= rto_max.

Record timers (lo hi : Z) (self : Kcp.t) : Prop := {
  tm_sane : sane (Kcp.timing self);
  tm_flush : at_time lo hi (Kcp.ts_flush self);
  tm_probe : Kcp.probe_wait self ≠ 0 → at_time lo hi (Kcp.ts_probe self);
  tm_wait : 0 <= Kcp.probe_wait self <= patience self;
  tm_segs : Forall (timed lo hi (KcpTiming.rto_max (Kcp.timing self))) (Kcp.snd_buf self);
}.

(** ** One segment *)

Section segment.
Context (self : Kcp.t) (wnd T : Z).
Hypothesis sane_self : sane (Kcp.timing self).
Hypothesis rto_self : 0 <= Kcp.rx_rto self <= KcpTiming.rto_max (Kcp.timing self).
Hypothesis now_self : Kcp.current self = wrap 32 T.

Lemma rto_min_bound : 0 <= rto_min self <= KcpTiming.rto_max (Kcp.timing self) / 8.
Proof using rto_self.
  unfold rto_min. destruct (negb _).
  - rewrite Z.shiftr_div_pow2 by lia. change (2 ^ 3) with 8.
    split; [apply Z.div_pos; lia|apply Z.div_le_mono; lia].
  - split; [lia|apply Z.div_pos; lia].
Qed.

(** The timeout of a retransmission, however it grew. *)
Lemma backed_off x s :
  let rto := wrap 32 x `min` KcpTiming.rto_max (Kcp.timing self) in
  Seg.rto s = rto → Seg.resendts s = Kcp.current self +{32} rto →
  timed T (T + patience self) (KcpTiming.rto_max (Kcp.timing self)) s.
Proof using sane_self now_self rto_self.
  cbn zeta. intros H1 H2. pose proof (wrap_range 32 x ltac:(lia)) as Hw.
  destruct sane_self as [[Hs1 Hs2] _ _ _]. unfold in_width in Hw.
  pose proof (Z.div_pos (KcpTiming.rto_max (Kcp.timing self)) 8 ltac:(lia) ltac:(lia)).
  split; [|rewrite H1; lia]. rewrite H2, now_self. apply at_time_add. unfold patience. lia.
Qed.

(** What is sent gets a new deadline. *)
Lemma transmission_timed lo hi s s' :
  timed lo hi (KcpTiming.rto_max (Kcp.timing self)) s → transmission self wnd s = Some s' →
  timed T (T + patience self) (KcpTiming.rto_max (Kcp.timing self)) s'.
Proof using sane_self rto_self now_self.
  intros [_ Hr]. unfold transmission, Kcp.flush_decide. pose proof rto_min_bound as Hm.
  destruct sane_self as [[Hs1 Hs2] _ _ Hs3]. unfold patience.
  pose proof (Z.div_le_upper_bound (KcpTiming.rto_max (Kcp.timing self)) 8
    (KcpTiming.rto_max (Kcp.timing self)) ltac:(lia) ltac:(lia)) as H8.
  destruct (Seg.xmit s =? 0); [|destruct (0 <=? _); [|destruct (_ && _)]];
    cbn beta iota zeta; [intros [= <-]|destruct (negb (Kcp.nodelay self)); intros [= <-]|intros [= <-]|done].
  - split; [|cbn; lia]. cbn. rewrite now_self. apply at_time_add.
    rewrite wrap_id by lia. lia.
  - by eapply backed_off.
  - by eapply backed_off.
  - split; [|cbn; lia]. cbn. rewrite now_self. apply at_time_add. lia.
Qed.

(** A segment whose time has come is sent. *)
Lemma transmission_due lo hi s :
  timed lo hi (KcpTiming.rto_max (Kcp.timing self)) s → hi <= T < lo + 2 ^ 31 →
  is_Some (transmission self wnd s).
Proof using now_self.
  intros [Ht _] HT. unfold transmission, Kcp.flush_decide.
  destruct (Seg.xmit s =? 0); [by eexists|]. rewrite now_self.
  rewrite (proj2 (Z.leb_le _ _)) by (by eapply at_time_due). by eexists.
Qed.

Lemma retimed_keep lo hi s :
  timed lo hi (KcpTiming.rto_max (Kcp.timing self)) s → lo <= T → T + patience self <= hi →
  timed lo hi (KcpTiming.rto_max (Kcp.timing self)) (retimed self wnd s).
Proof using sane_self rto_self now_self.
  intros Hs H1 H2. unfold retimed. destruct (transmission self wnd s) as [s'|] eqn:E; [|done].
  cbn. destruct (transmission_timed lo hi s s' Hs E) as [Ht Hr]. split; [|done].
  eapply at_time_weaken; [..|exact Ht]; lia.
Qed.

Lemma retimed_due lo hi s :
  timed lo hi (KcpTiming.rto_max (Kcp.timing self)) s → hi <= T < lo + 2 ^ 31 →
  timed T (T + patience self) (KcpTiming.rto_max (Kcp.timing self)) (retimed self wnd s).
Proof using sane_self rto_self now_self.
  intros Hs HT. destruct (transmission_due lo hi s Hs HT) as [s' E].
  unfold retimed. rewrite E. by eapply transmission_timed.
Qed.

(** What a transmission carries. *)
Lemma transmission_carries s s' :
  transmission self wnd s = Some s' →
  Seg.sn s' = Seg.sn s ∧ Seg.cmd s' = Seg.cmd s ∧ Seg.wnd s' = wnd
  ∧ Seg.una s' = Kcp.rcv_nxt self ∧ carried s' = carried s ∧ Seg.conv s' = Seg.conv s.
Proof.
  unfold transmission, Kcp.flush_decide.
  destruct (Seg.xmit s =? 0); [|destruct (0 <=? _); [|destruct (_ && _)]];
    cbn beta iota zeta; [|destruct (negb _)| |done]; intros [= <-]; done.
Qed.

Lemma retimed_sn (l : list Seg.t) : Seg.sn <$> (retimed self wnd <$> l) = Seg.sn <$> l.
Proof.
  rewrite <- list_fmap_compose. apply list_fmap_ext. intros i s _. cbn. unfold retimed.
  destruct (transmission self wnd s) as [s'|] eqn:E; [|done].
  by destruct (transmission_carries s s' E).
Qed.
End segment.

(** ** Probes *)

Lemma probe_timed self lo hi T :
  sane (Kcp.timing self) → Kcp.current self = wrap 32 T → 0 <= Kcp.probe_wait self <= patience self →
  (Kcp.probe_wait self ≠ 0 → at_time lo hi (Kcp.ts_probe self)) →
  let probe := Kcp.probe_wnd_size self in
  0 <= Kcp.probe_wait probe <= patience self
  ∧ (Kcp.probe_wait probe ≠ 0 →
       at_time T (T + patience self) (Kcp.ts_probe probe) ∨ Kcp.ts_probe probe = Kcp.ts_probe self
         ∧ Kcp.probe_wait self ≠ 0 ∧ timediff (Kcp.current self) (Kcp.ts_probe self) < 0)
  ∧ (Kcp.rmt_wnd self = 0 → Kcp.probe_wait probe ≠ 0)
  ∧ (Kcp.rmt_wnd self = 0 → Kcp.probe_wait self ≠ 0 → hi <= T < lo + 2 ^ 31 →
       asks probe KCP_ASK_SEND = true).
Proof.
  intros [_ _ [Hp1 Hp2] Hmax] Hnow Hw Ht. cbn zeta. unfold Kcp.probe_wnd_size, patience in *.
  destruct (Z.eqb_spec (Kcp.rmt_wnd self) 0) as [Hr|Hr].
  2:{ split; [|split; [|split]]; [cbn; lia|intros H; by destruct H|intros H; by destruct Hr|intros H; by destruct Hr]. }
  destruct (Z.eqb_spec (Kcp.probe_wait self) 0) as [H0|H0].
  { split; [|split; [|split]]; [cbn; lia| |intros _; cbn; lia|done]. intros _. left. cbn. rewrite Hnow.
    apply at_time_add. lia. }
  destruct (Z.leb_spec 0 (timediff (Kcp.current self) (Kcp.ts_probe self))) as [Hle|Hgt].
  - set (w := Kcp.probe_wait self `max` KcpTiming.probe_initial (Kcp.timing self)).
    assert (0 < w <= KcpTiming.probe_max (Kcp.timing self)) as Hww by (unfold w; lia).
    pose proof (half_bound w ltac:(lia)) as Hhalf.
    assert (0 < (w +{32} w / 2) `min` KcpTiming.probe_max (Kcp.timing self)
      <= KcpTiming.probe_max (Kcp.timing self)) as Hw2 by (rewrite wrap_id by lia; lia).
    cbn [Kcp.probe_wait Kcp.ts_probe Kcp.probe update].
    split; [|split; [|split]]; [cbn; fold w; lia| |intros _; cbn; fold w; lia|].
    + intros _. left. cbn. fold w. rewrite Hnow. apply at_time_add. lia.
    + intros _ _ _. unfold asks. cbn.
      rewrite Z.land_lor_distr_l. change (Z.land KCP_ASK_SEND KCP_ASK_SEND) with 1.
      apply negb_true_iff, Z.eqb_neq. intros H%Z.lor_eq_0_iff. lia.
  - split; [|split; [|split]]; [done| |done|].
    + intros _. right. done.
    + intros _ H1 H2. pose proof (at_time_due lo hi T _ (Ht H1) H2). rewrite <- Hnow in *. lia.
Qed.

(** ** Flushes and updates *)

Lemma number_all_timed self wnd T lo hi l : ∀ n,
  Kcp.current self = wrap 32 T → lo <= T <= hi →
  0 <= Kcp.rx_rto self <= KcpTiming.rto_max (Kcp.timing self) →
  Forall (timed lo hi (KcpTiming.rto_max (Kcp.timing self))) (number_all self wnd n l).
Proof.
  intros n Hnow HT Hr. revert n. induction l as [|s l IH]; intros n; cbn [number_all]; constructor; [|apply IH].
  split; [|done]. exists T. by split.
Qed.

Section flushes.
Context (self self' : Kcp.t) (groups : list (list Seg.t)) (taken rest : list Seg.t) (T : Z).
Hypothesis flushed_self : flushed self self' groups taken rest.
Hypothesis sane_self : sane (Kcp.timing self).
Hypothesis rto_self : 0 <= Kcp.rx_rto self <= KcpTiming.rto_max (Kcp.timing self).
Hypothesis now_self : Kcp.current self = wrap 32 T.

Lemma flushed_segs_keep lo hi :
  Forall (timed lo hi (KcpTiming.rto_max (Kcp.timing self))) (Kcp.snd_buf self) →
  lo <= T → T + patience self <= hi →
  Forall (timed lo hi (KcpTiming.rto_max (Kcp.timing self))) (Kcp.snd_buf self').
Proof using All.
  intros Hs H1 H2. rewrite (fd_buf _ _ _ _ _ flushed_self). apply Forall_fmap.
  pose proof (sn_probe _ sane_self) as Hp. unfold patience in H2.
  eapply (Forall_impl (timed lo hi (KcpTiming.rto_max (Kcp.timing self)))).
  - apply Forall_app. split; [done|]. apply (number_all_timed self _ T); [done|lia|done].
  - intros s Ht. by apply (retimed_keep self _ T).
Qed.

Lemma flushed_segs_due lo hi :
  Forall (timed lo hi (KcpTiming.rto_max (Kcp.timing self))) (Kcp.snd_buf self) →
  hi <= T < lo + 2 ^ 31 →
  Forall (timed T (T + patience self) (KcpTiming.rto_max (Kcp.timing self))) (Kcp.snd_buf self').
Proof using All.
  intros Hs HT. rewrite (fd_buf _ _ _ _ _ flushed_self), fmap_app. apply Forall_app.
  split; apply Forall_fmap.
  - eapply Forall_impl; [exact Hs|]. intros s Ht. by apply (retimed_due self _ T) with lo hi.
  - eapply (Forall_impl (timed T T (KcpTiming.rto_max (Kcp.timing self)))).
    + apply (number_all_timed self _ T); [done|lia|done].
    + intros s Ht. apply (retimed_due self _ T) with T T; done || lia.
Qed.

(** Every segment in flight after the flush has just been sent. *)
Lemma flushed_sends lo hi s :
  Forall (timed lo hi (KcpTiming.rto_max (Kcp.timing self))) (Kcp.snd_buf self) →
  hi <= T < lo + 2 ^ 31 → s ∈ Kcp.snd_buf self' → s ∈ mjoin groups.
Proof using All.
  intros Hs HT Hin. rewrite (fd_segments _ _ _ _ _ flushed_self).
  rewrite (fd_buf _ _ _ _ _ flushed_self) in Hin.
  apply list_elem_of_fmap in Hin as (s0 & -> & Hin).
  assert (is_Some (transmission self (Kcp.wnd_unused self) s0)) as [s1 E].
  { apply elem_of_app in Hin as [Hin|Hin].
    - apply (transmission_due self _ T now_self lo hi); [|done].
      by apply (proj1 (Forall_forall _ _) Hs).
    - apply (transmission_due self _ T now_self T T); [|lia].
      apply (proj1 (Forall_forall _ _) (number_all_timed self (Kcp.wnd_unused self) T T T taken
        (Kcp.snd_nxt self) now_self ltac:(lia) rto_self)). done. }
  apply elem_of_app. right. apply elem_of_app. right. apply list_elem_of_omap.
  exists s0. split; [done|]. unfold retimed. by rewrite E.
Qed.

End flushes.

Lemma update_split self T lo hi r self' :
  sane (Kcp.timing self) → at_time lo hi (Kcp.ts_flush self) →
  (∀ F, lo <= F <= hi → - 2 ^ 31 <= T - F < 2 ^ 31) →
  Kcp.update self (wrap 32 T) = Ret (r, self') →
  ∃ f, let k := self <| Kcp.current := wrap 32 T |> <| Kcp.updated := true |>
                     <| Kcp.ts_flush := f |> in
    (Kcp.flush k = Ret (r, self') ∧ at_time T (T + patience self) f)
    ∨ (self' = k ∧ r = Ok tt ∧ f = Kcp.ts_flush self ∧ T < hi).
Proof.
  intros [_ [Hi1 Hi2] _ Hmax] (F & HF & HFr) Hnear. unfold Kcp.update. cbn zeta.
  set (k1 := if negb (Kcp.updated _) then _ else _).
  assert (∃ G, k1 = self <| Kcp.current := wrap 32 T |> <| Kcp.updated := true |>
      <| Kcp.ts_flush := wrap 32 G |> ∧ (G = F ∨ G = T)) as (G & E1 & HG).
  { unfold k1. change (Kcp.updated (self <| Kcp.current := wrap 32 T |>)) with (Kcp.updated self).
    destruct (Kcp.updated self) eqn:Eu; cbn [negb].
    - exists F. split; [|by left]. rewrite <- HF. by destruct self; cbn in Eu; subst.
    - exists T. split; [done|by right]. }
  clearbody k1. subst k1.
  match goal with |- context [timediff ?a ?b] =>
    change a with (wrap 32 T); change b with (wrap 32 G) end.
  assert (- 2 ^ 31 <= T - G < 2 ^ 31) as Hd by (destruct HG as [-> | ->]; [by apply Hnear|lia]).
  rewrite (timediff_wrap T G Hd).
  set (st := if negb ((_ <=? _) && (_ <? _)) then _ else _).
  assert (∃ G', st = (self <| Kcp.current := wrap 32 T |> <| Kcp.updated := true |>
      <| Kcp.ts_flush := wrap 32 G' |>, T - G') ∧ (G' = F ∨ G' = T) ∧ - 2 ^ 31 <= T - G' < 2 ^ 31)
    as (G' & Est & HG' & Hd').
  { unfold st. destruct (negb _).
    - exists T. rewrite Z.sub_diag. split; [done|]. split; [by right|lia].
    - by exists G. }
  clearbody st. subst st. cbn beta iota zeta.
  destruct (Z.leb_spec 0 (T - G')) as [Hle|Hlt].
  2:{ intros [= <- <-]. exists (Kcp.ts_flush self). right. destruct HG' as [-> | ->]; [|lia].
      rewrite HF. split_and!; [done|done|done|lia]. }
  intros ([r' k] & E & Hr)%bind_ret. apply Ret_inj in Hr as [= <- <-].
  unfold patience. set (d := KcpTiming.interval (Kcp.timing self)) in *.
  match type of E with context [0 <=? timediff ?a ?b] =>
    change (timediff a b) with (timediff (wrap 32 T) (wrap 32 G' +{32} d)) in E end.
  rewrite wrap_add_l, timediff_wrap in E by lia.
  destruct (Z.leb_spec 0 (T - (G' + d))) as [Hle2|Hlt2].
  - exists (wrap 32 T +{32} d). left. split; [exact E|]. apply at_time_add. lia.
  - exists (wrap 32 G' +{32} d). left. split; [exact E|]. apply at_time_add. lia.
Qed.
