(* ===== verification/KcpStream.v ===== *)
(** * Reliable streams over an unreliable network

    Two KCP endpoints exchange datagrams over a network that may lose, delay,
    reorder and duplicate them.  The specification is a pair of message
    queues: what one side's [recv] returned is a prefix of what the other
    side's [send] accepted.  The refinement is proved over every interleaving
    of the calls of [Kcp], and every call returns. *)

From S2P Require Import Prelude Bytes Kcp KcpWire KcpMessage KcpReceive KcpInv.
From S2P Require Import KcpFlush.

(** ** Parameters a connection may be created with *)

Record params_ok (p : KcpParams.t) : Prop := {
  params_mtu : KCP_OVERHEAD < KcpParams.mtu p < 2 ^ 32;
  params_snd : in_width 16 (KcpParams.send_window p);
  params_rcv : in_width 16 (KcpParams.receive_window p);
  params_fast : from_option (λ r, 0 < r < 2 ^ 32) True (KcpParams.fast_resend p);
  params_scale : in_width 8 (KcpParams.time_scale p);
}.

(** What [Kcp.new] fixes for the life of a connection. *)
Definition connection (conv : Z) (p : KcpParams.t) : Static :=
  {| st_conv := conv; st_mtu := KcpParams.mtu p; st_rcv_wnd := KcpParams.receive_window p |}.

Lemma new_inv P conv p :
  in_width 64 conv → params_ok p →
  kcp_inv (H := connection conv p) P [] [] (Kcp.new conv p).
Proof.
  intros Hc []. unfold in_width, KCP_OVERHEAD in *.
  pose proof (wrap_id 32 (3 * KcpParams.time_scale p) ltac:(lia)) as H3.
  pose proof (wrap_id 32 (10 * KcpParams.time_scale p) ltac:(lia)) as H10.
  pose proof (wrap_id 32 (20 * KcpParams.time_scale p) ltac:(lia)) as H20.
  pose proof (wrap_id 32 (KCP_RTO_MAX_SCALE * KcpParams.time_scale p)
    ltac:(unfold KCP_RTO_MAX_SCALE; lia)) as Hmax. unfold KCP_RTO_MAX_SCALE in Hmax.
  split_and!.
  - constructor; unfold in_width, KCP_OVERHEAD; cbn; try lia; try done.
    + unfold KCP_OVERHEAD. rewrite wrap_id; lia.
    + destruct (KcpParams.nodelay p); unfold KCP_RTO_MAX_SCALE; lia.
  - by constructor.
  - by constructor.
  - split; [done|]. exists 0. constructor; cbn; try done.
    rewrite (@len_nil Seg.t). lia.
Qed.

(** ** The remaining calls *)

Section calls.
Context `{St : Static} (P : Z → Seg.t → Prop) (slog : list (Z * list Z)).

Lemma carried_fragment_segs (fs : list (Z * list Z)) : carried <$> (fragment_seg <$> fs) = fs.
Proof.
  rewrite <- list_fmap_compose. rewrite <- (list_fmap_id fs) at 2.
  apply list_fmap_ext. by intros ? [].
Qed.

Lemma send_kinv hist self bytes :
  kcp_inv P slog hist self → bytes_ok bytes →
  ∃ r self', Kcp.send self bytes = Ret (r, self') ∧ kcp_inv P slog hist self'
    ∧ match r with
      | Err _ => self' = self
      | Ok _ => fragment_count (Kcp.mss self) bytes < 256
          ∧ (carried <$> Kcp.snd_queue self')
            = (carried <$> Kcp.snd_queue self) ++ message_fragments (Kcp.mss self) bytes
      end.
Proof.
  intros (Hconf & Hs & Ho & Hr) Hb. pose proof (conf_mss_pos self Hconf) as Hm.
  rewrite send_eq by lia. destruct (_ || _) eqn:E; [by eexists _, self|]. bool_to_prop.
  eexists _, _; split; [done|]. split.
  - destruct Hconf, Hs, Ho. split_and!; [by constructor|constructor; try done|by constructor|].
    + cbn. apply Forall_app. split; [done|]. apply Forall_fmap.
      pose proof (fragments_bounded (Kcp.mss self)
        (Z.to_nat (fragment_count (Kcp.mss self) bytes)) bytes ltac:(lia)) as Hl.
      pose proof (fragments_bytes_ok (Kcp.mss self)
        (Z.to_nat (fragment_count (Kcp.mss self) bytes)) bytes Hb) as Hok.
      apply Forall_forall. intros f Hf.
      apply (proj1 (Forall_forall _ _)) with (x := f) in Hl; [|done].
      apply (proj1 (Forall_forall _ _)) with (x := f) in Hok; [|done].
      apply list_elem_of_lookup in Hf as [i Hi]. apply fragments_frg in Hi as Hf.
      apply lookup_lt_Some in Hi. unfold message_fragments in Hi.
      rewrite length_fragments in Hi.
      split_and!; [|done|done]. cbn. unfold in_width.
      pose proof (fragment_count_pos (Kcp.mss self) bytes). lia.
    + by eapply rcv_inv_ext; [..|exact Hr].
  - split; [lia|]. cbn. by rewrite fmap_app, carried_fragment_segs.
Qed.

Lemma take_output_kinv hist self :
  kcp_inv P slog hist self →
  kcp_inv P slog hist (Kcp.take_output self).2
  ∧ Forall (good_datagram st_conv st_mtu slog) (Kcp.take_output self).1.
Proof.
  intros (Hconf & Hs & Ho & Hr). cbn.
  destruct (conf_static _ Hconf) as (<- & <- & _). split; [|apply Ho].
  destruct Hconf, Hs, Ho.
  split_and!; [by constructor..|by eapply rcv_inv_ext; [..|exact Hr]].
Qed.

(** Everything queued fits in memory. *)
Lemma payload_bound l :
  Forall (λ s, len (Seg.data s) < 2 ^ 32) l → len l < 2 ^ 16 → len (payload l) < 2 ^ 64.
Proof.
  intros Hl Hlt. assert (len (payload l) <= len l * 2 ^ 32) as H; [|nia].
  clear Hlt. induction Hl as [|s l Hs Hl IH]; [done|].
  rewrite payload_cons, len_app, len_cons. nia.
Qed.

Lemma after_recv_inv hist self :
  kcp_inv P slog hist self →
  kcp_inv P slog (hist ++ (first_message (Kcp.rcv_queue self)).1)
    (after_recv self (first_message (Kcp.rcv_queue self)).2)
  ∧ Kcp.snd_queue (after_recv self (first_message (Kcp.rcv_queue self)).2)
    = Kcp.snd_queue self.
Proof.
  intros (Hconf & Hs & Ho & (Hw & n & Hinv)).
  pose proof (first_message_split (Kcp.rcv_queue self)) as Hsplit.
  destruct (first_message (Kcp.rcv_queue self)) as [m q]. cbn [fst snd].
  set (self1 := self <| Kcp.rcv_queue := q |>).
  assert (rcv_inv_at P n (hist ++ m) self1) as H1.
  { destruct Hinv as [Hn Hc Hl Hq Hb]. rewrite Hsplit in Hc, Hl, Hq.
    rewrite len_app in Hc, Hq. pose proof (len_nonneg m).
    constructor; cbn; [done|rewrite len_app; lia| |lia|done].
    by rewrite <- (assoc_L (++)). }
  destruct (move_buf_inv P n (hist ++ m) self1 Hw H1) as (n' & H2 & _ & _).
  unfold after_recv. fold self1.
  destruct (move_buf_frame self1) as (b & q' & nx & E).
  assert (in_width 32 nx) as Hnx.
  { destruct H2 as [H2 _ _ _ _]. rewrite E in H2. cbn in H2. rewrite H2. by apply wrap_range. }
  assert (kcp_inv P slog (hist ++ m) (Kcp.move_buf self1)) as Hk.
  { destruct Hconf, Hs, Ho. split_and!;
      [rewrite E; by constructor..|split; [by rewrite move_buf_rcv_wnd|by exists n']]. }
  split.
  - destruct (_ && _); [|done]. by apply set_probe_inv.
  - destruct (_ && _); by rewrite E.
Qed.

Lemma queue_payload_bound hist self :
  (∀ j s, P j s → len (Seg.data s) < 2 ^ 32) → kcp_inv P slog hist self →
  len (payload (Kcp.rcv_queue self)) < 2 ^ 64.
Proof.
  intros HP (_ & _ & _ & (Hw & n & [_ _ Hlog Hq _])). unfold in_width in Hw.
  apply payload_bound; [|lia]. apply Forall_lookup. intros i s Hi.
  apply (HP (Z.of_nat (length hist + i)) s), Hlog.
  rewrite lookup_app_r by lia. by replace (length hist + i - length hist)%nat with i by lia.
Qed.

Lemma recv_kinv hist self buf :
  (∀ j s, P j s → len (Seg.data s) < 2 ^ 32) →
  kcp_inv P slog hist self → len buf < 2 ^ 64 →
  ∃ r self' buf', Kcp.recv self buf = Ret (r, self', buf')
    ∧ Kcp.snd_queue self' = Kcp.snd_queue self
    ∧ match r with
      | Err _ => self' = self
      | Ok n =>
          let m := (first_message (Kcp.rcv_queue self)).1 in
          kcp_inv P slog (hist ++ m) self' ∧ take (Z.to_nat n) buf' = payload m
          ∧ Kcp.peeksize self = Ok n
      end.
Proof.
  intros HP H Hb. pose proof (queue_payload_bound hist self HP H) as Hl.
  rewrite recv_eq by done.
  destruct (Kcp.peeksize self) as [n|e] eqn:Hp; [|by eexists _, _, _].
  destruct (_ <? _); [by eexists _, _, _|].
  destruct (after_recv_inv hist self H) as [Hinv Hq].
  eexists _, _, _; split; [done|]. split; [exact Hq|].
  cbn beta iota zeta. split_and!; [done| |done].
  apply peeksize_Ok in Hp as ->; [|done].
  apply take_app_length'. unfold len. by rewrite Nat2Z.id.
Qed.
End calls.

(** ** Two peers and a network *)

(** One side: its endpoint, the messages its [send] accepted, the messages its
    [recv] returned, and every datagram it ever emitted. *)
Record peer := {
  node : Kcp.t;
  sent : list (list Z);
  received : list (list Z);
  wire : list (list Z);
}.

#[export] Instance eta_peer : Eta peer := λ p,
  Build_peer (node p) (sent p) (received p) (wire p).

Inductive call : Type :=
  | CallSend (message : list Z)
  | CallUpdate (now : Z)
  | CallFlush
  | CallInput (now : Z) (datagram : nat)
  | CallRecv (size : Z)
  | CallTakeOutput.

(** A call on one side; the network may deliver any datagram the other side
    emitted, at any time and any number of times. *)
Definition peer_call (inbox : list (list Z)) (c : call) (p : peer) : comp peer :=
  match c with
  | CallSend m =>
      '(r, k) ← Kcp.send (node p) m;
      Ret (match r with Ok _ => p <| node := k |> <| sent ::= λ l, l ++ [m] |>
           | Err _ => p <| node := k |> end)
  | CallUpdate now => '(_, k) ← Kcp.update (node p) now; Ret (p <| node := k |>)
  | CallFlush => '(_, k) ← Kcp.flush (node p); Ret (p <| node := k |>)
  | CallInput now i =>
      match inbox !! i with
      | Some d => '(_, k) ← Kcp.input (node p) now d; Ret (p <| node := k |>)
      | None => Ret p
      end
  | CallRecv size =>
      '(r, k, buf) ← Kcp.recv (node p) (vec size 0);
      Ret (match r with
           | Ok n => p <| node := k |> <| received ::= λ l, l ++ [take (Z.to_nat n) buf] |>
           | Err _ => p <| node := k |>
           end)
  | CallTakeOutput =>
      let '(out, k) := Kcp.take_output (node p) in
      Ret (p <| node := k |> <| wire ::= λ l, l ++ out |>)
  end.

(** The two sides: [true] for the first. *)
Fixpoint run_calls (calls : list (bool * call)) (a b : peer) : comp (peer * peer) :=
  match calls with
  | [] => Ret (a, b)
  | (true, c) :: calls' => a ← peer_call (wire b) c a; run_calls calls' a b
  | (false, c) :: calls' => b ← peer_call (wire a) c b; run_calls calls' a b
  end.

Definition new_peer (conv : Z) (params : KcpParams.t) : peer :=
  Build_peer (Kcp.new conv params) [] [] [].

Definition call_ok (c : call) : Prop :=
  match c with
  | CallSend m => bytes_ok m
  | CallUpdate now | CallInput now _ => in_width 32 now
  | CallRecv size => 0 <= size < 2 ^ 64
  | CallFlush | CallTakeOutput => True
  end.

(** The number of segments the calls of one side may create. *)
Definition call_segments (mss : Z) (c : call) : Z :=
  match c with CallSend m => fragment_count mss m | _ => 0 end.

Fixpoint offered (mss : Z) (side : bool) (calls : list (bool * call)) : Z :=
  match calls with
  | [] => 0
  | (s, c) :: calls' =>
      (if eqb s side then call_segments mss c else 0) + offered mss side calls'
  end.

(** ** The refinement invariant *)

(** Segment [j] of the peer, as logged. *)
Definition from_peer (rlog : list (Z * list Z)) (j : Z) (s : Seg.t) : Prop :=
  len (Seg.data s) < 2 ^ 32
  ∧ (j < 2 ^ 32 → rlog !! Z.to_nat j = Some (carried s)).

Definition stream_of (mss : Z) (messages : list (list Z)) : list (Z * list Z) :=
  mjoin (message_fragments mss <$> messages).

(** The size of a full segment's data. *)
Definition mss_of (p : KcpParams.t) : Z := KcpParams.mtu p - KCP_OVERHEAD.

Section invariant.
Context (conv : Z).

Record peer_inv (params : KcpParams.t) (slog rlog : list (Z * list Z)) (hist : list Seg.t)
    (p : peer) : Prop := {
  peer_kcp : kcp_inv (H := connection conv params) (from_peer rlog) slog hist (node p);
  peer_log : slog ++ (carried <$> Kcp.snd_queue (node p)) = stream_of (mss_of params) (sent p);
  peer_counts : Forall (λ m, fragment_count (mss_of params) m < 256) (sent p);
  peer_wire : Forall (good_datagram conv (KcpParams.mtu params) slog) (wire p);
}.

(** What the other side relies on. *)
Record source (params : KcpParams.t) (slog : list (Z * list Z)) (p : peer) : Prop := {
  source_log : slog `prefix_of` stream_of (mss_of params) (sent p);
  source_counts : Forall (λ m, fragment_count (mss_of params) m < 256) (sent p);
  source_wire : Forall (good_datagram conv (KcpParams.mtu params) slog) (wire p);
}.

(** What [q] consumed is what [p] sent, message by message. *)
Record link (params : KcpParams.t) (p : peer) (hist : list Seg.t) (q : peer) : Prop := {
  link_hist : carried <$> hist = stream_of (mss_of params) (received q);
  link_prefix : received q `prefix_of` sent p;
}.

(** One side, facing a source. *)
Record half (pp pq : KcpParams.t) (sp sq : list (Z * list Z)) (hp : list Seg.t) (p q : peer)
    : Prop := {
  half_peer : peer_inv pp sp sq hp p;
  half_source : source pq sq q;
  half_link : link pq q hp p;
}.

(** Both sides and both directions. *)
Record pair_inv (pp pq : KcpParams.t) (sp sq : list (Z * list Z)) (hp hq : list Seg.t)
    (p q : peer) : Prop := {
  pair_p : half pp pq sp sq hp p q;
  pair_q : half pq pp sq sp hq q p;
}.

(** A side after some calls. *)
Record grown (sp sp' : list (Z * list Z)) (p p' : peer) : Prop := {
  grown_log : sp `prefix_of` sp';
  grown_sent : sent p `prefix_of` sent p';
  grown_wire : wire p `prefix_of` wire p';
}.

Lemma peer_source params slog rlog hist p :
  peer_inv params slog rlog hist p → source params slog p.
Proof. intros [_ Hl Hc Hw]. split; [by eexists|done|done]. Qed.

Lemma grown_refl sp p : grown sp sp p p.
Proof. done. Qed.

Lemma grown_trans s1 s2 s3 p1 p2 p3 : grown s1 s2 p1 p2 → grown s2 s3 p2 p3 → grown s1 s3 p1 p3.
Proof. intros [] []. split; by etrans. Qed.
End invariant.

Lemma stream_of_app mss m1 m2 : stream_of mss (m1 ++ m2) = stream_of mss m1 ++ stream_of mss m2.
Proof. unfold stream_of. by rewrite fmap_app, join_app. Qed.

Lemma stream_of_cons mss m ms : stream_of mss (m :: ms) = message_fragments mss m ++ stream_of mss ms.
Proof. done. Qed.

Lemma stream_of_one mss m : stream_of mss [m] = message_fragments mss m.
Proof. unfold stream_of. cbn. apply app_nil_r. Qed.

Lemma stream_of_prefix mss m1 m2 :
  m1 `prefix_of` m2 → stream_of mss m1 `prefix_of` stream_of mss m2.
Proof. intros [k ->]. rewrite stream_of_app. by eexists. Qed.

Lemma length_message_fragments mss m :
  Z.of_nat (length (message_fragments mss m)) = fragment_count mss m.
Proof.
  unfold message_fragments. rewrite length_fragments.
  pose proof (fragment_count_pos mss m). lia.
Qed.

(** ** Monotonicity *)

Lemma buf_inv_mono (P P' : Z → Seg.t → Prop) lo hi l :
  (∀ j s, P j s → P' j s) → buf_inv P lo hi l → buf_inv P' lo hi l.
Proof.
  intros HP. revert lo; induction l as [|s l IH]; intros lo; [done|].
  intros (j & Hj & Hs & Hp & Hl). exists j. split; [done|]. split_and!; [done|by apply HP|by apply IH].
Qed.

Lemma kcp_inv_mono `{Static} (P P' : Z → Seg.t → Prop) slog hist self :
  (∀ j s, P j s → P' j s) → kcp_inv P slog hist self → kcp_inv P' slog hist self.
Proof.
  intros HP (Hc & Hs & Ho & Hw & n & []). split_and!; [done..|].
  split; [done|]. exists n. constructor; try done; [|by eapply buf_inv_mono].
  intros i s Hi. by eapply HP, rcv_log.
Qed.

Lemma from_peer_mono rlog rlog' j s :
  rlog `prefix_of` rlog' → from_peer rlog j s → from_peer rlog' j s.
Proof.
  intros Hp [Hl Hj]. split; [done|]. intros Hlt. by eapply prefix_lookup_Some; [apply Hj|].
Qed.

(** ** Delivering one datagram of the peer *)

Lemma wire_accept conv rlog s :
  len rlog < 2 ^ 32 → wire_seg conv rlog s → Seg.cmd s = KCP_CMD_PUSH →
  accept (from_peer rlog) (push_segment (header_of s) (Seg.data s)).
Proof.
  intros Hl [[] _ _ _ Hlog] Hc j Hj Hsn. destruct (Hlog Hc) as (i & Hi & Hs).
  unfold in_width in *. split; [cbn; lia|]. intros Hlt. cbn in Hsn.
  apply lookup_lt_Some in Hi as Hil. unfold len in Hl.
  rewrite Hs, !wrap_id in Hsn by lia. subst j. by rewrite Nat2Z.id.
Qed.

Lemma datagram_len segs : segs ≠ [] → KCP_OVERHEAD <= len (datagram segs).
Proof.
  destruct segs as [|s segs]; [done|]. intros _. rewrite datagram_cons, len_app, len_seg_bytes.
  pose proof (len_nonneg (Seg.data s)). pose proof (len_nonneg (datagram segs)). lia.
Qed.

Lemma deliver_kinv `{Static} rlog slog hist self now d mtu :
  len rlog < 2 ^ 32 → kcp_inv (from_peer rlog) slog hist self → in_width 32 now →
  good_datagram (Kcp.conv self) mtu rlog d →
  ∃ n self', Kcp.input self now d = Ret (Ok n, self')
    ∧ kcp_inv (from_peer rlog) slog hist self'.
Proof.
  intros Hl H0 Hnow (segs & Hne & Hd & _ & Hsegs).
  set (Q buf := ∃ segs, buf = datagram segs ∧ Forall (wire_seg (Kcp.conv self) rlog) segs).
  destruct (input_inv (from_peer rlog) slog hist (Kcp.conv self) Q) with (self := self)
    (c := now) (buf := d) as (r & self' & E & Hinv & Hok); try done.
  - intros buf (l & -> & Hs). clear -Hs. induction Hs as [|s l Hs Hl IH]; [constructor|].
    rewrite datagram_cons. apply bytes_ok_app. split; [|done]. apply seg_bytes_ok, Hs.
  - intros buf h rest bytes rest' (l & -> & Hs) _ Hr Hb Hr'.
    destruct Hs as [|s l Hs Hl'].
    { unfold Kcp.read_header, get_le in Hr. by cbn in Hr. }
    rewrite datagram_cons in Hr. rewrite <- (wire_conv _ _ _ Hs) in Hr.
    rewrite read_header_encode in Hr by apply Hs. apply Ret_inj, Ok_inj in Hr.
    injection Hr as <- <-.
    rewrite slice_app_l in Hb by done. apply Ret_inj in Hb as <-.
    rewrite slice_app_r in Hr' by (rewrite ?len_app; done). apply Ret_inj in Hr' as <-.
    split; [|by exists l]. intros Hc. by eapply wire_accept.
  - by exists segs.
  - destruct Hok as [n ->]; [| |by exists n, self'].
    + intros buf (l & -> & Hs) Hge e. destruct Hs as [|s l Hs _]; [done|].
      rewrite datagram_cons, <- (wire_conv _ _ _ Hs), read_header_encode by apply Hs. done.
    + rewrite Hd. by apply datagram_len.
Qed.

(** ** Returning one message *)

(** Consumed and queued segments follow the peer's log. *)
Lemma received_prefix `{Static} rlog slog hist self :
  len rlog < 2 ^ 32 → kcp_inv (from_peer rlog) slog hist self →
  carried <$> (hist ++ Kcp.rcv_queue self) `prefix_of` rlog.
Proof.
  intros Hl (_ & _ & _ & _ & n & [_ _ Hlog _ _]). unfold len in Hl.
  set (l := hist ++ Kcp.rcv_queue self) in *.
  assert (length l <= length rlog)%nat as Hlen.
  { destruct (Nat.le_gt_cases (length l) (length rlog)) as [|Hgt]; [done|].
    destruct (lookup_lt_is_Some_2 l (length rlog)) as [s Hs]; [lia|].
    apply Hlog in Hs as [_ Hs]. specialize (Hs ltac:(lia)). rewrite Nat2Z.id in Hs.
    apply lookup_lt_Some in Hs. lia. }
  assert (carried <$> l = take (length l) rlog) as ->; [|by exists (drop (length l) rlog); rewrite take_drop].
  apply list_eq. intros i. rewrite list_lookup_fmap.
  destruct (l !! i) as [s|] eqn:Hi; cbn.
  - apply lookup_lt_Some in Hi as Hil. rewrite lookup_take_lt by done.
    apply Hlog in Hi as [_ Hi]. rewrite Nat2Z.id in Hi. by rewrite Hi by lia.
  - apply lookup_ge_None in Hi. by rewrite lookup_take_ge.
Qed.

(** When [peeksize] finds a message, it is the peer's next one. *)
Lemma next_message mss ms queue self n :
  0 < mss → Forall (λ m, fragment_count mss m < 256) ms →
  Kcp.rcv_queue self = queue → carried <$> queue `prefix_of` stream_of mss ms →
  Kcp.peeksize self = Ok n →
  ∃ m ms', ms = m :: ms' ∧ payload (first_message queue).1 = m
    ∧ carried <$> (first_message queue).1 = message_fragments mss m.
Proof.
  intros Hm Hc Hq Hp Hpeek. unfold Kcp.peeksize in Hpeek. rewrite Hq in Hpeek.
  destruct queue as [|s queue']; [done|]. set (queue := s :: queue') in *.
  destruct ms as [|m ms]; [by apply prefix_nil_inv in Hp|].
  apply Forall_cons in Hc as [Hc _]. exists m, ms. split; [done|].
  pose proof (length_message_fragments mss m) as Hlen.
  pose proof (fragment_count_pos mss m) as Hpos.
  set (k := length (message_fragments mss m)) in *.
  assert (Seg.frg s = fragment_count mss m - 1) as Hfrg.
  { destruct Hp as [tl Hp]. rewrite stream_of_cons in Hp.
    assert (message_fragments mss m !! 0%nat = Some (carried s)) as H0.
    { rewrite <- (lookup_app_l _ (stream_of mss ms)) by (fold k; lia). by rewrite Hp. }
    apply fragments_frg in H0. cbn in H0. lia. }
  assert (k <= length queue)%nat as Hk.
  { revert Hpeek. destruct (Z.eqb_spec (Seg.frg s) 0); [cbn; lia|].
    destruct (Z.ltb_spec (len queue) (Seg.frg s +{8} 1)) as [|Hge]; [done|].
    intros _. rewrite wrap_id in Hge by lia. unfold len in Hge. lia. }
  assert (carried <$> take k queue = message_fragments mss m) as Hcar.
  { destruct Hp as [tl Hp]. rewrite stream_of_cons in Hp. rewrite fmap_take.
    apply (f_equal (take k)) in Hp. rewrite take_app_length' in Hp by done.
    rewrite take_app_le in Hp by (rewrite length_fmap; lia). done. }
  destruct (carried_fragments (take k queue) mss m Hcar Hm) as (Hcomp & Hpay & _).
  rewrite <- (take_drop k queue), first_message_complete by done. cbn [fst]. done.
Qed.

(** ** One call of one side *)

Section one_call.
Context (conv : Z) (pp pq : KcpParams.t) (sp sq : list (Z * list Z)) (hp : list Seg.t).
Context (p q : peer).
Hypothesis params : KCP_OVERHEAD < KcpParams.mtu pq.
Hypothesis inv : half conv pp pq sp sq hp p q.

Lemma half_static :
  Kcp.conv (node p) = conv ∧ Kcp.mtu (node p) = KcpParams.mtu pp
  ∧ Kcp.mss (node p) = mss_of pp ∧ Kcp.rcv_wnd (node p) = KcpParams.receive_window pp.
Proof.
  destruct inv as [[(Hc & _) _ _ _] _ _]. destruct (conf_static _ Hc) as (H1 & H2 & H3).
  cbn in *. pose proof (conf_mss _ Hc). unfold mss_of. rewrite H2 in *. done.
Qed.

Lemma half_room : len (stream_of (mss_of pq) (sent q)) < 2 ^ 32 → len sq < 2 ^ 32.
Proof.
  destruct (half_source _ _ _ _ _ _ _ _ inv) as [[tl ->] _ _]. rewrite len_app.
  pose proof (len_nonneg tl). lia.
Qed.

(** The fields of [p] around its node are those of the invariant. *)
Lemma half_node sp' k :
  kcp_inv (H := connection conv pp) (from_peer sq) sp' hp k → sp `prefix_of` sp' →
  sp' ++ (carried <$> Kcp.snd_queue k) = sp ++ (carried <$> Kcp.snd_queue (node p)) →
  half conv pp pq sp' sq hp (p <| node := k |>) q.
Proof.
  destruct inv as [[_ Hl Hc Hw] Hs []]. intros Hk Hp E. split; [|done|done].
  constructor; cbn; [done|by rewrite E|done|].
  eapply Forall_impl; [done|]. intros d. by apply good_datagram_mono.
Qed.

Lemma send_half m :
  bytes_ok m → ∃ r k, Kcp.send (node p) m = Ret (r, k) ∧
    match r with
    | Ok _ => half conv pp pq sp sq hp (p <| node := k |> <| sent ::= λ l, l ++ [m] |>) q
        ∧ pending k = pending (node p) + fragment_count (mss_of pp) m
    | Err _ => k = node p
        ∧ KcpParams.receive_window pp `min` 256 <= fragment_count (mss_of pp) m
    end.
Proof.
  intros Hm. destruct half_static as (_ & _ & Hmss & Hwnd). destruct inv as [[Hk Hl Hc Hw] Hs []].
  destruct (send_kinv (from_peer sq) sp hp (node p) m Hk Hm) as (r & k & E & Hk' & Hr).
  exists r, k. split; [done|]. destruct Hk as (Hconf & _).
  pose proof (conf_mss_pos _ Hconf) as Hpos.
  rewrite send_eq in E by lia. rewrite Hmss, Hwnd in *. destruct r as [n|e].
  - destruct (_ || _) eqn:Eb in E; [done|]. apply Ret_inj in E as [= _ Ek].
    destruct Hr as [Hlt Hcar]. split.
    + split; [|done|done]. constructor; cbn [node sent received wire]; [done| | |done].
      * etrans; [apply (f_equal (app sp)), Hcar|].
        change (sent _) with (sent p ++ [m]).
        by rewrite (assoc_L (++)), Hl, stream_of_app, stream_of_one.
      * apply Forall_app. split; [done|by apply Forall_singleton].
    + rewrite <- Ek. unfold pending. cbn. rewrite len_app, len_map.
      assert (len (message_fragments (mss_of pp) m) = fragment_count (mss_of pp) m) as ->
        by apply length_message_fragments. lia.
  - destruct (_ || _) eqn:Eb in E; [|done]. apply Ret_inj in E as [= _ <-]. split; [done|].
    apply orb_true_iff in Eb. bool_to_prop. destruct Eb as [Eb|Eb]; apply Z.leb_le in Eb; lia.
Qed.

Lemma update_half now :
  in_width 32 now → ∃ k sp', Kcp.update (node p) now = Ret (Ok tt, k)
    ∧ half conv pp pq sp' sq hp (p <| node := k |>) q ∧ sp `prefix_of` sp'
    ∧ Kcp.updated k = true ∧ pending k = pending (node p).
Proof.
  intros Hn. pose proof (peer_kcp _ _ _ _ _ _ (half_peer _ _ _ _ _ _ _ _ inv)) as Hk.
  destruct (update_kinv (from_peer sq) hp sp (node p) now Hk Hn)
    as (r & k & sp' & E & Hk' & Hpre & Hs).
  apply update_frame in E as F. destruct F as (-> & Hu & Hpend).
  exists k, sp'. split_and!; [done|by apply half_node|done|done|done].
Qed.

Lemma flush_half :
  ∃ r k sp', Kcp.flush (node p) = Ret (r, k)
    ∧ half conv pp pq sp' sq hp (p <| node := k |>) q ∧ sp `prefix_of` sp'
    ∧ (Kcp.updated (node p) = true → r = Ok tt ∧ Kcp.updated k = true
        ∧ pending k = pending (node p)).
Proof.
  pose proof (peer_kcp _ _ _ _ _ _ (half_peer _ _ _ _ _ _ _ _ inv)) as Hk.
  destruct (flush_kinv (from_peer sq) hp sp (node p) Hk) as (r & k & sp' & E & Hk' & Hpre & Hs).
  exists r, k, sp'. split_and!; [done|by apply half_node|done|]. by apply flush_frame.
Qed.

Lemma input_half now d :
  in_width 32 now → d ∈ wire q → len sq < 2 ^ 32 →
  ∃ n k, Kcp.input (node p) now d = Ret (Ok n, k)
    ∧ half conv pp pq sp sq hp (p <| node := k |>) q.
Proof.
  intros Hn Hd Hroom. destruct half_static as (Hconv & _).
  pose proof (peer_kcp _ _ _ _ _ _ (half_peer _ _ _ _ _ _ _ _ inv)) as Hk.
  destruct (deliver_kinv (H := connection conv pp) sq sp hp (node p) now d (KcpParams.mtu pq))
    as (n & k & E & Hk'); [done|done|done| |].
  { rewrite Hconv. eapply (proj1 (Forall_forall _ _)); [|exact Hd].
    apply (half_source _ _ _ _ _ _ _ _ inv). }
  exists n, k. split; [done|]. apply input_queue in E as Hsq. apply half_node; [done|done|].
  by rewrite Hsq.
Qed.

Lemma recv_half size :
  0 <= size < 2 ^ 64 → len sq < 2 ^ 32 →
  ∃ r k buf, Kcp.recv (node p) (vec size 0) = Ret (r, k, buf) ∧
    match r with
    | Err _ => k = node p
    | Ok n => ∃ m, m = take (Z.to_nat n) buf ∧ Kcp.peeksize (node p) = Ok n
        ∧ (∃ hp', half conv pp pq sp sq hp'
            (p <| node := k |> <| received ::= λ l, l ++ [m] |>) q)
    end.
Proof.
  intros Hsize Hroom. destruct half_static as (Hconv & Hmtu & Hmss & _).
  destruct inv as [[Hk Hl Hc Hw] Hsrc [Hhist [ms Hms]]].
  destruct (recv_kinv (St := connection conv pp) (from_peer sq) sp hp (node p) (vec size 0))
    as (r & k & buf & -> & Hsq & Hr); [by intros j s []|done|rewrite len_vec; lia|].
  exists r, k, buf. split; [done|]. destruct r as [n|e]; [|done].
  destruct Hr as (Hk' & Hbuf & Hpeek). exists (take (Z.to_nat n) buf).
  split; [reflexivity|]. split; [exact Hpeek|].
  pose proof (received_prefix (H := connection conv pp) sq sp hp (node p) Hroom Hk) as Hpre.
  assert (carried <$> Kcp.rcv_queue (node p) `prefix_of` stream_of (mss_of pq) ms) as Hq'.
  { rewrite fmap_app, Hhist in Hpre. pose proof (source_log _ _ _ _ Hsrc) as Hsq'.
    rewrite Hms, stream_of_app in Hsq'. eapply prefix_app_inv. by etrans. }
  pose proof (source_counts _ _ _ _ Hsrc) as Hcnt. rewrite Hms in Hcnt.
  apply Forall_app in Hcnt as [_ Hcnt].
  destruct (next_message (mss_of pq) ms (Kcp.rcv_queue (node p)) (node p) n)
    as (m & ms' & -> & Hpay & Hcar); [unfold mss_of; lia|done|done|done|done|].
  exists (hp ++ (first_message (Kcp.rcv_queue (node p))).1).
  split; [|done|].
  - constructor; [done| |done|done]. etrans; [|exact Hl].
    apply (f_equal (λ l, sp ++ (carried <$> l))), Hsq.
  - rewrite Hbuf, Hpay. constructor.
    + change (received _) with (received p ++ [m]).
      by rewrite fmap_app, Hhist, Hcar, stream_of_app, stream_of_one.
    + exists ms'. change (received _) with (received p ++ [m]).
      by rewrite Hms, <- (assoc_L (++)).
Qed.

Lemma take_half :
  half conv pp pq sp sq hp
    (p <| node := (Kcp.take_output (node p)).2 |>
       <| wire ::= λ l, l ++ (Kcp.take_output (node p)).1 |>) q
  ∧ Forall (good_datagram conv (KcpParams.mtu pp) sp) (Kcp.take_output (node p)).1.
Proof.
  destruct inv as [[Hk Hl Hc Hw] Hsrc []].
  pose proof (take_output_kinv (St := connection conv pp) (from_peer sq) sp hp (node p) Hk)
    as [Hk' Hout]. split; [|exact Hout]. split; [|done|done].
  constructor; cbn [node sent received wire]; [done|done|done|by apply Forall_app].
Qed.

(** Everything unacknowledged was sent. *)
Lemma pending_half : pending (node p) <= len (stream_of (mss_of pp) (sent p)).
Proof.
  destruct (half_peer _ _ _ _ _ _ _ _ inv) as [(_ & Hs & _) <- _ _].
  rewrite len_app, len_map. unfold pending. pose proof (snd_count _ _ Hs). lia.
Qed.

(** A buffer of the size [peeksize] reports is filled with one message. *)
Lemma message_half n :
  Kcp.peeksize (node p) = Ok n → len sq < 2 ^ 32 →
  ∃ k m hp', Kcp.recv (node p) (vec n 0) = Ret (Ok n, k, m)
    ∧ (backlog k < backlog (node p))%nat
    ∧ half conv pp pq sp sq hp' (p <| node := k |> <| received ::= λ l, l ++ [m] |>) q.
Proof.
  intros Hpeek Hroom.
  pose proof (peer_kcp _ _ _ _ _ _ (half_peer _ _ _ _ _ _ _ _ inv)) as Hk.
  assert (∀ j s, from_peer sq j s → len (Seg.data s) < 2 ^ 32) as HP by (by intros j s []).
  pose proof (queue_payload_bound (St := connection conv pp) _ _ hp (node p) HP Hk) as Hl.
  pose proof (recv_exact (node p) n Hl Hpeek) as Hrecv.
  apply peeksize_Ok in Hpeek as Hn; [|done].
  pose proof (payload_first_le (Kcp.rcv_queue (node p))) as Hle.
  pose proof (len_nonneg (payload (first_message (Kcp.rcv_queue (node p))).1)) as H0.
  destruct (recv_half n ltac:(lia) Hroom) as (r & k & buf & E & Hr).
  rewrite Hrecv in E. apply Ret_inj in E as [= <- <- <-].
  destruct Hr as (m & -> & _ & hp' & Hh). eexists _, _, hp'. split; [exact Hrecv|].
  split; [by eapply backlog_recv|]. rewrite Hn, take_ge in Hh; [exact Hh|]. unfold len. lia.
Qed.

End one_call.

(** The other side is not disturbed. *)
Lemma half_grown conv pp pq sp sq sq' hp p q q' :
  half conv pp pq sp sq hp p q → grown sq sq' q q' → source conv pq sq' q' →
  half conv pp pq sp sq' hp p q'.
Proof.
  intros [[] _ [Hh Hp]] [Hl Hsent _] Hsrc. split; [|done|].
  - constructor; try done. eapply kcp_inv_mono; [|done]. intros j s. by apply from_peer_mono.
  - split; [done|]. by etrans.
Qed.

Lemma peer_call_inv conv pp pq sp sq hp hq p q c :
  KCP_OVERHEAD < KcpParams.mtu pq →
  pair_inv conv pp pq sp sq hp hq p q → call_ok c →
  len (stream_of (mss_of pq) (sent q)) < 2 ^ 32 →
  ∃ p' sp' hp', peer_call (wire q) c p = Ret p'
    ∧ (pair_inv conv pp pq sp' sq hp' hq p' q ∧ grown sp sp' p p')
    ∧ len (stream_of (mss_of pp) (sent p'))
      <= len (stream_of (mss_of pp) (sent p)) + call_segments (mss_of pp) c.
Proof.
  intros Hpq [Hp Hq] Hc Hbound. pose proof (half_room _ _ _ _ _ _ _ _ Hp Hbound) as Hroom.
  assert (∀ sp' hp' p', half conv pp pq sp' sq hp' p' q → grown sp sp' p p' →
    pair_inv conv pp pq sp' sq hp' hq p' q ∧ grown sp sp' p p') as Hend.
  { intros sp' hp' p' Hh Hg. split; [|done]. split; [done|]. eapply half_grown; [done|done|].
    eapply peer_source, (half_peer _ _ _ _ _ _ _ _ Hh). }
  assert (∀ x, x <= x + 0) as Hz by lia.
  destruct c as [m|now| |now i|size|]; cbn [peer_call call_ok call_segments] in *.
  - destruct (send_half _ _ _ _ _ _ _ _ Hp m Hc) as (r & k & -> & Hr). cbn [mbind comp_bind].
    destruct r as [n|e].
    + destruct Hr as [Hr _]. eexists _, sp, hp. split; [done|].
      split; [apply Hend; [exact Hr|split; [done|by apply prefix_app_r|done]]|].
      change (sent _) with (sent p ++ [m]) at 1.
      rewrite stream_of_app, len_app, stream_of_one.
      assert (len (message_fragments (mss_of pp) m) = fragment_count (mss_of pp) m) as ->
        by apply length_message_fragments. done.
    + destruct Hr as [-> _]. pose proof (fragment_count_pos (mss_of pp) m).
      eexists _, sp, hp. split; [done|]. assert (∀ x, x <= x + fragment_count (mss_of pp) m) as Hx by lia.
      destruct p. split; [by split|apply Hx].
  - destruct (update_half _ _ _ _ _ _ _ _ Hp now Hc) as (k & sp' & -> & Hh & Hpre & _).
    cbn [mbind comp_bind]. eexists _, sp', hp. split; [done|]. split; [|apply Hz].
    by apply Hend; [|split].
  - destruct (flush_half _ _ _ _ _ _ _ _ Hp) as (r & k & sp' & -> & Hh & Hpre & _).
    cbn [mbind comp_bind]. eexists _, sp', hp. split; [done|]. split; [|apply Hz].
    by apply Hend; [|split].
  - destruct (wire q !! i) as [d|] eqn:Hi.
    2:{ exists p, sp, hp. split; [done|]. split; [by apply Hend|lia]. }
    destruct (input_half _ _ _ _ _ _ _ _ Hp now d Hc) as (n & k & -> & Hh);
      [by eapply list_elem_of_lookup_2|done|].
    cbn [mbind comp_bind]. eexists _, sp, hp. split; [done|]. split; [|apply Hz].
    by apply Hend; [|split].
  - destruct (recv_half _ _ _ _ _ _ _ _ Hpq Hp size Hc Hroom) as (r & k & buf & -> & Hr).
    cbn [mbind comp_bind]. destruct r as [n|e].
    + destruct Hr as (m & -> & _ & hp' & Hh). eexists _, sp, hp'. split; [done|].
      split; [|apply Hz]. by apply Hend; [|split].
    + subst k. eexists _, sp, hp. split; [done|]. destruct p. split; [by split|apply Hz].
  - destruct (take_half _ _ _ _ _ _ _ _ Hp) as [Hh _].
    destruct (Kcp.take_output (node p)) as [out k]. cbn [fst snd] in Hh.
    eexists _, sp, hp. split; [done|]. split; [|apply Hz].
    apply Hend; [done|]. split; [done|done|]. cbn. by apply prefix_app_r.
Qed.

(** ** Every interleaving *)

Lemma pair_inv_sym conv pp pq sp sq hp hq p q :
  pair_inv conv pp pq sp sq hp hq p q → pair_inv conv pq pp sq sp hq hp q p.
Proof. intros []. by constructor. Qed.

Lemma call_segments_nonneg mss c : 0 <= call_segments mss c.
Proof. destruct c as [m| | | | |]; cbn; try lia. pose proof (fragment_count_pos mss m). lia. Qed.

Lemma offered_nonneg mss side calls : 0 <= offered mss side calls.
Proof.
  induction calls as [|[s c] calls IH]; cbn; [done|].
  pose proof (call_segments_nonneg mss c). destruct (eqb s side); lia.
Qed.

Lemma run_calls_inv conv pa pb calls : ∀ sa sb ha hb a b,
  KCP_OVERHEAD < KcpParams.mtu pa → KCP_OVERHEAD < KcpParams.mtu pb →
  pair_inv conv pa pb sa sb ha hb a b → Forall (λ sc, call_ok (sc.2)) calls →
  len (stream_of (mss_of pa) (sent a)) + offered (mss_of pa) true calls < 2 ^ 32 →
  len (stream_of (mss_of pb) (sent b)) + offered (mss_of pb) false calls < 2 ^ 32 →
  ∃ a' b' sa' sb' ha' hb',
    run_calls calls a b = Ret (a', b') ∧ pair_inv conv pa pb sa' sb' ha' hb' a' b'.
Proof.
  induction calls as [|[side c] calls IH];
    intros sa sb ha hb a b Hma Hmb H Hok Ha Hb; cbn [run_calls offered] in *.
  { by eexists _, _, _, _, _, _. }
  apply Forall_cons in Hok as [Hc Hok]. cbn [snd] in Hc.
  pose proof (offered_nonneg (mss_of pa) true calls).
  pose proof (offered_nonneg (mss_of pb) false calls).
  destruct side; cbn [eqb] in *.
  - destruct (peer_call_inv conv pa pb sa sb ha hb a b c)
      as (a1 & sa1 & ha1 & -> & [Hn _] & Hg); [done|done|done|lia|].
    cbn [mbind comp_bind]. apply (IH sa1 sb ha1 hb); done || lia.
  - apply pair_inv_sym in H.
    destruct (peer_call_inv conv pb pa sb sa hb ha b a c)
      as (b1 & sb1 & hb1 & -> & [Hn _] & Hg); [done|done|done|lia|].
    apply pair_inv_sym in Hn.
    cbn [mbind comp_bind]. apply (IH sa sb1 ha hb1); done || lia.
Qed.

Lemma new_half conv pp pq :
  in_width 64 conv → params_ok pp →
  half conv pp pq [] [] [] (new_peer conv pp) (new_peer conv pq).
Proof. intros Hc Hp. split; [constructor; [by apply new_inv|done..]|done|done]. Qed.

Lemma new_pair_inv conv pa pb :
  in_width 64 conv → params_ok pa → params_ok pb →
  pair_inv conv pa pb [] [] [] [] (new_peer conv pa) (new_peer conv pb).
Proof. intros. split; by apply new_half. Qed.

Lemma good_datagram_size conv mtu slog d :
  good_datagram conv mtu slog d → KCP_OVERHEAD <= len d <= mtu.
Proof.
  intros (segs & Hn & -> & Hl & _). split; [by apply datagram_len|done].
Qed.

(** ** Properties *)

(** C3: reliable streams.  Whatever the interleaving of sends, updates, receives
    and deliveries, and however the network drops, repeats or reorders
    datagrams: no call panics, the messages received are a prefix of the
    messages sent, in both directions, and no datagram exceeds the MTU.  The
    streams may be up to 2^32 segments long. *)
Theorem kcp_stream_safety conv pa pb calls :
  in_width 64 conv → params_ok pa → params_ok pb →
  Forall (λ sc, call_ok (sc.2)) calls →
  offered (KcpParams.mtu pa - KCP_OVERHEAD) true calls < 2 ^ 32 →
  offered (KcpParams.mtu pb - KCP_OVERHEAD) false calls < 2 ^ 32 →
  ∃ a b,
    run_calls calls (new_peer conv pa) (new_peer conv pb) = Ret (a, b)
    ∧ received b `prefix_of` sent a ∧ received a `prefix_of` sent b
    ∧ Forall (λ d, KCP_OVERHEAD <= len d <= KcpParams.mtu pa) (wire a)
    ∧ Forall (λ d, KCP_OVERHEAD <= len d <= KcpParams.mtu pb) (wire b).
Proof.
  intros Hc Ha Hb Hok Hoa Hob.
  destruct (run_calls_inv conv pa pb calls [] [] [] []
    (new_peer conv pa) (new_peer conv pb)) as (a & b & sa & sb & ha & hb & Hrun & [Hpa Hpb]).
  - apply Ha.
  - apply Hb.
  - by apply new_pair_inv.
  - done.
  - done.
  - done.
  - exists a, b. split_and!; [done|apply Hpb|apply Hpa|..].
    + eapply Forall_impl; [apply Hpa|]. intros d. apply good_datagram_size.
    + eapply Forall_impl; [apply Hpb|]. intros d. apply good_datagram_size.
Qed.

(** ** Witnesses *)

Lemma demo_params_ok : params_ok demo_params.
Proof. split; by vm_compute. Qed.

(** Both sides send; the network delivers datagrams twice and out of order. *)
Definition demo_calls : list (bool * call) :=
  [(true, CallSend demo_message); (true, CallUpdate 0); (true, CallUpdate 10);
   (true, CallTakeOutput); (false, CallInput 11 1); (false, CallInput 11 0);
   (false, CallInput 12 0); (false, CallRecv 64); (false, CallSend [1]);
   (false, CallUpdate 13); (false, CallUpdate 23); (false, CallTakeOutput);
   (true, CallInput 24 3); (true, CallRecv 64)].

Lemma demo_calls_ok : Forall (λ sc, call_ok (sc.2)) demo_calls.
Proof.
  unfold demo_calls, call_ok, in_width.
  repeat constructor; cbn; try lia; try (by vm_compute).
Qed.

Lemma kcp_stream_safety_witness :
  ∃ a b,
    run_calls demo_calls (new_peer 5 demo_params) (new_peer 5 demo_params) = Ret (a, b)
    ∧ received b `prefix_of` sent a ∧ received a `prefix_of` sent b
    ∧ Forall (λ d, KCP_OVERHEAD <= len d <= 40) (wire a)
    ∧ Forall (λ d, KCP_OVERHEAD <= len d <= 40) (wire b).
Proof.
  apply (kcp_stream_safety 5 demo_params demo_params demo_calls);
    [by vm_compute|exact demo_params_ok|exact demo_params_ok|exact demo_calls_ok
    |by vm_compute|by vm_compute].
Defined.

(** The calls are not vacuous: the message arrives in this run. *)
Example demo_calls_deliver :
  (λ ab, (received ab.1, received ab.2)) <$>
    run_calls demo_calls (new_peer 5 demo_params) (new_peer 5 demo_params)
  = Ret ([[1]], [demo_message]).
Proof. by vm_compute. Qed.
