(* ===== verification/KcpHonest.v ===== *)
(** * Acknowledgements are honest

    Over every interleaving of calls and every behaviour of the network, an
    endpoint acknowledges only what it received, and it keeps a segment in
    flight until the peer received it.  Streams below 2^30 segments, so that
    all numbers are exact. *)

From S2P Require Import Prelude Bytes Kcp KcpWire KcpMessage KcpReceive KcpInv KcpFlush.
From S2P Require Import KcpEmit KcpHear KcpTimers KcpStream.

(** What a segment says of its sender [self]. *)
Record truthful (self : Kcp.t) (s : Seg.t) : Prop := {
  tr_una : 0 <= Seg.una s <= Kcp.rcv_nxt self;
  tr_ack : Seg.cmd s = KCP_CMD_ACK → got self (Seg.sn s);
  tr_push : Seg.cmd s = KCP_CMD_PUSH → 0 <= Seg.sn s < Kcp.snd_nxt self;
}.

Definition honest_group (slog : list (Z * list Z)) (self : Kcp.t) (segs : list Seg.t) : Prop :=
  segs ≠ [] ∧ Forall (λ s, wire_seg (Kcp.conv self) slog s ∧ truthful self s) segs.

Definition honest (slog : list (Z * list Z)) (self : Kcp.t) (d : list Z) : Prop :=
  ∃ segs, d = datagram segs ∧ honest_group slog self segs.

Lemma honest_groups slog self ds :
  Forall (honest slog self) ds →
  ∃ groups, ds = datagram <$> groups ∧ Forall (honest_group slog self) groups.
Proof.
  induction 1 as [|d ds (g & -> & Hg) _ (gs & -> & Hgs)]; [by exists []|].
  exists (g :: gs). split; [done|by constructor].
Qed.

Lemma groups_honest slog self groups :
  Forall (honest_group slog self) groups → Forall (honest slog self) (datagram <$> groups).
Proof. intros H. apply Forall_fmap. eapply Forall_impl; [exact H|]. intros g Hg. by exists g. Qed.

(** What stays true of an endpoint once it was true. *)
Record growth (self self' : Kcp.t) : Prop := {
  gr_conv : Kcp.conv self' = Kcp.conv self;
  gr_next : Kcp.rcv_nxt self <= Kcp.rcv_nxt self';
  gr_got : ∀ n, got self n → got self' n;
  gr_sent : Kcp.snd_nxt self <= Kcp.snd_nxt self';
  gr_timing : Kcp.timing self' = Kcp.timing self;
  gr_snd_wnd : Kcp.snd_wnd self' = Kcp.snd_wnd self;
}.

#[export] Instance growth_refl : Reflexive growth.
Proof. intros k. by split. Qed.

#[export] Instance growth_trans : Transitive growth.
Proof. intros x y z [] []. split; [congruence|lia|auto|lia|congruence|congruence]. Qed.

Lemma truthful_growth self self' s : growth self self' → truthful self s → truthful self' s.
Proof.
  intros [] []. split; [lia|auto|]. intros Hp. specialize (tr_push0 Hp). lia.
Qed.

Lemma honest_growth slog slog' self self' d :
  slog `prefix_of` slog' → growth self self' → honest slog self d → honest slog' self' d.
Proof.
  intros Hp Hg (segs & Hd & Hn & Hs). exists segs. split; [done|]. split; [done|].
  eapply Forall_impl; [exact Hs|]. intros s [Hw Ht]. rewrite (gr_conv _ _ Hg).
  split; [by eapply wire_seg_mono|by eapply truthful_growth].
Qed.

(** The bookkeeping of one endpoint. *)
Record tidy (self : Kcp.t) : Prop := {
  td_numbers : numbered_from 0 (Kcp.snd_nxt self) (Kcp.snd_buf self);
  td_front : Kcp.snd_una self = front self;
  td_acks : Forall (λ a, got self a.1) (Kcp.acklist self);
  td_gap : gap self;
}.

(** What [y] did not receive, [x] still holds. *)
Definition retained (x y : Kcp.t) : Prop :=
  ∀ n, 0 <= n < Kcp.snd_nxt x → ¬ got y n → n ∈ Seg.sn <$> Kcp.snd_buf x.

Lemma retained_growth x y y' : growth y y' → retained x y → retained x y'.
Proof. intros [_ _ Hg _ _ _] Hr n Hn Hng. apply Hr; [done|]. intros H. by apply Hng, Hg. Qed.

(** ** Exact numbers *)

Section exact.
Context `{St : Static} (rlog slog : list (Z * list Z)) (hist : list Seg.t).

Lemma exact_snd_nxt self :
  kcp_inv (from_peer rlog) slog hist self → len slog < 2 ^ 30 → Kcp.snd_nxt self = len slog.
Proof.
  intros (_ & Hs & _) Hl. rewrite (snd_next _ _ Hs), wrap_id; [done|].
  pose proof (len_nonneg slog). lia.
Qed.

Lemma exact_rcv_nxt self :
  kcp_inv (from_peer rlog) slog hist self → len rlog < 2 ^ 30 →
  Kcp.rcv_nxt self = len (hist ++ Kcp.rcv_queue self) ∧ Kcp.rcv_nxt self <= len rlog
  ∧ roomy self.
Proof.
  intros Hk Hl. pose proof (received_prefix rlog slog hist self ltac:(lia) Hk) as [tl Hp].
  apply (f_equal len) in Hp. rewrite len_app, len_map in Hp. pose proof (len_nonneg tl).
  destruct Hk as (Hconf & _ & _ & Hw & n & [Hn Hc _ _ Hb]).
  rewrite Hn, Hc, <- len_app, wrap_id by (pose proof (len_nonneg (hist ++ Kcp.rcv_queue self)); lia).
  unfold in_width in Hw. rewrite Hc, <- len_app in Hn, Hb.
  pose proof (len_nonneg (hist ++ Kcp.rcv_queue self)) as H0.
  rewrite wrap_id in Hn by lia.
  apply buf_inv_len in Hb; [|lia]. split; [done|]. split; [lia|]. split; [lia|].
  unfold in_width. split; lia.
Qed.
End exact.

(** ** Flushing *)

Lemma number_all_numbers self wnd l : ∀ n,
  0 <= n → n + len l < 2 ^ 32 →
  numbered_from n (n + len l) (number_all self wnd n l)
  ∧ ∀ m, n <= m < n + len l → m ∈ Seg.sn <$> number_all self wnd n l.
Proof.
  induction l as [|s l IH]; intros n H0 Hl; cbn [number_all numbered_from].
  { rewrite (@len_nil Seg.t) in *. split; lia. }
  rewrite len_cons in *. pose proof (len_nonneg l). rewrite wrap_id by lia.
  destruct (IH (n + 1)) as [Hnum Hin]; [lia|lia|].
  replace (n + (1 + len l)) with (n + 1 + len l) by lia. split.
  - exists n. split_and!; [lia|lia|done|done].
  - intros m Hm. rewrite fmap_cons. apply elem_of_cons.
    destruct (decide (m = n)) as [->|]; [by left|right]. apply Hin. lia.
Qed.

Section flush.
Context `{St : Static} (rlog slog slog' : list (Z * list Z)) (hist hist' : list Seg.t).
Context (self self' : Kcp.t) (groups : list (list Seg.t)) (taken rest : list Seg.t).
Hypothesis inv : kcp_inv (from_peer rlog) slog hist self.
Hypothesis inv' : kcp_inv (from_peer rlog) slog' hist' self'.
Hypothesis few : len rlog < 2 ^ 30.
Hypothesis few_sent : len slog + len (Kcp.snd_queue self) < 2 ^ 30.
Hypothesis few' : len slog' < 2 ^ 30.
Hypothesis tidy_self : tidy self.
Hypothesis fl : flushed self self' groups taken rest.

Abbreviation wnd := (Kcp.wnd_unused self) (only parsing).
Abbreviation new := (number_all self wnd (Kcp.snd_nxt self) taken) (only parsing).

Lemma flushed_exact :
  0 <= Kcp.snd_nxt self ∧ Kcp.snd_nxt self' = Kcp.snd_nxt self + len taken
  ∧ Kcp.snd_nxt self' < 2 ^ 30.
Proof using inv inv' few_sent few' fl.
  pose proof (len_nonneg taken). pose proof (len_nonneg rest). pose proof (len_nonneg slog).
  pose proof (fd_queue _ _ _ _ _ fl) as Eq. apply (f_equal len) in Eq. rewrite len_app in Eq.
  pose proof (exact_snd_nxt _ _ _ _ inv ltac:(lia)) as E1.
  pose proof (exact_snd_nxt _ _ _ _ inv' few') as E2.
  pose proof (fd_next _ _ _ _ _ fl) as E3. rewrite wrap_id in E3 by lia. lia.
Qed.

Lemma flushed_growth : growth self self'.
Proof using inv inv' few_sent few' fl.
  destruct flushed_exact as (_ & E & _). pose proof (len_nonneg taken).
  destruct (fd_keeps _ _ _ _ _ fl) as [_ Hn _ Hb _ _ Hw Ht _ _ _ _ _ _ _ _].
  split; [|lia| |lia|done|done].
  - destruct inv as (Hc & _), inv' as (Hc' & _).
    destruct (conf_static _ Hc) as (-> & _), (conf_static _ Hc') as (-> & _). done.
  - intros n. by apply got_ext.
Qed.

Lemma flushed_numbers :
  numbered_from 0 (Kcp.snd_nxt self') (Kcp.snd_buf self')
  ∧ ∀ n, n ∈ Seg.sn <$> Kcp.snd_buf self ∨ Kcp.snd_nxt self <= n < Kcp.snd_nxt self' →
      n ∈ Seg.sn <$> Kcp.snd_buf self'.
Proof using inv inv' few_sent few' fl tidy_self.
  destruct flushed_exact as (H0 & E & Hlt).
  destruct (number_all_numbers self wnd taken (Kcp.snd_nxt self)) as [Hnum Hin]; [lia|lia|].
  assert (Seg.sn <$> Kcp.snd_buf self' = Seg.sn <$> (Kcp.snd_buf self ++ new)) as Es
    by (by rewrite (fd_buf _ _ _ _ _ fl), retimed_sn).
  split.
  - eapply numbered_from_ext; [exact Es|]. rewrite E.
    eapply numbered_from_app; [apply td_numbers; exact tidy_self|exact Hnum].
  - intros n Hn. rewrite Es, fmap_app. apply elem_of_app. destruct Hn as [Hn|Hn]; [by left|right].
    apply Hin. lia.
Qed.

(** A flush serves the queue in order: the oldest segment stays the oldest. *)
Lemma flushed_front : Kcp.snd_una self' = front self'.
Proof using inv inv' few_sent few' fl tidy_self.
  rewrite (fk_una _ _ (fd_keeps _ _ _ _ _ fl)), (td_front _ tidy_self).
  unfold front. rewrite (fd_buf _ _ _ _ _ fl).
  destruct (Kcp.snd_buf self) as [|s l].
  - destruct flushed_exact as (_ & E & _). destruct taken as [|s l].
    { cbn. by rewrite E, (@len_nil Seg.t), Z.add_0_r. }
    done.
  - pose proof (retimed_sn self wnd (s :: l)) as Hr. cbn [app fmap list_fmap] in Hr |- *.
    apply (f_equal head) in Hr. injection Hr as Hr. by rewrite Hr.
Qed.

Lemma flushed_tidy : tidy self'.
Proof using inv inv' few_sent few' fl tidy_self.
  destruct (fd_keeps _ _ _ _ _ fl) as [_ Hn Hq Hb Hw _ _ _ _ _ _ _ Ha _ _ _].
  split; [apply flushed_numbers|exact flushed_front|by rewrite Ha|].
  destruct tidy_self as [_ _ _ Hg]. unfold gap in *. by rewrite Hn, Hq, Hb, Hw.
Qed.

Lemma flushed_retained y : retained self y → retained self' y.
Proof using inv inv' few_sent few' fl tidy_self.
  intros Hr n Hn Hng. apply flushed_numbers.
  destruct (Z.lt_ge_cases n (Kcp.snd_nxt self)) as [Hlt|Hge]; [left; apply Hr; [lia|done]|right; lia].
Qed.

(** The segments of a flush. *)
Lemma flushed_segment s :
  s ∈ mjoin groups →
  (∃ a, a ∈ Kcp.acklist self ∧ s = stamped (flush_header self) a)
  ∨ (∃ hdr cmd, (hdr = flush_header self
        ∨ ∃ a, a ∈ Kcp.acklist self ∧ hdr = stamped (flush_header self) a)
      ∧ (cmd = KCP_CMD_WASK ∨ cmd = KCP_CMD_WINS) ∧ s = hdr <| Seg.cmd := cmd |>)
  ∨ s ∈ Kcp.snd_buf self' ∧ Seg.wnd s = wnd ∧ Seg.una s = Kcp.rcv_nxt self.
Proof using fl.
  rewrite (fd_segments _ _ _ _ _ fl), !elem_of_app. intros [Hs|[Hs|Hs]].
  - left. apply list_elem_of_fmap in Hs as (a & -> & Ha). by exists a.
  - right. left. exists (last_header self).
    assert (last_header self = flush_header self
      ∨ ∃ a, a ∈ Kcp.acklist self ∧ last_header self = stamped (flush_header self) a) as Hh.
    { unfold last_header, ack_segments. rewrite fmap_last.
      destruct (last (Kcp.acklist self)) as [a|] eqn:E; [right|by left].
      exists a. split; [by apply last_Some_elem_of|done]. }
    unfold probe_segments in Hs. apply elem_of_app in Hs as [Hs|Hs];
      (destruct (asks _ _); [|by apply elem_of_nil in Hs]);
      apply list_elem_of_singleton in Hs as ->; eexists; (split; [exact Hh|]);
      split; [by left|done|by right|done].
  - right. right. apply list_elem_of_omap in Hs as (s0 & Hin & E).
    destruct (transmission_carries _ _ _ _ E) as (_ & _ & Hw & Hu & _). split; [|done].
    rewrite (fd_buf _ _ _ _ _ fl). apply list_elem_of_fmap. exists s0. split; [|done].
    unfold retimed. by rewrite E.
Qed.

Lemma flushed_fresh s :
  s ∈ mjoin groups → Seg.wnd s = wnd ∧ Seg.una s = Kcp.rcv_nxt self.
Proof using fl.
  intros [(a & _ & ->)|[(hdr & cmd & [->|(a & _ & ->)] & _ & ->)|(_ & Hw)]]%flushed_segment; done.
Qed.

Lemma flushed_honest : Forall (honest_group slog' self') groups.
Proof using inv inv' few few_sent few' fl tidy_self.
  apply Forall_forall. intros g Hg.
  split; [by apply (proj1 (Forall_forall _ _) (fd_groups _ _ _ _ _ fl))|].
  apply Forall_forall. intros s Hs.
  assert (s ∈ mjoin groups) as Hin by (apply list_elem_of_join; by exists g).
  destruct (flushed_fresh s Hin) as [_ Hu].
  destruct (exact_rcv_nxt _ _ _ _ inv few) as (_ & _ & (Hn & _)).
  pose proof flushed_growth as Hgr. pose proof inv as (Hconf & _ & Ho & _).
  pose proof (flush_header_control slog' self Hconf) as Hctl.
  assert (∀ a, a ∈ Kcp.acklist self → control (Kcp.conv self) slog' (stamped (flush_header self) a)) as Hack.
  { intros [n t] Ha. apply control_stamp; [|exact Hctl].
    by apply (proj1 (Forall_forall _ _) (out_acks _ _ Ho) (n, t)). }
  rewrite (gr_conv _ _ Hgr).
  assert (0 <= Seg.una s <= Kcp.rcv_nxt self') as Huna by (rewrite Hu; destruct Hgr; lia).
  destruct (flushed_segment s Hin) as [(a & Ha & ->)|[(hdr & cmd & Hh & Hc & ->)|(Hb & _)]].
  - split; [apply (Hack a Ha)|]. split; [done| |done]. intros _. apply (gr_got _ _ Hgr).
    apply (proj1 (Forall_forall _ _) (td_acks _ tidy_self) a Ha).
  - assert (control (Kcp.conv self) slog' hdr) as Hch
      by (destruct Hh as [->|(a & Ha & ->)]; [exact Hctl|by apply Hack]).
    split.
    + destruct Hch as ([[] ? ? ? ?] & Hd & _).
      constructor; [constructor|..]; cbn; try done; by destruct Hc as [->| ->].
    + split; [done|..]; destruct Hc as [->| ->]; done.
  - destruct inv' as (_ & Hs' & _).
    pose proof (proj1 (Forall_forall _ _) (snd_buf_ok _ _ Hs') s Hb) as (Hwire & Hcmd & _).
    rewrite (gr_conv _ _ Hgr) in Hwire. split; [done|]. split; [done|by rewrite Hcmd|].
    intros _. destruct flushed_numbers as [Hnum _].
    apply (numbered_from_in _ _ _ _ Hnum). apply list_elem_of_fmap. by exists s.
Qed.

End flush.
