(* ===== verification/KcpListen.v ===== *)
(** * Listening to an honest peer

    Hearing honest datagrams keeps the bookkeeping of an endpoint ([attentive]):
    nothing the peer still needs is forgotten.  And every segment is heeded:
    data is taken in and acknowledged, a window probe is noted for an answer,
    what the peer received leaves [snd_buf]. *)

From S2P Require Import Prelude Bytes Kcp KcpWire KcpMessage KcpReceive KcpInv KcpFlush.
From S2P Require Import KcpEmit KcpHear KcpTimers KcpStream KcpHonest.

(** ** What never goes back while listening *)

Record hearing (self self' : Kcp.t) : Prop := {
  hr_keeps : hear_keeps self self';
  hr_next : Kcp.rcv_nxt self <= Kcp.rcv_nxt self';
  hr_got : ∀ n, got self n → got self' n;
  hr_flight : ∀ n, n ∈ Seg.sn <$> Kcp.snd_buf self' → n ∈ Seg.sn <$> Kcp.snd_buf self;
  hr_timed : ∀ lo hi m, Forall (timed lo hi m) (Kcp.snd_buf self) →
    Forall (timed lo hi m) (Kcp.snd_buf self');
  hr_acks : Kcp.acklist self ≠ [] → Kcp.acklist self' ≠ [];
  hr_tell : asks self KCP_ASK_TELL = true → asks self' KCP_ASK_TELL = true;
  hr_cwnd : Kcp.cwnd self' = Kcp.cwnd self ∨ 1 <= Kcp.cwnd self';
}.

#[export] Instance hearing_refl : Reflexive hearing.
Proof. intros k. split; auto; reflexivity. Qed.

#[export] Instance hearing_trans : Transitive hearing.
Proof.
  intros x y z [] []. split; try (by auto); [by etrans|lia|].
  destruct hr_cwnd1 as [-> |]; [done|by right].
Qed.

Lemma hearing_growth self self' : hearing self self' → growth self self'.
Proof. intros [[] ? ? _ _ _ _ _]. split; [done|done|done|lia|done|done]. Qed.

(** The answer to one segment: [bound] is the end of the receive window. *)
Record heeds (bound : Z) (s : Seg.t) (self : Kcp.t) : Prop := {
  hd_push : Seg.cmd s = KCP_CMD_PUSH → Seg.sn s < bound →
    got self (Seg.sn s) ∧ Kcp.acklist self ≠ [];
  hd_wask : Seg.cmd s = KCP_CMD_WASK → asks self KCP_ASK_TELL = true;
  hd_una : ∀ n, n ∈ Seg.sn <$> Kcp.snd_buf self → Seg.una s <= n;
}.

Lemma heeds_hearing bound bound' s self self' :
  bound' <= bound → hearing self self' → heeds bound s self → heeds bound' s self'.
Proof.
  intros Hb [] []. split; [|by auto|by auto].
  intros Hp Hs. destruct (hd_push0 Hp ltac:(lia)). auto.
Qed.

(** ** The lists of segments in flight *)

Lemma remaining_Forall Q s self : Forall Q (Kcp.snd_buf self) → Forall Q (remaining s self).
Proof.
  intros H. unfold remaining. destruct (_ && _); [apply remove_acked_Forall|];
    by apply drop_acked_Forall.
Qed.

Lemma remaining_flight s self n :
  n ∈ Seg.sn <$> remaining s self → n ∈ Seg.sn <$> Kcp.snd_buf self.
Proof.
  intros (x & -> & Hx)%list_elem_of_fmap. revert x Hx. apply Forall_forall, remaining_Forall.
  apply Forall_forall. intros x Hx. apply list_elem_of_fmap. by exists x.
Qed.

Lemma remaining_numbers s self :
  numbered_from 0 (Kcp.snd_nxt self) (Kcp.snd_buf self) → 0 <= Kcp.snd_nxt self <= 2 ^ 30 →
  0 <= Seg.una s <= 2 ^ 30 →
  numbered_from 0 (Kcp.snd_nxt self) (remaining s self)
  ∧ ∀ n, n ∈ Seg.sn <$> remaining s self → Seg.una s <= n.
Proof.
  intros Hn H0 Hu. unfold remaining.
  assert (∀ l, numbered_from (0 `max` Seg.una s) (Kcp.snd_nxt self) l ∨ l = [] →
    numbered_from 0 (Kcp.snd_nxt self) l ∧ ∀ n, n ∈ Seg.sn <$> l → Seg.una s <= n) as Hend.
  { intros l [Hl| ->].
    - split; [eapply numbered_from_weaken; [|exact Hl]; lia|].
      intros n Hin. pose proof (numbered_from_in _ _ _ _ Hl Hin). lia.
    - split; [cbn; lia|]. intros n Hin. by apply elem_of_nil in Hin. }
  pose proof (drop_acked_numbers (Seg.una s) 0 (Kcp.snd_nxt self) (Kcp.snd_buf self) Hn
    ltac:(lia) ltac:(lia) Hu) as Hd.
  destruct (_ && _); apply Hend; [|done].
  destruct Hd as [Hd| ->]; [left; by apply remove_acked_numbers|by right].
Qed.

(** What is not acknowledged stays. *)
Lemma remaining_in s self n :
  numbered_from 0 (Kcp.snd_nxt self) (Kcp.snd_buf self) → 0 <= Kcp.snd_nxt self <= 2 ^ 30 →
  0 <= Seg.una s <= 2 ^ 30 → n ∈ Seg.sn <$> Kcp.snd_buf self → Seg.una s <= n →
  (Seg.cmd s = KCP_CMD_ACK → n ≠ Seg.sn s) → n ∈ Seg.sn <$> remaining s self.
Proof.
  intros Hn H0 Hu Hin Hle Hack. unfold remaining.
  assert (n ∈ Seg.sn <$> Kcp.drop_acked (Seg.una s) (Kcp.snd_buf self)) as Hd
    by (by apply (drop_acked_in (Seg.una s) 0 (Kcp.snd_nxt self)); [| |lia| | |]).
  destruct (Z.eqb_spec (Seg.cmd s) KCP_CMD_ACK) as [Hc|]; cbn [andb]; [|done].
  destruct (negb _); [|done]. apply remove_acked_in; [done|by apply Hack].
Qed.

Lemma count_fastack_timed lo hi m n t l :
  Forall (timed lo hi m) l → Forall (timed lo hi m) (Kcp.count_fastack n t l).
Proof.
  induction 1 as [|s l Hs Hl IH]; cbn [Kcp.count_fastack]; [done|].
  destruct (_ <? _); [by constructor|]. constructor; [|done]. by destruct (_ && _).
Qed.

Lemma asks_lor p : negb (Z.land (Z.lor p KCP_ASK_TELL) KCP_ASK_TELL =? 0) = true.
Proof.
  rewrite Z.land_lor_distr_l. change (Z.land KCP_ASK_TELL KCP_ASK_TELL) with 2.
  apply negb_true_iff, Z.eqb_neq. intros H%Z.lor_eq_0_iff. lia.
Qed.

(** ** One segment *)

Section listen.
Context `{St : Static} (rlog slog : list (Z * list Z)) (hist : list Seg.t) (speaker : Kcp.t).
Hypothesis few : len rlog < 2 ^ 30.
Hypothesis few_sent : len slog < 2 ^ 30.
Hypothesis speaker_sent : Kcp.snd_nxt speaker <= 2 ^ 30.
Hypothesis speaker_heard : Kcp.rcv_nxt speaker <= 2 ^ 30.

Record attentive (self : Kcp.t) : Prop := {
  at_inv : kcp_inv (from_peer rlog) slog hist self;
  at_tidy : tidy self;
  at_retained : retained self speaker;
}.

Definition spoken (conv : Z) (s : Seg.t) : Prop := wire_seg conv rlog s ∧ truthful speaker s.

Lemma spoken_hearable conv s : spoken conv s → hearable (from_peer rlog) conv s.
Proof using few.
  intros [Hw _]. pose proof Hw as []. split; [done|done|done|].
  apply (wire_accept conv rlog); [lia|done].
Qed.

Lemma segment_listen s self :
  attentive self → spoken (Kcp.conv self) s →
  ∃ self', segment_effect s self = Ret self' ∧ attentive self' ∧ hearing self self'
    ∧ heeds (Kcp.rcv_nxt self + Kcp.rcv_wnd self) s self' ∧ Kcp.rmt_wnd self' = Seg.wnd s
    ∧ Kcp.current self' = Kcp.current self.
Proof using All.
  intros [Hinv Htidy Hret] Hs. pose proof (spoken_hearable _ _ Hs) as Hh. destruct Hs as [Hw Ht].
  destruct (segment_kinv (from_peer rlog) slog hist s self Hinv Hh) as (self' & E & Hinv').
  exists self'. split; [done|]. apply segment_heard in E as H; [|apply Hh].
  destruct (exact_rcv_nxt _ _ _ _ Hinv few) as (_ & _ & Hroom).
  pose proof (exact_snd_nxt _ _ _ _ Hinv few_sent) as Hnxt. pose proof (len_nonneg slog) as H0.
  pose proof Htidy as [Hnum Hfront Hacks Hgap]. pose proof (tr_una _ _ Ht) as Hu.
  assert (in_width 30 (Seg.sn s) ∨ Seg.cmd s ≠ KCP_CMD_PUSH) as Hsn.
  { destruct (decide (Seg.cmd s = KCP_CMD_PUSH)) as [Hp|]; [left|by right].
    pose proof (tr_push _ _ Ht Hp). unfold in_width. lia. }
  destruct (heard_in s self self' H Hroom Hgap) as [Hin Hgot Hgap' (l & Hl & Hlg) Hpush];
    [by destruct Hsn|].
  destruct H as [Hk Hr Hc Hnow Hb Hf Hp _].
  destruct (remaining_numbers s self Hnum ltac:(lia) ltac:(lia)) as [Hn1 Hn2].
  split_and!; [split|split|split|done|done].
  - done.
  - split; [by rewrite Hb, (hk_nxt _ _ Hk)|done| |done]. rewrite Hl. apply Forall_app.
    split; [|done]. eapply Forall_impl; [exact Hacks|]. intros a. apply Hgot.
  - intros n Hn Hng. rewrite (hk_nxt _ _ Hk) in Hn. specialize (Hret n Hn Hng). rewrite Hb.
    apply remaining_in; try done; [lia|lia| |].
    + unfold got in Hng. lia.
    + intros Ha ->. apply Hng. by apply (tr_ack _ _ Ht).
  - done.
  - done.
  - done.
  - intros n. rewrite Hb. apply remaining_flight.
  - intros lo hi m. rewrite Hb. apply remaining_Forall.
  - rewrite Hl. by destruct (Kcp.acklist self).
  - unfold asks. rewrite Hp. destruct (_ =? KCP_CMD_WASK); [|done]. intros _. apply asks_lor.
  - by left.
  - done.
  - intros Hcmd. unfold asks. rewrite Hp, Hcmd. apply asks_lor.
  - intros n. rewrite Hb. apply Hn2.
Qed.

(** ** A whole datagram *)

(** The window the last segment announced. *)
Definition announced (self : Kcp.t) (segs : list Seg.t) : Z :=
  from_option Seg.wnd (Kcp.rmt_wnd self) (last segs).

(** The state after all of [segs]. *)
Record listened (segs : list Seg.t) (self self' : Kcp.t) : Prop := {
  ls_attentive : attentive self';
  ls_hearing : hearing self self';
  ls_heeds : Forall (λ s, heeds (Kcp.rcv_nxt self + Kcp.rcv_wnd self) s self') segs;
  ls_window : Kcp.rmt_wnd self' = announced self segs;
}.

Lemma listened_nil self : attentive self → listened [] self self.
Proof. by intros H. Qed.

Lemma listened_app segs1 segs2 self1 self2 self3 :
  listened segs1 self1 self2 → listened segs2 self2 self3 →
  listened (segs1 ++ segs2) self1 self3.
Proof.
  intros [Ha1 Hh1 Hs1 Hw1] [Ha2 Hh2 Hs2 Hw2]. split; [done|by etrans| |].
  - apply Forall_app. split; (eapply Forall_impl; [done|]); intros s Hs.
    + eapply heeds_hearing; [|exact Hh2|exact Hs]. done.
    + eapply heeds_hearing; [|reflexivity|exact Hs].
      rewrite (hk_rcv_wnd _ _ (hr_keeps _ _ Hh1)). pose proof (hr_next _ _ Hh1). lia.
  - rewrite Hw2. unfold announced. rewrite last_app. by destruct (last segs2).
Qed.

Lemma segments_listen segs : ∀ self,
  attentive self → Forall (spoken (Kcp.conv self)) segs →
  ∃ self', for_each segs segment_effect self = Ret self' ∧ listened segs self self'
    ∧ Kcp.current self' = Kcp.current self.
Proof using All.
  induction segs as [|s segs IH]; intros self Ha Hs; cbn [for_each].
  { exists self. split; [done|]. split; [by apply listened_nil|done]. }
  apply Forall_cons in Hs as [Hs Hss].
  destruct (segment_listen s self Ha Hs) as (k & -> & Hk & Hh & Hd & Hw & Hc). cbn [mbind comp_bind].
  rewrite <- (hk_conv _ _ (hr_keeps _ _ Hh)) in Hss.
  destruct (IH k Hk Hss) as (k' & E & Hl & Hc'). exists k'. split; [done|].
  split; [|by rewrite Hc'].
  apply (listened_app [s] segs self k k'); [|done].
  split; [done|done|by apply Forall_singleton|done].
Qed.

(** The last adjustments of [input] change nothing of this. *)
Lemma settled_hearing self self' :
  settled self self' → kcp_inv (from_peer rlog) slog hist self' → attentive self →
  attentive self' ∧ hearing self self'.
Proof.
  intros [Hk (R1 & R2 & R3 & R4) Hu _ Hp _ Hc (n & t & Hb)] Hinv' [_ [N1 N2 N3 N4] Hr].
  assert (Seg.sn <$> Kcp.snd_buf self' = Seg.sn <$> Kcp.snd_buf self) as Es.
  { destruct Hb as [-> | ->]; [done|apply count_fastack_sns]. }
  split; split.
  - done.
  - split.
    + rewrite (hk_nxt _ _ Hk). by eapply numbered_from_ext.
    + rewrite Hu, N2. unfold front. rewrite (hk_nxt _ _ Hk).
      destruct (Kcp.snd_buf self), (Kcp.snd_buf self'); try done. by injection Es.
    + rewrite R4. eapply Forall_impl; [exact N3|]. intros a. by apply got_ext.
    + apply (gap_same self); [done|apply hk_rcv_wnd, Hk|done].
  - intros m. unfold retained in Hr. rewrite (hk_nxt _ _ Hk), Es. apply Hr.
  - done.
  - by rewrite R1.
  - intros m. by apply got_ext.
  - intros m. by rewrite Es.
  - intros lo hi m H. destruct Hb as [-> | ->]; [done|by apply count_fastack_timed].
  - by rewrite R4.
  - unfold asks. by rewrite Hp.
  - done.
Qed.

Lemma conf_own self : conf_ok self →
  conf_ok (H := {| st_conv := Kcp.conv self; st_mtu := Kcp.mtu self;
    st_rcv_wnd := Kcp.rcv_wnd self |}) self.
Proof. intros []. by constructor. Qed.

Lemma input_listen now segs self :
  in_width 32 now → attentive self → segs ≠ [] → Forall (spoken (Kcp.conv self)) segs →
  ∃ r self', Kcp.input self now (datagram segs) = Ret (r, self') ∧ listened segs self self'
    ∧ Kcp.current self' = now.
Proof using All.
  intros Hnow Ha Hne Hs. set (self0 := self <| Kcp.current := now |>).
  assert (attentive self0) as Ha0.
  { destruct Ha as [Hi [] Hr]. split; [by apply set_current_inv|by split|done]. }
  destruct (segments_listen segs self0 Ha0 Hs) as (k & E & Hl & Hc).
  assert (Forall (λ s, seg_wf s ∧ valid_cmd (Seg.cmd s) = true ∧ Seg.conv s = Kcp.conv self) segs)
    as Hwf.
  { eapply Forall_impl; [exact Hs|]. intros s H. by destruct (spoken_hearable _ _ H). }
  pose proof (ls_attentive _ _ _ Hl) as Hk. destruct (at_inv _ Hk) as (Hconf & _).
  destruct (input_settled self now segs k Hne Hwf E (conf_own k Hconf)) as (r & k' & Ei & Hset).
  destruct (deliver_kinv rlog slog hist self now (datagram segs) (len (datagram segs)))
    as (m & k2 & E2 & Hinv); [lia|apply Ha|done| |].
  { exists segs. split_and!; [done|done|done|]. eapply Forall_impl; [exact Hs|]. by intros s []. }
  rewrite Ei in E2. apply Ret_inj in E2 as [= -> <-].
  exists (Ok m), k'. split; [done|].
  destruct (settled_hearing k k' Hset Hinv Hk) as [Ha' Hh'].
  split; [|by rewrite (st_current _ _ Hset)].
  replace segs with (segs ++ []) by apply app_nil_r. apply (listened_app segs [] self k k').
  - destruct Hl as [L1 L2 L3 L4]. split; [done| |done|done].
    transitivity self0; [by split; auto|done].
  - split; [done|done|done|]. apply Hset.
Qed.

End listen.
