(* ===== verification/KcpSteady.v ===== *)
(** * Every call keeps the bookkeeping of an endpoint

    [steady]: the numbers in flight, the acknowledgements, the datagrams
    waiting and the timers of an endpoint are in order, and it still holds what
    its peer misses.  Each operation of [Kcp] preserves it. *)

From S2P Require Import Prelude Bytes Kcp KcpWire KcpMessage KcpReceive KcpInv KcpFlush.
From S2P Require Import KcpEmit KcpHear KcpTimers KcpStream KcpHonest KcpListen.

Record steady (slog : list (Z * list Z)) (lo hi : Z) (peer self : Kcp.t) : Prop := {
  sy_tidy : tidy self;
  sy_output : Forall (honest slog self) (Kcp.output self);
  sy_retained : retained self peer;
  sy_timers : timers lo hi self;
}.

Lemma honest_all_growth slog slog' self self' l :
  slog `prefix_of` slog' → growth self self' →
  Forall (honest slog self) l → Forall (honest slog' self') l.
Proof. intros Hp Hg H. eapply Forall_impl; [exact H|]. intros d. by apply honest_growth. Qed.

Lemma steady_peer slog lo hi peer peer' self :
  growth peer peer' → steady slog lo hi peer self → steady slog lo hi peer' self.
Proof. intros Hg []. split; [done|done|by eapply retained_growth|done]. Qed.

(** ** Calls that only queue or dequeue *)

Record quiet (self self' : Kcp.t) : Prop := {
  qt_growth : growth self self';
  qt_gap : gap self';
  qt_nxt : Kcp.snd_nxt self' = Kcp.snd_nxt self;
  qt_buf : Kcp.snd_buf self' = Kcp.snd_buf self;
  qt_una : Kcp.snd_una self' = Kcp.snd_una self;
  qt_acks : Kcp.acklist self' = Kcp.acklist self;
  qt_output : Kcp.output self' = Kcp.output self;
  qt_timing : Kcp.timing self' = Kcp.timing self;
  qt_flush : Kcp.ts_flush self' = Kcp.ts_flush self;
  qt_probe : Kcp.ts_probe self' = Kcp.ts_probe self;
  qt_wait : Kcp.probe_wait self' = Kcp.probe_wait self;
  qt_current : Kcp.current self' = Kcp.current self;
}.

Lemma steady_quiet slog lo hi peer self self' :
  quiet self self' → steady slog lo hi peer self → steady slog lo hi peer self'.
Proof.
  intros [Hg Hgap Hn Hb Hu Ha Ho Ht Hf Hp Hw _] [[N1 N2 N3 N4] Hout Hr [T1 T2 T3 T4 T5]]. split.
  - split; [by rewrite Hn, Hb|unfold front; by rewrite Hu, Hb, Hn|rewrite Ha|done].
    eapply Forall_impl; [exact N3|]. intros a. apply (gr_got _ _ Hg).
  - rewrite Ho. by eapply honest_all_growth.
  - intros n. rewrite Hn, Hb. apply Hr.
  - split; unfold patience; rewrite ?Ht, ?Hf, ?Hp, ?Hw, ?Hb; done.
Qed.

Lemma send_quiet self bytes r self' :
  gap self → 0 < Kcp.mss self → Kcp.send self bytes = Ret (r, self') → quiet self self'.
Proof.
  intros Hg Hm. rewrite send_eq by done. destruct (_ || _); intros [= _ <-]; by split.
Qed.

Lemma after_recv_quiet self queue :
  roomy self → quiet self (after_recv self queue).
Proof.
  intros Hr. unfold after_recv. set (self1 := self <| Kcp.rcv_queue := queue |>).
  assert (roomy self1) as Hr1 by exact Hr. apply move_buf_got in Hr1 as (H1 & H2 & H3).
  destruct (move_buf_frame self1) as (b & q & n & E).
  assert (quiet self (Kcp.move_buf self1)) as Hq.
  { split; [split; [by rewrite E|exact H1|intros m Hm; by apply H2|by rewrite E..]|exact H3|..];
      by rewrite E. }
  destruct (_ && _); [|done]. destruct Hq as [[] ? ? ? ? ? ? ? ? ? ? ?]. by split; [split|..].
Qed.

Lemma recv_quiet self buf r self' buf' :
  roomy self → gap self → len (payload (Kcp.rcv_queue self)) < 2 ^ 64 → len buf < 2 ^ 64 →
  Kcp.recv self buf = Ret (r, self', buf') → quiet self self'.
Proof.
  intros Hr Hg Hl Hb. rewrite recv_eq by done.
  destruct (Kcp.peeksize self); [destruct (_ <? _)|]; intros [= _ <- _];
    [by split|by apply after_recv_quiet|by split].
Qed.

Lemma take_steady slog lo hi peer self :
  steady slog lo hi peer self → steady slog lo hi peer (Kcp.take_output self).2.
Proof. intros [[] _ Hr []]. by split; [split|constructor|exact Hr|split]. Qed.

(** ** Flushing *)

(** Timers after a flush at [T]: in the same window, or all renewed. *)
Lemma flushed_timers_keep self self' groups taken rest T lo hi :
  flushed self self' groups taken rest →
  0 <= Kcp.rx_rto self <= KcpTiming.rto_max (Kcp.timing self) → Kcp.current self = wrap 32 T →
  timers lo hi self → lo <= T → T + patience self <= hi → timers lo hi self'.
Proof.
  intros Hf Hrto Hnow [T1 T2 T3 T4 T5] H1 H2.
  pose proof (flushed_segs_keep self self' groups taken rest T Hf T1 Hrto Hnow lo hi T5 H1 H2) as Hs.
  destruct (probe_timed self lo hi T T1 Hnow T4 T3) as (P1 & P2 & _).
  destruct (fd_keeps _ _ _ _ _ Hf) as [_ _ _ _ _ _ _ Ht _ Hfl _ _ _ _ Hp Hw].
  split; unfold patience in *; rewrite ?Ht, ?Hfl, ?Hp, ?Hw; try done.
  intros Hne. destruct (P2 Hne) as [Hpt|(Ep & Hpw & _)].
  - eapply at_time_weaken; [..|exact Hpt]; lia.
  - rewrite Ep. by apply T3.
Qed.

Lemma flushed_timers_due self self' groups taken rest T lo hi :
  flushed self self' groups taken rest →
  0 <= Kcp.rx_rto self <= KcpTiming.rto_max (Kcp.timing self) → Kcp.current self = wrap 32 T →
  sane (Kcp.timing self) → 0 <= Kcp.probe_wait self <= patience self →
  (Kcp.probe_wait self ≠ 0 → at_time lo hi (Kcp.ts_probe self)) →
  Forall (timed lo hi (KcpTiming.rto_max (Kcp.timing self))) (Kcp.snd_buf self) →
  at_time T (T + patience self) (Kcp.ts_flush self) →
  hi <= T < lo + 2 ^ 31 → timers T (T + patience self) self'.
Proof.
  intros Hf Hrto Hnow T1 T4 T3 T5 T2 H1.
  pose proof (flushed_segs_due self self' groups taken rest T Hf T1 Hrto Hnow lo hi T5 H1) as Hs.
  destruct (probe_timed self lo hi T T1 Hnow T4 T3) as (P1 & P2 & _).
  destruct (fd_keeps _ _ _ _ _ Hf) as [_ _ _ _ _ _ _ Ht _ Hfl _ _ _ _ Hp Hw].
  split; unfold patience in *; rewrite ?Ht, ?Hfl, ?Hp, ?Hw; try done.
  intros Hne. destruct (P2 Hne) as [Hpt|(_ & Hpw & Hlt)]; [done|].
  pose proof (at_time_due lo hi T _ (T3 Hpw) H1). rewrite <- Hnow in *. lia.
Qed.

Section flush.
Context `{St : Static} (rlog slog slog' : list (Z * list Z)) (hist hist' : list Seg.t)
  (peer : Kcp.t).
Hypothesis few : len rlog < 2 ^ 30.

(** A flush, apart from the timers. *)
Lemma flush_books self r self' :
  kcp_inv (from_peer rlog) slog hist self → kcp_inv (from_peer rlog) slog' hist' self' →
  slog `prefix_of` slog' → len slog' < 2 ^ 30 → len slog + len (Kcp.snd_queue self) < 2 ^ 30 →
  tidy self → Forall (honest slog self) (Kcp.output self) → retained self peer →
  Kcp.updated self = true → Kcp.flush self = Ret (r, self') →
  ∃ groups taken rest, flushed self self' groups taken rest ∧ growth self self'
    ∧ tidy self' ∧ Forall (honest slog' self') (Kcp.output self') ∧ retained self' peer
    ∧ Forall (honest_group slog' self') groups.
Proof using few.
  intros Hi Hi' Hp Hl Hq Ht Ho Hr Hu E.
  destruct (flush_flushed (from_peer rlog) hist slog self r self' Hi Hu E)
    as (_ & groups & taken & rest & F).
  exists groups, taken, rest.
  assert (growth self self') as Hg
    by (by apply (flushed_growth rlog slog slog' hist hist' self self' groups taken rest)).
  assert (Forall (honest_group slog' self') groups) as Hnew
    by (by apply (flushed_honest rlog slog slog' hist hist' self self' groups taken rest)).
  split_and!; [done|done| | | |done].
  - by apply (flushed_tidy rlog slog slog' hist hist' self self' groups taken rest).
  - rewrite (fd_output _ _ _ _ _ F). apply Forall_app.
    split; [by eapply honest_all_growth|by apply groups_honest].
  - by apply (flushed_retained rlog slog slog' hist hist' self self' groups taken rest).
Qed.

Lemma flush_steady self r self' T lo hi :
  kcp_inv (from_peer rlog) slog hist self → kcp_inv (from_peer rlog) slog' hist' self' →
  slog `prefix_of` slog' → len slog' < 2 ^ 30 → len slog + len (Kcp.snd_queue self) < 2 ^ 30 →
  steady slog lo hi peer self → Kcp.flush self = Ret (r, self') →
  Kcp.current self = wrap 32 T → lo <= T → T + patience self <= hi →
  growth self self' ∧ steady slog' lo hi peer self' ∧ Kcp.current self' = Kcp.current self.
Proof using few.
  intros Hi Hi' Hp Hl Hq [Ht Ho Hr Hm] E Hnow H1 H2.
  destruct (Kcp.updated self) eqn:Hu.
  - destruct (flush_books self r self') as (g & t & q & F & Hg & Ht' & Ho' & Hr' & _); try done.
    split; [done|]. split; [|apply (fd_keeps _ _ _ _ _ F)].
    split; [done..|]. pose proof Hi as (Hconf & _). pose proof (conf_rto _ Hconf).
    eapply flushed_timers_keep; [exact F| |exact Hnow|done|done|done]. lia.
  - unfold Kcp.flush in E. rewrite Hu in E. apply Ret_inj in E as [= _ <-].
    split; [done|]. split; [|done]. split; [done| |done|done]. by eapply honest_all_growth.
Qed.

(** What a turn that flushes does. *)
Lemma update_due self r self' T lo hi :
  kcp_inv (from_peer rlog) slog hist self → kcp_inv (from_peer rlog) slog' hist' self' →
  slog `prefix_of` slog' → len slog' < 2 ^ 30 → len slog + len (Kcp.snd_queue self) < 2 ^ 30 →
  steady slog lo hi peer self → Kcp.update self (wrap 32 T) = Ret (r, self') →
  hi <= T < lo + 2 ^ 31 →
  growth self self' ∧ steady slog' T (T + patience self) peer self' ∧
  ∃ f groups taken rest,
    let k := self <| Kcp.current := wrap 32 T |> <| Kcp.updated := true |> <| Kcp.ts_flush := f |> in
    flushed k self' groups taken rest ∧ kcp_inv (from_peer rlog) slog hist k
    ∧ Forall (honest_group slog' self') groups.
Proof using few.
  intros Hi Hi' Hp Hl Hq [Ht Ho Hr Hm] E Hdue. destruct Hm as [T1 T2 T3 T4 T5].
  destruct (update_split self T lo hi r self' T1 T2) as (f & Hcase); [lia|done|].
  destruct Hcase as [[E' Hf]|(_ & _ & _ & Hlt)]; [|lia].
  set (k := self <| Kcp.current := wrap 32 T |> <| Kcp.updated := true |> <| Kcp.ts_flush := f |>) in *.
  assert (kcp_inv (from_peer rlog) slog hist k) as Hk.
  { pose proof (wrap_range 32 T ltac:(lia)). destruct Hi as ([] & [] & [] & Hrcv).
    split_and!; [by constructor..|by eapply rcv_inv_ext; [..|exact Hrcv]]. }
  assert (tidy k) as Htk by (destruct Ht; by split).
  destruct (flush_books k r self') as (g & t & q & F & Hg & Ht' & Ho' & Hr' & Hd); try done.
  { eapply honest_all_growth; [done| |exact Ho]. by split. }
  split; [transitivity k; [by split|done]|].
  split; [split; [done..|]|by exists f, g, t, q].
  pose proof Hk as (Hconf & _). pose proof (conf_rto _ Hconf).
  eapply (flushed_timers_due k self' g t q T lo hi); try done. lia.
Qed.

Lemma update_steady self r self' T lo hi :
  kcp_inv (from_peer rlog) slog hist self → kcp_inv (from_peer rlog) slog' hist' self' →
  slog `prefix_of` slog' → len slog' < 2 ^ 30 → len slog + len (Kcp.snd_queue self) < 2 ^ 30 →
  steady slog lo hi peer self → Kcp.update self (wrap 32 T) = Ret (r, self') →
  lo <= T → T + patience self <= hi < lo + 2 ^ 31 →
  growth self self' ∧ steady slog' lo hi peer self' ∧ Kcp.current self' = wrap 32 T.
Proof using few.
  intros Hi Hi' Hp Hl Hq [Ht Ho Hr Hm] E H1 H2. pose proof Hm as [T1 T2 T3 T4 T5].
  destruct (update_split self T lo hi r self' T1 T2) as (f & Hcase);
    [unfold patience in H2; pose proof (sn_probe _ T1); lia|done|].
  set (k := self <| Kcp.current := wrap 32 T |> <| Kcp.updated := true |> <| Kcp.ts_flush := f |>) in *.
  assert (∀ f', at_time lo hi f' → f' = f → kcp_inv (from_peer rlog) slog hist k
    ∧ steady slog lo hi peer k ∧ growth self k) as Hkeep.
  { intros f' Hf ->. pose proof (wrap_range 32 T ltac:(lia)). split; [|split].
    - destruct Hi as ([] & [] & [] & Hrcv).
      split_and!; [by constructor..|by eapply rcv_inv_ext; [..|exact Hrcv]].
    - split; [destruct Ht; by split| |done|by split].
      eapply honest_all_growth; [done| |exact Ho]. by split.
    - by split. }
  destruct Hcase as [[E' Hf]|(-> & _ & -> & _)].
  - destruct (Hkeep f) as (Hk & Hs & Hg); [eapply at_time_weaken; [..|exact Hf]; lia|done|].
    destruct (flush_steady k r self' T lo hi) as (Hg' & Hs' & Hc); try done; [apply H2|].
    split; [by transitivity k|done].
  - destruct (Hkeep (Kcp.ts_flush self)) as (_ & Hs & Hg); [done|done|].
    split; [done|]. split; [|done]. destruct Hs as [S1 S2 S3 S4]. split; [done| |done|done].
    by eapply honest_all_growth.
Qed.
End flush.

(** ** Listening *)

Lemma listened_steady `{St : Static} rlog slog hist speaker segs self self' lo hi :
  listened rlog slog hist speaker segs self self' →
  steady slog lo hi speaker self → steady slog lo hi speaker self'.
Proof.
  intros [[_ Ht Hr] Hh _ _] [_ Ho _ [T1 T2 T3 T4 T5]]. pose proof (hr_keeps _ _ Hh) as [].
  split; [done| |done|].
  - rewrite hk_output. eapply honest_all_growth; [done|by apply hearing_growth|done].
  - split; unfold patience; rewrite ?hk_timing, ?hk_ts_flush, ?hk_ts_probe, ?hk_probe_wait; try done.
    by apply (hr_timed _ _ Hh).
Qed.
