(* ===== verification/KcpPair.v ===== *)
(** * Two endpoints in order, after any calls

    [aside]: beyond the safety invariant of [KcpStream], the bookkeeping of
    each side is steady with respect to the other, and everything it ever put
    on the wire is honest.  Every call of either side keeps this. *)

From S2P Require Import Prelude Bytes Kcp KcpWire KcpMessage KcpReceive KcpInv KcpFlush.
From S2P Require Import KcpEmit KcpHear KcpTimers KcpStream KcpHonest KcpListen KcpSteady.

(** The timing of a connection, and the longest delay of its timers. *)
Definition timing_of (params : KcpParams.t) : KcpTiming.t :=
  KcpTiming.new (KcpParams.time_scale params).

Definition patience_of (params : KcpParams.t) : Z := KcpTiming.probe_max (timing_of params).

Record aside (params : KcpParams.t) (lo hi : Z) (slog : list (Z * list Z)) (p q : peer) : Prop := {
  as_steady : steady slog lo hi (node q) (node p);
  as_wire : Forall (honest slog (node p)) (wire p);
  as_timing : Kcp.timing (node p) = timing_of params;
  as_snd_wnd : Kcp.snd_wnd (node p) = KcpParams.send_window params;
}.

Lemma aside_patience params lo hi slog p q :
  aside params lo hi slog p q → patience (node p) = patience_of params.
Proof. intros [_ _ Ht _]. unfold patience. by rewrite Ht. Qed.

(** The other side may move on. *)
Lemma aside_peer params lo hi slog p q q' :
  growth (node q) (node q') → aside params lo hi slog p q → aside params lo hi slog p q'.
Proof. intros Hg []. split; [by eapply steady_peer|done..]. Qed.

(** A new state of the node. *)
Lemma aside_node params lo hi lo' hi' slog slog' p p' q :
  aside params lo hi slog p q → growth (node p) (node p') →
  steady slog' lo' hi' (node q) (node p') → slog `prefix_of` slog' → wire p' = wire p →
  aside params lo' hi' slog' p' q.
Proof.
  intros [_ Hw Ht Hn] Hg Hs Hp E.
  split; [done| |by rewrite (gr_timing _ _ Hg)|by rewrite (gr_snd_wnd _ _ Hg)].
  rewrite E. by eapply honest_all_growth.
Qed.

(** ** Streams below 2^30 segments *)

Definition stream_len (params : KcpParams.t) (p : peer) : Z :=
  len (stream_of (mss_of params) (sent p)).

Section side.
Context (conv : Z) (pp pq : KcpParams.t) (sp sq : list (Z * list Z)) (hp hq : list Seg.t).
Context (p q : peer).
Hypothesis inv : pair_inv conv pp pq sp sq hp hq p q.
Hypothesis short_p : stream_len pp p < 2 ^ 30.
Hypothesis short_q : stream_len pq q < 2 ^ 30.

Abbreviation inv_p := (half_peer _ _ _ _ _ _ _ _ (pair_p _ _ _ _ _ _ _ _ _ inv)) (only parsing).
Abbreviation inv_q := (half_peer _ _ _ _ _ _ _ _ (pair_q _ _ _ _ _ _ _ _ _ inv)) (only parsing).

Lemma pair_few :
  len sp + len (Kcp.snd_queue (node p)) = stream_len pp p ∧ len sq <= stream_len pq q.
Proof.
  pose proof (peer_log _ _ _ _ _ _ inv_p) as Hp. pose proof (peer_log _ _ _ _ _ _ inv_q) as Hq.
  unfold stream_len. rewrite <- Hp, <- Hq, !len_app, len_map.
  pose proof (len_nonneg (carried <$> Kcp.snd_queue (node q))). lia.
Qed.

(** The numbers of both sides, exactly. *)
Lemma pair_numbers :
  Kcp.snd_nxt (node p) = len sp ∧ Kcp.snd_nxt (node q) = len sq
  ∧ 0 <= Kcp.rcv_nxt (node p) <= len sq ∧ 0 <= Kcp.rcv_nxt (node q) <= len sp
  ∧ len sp < 2 ^ 30 ∧ len sq < 2 ^ 30.
Proof using inv short_p short_q.
  destruct pair_few as [H1 H2]. pose proof (len_nonneg (Kcp.snd_queue (node p))).
  pose proof (peer_kcp _ _ _ _ _ _ inv_p) as Kp. pose proof (peer_kcp _ _ _ _ _ _ inv_q) as Kq.
  destruct (exact_rcv_nxt _ _ _ _ Kp ltac:(lia)) as (E1 & L1 & _).
  destruct (exact_rcv_nxt _ _ _ _ Kq ltac:(lia)) as (E2 & L2 & _).
  pose proof (len_nonneg (hp ++ Kcp.rcv_queue (node p))).
  pose proof (len_nonneg (hq ++ Kcp.rcv_queue (node q))).
  split_and!; try lia; [by eapply exact_snd_nxt; [|lia]..].
Qed.

Lemma pair_roomy : roomy (node p) ∧ len (payload (Kcp.rcv_queue (node p))) < 2 ^ 64.
Proof using inv short_p short_q.
  destruct pair_numbers as (_ & _ & _ & _ & _ & Hl).
  pose proof (peer_kcp _ _ _ _ _ _ inv_p) as Kp. split.
  - by eapply exact_rcv_nxt.
  - eapply (queue_payload_bound (St := connection conv pp)); [|exact Kp]. by intros j s [].
Qed.

(** Segments of the other side are spoken to [p]. *)
Lemma pair_spoken segs :
  honest_group sq (node q) segs →
  segs ≠ [] ∧ Forall (spoken sq (node q) (Kcp.conv (node p))) segs.
Proof using inv.
  intros (Hne & Hs). split; [done|].
  pose proof inv_p as [(Hp & _) _ _ _]. pose proof inv_q as [(Hq & _) _ _ _].
  destruct (conf_static _ Hp) as (-> & _). destruct (conf_static _ Hq) as (E & _).
  cbn in E |- *. by rewrite E in Hs.
Qed.

Lemma pair_attentive lo hi :
  steady sp lo hi (node q) (node p) → attentive (St := connection conv pp) sq sp hp (node q) (node p).
Proof using inv. intros []. split; [apply inv_p|done|done]. Qed.

End side.

(** ** One call *)

Definition call_before (T0 : Z) (c : call) : Prop :=
  match c with CallUpdate now | CallInput now _ => now <= T0 | _ => True end.

(** The clock of an endpoint was last set at [T0] or before. *)
Definition recent (T0 : Z) (self : Kcp.t) : Prop := at_time 0 T0 (Kcp.current self).

Section past.
Context (conv : Z) (pp pq : KcpParams.t) (sp sq sp' : list (Z * list Z)) (hp hq hp' : list Seg.t).
Context (p p' q : peer) (T0 : Z).
Hypothesis inv : pair_inv conv pp pq sp sq hp hq p q.
Hypothesis inv' : pair_inv conv pp pq sp' sq hp' hq p' q.
Hypothesis grown_p : grown sp sp' p p'.
Hypothesis short_p : stream_len pp p' < 2 ^ 30.
Hypothesis short_q : stream_len pq q < 2 ^ 30.
Hypothesis early : T0 + patience_of pp < 2 ^ 31.
Hypothesis wire_q : Forall (honest sq (node q)) (wire q).

Abbreviation hi := (T0 + patience_of pp) (only parsing).
Abbreviation kcp_before :=
  (peer_kcp _ _ _ _ _ _ (half_peer _ _ _ _ _ _ _ _ (pair_p _ _ _ _ _ _ _ _ _ inv))) (only parsing).
Abbreviation kcp_after :=
  (peer_kcp _ _ _ _ _ _ (half_peer _ _ _ _ _ _ _ _ (pair_p _ _ _ _ _ _ _ _ _ inv'))) (only parsing).

Lemma short_before : stream_len pp p < 2 ^ 30.
Proof using grown_p short_p.
  pose proof (grown_sent _ _ _ _ grown_p) as Hs. unfold stream_len in *.
  apply (stream_of_prefix (mss_of pp)) in Hs as [tl E]. rewrite E, len_app in short_p.
  pose proof (len_nonneg tl). lia.
Qed.

(** What is left to check of a call: the node, and the wire it left alone. *)
Lemma past_node :
  aside pp 0 hi sp p q → wire p' = wire p →
  growth (node p) (node p') ∧ steady sp' 0 hi (node q) (node p') →
  aside pp 0 hi sp' p' q ∧ growth (node p) (node p').
Proof using grown_p.
  intros Ha Hw [Hg Hs]. split; [|done]. eapply aside_node; [done|done|done|apply grown_p|done].
Qed.

Lemma past_quiet :
  aside pp 0 hi sp p q → wire p' = wire p → quiet (node p) (node p') →
  aside pp 0 hi sp' p' q ∧ growth (node p) (node p').
Proof using grown_p.
  intros Ha Hw Hq. apply past_node; [done|done|]. split; [apply Hq|].
  apply (steady_quiet _ _ _ _ _ _ Hq). destruct (as_steady _ _ _ _ _ _ Ha) as [S1 S2 S3 S4].
  split; [done| |done|done]. eapply honest_all_growth; [apply grown_p|done|done].
Qed.

Lemma past_flush_bounds :
  len sq < 2 ^ 30 ∧ sp `prefix_of` sp' ∧ len sp' < 2 ^ 30
  ∧ len sp + len (Kcp.snd_queue (node p)) < 2 ^ 30.
Proof using All.
  pose proof short_before as Hsb.
  destruct (pair_few conv pp pq sp sq hp hq p q inv) as [E1 E2].
  destruct (pair_few conv pp pq sp' sq hp' hq p' q inv') as [E3 _].
  pose proof (len_nonneg (Kcp.snd_queue (node p'))).
  split_and!; [lia|apply grown_p|lia|lia].
Qed.

Lemma past_update now k :
  aside pp 0 hi sp p q → 0 <= now <= T0 → Kcp.update (node p) (wrap 32 now) = Ret (Ok tt, k) →
  node p' = k → wire p' = wire p →
  (aside pp 0 hi sp' p' q ∧ growth (node p) (node p')) ∧ Kcp.current k = wrap 32 now.
Proof using All.
  intros Ha Hn E Ek Hw.
  destruct past_flush_bounds as (B1 & B2 & B3 & B4). pose proof kcp_after as Ki. rewrite Ek in Ki.
  destruct (update_steady (St := connection conv pp) sq sp sp' hp hp' (node q) B1 (node p) (Ok tt) k
    now 0 hi kcp_before Ki B2 B3 B4 (as_steady _ _ _ _ _ _ Ha) E) as (G & S & C); [lia| |].
  { rewrite (aside_patience _ _ _ _ _ _ Ha). lia. }
  split; [|done]. apply past_node; [done|done|]. by rewrite Ek.
Qed.

Lemma past_flush r k :
  aside pp 0 hi sp p q → recent T0 (node p) → Kcp.flush (node p) = Ret (r, k) →
  node p' = k → wire p' = wire p →
  (aside pp 0 hi sp' p' q ∧ growth (node p) (node p')) ∧ Kcp.current k = Kcp.current (node p).
Proof using All.
  intros Ha (T & Hnow & HT) E Ek Hw.
  destruct past_flush_bounds as (B1 & B2 & B3 & B4). pose proof kcp_after as Ki. rewrite Ek in Ki.
  destruct (flush_steady (St := connection conv pp) sq sp sp' hp hp' (node q) B1 (node p) r k
    T 0 hi kcp_before Ki B2 B3 B4 (as_steady _ _ _ _ _ _ Ha) E Hnow) as (G & S & C); [lia| |].
  { rewrite (aside_patience _ _ _ _ _ _ Ha). lia. }
  split; [|done]. apply past_node; [done|done|]. by rewrite Ek.
Qed.

Lemma past_input now d r k :
  aside pp 0 hi sp p q → d ∈ wire q → in_width 32 now →
  Kcp.input (node p) now d = Ret (r, k) → node p' = k → wire p' = wire p →
  (aside pp 0 hi sp' p' q ∧ growth (node p) (node p')) ∧ Kcp.current k = now.
Proof using All.
  intros Ha Hd Hn E Ek Hw.
  destruct (pair_numbers _ _ _ _ _ _ _ _ _ inv short_before short_q) as (N1 & N2 & N3 & N4 & N5 & N6).
  apply (proj1 (Forall_forall _ _) wire_q) in Hd.
  destruct Hd as (segs & -> & Hd).
  destruct (pair_spoken _ _ _ _ _ _ _ _ _ inv segs Hd) as (Hne & Hs).
  destruct (input_listen (St := connection conv pp) sq sp hp (node q) N6 N5 ltac:(lia) ltac:(lia)
    now segs (node p) Hn) as (r' & k' & E' & Hl & Hc);
    [by eapply pair_attentive, as_steady|done|done|].
  rewrite E in E'. apply Ret_inj in E' as [= <- <-]. split; [|done].
  apply past_node; [done|done|]. rewrite Ek. destruct Hl as [L1 L2 L3 L4].
  split; [by apply hearing_growth|].
  destruct (listened_steady (St := connection conv pp) sq sp hp (node q) segs (node p) k 0 hi)
    as [S1 S2 S3 S4]; [by split|apply Ha|].
  split; [done| |done|done]. by eapply honest_all_growth; [apply grown_p| |exact S2].
Qed.

Lemma past_take :
  aside pp 0 hi sp p q → node p' = (Kcp.take_output (node p)).2 →
  wire p' = wire p ++ Kcp.output (node p) →
  aside pp 0 hi sp' p' q ∧ growth (node p) (node p').
Proof using grown_p.
  intros [Hs Hwp Ht Hsw] En Ew. rewrite En. split; [|by split].
  assert (growth (node p) (Kcp.take_output (node p)).2) as G by (by split).
  split; rewrite ?En, ?Ew; [|apply Forall_app; split|done|done].
  - apply take_steady. destruct Hs as [S1 S2 S3 S4]. split; [done| |done|done].
    by eapply honest_all_growth; [apply grown_p| |exact S2].
  - by eapply honest_all_growth; [apply grown_p|exact G|exact Hwp].
  - by eapply honest_all_growth; [apply grown_p|exact G|apply Hs].
Qed.
End past.

(** Every call keeps [aside], and only grows what was received and sent. *)
Lemma peer_call_aside conv pp pq sp sq sp' hp hq hp' p p' q T0 c :
  pair_inv conv pp pq sp sq hp hq p q → pair_inv conv pp pq sp' sq hp' hq p' q →
  grown sp sp' p p' → stream_len pp p' < 2 ^ 30 → stream_len pq q < 2 ^ 30 →
  T0 + patience_of pp < 2 ^ 31 → Forall (honest sq (node q)) (wire q) →
  call_ok c → call_before T0 c → recent T0 (node p) →
  aside pp 0 (T0 + patience_of pp) sp p q → peer_call (wire q) c p = Ret p' →
  (aside pp 0 (T0 + patience_of pp) sp' p' q ∧ growth (node p) (node p')) ∧ recent T0 (node p').
Proof.
  intros Hi Hi' Hg Hp Hq H0 Hw Hc Hb Hr Ha E.
  pose proof (short_before pp sp sp' p p' Hg Hp) as Hpb.
  destruct (pair_roomy _ _ _ _ _ _ _ _ _ Hi Hpb Hq) as [Hroom Hpay].
  pose proof (td_gap _ (sy_tidy _ _ _ _ _ (as_steady _ _ _ _ _ _ Ha))) as Hgap.
  pose proof (peer_kcp _ _ _ _ _ _ (half_peer _ _ _ _ _ _ _ _ (pair_p _ _ _ _ _ _ _ _ _ Hi))) as Hk.
  assert (∀ k, node p' = k → wire p' = wire p → quiet (node p) k →
    (aside pp 0 (T0 + patience_of pp) sp' p' q ∧ growth (node p) (node p')) ∧ recent T0 (node p'))
    as Hend.
  { intros k <- Ew Hquiet. split; [by eapply past_quiet|]. unfold recent.
    by rewrite (qt_current _ _ Hquiet). }
  destruct c as [m|now| |now i|size|]; cbn [peer_call call_ok call_before] in E, Hc, Hb.
  - apply bind_ret in E as ([r k] & E & Ek). apply Ret_inj in Ek.
    assert (node p' = k ∧ wire p' = wire p) as [En Ew] by (by destruct r; subst p').
    pose proof (conf_mss_pos _ (proj1 Hk)) as [Hm _]. apply (Hend k); [done|done|by eapply send_quiet].
  - apply bind_ret in E as ([r k] & E & Ek). apply Ret_inj in Ek.
    unfold in_width in Hc. rewrite <- (wrap_id 32 now) in E by lia.
    apply update_frame in E as F. destruct F as [-> _].
    destruct (past_update conv pp pq sp sq sp' hp hq hp' p p' q T0 Hi Hi' Hg Hp Hq H0 Hw now k)
      as [Hend' Hcur]; try (by subst p'); [lia|].
    split; [done|]. subst p'. exists now. split; [done|lia].
  - apply bind_ret in E as ([r k] & E & Ek). apply Ret_inj in Ek.
    destruct (past_flush conv pp pq sp sq sp' hp hq hp' p p' q T0 Hi Hi' Hg Hp Hq H0 Hw r k)
      as [Hend' Hcur]; try (by subst p').
    split; [done|]. subst p'. unfold recent in *. by rewrite <- Hcur in Hr.
  - destruct (wire q !! i) as [d|] eqn:Ed.
    2:{ apply Ret_inj in E as <-. apply (Hend (node p)); [done|done|].
        destruct Ha as [[] _ _ _]. by split. }
    apply bind_ret in E as ([r k] & E & Ek). apply Ret_inj in Ek.
    unfold in_width in Hc.
    destruct (past_input conv pp pq sp sq sp' hp hq hp' p p' q T0 Hi Hi' Hg Hp Hq H0 Hw now d r k)
      as [Hend' Hcur]; try (by subst p').
    { by eapply list_elem_of_lookup_2. }
    split; [done|]. subst p'. exists now. split; [by rewrite wrap_id|lia].
  - apply bind_ret in E as ([[r k] buf] & E & Ek). apply Ret_inj in Ek.
    assert (node p' = k ∧ wire p' = wire p) as [En Ew] by (by destruct r; subst p').
    assert (len (vec size 0) < 2 ^ 64) as Hv by (rewrite len_vec; lia).
    apply (Hend k); [done|done|by eapply recv_quiet].
  - destruct (Kcp.take_output (node p)) as [out k] eqn:Eo. injection Eo as Eo Ek.
    apply Ret_inj in E as <-. subst k out. split; [|done].
    by eapply past_take.
Qed.

(** ** Any interleaving *)

(** Parameters under which a connection can make progress. *)
Record live (params : KcpParams.t) : Prop := {
  live_params : params_ok params;
  live_send : 1 <= KcpParams.send_window params;
  live_receive : 1 <= KcpParams.receive_window params;
  live_scale : 0 < KcpParams.time_scale params;
}.

Lemma live_sane params : live params → sane (timing_of params).
Proof. intros [[_ _ _ _ Hs] _ _ H0]. apply timing_new_sane. unfold in_width in Hs. lia. Qed.

(** Both sides in order. *)
Record ordered (conv : Z) (pa pb : KcpParams.t) (la ua lb ub : Z)
    (sa sb : list (Z * list Z)) (ha hb : list Seg.t) (a b : peer) : Prop := {
  od_inv : pair_inv conv pa pb sa sb ha hb a b;
  od_a : aside pa la ua sa a b;
  od_b : aside pb lb ub sb b a;
  od_short_a : stream_len pa a < 2 ^ 30;
  od_short_b : stream_len pb b < 2 ^ 30;
}.

Lemma ordered_sym conv pa pb la ua lb ub sa sb ha hb a b :
  ordered conv pa pb la ua lb ub sa sb ha hb a b →
  ordered conv pb pa lb ub la ua sb sa hb ha b a.
Proof. intros []. split; try done. by apply pair_inv_sym. Qed.

Lemma new_aside conv pp pq T0 :
  live pp → 0 <= T0 →
  aside pp 0 (T0 + patience_of pp) [] (new_peer conv pp) (new_peer conv pq)
  ∧ recent T0 (node (new_peer conv pp)).
Proof.
  intros Hl H0. pose proof (live_sane pp Hl) as Hs. pose proof Hs as [_ [Hi1 Hi2] [Hp1 Hp2] Hmax].
  split; [split; [split|done..]|].
  - split; [done|done|done|by right].
  - done.
  - intros n Hn. cbn in Hn. lia.
  - unfold patience_of. split; [done| |done|unfold patience; cbn in *; lia|done].
    exists (KcpTiming.interval (timing_of pp)). rewrite wrap_id by lia. split; [done|]. lia.
  - exists 0. split; [done|lia].
Qed.

Section calls.
Context (conv : Z) (T0 : Z).

Lemma call_ordered pp pq sp sq hp hq p q c :
  KCP_OVERHEAD < KcpParams.mtu pq → T0 + patience_of pp < 2 ^ 31 →
  ordered conv pp pq 0 (T0 + patience_of pp) 0 (T0 + patience_of pq) sp sq hp hq p q →
  recent T0 (node p) → call_ok c → call_before T0 c →
  stream_len pp p + call_segments (mss_of pp) c < 2 ^ 30 →
  ∃ p' sp' hp', peer_call (wire q) c p = Ret p' ∧ recent T0 (node p')
    ∧ ordered conv pp pq 0 (T0 + patience_of pp) 0 (T0 + patience_of pq) sp' sq hp' hq p' q
    ∧ stream_len pp p' <= stream_len pp p + call_segments (mss_of pp) c.
Proof.
  intros Hm H0 [Hi Ha Hb Hsa Hsb] Hr Hc Ht Hlen. unfold stream_len in *.
  destruct (peer_call_inv conv pp pq sp sq hp hq p q c Hm Hi Hc ltac:(lia))
    as (p' & sp' & hp' & E & [Hi' Hg] & Hl).
  destruct (peer_call_aside conv pp pq sp sq sp' hp hq hp' p p' q T0 c Hi Hi' Hg ltac:(unfold stream_len; lia)
    Hsb H0 (as_wire _ _ _ _ _ _ Hb) Hc Ht Hr Ha E) as [[Ha' Hgr] Hr'].
  exists p', sp', hp'. split_and!; [done|done| |done].
  split; [done|done|by eapply aside_peer|unfold stream_len; lia|done].
Qed.

Lemma run_calls_ordered pa pb calls :
  KCP_OVERHEAD < KcpParams.mtu pa → KCP_OVERHEAD < KcpParams.mtu pb →
  T0 + patience_of pa < 2 ^ 31 → T0 + patience_of pb < 2 ^ 31 →
  ∀ sa sb ha hb a b,
  ordered conv pa pb 0 (T0 + patience_of pa) 0 (T0 + patience_of pb) sa sb ha hb a b →
  recent T0 (node a) → recent T0 (node b) →
  Forall (λ sc, call_ok (sc.2) ∧ call_before T0 (sc.2)) calls →
  stream_len pa a + offered (mss_of pa) true calls < 2 ^ 30 →
  stream_len pb b + offered (mss_of pb) false calls < 2 ^ 30 →
  ∃ a' b' sa' sb' ha' hb', run_calls calls a b = Ret (a', b')
    ∧ ordered conv pa pb 0 (T0 + patience_of pa) 0 (T0 + patience_of pb) sa' sb' ha' hb' a' b'.
Proof.
  intros Hma Hmb Ta Tb. induction calls as [|[side c] calls IH];
    intros sa sb ha hb a b H Ra Rb Hok La Lb; cbn [run_calls offered] in *.
  { by eexists _, _, _, _, _, _. }
  apply Forall_cons in Hok as [[Hc Ht] Hok]. cbn [snd] in Hc, Ht.
  pose proof (offered_nonneg (mss_of pa) true calls).
  pose proof (offered_nonneg (mss_of pb) false calls).
  destruct side; cbn [eqb] in *.
  - destruct (call_ordered pa pb sa sb ha hb a b c)
      as (a1 & sa1 & ha1 & -> & R1 & O1 & L1); [done|done|done|done|done|done|lia|].
    cbn [mbind comp_bind]. apply (IH sa1 sb ha1 hb); done || lia.
  - apply ordered_sym in H.
    destruct (call_ordered pb pa sb sa hb ha b a c)
      as (b1 & sb1 & hb1 & -> & R1 & O1 & L1); [done|done|done|done|done|done|lia|].
    apply ordered_sym in O1.
    cbn [mbind comp_bind]. apply (IH sa sb1 ha hb1); done || lia.
Qed.

Lemma reachable_ordered pa pb calls :
  in_width 64 conv → live pa → live pb → 0 <= T0 →
  T0 + patience_of pa < 2 ^ 31 → T0 + patience_of pb < 2 ^ 31 →
  Forall (λ sc, call_ok (sc.2) ∧ call_before T0 (sc.2)) calls →
  offered (mss_of pa) true calls < 2 ^ 30 → offered (mss_of pb) false calls < 2 ^ 30 →
  ∃ a b sa sb ha hb, run_calls calls (new_peer conv pa) (new_peer conv pb) = Ret (a, b)
    ∧ ordered conv pa pb 0 (T0 + patience_of pa) 0 (T0 + patience_of pb) sa sb ha hb a b.
Proof.
  intros Hc Ha Hb H0 Ta Tb Hok La Lb.
  destruct (new_aside conv pa pb T0 Ha H0) as [Aa Ra].
  destruct (new_aside conv pb pa T0 Hb H0) as [Ab Rb].
  eapply run_calls_ordered; try done; [apply Ha|apply Hb|].
  split; [apply new_pair_inv; [done|apply Ha|apply Hb]|done|done|done|done].
Qed.
End calls.
