(* ===== verification/KcpTurn.v ===== *)
(** * One turn over a working network

    After any past, the network starts to work.  In a turn one side updates
    past the deadline of its timers, everything it puts out arrives, and the
    other side reads the messages that are complete. *)

From S2P Require Import Prelude Bytes Kcp KcpWire KcpMessage KcpReceive KcpInv KcpFlush.
From S2P Require Import KcpEmit KcpHear KcpTimers KcpStream KcpHonest KcpListen KcpSteady KcpPair.

(** ** The turn *)

Definition deliver (now : Z) (datagrams : list (list Z)) (self : Kcp.t) : comp Kcp.t :=
  for_each datagrams (λ d k, '(_, k) ← Kcp.input k now d; Ret k) self.

(** Read every complete message. *)
Fixpoint drain (fuel : nat) (p : peer) : comp peer :=
  match Kcp.peeksize (node p) with
  | Err _ => Ret p
  | Ok n =>
      match fuel with
      | O => NoFuel
      | S fuel => p ← peer_call [] (CallRecv n) p; drain fuel p
      end
  end.

(** [x] updates at [T]; the clock of [y] shows [now] when the datagrams arrive. *)
Definition turn (T now : Z) (x y : peer) : comp (peer * peer) :=
  x ← peer_call [] (CallUpdate (wrap 32 T)) x;
  let out := Kcp.output (node x) in
  x ← peer_call [] CallTakeOutput x;
  k ← deliver now out (node y);
  y ← drain (backlog k) (y <| node := k |>);
  Ret (x, y).

(** Turns alternate. *)
Fixpoint exchange (turns : list (Z * Z)) (x y : peer) : comp (peer * peer) :=
  match turns with
  | [] => Ret (x, y)
  | (T, now) :: turns =>
      '(x, y) ← turn T now x y;
      '(y, x) ← exchange turns y x;
      Ret (x, y)
  end.

(** ** What a listener that also reads keeps *)

Record attended (self self' : Kcp.t) : Prop := {
  an_growth : growth self self';
  an_nxt : Kcp.snd_nxt self' = Kcp.snd_nxt self;
  an_queue : Kcp.snd_queue self' = Kcp.snd_queue self;
  an_output : Kcp.output self' = Kcp.output self;
  an_wait : Kcp.probe_wait self' = Kcp.probe_wait self;
  an_flight : ∀ n, n ∈ Seg.sn <$> Kcp.snd_buf self' → n ∈ Seg.sn <$> Kcp.snd_buf self;
  an_acks : Kcp.acklist self ≠ [] → Kcp.acklist self' ≠ [];
  an_tell : asks self KCP_ASK_TELL = true → asks self' KCP_ASK_TELL = true;
  an_cwnd : Kcp.cwnd self' = Kcp.cwnd self ∨ 1 <= Kcp.cwnd self';
}.

#[export] Instance attended_refl : Reflexive attended.
Proof. intros k. split; auto; reflexivity. Qed.

#[export] Instance attended_trans : Transitive attended.
Proof.
  intros x y z [] []. split; try (by auto); try congruence; [by etrans|].
  destruct an_cwnd1 as [-> |]; [done|by right].
Qed.

Lemma hearing_attended self self' : hearing self self' → attended self self'.
Proof. intros H. pose proof (hearing_growth _ _ H). destruct H as [[] ? ? ? ? ? ? ?]. by split. Qed.

Lemma heeds_attended bound s self self' :
  attended self self' → heeds bound s self → heeds bound s self'.
Proof.
  intros [] []. split; [|by auto|by auto].
  intros Hp Hs. destruct (hd_push Hp Hs) as [Hg Ha]. split; [by apply (gr_got _ _ an_growth0)|auto].
Qed.

Lemma recv_attended self : roomy self →
  let self' := after_recv self (first_message (Kcp.rcv_queue self)).2 in
  attended self self' ∧ quiet self self' ∧ Kcp.rmt_wnd self' = Kcp.rmt_wnd self.
Proof.
  intros Hr. cbn zeta. pose proof (after_recv_quiet self (first_message (Kcp.rcv_queue self)).2 Hr) as Hq.
  split; [|split; [done|]]; unfold after_recv in *;
    destruct (move_buf_frame (self <| Kcp.rcv_queue := (first_message (Kcp.rcv_queue self)).2 |>))
      as (b & q & n & E).
  2:{ destruct (_ && _); by rewrite E. }
  split; [apply Hq|..]; destruct (_ && _); rewrite E; try done; try (by left).
  intros _. apply asks_lor.
Qed.

(** ** Delivery *)

Section deliver.
Context `{St : Static} (rlog slog : list (Z * list Z)) (hist : list Seg.t) (speaker : Kcp.t).
Hypothesis few : len rlog < 2 ^ 30.
Hypothesis few_sent : len slog < 2 ^ 30.
Hypothesis speaker_sent : Kcp.snd_nxt speaker <= 2 ^ 30.
Hypothesis speaker_heard : Kcp.rcv_nxt speaker <= 2 ^ 30.

Lemma deliver_listen now groups : in_width 32 now → ∀ self,
  attentive rlog slog hist speaker self →
  Forall (λ g, g ≠ [] ∧ Forall (spoken rlog speaker (Kcp.conv self)) g) groups →
  ∃ self', deliver now (datagram <$> groups) self = Ret self'
    ∧ listened rlog slog hist speaker (mjoin groups) self self'.
Proof using All.
  intros Hn. induction groups as [|g groups IH]; intros self Ha Hg.
  { exists self. split; [done|by apply listened_nil]. }
  apply Forall_cons in Hg as [[Hne Hs] Hg].
  destruct (input_listen rlog slog hist speaker few few_sent speaker_sent speaker_heard now g self
    Hn Ha Hne Hs) as (r & k & E & Hl & _).
  rewrite <- (hk_conv _ _ (hr_keeps _ _ (ls_hearing _ _ _ _ _ _ _ Hl))) in Hg.
  destruct (IH k (ls_attentive _ _ _ _ _ _ _ Hl) Hg) as (k' & E' & Hl').
  exists k'. split; [|by eapply listened_app].
  unfold deliver in *. rewrite fmap_cons. cbn [for_each]. by rewrite E.
Qed.
End deliver.

(** ** Reading *)

Section read.
Context (conv : Z) (pp pq : KcpParams.t).
Context (lp up lq uq : Z) (sq : list (Z * list Z)) (hq : list Seg.t) (q : peer).
Hypothesis mtu_q : KCP_OVERHEAD < KcpParams.mtu pq.

Abbreviation order sp hp p := (ordered conv pp pq lp up lq uq sp sq hp hq p q) (only parsing).

Lemma recv_ordered sp hp p n :
  order sp hp p → Kcp.peeksize (node p) = Ok n →
  ∃ p' sp' hp', peer_call [] (CallRecv n) p = Ret p' ∧ order sp' hp' p'
    ∧ (backlog (node p') < backlog (node p))%nat ∧ attended (node p) (node p')
    ∧ Kcp.rmt_wnd (node p') = Kcp.rmt_wnd (node p) ∧ sent p' = sent p.
Proof using All.
  intros [Hi Ha Hb Hsp Hsq] Hpeek.
  destruct (pair_roomy _ _ _ _ _ _ _ _ _ Hi Hsp Hsq) as [Hroom Hpay].
  pose proof (recv_exact (node p) n Hpay Hpeek) as E.
  apply peeksize_Ok in Hpeek as Hn; [|done].
  pose proof (payload_first_le (Kcp.rcv_queue (node p))).
  pose proof (len_nonneg (payload (first_message (Kcp.rcv_queue (node p))).1)).
  destruct (peer_call_inv conv pp pq sp sq hp hq p q (CallRecv n) mtu_q Hi) as
    (p' & sp' & hp' & Ep & [Hi' Hg] & _); [cbn; lia|unfold stream_len in Hsq; lia|].
  exists p', sp', hp'. split; [exact Ep|].
  cbn [peer_call] in Ep. rewrite E in Ep. cbn [mbind comp_bind] in Ep. apply Ret_inj in Ep.
  destruct (recv_attended (node p) Hroom) as (Hat & Hq & Hw).
  assert (sent p' = sent p) as Hs by (by subst p').
  assert (node p' = after_recv (node p) (first_message (Kcp.rcv_queue (node p))).2) as En
    by (by subst p').
  rewrite En. split_and!; [|by eapply backlog_recv|done|done|done].
  split; [done| |apply (aside_peer _ _ _ _ _ p); [rewrite En; apply Hat|done]|unfold stream_len; by rewrite Hs|done].
  eapply aside_node; [exact Ha|rewrite En; apply Hat| |apply Hg|by subst p'].
  rewrite En. apply (steady_quiet _ _ _ _ _ _ Hq).
  destruct (as_steady _ _ _ _ _ _ Ha) as [S1 S2 S3 S4]. split; [done| |done|done].
  by eapply honest_all_growth; [apply Hg| |exact S2].
Qed.

Lemma drain_ordered fuel : ∀ sp hp p,
  order sp hp p → (backlog (node p) <= fuel)%nat →
  ∃ p' sp' hp', drain fuel p = Ret p' ∧ order sp' hp' p'
    ∧ attended (node p) (node p') ∧ Kcp.rmt_wnd (node p') = Kcp.rmt_wnd (node p)
    ∧ sent p' = sent p ∧ ∃ e, Kcp.peeksize (node p') = Err e.
Proof using All.
  induction fuel as [|fuel IH]; intros sp hp p H Hf; cbn [drain];
    (destruct (Kcp.peeksize (node p)) as [n|e] eqn:Hpeek;
      [|by exists p, sp, hp; split_and!; try done; exists e]);
    destruct (recv_ordered sp hp p n H Hpeek) as (p1 & sp1 & hp1 & E & H1 & Hlt & A1 & W1 & S1);
    [lia|].
  rewrite E. cbn [mbind comp_bind].
  destruct (IH sp1 hp1 p1 H1) as (p2 & sp2 & hp2 & E2 & H2 & A2 & W2 & S2 & He); [lia|].
  exists p2, sp2, hp2. split; [done|]. split; [done|].
  split; [by etrans|]. split; [congruence|]. split; [congruence|done].
Qed.
End read.

(** ** The parts of a turn *)

(** The state an update at [T] flushes from. *)
Definition at_flush (T f : Z) (self : Kcp.t) : Kcp.t :=
  self <| Kcp.current := wrap 32 T |> <| Kcp.updated := true |> <| Kcp.ts_flush := f |>.

(** What [y] made of the segments [segs]. *)
Definition answered (segs : list Seg.t) (y y' : Kcp.t) : Prop :=
  Forall (λ s, heeds (Kcp.rcv_nxt y + Kcp.rcv_wnd y) s y') segs
  ∧ Kcp.rmt_wnd y' = announced y segs.

(** A turn: [x] flushed [groups], and [y] answered them. *)
Record turned (T : Z) (x y x' y' : peer) (groups : list (list Seg.t)) (taken rest : list Seg.t)
    : Prop := {
  tn_flush : ∃ f k, flushed (at_flush T f (node x)) k groups taken rest
    ∧ node x' = (Kcp.take_output k).2;
  tn_growth : growth (node x) (node x');
  tn_attended : attended (node y) (node y');
  tn_answered : Kcp.output (node x) = [] → answered (mjoin groups) (node y) (node y');
  tn_drained : ∃ e, Kcp.peeksize (node y') = Err e;
  tn_sent : sent x' = sent x ∧ sent y' = sent y;
}.

Section turn.
Context (conv : Z) (px py : KcpParams.t) (lx ux ly uy : Z).
Context (sx sy : list (Z * list Z)) (hx hy : list Seg.t) (x y : peer).
Hypothesis mtu_x : KCP_OVERHEAD < KcpParams.mtu px.
Hypothesis mtu_y : KCP_OVERHEAD < KcpParams.mtu py.
Hypothesis ord : ordered conv px py lx ux ly uy sx sy hx hy x y.

Lemma update_ordered T :
  ux <= T < lx + 2 ^ 31 →
  ∃ x' sx' hx' f groups taken rest,
    peer_call [] (CallUpdate (wrap 32 T)) x = Ret x'
    ∧ ordered conv px py T (T + patience_of px) ly uy sx' sy hx' hy x' y
    ∧ flushed (at_flush T f (node x)) (node x') groups taken rest
    ∧ Forall (honest_group sx' (node x')) groups ∧ growth (node x) (node x') ∧ sent x' = sent x.
Proof using All.
  intros HT. destruct ord as [Hi Ha Hb Hsx Hsy].
  destruct (peer_call_inv conv px py sx sy hx hy x y (CallUpdate (wrap 32 T)) mtu_y Hi) as
    (x' & sx' & hx' & E & [Hi' Hg] & _); [by apply wrap_range|unfold stream_len in Hsy; lia|].
  exists x', sx', hx'. cbn [peer_call] in E.
  pose proof E as E0. apply bind_ret in E0 as ([r k] & Eu & Ek). apply Ret_inj in Ek.
  assert (sent x' = sent x) as Hs by (by subst x').
  assert (node x' = k) as En by (by subst x').
  assert (stream_len px x' < 2 ^ 30) as Hsx' by (unfold stream_len; by rewrite Hs).
  pose proof (peer_kcp _ _ _ _ _ _ (half_peer _ _ _ _ _ _ _ _ (pair_p _ _ _ _ _ _ _ _ _ Hi))) as K1.
  pose proof (peer_kcp _ _ _ _ _ _ (half_peer _ _ _ _ _ _ _ _ (pair_p _ _ _ _ _ _ _ _ _ Hi'))) as K2.
  destruct (pair_few _ _ _ _ _ _ _ _ _ Hi) as [F1 F2].
  destruct (pair_few _ _ _ _ _ _ _ _ _ Hi') as [F3 _].
  pose proof (len_nonneg (Kcp.snd_queue (node x'))). rewrite En in K2.
  destruct (update_due (St := connection conv px) sy sx sx' hx hx' (node y) ltac:(lia) (node x) r k
    T lx ux K1 K2 (grown_log _ _ _ _ Hg) ltac:(lia) ltac:(lia) (as_steady _ _ _ _ _ _ Ha) Eu HT)
    as (G & S & f & groups & taken & rest & F & _ & Hh).
  exists f, groups, taken, rest. rewrite En.
  split; [exact E|]. split; [|by split_and!].
  rewrite (aside_patience _ _ _ _ _ _ Ha) in S.
  split; [done| |apply (aside_peer _ _ _ _ _ x); [by rewrite En|done]|done|done].
  eapply aside_node; [exact Ha|by rewrite En|by rewrite En|apply Hg|by subst x'].
Qed.

(** The other side takes in everything that is waiting. *)
Lemma deliver_ordered now groups :
  in_width 32 now → Kcp.output (node x) = datagram <$> groups →
  Forall (honest_group sx (node x)) groups →
  ∃ k, deliver now (Kcp.output (node x)) (node y) = Ret k
    ∧ ordered conv px py lx ux ly uy sx sy hx hy x (y <| node := k |>)
    ∧ attended (node y) k ∧ answered (mjoin groups) (node y) k.
Proof using All.
  intros Hnow Eo Hg. destruct ord as [Hi Ha Hb Hsx Hsy]. pose proof (pair_inv_sym _ _ _ _ _ _ _ _ _ Hi) as Hi2.
  destruct (pair_numbers _ _ _ _ _ _ _ _ _ Hi2 Hsy Hsx) as (N1 & N2 & N3 & N4 & N5 & N6).
  assert (Forall (λ g, g ≠ [] ∧ Forall (spoken sx (node x) (Kcp.conv (node y))) g) groups) as Hs.
  { eapply Forall_impl; [exact Hg|]. intros g. by apply (pair_spoken _ _ _ _ _ _ _ _ _ Hi2). }
  destruct (deliver_listen (St := connection conv py) sx sy hy (node x) N6 N5 ltac:(lia) ltac:(lia)
    now groups Hnow (node y)) as (k & E & Hl); [by eapply pair_attentive, as_steady|done|].
  rewrite Eo. exists k. split; [done|].
  pose proof (listened_steady _ _ _ _ _ _ _ _ _ Hl (as_steady _ _ _ _ _ _ Hb)) as Hst.
  destruct Hl as [[K _ _] L2 L3 L4]. split; [|by split; [apply hearing_attended|]].
  assert (half conv py px sy sx hy (y <| node := k |>) x) as Hy.
  { eapply half_node; [apply Hi|done|done|]. by rewrite (hk_queue _ _ (hr_keeps _ _ L2)). }
  pose proof (hearing_growth _ _ L2) as Gy. split; [| | |done|done].
  - split; [|done]. eapply half_grown; [apply Hi|by split|]. eapply peer_source, Hy.
  - by apply (aside_peer _ _ _ _ _ y).
  - by eapply aside_node.
Qed.

Lemma take_ordered :
  ∃ x', peer_call [] CallTakeOutput x = Ret x'
    ∧ ordered conv px py lx ux ly uy sx sy hx hy x' y
    ∧ node x' = (Kcp.take_output (node x)).2 ∧ sent x' = sent x.
Proof using All.
  destruct ord as [Hi Ha Hb Hsx Hsy]. destruct Hi as [Hx Hy].
  pose proof (take_half _ _ _ _ _ _ _ _ Hx) as [Hh _].
  eexists. split; [done|]. cbn [peer_call]. split; [|done].
  set (x' := x <| node := _ |> <| wire ::= _ |>).
  assert (growth (node x) (node x')) as G by (by split).
  split; [| |by apply (aside_peer _ _ _ _ _ x)|done|done].
  - split; [done|]. eapply half_grown; [done|split; [done|done|by apply prefix_app_r]|].
    eapply peer_source, Hh.
  - destruct Ha as [Hs Hw Ht Hn]. split; [by apply take_steady| |done|done].
    apply Forall_app. split; (eapply honest_all_growth; [done|exact G|]); [done|apply Hs].
Qed.
End turn.

Lemma turn_ordered conv px py lx ux ly uy sx sy hx hy x y T now :
  KCP_OVERHEAD < KcpParams.mtu px → KCP_OVERHEAD < KcpParams.mtu py →
  ordered conv px py lx ux ly uy sx sy hx hy x y → ux <= T < lx + 2 ^ 31 → in_width 32 now →
  ∃ x' y' sx' sy' hx' hy' groups taken rest, turn T now x y = Ret (x', y')
    ∧ ordered conv px py T (T + patience_of px) ly uy sx' sy' hx' hy' x' y'
    ∧ turned T x y x' y' groups taken rest.
Proof.
  intros Mx My O0 HT Hnow.
  destruct (update_ordered _ _ _ _ _ _ _ _ _ _ _ _ _ Mx My O0 T HT)
    as (x1 & sx1 & hx1 & f & groups & taken & rest & E1 & O1 & F & Hh & G1 & S1).
  pose proof (fd_output _ _ _ _ _ F) as Eout.
  change (Kcp.output (at_flush T f (node x))) with (Kcp.output (node x)) in Eout.
  assert (∃ groups', Kcp.output (node x1) = datagram <$> groups'
    ∧ Forall (honest_group sx1 (node x1)) groups'
    ∧ (Kcp.output (node x) = [] → groups' = groups)) as (gs & Eg & Hgs & Esame).
  { destruct (Kcp.output (node x)) as [|d l] eqn:E0; [by exists groups|].
    destruct (honest_groups _ _ _ (sy_output _ _ _ _ _ (as_steady _ _ _ _ _ _ (od_a _ _ _ _ _ _ _ _ _ _ _ _ _ O1))))
      as (gs & Eg & Hgs). by exists gs. }
  destruct (deliver_ordered _ _ _ _ _ _ _ _ _ _ _ _ _ Mx My O1 now gs Hnow Eg Hgs)
    as (k & E2 & O2 & A2 & An).
  destruct (drain_ordered conv py px ly uy T (T + patience_of px) sx1 hx1 x1 Mx (backlog k) _ _ _
    (ordered_sym _ _ _ _ _ _ _ _ _ _ _ _ _ O2)) as (y' & sy' & hy' & E3 & O3 & A3 & W3 & S3 & He);
    [done|].
  apply ordered_sym in O3.
  destruct (take_ordered _ _ _ _ _ _ _ _ _ _ _ _ _ Mx My O3) as (x' & E4 & O4 & N4 & S4).
  exists x', y', sx1, sy', hx1, hy', groups, taken, rest. split; [|split; [exact O4|]].
  - unfold turn. rewrite E1. cbn [mbind comp_bind]. rewrite E4. cbn [mbind comp_bind].
    rewrite E2. cbn [mbind comp_bind]. by rewrite E3.
  - assert (attended (node y) (node y')) as A by (etrans; [exact A2|exact A3]).
    split; [by exists f, (node x1)| |done| |done|by rewrite S4].
    + transitivity (node x1); [done|]. rewrite N4. by split.
    + intros E0. rewrite <- (Esame E0). destruct An as [An1 An2]. split; [|by rewrite W3].
      eapply Forall_impl; [exact An1|]. intros s. by apply heeds_attended.
Qed.
