(* ===== verification/KcpLive.v ===== *)
(** * Everything sent is delivered

    Once the network works, turns alternate and every timer gets its time, all
    that was sent before arrives, whatever was lost until then.  A round is two
    turns; the peer's next segment arrives within three rounds: a closed window
    is probed, the answer opens it, and the segment is sent. *)

From S2P Require Import Prelude Bytes Kcp KcpWire KcpMessage KcpReceive KcpInv KcpFlush.
From S2P Require Import KcpEmit KcpHear KcpTimers KcpStream KcpHonest KcpListen KcpSteady KcpPair.
From S2P Require Import KcpTurn.

(** ** A reader that read everything it could *)

Definition drained (self : Kcp.t) : Prop := ∃ e, Kcp.peeksize self = Err e.

(** What is left is part of one message. *)
Lemma blocked_message mss ms self :
  Forall (λ m, fragment_count mss m < 256) ms →
  carried <$> Kcp.rcv_queue self `prefix_of` stream_of mss ms → drained self →
  Kcp.rcv_queue self = [] ∨
  ∃ m ms', ms = m :: ms' ∧ len (Kcp.rcv_queue self) < fragment_count mss m.
Proof.
  intros Hc Hp [e He]. unfold Kcp.peeksize in He.
  destruct (Kcp.rcv_queue self) as [|s queue] eqn:Eq; [by left|]. right.
  destruct ms as [|m ms]; [by apply prefix_nil_inv in Hp|]. exists m, ms. split; [done|].
  apply Forall_cons in Hc as [Hc _]. pose proof (fragment_count_pos mss m) as Hpos.
  assert (Seg.frg s = fragment_count mss m - 1) as Hfrg.
  { destruct Hp as [tl Hp]. rewrite stream_of_cons in Hp.
    pose proof (length_message_fragments mss m).
    assert (message_fragments mss m !! 0%nat = Some (carried s)) as H0.
    { rewrite <- (lookup_app_l _ (stream_of mss ms)) by lia. by rewrite Hp. }
    apply fragments_frg in H0. cbn in H0. lia. }
  destruct (Z.eqb_spec (Seg.frg s) 0); [done|].
  destruct (Z.ltb_spec (len (s :: queue)) (Seg.frg s +{8} 1)) as [Hlt|]; [|done].
  rewrite wrap_id in Hlt by lia. lia.
Qed.

(** The messages of [q] fit in the receive window of [p]. *)
Definition fits_window (pp pq : KcpParams.t) (q : peer) : Prop :=
  Forall (λ m, fragment_count (mss_of pq) m <= KcpParams.receive_window pp) (sent q).

Lemma buf_inv_in P lo hi l s :
  buf_inv P lo hi l → s ∈ l → ∃ j, lo <= j < hi ∧ Seg.sn s = wrap 32 j.
Proof.
  revert lo; induction l as [|s' l IH]; intros lo; cbn; [by intros _ ?%elem_of_nil|].
  intros (j & Hj & Hs & _ & Hl) [->|Hin]%elem_of_cons; [by exists j|].
  destruct (IH (j + 1) Hl Hin) as (j' & Hj' & E). exists j'. split; [lia|done].
Qed.

Section reader.
Context (conv : Z) (pp pq : KcpParams.t) (lp up lq uq : Z).
Context (sp sq : list (Z * list Z)) (hp hq : list Seg.t) (p q : peer).
Hypothesis ord : ordered conv pp pq lp up lq uq sp sq hp hq p q.
Hypothesis drained_p : drained (node p).

(** Consumed and queued, against what the other side sent. *)
Lemma reader_split :
  ∃ ms, sent q = received p ++ ms
    ∧ carried <$> Kcp.rcv_queue (node p) `prefix_of` stream_of (mss_of pq) ms
    ∧ Forall (λ m, fragment_count (mss_of pq) m < 256) ms
    ∧ Kcp.rcv_nxt (node p) = len (stream_of (mss_of pq) (received p)) + len (Kcp.rcv_queue (node p)).
Proof using ord.
  destruct ord as [Hi _ _ Hsp Hsq].
  destruct (pair_numbers _ _ _ _ _ _ _ _ _ Hi Hsp Hsq) as (_ & _ & _ & _ & _ & Hl).
  destruct Hi as [[[Hk _ _ _] Hsrc [Hhist [ms Hms]]] _]. exists ms. split; [done|].
  destruct (exact_rcv_nxt _ _ _ _ Hk Hl) as (En & _).
  pose proof (received_prefix sq sp hp (node p) ltac:(lia) Hk) as Hpre.
  pose proof (source_log _ _ _ _ Hsrc) as Hlog. pose proof (source_counts _ _ _ _ Hsrc) as Hc.
  rewrite Hms in Hc. apply Forall_app in Hc as [_ Hc].
  rewrite fmap_app, Hhist in Hpre. rewrite Hms, stream_of_app in Hlog.
  split_and!; [|done|].
  - eapply prefix_app_inv. by etrans.
  - by rewrite En, len_app, <- Hhist, len_map.
Qed.

Lemma reader_room :
  1 <= KcpParams.receive_window pp → fits_window pp pq q →
  len (Kcp.rcv_queue (node p)) < Kcp.rcv_wnd (node p) ∧ 0 < Kcp.wnd_unused (node p).
Proof using ord drained_p.
  intros Hw Hfit. destruct reader_split as (ms & Hms & Hp & Hc & _).
  destruct (half_static _ _ _ _ _ _ _ _ (pair_p _ _ _ _ _ _ _ _ _ (od_inv _ _ _ _ _ _ _ _ _ _ _ _ _ ord)))
    as (_ & _ & _ & Ew).
  assert (len (Kcp.rcv_queue (node p)) < Kcp.rcv_wnd (node p)) as Hlt.
  { rewrite Ew. destruct (blocked_message _ _ _ Hc Hp drained_p) as [-> |(m & ms' & -> & Hlt)].
    - rewrite (@len_nil Seg.t). lia.
    - unfold fits_window in Hfit. rewrite Hms in Hfit. apply Forall_app in Hfit as [_ Hfit].
      apply Forall_cons in Hfit as [Hfit _]. lia. }
  split; [done|]. unfold Kcp.wnd_unused. rewrite (proj2 (Z.ltb_lt _ _) Hlt).
  pose proof (half_peer _ _ _ _ _ _ _ _ (pair_p _ _ _ _ _ _ _ _ _ (od_inv _ _ _ _ _ _ _ _ _ _ _ _ _ ord)))
    as [(Hconf & _) _ _ _].
  pose proof (conf_rcv_wnd _ Hconf) as Hb. unfold in_width in Hb.
  pose proof (len_nonneg (Kcp.rcv_queue (node p))). rewrite (wrap_id 16 (len _)), wrap_id by lia. lia.
Qed.

(** When the whole stream arrived, every message was read. *)
Lemma reader_done : Kcp.rcv_nxt (node p) = stream_len pq q → received p = sent q.
Proof using ord drained_p.
  intros Hn. destruct reader_split as (ms & Hms & Hp & Hc & En). rewrite Hms.
  unfold stream_len in Hn. rewrite Hms, stream_of_app, len_app in Hn.
  destruct ms as [|m ms]; [by rewrite app_nil_r|]. exfalso.
  rewrite stream_of_cons, len_app in Hn.
  pose proof (length_message_fragments (mss_of pq) m) as Hm. fold (len (message_fragments (mss_of pq) m)) in Hm.
  pose proof (len_nonneg (stream_of (mss_of pq) ms)). pose proof (fragment_count_pos (mss_of pq) m).
  destruct (blocked_message _ _ _ Hc Hp drained_p) as [E |(m' & ms' & [= <- <-] & Hlt)]; [|lia].
  rewrite E, (@len_nil Seg.t) in *. lia.
Qed.

(** The next number is not at hand. *)
Lemma reader_next :
  len (Kcp.rcv_queue (node p)) < Kcp.rcv_wnd (node p) → ¬ got (node p) (Kcp.rcv_nxt (node p)).
Proof using ord.
  intros Hlt [Hn|Hn]; [lia|].
  pose proof (half_peer _ _ _ _ _ _ _ _ (pair_p _ _ _ _ _ _ _ _ _ (od_inv _ _ _ _ _ _ _ _ _ _ _ _ _ ord)))
    as [(_ & _ & _ & (Hw & n & [Hnx _ _ _ Hb])) _ _ _]. unfold in_width in Hw.
  destruct (td_gap _ (sy_tidy _ _ _ _ _ (as_steady _ _ _ _ _ _ (od_a _ _ _ _ _ _ _ _ _ _ _ _ _ ord))))
    as [|Hg]; [lia|].
  destruct (Kcp.rcv_buf (node p)) as [|s l]; [by apply elem_of_nil in Hn|].
  rewrite fmap_cons in Hn. apply elem_of_cons in Hn as [Hn|Hn]; [done|].
  destruct Hb as (j & Hj & _ & _ & Hl). apply list_elem_of_fmap in Hn as (s' & Hs' & Hin).
  destruct (buf_inv_in _ _ _ _ _ Hl Hin) as (j' & Hj' & E). rewrite E, Hnx in Hs'.
  apply wrap_inj_window in Hs'; lia.
Qed.

End reader.

(** ** The speaker's turn *)

(** An endpoint between turns. *)
Record calm (self : Kcp.t) : Prop := {
  cm_output : Kcp.output self = [];
  cm_drained : drained self;
  cm_cwnd : 1 <= Kcp.cwnd self;
}.

(** The next segment the other side waits for will be sent. *)
Definition open (x y : Kcp.t) : Prop :=
  Kcp.rcv_nxt y < Kcp.snd_nxt x ∨ Kcp.snd_buf x = [] ∧ 0 < Kcp.rmt_wnd x.

(** Something will be sent: data again, or a window probe. *)
Definition poised (x : Kcp.t) : Prop := Kcp.snd_buf x ≠ [] ∨ Kcp.probe_wait x ≠ 0.

Lemma probe_keeps_tell self :
  asks self KCP_ASK_TELL = true → asks (Kcp.probe_wnd_size self) KCP_ASK_TELL = true.
Proof.
  unfold asks, Kcp.probe_wnd_size.
  destruct (Kcp.rmt_wnd self =? 0); [|done]. destruct (Kcp.probe_wait self =? 0); [done|].
  destruct (0 <=? timediff _ _); [|done].
  cbn. rewrite Z.land_lor_distr_l. change (Z.land KCP_ASK_SEND KCP_ASK_TELL) with 0.
  by rewrite Z.lor_0_r.
Qed.

Section speak.
Context (conv : Z) (px py : KcpParams.t) (lx ux ly uy ly' uy' T : Z).
Context (sx sy sx' sy' : list (Z * list Z)) (hx hy hx' hy' : list Seg.t) (x y x' y' : peer).
Context (groups : list (list Seg.t)) (taken rest : list Seg.t).
Hypothesis ord : ordered conv px py lx ux ly uy sx sy hx hy x y.
Hypothesis ord' : ordered conv px py T (T + patience_of px) ly' uy' sx' sy' hx' hy' x' y'.
Hypothesis due : ux <= T < lx + 2 ^ 31.
Hypothesis tn : turned T x y x' y' groups taken rest.
Hypothesis send_x : 1 <= KcpParams.send_window px.
Hypothesis receive_y : 1 <= KcpParams.receive_window py.
Hypothesis fits_y : fits_window py px x.
Hypothesis calm_x : calm (node x).

Abbreviation inv_x := (half_peer _ _ _ _ _ _ _ _ (pair_p _ _ _ _ _ _ _ _ _
  (od_inv _ _ _ _ _ _ _ _ _ _ _ _ _ ord))) (only parsing).
Abbreviation timers_x := (sy_timers _ _ _ _ _ (as_steady _ _ _ _ _ _
  (od_a _ _ _ _ _ _ _ _ _ _ _ _ _ ord))) (only parsing).


Lemma spoke_numbers :
  0 <= Kcp.rcv_nxt (node y) <= Kcp.snd_nxt (node x) ∧ Kcp.rcv_nxt (node y') <= Kcp.snd_nxt (node x')
  ∧ Kcp.rcv_nxt (node y) <= Kcp.rcv_nxt (node y') ∧ Kcp.snd_nxt (node x) <= Kcp.snd_nxt (node x')
  ∧ Kcp.snd_nxt (node x) + len (Kcp.snd_queue (node x)) = stream_len px x
  ∧ Kcp.snd_nxt (node x') < 2 ^ 30 ∧ stream_len px x < 2 ^ 30.
Proof using ord ord' tn.
  destruct ord as [Hi _ _ S1 S2], ord' as [Hi' _ _ S1' S2'].
  destruct (pair_numbers _ _ _ _ _ _ _ _ _ Hi S1 S2) as (A1 & A2 & A3 & A4 & A5 & A6).
  destruct (pair_numbers _ _ _ _ _ _ _ _ _ Hi' S1' S2') as (B1 & B2 & B3 & B4 & B5 & B6).
  destruct (pair_few _ _ _ _ _ _ _ _ _ Hi) as [F _].
  pose proof (tn_growth _ _ _ _ _ _ _ _ tn) as [_ _ _ G _ _].
  pose proof (an_growth _ _ (tn_attended _ _ _ _ _ _ _ _ tn)) as [_ G' _ _ _ _].
  split_and!; try lia.
Qed.

(** Every segment in flight after the turn was put on the wire, and heeded. *)
Lemma spoke_sent s :
  s ∈ Kcp.snd_buf (node x') → s ∈ mjoin groups.
Proof using ord due tn.
  destruct (tn_flush _ _ _ _ _ _ _ _ tn) as (f & k & F & ->).
  pose proof timers_x as [T1 _ _ _ T5]. destruct inv_x as [(Hconf & _) _ _ _].
  pose proof (conf_rto _ Hconf).
  apply (flushed_sends (at_flush T f (node x)) k groups taken rest T F T1 ltac:(cbn; lia) eq_refl lx ux);
    done.
Qed.

Lemma spoke_heeded s :
  s ∈ mjoin groups →
  heeds (Kcp.rcv_nxt (node y) + Kcp.rcv_wnd (node y)) s (node y').
Proof using tn calm_x.
  intros Hs. destruct (tn_answered _ _ _ _ _ _ _ _ tn (cm_output _ calm_x)) as [H _].
  by apply (proj1 (Forall_forall _ _) H).
Qed.

(** Data that [y] has room for is received and will be acknowledged. *)
Lemma spoke_data s :
  s ∈ Kcp.snd_buf (node x') → Seg.sn s <= Kcp.rcv_nxt (node y) →
  got (node y') (Seg.sn s) ∧ Kcp.acklist (node y') ≠ [].
Proof using ord ord' due tn receive_y calm_x.
  intros Hs Hle. pose proof (spoke_heeded s (spoke_sent s Hs)) as [H _ _]. apply H.
  - destruct (half_peer _ _ _ _ _ _ _ _ (pair_p _ _ _ _ _ _ _ _ _
      (od_inv _ _ _ _ _ _ _ _ _ _ _ _ _ ord'))) as [(_ & [_ Hb _ _] & _) _ _ _].
    by apply (proj1 (Forall_forall _ _) Hb s Hs).
  - destruct (half_static _ _ _ _ _ _ _ _ (pair_q _ _ _ _ _ _ _ _ _
      (od_inv _ _ _ _ _ _ _ _ _ _ _ _ _ ord))) as (_ & _ & _ & ->). lia.
Qed.

(** What was sent arrives. *)
Lemma spoke_progress :
  Kcp.rcv_nxt (node y) < Kcp.snd_nxt (node x') →
  Kcp.rcv_nxt (node y) < Kcp.rcv_nxt (node y').
Proof using ord ord' due tn receive_y fits_y calm_x.
  intros Hlt. destruct spoke_numbers as (N1 & N2 & N3 & N4 & _).
  destruct (Z.lt_ge_cases (Kcp.rcv_nxt (node y)) (Kcp.rcv_nxt (node y'))) as [|Hge]; [done|].
  exfalso. assert (Kcp.rcv_nxt (node y') = Kcp.rcv_nxt (node y)) as E by lia.
  pose proof (ordered_sym _ _ _ _ _ _ _ _ _ _ _ _ _ ord') as ord2.
  assert (fits_window py px x') as Hfit.
  { unfold fits_window. by rewrite (proj1 (tn_sent _ _ _ _ _ _ _ _ tn)). }
  destruct (reader_room _ _ _ _ _ _ _ _ _ _ _ _ _ ord2 (tn_drained _ _ _ _ _ _ _ _ tn) receive_y Hfit)
    as [Hroom _].
  pose proof (reader_next _ _ _ _ _ _ _ _ _ _ _ _ _ ord2 Hroom) as Hng.
  pose proof (sy_retained _ _ _ _ _ (as_steady _ _ _ _ _ _ (od_a _ _ _ _ _ _ _ _ _ _ _ _ _ ord'))
    (Kcp.rcv_nxt (node y')) ltac:(lia) Hng) as (s & Es & Hs)%list_elem_of_fmap.
  apply Hng. rewrite Es. apply spoke_data; [done|lia].
Qed.

(** Without progress nothing new could be sent, and the window tells why. *)
Lemma spoke_stuck :
  Kcp.rcv_nxt (node y') <= Kcp.rcv_nxt (node y) → Kcp.rcv_nxt (node y) < stream_len px x →
  Kcp.rcv_nxt (node y') = Kcp.snd_nxt (node x')
  ∧ Kcp.rcv_nxt (node y) = Kcp.snd_nxt (node x)
  ∧ (Kcp.snd_buf (node x) = [] → Kcp.rmt_wnd (node x) = 0).
Proof using All.
  intros Hle Hlt. destruct spoke_numbers as (N1 & N2 & N3 & N4 & N5 & N6 & N7).
  assert (Kcp.snd_nxt (node x') <= Kcp.rcv_nxt (node y)) as Hx'.
  { destruct (Z.lt_ge_cases (Kcp.rcv_nxt (node y)) (Kcp.snd_nxt (node x'))) as [H|]; [|done].
    apply spoke_progress in H. lia. }
  split; [lia|]. split; [lia|]. intros Hb.
  destruct (tn_flush _ _ _ _ _ _ _ _ tn) as (f & k & F & E).
  pose proof (fd_queue _ _ _ _ _ F) as Eq. change (Kcp.snd_queue (at_flush T f (node x)))
    with (Kcp.snd_queue (node x)) in Eq.
  pose proof (fd_next _ _ _ _ _ F) as En. change (Kcp.snd_nxt (at_flush T f (node x)))
    with (Kcp.snd_nxt (node x)) in En.
  assert (Kcp.snd_nxt k = Kcp.snd_nxt (node x')) as Ek by (by rewrite E).
  apply (f_equal len) in Eq. rewrite len_app in Eq.
  pose proof (len_nonneg taken). pose proof (len_nonneg rest).
  rewrite wrap_id in En by lia.
  destruct (fd_stop _ _ _ _ _ F) as [->|Hstop]; [rewrite (@len_nil Seg.t) in Eq; lia|].
  pose proof (td_front _ (sy_tidy _ _ _ _ _ (as_steady _ _ _ _ _ _
    (od_a _ _ _ _ _ _ _ _ _ _ _ _ _ ord)))) as Hf.
  unfold front in Hf. rewrite Hb in Hf.
  change (Kcp.snd_una (at_flush T f (node x))) with (Kcp.snd_una (node x)) in Hstop.
  change (window (at_flush T f (node x))) with (window (node x)) in Hstop.
  destruct inv_x as [(Hconf & _) _ _ _]. destruct Hconf. unfold in_width in *.
  pose proof (cm_cwnd _ calm_x).
  assert (1 <= Kcp.snd_wnd (node x)) as Hsw
    by (by rewrite (as_snd_wnd _ _ _ _ _ _ (od_a _ _ _ _ _ _ _ _ _ _ _ _ _ ord))).
  assert (0 <= window (node x) < 2 ^ 16 ∧ (window (node x) = 0 → Kcp.rmt_wnd (node x) = 0)) as [Hw1 Hw2].
  { unfold window. destruct (Kcp.congestion_control (node x)); lia. }
  apply Hw2. rewrite Hf, Ek, <- (wrap_id 32 (Kcp.snd_nxt (node x'))), timediff_wrap in Hstop by lia. lia.
Qed.

(** An open window makes progress. *)
Lemma spoke_open :
  open (node x) (node y) → Kcp.rcv_nxt (node y) < stream_len px x →
  Kcp.rcv_nxt (node y) < Kcp.rcv_nxt (node y').
Proof using All.
  intros Ho Hlt. destruct spoke_numbers as (N1 & N2 & N3 & N4 & _).
  destruct (Z.lt_ge_cases (Kcp.rcv_nxt (node y)) (Kcp.rcv_nxt (node y'))) as [|Hge]; [done|].
  destruct (spoke_stuck Hge Hlt) as (E1 & E2 & Hw).
  destruct Ho as [Ho|[Hb Ho]]; [lia|]. rewrite (Hw Hb) in Ho. lia.
Qed.

Abbreviation probing f :=
  (probe_timed (at_flush T f (node x)) lx ux T (tm_sane _ _ _ timers_x) eq_refl
    (tm_wait _ _ _ timers_x) (tm_probe _ _ _ timers_x)) (only parsing).

(** A poised speaker gets an answer. *)
Lemma spoke_poised :
  poised (node x) → Kcp.rcv_nxt (node y') <= Kcp.rcv_nxt (node y) →
  Kcp.rcv_nxt (node y) < stream_len px x →
  Kcp.acklist (node y') ≠ [] ∨ asks (node y') KCP_ASK_TELL = true.
Proof using All.
  intros Hp Hle Hlt. destruct (spoke_stuck Hle Hlt) as (E1 & E2 & Hw).
  destruct spoke_numbers as (N1 & N2 & N3 & N4 & _).
  destruct (tn_flush _ _ _ _ _ _ _ _ tn) as (f & k & F & E).
  destruct (Kcp.snd_buf (node x)) as [|s l] eqn:Eb.
  - right. destruct Hp as [Hp|Hp]; [done|].
    destruct (probing f) as (_ & _ & _ & Hask).
    specialize (Hask (Hw eq_refl) Hp due).
    eapply (hd_wask _ ((last_header (at_flush T f (node x))) <| Seg.cmd := KCP_CMD_WASK |>));
      [|done]. apply spoke_heeded. rewrite (fd_segments _ _ _ _ _ F).
    apply elem_of_app. right. apply elem_of_app. left. unfold probe_segments. rewrite Hask. by left.
  - left. pose proof (fd_buf _ _ _ _ _ F) as Ek.
    change (Kcp.snd_buf (at_flush T f (node x))) with (Kcp.snd_buf (node x)) in Ek.
    rewrite Eb, <- app_comm_cons, fmap_cons in Ek.
    assert (∃ s', s' ∈ Kcp.snd_buf (node x')) as (s' & Hs').
    { rewrite E. change (Kcp.snd_buf (Kcp.take_output k).2) with (Kcp.snd_buf k). rewrite Ek.
      eexists. by left. }
    apply (spoke_data s' Hs').
    pose proof (td_numbers _ (sy_tidy _ _ _ _ _ (as_steady _ _ _ _ _ _
      (od_a _ _ _ _ _ _ _ _ _ _ _ _ _ ord')))) as Hn.
    assert (Seg.sn s' ∈ Seg.sn <$> Kcp.snd_buf (node x')) as Hin
      by (apply list_elem_of_fmap; by exists s').
    pose proof (numbered_from_in _ _ _ _ Hn Hin). lia.
Qed.

(** A closed window is probed from now on. *)
Lemma spoke_waiting :
  ¬ poised (node x) → Kcp.rcv_nxt (node y') <= Kcp.rcv_nxt (node y) →
  Kcp.rcv_nxt (node y) < stream_len px x → Kcp.probe_wait (node x') ≠ 0.
Proof using All.
  intros Hp Hle Hlt. destruct (spoke_stuck Hle Hlt) as (_ & _ & Hw).
  destruct (tn_flush _ _ _ _ _ _ _ _ tn) as (f & k & F & ->).
  change (Kcp.probe_wait k ≠ 0). rewrite (fk_probe_wait _ _ (fd_keeps _ _ _ _ _ F)).
  destruct (probing f) as (_ & _ & Hpw & _). apply Hpw.
  change (Kcp.rmt_wnd (node x) = 0). apply Hw. destruct (Kcp.snd_buf (node x)) eqn:E; [done|].
  destruct Hp. left. by rewrite E.
Qed.

(** ** What the listener learns *)

(** An endpoint that has something to acknowledge or to tell speaks. *)
Lemma spoke_answer :
  Kcp.acklist (node x) ≠ [] ∨ asks (node x) KCP_ASK_TELL = true → mjoin groups ≠ [].
Proof using tn.
  intros H. destruct (tn_flush _ _ _ _ _ _ _ _ tn) as (f & k & F & _).
  rewrite (fd_segments _ _ _ _ _ F). destruct H as [H|H].
  - unfold ack_segments. change (Kcp.acklist (at_flush T f (node x))) with (Kcp.acklist (node x)).
    by destruct (Kcp.acklist (node x)).
  - unfold probe_segments.
    assert (asks (Kcp.probe_wnd_size (at_flush T f (node x))) KCP_ASK_TELL = true) as ->
      by (by apply probe_keeps_tell).
    intros [_ [[_ H1]%app_eq_nil _]%app_eq_nil]%app_eq_nil. done.
Qed.

(** Any segment tells the listener what was received, and the window. *)
Lemma spoke_tells :
  mjoin groups ≠ [] →
  (∀ n, n ∈ Seg.sn <$> Kcp.snd_buf (node y') → Kcp.rcv_nxt (node x) <= n)
  ∧ Kcp.rmt_wnd (node y') = Kcp.wnd_unused (node x).
Proof using tn calm_x.
  intros Hne. destruct (tn_flush _ _ _ _ _ _ _ _ tn) as (f & k & F & _).
  pose proof (flushed_fresh (at_flush T f (node x)) k groups taken rest F) as Hf.
  destruct (tn_answered _ _ _ _ _ _ _ _ tn (cm_output _ calm_x)) as [Hh Hw].
  destruct (last (mjoin groups)) as [s|] eqn:El.
  2:{ apply last_None in El. done. }
  assert (s ∈ mjoin groups) as Hin by (by apply last_Some_elem_of).
  destruct (Hf s Hin) as [Hs1 Hs2]. split.
  - intros n Hn. pose proof (proj1 (Forall_forall _ _) Hh s Hin) as [_ _ Hu].
    specialize (Hu n Hn). by rewrite Hs2 in Hu.
  - rewrite Hw. unfold announced. by rewrite El.
Qed.

End speak.

(** ** A round: both sides speak once *)

Lemma turned_speaker T x y x' y' groups taken rest :
  turned T x y x' y' groups taken rest →
  Kcp.output (node x') = [] ∧ 1 <= Kcp.cwnd (node x')
  ∧ Kcp.rcv_nxt (node x') = Kcp.rcv_nxt (node x) ∧ (drained (node x) → drained (node x')).
Proof.
  intros [(f & k & F & ->) _ _ _ _ _]. pose proof (fd_cwnd _ _ _ _ _ F).
  destruct (fd_keeps _ _ _ _ _ F) as [_ Hn Hq _ _ _ _ _ _ _ _ _ _ _ _ _].
  split_and!; [done|done|exact Hn|]. intros [e He]. exists e.
  change (Kcp.peeksize k = Err e). unfold Kcp.peeksize in *. by rewrite Hq.
Qed.

Lemma turned_listener T x y x' y' groups taken rest :
  turned T x y x' y' groups taken rest →
  drained (node y') ∧ (Kcp.output (node y) = [] → Kcp.output (node y') = [])
  ∧ (1 <= Kcp.cwnd (node y) → 1 <= Kcp.cwnd (node y')).
Proof.
  intros [_ _ [_ _ _ Ho _ _ _ _ Hc] _ Hd _]. split_and!; [done|by rewrite Ho|lia].
Qed.

Lemma turned_calm T x y x' y' groups taken rest :
  turned T x y x' y' groups taken rest → calm (node x) → calm (node y) →
  calm (node x') ∧ calm (node y').
Proof.
  intros H [X1 X2 X3] [Y1 Y2 Y3].
  destruct (turned_speaker _ _ _ _ _ _ _ _ H) as (S1 & S2 & _ & S4).
  destruct (turned_listener _ _ _ _ _ _ _ _ H) as (L1 & L2 & L3). split; split; auto.
Qed.

(** How many rounds without progress are ahead. *)
Definition stage (r : nat) (x y : Kcp.t) : Prop :=
  match r with O => open x y | 1%nat => open x y ∨ poised x | _ => True end.

Section round.
Context (conv : Z) (px py : KcpParams.t) (lx ux ly uy T1 T2 : Z).
Context (sx sy sx1 sy1 sx2 sy2 : list (Z * list Z)) (hx hy hx1 hy1 hx2 hy2 : list Seg.t).
Context (x y x1 y1 x2 y2 : peer).
Context (g1 g2 : list (list Seg.t)) (t1 r1 t2 r2 : list Seg.t).
Hypothesis live_x : live px.
Hypothesis live_y : live py.
Hypothesis ord0 : ordered conv px py lx ux ly uy sx sy hx hy x y.
Hypothesis ord1 : ordered conv px py T1 (T1 + patience_of px) ly uy sx1 sy1 hx1 hy1 x1 y1.
Hypothesis ord2 : ordered conv py px T2 (T2 + patience_of py) T1 (T1 + patience_of px)
  sy2 sx2 hy2 hx2 y2 x2.
Hypothesis due1 : ux <= T1 < lx + 2 ^ 31.
Hypothesis turn1 : turned T1 x y x1 y1 g1 t1 r1.
Hypothesis turn2 : turned T2 y1 x1 y2 x2 g2 t2 r2.
Hypothesis fits_y : fits_window py px x.
Hypothesis calm_x : calm (node x).
Hypothesis calm_y : calm (node y).
Hypothesis unfinished : Kcp.rcv_nxt (node y) < stream_len px x.

(** Whatever [y] says opens the window of [x]. *)
Lemma round_answer :
  Kcp.rcv_nxt (node y1) <= Kcp.rcv_nxt (node y) → mjoin g2 ≠ [] → open (node x2) (node y2).
Proof using All.
  intros Hle Hne.
  destruct (spoke_stuck _ _ _ _ _ _ _ _ _ _ _ _ _ _ _ _ _ _ _ _ _ _ _ _ _ ord0 ord1 due1 turn1
    (live_send _ live_x) (live_receive _ live_y) fits_y calm_x Hle unfinished) as (E1 & _ & _).
  destruct (turned_calm _ _ _ _ _ _ _ _ turn1 calm_x calm_y) as [_ calm_y1].
  destruct (spoke_tells _ _ _ _ _ _ _ _ turn2 calm_y1 Hne) as [Hn Hw].
  right. split.
  - destruct (Kcp.snd_buf (node x2)) as [|s l] eqn:Eb; [done|]. exfalso.
    assert (Seg.sn s ∈ Seg.sn <$> Kcp.snd_buf (node x2)) as Hin by (rewrite Eb, fmap_cons; by left).
    rewrite <- Eb in Hn. specialize (Hn _ Hin).
    pose proof (td_numbers _ (sy_tidy _ _ _ _ _ (as_steady _ _ _ _ _ _
      (od_b _ _ _ _ _ _ _ _ _ _ _ _ _ ord2)))) as Hnum.
    pose proof (numbered_from_in _ _ _ _ Hnum Hin).
    pose proof (an_nxt _ _ (tn_attended _ _ _ _ _ _ _ _ turn2)). lia.
  - rewrite Hw. pose proof (ordered_sym _ _ _ _ _ _ _ _ _ _ _ _ _ ord1) as ord1'.
    assert (fits_window py px x1) as Hfit
      by (unfold fits_window; by rewrite (proj1 (tn_sent _ _ _ _ _ _ _ _ turn1))).
    by apply (reader_room _ _ _ _ _ _ _ _ _ _ _ _ _ ord1' (tn_drained _ _ _ _ _ _ _ _ turn1)
      (live_receive _ live_y) Hfit).
Qed.

Lemma round_progress r :
  stage r (node x) (node y) →
  Kcp.rcv_nxt (node y) < Kcp.rcv_nxt (node y2)
  ∨ Kcp.rcv_nxt (node y2) = Kcp.rcv_nxt (node y) ∧ ∃ r', r = S r' ∧ stage r' (node x2) (node y2).
Proof using All.
  intros Hst. destruct (turned_speaker _ _ _ _ _ _ _ _ turn2) as (_ & _ & Ey & _).
  destruct (Z.lt_ge_cases (Kcp.rcv_nxt (node y)) (Kcp.rcv_nxt (node y1))) as [|Hle]; [left; lia|right].
  pose proof (an_growth _ _ (tn_attended _ _ _ _ _ _ _ _ turn1)) as [_ Hg _ _ _ _].
  split; [lia|].
  assert (poised (node x) → open (node x2) (node y2)) as Hpoised.
  { intros Hp. apply round_answer; [done|]. apply (spoke_answer _ _ _ _ _ _ _ _ turn2).
    by apply (spoke_poised _ _ _ _ _ _ _ _ _ _ _ _ _ _ _ _ _ _ _ _ _ _ _ _ _ ord0 ord1 due1 turn1
      (live_send _ live_x) (live_receive _ live_y) fits_y calm_x). }
  assert (¬ open (node x) (node y)) as Hclosed.
  { intros Ho.
    pose proof (spoke_open _ _ _ _ _ _ _ _ _ _ _ _ _ _ _ _ _ _ _ _ _ _ _ _ _ ord0 ord1 due1 turn1
      (live_send _ live_x) (live_receive _ live_y) fits_y calm_x Ho unfinished). lia. }
  assert (poised (node x) ∨ ¬ poised (node x)) as Hdec.
  { unfold poised. destruct (Kcp.snd_buf (node x)); [|by left; left].
    destruct (decide (Kcp.probe_wait (node x) = 0)); [right|left; by right]. intros [?|?]; done. }
  destruct r as [|[|r]]; cbn [stage] in Hst.
  - done.
  - exists 0%nat. split; [done|]. destruct Hst; [done|by apply Hpoised].
  - exists (S r). split; [done|]. destruct Hdec as [Hp|Hp].
    + apply Hpoised in Hp. destruct r; [by left|done].
    + destruct r; [|done]. right. right.
      rewrite (an_wait _ _ (tn_attended _ _ _ _ _ _ _ _ turn2)).
      by apply (spoke_waiting _ _ _ _ _ _ _ _ _ _ _ _ _ _ _ _ _ _ _ _ _ _ _ _ _ ord0 ord1 due1 turn1
        (live_send _ live_x) (live_receive _ live_y) fits_y calm_x).
Qed.
End round.

(** ** Many turns *)

(** Each turn comes when every timer of its side is due, and not later than
    half the range of the clock; [px] and [py] are the longest delays. *)
Fixpoint spaced (px py lx ux ly uy : Z) (turns : list (Z * Z)) : Prop :=
  match turns with
  | [] => True
  | (T, now) :: turns =>
      ux <= T < lx + 2 ^ 31 ∧ in_width 32 now ∧ spaced py px ly uy T (T + px) turns
  end.

(** The state after some turns, whoever comes next. *)
Record exchanged (conv : Z) (px py : KcpParams.t) (x y x' y' : peer) : Prop := {
  ex_ordered : ∃ lx ux ly uy sx sy hx hy, ordered conv px py lx ux ly uy sx sy hx hy x' y';
  ex_growth_x : growth (node x) (node x');
  ex_growth_y : growth (node y) (node y');
  ex_sent_x : sent x' = sent x;
  ex_sent_y : sent y' = sent y;
  ex_calm : calm (node x) → calm (node y) → calm (node x') ∧ calm (node y');
}.

Lemma exchange_ordered conv turns : ∀ px py lx ux ly uy sx sy hx hy x y,
  KCP_OVERHEAD < KcpParams.mtu px → KCP_OVERHEAD < KcpParams.mtu py →
  ordered conv px py lx ux ly uy sx sy hx hy x y →
  spaced (patience_of px) (patience_of py) lx ux ly uy turns →
  ∃ x' y', exchange turns x y = Ret (x', y') ∧ exchanged conv px py x y x' y'.
Proof.
  induction turns as [|[T now] turns IH]; intros px py lx ux ly uy sx sy hx hy x y Mx My O0 Hs;
    cbn [exchange spaced] in *.
  { exists x, y. split; [done|]. split; [by eexists _, _, _, _, _, _, _, _|done|done|done|done|done]. }
  destruct Hs as (HT & Hnow & Hs).
  destruct (turn_ordered conv px py lx ux ly uy sx sy hx hy x y T now Mx My O0 HT Hnow)
    as (x1 & y1 & sx1 & sy1 & hx1 & hy1 & g & tk & rs & E & O1 & Tn).
  rewrite E. cbn [mbind comp_bind].
  destruct (IH py px _ _ _ _ _ _ _ _ y1 x1 My Mx (ordered_sym _ _ _ _ _ _ _ _ _ _ _ _ _ O1) Hs)
    as (y2 & x2 & E2 & [(l1 & u1 & l2 & u2 & s1 & s2 & h1 & h2 & O2) Gy Gx Sy Sx Hc]).
  exists x2, y2. rewrite E2. split; [done|].
  destruct (tn_sent _ _ _ _ _ _ _ _ Tn) as [S1 S2].
  pose proof (tn_growth _ _ _ _ _ _ _ _ Tn) as G1.
  pose proof (an_growth _ _ (tn_attended _ _ _ _ _ _ _ _ Tn)) as G2.
  split; [|by etrans|by etrans|congruence|congruence|].
  - apply ordered_sym in O2. by eexists _, _, _, _, _, _, _, _.
  - intros Cx Cy. destruct (turned_calm _ _ _ _ _ _ _ _ Tn Cx Cy) as [Cx1 Cy1].
    destruct (Hc Cy1 Cx1). by split.
Qed.

(** The first of some turns, seen from the side that comes next. *)
Lemma exchange_step conv px py T now turns lx ux ly uy sx sy hx hy x y x' y' :
  KCP_OVERHEAD < KcpParams.mtu px → KCP_OVERHEAD < KcpParams.mtu py →
  ordered conv px py lx ux ly uy sx sy hx hy x y →
  spaced (patience_of px) (patience_of py) lx ux ly uy ((T, now) :: turns) →
  exchange ((T, now) :: turns) x y = Ret (x', y') →
  ∃ x1 y1 sx1 sy1 hx1 hy1 groups taken rest,
    turned T x y x1 y1 groups taken rest
    ∧ ordered conv py px ly uy T (T + patience_of px) sy1 sx1 hy1 hx1 y1 x1
    ∧ exchange turns y1 x1 = Ret (y', x').
Proof.
  intros Mx My O0 (HT & Hnow & _) E. cbn [exchange] in E.
  destruct (turn_ordered conv px py lx ux ly uy sx sy hx hy x y T now Mx My O0 HT Hnow)
    as (x1 & y1 & sx1 & sy1 & hx1 & hy1 & g & tk & rs & E1 & O1 & Tn).
  rewrite E1 in E. cbn [mbind comp_bind] in E. apply bind_ret in E as ([y2 x2] & E2 & E).
  apply Ret_inj in E as [= <- <-].
  exists x1, y1, sx1, sy1, hx1, hy1, g, tk, rs. split; [done|]. split; [|done].
  by apply ordered_sym.
Qed.

(** What was sent is a bound for what was received. *)
Lemma ordered_bounds conv px py lx ux ly uy sx sy hx hy x y :
  ordered conv px py lx ux ly uy sx sy hx hy x y → 0 <= Kcp.rcv_nxt (node y) <= stream_len px x.
Proof.
  intros [Hi _ _ S1 S2].
  destruct (pair_numbers _ _ _ _ _ _ _ _ _ Hi S1 S2) as (_ & _ & _ & H & _).
  destruct (pair_few _ _ _ _ _ _ _ _ _ Hi) as [F _].
  pose proof (len_nonneg (Kcp.snd_queue (node x))). lia.
Qed.

Lemma exchanged_bounds conv px py x y x' y' :
  exchanged conv px py x y x' y' →
  Kcp.rcv_nxt (node y) <= Kcp.rcv_nxt (node y') <= stream_len px x.
Proof.
  intros [(l1 & u1 & l2 & u2 & s1 & s2 & h1 & h2 & O) _ Gy Sx _ _].
  apply ordered_bounds in O. unfold stream_len in *. rewrite Sx in O.
  destruct Gy. lia.
Qed.

(** With [n] rounds per missing segment, everything arrives. *)
Lemma exchange_reaches conv px py m : live px → live py → ∀ turns r lx ux ly uy sx sy hx hy x y x' y',
  ordered conv px py lx ux ly uy sx sy hx hy x y →
  spaced (patience_of px) (patience_of py) lx ux ly uy turns →
  calm (node x) → calm (node y) → fits_window py px x → stage r (node x) (node y) →
  (2 * m <= length turns)%nat →
  (Kcp.rcv_nxt (node y) < stream_len px x →
     3 * (stream_len px x - Kcp.rcv_nxt (node y) - 1) + Z.of_nat r + 1 <= Z.of_nat m) →
  exchange turns x y = Ret (x', y') → Kcp.rcv_nxt (node y') = stream_len px x.
Proof.
  intros Lx Ly. pose proof (params_mtu _ (live_params _ Lx)) as [Mx _].
  pose proof (params_mtu _ (live_params _ Ly)) as [My _].
  induction m as [|m IH]; intros turns r lx ux ly uy sx sy hx hy x y x' y' O0 Hs Cx Cy Hfit Hst Hm Hb E;
    destruct (exchange_ordered conv turns px py _ _ _ _ _ _ _ _ x y Mx My O0 Hs) as (x3 & y3 & E3 & X3);
    rewrite E in E3; apply Ret_inj in E3 as [= <- <-];
    pose proof (exchanged_bounds _ _ _ _ _ _ _ X3);
    (destruct (Z.lt_ge_cases (Kcp.rcv_nxt (node y)) (stream_len px x)) as [Hlt|]; [|lia]);
    specialize (Hb Hlt); [lia|].
  destruct turns as [|[T1 now1] [|[T2 now2] turns]]; cbn [length] in Hm; [lia|lia|].
  pose proof Hs as (D1 & _ & Hs1). pose proof Hs1 as (_ & _ & Hs2).
  destruct (exchange_step _ _ _ _ _ _ _ _ _ _ _ _ _ _ _ _ _ _ Mx My O0 Hs E)
    as (x1 & y1 & sx1 & sy1 & hx1 & hy1 & g1 & t1 & r1 & Tn1 & O1 & E1).
  destruct (exchange_step _ _ _ _ _ _ _ _ _ _ _ _ _ _ _ _ _ _ My Mx O1 Hs1 E1)
    as (y2 & x2 & sy2 & sx2 & hy2 & hx2 & g2 & t2 & r2 & Tn2 & O2 & E2).
  destruct (turned_calm _ _ _ _ _ _ _ _ Tn1 Cx Cy) as [Cx1 Cy1].
  destruct (turned_calm _ _ _ _ _ _ _ _ Tn2 Cy1 Cx1) as [Cy2 Cx2].
  destruct (tn_sent _ _ _ _ _ _ _ _ Tn1) as [Sx1 Sy1], (tn_sent _ _ _ _ _ _ _ _ Tn2) as [Sy2 Sx2].
  assert (sent x2 = sent x) as Sx by congruence.
  assert (stream_len px x2 = stream_len px x) as Elen by (unfold stream_len; by rewrite Sx).
  pose proof (ordered_bounds _ _ _ _ _ _ _ _ _ _ _ _ _ O2).
  rewrite <- Elen. destruct (round_progress conv px py lx ux ly uy T1 T2 sx sy sx1 sy1 sx2 sy2
    hx hy hx1 hy1 hx2 hy2 x y x1 y1 x2 y2 g1 g2 t1 r1 t2 r2 Lx Ly O0
    (ordered_sym _ _ _ _ _ _ _ _ _ _ _ _ _ O1) (ordered_sym _ _ _ _ _ _ _ _ _ _ _ _ _ O2) D1 Tn1 Tn2 Hfit Cx Cy Hlt r Hst)
    as [Hp|(Hp & r' & -> & Hst')].
  - apply (IH turns 2%nat _ _ _ _ _ _ _ _ x2 y2 x' y' O2 Hs2);
      [done|done|unfold fits_window; by rewrite Sx|done|lia|rewrite Elen; lia|done].
  - apply (IH turns r' _ _ _ _ _ _ _ _ x2 y2 x' y' O2 Hs2);
      [done|done|unfold fits_window; by rewrite Sx|done|lia|rewrite Elen; lia|done].
Qed.

(** Two turns bring both sides to rest, whatever was under way before. *)
Lemma two_turns_calm T1 T2 x y x1 y1 x2 y2 g1 g2 t1 t2 r1 r2 :
  turned T1 x y x1 y1 g1 t1 r1 → turned T2 y1 x1 y2 x2 g2 t2 r2 →
  calm (node x2) ∧ calm (node y2).
Proof.
  intros Tn1 Tn2.
  destruct (turned_speaker _ _ _ _ _ _ _ _ Tn1) as (X1 & X2 & _).
  destruct (turned_listener _ _ _ _ _ _ _ _ Tn1) as (Y1 & _).
  destruct (turned_speaker _ _ _ _ _ _ _ _ Tn2) as (Y2 & Y3 & _ & Y4).
  destruct (turned_listener _ _ _ _ _ _ _ _ Tn2) as (X3 & X4 & X5). split; split; auto.
Qed.

(** Enough rounds for all of [x]'s stream. *)
Lemma exchange_all conv px py turns lx ux ly uy sx sy hx hy x y x' y' :
  live px → live py → ordered conv px py lx ux ly uy sx sy hx hy x y →
  spaced (patience_of px) (patience_of py) lx ux ly uy turns →
  calm (node x) → calm (node y) → fits_window py px x →
  6 * stream_len px x <= len turns → exchange turns x y = Ret (x', y') →
  Kcp.rcv_nxt (node y') = stream_len px x.
Proof.
  intros Lx Ly O Hs Cx Cy Hf Hl E. pose proof (ordered_bounds _ _ _ _ _ _ _ _ _ _ _ _ _ O).
  unfold len in Hl.
  by apply (exchange_reaches conv px py (Z.to_nat (3 * stream_len px x)) Lx Ly turns 2%nat
    lx ux ly uy sx sy hx hy x y x' y' O Hs Cx Cy Hf I ltac:(lia) ltac:(lia) E).
Qed.

Lemma exchange_delivers conv pa pb turns la ua lb ub sa sb ha hb a b :
  live pa → live pb → ordered conv pa pb la ua lb ub sa sb ha hb a b →
  spaced (patience_of pa) (patience_of pb) la ua lb ub turns →
  fits_window pb pa a → fits_window pa pb b →
  6 * (stream_len pa a `max` stream_len pb b) + 3 <= len turns →
  ∃ a' b', exchange turns a b = Ret (a', b') ∧ exchanged conv pa pb a b a' b'
    ∧ Kcp.rcv_nxt (node b') = stream_len pa a ∧ Kcp.rcv_nxt (node a') = stream_len pb b
    ∧ drained (node a') ∧ drained (node b').
Proof.
  intros La Lb O0 Hs Fa Fb Hl. pose proof (params_mtu _ (live_params _ La)) as [Ma _].
  pose proof (params_mtu _ (live_params _ Lb)) as [Mb _].
  destruct (exchange_ordered conv turns pa pb _ _ _ _ _ _ _ _ a b Ma Mb O0 Hs) as (a' & b' & E & X).
  exists a', b'. split; [exact E|]. split; [exact X|].
  pose proof (ordered_bounds _ _ _ _ _ _ _ _ _ _ _ _ _ O0).
  destruct turns as [|[T1 n1] [|[T2 n2] turns]]; [unfold len in Hl; cbn in Hl; lia..|].
  rewrite !len_cons in Hl. pose proof Hs as (_ & _ & Hs1). pose proof Hs1 as (_ & _ & Hs2).
  destruct (exchange_step _ _ _ _ _ _ _ _ _ _ _ _ _ _ _ _ _ _ Ma Mb O0 Hs E)
    as (a1 & b1 & sa1 & sb1 & ha1 & hb1 & g1 & t1 & r1 & Tn1 & O1 & E1).
  destruct (exchange_step _ _ _ _ _ _ _ _ _ _ _ _ _ _ _ _ _ _ Mb Ma O1 Hs1 E1)
    as (b2 & a2 & sb2 & sa2 & hb2 & ha2 & g2 & t2 & r2 & Tn2 & O2 & E2).
  destruct (two_turns_calm _ _ _ _ _ _ _ _ _ _ _ _ _ _ Tn1 Tn2) as [Ca Cb].
  destruct (tn_sent _ _ _ _ _ _ _ _ Tn1) as [Sa1 Sb1], (tn_sent _ _ _ _ _ _ _ _ Tn2) as [Sb2 Sa2].
  assert (sent a2 = sent a) as Sa by congruence. assert (sent b2 = sent b) as Sb by congruence.
  unfold fits_window, stream_len in *. rewrite <- Sa, <- Sb in *.
  destruct (exchange_ordered conv turns pa pb _ _ _ _ _ _ _ _ a2 b2 Ma Mb O2 Hs2)
    as (a5 & b5 & E5 & X2). rewrite E2 in E5. apply Ret_inj in E5 as [= <- <-].
  destruct (ex_calm _ _ _ _ _ _ _ X2 Ca Cb) as [[_ Da _] [_ Db _]].
  split; [|split; [|done]].
  - by apply (exchange_all conv pa pb turns _ _ _ _ _ _ _ _ a2 b2 a' b' La Lb O2 Hs2 Ca Cb Fa
      ltac:(unfold stream_len; lia) E2).
  - destruct turns as [|[T3 n3] turns]; [unfold len in Hl; cbn in Hl; lia|].
    rewrite len_cons in Hl. pose proof Hs2 as (_ & _ & Hs3).
    destruct (exchange_step _ _ _ _ _ _ _ _ _ _ _ _ _ _ _ _ _ _ Ma Mb O2 Hs2 E2)
      as (a3 & b3 & sa3 & sb3 & ha3 & hb3 & g3 & t3 & r3 & Tn3 & O3 & E3).
    destruct (turned_calm _ _ _ _ _ _ _ _ Tn3 Ca Cb) as [Ca3 Cb3].
    destruct (tn_sent _ _ _ _ _ _ _ _ Tn3) as [Sa3 Sb3]. rewrite <- Sb3 in *.
    by apply (exchange_all conv pb pa turns _ _ _ _ _ _ _ _ b3 a3 b' a' Lb La O3 Hs3 Cb3 Ca3 Fb
      ltac:(unfold stream_len; lia) E3).
Qed.

(** ** The property *)

(** C4: eventual delivery.  Whatever happened before [T0] -- losses, delays,
    reordering, repetition, any calls on either side -- once the network works
    and both sides take turns, everything that was sent is received: three
    rounds of turns per segment are enough.  The turns are as far apart as the
    longest timer; the messages must fit in the receive window of the peer. *)
Theorem kcp_eventually_delivers conv pa pb T0 calls turns a b :
  in_width 64 conv → live pa → live pb → 0 <= T0 →
  T0 + patience_of pa < 2 ^ 31 → T0 + patience_of pb < 2 ^ 31 →
  Forall (λ sc, call_ok (sc.2) ∧ call_before T0 (sc.2)) calls →
  offered (mss_of pa) true calls < 2 ^ 30 → offered (mss_of pb) false calls < 2 ^ 30 →
  run_calls calls (new_peer conv pa) (new_peer conv pb) = Ret (a, b) →
  fits_window pb pa a → fits_window pa pb b →
  spaced (patience_of pa) (patience_of pb) 0 (T0 + patience_of pa) 0 (T0 + patience_of pb) turns →
  6 * (stream_len pa a `max` stream_len pb b) + 3 <= len turns →
  ∃ a' b', exchange turns a b = Ret (a', b') ∧ received b' = sent a ∧ received a' = sent b.
Proof.
  intros Hc La Lb H0 Ta Tb Hok Oa Ob Hrun Fa Fb Hs Hlen.
  pose proof (params_mtu _ (live_params _ La)) as [Ma _].
  pose proof (params_mtu _ (live_params _ Lb)) as [Mb _].
  destruct (reachable_ordered conv T0 pa pb calls Hc La Lb H0 Ta Tb Hok Oa Ob)
    as (a0 & b0 & sa & sb & ha & hb & E & O0).
  rewrite Hrun in E. apply Ret_inj in E as [= <- <-].
  destruct (exchange_delivers conv pa pb turns _ _ _ _ _ _ _ _ a b La Lb O0 Hs Fa Fb Hlen)
    as (a' & b' & Ex & [(l1 & u1 & l2 & u2 & s1 & s2 & h1 & h2 & O) _ _ Sa Sb _] & Nb & Na & Da & Db).
  exists a', b'. split; [done|]. rewrite <- Sa, <- Sb. split.
  - apply (reader_done _ _ _ _ _ _ _ _ _ _ _ _ _ (ordered_sym _ _ _ _ _ _ _ _ _ _ _ _ _ O) Db).
    unfold stream_len in *. by rewrite Sa.
  - apply (reader_done _ _ _ _ _ _ _ _ _ _ _ _ _ O Da). unfold stream_len in *. by rewrite Sb.
Qed.

(** ** Witness *)

(** A receive window of two segments. *)
Definition narrow_params : KcpParams.t := KcpParams.Build_t 40 8 2 true (Some 2) false 1.

(** The second side acknowledges two messages with its window closed, reads
    them, and the segment that tells of the open window is lost. *)
Definition closed_calls : list (bool * call) :=
  [(true, CallSend [1]); (true, CallSend [2]); (true, CallSend [3]); (true, CallUpdate 0);
   (true, CallTakeOutput); (false, CallInput 1 0); (false, CallInput 1 1);
   (false, CallUpdate 2); (false, CallTakeOutput); (true, CallInput 3 0); (true, CallInput 3 1);
   (false, CallRecv 64); (false, CallRecv 64); (false, CallUpdate 20); (false, CallTakeOutput)].

Definition closed : peer * peer := Eval vm_compute in
  match run_calls closed_calls (new_peer 5 narrow_params) (new_peer 5 narrow_params) with
  | Ret ab => ab
  | _ => (new_peer 5 narrow_params, new_peer 5 narrow_params)
  end.

(** A turn every thirteen seconds of the clock. *)
Definition closed_turns : list (Z * Z) := Eval vm_compute in
  (λ i, (13000 * (i + 1), 13000 * (i + 1) + 40)) <$> seqZ 0 21.

(** The window is closed, the second side has read, and a message waits. *)
Example closed_window :
  (Kcp.rmt_wnd (node closed.1), Kcp.snd_buf (node closed.1), len (Kcp.snd_queue (node closed.1)),
   received closed.2) = (0, [], 1, [[1]; [2]]).
Proof. by vm_compute. Qed.

(** Two rounds do not suffice here: the window has to be probed first. *)
Example closed_two_rounds :
  (λ ab, received ab.2) <$> exchange (take 4 closed_turns) closed.1 closed.2 = Ret [[1]; [2]].
Proof. by vm_compute. Qed.

Lemma narrow_live : live narrow_params.
Proof. split; [split|..]; by vm_compute. Qed.

Lemma closed_calls_ok : Forall (λ sc, call_ok (sc.2) ∧ call_before 20 (sc.2)) closed_calls.
Proof.
  unfold closed_calls, call_ok, call_before, in_width.
  repeat constructor; cbn; try lia; by vm_compute.
Qed.

Lemma kcp_eventually_delivers_witness :
  ∃ a' b', exchange closed_turns closed.1 closed.2 = Ret (a', b')
    ∧ received b' = [[1]; [2]; [3]] ∧ received a' = [].
Proof.
  apply (kcp_eventually_delivers 5 narrow_params narrow_params 20 closed_calls closed_turns
    closed.1 closed.2).
  - by vm_compute.
  - exact narrow_live.
  - exact narrow_live.
  - done.
  - by vm_compute.
  - by vm_compute.
  - exact closed_calls_ok.
  - by vm_compute.
  - by vm_compute.
  - by vm_compute.
  - unfold fits_window. by repeat constructor.
  - unfold fits_window. by repeat constructor.
  - change (patience_of narrow_params) with 12000. unfold closed_turns.
    cbn [spaced]. unfold in_width. lia.
  - by vm_compute.
Defined.
