(* ===== verification/KcpFit.v ===== *)
(** * The receive window bounds messages

    [recv] returns a message only when all its fragments are queued, and the
    queue holds at most a receive window.  [send] compares with the sender's
    own window, so between ends with different windows a message can be
    accepted that never arrives: the hypothesis [fits_window] of
    [KcpLive.kcp_eventually_delivers] is necessary. *)

From S2P Require Import Prelude Bytes Kcp KcpWire KcpMessage KcpReceive KcpInv KcpFlush.
From S2P Require Import KcpStream KcpPair KcpTurn KcpLive.

(** ** Received messages *)

(** A prefix ends before an element, or contains it. *)
Lemma prefix_before {A} (l ms ms' : list A) (m : A) :
  l `prefix_of` ms ++ m :: ms' → l `prefix_of` ms ∨ m ∈ l.
Proof.
  revert l. induction ms as [|m1 ms IH]; intros [|x l] H; cbn [app] in *.
  - by left.
  - right. apply prefix_cons_inv_1 in H as ->. by left.
  - left. by apply prefix_nil.
  - apply prefix_cons_inv_1 in H as Hx. subst x. apply prefix_cons_inv_2 in H.
    destruct (IH l H) as [Hp|Hin]; [left; by apply prefix_cons|right; by right].
Qed.

(** The message [recv] returns was queued as a whole. *)
Lemma recv_fits conv pp pq sp sq hp p q size r k buf :
  half conv pp pq sp sq hp p q → KCP_OVERHEAD < KcpParams.mtu pq → 0 <= size < 2 ^ 64 →
  len (stream_of (mss_of pq) (sent q)) < 2 ^ 32 →
  Kcp.recv (node p) (vec size 0) = Ret (Ok r, k, buf) →
  fragment_count (mss_of pq) (take (Z.to_nat r) buf) <= KcpParams.receive_window pp.
Proof.
  intros Hh Hm Hsize Hlen E. pose proof (half_room _ _ _ _ _ _ _ _ Hh Hlen) as Hroom.
  destruct (recv_half _ _ _ _ _ _ _ _ Hm Hh size Hsize Hroom) as (r' & k' & buf' & E' & Hr).
  rewrite E in E'. apply Ret_inj in E' as [= <- <- <-].
  destruct Hr as (m & Em & Hpeek & hp' & [_ _ [_ [ms' Hms']]]). rewrite <- Em.
  change (received (p <| node := k |> <| received ::= λ l, l ++ [m] |>)) with (received p ++ [m]) in Hms'.
  destruct (half_static _ _ _ _ _ _ _ _ Hh) as (_ & _ & _ & Ew).
  destruct Hh as [[Hk _ _ _] Hsrc [Hhist _]].
  pose proof (received_prefix sq sp hp (node p) Hroom Hk) as Hpre.
  pose proof (source_log _ _ _ _ Hsrc) as Hlog. pose proof (source_counts _ _ _ _ Hsrc) as Hc.
  rewrite Hms', <- (assoc_L (++)) in Hlog, Hc. apply Forall_app in Hc as [_ Hc].
  rewrite fmap_app, Hhist in Hpre. rewrite stream_of_app in Hlog.
  destruct (next_message (mss_of pq) ([m] ++ ms') (Kcp.rcv_queue (node p)) (node p) r)
    as (m' & ms2 & [= <- _] & _ & Hcar); [unfold mss_of; lia|done|done| |done|].
  { eapply prefix_app_inv. by etrans. }
  destruct Hk as (_ & _ & _ & _ & n & [_ _ _ Hq _]).
  pose proof (length_message_fragments (mss_of pq) m) as Hl. rewrite <- Hcar, length_fmap in Hl.
  pose proof (first_message_split (Kcp.rcv_queue (node p))) as Hsplit.
  destruct (first_message (Kcp.rcv_queue (node p))) as [fm rest]. cbn [fst] in Hl.
  apply (f_equal len) in Hsplit. rewrite len_app in Hsplit. pose proof (len_nonneg rest). unfold len in *. lia.
Qed.

Definition received_fit (pp pq : KcpParams.t) (p : peer) : Prop :=
  Forall (λ m, fragment_count (mss_of pq) m <= KcpParams.receive_window pp) (received p).

Lemma peer_call_fits conv pp pq sp sq hp inbox c p q p' :
  half conv pp pq sp sq hp p q → KCP_OVERHEAD < KcpParams.mtu pq → call_ok c →
  len (stream_of (mss_of pq) (sent q)) < 2 ^ 32 →
  peer_call inbox c p = Ret p' → received_fit pp pq p → received_fit pp pq p'.
Proof.
  intros Hh Hm Hc Hlen E Hf. destruct c as [m|now| |now i|size|]; cbn [peer_call] in E.
  - apply bind_ret in E as ([r k] & _ & E). apply Ret_inj in E as <-. by destruct r.
  - apply bind_ret in E as ([r k] & _ & E). by apply Ret_inj in E as <-.
  - apply bind_ret in E as ([r k] & _ & E). by apply Ret_inj in E as <-.
  - destruct (inbox !! i); [|by apply Ret_inj in E as <-].
    apply bind_ret in E as ([r k] & _ & E). by apply Ret_inj in E as <-.
  - apply bind_ret in E as ([[[r|e] k] buf] & Er & E); apply Ret_inj in E as <-; [|done].
    apply Forall_app. split; [exact Hf|]. apply Forall_singleton. by eapply recv_fits.
  - by destruct (Kcp.take_output (node p)); apply Ret_inj in E as <-.
Qed.

Lemma run_calls_fits conv pa pb calls :
  KCP_OVERHEAD < KcpParams.mtu pa → KCP_OVERHEAD < KcpParams.mtu pb →
  ∀ sa sb ha hb a b a' b',
  pair_inv conv pa pb sa sb ha hb a b → Forall (λ sc, call_ok (sc.2)) calls →
  stream_len pa a + offered (mss_of pa) true calls < 2 ^ 32 →
  stream_len pb b + offered (mss_of pb) false calls < 2 ^ 32 →
  run_calls calls a b = Ret (a', b') → received_fit pa pb a → received_fit pb pa b →
  received_fit pa pb a' ∧ received_fit pb pa b'.
Proof.
  intros Ma Mb. unfold stream_len.
  induction calls as [|[side c] calls IH]; intros sa sb ha hb a b a' b' H Hok La Lb E Fa Fb;
    cbn [run_calls offered] in *.
  { by apply Ret_inj in E as [= <- <-]. }
  apply Forall_cons in Hok as [Hc Hok]. cbn [snd] in Hc.
  pose proof (offered_nonneg (mss_of pa) true calls).
  pose proof (offered_nonneg (mss_of pb) false calls).
  pose proof (call_segments_nonneg (mss_of pa) c). pose proof (call_segments_nonneg (mss_of pb) c).
  destruct side; cbn [eqb] in *; apply bind_ret in E as (z & Ez & E).
  - destruct (peer_call_inv conv pa pb sa sb ha hb a b c Mb H Hc ltac:(lia))
      as (a1 & sa1 & ha1 & E1 & [Hn _] & Hg).
    rewrite E1 in Ez. apply Ret_inj in Ez as ->.
    apply (IH sa1 sb ha1 hb z b); [done|done|lia|lia|done| |done].
    by apply (peer_call_fits conv pa pb sa sb ha (wire b) c a b z (pair_p _ _ _ _ _ _ _ _ _ H) Mb Hc
      ltac:(lia) E1).
  - apply pair_inv_sym in H.
    destruct (peer_call_inv conv pb pa sb sa hb ha b a c Ma H Hc ltac:(lia))
      as (b1 & sb1 & hb1 & E1 & [Hn _] & Hg).
    rewrite E1 in Ez. apply Ret_inj in Ez as ->. apply pair_inv_sym in Hn.
    apply (IH sa sb1 ha hb1 a z); [done|done|lia|lia|done|done|].
    by apply (peer_call_fits conv pb pa sb sa hb (wire a) c b a z (pair_p _ _ _ _ _ _ _ _ _ H) Ma Hc
      ltac:(lia) E1).
Qed.

(** C29: the receive window bounds messages.  Over every interleaving of calls,
    a message is received only if all its fragments fit in the receive window
    of the receiver; [send] looks at the sender's own window only, so a larger
    message is accepted there and, with everything after it, never arrives. *)
Theorem received_messages_fit conv pa pb calls a b :
  in_width 64 conv → params_ok pa → params_ok pb →
  Forall (λ sc, call_ok (sc.2)) calls →
  offered (mss_of pa) true calls < 2 ^ 32 → offered (mss_of pb) false calls < 2 ^ 32 →
  run_calls calls (new_peer conv pa) (new_peer conv pb) = Ret (a, b) →
  received_fit pa pb a ∧ received_fit pb pa b
  ∧ ∀ ms m ms', sent a = ms ++ m :: ms' →
      KcpParams.receive_window pb < fragment_count (mss_of pa) m → received b `prefix_of` ms.
Proof.
  intros Hc Ha Hb Hok Oa Ob E. pose proof (params_mtu _ Ha) as [Ma _].
  pose proof (params_mtu _ Hb) as [Mb _]. pose proof (new_pair_inv conv pa pb Hc Ha Hb) as H0.
  destruct (run_calls_fits conv pa pb calls Ma Mb [] [] [] [] _ _ a b H0 Hok Oa Ob E
    (Forall_nil_2 _) (Forall_nil_2 _)) as [Fa Fb].
  split; [done|]. split; [done|]. intros ms m ms' Hs Hbig.
  destruct (run_calls_inv conv pa pb calls [] [] [] [] _ _ Ma Mb H0 Hok)
    as (a1 & b1 & sa & sb & ha & hb & E1 & [_ [_ _ [_ Hp]]]); [done|done|].
  rewrite E in E1. apply Ret_inj in E1 as [= <- <-]. rewrite Hs in Hp.
  apply prefix_before in Hp as [Hp|Hin]; [done|].
  pose proof (proj1 (Forall_forall _ _) Fb m Hin) as Hfit. cbn in Hfit. lia.
Qed.

(** ** Witness *)

(** A message of four fragments for a window of two. *)
Definition wide_calls : list (bool * call) := [(true, CallSend [1]); (true, CallSend (vec 40 7))].

Definition wide : peer * peer := Eval vm_compute in
  match run_calls wide_calls (new_peer 5 demo_params) (new_peer 5 narrow_params) with
  | Ret ab => ab
  | _ => (new_peer 5 demo_params, new_peer 5 narrow_params)
  end.

Lemma received_messages_fit_witness :
  received_fit demo_params narrow_params wide.1 ∧ received_fit narrow_params demo_params wide.2
  ∧ ∀ ms m ms', sent wide.1 = ms ++ m :: ms' →
      2 < fragment_count (mss_of demo_params) m → received wide.2 `prefix_of` ms.
Proof.
  apply (received_messages_fit 5 demo_params narrow_params wide_calls wide.1 wide.2);
    [by vm_compute|exact demo_params_ok|apply narrow_live| |by vm_compute..].
  unfold wide_calls, call_ok. repeat constructor; cbn; by vm_compute.
Defined.

(** The sender accepts it, the network is perfect, and it does not arrive. *)
Example wide_message_blocks :
  sent wide.1 = [[1]; vec 40 7]
  ∧ (λ ab, received ab.2) <$> exchange closed_turns wide.1 wide.2 = Ret [[1]].
Proof. split; by vm_compute. Qed.
