(* ===== verification/KcpFacts.v ===== *)
(** * Further properties of a KCP endpoint

    Untrusted input, the timer of [check], and acknowledgements.  The
    invariant [kcp_inv any_segment] makes no assumption on the peer. *)

From S2P Require Import Prelude Bytes Kcp KcpWire KcpMessage KcpReceive KcpInv.
From S2P Require Import KcpFlush KcpHear KcpStream.

(** The peer may have sent anything that fits in a datagram. *)
Definition any_segment (j : Z) (s : Seg.t) : Prop := len (Seg.data s) < 2 ^ 32.

(** ** Timers *)

Lemma next_resend_spec now l : ∀ tm d,
  Kcp.next_resend now l tm = Some d → 0 <= tm →
  d <= tm ∧ Forall (λ s, d <= timediff (Seg.resendts s) now) l
  ∧ (Forall (λ s, 0 < timediff (Seg.resendts s) now) l).
Proof.
  induction l as [|s l IH]; intros tm d; cbn [Kcp.next_resend].
  - intros [= ->] _. split_and!; [lia|constructor..].
  - destruct (Z.leb_spec (timediff (Seg.resendts s) now) 0); [done|].
    pose proof (timediff_range (Seg.resendts s) now).
    rewrite wrap_id by lia. intros Hn Htm. apply IH in Hn as (Hd & Hl & Hp); [|lia].
    split_and!; [lia|constructor; [lia|done]|by constructor].
Qed.

Lemma timediff_shift a now e d :
  0 <= e < d → d <= timediff a now → timediff (now +{32} e) a < 0.
Proof.
  intros He Hd. pose proof (timediff_range a now) as Hr.
  unfold timediff in *. rewrite !as_i32_wrap in *.
  destruct (as_i32_mod (a - now)) as [k Hk].
  rewrite (as_i32_eq _ (e - as_i32 (a - now))).
  - rewrite as_i32_small; lia.
  - rewrite wrap_sub_l. apply wrap_eq_iff; [lia|]. exists k. lia.
Qed.

Lemma timediff_neg a b : - 2 ^ 31 < timediff a b → timediff b a = - timediff a b.
Proof.
  intros H. pose proof (timediff_range a b) as Hr. unfold timediff in *.
  rewrite !as_i32_wrap in *. destruct (as_i32_mod (a - b)) as [k Hk].
  rewrite (as_i32_eq _ (- as_i32 (a - b))).
  - rewrite as_i32_small; lia.
  - apply wrap_eq_iff; [lia|]. exists k. lia.
Qed.

(** ** Properties *)

Section facts.
Context `{St : Static}.

(** C11: no datagram, however malformed, makes [input] panic or loop, and the
    endpoint stays well-formed after it, accepted or not. *)
Theorem kcp_input_total slog hist self now bytes :
  kcp_inv any_segment slog hist self → in_width 32 now →
  bytes_ok bytes → len bytes < 2 ^ 32 →
  ∃ r self', Kcp.input self now bytes = Ret (r, self')
    ∧ kcp_inv any_segment slog hist self'
    ∧ (len bytes < KCP_OVERHEAD → r = Err KcpError.InvalidSegmentSize ∧ self' = self).
Proof.
  intros H Hnow Hb Hl.
  set (Q buf := bytes_ok buf ∧ len buf < 2 ^ 32).
  destruct (input_inv any_segment slog hist (Kcp.conv self) Q) with (self := self)
    (c := now) (buf := bytes) as (r & self' & E & Hinv & _); try done.
  - by intros buf [].
  - intros buf h rest bs rest' [Hbuf Hlen] Hge Hr Hs Hr'.
    destruct (read_header_returns (Kcp.conv self) buf Hge Hbuf)
      as [(e & E)|(h' & rest2 & E & [] & Hrest & Hlr & _)]; rewrite E in Hr; [done|].
    apply Ret_inj, Ok_inj in Hr. injection Hr as -> ->. unfold KCP_OVERHEAD in *.
    apply slice_len in Hs as Hsl. apply slice_len in Hr' as Hsl'.
    apply slice_bytes_ok in Hr' as Hok'; [|done].
    split; [|split; [done|lia]].
    intros _ j Hj Hsn. unfold any_segment. cbn. lia.
  - exists r, self'. split_and!; [done|done|]. intros Hlt.
    unfold Kcp.input in E. rewrite (proj2 (Z.ltb_lt _ _)) in E by done.
    by injection E as <- <-.
Qed.

(** C25: the delay [check] reports never oversleeps a timer: until it expires,
    neither a flush nor a retransmission is due, and it is at most the flush
    interval. *)
Theorem kcp_check_never_late self now e :
  Kcp.updated self = true → in_width 32 now →
  0 <= e < Kcp.check self now →
  Kcp.check self now <= KcpTiming.interval (Kcp.timing self)
  ∧ timediff (now +{32} e) (Kcp.ts_flush self) < 0
  ∧ Forall (λ s, timediff (now +{32} e) (Seg.resendts s) < 0) (Kcp.snd_buf self).
Proof.
  intros Hu Hnow He. unfold Kcp.check in *. rewrite Hu in *. cbn [negb] in *.
  destruct (_ || _) eqn:Eb.
  { replace (timediff now now) with 0 in He by (unfold timediff; by rewrite Z.sub_diag).
    cbn in He. lia. }
  bool_to_prop. destruct (Z.leb_spec 0 (timediff now (Kcp.ts_flush self))); [lia|].
  destruct (Kcp.next_resend _ _ _) as [tm|] eqn:En; [|lia].
  apply next_resend_spec in En as (Htm & Hl & _); [|done].
  pose proof (timediff_neg now (Kcp.ts_flush self) ltac:(lia)) as Hneg.
  rewrite wrap_id in * by lia.
  split_and!; [lia| |].
  - apply timediff_shift with (d := e + 1); lia.
  - eapply Forall_impl; [exact Hl|]. intros s Hs. cbn in Hs.
    apply timediff_shift with (d := e + 1); lia.
Qed.

(** An acknowledgement inside the send window removes exactly the segment it
    names, as long as the numbers of [snd_buf] have not wrapped around 2^32. *)
Lemma parse_ack_removes_exactly self lo sn :
  numbered_from lo (Kcp.snd_nxt self) (Kcp.snd_buf self) →
  Kcp.snd_una self <= sn < Kcp.snd_nxt self →
  in_width 31 (Kcp.snd_una self) → in_width 31 (Kcp.snd_nxt self) →
  Kcp.snd_buf (Kcp.parse_ack self sn)
  = List.filter (λ s, negb (Seg.sn s =? sn)) (Kcp.snd_buf self).
Proof.
  intros Hn Hsn Hu Hx. unfold in_width in *. unfold Kcp.parse_ack.
  rewrite <- (wrap_id 32 sn), <- (wrap_id 32 (Kcp.snd_una self)),
    <- (wrap_id 32 (Kcp.snd_nxt self)) by lia.
  rewrite !timediff_wrap by lia.
  rewrite (proj2 (Z.ltb_ge _ _)), (proj2 (Z.leb_gt _ _)) by lia. cbn [orb].
  rewrite wrap_id by lia. cbn. by eapply remove_acked_spec.
Qed.

End facts.

(** ** Acknowledgements across the wrap-around

    [parse_ack] compares sequence numbers as plain integers, unlike every other
    comparison of the file: past 2^32 the scan stops at the first older
    segment and the acknowledgement is ignored. *)

Definition wrapped_kcp : Kcp.t :=
  (Kcp.new 1 (KcpParams.Build_t 1400 32 32 true None false 1))
    <| Kcp.snd_una := U32_MAX |> <| Kcp.snd_nxt := 1 |>
    <| Kcp.snd_buf := [Seg.default <| Seg.sn := U32_MAX |>; Seg.default] |>.

Fact parse_ack_ignores_wrapped_number :
  timediff 0 (Kcp.snd_una wrapped_kcp) = 1
  ∧ Kcp.snd_buf (Kcp.parse_ack wrapped_kcp 0) = Kcp.snd_buf wrapped_kcp.
Proof. split; vm_compute; reflexivity. Qed.

(** ** Witnesses *)

Lemma kcp_input_total_witness :
  ∃ r self', Kcp.input demo_sender 3 (vec 30 255) = Ret (r, self')
    ∧ kcp_inv (H := connection 5 demo_params) any_segment [] [] self'
    ∧ (len (vec 30 255) < KCP_OVERHEAD →
       r = Err KcpError.InvalidSegmentSize ∧ self' = demo_sender).
Proof.
  apply kcp_input_total; [|by vm_compute| |by vm_compute].
  - apply (new_inv any_segment 5 demo_params); [by vm_compute|exact demo_params_ok].
  - apply bytes_ok_vec. by vm_compute.
Defined.

(** A sender with two segments in flight. *)
Definition demo_in_flight : Kcp.t :=
  demo_sender <| Kcp.updated := true |> <| Kcp.ts_flush := 100 |>
    <| Kcp.snd_una := 4 |> <| Kcp.snd_nxt := 6 |>
    <| Kcp.snd_buf := [Seg.default <| Seg.sn := 4 |> <| Seg.resendts := 110 |>;
                       Seg.default <| Seg.sn := 5 |> <| Seg.resendts := 99 |>] |>.

Lemma kcp_check_never_late_witness :
  Kcp.check demo_in_flight 98 <= 2
  ∧ timediff (98 +{32} 0) 100 < 0
  ∧ Forall (λ s, timediff (98 +{32} 0) (Seg.resendts s) < 0) (Kcp.snd_buf demo_in_flight).
Proof. apply (kcp_check_never_late demo_in_flight 98 0); by vm_compute. Defined.

Lemma parse_ack_removes_exactly_witness :
  Kcp.snd_buf (Kcp.parse_ack demo_in_flight 4)
  = [Seg.default <| Seg.sn := 5 |> <| Seg.resendts := 99 |>].
Proof.
  apply (parse_ack_removes_exactly demo_in_flight 4 4); try (by vm_compute).
  cbn. exists 4. split_and!; [lia|lia|done|]. exists 5. split_and!; [lia|lia|done|lia].
Defined.
