(* ===== verification/Routing.v ===== *)
(** * The route planner

    [routing.rs]: a layered graph of channels whose edges carry a virtual
    service queue, a loss estimate and a local cooldown.  A plan is the
    earliest-arrival path to the destination, optionally through a forced
    edge that is due for sampling. *)

From S2P Require Import Prelude Core.

Definition DEFAULT_ROUTE_CAPACITY_KBPS : Z := 50000.
Definition DEFAULT_ROUTE_LATENCY_MS : Z := 50.
Definition FIXED_ONE : Z := Z.shiftl 1 16.
Definition LOSS_ONE : Z := 65535.

Module RouteEdge.
Record t := {
  channel_id : ChannelId;
  next : Z;
  capacity_hint_kbps : Z;
  latency_hint_ms : Z;
}.
End RouteEdge.

Module RouteNode.
Record t := { edges : list RouteEdge.t }.
End RouteNode.

Module RouteGraph.
Record t := { nodes : list RouteNode.t }.
End RouteGraph.

Module RouteConfig.
Record t := {
  graph : RouteGraph.t;
  min_mtu : Z;
  feedback_interval_ms : Z;
  feedback_timeout_ms : Z;
}.
End RouteConfig.

Module EdgeId.
Record t := { node : Z; edge : Z }.

#[global] Instance eq_dec : EqDecision t.
Proof. solve_decision. Defined.
End EdgeId.

Module Edge.
Record t := {
  channel_id : ChannelId;
  next : Z;
  capacity_kbps : Z;
  latency_ms : Z;
  virtual_free_at : Z;
  loss : Z;
  cooldown_until : Z;
  retry_delay_ms : Z;
  last_sampled : option Z;
  last_observation_at : option Z;
}.

#[global] Instance eta_Edge : Eta t := λ e,
  Build_t (channel_id e) (next e) (capacity_kbps e) (latency_ms e)
    (virtual_free_at e) (loss e) (cooldown_until e) (retry_delay_ms e)
    (last_sampled e) (last_observation_at e).

(** The edge [RoutePlanner::new] creates for a configured one. *)
Definition of_config (edge : RouteEdge.t) : t :=
  {| channel_id := RouteEdge.channel_id edge;
     next := RouteEdge.next edge;
     capacity_kbps :=
       if RouteEdge.capacity_hint_kbps edge =? 0
       then DEFAULT_ROUTE_CAPACITY_KBPS else RouteEdge.capacity_hint_kbps edge;
     latency_ms :=
       if RouteEdge.latency_hint_ms edge =? 0
       then DEFAULT_ROUTE_LATENCY_MS else RouteEdge.latency_hint_ms edge;
     virtual_free_at := 0;
     loss := 0;
     cooldown_until := 0;
     retry_delay_ms := LOCAL_COOLDOWN_INITIAL_MS;
     last_sampled := None;
     last_observation_at := None |}.
End Edge.

(** [a < b] on [Option<u64>]: [None] is the least. *)
Definition option_ltb (a b : option Z) : bool :=
  match a, b with
  | _, None => false
  | None, Some _ => true
  | Some a, Some b => a <? b
  end.

(** [iter().position(p)], counted from [i]. *)
Fixpoint position {A} (p : A → bool) (l : list A) (i : Z) : option Z :=
  match l with
  | [] => None
  | x :: l' => if p x then Some i else position p l' (i + 1)
  end.

Module RoutePlanner.
Import EdgeId Edge.

Record t := { nodes : list (list Edge.t) }.

#[global] Instance eta_RoutePlanner : Eta t := λ r, Build_t (nodes r).

Definition new (config : RouteConfig.t) : t :=
  {| nodes :=
       (λ n, Edge.of_config <$> RouteNode.edges n) <$>
         RouteGraph.nodes (RouteConfig.graph config) |}.

(** [self.nodes[id.node][id.edge]], read and written. *)
Definition get_edge (self : t) (id : EdgeId.t) : comp Edge.t :=
  es ← index (nodes self) (node id);
  index es (edge id).

Definition set_edge (self : t) (id : EdgeId.t) (e : Edge.t) : comp t :=
  es ← index (nodes self) (node id);
  es ← store es (edge id) e;
  ns ← store (nodes self) (node id) es;
  Ret (self <| nodes := ns |>).

Definition edge_allowed (self : t) (id : EdgeId.t) (elapsed_ms : Z) : comp bool :=
  e ← get_edge self id;
  Ret (cooldown_until e <=? elapsed_ms).

Definition serialization_time (self : t) (id : EdgeId.t) (bytes : Z) : comp Z :=
  e ← get_edge self id;
  let capacity := capacity_kbps e in
  let loss := loss e in
  let penalty :=
    FIXED_ONE
      +{64} (15 *{64} loss *{64} loss *{64} FIXED_ONE) / wrap 64 (LOSS_ONE ^ 2) in
  q ← (if penalty =? 0 then Panic else Ret ((capacity *{64} FIXED_ONE) / penalty));
  let effective_capacity := q `max` 1 in
  div_ceil (bytes *{64} 8 *{64} FIXED_ONE) effective_capacity.

Definition latency (self : t) (id : EdgeId.t) : comp Z :=
  e ← get_edge self id;
  Ret (latency_ms e *{64} FIXED_ONE).

(** ** Sampling *)

(** One edge of [sampling_edge]: mark its target, keep the least recently
    sampled edge. *)
Definition sample_step (self : t) (elapsed_ms node edge : Z)
    (st : list bool * option EdgeId.t) : comp (list bool * option EdgeId.t) :=
  let '(reachable, selected) := st in
  let edge_id := EdgeId.Build_t node edge in
  allowed ← edge_allowed self edge_id elapsed_ms;
  if negb allowed then Ret (reachable, selected) else
  e ← get_edge self edge_id;
  reachable ← store reachable (next e) true;
  match selected with
  | None => Ret (reachable, Some edge_id)
  | Some s =>
      es ← get_edge self s;
      Ret (reachable,
           if option_ltb (last_sampled e) (last_sampled es)
           then Some edge_id else selected)
  end.

Definition sampling_edge (self : t) (elapsed_ms : Z) : comp (option EdgeId.t) :=
  let destination := len (nodes self) -{64} 1 in
  let reachable := vec (len (nodes self)) false in
  reachable ← store reachable 0 true;
  '(_, selected) ← for_each (seqZ 0 destination) (λ node st,
    r ← index st.1 node;
    if negb r then Ret st else
    es ← index (nodes self) node;
    for_each (seqZ 0 (len es)) (sample_step self elapsed_ms node) st)
    (reachable, None);
  Ret selected.

(** ** Paths *)

(** The tables of [calculate_path], indexed by node and state. *)
Record tables := {
  arrival : list (list Z);
  predecessor : list (list (option (Z * EdgeId.t)));
}.

(** [a[i][j]] and [a[i][j] = x]. *)
Definition index2 {A} (a : list (list A)) (i j : Z) : comp A :=
  r ← index a i; index r j.

Definition store2 {A} (a : list (list A)) (i j : Z) (x : A) : comp (list (list A)) :=
  r ← index a i; r ← store r j x; store a i r.

Definition state_or (state : Z) (forced : option EdgeId.t) (id : EdgeId.t) : Z :=
  Z.lor state (if bool_decide (forced = Some id) then 1 else 0).

(** Relax one edge out of a node reached at [node_arrival] in [state]. *)
Definition relax (self : t) (elapsed_ms scheduled_bytes : Z)
    (forced : option EdgeId.t) (node state node_arrival edge_index : Z)
    (tb : tables) : comp tables :=
  let edge_id := EdgeId.Build_t node edge_index in
  allowed ← edge_allowed self edge_id elapsed_ms;
  if negb allowed then Ret tb else
  e ← get_edge self edge_id;
  let next_state := state_or state forced edge_id in
  let start := node_arrival `max` virtual_free_at e in
  s ← serialization_time self edge_id scheduled_bytes;
  l ← latency self edge_id;
  let candidate := start +{64} s +{64} l in
  let next := Edge.next e in
  old ← index2 (arrival tb) next next_state;
  if candidate <? old then
    a ← store2 (arrival tb) next next_state candidate;
    p ← store2 (predecessor tb) next next_state (Some (state, edge_id));
    Ret (Build_tables a p)
  else Ret tb.

Definition relax_state (self : t) (elapsed_ms scheduled_bytes : Z)
    (forced : option EdgeId.t) (node state : Z) (tb : tables) : comp tables :=
  node_arrival ← index2 (arrival tb) node state;
  if node_arrival =? U64_MAX then Ret tb else
  es ← index (nodes self) node;
  for_each (seqZ 0 (len es))
    (relax self elapsed_ms scheduled_bytes forced node state node_arrival) tb.

(** The walk back over [predecessor]; the [?] in it leaves with [None]. *)
Fixpoint walk_back (fuel : nat) (predecessor : list (list (option (Z * EdgeId.t))))
    (nd state : Z) (path : list EdgeId.t) : comp (option (list EdgeId.t)) :=
  if negb (nd =? 0) then
    match fuel with
    | O => NoFuel
    | S n =>
        p ← index2 predecessor nd state;
        match p with
        | None => Ret None
        | Some (previous_state, e) =>
            walk_back n predecessor (node e) previous_state (path ++ [e])
        end
    end
  else Ret (Some (rev path)).

Definition forced_state (forced : option EdgeId.t) : Z :=
  if bool_decide (is_Some forced) then 1 else 0.

(** Nodes only point forward, so a path has fewer edges than nodes. *)
Definition calculate_path (self : t) (elapsed_ms scheduled_bytes : Z)
    (forced : option EdgeId.t) : comp (option (list EdgeId.t)) :=
  let n := len (nodes self) in
  let destination := n -{64} 1 in
  a ← store2 (vec n [U64_MAX; U64_MAX]) 0 0 (elapsed_ms *{64} FIXED_ONE);
  tb ← for_each (seqZ 0 destination) (λ nd tb,
    for_each (seqZ 0 (1 + forced_state forced)) (λ state tb,
      relax_state self elapsed_ms scheduled_bytes forced nd state tb) tb)
    (Build_tables a (vec n [None; None]));
  let state := forced_state forced in
  last ← index2 (arrival tb) destination state;
  if last =? U64_MAX then Ret None else
  walk_back (length (nodes self)) (predecessor tb) destination state [].

(** [reserve]: the virtual queues along the path, and the sampling mark. *)
Definition reserve_step (elapsed_ms scheduled_bytes : Z) (sample : bool)
    (id : EdgeId.t) (st : t * Z) : comp (t * Z) :=
  let '(self, cursor) := st in
  e ← get_edge self id;
  let start := cursor `max` virtual_free_at e in
  s ← serialization_time self id scheduled_bytes;
  let finished := start +{64} s in
  l ← latency self id;
  let e := e <| virtual_free_at := finished |> in
  let e := if sample then e <| last_sampled := Some elapsed_ms |> else e in
  self ← set_edge self id e;
  Ret (self, finished +{64} l).

Definition reserve (self : t) (path : list EdgeId.t) (elapsed_ms scheduled_bytes : Z)
    (sample : bool) : comp t :=
  '(self, _) ← for_each path (reserve_step elapsed_ms scheduled_bytes sample)
    (self, elapsed_ms *{64} FIXED_ONE);
  Ret self.

(** The channel ids of a path. *)
Fixpoint channels_of (self : t) (path : list EdgeId.t) : comp (list ChannelId) :=
  match path with
  | [] => Ret []
  | id :: path' =>
      e ← get_edge self id;
      rest ← channels_of self path';
      Ret (channel_id e :: rest)
  end.

Definition build_route_plan (self : t) (elapsed_ms scheduled_bytes : Z)
    (sample : bool) : comp (option (list ChannelId) * t) :=
  forced ← (if sample
            then s ← sampling_edge self elapsed_ms;
                 Ret (match s with Some e => Some (Some e) | None => None end)
            else Ret (Some None));
  match forced with
  | None => Ret (None, self)
  | Some forced =>
      path ← calculate_path self elapsed_ms scheduled_bytes forced;
      match path with
      | None => Ret (None, self)
      | Some edge_ids =>
          self ← reserve self edge_ids elapsed_ms scheduled_bytes sample;
          plan ← channels_of self edge_ids;
          Ret (Some plan, self)
      end
  end.

(** ** Observations *)

Definition note_local_send_failure (self : t) (channel : ChannelId) (elapsed_ms : Z)
    : comp t :=
  es ← index (nodes self) 0;
  edge ← unwrap (position (λ e, channel_id e =? channel) es 0);
  let id := EdgeId.Build_t 0 edge in
  e ← get_edge self id;
  let e :=
    if match last_observation_at e with
       | None => true | Some last => last <=? elapsed_ms end
    then e <| loss ::= λ l, l +{32} (LOSS_ONE -{32} l) / 2 |>
           <| last_observation_at := Some elapsed_ms |>
    else e in
  let e := e <| cooldown_until := elapsed_ms +{64} retry_delay_ms e |> in
  let e := e <| retry_delay_ms ::= λ r, (r *{64} 2) `min` LOCAL_COOLDOWN_MAX_MS |> in
  set_edge self id e.

(** The locals of [note_feedback]'s loop. *)
Record feedback_state := {
  fb_self : t;
  fb_node : Z;
  fb_first : option EdgeId.t;
  fb_accepted_first : bool;
}.

Definition feedback_step (observation_at : Z) (success : bool) (channel : ChannelId)
    (st : feedback_state) : comp feedback_state :=
  let self := fb_self st in
  let nd := fb_node st in
  es ← index (nodes self) nd;
  edge ← unwrap (position (λ e, channel_id e =? channel) es 0);
  let edge_id := EdgeId.Build_t nd edge in
  let is_first := bool_decide (fb_first st = None) in
  let first := match fb_first st with None => Some edge_id | Some f => Some f end in
  e ← get_edge self edge_id;
  let nd := next e in
  if match last_observation_at e with
     | Some last => observation_at <? last | None => false end
  then Ret (Build_feedback_state self nd first (fb_accepted_first st))
  else
    let e := e <| loss ::= λ l,
      if success then (l *{32} 3) / 4 else l +{32} (LOSS_ONE -{32} l) / 16 |> in
    let e := e <| last_observation_at := Some observation_at |> in
    self ← set_edge self edge_id e;
    Ret (Build_feedback_state self nd first (fb_accepted_first st || is_first)).

Definition note_feedback (self : t) (plan : list ChannelId) (observation_at : Z)
    (success : bool) : comp t :=
  st ← for_each plan (feedback_step observation_at success)
    (Build_feedback_state self 0 None false);
  let self := fb_self st in
  if success && fb_accepted_first st then
    first ← unwrap (fb_first st);
    e ← get_edge self first;
    set_edge self first
      (e <| cooldown_until := 0 |> <| retry_delay_ms := LOCAL_COOLDOWN_INITIAL_MS |>)
  else Ret self.

End RoutePlanner.
