(* ===== verification/RoutingPath.v ===== *)
(** * Earliest-arrival routing

    The specification is a path with the least arrival time among all paths of
    allowed edges (through the forced edge, when there is one).
    [calculate_path] refines it: it always returns, finds such a path exactly
    when one exists, and what it finds is optimal.  Times stay below 2^62, so
    nothing wraps, as long as the clock is below 2^40 ms and the virtual queues
    end before 2^60. *)

From S2P Require Import Prelude Core Routing.

Module RP := RoutePlanner.

(** ** The specification *)

(** Transmission time in 2^-16 ms, without machine arithmetic. *)
Definition penalty (e : Edge.t) : Z :=
  FIXED_ONE + 15 * Edge.loss e * Edge.loss e * FIXED_ONE / LOSS_ONE ^ 2.

Definition effective_capacity (e : Edge.t) : Z :=
  (Edge.capacity_kbps e * FIXED_ONE / penalty e) `max` 1.

Definition ser (e : Edge.t) (bytes : Z) : Z :=
  (bytes * 8 * FIXED_ONE + effective_capacity e - 1) / effective_capacity e.

Definition lat (e : Edge.t) : Z := Edge.latency_ms e * FIXED_ONE.

(** Arrival over an edge when its source is reached at [t]. *)
Definition arrive (e : Edge.t) (bytes t : Z) : Z :=
  t `max` Edge.virtual_free_at e + ser e bytes + lat e.

Definition allowed (e : Edge.t) (elapsed : Z) : Prop := Edge.cooldown_until e <= elapsed.

Section spec.
Context (self : RP.t) (elapsed bytes : Z) (forced : option EdgeId.t).

(** Allowed edges in sequence from node [a] to node [b]. *)
Fixpoint is_path (a : Z) (path : list EdgeId.t) (b : Z) : Prop :=
  match path with
  | [] => a = b
  | id :: rest =>
      EdgeId.node id = a ∧ ∃ e, RP.get_edge self id = Ret e ∧ allowed e elapsed
        ∧ is_path (Edge.next e) rest b
  end.

Fixpoint path_time (path : list EdgeId.t) (t : Z) : Z :=
  match path with
  | [] => t
  | id :: rest =>
      match RP.get_edge self id with
      | Ret e => path_time rest (arrive e bytes t)
      | _ => t
      end
  end.

(** The state of a path: has it used the forced edge? *)
Definition path_state (path : list EdgeId.t) : Z :=
  match forced with
  | Some f => if bool_decide (f ∈ path) then 1 else 0
  | None => 0
  end.
End spec.

(** ** Well-formed planners *)

Record edge_ok (n i : Z) (e : Edge.t) : Prop := {
  edge_forward : i < Edge.next e < n;
  edge_capacity : in_width 32 (Edge.capacity_kbps e);
  edge_latency : in_width 32 (Edge.latency_ms e);
  edge_loss : 0 <= Edge.loss e <= LOSS_ONE;
  edge_free : 0 <= Edge.virtual_free_at e;
}.

(** The graph is layered: every edge points to a later node. *)
Record graph_ok (self : RP.t) : Prop := {
  graph_nodes : 0 < len (RP.nodes self) <= 2 ^ 12;
  graph_edges : ∀ id e, RP.get_edge self id = Ret e →
    edge_ok (len (RP.nodes self)) (EdgeId.node id) e;
}.

(** The clock and the virtual queues are far from overflow. *)
Record in_time (self : RP.t) (elapsed bytes : Z) : Prop := {
  time_elapsed : 0 <= elapsed < 2 ^ 40;
  time_bytes : 0 <= bytes <= 2 ^ 17;
  time_free : ∀ id e, RP.get_edge self id = Ret e → Edge.virtual_free_at e < 2 ^ 60;
}.

(** ** Costs *)

Lemma penalty_range e :
  0 <= Edge.loss e <= LOSS_ONE → FIXED_ONE <= penalty e <= 16 * FIXED_ONE.
Proof.
  intros Hl. unfold penalty.
  assert (0 <= 15 * Edge.loss e * Edge.loss e * FIXED_ONE / LOSS_ONE ^ 2 <= 15 * FIXED_ONE);
    [|lia].
  change FIXED_ONE with 65536. unfold LOSS_ONE in *. split; [apply Z.div_pos; nia|].
  apply Z.div_le_upper_bound; [lia|]. nia.
Qed.

(** Loss costs at most a factor of sixteen. *)
Lemma effective_capacity_range e :
  0 <= Edge.loss e <= LOSS_ONE → 0 <= Edge.capacity_kbps e →
  (Edge.capacity_kbps e / 16) `max` 1 <= effective_capacity e
    <= Edge.capacity_kbps e `max` 1.
Proof.
  intros Hl Hc. pose proof (penalty_range e Hl) as Hp. unfold effective_capacity.
  change FIXED_ONE with 65536 in *.
  assert (Edge.capacity_kbps e / 16 <= Edge.capacity_kbps e * 65536 / penalty e
    <= Edge.capacity_kbps e); [|lia]. split.
  - apply Z.div_le_lower_bound; [lia|].
    pose proof (Z.mul_div_le (Edge.capacity_kbps e) 16 ltac:(lia)).
    pose proof (Z.div_pos (Edge.capacity_kbps e) 16 Hc ltac:(lia)). nia.
  - apply Z.div_le_upper_bound; [lia|]. nia.
Qed.

Lemma ceil_range a b : 0 <= a → 0 < b → 0 <= (a + b - 1) / b <= a.
Proof.
  intros Ha Hb. split; [apply Z.div_pos; lia|].
  destruct (Z.eq_dec a 0) as [->|]; [rewrite Z.div_small; lia|].
  apply Z.div_le_upper_bound; [lia|]. nia.
Qed.

Lemma ser_range e bytes :
  0 <= bytes → 0 <= ser e bytes <= bytes * 8 * FIXED_ONE.
Proof.
  intros Hb. unfold ser. change FIXED_ONE with 65536.
  apply ceil_range; [lia|]. unfold effective_capacity. lia.
Qed.

Lemma arrive_mono e bytes t t' : t <= t' → arrive e bytes t <= arrive e bytes t'.
Proof. intros H. unfold arrive. lia. Qed.

Lemma serialization_time_eq self id e bytes :
  RP.get_edge self id = Ret e → in_width 32 (Edge.capacity_kbps e) →
  0 <= Edge.loss e <= LOSS_ONE → 0 <= bytes < 2 ^ 40 →
  RP.serialization_time self id bytes = Ret (ser e bytes).
Proof.
  intros He Hc Hl Hb. unfold RP.serialization_time. rewrite He. cbn [mbind comp_bind].
  pose proof (penalty_range e Hl) as Hp. unfold penalty in Hp.
  unfold in_width in Hc. change FIXED_ONE with 65536 in *.
  assert (15 * Edge.loss e * Edge.loss e * 65536 <= 15 * 65535 * 65535 * 65536)
    by (unfold LOSS_ONE in *; nia).
  assert (0 <= 15 * Edge.loss e * Edge.loss e) by nia.
  rewrite (wrap_id 64 (15 * _)) by (unfold LOSS_ONE in *; lia).
  rewrite (wrap_id 64 (15 * _ * _)) by lia.
  rewrite (wrap_id 64 (15 * _ * _ * _)) by lia.
  rewrite (wrap_id 64 (LOSS_ONE ^ 2)) by (unfold LOSS_ONE; lia).
  rewrite (wrap_id 64 (65536 + _)) by lia.
  rewrite (proj2 (Z.eqb_neq _ _)) by lia. cbn [mbind comp_bind].
  rewrite (wrap_id 64 (Edge.capacity_kbps e * _)) by lia.
  rewrite (wrap_id 64 (bytes * 8)), (wrap_id 64 (bytes * 8 * 65536)) by lia.
  fold (penalty e). fold (effective_capacity e).
  unfold div_ceil. rewrite (proj2 (Z.eqb_neq _ _)); [done|].
  unfold effective_capacity. lia.
Qed.

Lemma latency_eq self id e :
  RP.get_edge self id = Ret e → in_width 32 (Edge.latency_ms e) →
  RP.latency self id = Ret (lat e).
Proof.
  intros He Hl. unfold RP.latency, lat. rewrite He. cbn [mbind comp_bind].
  unfold in_width in Hl. change FIXED_ONE with 65536. by rewrite wrap_id by lia.
Qed.

(** ** Tables *)

Definition at2 {A} `{Inhabited A} (a : list (list A)) (i j : Z) : A :=
  (a !!! Z.to_nat i) !!! Z.to_nat j.

(** [n] rows of two entries. *)
Definition shape {A} (n : Z) (a : list (list A)) : Prop :=
  len a = n ∧ Forall (λ r, length r = 2%nat) a.

Definition in_table (n i j : Z) : Prop := 0 <= i < n ∧ 0 <= j < 2.

Lemma shape_row {A} n (a : list (list A)) i :
  shape n a → 0 <= i < n → ∃ r, a !! Z.to_nat i = Some r ∧ length r = 2%nat.
Proof.
  intros [Hl Hr] Hi. destruct (lookup_lt_is_Some_2 a (Z.to_nat i)) as [r Hr']; [unfold len in *; lia|].
  exists r. split; [done|]. by eapply (proj1 (Forall_lookup _ _) Hr).
Qed.

Lemma index2_returns {A} `{Inhabited A} n (a : list (list A)) i j :
  shape n a → in_table n i j → RP.index2 a i j = Ret (at2 a i j).
Proof.
  intros Hs [Hi Hj]. destruct (shape_row n a i Hs Hi) as (r & Hr & Hl).
  unfold RP.index2, index, at2. rewrite (proj2 (Z.leb_le 0 i)) by lia.
  rewrite Hr. cbn [unwrap mbind comp_bind]. rewrite (proj2 (Z.leb_le 0 j)) by lia.
  rewrite (list_lookup_total_correct _ _ _ Hr).
  destruct (lookup_lt_is_Some_2 r (Z.to_nat j)) as [x Hx]; [lia|].
  rewrite Hx. by rewrite (list_lookup_total_correct _ _ _ Hx).
Qed.

Lemma store2_returns {A} `{Inhabited A} n (a : list (list A)) i j x :
  shape n a → in_table n i j →
  ∃ a', RP.store2 a i j x = Ret a' ∧ shape n a' ∧ at2 a' i j = x
    ∧ ∀ i' j', 0 <= i' → 0 <= j' → (i', j') ≠ (i, j) → at2 a' i' j' = at2 a i' j'.
Proof.
  intros Hs [Hi Hj]. destruct (shape_row n a i Hs Hi) as (r & Hr & Hl).
  assert (Z.to_nat i < length a)%nat as Hia by (by eapply lookup_lt_Some).
  unfold RP.store2, index. rewrite (proj2 (Z.leb_le 0 i)) by lia.
  rewrite Hr. cbn [unwrap mbind comp_bind].
  rewrite store_returns by (unfold len; lia). cbn [mbind comp_bind].
  rewrite store_returns by (unfold len; lia).
  eexists; split; [done|]. split_and!.
  - destruct Hs as [Hn Hf]. split; [unfold len in *; by rewrite length_insert|].
    apply Forall_insert; [done|]. by rewrite length_insert.
  - unfold at2. rewrite list_lookup_total_insert_eq by lia.
    by rewrite list_lookup_total_insert_eq by lia.
  - intros i' j' Hi' Hj' Hne. unfold at2.
    destruct (decide (i' = i)) as [->|Hni].
    + rewrite list_lookup_total_insert_eq by lia.
      rewrite (list_lookup_total_correct _ _ _ Hr).
      apply list_lookup_total_insert_ne. intros Heq. apply Hne. f_equal. lia.
    + rewrite list_lookup_total_insert_ne; [done|]. lia.
Qed.

Lemma shape_vec {A} n (r : list A) : 0 <= n → length r = 2%nat → shape n (vec n r).
Proof.
  intros Hn Hr. split; [by apply len_vec|]. by apply Forall_replicate.
Qed.

Lemma at2_vec {A} `{Inhabited A} n (r : list A) i j :
  0 <= i < n → at2 (vec n r) i j = r !!! Z.to_nat j.
Proof.
  intros Hi. unfold at2, vec. by rewrite lookup_total_replicate_2 by lia.
Qed.

(** ** States *)

Lemma state_or_bit fo st id :
  0 <= st < 2 →
  RP.state_or st fo id = if bool_decide (fo = Some id) then 1 else st.
Proof.
  intros H. unfold RP.state_or. assert (st = 0 ∨ st = 1) as [-> | ->] by lia;
    by destruct (bool_decide _).
Qed.

Lemma state_or_lt fo st id : 0 <= st < 2 → 0 <= RP.state_or st fo id < 2.
Proof. intros H. rewrite state_or_bit by done. destruct (bool_decide _); lia. Qed.

(** ** The relaxation invariant *)

Section dp.
Context (self : RP.t) (elapsed bytes : Z) (forced : option EdgeId.t).
Hypothesis Hgraph : graph_ok self.
Hypothesis Htime : in_time self elapsed bytes.

Abbreviation n := (len (RP.nodes self)) (only parsing).
Abbreviation T0 := (elapsed * FIXED_ONE) (only parsing).

(** An upper bound on the arrival at node [i]. *)
Definition horizon (i : Z) : Z := 2 ^ 60 + i * 2 ^ 49.

(** [R id st] holds of the edges already relaxed from their source in state
    [st]; [k] is the node being processed. *)
Record dp (R : EdgeId.t → Z → Prop) (k : Z) (tb : RP.tables) : Prop := {
  dp_arrival_shape : shape n (RP.arrival tb);
  dp_predecessor_shape : shape n (RP.predecessor tb);
  dp_source : at2 (RP.arrival tb) 0 0 = T0;
  dp_bound : ∀ i j, in_table n i j →
    at2 (RP.arrival tb) i j = U64_MAX ∨ 0 <= at2 (RP.arrival tb) i j <= horizon i;
  dp_sound : ∀ i j, in_table n i j → at2 (RP.arrival tb) i j ≠ U64_MAX →
    (i = 0 ∧ j = 0) ∨ ∃ st id e,
      at2 (RP.predecessor tb) i j = Some (st, id)
      ∧ RP.get_edge self id = Ret e ∧ allowed e elapsed ∧ Edge.next e = i
      ∧ 0 <= st < 2 ∧ j = RP.state_or st forced id ∧ EdgeId.node id <= k
      ∧ at2 (RP.arrival tb) (EdgeId.node id) st ≠ U64_MAX
      ∧ at2 (RP.arrival tb) i j
        = arrive e bytes (at2 (RP.arrival tb) (EdgeId.node id) st);
  dp_complete : ∀ id e st, RP.get_edge self id = Ret e → allowed e elapsed →
    R id st → 0 <= st < 2 → EdgeId.node id <= k →
    at2 (RP.arrival tb) (EdgeId.node id) st ≠ U64_MAX →
    at2 (RP.arrival tb) (Edge.next e) (RP.state_or st forced id)
      <= arrive e bytes (at2 (RP.arrival tb) (EdgeId.node id) st);
}.

(** The edges relaxed before edge [j] of node [k] in state [s]. *)
Definition before (k s j : Z) (id : EdgeId.t) (st : Z) : Prop :=
  EdgeId.node id < k ∧ st <= RP.forced_state forced
  ∨ EdgeId.node id = k ∧ (st < s ∨ st = s ∧ EdgeId.edge id < j).

Lemma get_edge_Ret id e :
  RP.get_edge self id = Ret e →
  0 <= EdgeId.node id < n ∧ 0 <= EdgeId.edge id.
Proof.
  unfold RP.get_edge. intros (es & Hes & He)%bind_ret.
  apply index_Ret in Hes as [Hn _]. apply index_Ret in He as [He _]. lia.
Qed.

Lemma state_or_range st id : 0 <= st < 2 → 0 <= RP.state_or st forced id < 2.
Proof. apply state_or_lt. Qed.

Lemma arrive_horizon id e t :
  RP.get_edge self id = Ret e → 0 <= t <= horizon (EdgeId.node id) →
  0 <= arrive e bytes t <= horizon (Edge.next e) ∧ horizon (Edge.next e) < 2 ^ 62.
Proof.
  intros He Ht. destruct Htime as [_ Hb Hfree]. specialize (Hfree id e He).
  destruct (graph_edges _ Hgraph id e He) as [Hf _ Hlat _ Hv].
  pose proof (graph_nodes _ Hgraph) as Hn. pose proof (get_edge_Ret id e He) as [Hid _].
  pose proof (ser_range e bytes ltac:(lia)) as Hs. unfold arrive, lat, horizon, in_width in *.
  change FIXED_ONE with 65536 in *. lia.
Qed.

(** Relaxing an edge adds exactly that edge to the relaxed ones. *)
Lemma dp_extend k s j e tb :
  RP.get_edge self (EdgeId.Build_t k j) = Ret e → dp (before k s j) k tb →
  (allowed e elapsed →
   at2 (RP.arrival tb) (Edge.next e) (RP.state_or s forced (EdgeId.Build_t k j))
     <= arrive e bytes (at2 (RP.arrival tb) k s)) →
  dp (before k s (j + 1)) k tb.
Proof.
  intros Hge [] Hnew. constructor; try done. intros id' e' st Hge' Hal HR Hst Hle Hm.
  destruct HR as [Hlt|[Heq [Hlt|[-> Hj]]]].
  - apply dp_complete0; try done. by left.
  - apply dp_complete0; try done. right. split; [done|]. by left.
  - destruct (decide (EdgeId.edge id' = j)) as [Hj'|].
    + assert (id' = EdgeId.Build_t k j) as -> by (destruct id'; cbn in *; by subst).
      rewrite Hge in Hge'. injection Hge' as <-. by apply Hnew.
    + apply dp_complete0; try done. right. split; [done|]. right. split; [done|lia].
Qed.

(** A table that differs from another in one entry. *)
Definition stored {A} `{Inhabited A} (a : list (list A)) (i j : Z) (x : A)
    (a' : list (list A)) : Prop :=
  at2 a' i j = x
  ∧ ∀ i' j', 0 <= i' → 0 <= j' → (i', j') ≠ (i, j) → at2 a' i' j' = at2 a i' j'.

(** An earlier arrival over an allowed edge of node [k] keeps the table right. *)
Lemma dp_store R k s id e na tb a p :
  RP.get_edge self id = Ret e → allowed e elapsed → EdgeId.node id = k → 0 <= s < 2 →
  dp R k tb → at2 (RP.arrival tb) k s = na → na ≠ U64_MAX →
  0 <= arrive e bytes na <= horizon (Edge.next e) →
  arrive e bytes na < at2 (RP.arrival tb) (Edge.next e) (RP.state_or s forced id) →
  shape n a → shape n p →
  stored (RP.arrival tb) (Edge.next e) (RP.state_or s forced id) (arrive e bytes na) a →
  stored (RP.predecessor tb) (Edge.next e) (RP.state_or s forced id) (Some (s, id)) p →
  dp R k (RP.Build_tables a p).
Proof.
  intros Hge Hal Hidk Hs [Hsa Hsp Hsrc Hbd Hsound Hcomp] Hna Hmax Hhor Hlt Hsa' Hsp'
    [Hnew Hold] [Hpnew Hpold].
  pose proof (edge_forward _ _ _ (graph_edges _ Hgraph id e Hge)) as Hfwd.
  pose proof (get_edge_Ret id e Hge) as [Hid _].
  (* Rows up to [k] are untouched. *)
  assert (Hsame : ∀ i' j', 0 <= i' <= k → 0 <= j' → at2 a i' j' = at2 (RP.arrival tb) i' j').
  { intros i' j' Hi' Hj'. apply Hold; [lia|lia|]. intros [=]. lia. }
  constructor; cbn [RP.arrival RP.predecessor]; try done.
  - rewrite Hsame by lia. done.
  - intros i j' Hij. destruct (decide ((i, j') = (Edge.next e, RP.state_or s forced id)))
      as [[= -> ->]|Hne]; [right; rewrite Hnew; done|].
    rewrite Hold by (done || apply Hij). by apply Hbd.
  - intros i j' Hij. destruct (decide ((i, j') = (Edge.next e, RP.state_or s forced id)))
      as [[= -> ->]|Hne].
    + intros _. right. exists s, id, e.
      rewrite Hpnew, Hnew, Hidk, Hsame by lia. rewrite Hna. split_and!; done || lia.
    + rewrite Hold by (done || apply Hij). intros Hm.
      destruct (Hsound i j' Hij Hm) as [|(st & id' & e' & Hp & Hg & Ha & Hn' & Hst & Hj & Hle & Hm' & Heq)];
        [by left|right]. exists st, id', e'.
      pose proof (get_edge_Ret id' e' Hg) as [Hid' _].
      rewrite Hpold by (done || apply Hij). rewrite !Hsame by lia. done.
  - intros id' e' st Hg Ha HR Hst Hle Hm. pose proof (get_edge_Ret id' e' Hg) as [Hid' _].
    rewrite (Hsame (EdgeId.node id') st) in Hm |- * by lia.
    specialize (Hcomp id' e' st Hg Ha HR Hst Hle Hm).
    destruct (decide ((Edge.next e', RP.state_or st forced id')
      = (Edge.next e, RP.state_or s forced id))) as [[= Hn1 Hs1]|Hne].
    + rewrite Hn1, Hs1 in Hcomp |- *. rewrite Hnew. lia.
    + rewrite Hold; [done|..|done].
      * pose proof (edge_forward _ _ _ (graph_edges _ Hgraph id' e' Hg)). lia.
      * by apply state_or_range.
Qed.

Lemma relax_dp k s j na tb :
  0 <= k < n → 0 <= s < 2 →
  dp (before k s j) k tb → at2 (RP.arrival tb) k s = na → na ≠ U64_MAX →
  is_Some (match RP.get_edge self (EdgeId.Build_t k j) with Ret e => Some e | _ => None end) →
  ∃ tb', RP.relax self elapsed bytes forced k s na j tb = Ret tb'
    ∧ dp (before k s (j + 1)) k tb' ∧ at2 (RP.arrival tb') k s = na.
Proof.
  intros Hk Hs Hdp Hna Hmax He. set (id := EdgeId.Build_t k j) in *.
  destruct (RP.get_edge self id) as [e| |] eqn:Hge; try by destruct He.
  unfold RP.relax. fold id. unfold RP.edge_allowed. rewrite Hge. cbn [mbind comp_bind].
  destruct (Z.leb_spec (Edge.cooldown_until e) elapsed) as [Hal|Hal]; cbn [negb].
  2:{ exists tb. split_and!; [done| |done]. eapply dp_extend; [done|done|]. unfold allowed. lia. }
  pose proof (graph_edges _ Hgraph id e Hge) as [Hfwd Hcap Hlatw Hloss Hfree].
  pose proof (time_bytes _ _ _ Htime) as Hb. cbn [EdgeId.node id] in Hfwd.
  rewrite (serialization_time_eq self id e) by (done || lia).
  rewrite (latency_eq self id e) by done. cbn [mbind comp_bind].
  destruct (dp_bound _ _ _ Hdp k s) as [Hx|Hrange]; [split; lia|congruence|].
  rewrite Hna in Hrange. destruct (arrive_horizon id e na Hge Hrange) as [Har Hhor].
  pose proof (ser_range e bytes ltac:(lia)) as Hser.
  assert (0 <= lat e) as Hlat0.
  { unfold lat. change FIXED_ONE with 65536. unfold in_width in Hlatw. lia. }
  assert (na `max` Edge.virtual_free_at e +{64} ser e bytes +{64} lat e
    = arrive e bytes na) as ->.
  { unfold arrive in *. rewrite (wrap_id 64 (_ + ser e bytes)) by lia. by rewrite wrap_id by lia. }
  assert (in_table n (Edge.next e) (RP.state_or s forced id)) as Htab
    by (split; [lia|by apply state_or_range]).
  rewrite (index2_returns n) by (done || apply Hdp). cbn [mbind comp_bind].
  destruct (Z.ltb_spec (arrive e bytes na)
    (at2 (RP.arrival tb) (Edge.next e) (RP.state_or s forced id))) as [Hlt|Hge'].
  2:{ exists tb. split_and!; [done| |done]. eapply dp_extend; [done|done|]. rewrite Hna.
      intros _. exact Hge'. }
  destruct (store2_returns n (RP.arrival tb) _ _ (arrive e bytes na)
    (dp_arrival_shape _ _ _ Hdp) Htab) as (a & -> & Hsa' & Hst). cbn [mbind comp_bind].
  destruct (store2_returns n (RP.predecessor tb) _ _ (Some (s, id))
    (dp_predecessor_shape _ _ _ Hdp) Htab) as (p & -> & Hsp' & Hpst). cbn [mbind comp_bind].
  pose proof Hst as [Hnew Hold].
  assert (at2 a k s = na) as Hks by (rewrite Hold; [done|lia..|intros [=]; lia]).
  eexists; split; [done|]. split; [|exact Hks].
  eapply dp_extend; [done| |intros _; cbn; fold id; by rewrite Hnew, Hks].
  by eapply (dp_store _ k s id e na).
Qed.

(** ** The loops *)

Lemma dp_weaken R R' k k' tb :
  (∀ id st, 0 <= EdgeId.node id < n → 0 <= EdgeId.edge id → 0 <= st < 2 →
     EdgeId.node id <= k' → R' id st →
     at2 (RP.arrival tb) (EdgeId.node id) st ≠ U64_MAX →
     (∃ e, RP.get_edge self id = Ret e) → R id st ∧ EdgeId.node id <= k) →
  k <= k' → dp R k tb → dp R' k' tb.
Proof.
  intros HR Hk []. constructor; try done.
  - intros i j Hij Hm. destruct (dp_sound0 i j Hij Hm)
      as [|(st & id & e & ? & ? & ? & ? & ? & ? & ? & ? & ?)]; [by left|right].
    exists st, id, e. split_and!; done || lia.
  - intros id e st Hg Ha HR' Hst Hle Hm.
    pose proof (get_edge_Ret id e Hg) as [Hid Hed].
    destruct (HR id st) as [HR1 Hle1]; [done..|by exists e|]. by apply dp_complete0.
Qed.

Lemma relax_state_dp k s tb :
  0 <= k < n → 0 <= s < 2 → dp (before k s 0) k tb →
  ∃ tb', RP.relax_state self elapsed bytes forced k s tb = Ret tb'
    ∧ dp (before k (s + 1) 0) k tb'.
Proof.
  intros Hk Hs Hdp. unfold RP.relax_state.
  rewrite (index2_returns n) by (apply Hdp || done). cbn [mbind comp_bind].
  destruct (Z.eqb_spec (at2 (RP.arrival tb) k s) U64_MAX) as [Hmax|Hmax].
  - exists tb. split; [done|]. eapply dp_weaken; [|reflexivity|exact Hdp].
    intros id st _ Hed Hst Hle [Hlt|[Heq HR]] Hm _; (split; [|done]); [by left|right].
    split; [done|]. left. destruct HR as [HR|[HR ?]]; [|lia].
    destruct (decide (st = s)) as [->|]; [by rewrite Heq in Hm|lia].
  - destruct (index_returns (RP.nodes self) k Hk) as (es & Hes & _). rewrite Hes.
    cbn [mbind comp_bind].
    destruct (for_range_total (λ j tb', dp (before k s j) k tb'
        ∧ at2 (RP.arrival tb') k s = at2 (RP.arrival tb) k s) 0 (len es)
      (RP.relax self elapsed bytes forced k s (at2 (RP.arrival tb) k s)) tb)
      as (tb' & Hr & Hdp' & _).
    + intros j t Hj [Ht Hat]. destruct (relax_dp k s j _ t Hk Hs Ht Hat Hmax)
        as (t' & ? & ? & ?).
      * unfold RP.get_edge. cbn [EdgeId.node EdgeId.edge]. rewrite Hes. cbn [mbind comp_bind].
        destruct (index_returns es j) as (e & -> & _); [lia|]. done.
      * by exists t'.
    + apply len_nonneg.
    + done.
    + exists tb'. split; [done|]. eapply dp_weaken; [|reflexivity|exact Hdp'].
      intros id st _ Hed Hst Hle [Hlt|[Heq HR]] Hm [e He]; (split; [|done]); [by left|right].
      split; [done|]. destruct HR as [HR|[HR ?]]; [|lia].
      destruct (decide (st = s)) as [->|]; [|left; lia]. right. split; [done|].
      unfold RP.get_edge in He. rewrite Heq, Hes in He. cbn [mbind comp_bind] in He.
      apply index_Ret in He as [He _]. lia.
Qed.

Lemma forced_state_range : 0 <= RP.forced_state forced < 2.
Proof. unfold RP.forced_state. case_bool_decide; lia. Qed.

Lemma relax_node_dp k tb :
  0 <= k < n → dp (before k 0 0) k tb →
  ∃ tb', for_each (seqZ 0 (1 + RP.forced_state forced))
      (λ state tb, RP.relax_state self elapsed bytes forced k state tb) tb = Ret tb'
    ∧ dp (before (k + 1) 0 0) (k + 1) tb'.
Proof.
  intros Hk Hdp. pose proof forced_state_range as Hfs.
  destruct (for_range_total (λ s tb', dp (before k s 0) k tb')
    0 (1 + RP.forced_state forced)
    (λ state tb, RP.relax_state self elapsed bytes forced k state tb) tb)
    as (tb' & Hr & Hdp').
  - intros s t Hs Ht. apply relax_state_dp; done || lia.
  - lia.
  - done.
  - exists tb'. split; [done|]. eapply dp_weaken; [| |exact Hdp']; [|lia].
    intros id st _ He Hst Hle [[? ?]|[? ?]] _ _; [|lia]. unfold before. lia.
Qed.

Definition initial_arrival : list (list Z) := vec n [U64_MAX; U64_MAX].

Lemma initial_dp a :
  RP.store2 initial_arrival 0 0 T0 = Ret a →
  dp (before 0 0 0) 0 (RP.Build_tables a (vec n [None; None])).
Proof.
  intros Ha. pose proof (graph_nodes _ Hgraph) as Hn.
  assert (shape n initial_arrival) as Hs by (apply shape_vec; [lia|done]).
  destruct (store2_returns n initial_arrival 0 0 T0 Hs) as (a' & Ha' & Hsa & Hat & Hold);
    [split; lia|]. rewrite Ha in Ha'. apply Ret_inj in Ha' as <-.
  assert (∀ i j, in_table n i j → (i, j) ≠ (0, 0) → at2 a i j = U64_MAX) as Hrest.
  { intros i j [Hi Hj] Hne. rewrite Hold by (done || lia).
    unfold initial_arrival. rewrite at2_vec by done.
    assert (j = 0 ∨ j = 1) as [-> | ->] by lia; done. }
  assert (0 <= T0 <= horizon 0).
  { pose proof (time_elapsed _ _ _ Htime). unfold horizon. change FIXED_ONE with 65536. lia. }
  constructor; cbn [RP.arrival RP.predecessor]; try done.
  - apply shape_vec; [lia|done].
  - intros i j Hij. destruct (decide ((i, j) = (0, 0))) as [[= -> ->]|Hne].
    + right. rewrite Hat. done.
    + left. by apply Hrest.
  - intros i j Hij Hm. destruct (decide ((i, j) = (0, 0))) as [[= -> ->]|Hne]; [by left|].
    by rewrite Hrest in Hm.
  - intros id e st Hg _ [[? ?]|[? [?|[? ?]]]] Hst _;
      pose proof (get_edge_Ret id e Hg) as [? ?]; lia.
Qed.

(** ** Reading the tables *)

Definition path_fold (st : Z) (path : list EdgeId.t) : Z :=
  foldl (λ s id, RP.state_or s forced id) st path.

Lemma path_fold_state path : path_fold 0 path = path_state forced path.
Proof.
  unfold path_fold, path_state. destruct forced as [f|].
  - assert (∀ st, 0 <= st < 2 → foldl (λ s id, RP.state_or s (Some f) id) st path
      = if bool_decide (f ∈ path) then 1 else st) as H; [|by rewrite H by lia].
    induction path as [|id path IH]; intros st Hst; cbn [foldl]; [done|].
    rewrite IH by (by apply state_or_lt). rewrite state_or_bit by done.
    destruct (decide (f = id)) as [<-|Hne].
    + rewrite (bool_decide_true (Some f = _)), (bool_decide_true (f ∈ _ :: _)) by (done || by left).
      by destruct (bool_decide _).
    + rewrite (bool_decide_false (Some f = _)) by congruence.
      rewrite (bool_decide_ext (f ∈ id :: path) (f ∈ path)); [done|].
      rewrite elem_of_cons. naive_solver.
  - induction path as [|id path IH]; cbn [foldl]; [done|].
    by rewrite state_or_bit, bool_decide_false by done.
Qed.

Lemma is_path_snoc a p id e b :
  is_path self elapsed a p (EdgeId.node id) → RP.get_edge self id = Ret e →
  allowed e elapsed → Edge.next e = b → is_path self elapsed a (p ++ [id]) b.
Proof.
  intros Hp Hg Ha Hn. revert a Hp. induction p as [|id' p IH]; intros a; cbn.
  - intros ->. split; [done|]. by exists e.
  - intros (Hi & e' & Hg' & Ha' & Hp). split; [done|]. exists e'. split_and!; try done.
    by apply IH.
Qed.

Lemma path_time_snoc p id e t :
  is_Some (match RP.get_edge self id with Ret e => Some e | _ => None end) →
  RP.get_edge self id = Ret e → Forall (λ i, ∃ e, RP.get_edge self i = Ret e) p →
  path_time self bytes (p ++ [id]) t = arrive e bytes (path_time self bytes p t).
Proof.
  intros _ Hg Hp. revert t. induction Hp as [|i p [e' He'] Hp IH]; intros t; cbn.
  - by rewrite Hg.
  - rewrite He'. apply IH.
Qed.

Lemma is_path_edges a p b :
  is_path self elapsed a p b → Forall (λ i, ∃ e, RP.get_edge self i = Ret e) p.
Proof.
  revert a; induction p as [|i p IH]; intros a; [constructor|].
  intros (_ & e & Hg & _ & Hp). constructor; [by exists e|by eapply IH].
Qed.

(** Walking back from a reached entry gives a path that explains it. *)
Lemma walk_back_spec R k tb fuel : dp R k tb → ∀ i j acc,
  in_table n i j → at2 (RP.arrival tb) i j ≠ U64_MAX → (Z.to_nat i <= fuel)%nat →
  ∃ p, RP.walk_back fuel (RP.predecessor tb) i j acc = Ret (Some (p ++ rev acc))
    ∧ is_path self elapsed 0 p i ∧ path_fold 0 p = j
    ∧ path_time self bytes p T0 = at2 (RP.arrival tb) i j.
Proof.
  intros Hdp. induction fuel as [|fuel IH]; intros i j acc Hij Hm Hf;
    cbn [RP.walk_back]; destruct (dp_sound _ _ _ Hdp i j Hij Hm)
      as [[-> ->]|(st & id & e & Hp & Hg & Ha & Hn & Hst & Hj & _ & Hm' & Heq)].
  1,3: exists []; cbn; split_and!; try done; symmetry; by apply Hdp.
  all: destruct (get_edge_Ret id e Hg) as [Hid _];
    pose proof (edge_forward _ _ _ (graph_edges _ Hgraph id e Hg)) as Hfwd.
  - lia.
  - rewrite (proj2 (Z.eqb_neq i 0)) by lia. cbn [negb].
    rewrite (index2_returns n) by (apply Hdp || done). rewrite Hp. cbn [mbind comp_bind].
    destruct (IH (EdgeId.node id) st (acc ++ [id])) as (p & Hw & Hpath & Hfold & Htm);
      [split; lia|done|lia|].
    exists (p ++ [id]). rewrite Hw, rev_app_distr, <- (assoc_L (++)). split_and!; [done|..].
    + by eapply is_path_snoc.
    + unfold path_fold. rewrite foldl_app. cbn. fold (path_fold 0 p). by rewrite Hfold, Hj.
    + rewrite (path_time_snoc p id e), Htm; [done|by rewrite Hg|done|by eapply is_path_edges].
Qed.

(** No path beats the table. *)
Lemma table_optimal k tb p : dp (before k 0 0) k tb → ∀ a st t,
  in_table n a st → st <= RP.forced_state forced →
  at2 (RP.arrival tb) a st ≠ U64_MAX → at2 (RP.arrival tb) a st <= t →
  ∀ b, is_path self elapsed a p b → b <= k →
  at2 (RP.arrival tb) b (path_fold st p) ≠ U64_MAX
  ∧ at2 (RP.arrival tb) b (path_fold st p) <= path_time self bytes p t.
Proof.
  intros Hdp. induction p as [|id p IH]; intros a st t Hin Hst Hm Ht b.
  - intros <- _. done.
  - intros (Hi & e & Hg & Ha & Hp) Hb. cbn [path_fold foldl path_time]. rewrite Hg.
    destruct (get_edge_Ret id e Hg) as [Hid Hed].
    pose proof (edge_forward _ _ _ (graph_edges _ Hgraph id e Hg)) as Hfwd.
    assert (Edge.next e <= b) as Hnb.
    { clear -Hp Hgraph. revert Hp. generalize (Edge.next e) as x.
      induction p as [|id' p IH]; intros x; [intros <-; lia|].
      intros (<- & e' & Hg' & _ & Hp). apply IH in Hp.
      pose proof (edge_forward _ _ _ (graph_edges _ Hgraph id' e' Hg')). lia. }
    destruct Hin as [_ Hst2]. subst a.
    pose proof (dp_complete _ _ _ Hdp id e st Hg Ha ltac:(left; lia) Hst2 ltac:(lia) Hm) as Hc.
    destruct (dp_bound _ _ _ Hdp (EdgeId.node id) st) as [|Hr]; [split; lia|done|].
    destruct (arrive_horizon id e _ Hg Hr) as [Har Hhor].
    pose proof (arrive_mono e bytes _ _ Ht) as Hmono.
    apply (IH (Edge.next e) (RP.state_or st forced id)); try done.
    + split; [lia|by apply state_or_range].
    + pose proof (state_or_range st id Hst2) as Hr'.
      destruct forced as [f|]; [change (RP.forced_state (Some f)) with 1; lia|].
      by rewrite state_or_bit, bool_decide_false by done.
    + unfold U64_MAX. lia.
    + lia.
Qed.

(** ** [calculate_path] *)

Definition uses_forced (p : list EdgeId.t) : Prop := ∀ f, forced = Some f → f ∈ p.

Lemma uses_forced_state p : uses_forced p ↔ path_fold 0 p = RP.forced_state forced.
Proof.
  rewrite path_fold_state. unfold uses_forced, path_state.
  destruct forced as [f|]; [|done]. change (RP.forced_state (Some f)) with 1.
  case_bool_decide; split; try done. by intros _ f' [= <-]. by intros Hf; destruct H; apply Hf.
Qed.

Lemma calculate_path_spec :
  ∃ r, RP.calculate_path self elapsed bytes forced = Ret r ∧
    match r with
    | Some p =>
        is_path self elapsed 0 p (n - 1) ∧ uses_forced p
        ∧ ∀ p', is_path self elapsed 0 p' (n - 1) → uses_forced p' →
            path_time self bytes p T0 <= path_time self bytes p' T0
    | None => ∀ p', is_path self elapsed 0 p' (n - 1) → ¬ uses_forced p'
    end.
Proof.
  pose proof (graph_nodes _ Hgraph) as Hn. pose proof (time_elapsed _ _ _ Htime) as He.
  pose proof forced_state_range as Hfs.
  unfold RP.calculate_path. rewrite (wrap_id 64 (n - 1)) by lia.
  rewrite (wrap_id 64 T0) by (change FIXED_ONE with 65536; lia).
  destruct (store2_returns n initial_arrival 0 0 T0) as (a & Ha & _);
    [apply shape_vec; [lia|done]|split; lia|].
  fold initial_arrival. rewrite Ha. cbn [mbind comp_bind].
  destruct (for_range_total (λ k tb, dp (before k 0 0) k tb) 0 (n - 1) (λ nd tb,
    for_each (seqZ 0 (1 + RP.forced_state forced)) (λ state tb,
      RP.relax_state self elapsed bytes forced nd state tb) tb)
    (RP.Build_tables a (vec n [None; None]))) as (tb & Htb & Hdp).
  { intros k t Hk Ht. apply relax_node_dp; [lia|done]. }
  { lia. }
  { by apply initial_dp. }
  rewrite Htb. cbn [mbind comp_bind]. rewrite Z.add_0_l in Hdp.
  assert (in_table n (n - 1) (RP.forced_state forced)) as Hin by (split; lia).
  rewrite (index2_returns n) by (apply Hdp || done). cbn [mbind comp_bind].
  assert (∀ p', is_path self elapsed 0 p' (n - 1) → uses_forced p' →
    at2 (RP.arrival tb) (n - 1) (RP.forced_state forced) ≠ U64_MAX
    ∧ at2 (RP.arrival tb) (n - 1) (RP.forced_state forced)
      <= path_time self bytes p' T0) as Hopt.
  { intros p' Hp' <-%uses_forced_state.
    apply (table_optimal (n - 1) tb p' Hdp 0 0 T0); try done; [split; lia|lia| |].
    - rewrite (dp_source _ _ _ Hdp). change FIXED_ONE with 65536. unfold U64_MAX. lia.
    - by rewrite (dp_source _ _ _ Hdp). }
  destruct (Z.eqb_spec (at2 (RP.arrival tb) (n - 1) (RP.forced_state forced)) U64_MAX)
    as [Hmax|Hm].
  - exists None. split; [done|]. intros p' Hp' Hu. by destruct (Hopt p' Hp' Hu).
  - destruct (walk_back_spec _ _ tb (length (RP.nodes self)) Hdp (n - 1)
      (RP.forced_state forced) [] Hin Hm) as (p & Hw & Hp & Hf & Ht);
      [unfold len; lia|]. cbn [rev] in Hw. rewrite app_nil_r in Hw.
    exists (Some p). split; [done|]. split_and!; [done|by apply uses_forced_state|].
    intros p' Hp' Hu. rewrite Ht. by apply Hopt.
Qed.
End dp.

(** ** Planners of a configuration *)

(** What the shell's route builder produces: a layered graph. *)
Definition config_ok (g : RouteGraph.t) : Prop :=
  0 < len (RouteGraph.nodes g) <= 2 ^ 12
  ∧ ∀ i node edge, RouteGraph.nodes g !! i = Some node → edge ∈ RouteNode.edges node →
      Z.of_nat i < RouteEdge.next edge < len (RouteGraph.nodes g)
      ∧ in_width 32 (RouteEdge.capacity_hint_kbps edge)
      ∧ in_width 32 (RouteEdge.latency_hint_ms edge).

Lemma new_edge config id e :
  RP.get_edge (RP.new config) id = Ret e →
  ∃ node edge, RouteGraph.nodes (RouteConfig.graph config) !! Z.to_nat (EdgeId.node id) = Some node
    ∧ 0 <= EdgeId.node id ∧ edge ∈ RouteNode.edges node ∧ e = Edge.of_config edge.
Proof.
  unfold RP.get_edge. intros (es & Hes & He)%bind_ret.
  apply index_Ret in Hes as [Hn Hes]. apply index_Ret in He as [_ He].
  cbn [RP.new RP.nodes] in Hes. apply list_lookup_fmap_Some in Hes as (node & -> & Hnode).
  apply list_lookup_fmap_Some in He as (edge & -> & Hedge).
  exists node, edge. split_and!; [done|lia|by eapply list_elem_of_lookup_2|done].
Qed.

Lemma new_graph_ok config :
  config_ok (RouteConfig.graph config) → graph_ok (RP.new config).
Proof.
  intros [Hlen Hedges].
  assert (len (RP.nodes (RP.new config)) = len (RouteGraph.nodes (RouteConfig.graph config)))
    as El by apply len_map.
  split; rewrite El; [done|].
  intros id e (node & edge & Hnode & Hid & Hin & ->)%new_edge.
  destruct (Hedges _ node edge Hnode Hin) as (Hnext & Hcap & Hlat).
  rewrite Z2Nat.id in Hnext by done.
  split; cbn; [done| | |unfold LOSS_ONE; lia|lia].
  - case_cmp; [by vm_compute|done].
  - case_cmp; [by vm_compute|done].
Qed.

Lemma new_in_time config elapsed bytes :
  0 <= elapsed < 2 ^ 40 → 0 <= bytes <= 2 ^ 17 → in_time (RP.new config) elapsed bytes.
Proof.
  intros He Hb. split; [done|done|].
  intros id e (node & edge & _ & _ & _ & ->)%new_edge. cbn. lia.
Qed.

(** ** Properties *)

(** C12: [calculate_path] always returns; it finds a path of allowed channels
    (through the forced one, if any) exactly when there is one, and no other
    such path delivers the packet earlier. *)
Theorem earliest_arrival_path self elapsed bytes forced :
  graph_ok self → in_time self elapsed bytes →
  let destination := len (RP.nodes self) - 1 in
  ∃ r, RP.calculate_path self elapsed bytes forced = Ret r ∧
    match r with
    | Some p =>
        is_path self elapsed 0 p destination ∧ uses_forced forced p
        ∧ ∀ p', is_path self elapsed 0 p' destination → uses_forced forced p' →
            path_time self bytes p (elapsed * FIXED_ONE)
              <= path_time self bytes p' (elapsed * FIXED_ONE)
    | None => ∀ p', is_path self elapsed 0 p' destination → ¬ uses_forced forced p'
    end.
Proof. intros Hg Ht. by apply calculate_path_spec. Qed.

(** The loss estimate divides the capacity of a channel by at most sixteen,
    so the time it takes to send a packet stays within those bounds, and no
    division by zero can occur. *)
Lemma serialization_time_bounds self id e bytes :
  RP.get_edge self id = Ret e → in_width 32 (Edge.capacity_kbps e) →
  0 <= Edge.loss e <= LOSS_ONE → 0 <= bytes < 2 ^ 40 →
  ∃ s, RP.serialization_time self id bytes = Ret s
    ∧ bytes * 8 * FIXED_ONE <= s * (Edge.capacity_kbps e `max` 1)
    ∧ (s - 1) * ((Edge.capacity_kbps e / 16) `max` 1) < bytes * 8 * FIXED_ONE
    ∧ 0 <= s.
Proof.
  intros He Hc Hl Hb. exists (ser e bytes). unfold in_width in Hc.
  split; [by apply serialization_time_eq|].
  pose proof (effective_capacity_range e Hl ltac:(lia)) as Hr.
  pose proof (ser_range e bytes ltac:(lia)) as Hs.
  unfold ser in *. set (c := effective_capacity e) in *.
  set (x := bytes * 8 * FIXED_ONE) in *.
  pose proof (Z.div_mod (x + c - 1) c ltac:(lia)) as Hd.
  pose proof (Z.mod_pos_bound (x + c - 1) c ltac:(lia)) as Hm.
  set (s := (x + c - 1) / c) in *. split_and!; [nia| |lia].
  assert (0 <= x) by (unfold x; change FIXED_ONE with 65536; lia).
  destruct (Z.le_gt_cases s 1); nia.
Qed.

(** ** Witnesses *)

(** A direct slow channel 2, and a fast detour over channels 1 and 3. *)
Definition demo_route : RouteConfig.t :=
  {| RouteConfig.graph := RouteGraph.Build_t
       [RouteNode.Build_t [RouteEdge.Build_t 1 1 0 10; RouteEdge.Build_t 2 2 100 90];
        RouteNode.Build_t [RouteEdge.Build_t 3 2 0 10]; RouteNode.Build_t []];
     RouteConfig.min_mtu := 1400; RouteConfig.feedback_interval_ms := 1000;
     RouteConfig.feedback_timeout_ms := 500 |}.

Lemma demo_route_ok : config_ok (RouteConfig.graph demo_route).
Proof.
  split; [by vm_compute|]. intros [|[|[|i]]] node edge [= <-] Hin; cbn in Hin;
    repeat (apply elem_of_cons in Hin as [->|Hin]; [by vm_compute|]);
    by apply elem_of_nil in Hin.
Qed.

Lemma earliest_arrival_path_witness :
  ∃ r, RP.calculate_path (RP.new demo_route) 7 1000 None = Ret r ∧
    match r with
    | Some p =>
        is_path (RP.new demo_route) 7 0 p 2 ∧ uses_forced None p
        ∧ ∀ p', is_path (RP.new demo_route) 7 0 p' 2 → uses_forced None p' →
            path_time (RP.new demo_route) 1000 p (7 * FIXED_ONE)
              <= path_time (RP.new demo_route) 1000 p' (7 * FIXED_ONE)
    | None => ∀ p', is_path (RP.new demo_route) 7 0 p' 2 → ¬ uses_forced None p'
    end.
Proof.
  apply (earliest_arrival_path (RP.new demo_route) 7 1000 None).
  - apply new_graph_ok, demo_route_ok.
  - apply new_in_time; lia.
Defined.

(** The detour is the one found. *)
Example demo_route_path :
  RP.calculate_path (RP.new demo_route) 7 1000 None
  = Ret (Some [EdgeId.Build_t 0 0; EdgeId.Build_t 1 0]).
Proof. by vm_compute. Qed.

Lemma serialization_time_bounds_witness :
  ∃ s, RP.serialization_time (RP.new demo_route) (EdgeId.Build_t 0 1) 1000 = Ret s
    ∧ 1000 * 8 * FIXED_ONE <= s * (100 `max` 1)
    ∧ (s - 1) * ((100 / 16) `max` 1) < 1000 * 8 * FIXED_ONE
    ∧ 0 <= s.
Proof.
  apply (serialization_time_bounds (RP.new demo_route) (EdgeId.Build_t 0 1)
    (Edge.of_config (RouteEdge.Build_t 2 2 100 90)) 1000); by vm_compute.
Defined.
