(* ===== verification/RoutingFacts.v ===== *)
(** * The planner's state: sampling, reservations and observations

    Sampling picks a reachable allowed edge that was sampled longest ago;
    reserving, failing and feedback change only the edges they name and keep
    the graph well-formed; the cooldown doubles from 50 ms to 200 ms. *)

From S2P Require Import Prelude Core Routing RoutingPath.

(** ** Reading and writing edges *)

Definition id_ok (id : EdgeId.t) : Prop := 0 <= EdgeId.node id ∧ 0 <= EdgeId.edge id.

Lemma get_edge_ok self id e : RP.get_edge self id = Ret e → id_ok id.
Proof.
  unfold RP.get_edge. intros (es & Hes & He)%bind_ret.
  apply index_Ret in Hes as [Hn _]. apply index_Ret in He as [He _]. split; lia.
Qed.

Lemma get_edge_lookup self id e :
  id_ok id → RP.get_edge self id = Ret e ↔
  ∃ es, RP.nodes self !! Z.to_nat (EdgeId.node id) = Some es
        ∧ es !! Z.to_nat (EdgeId.edge id) = Some e.
Proof.
  intros [Hn Hd]. unfold RP.get_edge, index.
  rewrite (proj2 (Z.leb_le 0 (EdgeId.node id)) Hn), (proj2 (Z.leb_le 0 (EdgeId.edge id)) Hd).
  destruct (RP.nodes self !! Z.to_nat (EdgeId.node id)) as [es|];
    cbn [unwrap mbind comp_bind]; [|split; [done|by intros (es & ? & _)]].
  destruct (es !! Z.to_nat (EdgeId.edge id)) as [e'|] eqn:He; cbn [unwrap]; split.
  - intros [= ->]. by exists es.
  - intros (es' & [= <-] & He'). congruence.
  - done.
  - intros (es' & [= <-] & He'). congruence.
Qed.

Lemma set_edge_spec self id e e' :
  RP.get_edge self id = Ret e →
  ∃ self', RP.set_edge self id e' = Ret self'
    ∧ RP.get_edge self' id = Ret e'
    ∧ (∀ id', id' ≠ id → RP.get_edge self' id' = RP.get_edge self id')
    ∧ len (RP.nodes self') = len (RP.nodes self).
Proof.
  intros Hg. pose proof (get_edge_ok _ _ _ Hg) as Hok.
  pose proof Hg as Hg'. apply get_edge_lookup in Hg' as (es & Hes & He); [|done].
  destruct Hok as [Hn Hd].
  pose proof (lookup_lt_Some _ _ _ Hes). pose proof (lookup_lt_Some _ _ _ He).
  unfold RP.set_edge, index. rewrite (proj2 (Z.leb_le 0 (EdgeId.node id)) Hn), Hes.
  cbn [unwrap mbind comp_bind].
  rewrite store_returns by (unfold len; lia). cbn [mbind comp_bind].
  rewrite store_returns by (unfold len; lia). cbn [mbind comp_bind].
  eexists; split; [done|]. split_and!.
  - apply get_edge_lookup; [done|]. cbn. eexists. split; [apply list_lookup_insert_eq; lia|].
    apply list_lookup_insert_eq. lia.
  - intros id' Hne. unfold RP.get_edge, index. cbn [RP.nodes update].
    destruct (Z.leb_spec 0 (EdgeId.node id')); [|done].
    destruct (decide (EdgeId.node id' = EdgeId.node id)) as [Heq|Hnn].
    + rewrite Heq. cbn. rewrite list_lookup_insert_eq, Hes by lia. cbn [unwrap mbind comp_bind].
      destruct (Z.leb_spec 0 (EdgeId.edge id')); [|done].
      rewrite list_lookup_insert_ne; [done|]. intros Hee. apply Hne.
      destruct id, id'. cbn in *. f_equal; lia.
    + cbn. rewrite list_lookup_insert_ne by lia. done.
  - cbn. unfold len. by rewrite length_insert.
Qed.

(** An update that keeps what the graph invariant needs. *)
Lemma set_edge_graph self id e e' self' :
  graph_ok self → RP.get_edge self id = Ret e →
  Edge.next e' = Edge.next e → Edge.capacity_kbps e' = Edge.capacity_kbps e →
  Edge.latency_ms e' = Edge.latency_ms e → 0 <= Edge.loss e' <= LOSS_ONE →
  0 <= Edge.virtual_free_at e' →
  RP.get_edge self' id = Ret e' →
  (∀ id', id' ≠ id → RP.get_edge self' id' = RP.get_edge self id') →
  len (RP.nodes self') = len (RP.nodes self) → graph_ok self'.
Proof.
  intros [Hn Hed] Hg H1 H2 H3 H4 H5 Hnew Hold Hlen.
  constructor; rewrite Hlen; [done|]. intros id' x Hx.
  destruct (decide (id' = id)) as [->|Hne].
  - rewrite Hnew in Hx. apply Ret_inj in Hx as <-. destruct (Hed id e Hg).
    constructor; rewrite ?H1, ?H2, ?H3; done.
  - apply Hed. by rewrite <- Hold.
Qed.

(** ** Sampling order *)

Lemma option_ltb_irrefl a : option_ltb a a = false.
Proof. destruct a; [apply Z.ltb_irrefl|done]. Qed.

Lemma option_ltb_select a b c :
  option_ltb a b = false → option_ltb c b = true → option_ltb a c = false.
Proof.
  destruct a, b, c; cbn; try done. intros H1 H2. bool_to_prop. apply Z.ltb_ge. lia.
Qed.

Section sampling.
Context (self : RP.t) (elapsed : Z).
Hypothesis Hgraph : graph_ok self.

Abbreviation n := (len (RP.nodes self)) (only parsing).

(** The edges looked at before edge [j] of node [k]. *)
Definition seen (k j : Z) (id : EdgeId.t) : Prop :=
  EdgeId.node id < k ∨ EdgeId.node id = k ∧ EdgeId.edge id < j.

Definition marked (reachable : list bool) (i : Z) : Prop :=
  reachable !! Z.to_nat i = Some true.

Record sampling (k j : Z) (st : list bool * option EdgeId.t) : Prop := {
  smp_len : len (st.1) = n;
  smp_source : marked (st.1) 0;
  smp_sound : ∀ i, 0 <= i → marked (st.1) i → ∃ p, is_path self elapsed 0 p i;
  smp_closed : ∀ id e, RP.get_edge self id = Ret e → allowed e elapsed →
    seen k j id → marked (st.1) (EdgeId.node id) →
    marked (st.1) (Edge.next e)
    ∧ ∃ s es, st.2 = Some s ∧ RP.get_edge self s = Ret es
        ∧ option_ltb (Edge.last_sampled e) (Edge.last_sampled es) = false;
  smp_selected : ∀ s, st.2 = Some s →
    ∃ es, RP.get_edge self s = Ret es ∧ allowed es elapsed
      ∧ marked (st.1) (EdgeId.node s);
}.

Lemma marked_insert reachable i i' :
  0 <= i → 0 <= i' → marked reachable i' → marked (<[Z.to_nat i := true]> reachable) i'.
Proof.
  intros Hi Hi' H. unfold marked in *. destruct (decide (i = i')) as [->|].
  - apply list_lookup_insert_eq. by eapply lookup_lt_Some.
  - by rewrite list_lookup_insert_ne by lia.
Qed.

Lemma seen_next k j id e id' e' :
  id = EdgeId.Build_t k j → RP.get_edge self id = Ret e →
  RP.get_edge self id' = Ret e' → seen k (j + 1) id' → seen k j id' ∨ id' = id ∧ e' = e.
Proof.
  intros -> Hg Hg' [?|[? ?]]; [by left; left|].
  destruct (decide (EdgeId.edge id' = j)) as [|]; [right|left; right; lia].
  assert (id' = EdgeId.Build_t k j) as -> by (destruct id'; cbn in *; by subst).
  split; [done|congruence].
Qed.

Lemma marked_inv reachable i i' :
  0 <= i → 0 <= i' → i' ≠ i → marked (<[Z.to_nat i := true]> reachable) i' → marked reachable i'.
Proof. intros ? ? ?. unfold marked. by rewrite list_lookup_insert_ne by lia. Qed.

(** An allowed edge of a reachable node reaches its target; any selection at
    least as old as the previous one and this edge will do. *)
Lemma sampling_extend k j id e reachable selected s es :
  0 <= k < n → id = EdgeId.Build_t k j → RP.get_edge self id = Ret e → allowed e elapsed →
  sampling k j (reachable, selected) → marked reachable k →
  let reach' := <[Z.to_nat (Edge.next e) := true]> reachable in
  RP.get_edge self s = Ret es → allowed es elapsed → marked reach' (EdgeId.node s) →
  option_ltb (Edge.last_sampled e) (Edge.last_sampled es) = false →
  (∀ s0 es0, selected = Some s0 → RP.get_edge self s0 = Ret es0 →
     ∀ a, option_ltb a (Edge.last_sampled es0) = false →
          option_ltb a (Edge.last_sampled es) = false) →
  sampling k (j + 1) (reach', Some s).
Proof.
  intros Hk Hid Hge Hal [Hl Hsrc Hsound Hclosed _] Hmk reach' Hgs Has Hms Hle Hold.
  cbn [fst snd] in *.
  assert (k < Edge.next e < n) as Hf
    by (pose proof (edge_forward _ _ _ (graph_edges _ Hgraph id e Hge)); by subst id).
  assert (∀ i, 0 <= i → marked reachable i → marked reach' i) as Hkeep
    by (intros; apply marked_insert; done || lia).
  constructor; cbn [fst snd].
  - unfold reach', len in *. by rewrite length_insert.
  - by apply Hkeep.
  - intros i Hi Hm. destruct (decide (i = Edge.next e)) as [->|Hne].
    + destruct (Hsound k ltac:(lia) Hmk) as [p Hp]. exists (p ++ [id]).
      subst id. by eapply (is_path_snoc self elapsed _ _ _ e).
    + apply Hsound; [done|]. eapply marked_inv; [|done..|exact Hm]. lia.
  - intros id' e' Hg' Ha' Hseen Hm'.
    destruct (seen_next k j id e id' e' Hid Hge Hg' Hseen) as [Hs'|[-> ->]].
    + pose proof (get_edge_ok _ _ _ Hg') as [Hi' _].
      assert (marked reachable (EdgeId.node id')) as Hm0.
      { eapply marked_inv; [| | |exact Hm']; destruct Hs' as [?|[? ?]]; lia. }
      destruct (Hclosed id' e' Hg' Ha' Hs' Hm0) as [Hn' (s0 & es0 & Hs0 & Hg0 & Hle0)].
      pose proof (edge_forward _ _ _ (graph_edges _ Hgraph id' e' Hg')).
      split; [by apply Hkeep; [lia|]|]. exists s, es. split_and!; try done. by eapply Hold.
    + split; [|by exists s, es]. apply list_lookup_insert_eq. unfold len in *. lia.
  - intros s' [= <-]. by exists es.
Qed.

Lemma sample_step_spec k j st :
  0 <= k < n → marked (st.1) k →
  is_Some (match RP.get_edge self (EdgeId.Build_t k j) with Ret e => Some e | _ => None end) →
  sampling k j st →
  ∃ st', RP.sample_step self elapsed k j st = Ret st' ∧ sampling k (j + 1) st'
    ∧ marked (st'.1) k.
Proof.
  intros Hk Hmk He Hs. destruct st as [reachable selected]. cbn [fst snd] in *.
  set (id := EdgeId.Build_t k j) in *.
  destruct (RP.get_edge self id) as [e| |] eqn:Hge; try by destruct He.
  unfold RP.sample_step. fold id. unfold RP.edge_allowed. rewrite Hge. cbn [mbind comp_bind].
  pose proof Hs as [Hl Hsrc Hsound Hclosed Hsel]. cbn [fst snd] in *.
  destruct (Z.leb_spec (Edge.cooldown_until e) elapsed) as [Hal|Hal]; cbn [negb].
  2:{ eexists; split; [done|]. split; [|done]. constructor; try done.
      intros id' e' Hg' Ha' Hseen.
      destruct (seen_next k j id e id' e' eq_refl Hge Hg' Hseen) as [?|[-> ->]].
      - by apply Hclosed.
      - unfold allowed in Ha'. lia. }
  pose proof (edge_forward _ _ _ (graph_edges _ Hgraph id e Hge)) as Hf. cbn in Hf.
  rewrite store_returns by lia. cbn [mbind comp_bind].
  pose proof (sampling_extend k j id e reachable selected) as Hend.
  specialize (λ s es, Hend s es Hk eq_refl Hge Hal Hs Hmk). cbn zeta in Hend.
  set (reach' := <[Z.to_nat (Edge.next e) := true]> reachable) in *.
  assert (∀ i, 0 <= i → marked reachable i → marked reach' i) as Hkeep
    by (intros; apply marked_insert; done || lia).
  destruct selected as [s|]; cbn [mbind comp_bind].
  - destruct (Hsel s eq_refl) as (es & Hgs & Has & Hms). rewrite Hgs. cbn [mbind comp_bind].
    pose proof (get_edge_ok _ _ _ Hgs) as [Hi' _].
    eexists; split; [done|]. split; [|by apply Hkeep; [lia|]].
    destruct (option_ltb (Edge.last_sampled e) (Edge.last_sampled es)) eqn:Hlt.
    + apply (Hend id e); try done; [by apply Hkeep; [cbn; lia|]|apply option_ltb_irrefl|].
      intros s0 es0 [= <-] Hg0 a Ha. rewrite Hgs in Hg0. apply Ret_inj in Hg0 as <-.
      by eapply option_ltb_select.
    + apply (Hend s es); try done; [by apply Hkeep|].
      intros s0 es0 [= <-] Hg0 a Ha. rewrite Hgs in Hg0. by apply Ret_inj in Hg0 as <-.
  - eexists; split; [done|]. split; [|by apply Hkeep; [lia|]].
    apply (Hend id e); try done; [by apply Hkeep; [cbn; lia|]|apply option_ltb_irrefl].
Qed.

Lemma sampling_next k st es :
  RP.nodes self !! Z.to_nat k = Some es → 0 <= k → sampling k (len es) st →
  sampling (k + 1) 0 st.
Proof.
  intros Hes Hk [? ? ? Hclosed ?]. constructor; try done.
  intros id e Hg Ha Hseen. apply Hclosed; try done.
  pose proof (get_edge_ok _ _ _ Hg) as Hok.
  destruct Hseen as [Hlt|[? ?]]; [|destruct Hok; lia].
  destruct (decide (EdgeId.node id = k)) as [Heq|]; [right|left; lia]. split; [done|].
  apply get_edge_lookup in Hg as (es' & Hes' & He); [|done]. rewrite Heq, Hes in Hes'.
  injection Hes' as <-. apply lookup_lt_Some in He. unfold len. lia.
Qed.

Lemma sampling_edge_spec :
  ∃ sel, RP.sampling_edge self elapsed = Ret sel ∧
    ∃ reachable, sampling (n - 1) 0 (reachable, sel).
Proof.
  pose proof (graph_nodes _ Hgraph) as Hn. unfold RP.sampling_edge.
  rewrite store_returns by (rewrite len_vec; lia). cbn [mbind comp_bind].
  rewrite (wrap_id 64 (n - 1)) by lia.
  set (body := λ (node : Z) (st : list bool * option EdgeId.t), _).
  destruct (for_range_total (λ k st, sampling k 0 st) 0 (n - 1) body
    (<[Z.to_nat 0:=true]> (vec n false), None)) as ([reach sel] & Hr & Hs).
  - intros k [reach sel] Hk Hs. unfold body. cbn [fst].
    pose proof (smp_len _ _ _ Hs) as Hl. cbn [fst] in Hl.
    destruct (index_returns reach k) as (r & -> & Hrk); [lia|]. cbn [mbind comp_bind].
    destruct (index_returns (RP.nodes self) k) as (es & Hes & Hlk); [lia|].
    destruct r; cbn [negb].
    + rewrite Hes. cbn [mbind comp_bind].
      destruct (for_range_total (λ j st, sampling k j st ∧ marked (st.1) k) 0 (len es)
        (RP.sample_step self elapsed k) (reach, sel)) as (st' & Hf & Hs' & _).
      * intros j t Hj [Ht Hm]. apply sample_step_spec; try done; [lia|].
        unfold RP.get_edge. cbn [EdgeId.node EdgeId.edge]. rewrite Hes. cbn [mbind comp_bind].
        destruct (index_returns es j) as (e & -> & _); [lia|]. done.
      * apply len_nonneg.
      * done.
      * exists st'. split; [done|]. eapply sampling_next; [done|lia|]. exact Hs'.
    + eexists; split; [done|]. eapply sampling_next; [done|lia|].
      destruct Hs as [? ? ? Hclosed ?]. constructor; try done.
      intros id e Hg Ha [?|[Heq ?]] Hm; [apply (Hclosed id e); by try left|].
      cbn [fst] in Hm. unfold marked in Hm. rewrite Heq, Hrk in Hm. done.
  - lia.
  - constructor; cbn [fst snd].
    + unfold len. rewrite length_insert. fold (len (vec n false)). apply len_vec. lia.
    + apply list_lookup_insert_eq. unfold vec. rewrite length_replicate. lia.
    + intros i Hi Hm. exists []. cbn. unfold marked in Hm.
      destruct (decide (i = 0)) as [->|]; [done|].
      rewrite list_lookup_insert_ne in Hm by lia.
      apply lookup_replicate in Hm as [Hm _]. done.
    + intros id e Hg _ Hseen _. pose proof (get_edge_ok _ _ _ Hg) as [? ?].
      destruct Hseen as [?|[? ?]]; lia.
    + done.
  - rewrite Hr. cbn [mbind comp_bind]. exists sel. split; [done|]. by exists reach.
Qed.

Lemma smp_reachable k j st p : ∀ a b,
  sampling k j st → marked (st.1) a → is_path self elapsed a p b →
  b <= k → marked (st.1) b.
Proof.
  induction p as [|id p IH]; intros a b Hs Ha; [by intros <- _|].
  intros (<- & e & Hg & Hal & Hp) Hb.
  assert (Edge.next e <= b) as Hnb.
  { clear -Hp Hgraph. revert Hp. generalize (Edge.next e) as x.
    induction p as [|id' p IH]; intros x; [intros <-; lia|].
    intros (<- & e' & Hg' & _ & Hp). apply IH in Hp.
    pose proof (edge_forward _ _ _ (graph_edges _ Hgraph id' e' Hg')). lia. }
  pose proof (edge_forward _ _ _ (graph_edges _ Hgraph id e Hg)).
  apply (IH (Edge.next e) b); try done.
  destruct (smp_closed _ _ _ Hs id e Hg Hal); [left; lia|done|done].
Qed.
End sampling.

(** ** Reservations *)

(** The fields a reservation leaves alone. *)
Definition same_channel (e e' : Edge.t) : Prop :=
  Edge.channel_id e' = Edge.channel_id e ∧ Edge.next e' = Edge.next e
  ∧ Edge.capacity_kbps e' = Edge.capacity_kbps e ∧ Edge.latency_ms e' = Edge.latency_ms e
  ∧ Edge.loss e' = Edge.loss e ∧ Edge.cooldown_until e' = Edge.cooldown_until e
  ∧ Edge.retry_delay_ms e' = Edge.retry_delay_ms e
  ∧ Edge.last_observation_at e' = Edge.last_observation_at e.

(** Two planners with the same channels, in which virtual queues only grew. *)
Definition reserved (self self' : RP.t) : Prop :=
  len (RP.nodes self') = len (RP.nodes self)
  ∧ (∀ id e, RP.get_edge self id = Ret e →
       ∃ e', RP.get_edge self' id = Ret e' ∧ same_channel e e')
  ∧ (∀ id, (∃ e', RP.get_edge self' id = Ret e') → ∃ e, RP.get_edge self id = Ret e).

Lemma reserved_refl self : reserved self self.
Proof. split_and!; [done| |done]. intros id e Hg. by exists e. Qed.

Lemma reserved_trans s1 s2 s3 : reserved s1 s2 → reserved s2 s3 → reserved s1 s3.
Proof.
  intros (Hl1 & Hf1 & Hb1) (Hl2 & Hf2 & Hb2). split_and!; [congruence| |].
  - intros id e Hg. destruct (Hf1 id e Hg) as (e1 & Hg1 & H1).
    destruct (Hf2 id e1 Hg1) as (e2 & Hg2 & H2). exists e2. split; [done|].
    unfold same_channel in *. destruct_and!. split_and!; congruence.
  - intros id H. by apply Hb1, Hb2.
Qed.

Lemma reserve_step_spec self elapsed bytes sample id cursor e :
  graph_ok self → 0 <= bytes < 2 ^ 40 → RP.get_edge self id = Ret e →
  ∃ self' cursor', RP.reserve_step elapsed bytes sample id (self, cursor)
      = Ret (self', cursor')
    ∧ graph_ok self' ∧ reserved self self'
    ∧ ∃ e', RP.get_edge self' id = Ret e'
        ∧ Edge.virtual_free_at e'
          = wrap 64 (cursor `max` Edge.virtual_free_at e + ser e bytes)
        ∧ Edge.last_sampled e' = (if sample then Some elapsed else Edge.last_sampled e).
Proof.
  intros Hgr Hb Hg. unfold RP.reserve_step. rewrite Hg. cbn [mbind comp_bind].
  destruct (graph_edges _ Hgr id e Hg) as [_ Hcap Hlat Hloss Hfree].
  rewrite (serialization_time_eq self id e) by done. cbn [mbind comp_bind].
  rewrite (latency_eq self id e) by done. cbn [mbind comp_bind].
  set (e1 := if sample then _ else _).
  destruct (set_edge_spec self id e e1 Hg) as (self' & -> & Hnew & Hold & Hlen).
  cbn [mbind comp_bind]. eexists _, _; split; [done|].
  assert (0 <= cursor `max` Edge.virtual_free_at e +{64} ser e bytes) as Hpos
    by (apply wrap_range; done).
  split_and!.
  - eapply (set_edge_graph self id e e1); try done; unfold e1; by destruct sample.
  - split_and!; [done| |].
    + intros id' x Hx. destruct (decide (id' = id)) as [->|Hne].
      * rewrite Hg in Hx. apply Ret_inj in Hx as <-. exists e1. split; [done|].
        unfold e1. by destruct sample.
      * exists x. split; [by rewrite Hold|done].
    + intros id' [x Hx]. destruct (decide (id' = id)) as [->|Hne]; [by exists e|].
      exists x. by rewrite <- Hold.
  - exists e1. split_and!; [done|unfold e1; by destruct sample..].
Qed.

Lemma reserve_loop elapsed bytes sample path : ∀ self cursor,
  graph_ok self → 0 <= bytes < 2 ^ 40 →
  Forall (λ id, ∃ e, RP.get_edge self id = Ret e) path →
  ∃ self' cursor',
    for_each path (RP.reserve_step elapsed bytes sample) (self, cursor) = Ret (self', cursor')
    ∧ graph_ok self' ∧ reserved self self'.
Proof.
  induction path as [|id path IH]; intros self cursor Hgr Hb Hp; cbn [for_each].
  { eexists _, _; split; [done|]. split; [done|apply reserved_refl]. }
  apply Forall_cons in Hp as [[e Hg] Hp].
  destruct (reserve_step_spec self elapsed bytes sample id cursor e Hgr Hb Hg)
    as (self1 & cursor1 & -> & Hgr1 & Hres1 & _). cbn [mbind comp_bind].
  destruct (IH self1 cursor1 Hgr1 Hb) as (self2 & cursor2 & -> & Hgr2 & Hres2).
  { eapply Forall_impl; [done|]. intros id' [e' He'].
    destruct Hres1 as (_ & Hf & _). destruct (Hf id' e' He') as (e'' & ? & _). by exists e''. }
  eexists _, _; split; [done|]. split; [done|by eapply reserved_trans].
Qed.

(** The channel ids along a path. *)
Fixpoint plan_of (self : RP.t) (path : list EdgeId.t) (plan : list Z) : Prop :=
  match path, plan with
  | [], [] => True
  | id :: path', c :: plan' =>
      (∃ e, RP.get_edge self id = Ret e ∧ Edge.channel_id e = c) ∧ plan_of self path' plan'
  | _, _ => False
  end.

Lemma channels_of_spec self path :
  Forall (λ id, ∃ e, RP.get_edge self id = Ret e) path →
  ∃ plan, RP.channels_of self path = Ret plan ∧ plan_of self path plan.
Proof.
  induction 1 as [|id path [e He] Hp (plan & Hc & Hplan)]; cbn; [by exists []|].
  rewrite He. cbn [mbind comp_bind]. rewrite Hc. cbn [mbind comp_bind].
  eexists; split; [done|]. cbn. split; [by exists e|done].
Qed.

Lemma plan_of_reserved self self' path plan :
  reserved self self' → Forall (λ id, ∃ e, RP.get_edge self id = Ret e) path →
  plan_of self' path plan → plan_of self path plan.
Proof.
  intros (_ & Hf & _) Hp. revert plan; induction Hp as [|id path [e He] Hp IH]; [done|].
  intros [|c plan]; cbn; [done|]. intros [(e' & He' & Hc) Hplan]. split; [|by apply IH].
  destruct (Hf id e He) as (e'' & He'' & Hs). exists e. split; [done|].
  rewrite He' in He''. apply Ret_inj in He'' as <-. destruct Hs as [<- _]. done.
Qed.

(** ** Plans *)

(** An allowed edge, reachable from the source, that was sampled longest ago
    among all such edges. *)
Definition stalest_edge (self : RP.t) (elapsed : Z) (f : EdgeId.t) : Prop :=
  ∃ e, RP.get_edge self f = Ret e ∧ allowed e elapsed
    ∧ (∃ p, is_path self elapsed 0 p (EdgeId.node f))
    ∧ ∀ id e' p, RP.get_edge self id = Ret e' → allowed e' elapsed →
        is_path self elapsed 0 p (EdgeId.node id) →
        option_ltb (Edge.last_sampled e') (Edge.last_sampled e) = false.

Lemma sampling_stalest self elapsed f :
  graph_ok self → RP.sampling_edge self elapsed = Ret (Some f) →
  stalest_edge self elapsed f.
Proof.
  intros Hgr Hs. destruct (sampling_edge_spec self elapsed Hgr) as (sel & Hs' & reach & Hsm).
  rewrite Hs in Hs'. apply Ret_inj in Hs' as <-.
  destruct (smp_selected _ _ _ _ _ Hsm f eq_refl) as (e & Hg & Ha & Hm).
  exists e. split_and!; [done|done| |].
  - eapply (smp_sound _ _ _ _ _ Hsm); [|exact Hm]. by destruct (get_edge_ok _ _ _ Hg).
  - intros id e' p Hg' Ha' Hp.
    pose proof (edge_forward _ _ _ (graph_edges _ Hgr id e' Hg')) as Hf.
    assert (marked reach (EdgeId.node id)) as Hmk
      by (eapply (smp_reachable self elapsed Hgr _ _ (reach, Some f)); [done|apply Hsm|done|lia]).
    destruct (smp_closed _ _ _ _ _ Hsm id e' Hg' Ha') as [_ (s & es & [= <-] & Hgs & Hle)];
      [left; lia|done|]. rewrite Hg in Hgs. by apply Ret_inj in Hgs as <-.
Qed.

(** Why a sampled message may have no route: no edge leaving the source may be
    used, or no path to the destination goes through the edge sampled longest
    ago. *)
Definition nothing_to_sample (self : RP.t) (elapsed : Z) : Prop :=
  (∀ id e, RP.get_edge self id = Ret e → EdgeId.node id = 0 → ¬ allowed e elapsed)
  ∨ ∃ f, stalest_edge self elapsed f
      ∧ ∀ p, is_path self elapsed 0 p (len (RP.nodes self) - 1) → f ∉ p.

(** The search finds an edge when it may use one at the source. *)
Lemma sampling_none self elapsed :
  graph_ok self → RP.sampling_edge self elapsed = Ret None →
  ∀ id e, RP.get_edge self id = Ret e → EdgeId.node id = 0 → ¬ allowed e elapsed.
Proof.
  intros Hgr Hs id e Hg Hn Ha.
  destruct (sampling_edge_spec self elapsed Hgr) as (sel & Hs' & reach & Hsm).
  rewrite Hs in Hs'. apply Ret_inj in Hs' as <-.
  pose proof (edge_forward _ _ _ (graph_edges _ Hgr id e Hg)) as Hf.
  destruct (smp_closed _ _ _ _ _ Hsm id e Hg Ha) as [_ (s & es & Hsel & _)];
    [left; lia|rewrite Hn; apply Hsm|done].
Qed.

Lemma is_path_get self elapsed a p b :
  is_path self elapsed a p b → Forall (λ id, ∃ e, RP.get_edge self id = Ret e) p.
Proof. apply is_path_edges. Qed.

Section properties.
Context (self : RP.t).
Hypothesis Hgraph : graph_ok self.

Abbreviation destination := (len (RP.nodes self) - 1) (only parsing).

(** Planning, case by case. *)
Lemma build_route_plan_spec elapsed bytes sample :
  in_time self elapsed bytes →
  ∃ r self', RP.build_route_plan self elapsed bytes sample = Ret (r, self')
    ∧ graph_ok self' ∧ reserved self self' ∧
    match r with
    | None => self' = self
        ∧ (if sample then nothing_to_sample self elapsed
           else ∀ p, ¬ is_path self elapsed 0 p destination)
    | Some plan => ∃ forced p,
        (if sample then ∃ f, forced = Some f ∧ stalest_edge self elapsed f
         else forced = None)
        ∧ plan_of self p plan ∧ is_path self elapsed 0 p destination
        ∧ uses_forced forced p
        ∧ ∀ p', is_path self elapsed 0 p' destination → uses_forced forced p' →
            path_time self bytes p (elapsed * FIXED_ONE)
              <= path_time self bytes p' (elapsed * FIXED_ONE)
    end.
Proof.
  intros Ht. unfold RP.build_route_plan.
  pose proof (time_bytes _ _ _ Ht) as Hb.
  set (m := if sample then _ else _).
  assert (∃ forced, m = Ret forced ∧
    match forced with
    | None => sample = true ∧ nothing_to_sample self elapsed
    | Some forced => if sample then ∃ f, forced = Some f ∧ stalest_edge self elapsed f
                     else forced = None
    end) as (forced & -> & Hforced).
  { unfold m. destruct sample; [|by exists (Some None)].
    destruct (sampling_edge_spec self elapsed Hgraph) as (sel & Hs & _). rewrite Hs.
    cbn [mbind comp_bind]. destruct sel as [f|].
    2:{ exists None. split_and!; [done|done|]. left. by apply sampling_none. }
    exists (Some (Some f)). split; [done|]. exists f. split; [done|].
    by apply sampling_stalest. }
  cbn [mbind comp_bind]. destruct forced as [forced|].
  2:{ destruct Hforced as [-> Hnone]. exists None, self.
      split_and!; [done|done|apply reserved_refl|done|done]. }
  destruct (calculate_path_spec self elapsed bytes forced Hgraph Ht) as (r & -> & Hr).
  cbn [mbind comp_bind]. destruct r as [p|].
  2:{ exists None, self. split_and!; [done|done|apply reserved_refl|done|].
      destruct sample.
      - destruct Hforced as (f & -> & Hf). right. exists f. split; [done|].
        intros p Hp Hin. apply (Hr p Hp). by intros ? [= <-].
      - intros p Hp. apply (Hr p Hp). by rewrite Hforced. }
  destruct Hr as (Hp & Hu & Hopt). pose proof (is_path_get _ _ _ _ _ Hp) as Hget.
  unfold RP.reserve.
  destruct (reserve_loop elapsed bytes sample p self (wrap 64 (elapsed * FIXED_ONE)))
    as (self1 & c1 & -> & Hgr1 & Hres1); [done|lia|done|]. cbn [mbind comp_bind].
  destruct (channels_of_spec self1 p) as (plan & -> & Hplan).
  { eapply Forall_impl; [done|]. intros id [e He]. destruct Hres1 as (_ & Hf & _).
    destruct (Hf id e He) as (e' & ? & _). by exists e'. }
  cbn [mbind comp_bind]. exists (Some plan), self1. split_and!; [done|done|done|].
  exists forced, p. split_and!; try done. by eapply plan_of_reserved.
Qed.

(** C7: planning never panics; a plan is the list of channels of an optimal path
    of allowed edges to the destination, through the stalest reachable edge
    when sampling; without a plan the planner is unchanged, and the destination
    was not reachable (when sampling: no edge of the source could be used, or no
    route leads through the edge sampled longest ago). *)
Theorem route_plan_correct elapsed bytes sample :
  in_time self elapsed bytes →
  ∃ r self', RP.build_route_plan self elapsed bytes sample = Ret (r, self')
    ∧ graph_ok self' ∧ reserved self self' ∧
    match r with
    | None => self' = self
        ∧ (if sample then nothing_to_sample self elapsed
           else ∀ p, ¬ is_path self elapsed 0 p destination)
    | Some plan => ∃ forced p,
        (if sample then ∃ f, forced = Some f ∧ stalest_edge self elapsed f
         else forced = None)
        ∧ plan_of self p plan ∧ is_path self elapsed 0 p destination
        ∧ uses_forced forced p
        ∧ ∀ p', is_path self elapsed 0 p' destination → uses_forced forced p' →
            path_time self bytes p (elapsed * FIXED_ONE)
              <= path_time self bytes p' (elapsed * FIXED_ONE)
    end.
Proof. apply build_route_plan_spec. Qed.

(** ** Local failures *)

Lemma position_spec {A} (q : A → bool) l i r :
  position q l i = Some r →
  i <= r ∧ ∃ x, l !! Z.to_nat (r - i) = Some x ∧ q x = true.
Proof.
  revert i; induction l as [|x l IH]; intros i; cbn; [done|].
  destruct (q x) eqn:Hq.
  - intros [= <-]. split; [done|]. exists x. by rewrite Z.sub_diag.
  - intros (Hi & y & Hy & Hqy)%IH. split; [lia|]. exists y. split; [|done].
    replace (Z.to_nat (r - i)) with (S (Z.to_nat (r - (i + 1)))) by lia. done.
Qed.

Lemma position_exists {A} (q : A → bool) l i x :
  x ∈ l → q x = true → ∃ r, position q l i = Some r.
Proof.
  intros Hin Hq. revert i Hin. induction l as [|y l IH]; intros i Hin; cbn.
  - by apply elem_of_nil in Hin.
  - destruct (q y) eqn:Hqy; [by eexists|]. apply elem_of_cons in Hin as [<-|Hin].
    + congruence.
    + by apply IH.
Qed.

(** C28: a local send failure on a known channel puts exactly one edge of the
    source node in cooldown: it may not be used before the delay ends, the
    delay doubles up to 200 ms, the loss estimate moves half of the way to one
    (unless a newer observation exists), and all other edges are untouched. *)
Theorem local_send_failure_backs_off channel now es e0 :
  RP.nodes self !! 0%nat = Some es → e0 ∈ es → Edge.channel_id e0 = channel →
  (∀ id e, RP.get_edge self id = Ret e → Edge.retry_delay_ms e ∈ [50; 100; 200]) →
  0 <= now < 2 ^ 63 →
  ∃ self' id e e', RP.note_local_send_failure self channel now = Ret self'
    ∧ RP.get_edge self id = Ret e ∧ EdgeId.node id = 0 ∧ Edge.channel_id e = channel
    ∧ RP.get_edge self' id = Ret e' ∧ graph_ok self'
    ∧ (∀ id', id' ≠ id → RP.get_edge self' id' = RP.get_edge self id')
    ∧ (∀ t, allowed e' t ↔ now + Edge.retry_delay_ms e <= t)
    ∧ Edge.retry_delay_ms e' = (2 * Edge.retry_delay_ms e) `min` 200
    ∧ (Edge.last_observation_at e = None ∨ (∃ t, Edge.last_observation_at e = Some t ∧ t <= now) →
        Edge.loss e' = Edge.loss e + (LOSS_ONE - Edge.loss e) / 2)
    ∧ (∀ t, Edge.last_observation_at e = Some t → now < t → Edge.loss e' = Edge.loss e).
Proof.
  intros Hes Hin Hch Hretry Hnow. unfold RP.note_local_send_failure.
  destruct (position_exists (λ e, Edge.channel_id e =? channel) es 0 e0 Hin) as [r Hr];
    [by apply Z.eqb_eq|].
  apply position_spec in Hr as Hpos. destruct Hpos as (Hr0 & e & He & Hce).
  apply Z.eqb_eq in Hce. rewrite Z.sub_0_r in He.
  unfold index. cbn [Z.leb Z.compare]. change (Z.to_nat 0) with 0%nat. rewrite Hes.
  cbn [unwrap mbind comp_bind]. rewrite Hr. cbn [unwrap mbind comp_bind].
  set (id := EdgeId.Build_t 0 r).
  assert (RP.get_edge self id = Ret e) as Hg.
  { apply get_edge_lookup; [split; cbn; lia|]. exists es. split; [done|]. done. }
  rewrite Hg. cbn [mbind comp_bind].
  pose proof (graph_edges _ Hgraph id e Hg) as [_ _ _ Hloss Hfree].
  unfold LOSS_ONE in *. pose proof (half_bound (65535 - Edge.loss e) ltac:(lia)) as Hhalf.
  assert (50 <= Edge.retry_delay_ms e <= 200) as Hre.
  { specialize (Hretry id e Hg). set_unfold in Hretry. lia. }
  assert (Edge.loss e +{32} (65535 -{32} Edge.loss e) / 2
    = Edge.loss e + (65535 - Edge.loss e) / 2) as Hl.
  { rewrite (wrap_id 32 (65535 - _)) by lia. rewrite wrap_id; lia. }
  match goal with |- context [RP.set_edge self id ?x] => set (e' := x) end.
  assert (Edge.loss e' = Edge.loss e ∨ Edge.loss e' = Edge.loss e + (65535 - Edge.loss e) / 2)
    as Hle.
  { unfold e'. destruct (Edge.last_observation_at e) as [t|]; cbn.
    - destruct (t <=? now); cbn; [by right|by left].
    - by right. }
  assert (Edge.cooldown_until e' = now + Edge.retry_delay_ms e) as Hcool.
  { unfold e'. destruct (Edge.last_observation_at e) as [t|]; cbn;
      [destruct (t <=? now)|]; cbn; rewrite wrap_id; lia. }
  assert (Edge.retry_delay_ms e' = (2 * Edge.retry_delay_ms e) `min` 200) as Hret.
  { unfold e'. destruct (Edge.last_observation_at e) as [t|]; cbn;
      [destruct (t <=? now)|]; cbn; rewrite wrap_id by lia; f_equal; lia. }
  destruct (set_edge_spec self id e e' Hg) as (self' & -> & Hnew & Hold & Hlen).
  exists self', id, e, e'. split_and!; try done.
  - eapply (set_edge_graph self id e e'); try done; unfold LOSS_ONE; try lia;
      unfold e'; destruct (Edge.last_observation_at e) as [t|]; cbn;
      try destruct (t <=? now); cbn; try done; lia.
  - intros t. unfold allowed. by rewrite Hcool.
  - intros Hobs. unfold e'. destruct Hobs as [->|(t & -> & Ht)]; cbn; [done|].
    rewrite (proj2 (Z.leb_le _ _)) by done. done.
  - intros t Ht Hlt. unfold e'. rewrite Ht, (proj2 (Z.leb_gt _ _)) by done. done.
Qed.
End properties.

(** ** Witnesses *)

Lemma route_plan_correct_witness :
  ∃ r self', RP.build_route_plan (RP.new demo_route) 7 1000 true = Ret (r, self')
    ∧ graph_ok self' ∧ reserved (RP.new demo_route) self' ∧
    match r with
    | None => self' = RP.new demo_route
        ∧ nothing_to_sample (RP.new demo_route) 7
    | Some plan => ∃ forced p,
        (∃ f, forced = Some f ∧ stalest_edge (RP.new demo_route) 7 f)
        ∧ plan_of (RP.new demo_route) p plan ∧ is_path (RP.new demo_route) 7 0 p 2
        ∧ uses_forced forced p
        ∧ ∀ p', is_path (RP.new demo_route) 7 0 p' 2 → uses_forced forced p' →
            path_time (RP.new demo_route) 1000 p (7 * FIXED_ONE)
              <= path_time (RP.new demo_route) 1000 p' (7 * FIXED_ONE)
    end.
Proof.
  apply (route_plan_correct (RP.new demo_route)
    (new_graph_ok demo_route demo_route_ok) 7 1000 true).
  apply new_in_time; lia.
Defined.

Lemma local_send_failure_backs_off_witness :
  ∃ self' id e e', RP.note_local_send_failure (RP.new demo_route) 2 9 = Ret self'
    ∧ RP.get_edge (RP.new demo_route) id = Ret e ∧ EdgeId.node id = 0
    ∧ Edge.channel_id e = 2
    ∧ RP.get_edge self' id = Ret e' ∧ graph_ok self'
    ∧ (∀ id', id' ≠ id → RP.get_edge self' id' = RP.get_edge (RP.new demo_route) id')
    ∧ (∀ t, allowed e' t ↔ 9 + Edge.retry_delay_ms e <= t)
    ∧ Edge.retry_delay_ms e' = (2 * Edge.retry_delay_ms e) `min` 200
    ∧ (Edge.last_observation_at e = None
       ∨ (∃ t, Edge.last_observation_at e = Some t ∧ t <= 9) →
        Edge.loss e' = Edge.loss e + (LOSS_ONE - Edge.loss e) / 2)
    ∧ (∀ t, Edge.last_observation_at e = Some t → 9 < t → Edge.loss e' = Edge.loss e).
Proof.
  apply (local_send_failure_backs_off (RP.new demo_route)
    (new_graph_ok demo_route demo_route_ok) 2 9
    (Edge.of_config <$> [RouteEdge.Build_t 1 1 0 10; RouteEdge.Build_t 2 2 100 90])
    (Edge.of_config (RouteEdge.Build_t 2 2 100 90))).
  - done.
  - apply list_elem_of_lookup_2 with (i := 1%nat). done.
  - done.
  - intros id e (node & edge & _ & _ & _ & ->)%new_edge. by left.
  - by vm_compute.
Defined.
