(* ===== verification/RoutingFeedback.v ===== *)
(** * Feedback on a route

    [note_feedback] walks a plan from the source and updates exactly the edges
    of the route it names.  The walk finds each edge by its channel id, so the
    channel ids of a node must be distinct. *)

From S2P Require Import Prelude Core Routing RoutingPath RoutingFacts.

(** ** Planners that differ edge by edge *)

(** [self'] is [self] with every edge changed by [f]. *)
Definition evolves (f : EdgeId.t → Edge.t → Edge.t) (self self' : RP.t) : Prop :=
  len (RP.nodes self') = len (RP.nodes self)
  ∧ ∀ id, RP.get_edge self' id = f id <$> RP.get_edge self id.

(** [f] keeps the graph. *)
Definition keeps_graph (f : EdgeId.t → Edge.t → Edge.t) : Prop :=
  ∀ id e, Edge.channel_id (f id e) = Edge.channel_id e ∧ Edge.next (f id e) = Edge.next e.

Definition distinct_channels (self : RP.t) : Prop :=
  ∀ id id' e e', RP.get_edge self id = Ret e → RP.get_edge self id' = Ret e' →
    EdgeId.node id = EdgeId.node id' → Edge.channel_id e = Edge.channel_id e' → id = id'.

(** Edges that follow each other from node [a] on. *)
Fixpoint chain (self : RP.t) (a : Z) (path : list EdgeId.t) : Prop :=
  match path with
  | [] => True
  | id :: rest => EdgeId.node id = a
      ∧ ∃ e, RP.get_edge self id = Ret e ∧ chain self (Edge.next e) rest
  end.

Lemma is_path_chain self elapsed path : ∀ a b,
  is_path self elapsed a path b → chain self a path.
Proof.
  induction path as [|id path IH]; intros a b; cbn; [done|].
  intros (Hn & e & He & _ & Hp). split; [done|]. exists e. split; [done|]. by eapply IH.
Qed.

Lemma evolves_refl self : evolves (λ _ e, e) self self.
Proof. split; [done|]. intros id. by destruct (RP.get_edge self id). Qed.

Lemma evolves_trans f g self1 self2 self3 :
  evolves f self1 self2 → evolves g self2 self3 →
  evolves (λ id e, g id (f id e)) self1 self3.
Proof.
  intros [Hl1 H1] [Hl2 H2]. split; [congruence|]. intros id. rewrite H2, H1.
  by destruct (RP.get_edge self1 id).
Qed.

Lemma evolves_ext f g self self' :
  (∀ id e, RP.get_edge self id = Ret e → f id e = g id e) →
  evolves f self self' → evolves g self self'.
Proof.
  intros Hfg [Hl H]. split; [done|]. intros id. rewrite H.
  destruct (RP.get_edge self id) as [e| |] eqn:E; [|done|done]. cbn. by rewrite (Hfg id e).
Qed.

Lemma evolves_get f self self' id e' :
  evolves f self self' → RP.get_edge self' id = Ret e' →
  ∃ e, RP.get_edge self id = Ret e ∧ e' = f id e.
Proof.
  intros [_ H] He'. rewrite H in He'. destruct (RP.get_edge self id) as [e| |]; try done.
  injection He' as <-. by exists e.
Qed.

Lemma evolves_chain f self self' path : ∀ a,
  evolves f self self' → keeps_graph f → chain self a path → chain self' a path.
Proof.
  induction path as [|id path IH]; intros a Hev Hk; cbn; [done|].
  intros (Hn & e & He & Hc). split; [done|]. exists (f id e). destruct (Hk id e) as [_ Hnext].
  split; [destruct Hev as [_ H]; by rewrite H, He|]. rewrite Hnext. by apply IH.
Qed.

Lemma evolves_plan f self self' path : ∀ plan,
  evolves f self self' → keeps_graph f → plan_of self path plan → plan_of self' path plan.
Proof.
  induction path as [|id path IH]; intros plan Hev Hk; destruct plan as [|c plan]; cbn;
    try done. intros [(e & He & Hc) Hp]. destruct (Hk id e) as [Hch _]. split; [|by apply IH].
  exists (f id e). split; [destruct Hev as [_ H]; by rewrite H, He|]. congruence.
Qed.

Lemma evolves_distinct f self self' :
  evolves f self self' → keeps_graph f → distinct_channels self → distinct_channels self'.
Proof.
  intros Hev Hk Hd id id' e1 e1' (e & He & ->)%(evolves_get f self) (e' & He' & ->)%(evolves_get f self);
    [|done|done].
  destruct (Hk id e) as [-> _], (Hk id' e') as [-> _]. by apply Hd.
Qed.

(** [set_edge] changes one edge. *)
Lemma set_edge_evolves self id e e' :
  RP.get_edge self id = Ret e →
  ∃ self', RP.set_edge self id e' = Ret self'
    ∧ evolves (λ i x, if decide (i = id) then e' else x) self self'.
Proof.
  intros Hg. destruct (set_edge_spec self id e e' Hg) as (self' & Hs & Hnew & Hold & Hlen).
  exists self'. split; [done|]. split; [done|]. intros i.
  destruct (decide (i = id)) as [->|Hne].
  - by rewrite Hnew, Hg.
  - rewrite Hold by done. by destruct (RP.get_edge self i).
Qed.

(** ** One observation of an edge *)

(** The edge was not observed after [observation_at]. *)
Definition fresh (observation_at : Z) (e : Edge.t) : bool :=
  match Edge.last_observation_at e with
  | Some last => negb (observation_at <? last)
  | None => true
  end.

Definition moved_loss (success : bool) (loss : Z) : Z :=
  if success then loss * 3 / 4 else loss + (LOSS_ONE - loss) / 16.

(** The effect of one observation on an edge. *)
Definition observe (observation_at : Z) (success : bool) (e : Edge.t) : Edge.t :=
  if fresh observation_at e
  then e <| Edge.loss := moved_loss success (Edge.loss e) |>
         <| Edge.last_observation_at := Some observation_at |>
  else e.

(** ... and on the first edge of a delivered packet, which leaves cooldown. *)
Definition observe_first (observation_at : Z) (success : bool) (e : Edge.t) : Edge.t :=
  if success && fresh observation_at e
  then (observe observation_at success e)
         <| Edge.cooldown_until := 0 |> <| Edge.retry_delay_ms := 50 |>
  else observe observation_at success e.

Lemma moved_loss_range success loss :
  0 <= loss <= LOSS_ONE → 0 <= moved_loss success loss <= LOSS_ONE.
Proof.
  intros H. unfold moved_loss, LOSS_ONE in *. destruct success.
  - split; [apply Z.div_pos; lia|]. apply Z.div_le_upper_bound; lia.
  - pose proof (Z.div_pos (65535 - loss) 16 ltac:(lia) ltac:(lia)).
    pose proof (Z.div_le_upper_bound (65535 - loss) 16 (65535 - loss) ltac:(lia) ltac:(lia)). lia.
Qed.

Lemma moved_loss_eq (success : bool) loss :
  0 <= loss <= LOSS_ONE →
  (if success then (loss *{32} 3) / 4 else loss +{32} (LOSS_ONE -{32} loss) / 16)
  = moved_loss success loss.
Proof.
  intros H. pose proof (moved_loss_range success loss H) as Hm.
  unfold moved_loss, LOSS_ONE in *. destruct success.
  - by rewrite wrap_id by lia.
  - rewrite (wrap_id 32 (65535 - _)) by lia. by rewrite wrap_id by lia.
Qed.

Lemma observe_edge_ok n i t s e : edge_ok n i e → edge_ok n i (observe t s e).
Proof.
  intros H. unfold observe. destruct (fresh t e); [|done]. destruct H.
  split; cbn; try done. by apply moved_loss_range.
Qed.

Lemma evolves_graph_ok f self self' :
  evolves f self self' → graph_ok self →
  (∀ n id e, edge_ok n (EdgeId.node id) e → edge_ok n (EdgeId.node id) (f id e)) →
  graph_ok self'.
Proof.
  intros [Hl Hev] [Hn He] Hf. split; rewrite Hl; [done|]. intros id e' He'.
  rewrite Hev in He'. destruct (RP.get_edge self id) as [e| |] eqn:E; try done.
  apply Ret_inj in He' as <-. by apply Hf, He.
Qed.

(** Observing the edges that satisfy a predicate. *)
Definition observe_where (P : EdgeId.t → bool) (t : Z) (s : bool) (id : EdgeId.t) (e : Edge.t) :=
  if P id then observe t s e else e.

Lemma observe_keeps P t s : keeps_graph (observe_where P t s).
Proof.
  intros id e. unfold observe_where, observe. destruct (P id), (fresh t e); done.
Qed.

Lemma observe_where_ok P t s self self' :
  evolves (observe_where P t s) self self' → graph_ok self → graph_ok self'.
Proof.
  intros Hev Hg. eapply evolves_graph_ok; [done|done|]. intros n id e He.
  unfold observe_where. destruct (P id); [by apply observe_edge_ok|done].
Qed.

(** ** The walk *)

Section walk.
Context (observation_at : Z) (success : bool).

Abbreviation step := (RP.feedback_step observation_at success) (only parsing).

Lemma feedback_step_spec st id e :
  graph_ok (RP.fb_self st) → distinct_channels (RP.fb_self st) →
  RP.get_edge (RP.fb_self st) id = Ret e → EdgeId.node id = RP.fb_node st →
  ∃ self', step (Edge.channel_id e) st
    = Ret (RP.Build_feedback_state self' (Edge.next e)
             (Some (default id (RP.fb_first st)))
             (RP.fb_accepted_first st
              || bool_decide (RP.fb_first st = None) && fresh observation_at e))
    ∧ evolves (observe_where (λ i, bool_decide (i = id)) observation_at success)
        (RP.fb_self st) self'.
Proof.
  intros Hg Hd He Hn. set (self := RP.fb_self st) in *.
  pose proof (get_edge_ok _ _ _ He) as Hok.
  pose proof (graph_edges _ Hg id e He) as [_ _ _ Hloss _].
  pose proof He as Hl. apply get_edge_lookup in Hl as (es & Hes & Hel); [|done].
  unfold RP.feedback_step. fold self. rewrite <- Hn. unfold index at 1.
  rewrite (proj2 (Z.leb_le 0 (EdgeId.node id)) (proj1 Hok)), Hes.
  cbn [unwrap mbind comp_bind].
  destruct (position_exists (λ x, Edge.channel_id x =? Edge.channel_id e) es 0 e)
    as [r Hr]; [by eapply list_elem_of_lookup_2|by apply Z.eqb_eq|].
  rewrite Hr. cbn [unwrap mbind comp_bind].
  apply position_spec in Hr as (Hr0 & x & Hx & Hq). rewrite Z.sub_0_r in Hx.
  apply Z.eqb_eq in Hq.
  assert (RP.get_edge self (EdgeId.Build_t (EdgeId.node id) r) = Ret x) as Hgx.
  { apply get_edge_lookup; [split; cbn; [apply Hok|lia]|]. by exists es. }
  assert (EdgeId.Build_t (EdgeId.node id) r = id) as Eid.
  { eapply Hd; [exact Hgx|exact He|done|done]. }
  rewrite Eid in *.
  rewrite He in Hgx. apply Ret_inj in Hgx as <-. rewrite He. cbn [mbind comp_bind].
  assert (match RP.fb_first st with Some f => Some f | None => Some id end
    = Some (default id (RP.fb_first st))) as -> by (by destruct (RP.fb_first st)).
  unfold fresh at 1. destruct (match Edge.last_observation_at e with
    | Some last => observation_at <? last | None => false end) eqn:Es.
  - exists self. split.
    + destruct (Edge.last_observation_at e) as [last|]; [|done].
      by rewrite Es, andb_false_r, orb_false_r.
    + eapply evolves_ext; [|apply evolves_refl]. intros i y Hy. unfold observe_where.
      case_bool_decide as Hi; [|done]. subst i. rewrite He in Hy. apply Ret_inj in Hy as <-.
      unfold observe, fresh. destruct (Edge.last_observation_at e) as [last|]; [|done].
      by rewrite Es.
  - assert (fresh observation_at e = true) as Hf.
    { unfold fresh. destruct (Edge.last_observation_at e) as [last|]; [by rewrite Es|done]. }
    match goal with |- context [RP.set_edge self id ?y] => set (e' := y) end.
    assert (e' = observe observation_at success e) as Ee.
    { unfold e', observe. rewrite Hf, <- (moved_loss_eq success) by done. by destruct success, e. }
    destruct (set_edge_evolves self id e e' He) as (self' & -> & Hev). cbn [mbind comp_bind].
    exists self'. split.
    + assert (match Edge.last_observation_at e with Some last => negb (observation_at <? last)
        | None => true end = true) as -> by exact Hf.
      by rewrite andb_true_r.
    + eapply evolves_ext; [|exact Hev]. intros i y Hy. unfold observe_where. cbn.
      destruct (decide (i = id)) as [->|Hne].
      * rewrite bool_decide_eq_true_2 by done. rewrite He in Hy. by apply Ret_inj in Hy as <-.
      * by rewrite bool_decide_eq_false_2.
Qed.

(** The nodes of a chain grow. *)
Lemma chain_lower self path : ∀ a,
  graph_ok self → chain self a path → Forall (λ id, a <= EdgeId.node id) path.
Proof.
  induction path as [|id path IH]; intros a Hg; cbn; [constructor|].
  intros (Hn & e & He & Hc). constructor; [lia|].
  destruct (graph_edges _ Hg id e He) as [Hf _ _ _ _].
  eapply Forall_impl; [by apply IH|]. intros i Hi. cbn in Hi. lia.
Qed.

Definition first_fresh (self : RP.t) (path : list EdgeId.t) : bool :=
  match path with
  | [] => false
  | id :: _ => match RP.get_edge self id with Ret e => fresh observation_at e | _ => false end
  end.

Lemma feedback_loop path : ∀ plan st,
  graph_ok (RP.fb_self st) → distinct_channels (RP.fb_self st) →
  chain (RP.fb_self st) (RP.fb_node st) path → plan_of (RP.fb_self st) path plan →
  ∃ st', for_each plan step st = Ret st'
    ∧ evolves (observe_where (λ i, bool_decide (i ∈ path)) observation_at success)
        (RP.fb_self st) (RP.fb_self st')
    ∧ RP.fb_first st' = match RP.fb_first st with Some f => Some f | None => head path end
    ∧ RP.fb_accepted_first st' = RP.fb_accepted_first st
        || bool_decide (RP.fb_first st = None) && first_fresh (RP.fb_self st) path.
Proof.
  induction path as [|id path IH]; intros plan st Hg Hd Hc Hp;
    destruct plan as [|c plan]; try done; cbn [for_each].
  { exists st. split_and!; [done| |by destruct (RP.fb_first st)|].
    - eapply evolves_ext; [|apply evolves_refl]. intros i e _. unfold observe_where.
      by rewrite bool_decide_eq_false_2 by set_solver.
    - cbn. by rewrite andb_false_r, orb_false_r. }
  destruct Hc as (Hn & e & He & Hc), Hp as [(e0 & He0 & <-) Hp].
  rewrite He in He0. apply Ret_inj in He0 as <-.
  pose proof (chain_lower _ path _ Hg Hc) as Hlow.
  destruct (graph_edges _ Hg id e He) as [Hf _ _ _ _].
  assert (id ∉ path) as Hid.
  { intros Hin. rewrite Forall_forall in Hlow. specialize (Hlow id Hin). lia. }
  destruct (feedback_step_spec st id e Hg Hd He Hn) as (self1 & -> & Hev). cbn [mbind comp_bind].
  pose proof (observe_keeps (λ i, bool_decide (i = id)) observation_at success) as Hk.
  destruct (IH plan (RP.Build_feedback_state self1 (Edge.next e)
    (Some (default id (RP.fb_first st))) (RP.fb_accepted_first st
              || bool_decide (RP.fb_first st = None) && fresh observation_at e)))
    as (st' & -> & Hev' & Hfirst & Hacc); cbn [RP.fb_self RP.fb_node RP.fb_first RP.fb_accepted_first] in *.
  - by eapply observe_where_ok.
  - by eapply evolves_distinct.
  - by eapply evolves_chain.
  - by eapply evolves_plan.
  - exists st'. split_and!; [done| | |].
    + eapply evolves_ext; [|by eapply evolves_trans]. intros i x Hx. unfold observe_where. cbn.
      destruct (decide (i = id)) as [->|Hne].
      * rewrite (bool_decide_eq_true_2 (id = id)), (bool_decide_eq_false_2 (id ∈ path)),
          bool_decide_eq_true_2 by (done || set_solver). done.
      * rewrite (bool_decide_eq_false_2 (i = id)) by done. cbn.
        rewrite (bool_decide_ext (i ∈ id :: path) (i ∈ path)) by set_solver. done.
    + rewrite Hfirst. by destruct (RP.fb_first st).
    + rewrite Hacc, (bool_decide_eq_false_2 (Some _ = None)) by done.
      cbn [andb first_fresh]. by rewrite orb_false_r, He.
Qed.

End walk.

(** ** Planners of a configuration *)

(** The channel ids of each node differ, as the shell assigns them. *)
Definition config_distinct (g : RouteGraph.t) : Prop :=
  ∀ i node, RouteGraph.nodes g !! i = Some node →
    NoDup (RouteEdge.channel_id <$> RouteNode.edges node).

Lemma new_distinct config :
  config_distinct (RouteConfig.graph config) → distinct_channels (RP.new config).
Proof.
  intros Hd id id' e e' He He' Hn Hc.
  pose proof (get_edge_ok _ _ _ He) as [Hi Hi2]. pose proof (get_edge_ok _ _ _ He') as [Hj Hj2].
  apply get_edge_lookup in He as (es & Hes & He); [|done].
  apply get_edge_lookup in He' as (es' & Hes' & He'); [|done].
  rewrite <- Hn, Hes in Hes'. injection Hes' as <-.
  cbn [RP.new RP.nodes] in Hes. apply list_lookup_fmap_Some in Hes as (node & -> & Hnode).
  apply list_lookup_fmap_Some in He as (c & -> & Hcc), He' as (c' & -> & Hcc').
  cbn in Hc.
  pose proof (NoDup_lookup _ (Z.to_nat (EdgeId.edge id)) (Z.to_nat (EdgeId.edge id'))
    (RouteEdge.channel_id c) (Hd _ _ Hnode)) as Hnd.
  rewrite !list_lookup_fmap, Hcc, Hcc' in Hnd. cbn in Hnd. rewrite <- Hc in Hnd.
  specialize (Hnd eq_refl eq_refl). destruct id, id'. cbn in *. f_equal; lia.
Qed.

(** ** Properties *)

(** What feedback about [path] makes of the edge [id]. *)
Definition after_feedback (path : list EdgeId.t) (t : Z) (success : bool)
    (id : EdgeId.t) (e : Edge.t) : Edge.t :=
  if negb (bool_decide (id ∈ path)) then e
  else if bool_decide (head path = Some id) then observe_first t success e
  else observe t success e.

Lemma after_feedback_keeps path t success : keeps_graph (after_feedback path t success).
Proof.
  intros id e. unfold after_feedback, observe_first, observe.
  destruct (bool_decide (id ∈ path)), (bool_decide (head path = Some id)), success,
    (fresh t e); done.
Qed.

(** Only the first edge of the route may leave its cooldown. *)
Lemma after_feedback_cools self path t success id e :
  chain self 0 path → EdgeId.node id ≠ 0 →
  Edge.cooldown_until (after_feedback path t success id e) = Edge.cooldown_until e.
Proof.
  intros Hc Hn. unfold after_feedback. destruct (negb _); [done|].
  case_bool_decide as Hh.
  - destruct path as [|i path]; [done|]. injection Hh as ->. by destruct Hc.
  - unfold observe. destruct (fresh t e), success; done.
Qed.

Lemma after_feedback_ok path t success n id e :
  edge_ok n (EdgeId.node id) e →
  edge_ok n (EdgeId.node id) (after_feedback path t success id e).
Proof.
  intros He. pose proof (observe_edge_ok n (EdgeId.node id) t success e He) as Ho.
  unfold after_feedback. destruct (bool_decide (id ∈ path)); [|done].
  cbn [negb]. destruct (bool_decide (head path = Some id)); [|done].
  unfold observe_first. destruct (_ && _); [|done]. by destruct Ho.
Qed.

Lemma note_feedback_evolves self path plan t success :
  graph_ok self → distinct_channels self → chain self 0 path → plan_of self path plan →
  ∃ self', RP.note_feedback self plan t success = Ret self'
    ∧ evolves (after_feedback path t success) self self'.
Proof.
  intros Hg Hd Hc Hp. unfold RP.note_feedback.
  destruct (feedback_loop t success path plan (RP.Build_feedback_state self 0 None false)
    Hg Hd Hc Hp) as (st & -> & Hev & Hfirst & Hacc). cbn [mbind comp_bind].
  cbn [RP.fb_self RP.fb_first RP.fb_accepted_first] in *.
  rewrite (bool_decide_eq_true_2 (None = None)) in Hacc by done. cbn [orb andb] in Hacc.
  destruct (success && RP.fb_accepted_first st) eqn:E.
  - apply andb_true_iff in E as [-> E]. rewrite Hacc in E.
    destruct path as [|id path]; [done|]. cbn [first_fresh] in E.
    destruct (RP.get_edge self id) as [e| |] eqn:He; [|done|done].
    rewrite Hfirst. cbn [head unwrap mbind comp_bind].
    assert (RP.get_edge (RP.fb_self st) id = Ret (observe t true e)) as He'.
    { destruct Hev as [_ ->]. rewrite He. cbn. unfold observe_where.
      by rewrite bool_decide_eq_true_2 by set_solver. }
    rewrite He'. cbn [mbind comp_bind].
    match goal with |- context [RP.set_edge _ id ?y] => set (e' := y) end.
    destruct (set_edge_evolves _ _ _ e' He') as (self' & -> & Hev').
    exists self'. split; [done|].
    eapply evolves_ext; [|eapply evolves_trans; [exact Hev|exact Hev']].
    intros i x Hx. unfold observe_where, after_feedback. cbn.
    destruct (decide (i = id)) as [->|Hne].
    + rewrite He in Hx. apply Ret_inj in Hx as <-.
      rewrite !bool_decide_eq_true_2 by (done || set_solver). cbn.
      unfold observe_first. by rewrite E.
    + rewrite (bool_decide_eq_false_2 (Some id = Some i)) by congruence.
      by destruct (bool_decide (i ∈ id :: path)).
  - exists (RP.fb_self st). split; [done|].
    eapply evolves_ext; [|exact Hev]. intros i x Hx. unfold observe_where, after_feedback.
    destruct (bool_decide (i ∈ path)); [|done]. cbn [negb].
    case_bool_decide as Hh; [|done]. unfold observe_first.
    destruct path as [|id path]; [done|]. injection Hh as ->. cbn [first_fresh] in Hacc.
    rewrite Hx in Hacc. rewrite <- Hacc, E. done.
Qed.

(** C14: feedback for a plan always returns and changes exactly the edges of the
    route the plan names: each one not observed later moves its loss estimate a
    quarter down or a sixteenth of the way up and records the observation, a
    delivered packet lifts the cooldown of the first edge, and every other edge
    of the graph is untouched. *)
Theorem feedback_updates_exactly_the_route self path plan t success :
  graph_ok self → distinct_channels self → chain self 0 path → plan_of self path plan →
  ∃ self', RP.note_feedback self plan t success = Ret self'
    ∧ graph_ok self' ∧ distinct_channels self'
    ∧ evolves (after_feedback path t success) self self'.
Proof.
  intros Hg Hd Hc Hp.
  destruct (note_feedback_evolves self path plan t success Hg Hd Hc Hp) as (self' & Hr & Hev).
  exists self'. split_and!; [done| | |done].
  - eapply evolves_graph_ok; [done|done|]. apply after_feedback_ok.
  - eapply evolves_distinct; [done|apply after_feedback_keeps|done].
Qed.

(** ** Witnesses *)

Lemma demo_route_distinct : config_distinct (RouteConfig.graph demo_route).
Proof.
  intros [|[|[|i]]] node [= <-]; cbn; repeat constructor; set_solver.
Qed.

(** The detour of [demo_route]: edges 1 and 3. *)
Definition demo_detour : list EdgeId.t := [EdgeId.Build_t 0 0; EdgeId.Build_t 1 0].

Lemma feedback_updates_exactly_the_route_witness :
  ∃ self', RP.note_feedback (RP.new demo_route) [1; 3] 40 false = Ret self'
    ∧ graph_ok self' ∧ distinct_channels self'
    ∧ evolves (after_feedback demo_detour 40 false) (RP.new demo_route) self'.
Proof.
  apply (feedback_updates_exactly_the_route (RP.new demo_route) demo_detour [1; 3] 40 false).
  - apply new_graph_ok, demo_route_ok.
  - apply new_distinct, demo_route_distinct.
  - split; [done|]. eexists. split; [reflexivity|]. split; [done|].
    eexists. split; [reflexivity|done].
  - split; [|split]; [eexists; split; reflexivity..|done].
Defined.
