(* ===== verification/RoutingTotal.v ===== *)
(** * The planner never panics

    Whatever the clock, the virtual queues and the observations, and although
    all sums wrap: a planner over a layered graph always answers, and what it
    answers is a path of allowed edges to the destination.  (That this path is
    the best one needs times far from overflow: [RoutingFacts].) *)

From S2P Require Import Prelude Core Routing RoutingPath RoutingFacts RoutingFeedback.

(** ** Planners over the same graph *)

(** The same channel to the same node; queues and estimates may differ, and the
    cooldown at the source. *)
Definition same_edge (id : EdgeId.t) (r r' : comp Edge.t) : Prop :=
  match r, r' with
  | Ret e, Ret e' => Edge.channel_id e' = Edge.channel_id e ∧ Edge.next e' = Edge.next e
      ∧ (EdgeId.node id ≠ 0 → Edge.cooldown_until e' = Edge.cooldown_until e)
  | Ret _, _ | _, Ret _ => False
  | _, _ => True
  end.

Definition same_graph (self self' : RP.t) : Prop :=
  len (RP.nodes self') = len (RP.nodes self)
  ∧ ∀ id, same_edge id (RP.get_edge self id) (RP.get_edge self' id).

#[export] Instance same_graph_refl : Reflexive same_graph.
Proof. intros self. split; [done|]. intros id. by destruct (RP.get_edge self id). Qed.

#[export] Instance same_graph_trans : Transitive same_graph.
Proof.
  intros s1 s2 s3 [Hl1 H1] [Hl2 H2]. split; [congruence|]. intros id.
  specialize (H1 id). specialize (H2 id). unfold same_edge in *.
  destruct (RP.get_edge s1 id), (RP.get_edge s2 id), (RP.get_edge s3 id);
    try done; destruct_and!; split_and!; try congruence. intros Hn. by etrans; auto.
Qed.

#[export] Instance same_graph_sym : Symmetric same_graph.
Proof.
  intros s1 s2 [Hl H]. split; [done|]. intros id. specialize (H id). unfold same_edge in *.
  destruct (RP.get_edge s1 id), (RP.get_edge s2 id); try done. destruct_and!.
  split_and!; try done. intros Hn. symmetry. auto.
Qed.

Lemma reserved_same_graph self self' : reserved self self' → same_graph self self'.
Proof.
  intros (Hl & Hf & Hb). split; [done|]. intros id. unfold same_edge.
  destruct (RP.get_edge self id) as [e| |] eqn:E.
  - destruct (Hf id e E) as (e' & -> & Hs). split_and!; [apply Hs|apply Hs|]. intros _. apply Hs.
  - destruct (RP.get_edge self' id) as [e'| |] eqn:E'; [|done|done].
    destruct (Hb id) as [e He]; [by exists e'|]. congruence.
  - destruct (RP.get_edge self' id) as [e'| |] eqn:E'; [|done|done].
    destruct (Hb id) as [e He]; [by exists e'|]. congruence.
Qed.

Lemma same_graph_chain self self' path : ∀ a,
  same_graph self self' → chain self' a path → chain self a path.
Proof.
  induction path as [|id path IH]; intros a Hg; cbn; [done|].
  intros (Hn & e' & He' & Hc). split; [done|].
  pose proof (proj2 Hg id) as Hs. rewrite He' in Hs. unfold same_edge in Hs.
  destruct (RP.get_edge self id) as [e| |]; try done. destruct Hs as (_ & Hnx & _).
  exists e. split; [done|]. rewrite <- Hnx. by apply IH.
Qed.

Lemma same_graph_plan self self' path : ∀ plan,
  same_graph self self' → plan_of self path plan → plan_of self' path plan.
Proof.
  induction path as [|id path IH]; intros [|c plan] Hg; cbn; try done.
  intros [(e & He & Hc) Hp]. split; [|by apply IH].
  pose proof (proj2 Hg id) as Hs. rewrite He in Hs. unfold same_edge in Hs.
  destruct (RP.get_edge self' id) as [e'| |]; try done. exists e'. split; [done|].
  destruct Hs. congruence.
Qed.

Lemma same_graph_chain_r self self' path : ∀ a,
  same_graph self self' → chain self a path → chain self' a path.
Proof.
  induction path as [|id path IH]; intros a Hg; cbn; [done|].
  intros (Hn & e & He & Hc). split; [done|].
  pose proof (proj2 Hg id) as Hs. rewrite He in Hs. unfold same_edge in Hs.
  destruct (RP.get_edge self' id) as [e'| |]; try done. destruct Hs as (_ & Hnx & _).
  exists e'. split; [done|]. rewrite Hnx. by apply IH.
Qed.

Lemma same_graph_distinct self self' :
  same_graph self self' → distinct_channels self → distinct_channels self'.
Proof.
  intros Hg Hd id id' e1 e2 H1 H2 Hn Hc.
  pose proof (proj2 Hg id) as Hs. pose proof (proj2 Hg id') as Hs'. unfold same_edge in *.
  rewrite H1 in Hs. rewrite H2 in Hs'.
  destruct (RP.get_edge self id) as [e| |] eqn:E; try done.
  destruct (RP.get_edge self id') as [e'| |] eqn:E'; try done.
  destruct Hs, Hs'. apply (Hd id id' e e'); congruence.
Qed.

Lemma evolves_same_graph f self self' :
  evolves f self self' → keeps_graph f →
  (∀ id e, EdgeId.node id ≠ 0 → Edge.cooldown_until (f id e) = Edge.cooldown_until e) →
  same_graph self self'.
Proof.
  intros [Hl H] Hk Hcool. split; [done|]. intros id. unfold same_edge. rewrite H.
  destruct (RP.get_edge self id) as [e| |]; [|done|done]. cbn.
  destruct (Hk id e) as [? ?]. auto.
Qed.

(** ** The tables of [calculate_path], times aside *)

Section tables.
Context (self : RP.t) (elapsed bytes : Z) (forced : option EdgeId.t).
Hypothesis Hgraph : graph_ok self.
Hypothesis Hbytes : 0 <= bytes < 2 ^ 40.

Abbreviation n := (len (RP.nodes self)) (only parsing).

(** Every entry of [predecessor] is an allowed edge into its node. *)
Record linked (tb : RP.tables) : Prop := {
  lk_arrival : shape n (RP.arrival tb);
  lk_predecessor : shape n (RP.predecessor tb);
  lk_entry : ∀ i j st id, in_table n i j → at2 (RP.predecessor tb) i j = Some (st, id) →
    0 <= st < 2 ∧ ∃ e, RP.get_edge self id = Ret e ∧ allowed e elapsed ∧ Edge.next e = i;
}.

Lemma relax_linked k s j na tb :
  0 <= k < n → 0 <= s < 2 →
  is_Some (match RP.get_edge self (EdgeId.Build_t k j) with Ret e => Some e | _ => None end) →
  linked tb → ∃ tb', RP.relax self elapsed bytes forced k s na j tb = Ret tb' ∧ linked tb'.
Proof.
  intros Hk Hs He Htb. set (id := EdgeId.Build_t k j) in *.
  destruct (RP.get_edge self id) as [e| |] eqn:Hge; try by destruct He.
  unfold RP.relax. fold id. unfold RP.edge_allowed. rewrite Hge. cbn [mbind comp_bind].
  destruct (Z.leb_spec (Edge.cooldown_until e) elapsed) as [Hal|Hal]; cbn [negb];
    [|by exists tb].
  destruct (graph_edges _ Hgraph id e Hge) as [Hfwd Hcap Hlat Hloss _].
  cbn [EdgeId.node id] in Hfwd.
  rewrite (serialization_time_eq self id e), (latency_eq self id e) by done.
  cbn [mbind comp_bind].
  assert (in_table n (Edge.next e) (RP.state_or s forced id)) as Htab
    by (split; [lia|by apply state_or_lt]).
  destruct Htb as [Ha Hp Hentry]. rewrite (index2_returns n) by done. cbn [mbind comp_bind].
  destruct (_ <? _); [|by exists tb].
  match goal with |- context [RP.store2 (RP.arrival tb) _ _ ?x] =>
    destruct (store2_returns n (RP.arrival tb) _ _ x Ha Htab) as (a & -> & Ha' & _) end.
  cbn [mbind comp_bind].
  destruct (store2_returns n (RP.predecessor tb) _ _ (Some (s, id)) Hp Htab)
    as (p & -> & Hp' & Hnew & Hold). cbn [mbind comp_bind].
  eexists; split; [done|]. constructor; cbn [RP.arrival RP.predecessor]; [done|done|].
  intros i j' st id' Hij. destruct (decide ((i, j') = (Edge.next e, RP.state_or s forced id)))
    as [[= -> ->]|Hne].
  - rewrite Hnew. intros [= <- <-]. split; [done|]. by exists e.
  - rewrite Hold by (done || apply Hij). by apply Hentry.
Qed.

Lemma relax_state_linked k s tb :
  0 <= k < n → 0 <= s < 2 → linked tb →
  ∃ tb', RP.relax_state self elapsed bytes forced k s tb = Ret tb' ∧ linked tb'.
Proof.
  intros Hk Hs Htb. unfold RP.relax_state.
  rewrite (index2_returns n) by (apply Htb || done). cbn [mbind comp_bind].
  destruct (_ =? _); [by exists tb|].
  destruct (index_returns (RP.nodes self) k Hk) as (es & Hes & _). rewrite Hes.
  cbn [mbind comp_bind].
  destruct (for_range_total (λ _, linked) 0 (len es)
    (RP.relax self elapsed bytes forced k s (at2 (RP.arrival tb) k s)) tb)
    as (tb' & Hr & Hl); [|apply len_nonneg|done|by exists tb'].
  intros j t Hj Ht. apply relax_linked; [done..| |done].
  unfold RP.get_edge. cbn [EdgeId.node EdgeId.edge]. rewrite Hes. cbn [mbind comp_bind].
  destruct (index_returns es j) as (e & -> & _); [lia|]. done.
Qed.

(** Nodes decrease along the walk. *)
Lemma walk_back_linked tb fuel : linked tb → ∀ i j acc,
  in_table n i j → (Z.to_nat i <= fuel)%nat →
  ∃ r, RP.walk_back fuel (RP.predecessor tb) i j acc = Ret r
    ∧ ∀ q, r = Some q → ∃ p, q = p ++ rev acc ∧ is_path self elapsed 0 p i.
Proof.
  intros Htb. induction fuel as [|fuel IH]; intros i j acc Hij Hf; cbn [RP.walk_back];
    destruct (Z.eqb_spec i 0) as [->|Hi]; cbn [negb].
  1,3: eexists; split; [done|]; intros q [= <-]; by exists [].
  { destruct Hij. lia. }
  rewrite (index2_returns n) by (apply Htb || done). cbn [mbind comp_bind].
  destruct (at2 (RP.predecessor tb) i j) as [[st id]|] eqn:Hp; [|by exists None].
  destruct (lk_entry _ Htb i j st id Hij Hp) as (Hst & e & Hg & Ha & <-).
  pose proof (edge_forward _ _ _ (graph_edges _ Hgraph id e Hg)) as Hfwd.
  pose proof (get_edge_Ret self id e Hg) as [Hid _].
  destruct (IH (EdgeId.node id) st (acc ++ [id])) as (r & -> & Hr); [split; lia|lia|].
  exists r. split; [done|]. intros q ->. destruct (Hr q eq_refl) as (p & -> & Hpath).
  exists (p ++ [id]). rewrite rev_app_distr, <- (assoc_L (++)). split; [done|].
  by eapply is_path_snoc.
Qed.

Lemma calculate_path_total :
  ∃ r, RP.calculate_path self elapsed bytes forced = Ret r
    ∧ ∀ p, r = Some p → is_path self elapsed 0 p (n - 1).
Proof.
  pose proof (graph_nodes _ Hgraph) as Hn. unfold RP.calculate_path. cbn zeta.
  destruct (store2_returns n (vec n [U64_MAX; U64_MAX]) 0 0 (elapsed *{64} FIXED_ONE))
    as (a & -> & Ha & _); [apply shape_vec; [lia|done]|split; lia|].
  cbn [mbind comp_bind]. rewrite (wrap_id 64 (n - 1)) by lia.
  pose proof (forced_state_range forced) as Hfs.
  destruct (for_range_total (λ _, linked) 0 (n - 1) (λ nd tb,
      for_each (seqZ 0 (1 + RP.forced_state forced)) (λ state tb,
        RP.relax_state self elapsed bytes forced nd state tb) tb)
    (RP.Build_tables a (vec n [None; None]))) as (tb & -> & Htb).
  - intros k t Hk Ht. apply (for_range_total (λ _, linked) 0 (1 + RP.forced_state forced));
      [|lia|done]. intros s t' Hs Ht'. apply relax_state_linked; done || lia.
  - lia.
  - constructor; cbn [RP.arrival RP.predecessor]; [done|apply shape_vec; [lia|done]|].
    intros i j st id [Hi Hj]. rewrite at2_vec by done.
    by assert (j = 0 ∨ j = 1) as [-> | ->] by lia.
  - cbn [mbind comp_bind].
    assert (in_table n (n - 1) (RP.forced_state forced)) as Hij by (split; lia).
    rewrite (index2_returns n) by (apply Htb || done). cbn [mbind comp_bind].
    destruct (_ =? _); [by exists None|].
    destruct (walk_back_linked tb (length (RP.nodes self)) Htb (n - 1)
      (RP.forced_state forced) []) as (r & -> & Hr); [done|unfold len in *; lia|].
    exists r. split; [done|]. intros p ->. destruct (Hr p eq_refl) as (q & -> & Hq).
    cbn [rev]. by rewrite app_nil_r.
Qed.

End tables.

(** ** The operations *)

Lemma build_route_plan_total self elapsed bytes sample :
  graph_ok self → 0 <= bytes < 2 ^ 40 →
  ∃ r self', RP.build_route_plan self elapsed bytes sample = Ret (r, self')
    ∧ graph_ok self' ∧ reserved self self'
    ∧ match r with
      | None => self' = self
      | Some plan => ∃ p, plan_of self p plan
          ∧ is_path self elapsed 0 p (len (RP.nodes self) - 1)
      end.
Proof.
  intros Hgraph Hb. unfold RP.build_route_plan. set (m := if sample then _ else _).
  assert (∃ forced, m = Ret forced) as [forced ->].
  { unfold m. destruct sample; [|by eexists].
    destruct (sampling_edge_spec self elapsed Hgraph) as (sel & -> & _). by eexists. }
  cbn [mbind comp_bind]. destruct forced as [forced|].
  2:{ exists None, self. split_and!; [done|done|apply reserved_refl|done]. }
  destruct (calculate_path_total self elapsed bytes forced Hgraph Hb) as (r & -> & Hr).
  cbn [mbind comp_bind]. destruct r as [p|].
  2:{ exists None, self. split_and!; [done|done|apply reserved_refl|done]. }
  specialize (Hr p eq_refl). pose proof (is_path_get _ _ _ _ _ Hr) as Hget.
  unfold RP.reserve.
  destruct (reserve_loop elapsed bytes sample p self (wrap 64 (elapsed * FIXED_ONE)))
    as (self1 & c1 & -> & Hgr1 & Hres1); [done|lia|done|]. cbn [mbind comp_bind].
  destruct (channels_of_spec self1 p) as (plan & -> & Hplan).
  { eapply Forall_impl; [done|]. intros id [e He]. destruct Hres1 as (_ & Hf & _).
    destruct (Hf id e He) as (e' & ? & _). by exists e'. }
  cbn [mbind comp_bind]. exists (Some plan), self1. split_and!; [done|done|done|].
  exists p. split; [by eapply plan_of_reserved|done].
Qed.

Lemma note_feedback_total self path plan t success :
  graph_ok self → distinct_channels self → chain self 0 path → plan_of self path plan →
  ∃ self', RP.note_feedback self plan t success = Ret self'
    ∧ graph_ok self' ∧ same_graph self self'.
Proof.
  intros Hg Hd Hc Hp.
  destruct (note_feedback_evolves self path plan t success Hg Hd Hc Hp) as (self' & Hr & Hev).
  exists self'. split_and!; [done| |].
  - eapply evolves_graph_ok; [done|done|]. apply after_feedback_ok.
  - eapply evolves_same_graph; [done|apply after_feedback_keeps|].
    intros id e. by eapply after_feedback_cools.
Qed.

Lemma note_local_send_failure_total self channel elapsed id e0 :
  graph_ok self → RP.get_edge self id = Ret e0 → EdgeId.node id = 0 →
  Edge.channel_id e0 = channel →
  ∃ self', RP.note_local_send_failure self channel elapsed = Ret self'
    ∧ graph_ok self' ∧ same_graph self self'.
Proof.
  intros Hgraph Hg0 Hn0 Hch. unfold RP.note_local_send_failure.
  pose proof (get_edge_ok _ _ _ Hg0) as Hok.
  apply get_edge_lookup in Hg0 as (es & Hes & He0); [|done]. rewrite Hn0 in Hes.
  destruct (position_exists (λ e, Edge.channel_id e =? channel) es 0 e0) as [r Hr];
    [by eapply list_elem_of_lookup_2|by apply Z.eqb_eq|].
  apply position_spec in Hr as Hpos. destruct Hpos as (Hr0 & e & He & Hce).
  rewrite Z.sub_0_r in He. rewrite (index_eq (RP.nodes self) 0 es) by done.
  cbn [mbind comp_bind]. rewrite Hr. cbn [unwrap mbind comp_bind].
  set (i := EdgeId.Build_t 0 r).
  assert (RP.get_edge self i = Ret e) as Hg.
  { apply get_edge_lookup; [split; cbn; lia|]. by exists es. }
  rewrite Hg. cbn [mbind comp_bind].
  pose proof (graph_edges _ Hgraph i e Hg) as [_ _ _ Hloss Hfree].
  pose proof (half_bound (65535 - Edge.loss e) ltac:(unfold LOSS_ONE in Hloss; lia)) as Hhalf.
  assert (0 <= Edge.loss e +{32} (LOSS_ONE -{32} Edge.loss e) / 2 <= LOSS_ONE) as Hl.
  { unfold LOSS_ONE in *. rewrite (wrap_id 32 (65535 - _)) by lia. rewrite wrap_id; lia. }
  match goal with |- context [RP.set_edge self i ?x] => set (e' := x) end.
  assert (0 <= Edge.loss e' <= LOSS_ONE
    ∧ Edge.channel_id e' = Edge.channel_id e ∧ Edge.next e' = Edge.next e
    ∧ Edge.capacity_kbps e' = Edge.capacity_kbps e ∧ Edge.latency_ms e' = Edge.latency_ms e
    ∧ Edge.virtual_free_at e' = Edge.virtual_free_at e) as (Hlr & Hc1 & Hc2 & Hc3 & Hc4 & Hc5).
  { unfold e'. destruct (match Edge.last_observation_at e with None => true | Some _ => _ end);
      cbn; split_and!; first [done|apply Hl|apply Hloss]. }
  destruct (set_edge_spec self i e e' Hg) as (self' & -> & Hnew & Hold & Hlen).
  exists self'. split_and!; [done| |].
  - eapply (set_edge_graph self i e e'); try done. by rewrite Hc5.
  - split; [done|]. intros id'. unfold same_edge. destruct (decide (id' = i)) as [->|Hne].
    + rewrite Hg, Hnew. split_and!; [done..|]. by intros [].
    + rewrite Hold by done. by destruct (RP.get_edge self id').
Qed.

(** ** Graphs without dead ends

    Only edges of the source are ever in cooldown, so in a graph in which every
    node but the destination has an edge, every path goes on to the destination:
    a route exists as soon as some edge of the source may be used, and one
    through any edge that can be reached. *)

Definition no_dead_end (g : RouteGraph.t) : Prop :=
  ∀ i node, RouteGraph.nodes g !! i = Some node → Z.of_nat i < len (RouteGraph.nodes g) - 1 →
    RouteNode.edges node ≠ [].

Lemma is_path_app self elapsed p q b c : ∀ a,
  is_path self elapsed a p b → is_path self elapsed b q c → is_path self elapsed a (p ++ q) c.
Proof.
  induction p as [|id p IH]; intros a; cbn; [by intros ->|].
  intros (Hn & e & He & Ha & Hp) Hq. split; [done|]. exists e. split_and!; [done|done|by apply IH].
Qed.

(** The first edge of a node. *)
Lemma new_first_edge config i node :
  RouteGraph.nodes (RouteConfig.graph config) !! Z.to_nat i = Some node → 0 <= i →
  RouteNode.edges node ≠ [] → ∃ e, RP.get_edge (RP.new config) (EdgeId.Build_t i 0) = Ret e.
Proof.
  intros Hnode Hi Hne. destruct (RouteNode.edges node) as [|r edges] eqn:Er; [done|].
  exists (Edge.of_config r). apply get_edge_lookup; [split; cbn; lia|].
  exists (Edge.of_config <$> RouteNode.edges node).
  cbn [RP.new RP.nodes EdgeId.node EdgeId.edge].
  split; [by rewrite list_lookup_fmap, Hnode|by rewrite list_lookup_fmap, Er].
Qed.

Section onward.
Context (config : RouteConfig.t) (self : RP.t) (elapsed : Z).
Hypothesis Hgraph : graph_ok self.
Hypothesis Hsame : same_graph (RP.new config) self.
Hypothesis Honward : no_dead_end (RouteConfig.graph config).
Hypothesis Helapsed : 0 <= elapsed.

Abbreviation n := (len (RP.nodes self)) (only parsing).

Lemma inner_edge_allowed id e :
  RP.get_edge self id = Ret e → EdgeId.node id ≠ 0 → allowed e elapsed.
Proof.
  intros He Hn. pose proof (proj2 Hsame id) as Hs. rewrite He in Hs. unfold same_edge in Hs.
  destruct (RP.get_edge (RP.new config) id) as [e0| |] eqn:E; try done.
  apply new_edge in E as (node & r & _ & _ & _ & ->). destruct Hs as (_ & _ & Hc).
  unfold allowed. by rewrite (Hc Hn).
Qed.

Lemma node_leads_on i : 0 <= i < n - 1 → ∃ id e, RP.get_edge self id = Ret e ∧ EdgeId.node id = i.
Proof.
  intros Hi. pose proof (proj1 Hsame) as Hl. cbn [RP.new RP.nodes] in Hl. rewrite len_map in Hl.
  destruct (lookup_lt_is_Some_2 (RouteGraph.nodes (RouteConfig.graph config)) (Z.to_nat i))
    as [node Hnode]; [unfold len in *; lia|].
  destruct (new_first_edge config i node Hnode) as [e He]; [lia|by eapply Honward; [done|lia]|].
  pose proof (proj2 Hsame (EdgeId.Build_t i 0)) as Hs. rewrite He in Hs. unfold same_edge in Hs.
  destruct (RP.get_edge self _) as [e'| |] eqn:E; try done. by eexists _, e'.
Qed.

(** Every node past the source reaches the destination. *)
Lemma path_onward a : 0 < a < n → ∃ p, is_path self elapsed a p (n - 1).
Proof.
  remember (Z.to_nat (n - 1 - a)) as k eqn:Hk. revert a Hk.
  induction k as [k IH] using lt_wf_ind. intros a Hk Ha.
  destruct (decide (a = n - 1)) as [->|Hne]; [by exists []|].
  destruct (node_leads_on a) as (id & e & He & Hn); [lia|].
  pose proof (edge_forward _ _ _ (graph_edges _ Hgraph id e He)) as Hf.
  destruct (IH (Z.to_nat (n - 1 - Edge.next e)) ltac:(lia) (Edge.next e) eq_refl ltac:(lia)) as [p Hp].
  exists (id :: p). split; [done|]. exists e. split_and!; [done| |done].
  eapply inner_edge_allowed; [done|lia].
Qed.

Lemma nothing_to_sample_no_route :
  1 < n → nothing_to_sample self elapsed → ∀ p, ¬ is_path self elapsed 0 p (n - 1).
Proof.
  intros Hn [Hnone|(f & (e & He & Ha & [p0 Hp0] & _) & Hno)] p Hp.
  - destruct p as [|id p]; [cbn in Hp; lia|]. destruct Hp as (Hid & e & He & Ha & _).
    by eapply Hnone.
  - pose proof (edge_forward _ _ _ (graph_edges _ Hgraph f e He)) as Hf.
    pose proof (get_edge_ok _ _ _ He) as [? _].
    destruct (path_onward (Edge.next e)) as [q Hq]; [lia|].
    apply (Hno (p0 ++ f :: q)); [|set_solver].
    eapply is_path_app; [done|]. split; [done|]. by exists e.
Qed.
End onward.
