(* ===== verification/Endpoint.v ===== *)
(** * The endpoint core

    [endpoint.rs]: sessions over KCP, sealed endpoint messages, feedback
    samples and keep-alives, and the session state machine.  Every method that
    pushes actions takes the action list and returns it extended. *)

From S2P Require Import Prelude Bytes Core Wire Sequence Crypto Packet Machine.
From S2P Require Import Kcp Routing.

Definition SEQUENCE_MASK : Z := Z.shiftl 1 48 - 1.
Definition SEQUENCE_SOFT_CAP : Z := 1.

Module KcpConfig.
Record t := {
  send_window : Z;
  receive_window : Z;
  time_scale : Z;
  fast_resend : Z;
}.

#[global] Instance eta_KcpConfig : Eta t := λ c,
  Build_t (send_window c) (receive_window c) (time_scale c) (fast_resend c).

Definition default : t := Build_t 128 128 10 32.
End KcpConfig.

Module EndpointConfig.
Record t := {
  envelope_key : list Z;
  message_key : list Z;
  random_seed : list Z;
  boot_time_ms : Z;
  kcp : KcpConfig.t;
  route : RouteConfig.t;
  local_channels : list ChannelId;
  padding_reserve : Z;
  keepalive_interval_ms : Z;
}.

#[global] Instance eta_EndpointConfig : Eta t := λ c,
  Build_t (envelope_key c) (message_key c) (random_seed c) (boot_time_ms c)
    (kcp c) (route c) (local_channels c) (padding_reserve c)
    (keepalive_interval_ms c).
End EndpointConfig.

Inductive SessionPhase : Set :=
  | PendingRemote | Open | ClosingLocal | ClosingRemote.

#[export] Instance SessionPhase_eq_dec : EqDecision SessionPhase.
Proof. solve_decision. Defined.

(** [PacketId { seq_id, seq_no }], ordered lexicographically. *)
Abbreviation PacketId := (Z * Z)%type (only parsing).

Module FeedbackSample.
Record t := {
  route_plan : list ChannelId;
  sent_at : Z;
  deadline : Z;
}.
End FeedbackSample.

(** ** BTreeMap iteration: ascending keys *)

Definition conv_le {V} (x y : Z * V) : Prop := x.1 <= y.1.
#[global] Instance conv_le_dec {V} : RelDecision (@conv_le V).
Proof. intros x y. apply Z_le_dec. Defined.

Definition packet_le {V} (x y : PacketId * V) : Prop :=
  x.1.1 < y.1.1 ∨ x.1.1 = y.1.1 ∧ x.1.2 <= y.1.2.
#[global] Instance packet_le_dec {V} : RelDecision (@packet_le V).
Proof. intros x y. unfold packet_le. apply _. Defined.

Definition conv_iter {V} (m : gmap Z V) : list (Z * V) :=
  merge_sort conv_le (map_to_list m).

Definition packet_iter {V} (m : gmap PacketId V) : list (PacketId * V) :=
  merge_sort packet_le (map_to_list m).

(** ** Sessions *)

Module EndpointSession.
Record t := {
  kcp : Kcp.t;
  phase : SessionPhase;
  peer_seq : option Z;
  pending_close : option CloseReason;
  close_queued : bool;
  close_deadline_at : option Z;
}.

#[global] Instance eta_EndpointSession : Eta t := λ s,
  Build_t (kcp s) (phase s) (peer_seq s) (pending_close s) (close_queued s)
    (close_deadline_at s).

Definition new (conv_id : ConvId) (params : KcpParams.t) (phase : SessionPhase) : t :=
  Build_t (Kcp.new conv_id params) phase None None false None.

(** [self.kcp.update(elapsed_ms as u32).ok().unwrap()] *)
Definition update_kcp (self : t) (elapsed_ms : Z) : comp t :=
  '(r, k) ← Kcp.update (kcp self) (wrap 32 elapsed_ms);
  _ ← unwrap_ok r;
  Ret (self <| kcp := k |>).

Definition take_output (self : t) : list (list Z) * t :=
  let '(out, k) := Kcp.take_output (kcp self) in (out, self <| kcp := k |>).

Definition flush_now (self : t) (elapsed_ms : Z) : comp (list (list Z) * t) :=
  self ← update_kcp self elapsed_ms;
  '(r, k) ← Kcp.flush (kcp self);
  _ ← unwrap_ok r;
  Ret (take_output (self <| kcp := k |>)).

Definition send_message (self : t) (elapsed_ms : Z) (message : SessionMessage.t)
    : comp (list (list Z) * t) :=
  '(r, k) ← Kcp.send (kcp self) (SessionMessage.encode message);
  _ ← unwrap_ok r;
  flush_now (self <| kcp := k |>) elapsed_ms.

(** The loop of [recv_messages]; every turn takes a segment off the queue. *)
Fixpoint recv_loop (fuel : nat) (self : t) (messages : list SessionMessage.t)
    : comp (list SessionMessage.t * t) :=
  match Kcp.peeksize (kcp self) with
  | Err KcpError.RecvQueueEmpty | Err KcpError.ExpectingFragment =>
      Ret (messages, self)
  | Err _ => Panic
  | Ok size =>
      match fuel with
      | O => NoFuel
      | S n =>
          '(r, k, payload) ← Kcp.recv (kcp self) (vec size 0);
          _ ← unwrap_ok r;
          message ← SessionMessage.decode payload;
          recv_loop n (self <| kcp := k |>) (messages ++ [message])
      end
  end.

Definition recv_messages (self : t) : comp (list SessionMessage.t * t) :=
  recv_loop (length (Kcp.rcv_queue (kcp self)) + length (Kcp.rcv_buf (kcp self)))
    self [].

(** [input_packet]: the output packets and the messages. *)
Definition input_packet (self : t) (elapsed_ms : Z) (packet : list Z)
    : comp (list SessionMessage.t * list (list Z) * t) :=
  '(r, k) ← Kcp.input (kcp self) (wrap 32 elapsed_ms) packet;
  _ ← unwrap_ok r;
  '(packets, self) ← flush_now (self <| kcp := k |>) elapsed_ms;
  '(messages, self) ← recv_messages self;
  Ret (messages, packets, self).

Definition poll (self : t) (elapsed_ms : Z) : comp (list (list Z) * t) :=
  self ← update_kcp self elapsed_ms;
  Ret (take_output self).

Definition next_deadline (self : t) (elapsed_ms : Z) : Z :=
  let deadline := U64_MAX in
  let deadline :=
    if negb (Kcp.wait_snd (kcp self) =? 0)
    then deadline `min`
           (elapsed_ms +{64} Kcp.check (kcp self) (wrap 32 elapsed_ms))
    else deadline in
  match close_deadline_at self with
  | Some close_deadline => deadline `min` close_deadline
  | None => deadline
  end.

End EndpointSession.

(** ** The scheduled overhead: the longest route of the graph *)

Definition longest_step (node_index : Z) (edge : RouteEdge.t) (longest : list Z)
    : comp (list Z) :=
  l ← index longest node_index;
  m ← index longest (RouteEdge.next edge);
  store longest node_index (l `max` (m +{64} 1)).

Definition scheduled_packet_overhead (config : EndpointConfig.t) : comp Z :=
  let nodes := RouteGraph.nodes (RouteConfig.graph (EndpointConfig.route config)) in
  let destination := len nodes -{64} 1 in
  longest ← for_each (rev (seqZ 0 destination)) (λ node_index longest,
    node ← index nodes node_index;
    for_each (RouteNode.edges node) (longest_step node_index) longest)
    (vec (len nodes) 0);
  l0 ← index longest 0;
  Ret (TRANSPORT_PACKET_OVERHEAD +{64} ENVELOPE_FIXED_OVERHEAD
       +{64} EndpointConfig.padding_reserve config
       +{64} (l0 -{64} 1) *{64} CHANNEL_ID_SIZE).

(** ** The core *)

Module EndpointCore.
Section endpoint.
Context `{Aegis128L, Blake3, HashIter}.

Record t := {
  config : EndpointConfig.t;
  kcp_params : KcpParams.t;
  packet_overhead : Z;
  close_deadline_ms : Z;
  route_planner : RoutePlanner.t;
  random : RandomStream.t;
  sequence_filter : SequenceFilter.t;
  seq_id : Z;
  next_seq_no : Z;
  next_feedback_at : Z;
  outstanding : gmap PacketId FeedbackSample.t;
  next_keepalive_at : Z;
  sessions : gmap ConvId EndpointSession.t;
  tombstones : gmap ConvId Z;
  next_conv_id : ConvId;
  metrics : CoreMetrics;
}.

#[global] Instance eta_EndpointCore : Eta t := λ c,
  Build_t (config c) (kcp_params c) (packet_overhead c)
    (close_deadline_ms c) (route_planner c) (random c) (sequence_filter c)
    (seq_id c) (next_seq_no c) (next_feedback_at c) (outstanding c)
    (next_keepalive_at c) (sessions c) (tombstones c) (next_conv_id c) (metrics c).

(** The defaults for fields left at zero. *)
Definition with_kcp_defaults (kcp : KcpConfig.t) : KcpConfig.t :=
  let defaults := KcpConfig.default in
  let kcp := if KcpConfig.send_window kcp =? 0
    then kcp <| KcpConfig.send_window := KcpConfig.send_window defaults |> else kcp in
  let kcp := if KcpConfig.receive_window kcp =? 0
    then kcp <| KcpConfig.receive_window := KcpConfig.receive_window defaults |> else kcp in
  if KcpConfig.time_scale kcp =? 0
  then kcp <| KcpConfig.time_scale := KcpConfig.time_scale defaults |> else kcp.

Definition new (config : EndpointConfig.t) : comp t :=
  let config := config <| EndpointConfig.kcp ::= with_kcp_defaults |> in
  let kcp := EndpointConfig.kcp config in
  overhead ← scheduled_packet_overhead config;
  let mtu :=
    effective_transport_mtu (RouteConfig.min_mtu (EndpointConfig.route config))
      -{64} overhead -{64} ENDPOINT_MESSAGE_OVERHEAD in
  let fast_resend :=
    if KcpConfig.fast_resend kcp =? 0 then None else Some (KcpConfig.fast_resend kcp) in
  let kcp_params :=
    {| KcpParams.mtu := mtu;
       KcpParams.send_window := KcpConfig.send_window kcp;
       KcpParams.receive_window := KcpConfig.receive_window kcp;
       KcpParams.nodelay := true;
       KcpParams.fast_resend := fast_resend;
       KcpParams.congestion_control := false;
       KcpParams.time_scale := KcpConfig.time_scale kcp |} in
  let close_deadline_ms := 3 *{64} 6000 *{64} KcpConfig.time_scale kcp in
  let route_planner := RoutePlanner.new (EndpointConfig.route config) in
  let random := RandomStream.new (EndpointConfig.random_seed config) in
  let '(next_conv_id, random) := RandomStream.u64 random in
  let '(seq_id, random) := RandomStream.u64 random in
  Ret {| random := random;
         next_conv_id := next_conv_id;
         config := config;
         kcp_params := kcp_params;
         packet_overhead := overhead;
         close_deadline_ms := close_deadline_ms;
         route_planner := route_planner;
         sequence_filter := SequenceFilter.default;
         seq_id := Z.land seq_id SEQUENCE_MASK;
         next_seq_no := 0;
         next_feedback_at := 0;
         outstanding := ∅;
         next_keepalive_at := EndpointConfig.keepalive_interval_ms config;
         sessions := ∅;
         tombstones := ∅;
         metrics := default_metrics |}.

Definition get_metrics (self : t) : CoreMetrics :=
  (metrics self) <| active_sessions := Z.of_nat (size (sessions self)) |>
                 <| active_sequences := SequenceFilter.filter_len (sequence_filter self) |>.

Definition current_time (self : t) (elapsed_ms : Z) : Z :=
  current_time_of (EndpointConfig.boot_time_ms (config self)) elapsed_ms.

Definition feedback_due (self : t) (elapsed_ms : Z) : bool :=
  next_feedback_at self <=? elapsed_ms.

Definition count (self : t) (f : CoreMetrics → CoreMetrics) : t :=
  self <| metrics ::= f |>.

Definition count_dropped (self : t) : t :=
  count self (λ m, m <| packets_dropped ::= bump |>).

(** ** Sealing *)

Definition seal_endpoint_message (self : t) (stamp : EnvelopeStamp)
    (message : EndpointMessage.t) : comp (list Z) :=
  out ← EndpointMessage.encode_with_prefix message 16;
  nonce ← endpoint_nonce stamp;
  body ← slice out 16 (len out);
  let '(ciphertext, tag) :=
    encrypt_in_place (EndpointConfig.message_key (config self)) nonce body in
  out ← copy_from_slice out 16 (len out) ciphertext;
  copy_from_slice out 0 16 tag.

Definition open_endpoint_message (self : t) (stamp : EnvelopeStamp)
    (packet : list Z) : comp (option EndpointMessage.t) :=
  if len packet <? 16 then Ret None else
  nonce ← endpoint_nonce stamp;
  tag ← slice packet 0 16;
  body ← slice packet 16 (len packet);
  match decrypt_in_place (EndpointConfig.message_key (config self)) nonce body tag with
  | None => Ret None
  | Some body => m ← EndpointMessage.decode body; Ret (Some m)
  end.

(** ** Sending *)

Definition next_sequence (self : t) : (Z * Z) * t :=
  let self :=
    if SEQUENCE_MASK <? next_seq_no self
    then let '(r, rnd) := RandomStream.u64 (random self) in
         self <| seq_id := Z.land r SEQUENCE_MASK |> <| random := rnd |>
              <| next_seq_no := 0 |>
    else self in
  let seq_no := next_seq_no self in
  ((seq_id self, seq_no), self <| next_seq_no ::= λ n, n +{64} 1 |>).

(** What a sampled packet leaves behind for its reply. *)
Definition note_sample (self : t) (elapsed_ms : Z) (stamp : EnvelopeStamp)
    (full_plan : list ChannelId) : comp t :=
  let route := EndpointConfig.route (config self) in
  let self := self <| outstanding ::=
    <[(stamp_seq_id stamp, stamp_seq_no stamp) :=
        {| FeedbackSample.route_plan := full_plan;
           FeedbackSample.sent_at := elapsed_ms;
           FeedbackSample.deadline :=
             elapsed_ms +{64} RouteConfig.feedback_timeout_ms route |}]> |> in
  let interval := RouteConfig.feedback_interval_ms route in
  let '(r, rnd) := RandomStream.u64 (random self) in
  let self := self <| random := rnd |> in
  jitter ← checked_rem r interval;
  Ret (self <| next_feedback_at := elapsed_ms +{64} interval +{64} jitter |>).

Definition send_envelope (self : t) (elapsed_ms : Z) (stamp : EnvelopeStamp)
    (payload : list Z) (sample : bool) (actions : list CoreAction)
    : comp (t * list CoreAction) :=
  let scheduled_bytes := len payload +{64} packet_overhead self in
  '(plan, planner) ←
    RoutePlanner.build_route_plan (route_planner self) elapsed_ms scheduled_bytes sample;
  let self := self <| route_planner := planner |> in
  match plan with
  | None => Ret (self, actions)
  | Some full_plan =>
      channel_id ← index full_plan 0;
      let unpadded_len :=
        TRANSPORT_PACKET_OVERHEAD +{64} ENVELOPE_FIXED_OVERHEAD
        +{64} (len full_plan -{64} 1) *{64} CHANNEL_ID_SIZE +{64} len payload in
      let mtu := effective_transport_mtu
        (RouteConfig.min_mtu (EndpointConfig.route (config self))) in
      let available := (mtu -{64} unpadded_len) `min` 255 in
      let '(r, rnd) := RandomStream.u64 (random self) in
      p ← checked_rem r available;
      let padding_len := wrap 8 (1 + p) in
      route_plan ← slice full_plan 1 (len full_plan);
      let envelope :=
        {| Envelope.time := stamp_time stamp;
           Envelope.seq_id := stamp_seq_id stamp;
           Envelope.seq_no := stamp_seq_no stamp;
           Envelope.route_plan := route_plan;
           Envelope.payload := payload;
           Envelope.padding_len := padding_len |} in
      '(bytes, rnd) ← encode_transport_packet
        (EndpointConfig.envelope_key (config self)) rnd envelope;
      let self := self <| random := rnd |> in
      let actions := actions ++ [SendTransportPacket channel_id bytes] in
      let self := count self (λ m, m <| packets_sent ::= bump |>) in
      let keepalive := EndpointConfig.keepalive_interval_ms (config self) in
      let self :=
        if negb (keepalive =? 0)
        then self <| next_keepalive_at := elapsed_ms +{64} keepalive |> else self in
      self ← (if sample then note_sample self elapsed_ms stamp full_plan else Ret self);
      Ret (self, actions)
  end.

Definition send_endpoint_message (self : t) (elapsed_ms : Z)
    (message : EndpointMessage.t) (sample : bool) (actions : list CoreAction)
    : comp (t * list CoreAction) :=
  let '((sid, seq_no), self) := next_sequence self in
  let stamp := Build_EnvelopeStamp (current_time self elapsed_ms) sid seq_no in
  payload ← seal_endpoint_message self stamp message;
  send_envelope self elapsed_ms stamp payload sample actions.

(** [u8::from(sample)] *)
Definition depth_of (sample : bool) : Z := if sample then 1 else 0.

Definition send_kcp_packets (self : t) (elapsed_ms : Z) (packets : list (list Z))
    (actions : list CoreAction) : comp (t * list CoreAction) :=
  for_each packets (λ packet '(self, actions),
    let sample := feedback_due self elapsed_ms in
    send_endpoint_message self elapsed_ms
      (EndpointMessage.KcpPacket (depth_of sample) packet) sample actions)
    (self, actions).

(** ** Closing *)

Definition finish_closed_session (self : t) (elapsed_ms : Z) (conv_id : ConvId)
    (actions : list CoreAction) : comp (t * list CoreAction) :=
  match sessions self !! conv_id with
  | None => Ret (self, actions)
  | Some session =>
      let deadline_hit :=
        match EndpointSession.close_deadline_at session with
        | Some deadline => deadline <=? elapsed_ms
        | None => false
        end in
      let finished :=
        match EndpointSession.phase session with
        | PendingRemote => deadline_hit
        | ClosingLocal => (Kcp.wait_snd (EndpointSession.kcp session) =? 0) || deadline_hit
        | ClosingRemote => deadline_hit
        | Open => false
        end in
      if negb finished then Ret (self, actions) else
      let self := self <| sessions ::= delete conv_id |> in
      if bool_decide (EndpointSession.phase session = PendingRemote)
      then Ret (count_dropped self, actions) else
      actions ←
        (if bool_decide (EndpointSession.phase session = ClosingLocal)
         then reason ← unwrap (EndpointSession.pending_close session);
              Ret (actions ++ [CloseSession conv_id reason])
         else Ret actions);
      Ret (self <| tombstones ::=
             <[conv_id := elapsed_ms +{64} SESSION_TOMBSTONE_MS]> |>, actions)
  end.

Definition put_session (self : t) (conv_id : ConvId) (s : EndpointSession.t) : t :=
  self <| sessions ::= <[conv_id := s]> |>.

Definition send_session_message (self : t) (elapsed_ms : Z) (conv_id : ConvId)
    (message : SessionMessage.t) (actions : list CoreAction)
    : comp (t * list CoreAction) :=
  session ← unwrap (sessions self !! conv_id);
  '(packets, session) ← EndpointSession.send_message session elapsed_ms message;
  let self := put_session self conv_id session in
  '(self, actions) ← send_kcp_packets self elapsed_ms packets actions;
  finish_closed_session self elapsed_ms conv_id actions.

Definition queue_local_close (self : t) (elapsed_ms : Z) (conv_id : ConvId)
    (actions : list CoreAction) : comp (t * list CoreAction) :=
  match sessions self !! conv_id with
  | None => Ret (self, actions)
  | Some session =>
      if negb (bool_decide (EndpointSession.phase session = ClosingLocal))
      then Ret (self, actions) else
      if EndpointSession.close_queued session then Ret (self, actions) else
      deadline ← unwrap (EndpointSession.close_deadline_at session);
      if (deadline <=? elapsed_ms)
         || (KcpConfig.send_window (EndpointConfig.kcp (config self))
             <=? Kcp.wait_snd (EndpointSession.kcp session))
      then Ret (self, actions) else
      reason ← unwrap (EndpointSession.pending_close session);
      let self := put_session self conv_id
        (session <| EndpointSession.close_queued := true |>) in
      send_session_message self elapsed_ms conv_id (SessionMessage.Close reason) actions
  end.

(** ** Receiving *)

Definition handle_session_message (elapsed_ms : Z) (conv_id : ConvId)
    (message : SessionMessage.t) (self : t) (actions : list CoreAction)
    : t * list CoreAction :=
  match sessions self !! conv_id with
  | None => (self, actions)
  | Some session =>
      match message, EndpointSession.phase session with
      | SessionMessage.Open, PendingRemote =>
          (put_session self conv_id
             (session <| EndpointSession.phase := Open |>
                      <| EndpointSession.close_deadline_at := None |>),
           actions ++ [OpenSession conv_id])
      | SessionMessage.Open, Open => (self, actions)
      | SessionMessage.Open, (ClosingLocal | ClosingRemote) =>
          (count_dropped self, actions)
      | SessionMessage.Data bytes, Open =>
          (self, actions ++ [WriteSession conv_id bytes])
      | SessionMessage.Data _, PendingRemote =>
          (count_dropped (self <| sessions ::= delete conv_id |>), actions)
      | SessionMessage.Data _, (ClosingLocal | ClosingRemote) =>
          (count_dropped self, actions)
      | SessionMessage.Close _, PendingRemote =>
          (count_dropped (self <| sessions ::= delete conv_id |>), actions)
      | SessionMessage.Close reason, Open =>
          (put_session self conv_id
             (session <| EndpointSession.phase := ClosingRemote |>
                      <| EndpointSession.close_deadline_at :=
                           Some (elapsed_ms +{64} close_deadline_ms self) |>),
           actions ++ [CloseSession conv_id reason])
      | SessionMessage.Close _, (ClosingLocal | ClosingRemote) => (self, actions)
      end
  end.

Definition handle_kcp_packet (self : t) (elapsed_ms from : Z)
    (kcp_packet : list Z) (actions : list CoreAction) : comp (t * list CoreAction) :=
  conv_id ← get_conv kcp_packet;
  if bool_decide (is_Some (tombstones self !! conv_id))
  then Ret (count_dropped self, actions) else
  let self :=
    match sessions self !! conv_id with
    | Some _ => self
    | None =>
        put_session self conv_id
          ((EndpointSession.new conv_id (kcp_params self) PendingRemote)
             <| EndpointSession.peer_seq := Some from |>
             <| EndpointSession.close_deadline_at :=
                  Some (elapsed_ms +{64} close_deadline_ms self) |>)
    end in
  session ← unwrap (sessions self !! conv_id);
  if match EndpointSession.peer_seq session with
     | Some bound => negb (bound =? from) | None => false end
  then Ret (count_dropped self, actions) else
  let session := session <| EndpointSession.peer_seq := Some from |> in
  '(messages, packets, session) ←
    EndpointSession.input_packet session elapsed_ms kcp_packet;
  let self := put_session self conv_id session in
  '(self, actions) ← send_kcp_packets self elapsed_ms packets actions;
  let '(self, actions) :=
    foldl (λ '(self, actions) message,
      handle_session_message elapsed_ms conv_id message self actions)
      (self, actions) messages in
  '(self, actions) ← queue_local_close self elapsed_ms conv_id actions;
  finish_closed_session self elapsed_ms conv_id actions.

(** [reply_depth] of any endpoint message. *)
Definition reply_depth_of (message : EndpointMessage.t) : Z :=
  match message with
  | EndpointMessage.KcpPacket reply_depth _
  | EndpointMessage.KeepAlive reply_depth
  | EndpointMessage.RouteReply reply_depth _ _ => reply_depth
  end.

(** A reply retires the sample it answers. *)
Definition handle_route_reply (self : t) (packet_id : PacketId) : comp t :=
  match outstanding self !! packet_id with
  | None => Ret self
  | Some sample =>
      let self := self <| outstanding ::= delete packet_id |> in
      planner ← RoutePlanner.note_feedback (route_planner self)
        (FeedbackSample.route_plan sample) (FeedbackSample.sent_at sample) true;
      Ret (self <| route_planner := planner |>)
  end.

(** The reply to a message that asks for one. *)
Definition send_route_reply (self : t) (elapsed_ms : Z) (stamp : EnvelopeStamp)
    (reply_depth : Z) (actions : list CoreAction) : comp (t * list CoreAction) :=
  if negb (reply_depth =? 0) then
    let sample := (reply_depth <? 3) && feedback_due self elapsed_ms in
    send_endpoint_message self elapsed_ms
      (EndpointMessage.RouteReply (if sample then reply_depth +{8} 1 else 0)
         (stamp_seq_id stamp) (stamp_seq_no stamp))
      sample actions
  else Ret (self, actions).

Definition handle_transport_packet (self : t) (elapsed_ms : Z) (bytes : list Z)
    (actions : list CoreAction) : comp (t * list CoreAction) :=
  let now := current_time self elapsed_ms in
  let first_sequence :=
    SequenceFilter.filter_len (sequence_filter self) =? 0 in
  '(received, m) ← receive_transport_packet
    (EndpointConfig.envelope_key (config self)) (metrics self) bytes;
  let self := self <| metrics := m |> in
  match received with
  | None => Ret (self, actions)
  | Some envelope =>
      if negb (len (Envelope.route_plan envelope) =? 0)
      then Ret (count_dropped self, actions) else
      let stamp := envelope_stamp envelope in
      opened ← open_endpoint_message self stamp (Envelope.payload envelope);
      match opened with
      | None =>
          Ret (count self (λ m, m <| authentication_failures ::= bump |>), actions)
      | Some message =>
          '(fresh, f, m) ← check_sequence (sequence_filter self) (metrics self)
            now stamp;
          let self := self <| sequence_filter := f |> <| metrics := m |> in
          if negb fresh then Ret (self, actions) else
          let self := count self (λ m,
            note_latest_sequence m (EndpointConfig.boot_time_ms (config self))
              elapsed_ms (stamp_time stamp) first_sequence) in
          let reply_depth := reply_depth_of message in
          '(self, actions) ←
            match message with
            | EndpointMessage.KcpPacket _ packet =>
                handle_kcp_packet self elapsed_ms (stamp_seq_id stamp) packet actions
            | EndpointMessage.KeepAlive _ => Ret (self, actions)
            | EndpointMessage.RouteReply _ received_seq_id received_seq_no =>
                self ← handle_route_reply self (received_seq_id, received_seq_no);
                Ret (self, actions)
            end;
          send_route_reply self elapsed_ms stamp reply_depth actions
      end
  end.

(** ** Timers *)

Definition expire_feedback (self : t) (elapsed_ms : Z) : comp t :=
  for_each (packet_iter (outstanding self)) (λ '(packet_id, sample) self,
    if elapsed_ms <? FeedbackSample.deadline sample then Ret self else
    planner ← RoutePlanner.note_feedback (route_planner self)
      (FeedbackSample.route_plan sample) (FeedbackSample.sent_at sample) false;
    Ret (self <| route_planner := planner |>
              <| outstanding ::= delete packet_id |>)) self.

(** One session whose peer's window was evicted. *)
Definition reset_session (elapsed_ms : Z) (conv_id : ConvId) (self : t)
    (actions : list CoreAction) : comp (t * list CoreAction) :=
  session ← unwrap (sessions self !! conv_id);
  let self := self <| sessions ::= delete conv_id |> in
  let actions :=
    if bool_decide (EndpointSession.phase session = PendingRemote)
    then actions else actions ++ [CloseSession conv_id Reset] in
  Ret (self <| tombstones ::=
         <[conv_id := elapsed_ms +{64} SESSION_TOMBSTONE_MS]> |>, actions).

Definition sessions_of_peer (self : t) (peer : Z) : list ConvId :=
  (List.filter
     (λ '(_, session), bool_decide (EndpointSession.peer_seq session = Some peer))
     (conv_iter (sessions self))).*1.

Definition expire_sequences (self : t) (elapsed_ms : Z) (actions : list CoreAction)
    : comp (t * list CoreAction) :=
  let '(expired, f) := SequenceFilter.remove_expired (sequence_filter self)
    (current_time self elapsed_ms) SEQUENCE_SOFT_CAP in
  for_each expired (λ peer '(self, actions),
    for_each (sessions_of_peer self peer) (λ conv_id '(self, actions),
      reset_session elapsed_ms conv_id self actions) (self, actions))
    (self <| sequence_filter := f |>, actions).

Definition expire_tombstones (self : t) (elapsed_ms : Z) : t :=
  self <| tombstones ::= filter (λ '(_, expire_at), elapsed_ms < expire_at) |>.

Definition poll_session (elapsed_ms : Z) (conv_id : ConvId) (self : t)
    (actions : list CoreAction) : comp (t * list CoreAction) :=
  '(self, actions) ← queue_local_close self elapsed_ms conv_id actions;
  session ← unwrap (sessions self !! conv_id);
  '(packets, session) ← EndpointSession.poll session elapsed_ms;
  let self := put_session self conv_id session in
  '(self, actions) ← send_kcp_packets self elapsed_ms packets actions;
  finish_closed_session self elapsed_ms conv_id actions.

Definition send_keepalive (self : t) (elapsed_ms : Z) (actions : list CoreAction)
    : comp (t * list CoreAction) :=
  let interval := EndpointConfig.keepalive_interval_ms (config self) in
  if negb (interval =? 0) && (next_keepalive_at self <=? elapsed_ms) then
    let sample := feedback_due self elapsed_ms in
    '(self, actions) ← send_endpoint_message self elapsed_ms
      (EndpointMessage.KeepAlive (depth_of sample)) sample actions;
    Ret (self <| next_keepalive_at := elapsed_ms +{64} interval |>, actions)
  else Ret (self, actions).

Definition poll (self : t) (elapsed_ms : Z) (actions : list CoreAction)
    : comp (t * list CoreAction) :=
  self ← expire_feedback self elapsed_ms;
  '(self, actions) ← expire_sequences self elapsed_ms actions;
  let self := expire_tombstones self elapsed_ms in
  '(self, actions) ← for_each (conv_iter (sessions self)).*1
    (λ conv_id '(self, actions), poll_session elapsed_ms conv_id self actions)
    (self, actions);
  send_keepalive self elapsed_ms actions.

Definition next_deadline (self : t) (elapsed_ms : Z) : Z :=
  let deadline := foldl Z.min U64_MAX
    ((λ kv, EndpointSession.next_deadline kv.2 elapsed_ms) <$> conv_iter (sessions self)) in
  let deadline := foldl Z.min deadline (snd <$> conv_iter (tombstones self)) in
  let deadline := foldl Z.min deadline
    ((λ kv, FeedbackSample.deadline kv.2) <$> packet_iter (outstanding self)) in
  let deadline :=
    if negb (EndpointConfig.keepalive_interval_ms (config self) =? 0)
    then deadline `min` next_keepalive_at self else deadline in
  match SequenceFilter.next_expiry_delay_ms (sequence_filter self)
          (current_time self elapsed_ms) SEQUENCE_SOFT_CAP with
  | Some delay =>
      let tick_offset :=
        Z.land (EndpointConfig.boot_time_ms (config self) +{64} elapsed_ms)
          (Z.shiftl 1 TS_SHIFT - 1) in
      deadline `min` (elapsed_ms +{64} (delay - tick_offset) `max` 0)
  | None => deadline
  end.

(** ** Events *)

Definition handle_session_open (self : t) (elapsed_ms : Z) (actions : list CoreAction)
    : comp (CoreEventResult * t * list CoreAction) :=
  let conv_id := next_conv_id self in
  let self := self <| next_conv_id ::= λ c, c +{64} 1 |> in
  let self := put_session self conv_id
    (EndpointSession.new conv_id (kcp_params self) Open) in
  '(self, actions) ←
    send_session_message self elapsed_ms conv_id SessionMessage.Open actions;
  Ret (SessionCreated conv_id, self, actions).

Definition handle_session_write (self : t) (elapsed_ms : Z) (conv_id : ConvId)
    (bytes : list Z) (actions : list CoreAction)
    : comp (CoreEventResult * t * list CoreAction) :=
  session ← unwrap (sessions self !! conv_id);
  let message_len := 1 +{64} len bytes in
  fragment_count ← div_ceil message_len
    (KcpParams.mtu (kcp_params self) -{64} Kcp.KCP_OVERHEAD);
  if KcpConfig.send_window (EndpointConfig.kcp (config self))
     <? Kcp.wait_snd (EndpointSession.kcp session) +{64} fragment_count
  then Ret (SessionWriteBlocked, self, actions) else
  '(self, actions) ←
    send_session_message self elapsed_ms conv_id (SessionMessage.Data bytes) actions;
  Ret (ResultNone, self, actions).

Definition handle_session_close (self : t) (elapsed_ms : Z) (conv_id : ConvId)
    (reason : CloseReason) (actions : list CoreAction)
    : comp (CoreEventResult * t * list CoreAction) :=
  session ← unwrap (sessions self !! conv_id);
  let self := put_session self conv_id
    (session <| EndpointSession.phase := ClosingLocal |>
             <| EndpointSession.close_deadline_at :=
                  Some (elapsed_ms +{64} close_deadline_ms self) |>
             <| EndpointSession.pending_close := Some reason |>) in
  '(self, actions) ← queue_local_close self elapsed_ms conv_id actions;
  Ret (ResultNone, self, actions).

Definition handle_send_failed (self : t) (elapsed_ms : Z) (channel_id : ChannelId)
    (bytes : list Z) (actions : list CoreAction)
    : comp (CoreEventResult * t * list CoreAction) :=
  let self := count self (λ m, m <| send_failures ::= bump |>) in
  planner ← RoutePlanner.note_local_send_failure (route_planner self) channel_id elapsed_ms;
  let self := self <| route_planner := planner |> in
  r ← decode_transport_packet (EndpointConfig.envelope_key (config self)) bytes;
  envelope ← unwrap_ok r;
  let stamp := envelope_stamp envelope in
  let packet_id := (stamp_seq_id stamp, stamp_seq_no stamp) in
  let was_sample := bool_decide (is_Some (outstanding self !! packet_id)) in
  let self := self <| outstanding ::= delete packet_id |> in
  let self := if was_sample then self <| next_feedback_at := elapsed_ms |> else self in
  opened ← open_endpoint_message self stamp (Envelope.payload envelope);
  message ← unwrap opened;
  match message with
  | EndpointMessage.KcpPacket _ _ =>
      '(self, actions) ← send_envelope self elapsed_ms stamp
        (Envelope.payload envelope) was_sample actions;
      Ret (ResultNone, self, actions)
  | _ => Ret (ResultNone, self, actions)
  end.

Definition handle_event (self : t) (elapsed_ms : Z) (event : CoreEvent)
    (actions : list CoreAction)
    : comp (CoreEventResult * t * list CoreAction) :=
  match event with
  | SessionOpen => handle_session_open self elapsed_ms actions
  | SessionWrite conv_id bytes =>
      handle_session_write self elapsed_ms conv_id bytes actions
  | SessionClose conv_id reason =>
      handle_session_close self elapsed_ms conv_id reason actions
  | TransportPacketSendFailed channel_id bytes =>
      handle_send_failed self elapsed_ms channel_id bytes actions
  | TransportPacketReceived _ bytes =>
      let self := count self (λ m, m <| packets_received ::= bump |>) in
      '(self, actions) ← handle_transport_packet self elapsed_ms bytes actions;
      Ret (ResultNone, self, actions)
  end.

End endpoint.
End EndpointCore.
