(* ===== verification/EndpointLifecycle.v ===== *)
(** * The session life cycle of an endpoint

    The state machine of one conversation as a step relation, and the proof
    that every event and every poll of [EndpointCore] moves each conversation
    along it while emitting exactly the actions its steps are labelled with. *)

From S2P Require Import Prelude Bytes Core Wire Sequence Crypto Packet Machine.
From S2P Require Import Kcp Routing Endpoint.

Module EC := EndpointCore.
Module ES := EndpointSession.

(** ** The state machine *)

Inductive session_state : Set :=
  | Idle | Active (phase : SessionPhase) | Closed.

(** What started the steps: a shell event, or [None] for a poll. *)
Abbreviation cause := (option CoreEvent) (only parsing).

Inductive session_step (ev : cause) (c : ConvId)
    : session_state → list CoreAction → session_state → Prop :=
  | step_local_open :
      ev = Some SessionOpen →
      session_step ev c Idle [] (Active Open)
  | step_local_close r :
      ev = Some (SessionClose c r) →
      session_step ev c (Active Open) [] (Active ClosingLocal)
  | step_adopt :
      session_step ev c Idle [] (Active PendingRemote)
  | step_accept :
      session_step ev c (Active PendingRemote) [OpenSession c] (Active Open)
  | step_reject :
      session_step ev c (Active PendingRemote) [] Idle
  | step_deliver bytes :
      session_step ev c (Active Open) [WriteSession c bytes] (Active Open)
  | step_remote_close r :
      session_step ev c (Active Open) [CloseSession c r] (Active ClosingRemote)
  | step_local_done r :
      session_step ev c (Active ClosingLocal) [CloseSession c r] Closed
  | step_remote_done :
      session_step ev c (Active ClosingRemote) [] Closed
  | step_reset_pending :
      ev = None → session_step ev c (Active PendingRemote) [] Closed
  | step_reset phase :
      ev = None → phase ≠ PendingRemote →
      session_step ev c (Active phase) [CloseSession c Reset] Closed
  | step_forget :
      ev = None → session_step ev c Closed [] Idle.

Inductive session_run (ev : cause) (c : ConvId)
    : session_state → list CoreAction → session_state → Prop :=
  | run_nil s : session_run ev c s [] s
  | run_step s1 s2 s3 a b :
      session_step ev c s1 a s2 → session_run ev c s2 b s3 →
      session_run ev c s1 (a ++ b) s3.

(** The actions of a list the shell applies to conversation [c]. *)
Definition concerns (c : ConvId) (a : CoreAction) : bool :=
  match a with
  | SendTransportPacket _ _ => false
  | OpenSession c' | WriteSession c' _ | CloseSession c' _ => c' =? c
  end.

Definition shell_view (c : ConvId) (actions : list CoreAction) : list CoreAction :=
  List.filter (concerns c) actions.

(** The state of a conversation in the two maps of the core. *)
Definition state_of (sessions : gmap ConvId ES.t) (tombstones : gmap ConvId Z)
    (c : ConvId) : session_state :=
  match sessions !! c with
  | Some s => Active (ES.phase s)
  | None => if bool_decide (is_Some (tombstones !! c)) then Closed else Idle
  end.

Lemma session_run_app ev c s1 s2 s3 a b :
  session_run ev c s1 a s2 → session_run ev c s2 b s3 →
  session_run ev c s1 (a ++ b) s3.
Proof.
  induction 1 as [|s1 s2' s2 a1 a2 Hs Hr IH]; intros H2; [done|].
  rewrite <- (assoc_L (++)). eapply run_step; [done|]. by apply IH.
Qed.

Lemma session_run_one ev c s1 s2 a :
  session_step ev c s1 a s2 → session_run ev c s1 a s2.
Proof. intros H. rewrite <- (app_nil_r a). by eapply run_step; [|constructor]. Qed.

Lemma shell_view_app c a b : shell_view c (a ++ b) = shell_view c a ++ shell_view c b.
Proof. apply List.filter_app. Qed.

Create HintDb lifecycle.
#[export] Hint Constructors session_step session_run : lifecycle.
#[export] Hint Resolve session_run_one : lifecycle.

(** ** Operations as steps *)

Section steps.
Context `{Aes : Aegis128L, Bl : Blake3, It : HashIter}.

Definition view (self : EC.t) (c : ConvId) : session_state :=
  state_of (EC.sessions self) (EC.tombstones self) c.

(** No conversation is both live and buried. *)
Definition sane (self : EC.t) : Prop :=
  ∀ c, EC.sessions self !! c = None ∨ EC.tombstones self !! c = None.

(** From [self] to [self'], extending the actions: every conversation moved
    along the state machine. *)
Definition lifecycle (ev : cause) (self : EC.t) (actions : list CoreAction)
    (self' : EC.t) (actions' : list CoreAction) : Prop :=
  sane self → sane self' ∧ ∃ out, actions' = actions ++ out ∧
    ∀ c, session_run ev c (view self c) (shell_view c out) (view self' c).

(** Nothing but transport packets, and no change to the session maps. *)
Record quiet (self : EC.t) (actions : list CoreAction)
    (self' : EC.t) (actions' : list CoreAction) : Prop := {
  quiet_sessions : EC.sessions self' = EC.sessions self;
  quiet_tombstones : EC.tombstones self' = EC.tombstones self;
  quiet_filter : EC.sequence_filter self' = EC.sequence_filter self;
  quiet_config : EC.config self' = EC.config self;
  quiet_params : EC.kcp_params self' = EC.kcp_params self;
  quiet_conv_id : EC.next_conv_id self' = EC.next_conv_id self;
  quiet_actions : ∃ out, actions' = actions ++ out
    ∧ Forall (λ a, ∃ ch b, a = SendTransportPacket ch b) out;
}.

Lemma quiet_refl self actions : quiet self actions self actions.
Proof. split; try done. exists []. by rewrite app_nil_r. Qed.

Lemma quiet_trans self1 a1 self2 a2 self3 a3 :
  quiet self1 a1 self2 a2 → quiet self2 a2 self3 a3 → quiet self1 a1 self3 a3.
Proof.
  intros [? ? ? ? ? ? (o1 & -> & H1)] [? ? ? ? ? ? (o2 & -> & H2)]. split; try congruence.
  exists (o1 ++ o2). split; [by rewrite (assoc_L (++))|]. by apply Forall_app.
Qed.

Lemma lifecycle_refl ev self actions : lifecycle ev self actions self actions.
Proof.
  intros Hs. split; [done|]. exists []. rewrite app_nil_r. split; [done|].
  intros c. constructor.
Qed.

Lemma lifecycle_trans ev self1 a1 self2 a2 self3 a3 :
  lifecycle ev self1 a1 self2 a2 → lifecycle ev self2 a2 self3 a3 →
  lifecycle ev self1 a1 self3 a3.
Proof.
  intros H1 H2 Hs. destruct (H1 Hs) as (Hs2 & o1 & -> & Hr1).
  destruct (H2 Hs2) as (Hs3 & o2 & -> & Hr2). split; [done|].
  exists (o1 ++ o2). rewrite (assoc_L (++)). split; [done|]. intros c.
  rewrite shell_view_app. by eapply session_run_app.
Qed.

Lemma shell_view_transport c out :
  Forall (λ a, ∃ ch b, a = SendTransportPacket ch b) out → shell_view c out = [].
Proof. induction 1 as [|a out (ch & b & ->) _ IH]; [done|]. apply IH. Qed.

Lemma quiet_lifecycle ev self a self' a' :
  quiet self a self' a' → lifecycle ev self a self' a'.
Proof.
  intros [Hs Ht _ _ _ _ (out & -> & Hout)] Hsane. unfold sane, view.
  rewrite Hs, Ht. split; [done|]. exists out. split; [done|]. intros c.
  rewrite shell_view_transport by done. constructor.
Qed.

(** A change to one conversation only. *)
Lemma lifecycle_at ev conv self a self' out :
  (∀ c, c ≠ conv → EC.sessions self' !! c = EC.sessions self !! c
     ∧ EC.tombstones self' !! c = EC.tombstones self !! c
     ∧ shell_view c out = []) →
  (sane self → EC.sessions self' !! conv = None ∨ EC.tombstones self' !! conv = None) →
  (sane self →
   session_run ev conv (view self conv) (shell_view conv out) (view self' conv)) →
  lifecycle ev self a self' (a ++ out).
Proof.
  intros Hother Hconv Hrun Hsane. split.
  - intros c. destruct (decide (c = conv)) as [->|Hc]; [by apply Hconv|].
    destruct (Hother c Hc) as (-> & -> & _). apply Hsane.
  - exists out. split; [done|]. intros c. destruct (decide (c = conv)) as [->|Hc].
    + by apply Hrun.
    + destruct (Hother c Hc) as (Hs & Ht & ->). unfold view, state_of.
      rewrite Hs, Ht. constructor.
Qed.

Lemma sane_buried self c s :
  sane self → EC.sessions self !! c = Some s → EC.tombstones self !! c = None.
Proof. intros Hs Hc. destruct (Hs c) as [|]; congruence. Qed.

Lemma shell_view_other c conv a :
  c ≠ conv → concerns c a = (conv =? c) → shell_view c [a] = [].
Proof.
  intros Hc Ha. unfold shell_view. cbn. rewrite Ha.
  by rewrite (proj2 (Z.eqb_neq _ _)) by done.
Qed.

(** ** Sending is quiet *)

Lemma note_sample_fields self e st plan self' :
  EC.note_sample self e st plan = Ret self' →
  EC.sessions self' = EC.sessions self ∧ EC.tombstones self' = EC.tombstones self
  ∧ EC.sequence_filter self' = EC.sequence_filter self
  ∧ EC.config self' = EC.config self ∧ EC.kcp_params self' = EC.kcp_params self
  ∧ EC.next_conv_id self' = EC.next_conv_id self.
Proof.
  unfold EC.note_sample. destruct (RandomStream.u64 _) as [r rnd].
  intros (j & _ & Hr)%bind_ret. by apply Ret_inj in Hr as <-.
Qed.

Lemma send_envelope_quiet self e st payload sample a self' a' :
  EC.send_envelope self e st payload sample a = Ret (self', a') →
  quiet self a self' a'.
Proof.
  unfold EC.send_envelope. intros ([plan planner] & _ & Hr)%bind_ret.
  destruct plan as [plan|].
  2: { apply Ret_inj in Hr as [= <- <-]. split; try done. exists []. by rewrite app_nil_r. }
  apply bind_ret in Hr as (ch & _ & Hr).
  destruct (RandomStream.u64 _) as [r rnd].
  apply bind_ret in Hr as (p & _ & Hr). apply bind_ret in Hr as (rp & _ & Hr).
  apply bind_ret in Hr as ([bytes rnd'] & _ & Hr).
  apply bind_ret in Hr as (self2 & Hs & Hr). apply Ret_inj in Hr as [= <- <-].
  match type of Hs with context [EC.note_sample ?x _ _ _] => set (self1 := x) in * end.
  assert (EC.sessions self2 = EC.sessions self1 ∧ EC.tombstones self2 = EC.tombstones self1
    ∧ EC.sequence_filter self2 = EC.sequence_filter self1
    ∧ EC.config self2 = EC.config self1 ∧ EC.kcp_params self2 = EC.kcp_params self1
    ∧ EC.next_conv_id self2 = EC.next_conv_id self1)
    as (E1 & E2 & E3 & E4 & E5 & E6).
  { destruct sample; [by eapply note_sample_fields|]. by apply Ret_inj in Hs as <-. }
  split; [rewrite E1|rewrite E2|rewrite E3|rewrite E4|rewrite E5|rewrite E6|];
    try by (subst self1; destruct (negb _)).
  eexists; split; [done|]. repeat constructor. by eexists _, _.
Qed.

Lemma send_endpoint_message_quiet self e m sample a self' a' :
  EC.send_endpoint_message self e m sample a = Ret (self', a') →
  quiet self a self' a'.
Proof.
  unfold EC.send_endpoint_message, EC.next_sequence.
  assert (∀ self1 : EC.t, quiet self a self1 a → ∀ x,
    (payload ← EC.seal_endpoint_message self1 x m;
     EC.send_envelope self1 e x payload sample a) = Ret (self', a') →
    quiet self a self' a') as Hgo.
  { intros self1 Hq x (payload & _ & Hr)%bind_ret.
    eapply quiet_trans; [exact Hq|by eapply send_envelope_quiet]. }
  destruct (_ <? _).
  - destruct (RandomStream.u64 _) as [r rnd]. cbn zeta. intros Hr.
    eapply Hgo; [|exact Hr]. split; try done. exists []. by rewrite app_nil_r.
  - cbn zeta. intros Hr. eapply Hgo; [|exact Hr].
    split; try done. exists []. by rewrite app_nil_r.
Qed.

Lemma send_kcp_packets_quiet self e packets a self' a' :
  EC.send_kcp_packets self e packets a = Ret (self', a') →
  quiet self a self' a'.
Proof.
  unfold EC.send_kcp_packets. intros Hr.
  eapply (for_each_inv (λ st, quiet self a st.1 st.2)) in Hr; [done| |apply quiet_refl].
  intros p [s1 a1] [s2 a2] _ H1 H2. eapply quiet_trans; [exact H1|].
  by eapply send_endpoint_message_quiet.
Qed.

Lemma send_route_reply_quiet self e st depth a self' a' :
  EC.send_route_reply self e st depth a = Ret (self', a') →
  quiet self a self' a'.
Proof.
  unfold EC.send_route_reply. destruct (negb _).
  - apply send_endpoint_message_quiet.
  - intros [= <- <-]. apply quiet_refl.
Qed.

Lemma handle_route_reply_quiet self id self' a :
  EC.handle_route_reply self id = Ret self' → quiet self a self' a.
Proof.
  unfold EC.handle_route_reply. destruct (_ !! _).
  - intros (pl & _ & Hr)%bind_ret. apply Ret_inj in Hr as <-.
    split; try done. exists []. by rewrite app_nil_r.
  - intros [= <-]. apply quiet_refl.
Qed.

Lemma expire_feedback_quiet self e self' a :
  EC.expire_feedback self e = Ret self' → quiet self a self' a.
Proof.
  unfold EC.expire_feedback. intros Hr.
  eapply (for_each_inv (λ s, quiet self a s a)) in Hr; [done| |apply quiet_refl].
  intros [id sample] s1 s2 _ H1. destruct (_ <? _).
  - by intros [= <-].
  - intros (pl & _ & Hr2)%bind_ret. apply Ret_inj in Hr2 as <-.
    eapply quiet_trans; [exact H1|]. split; try done. exists []. by rewrite app_nil_r.
Qed.

(** ** The session keeps its state while KCP works *)

Definition same_control (s s' : ES.t) : Prop :=
  ES.phase s' = ES.phase s ∧ ES.peer_seq s' = ES.peer_seq s
  ∧ ES.pending_close s' = ES.pending_close s
  ∧ ES.close_deadline_at s' = ES.close_deadline_at s
  ∧ ES.close_queued s' = ES.close_queued s.

Lemma update_kcp_control s e s' :
  ES.update_kcp s e = Ret s' → same_control s s'.
Proof.
  unfold ES.update_kcp. intros ([r k] & _ & Hr)%bind_ret.
  apply bind_ret in Hr as (? & _ & Hr). by apply Ret_inj in Hr as <-.
Qed.

Lemma flush_now_control s e ps s' :
  ES.flush_now s e = Ret (ps, s') → same_control s s'.
Proof.
  unfold ES.flush_now. intros (s1 & H1%update_kcp_control & Hr)%bind_ret.
  apply bind_ret in Hr as ([r k] & _ & Hr). apply bind_ret in Hr as (? & _ & Hr).
  unfold ES.take_output in Hr. destruct (Kcp.take_output _) as [out k'].
  by apply Ret_inj in Hr as [= _ <-].
Qed.

Lemma send_message_control s e m ps s' :
  ES.send_message s e m = Ret (ps, s') → same_control s s'.
Proof.
  unfold ES.send_message. intros ([r k] & _ & Hr)%bind_ret.
  apply bind_ret in Hr as (? & _ & Hr). by apply flush_now_control in Hr.
Qed.

Lemma recv_loop_control n : ∀ s ms ms' s',
  ES.recv_loop n s ms = Ret (ms', s') → same_control s s'.
Proof.
  induction n as [|n IH]; intros s ms ms' s'; cbn [ES.recv_loop];
    destruct (Kcp.peeksize _) as [size|[]]; try done; try by intros [= _ <-].
  intros ([[r k] payload] & _ & Hr)%bind_ret. apply bind_ret in Hr as (? & _ & Hr).
  apply bind_ret in Hr as (m & _ & Hr). by apply IH in Hr.
Qed.

Lemma input_packet_control s e p ms ps s' :
  ES.input_packet s e p = Ret (ms, ps, s') → same_control s s'.
Proof.
  unfold ES.input_packet. intros ([r k] & _ & Hr)%bind_ret.
  apply bind_ret in Hr as (? & _ & Hr).
  apply bind_ret in Hr as ([ps' s1] & H1%flush_now_control & Hr).
  apply bind_ret in Hr as ([ms' s2] & H2%recv_loop_control & Hr).
  apply Ret_inj in Hr as [= _ _ <-]. destruct H1 as (? & ? & ? & ? & ?), H2 as (? & ? & ? & ? & ?).
  cbn in *. split_and!; congruence.
Qed.

Lemma session_poll_control s e ps s' :
  ES.poll s e = Ret (ps, s') → same_control s s'.
Proof.
  unfold ES.poll. intros (s1 & H1%update_kcp_control & Hr)%bind_ret.
  unfold ES.take_output in Hr. destruct (Kcp.take_output _) as [out k'].
  by apply Ret_inj in Hr as [= _ <-].
Qed.

(** ** Changes of one session *)

(** Every action of [out] is about [conv]. *)
Definition about (conv : ConvId) (out : list CoreAction) : Prop :=
  Forall (λ x, ∀ c, concerns c x = (conv =? c)) out.

Lemma about_other c conv out : about conv out → c ≠ conv → shell_view c out = [].
Proof.
  intros H1 Hc. unfold shell_view. induction H1 as [|x out Hx _ IH]; [done|]. cbn.
  by rewrite Hx, (proj2 (Z.eqb_neq _ _)).
Qed.

Lemma about_self conv out : about conv out → shell_view conv out = out.
Proof.
  unfold shell_view. induction 1 as [|x out Hx _ IH]; [done|]. cbn.
  by rewrite Hx, Z.eqb_refl, IH.
Qed.

Lemma about_nil conv : about conv [].
Proof. constructor. Qed.

Lemma about_one conv x : (∀ c, concerns c x = (conv =? c)) → about conv [x].
Proof. by repeat constructor. Qed.

Lemma lifecycle_put ev conv s s' self a self' out :
  EC.sessions self !! conv = Some s →
  EC.sessions self' = <[conv := s']> (EC.sessions self) →
  EC.tombstones self' = EC.tombstones self → about conv out →
  session_run ev conv (Active (ES.phase s)) out (Active (ES.phase s')) →
  lifecycle ev self a self' (a ++ out).
Proof.
  intros Hs Hs' Ht Hout Hrun. apply (lifecycle_at ev conv).
  - intros c Hc. rewrite Hs', Ht, lookup_insert_ne by done. split_and!; try done.
    by eapply about_other.
  - intros Hsane. right. rewrite Ht. by eapply sane_buried.
  - intros _. rewrite about_self by done. unfold view, state_of.
    by rewrite Hs, Hs', lookup_insert_eq.
Qed.

(** A change of a session's KCP state only. *)
Lemma lifecycle_keep ev conv s s' self a :
  EC.sessions self !! conv = Some s → ES.phase s' = ES.phase s →
  lifecycle ev self a (EC.put_session self conv s') a.
Proof.
  intros Hs Hp. rewrite <- (app_nil_r a) at 2.
  eapply lifecycle_put; [done..|apply about_nil|]. rewrite Hp. constructor.
Qed.

Lemma lifecycle_bury ev conv s d self a self' out :
  EC.sessions self !! conv = Some s →
  EC.sessions self' = delete conv (EC.sessions self) →
  EC.tombstones self' = <[conv := d]> (EC.tombstones self) → about conv out →
  session_run ev conv (Active (ES.phase s)) out Closed →
  lifecycle ev self a self' (a ++ out).
Proof.
  intros Hs Hs' Ht Hout Hrun. apply (lifecycle_at ev conv).
  - intros c Hc. rewrite Hs', Ht, lookup_delete_ne, lookup_insert_ne by done.
    split_and!; try done. by eapply about_other.
  - intros _. left. by rewrite Hs', lookup_delete_eq.
  - intros _. rewrite about_self by done. unfold view, state_of.
    by rewrite Hs, Hs', Ht, lookup_delete_eq, lookup_insert_eq.
Qed.

Lemma lifecycle_reject ev conv s self a self' :
  EC.sessions self !! conv = Some s → ES.phase s = PendingRemote →
  EC.sessions self' = delete conv (EC.sessions self) →
  EC.tombstones self' = EC.tombstones self →
  lifecycle ev self a self' a.
Proof.
  intros Hs Hp Hs' Ht. rewrite <- (app_nil_r a) at 2. apply (lifecycle_at ev conv).
  - intros c Hc. by rewrite Hs', Ht, lookup_delete_ne.
  - intros _. left. by rewrite Hs', lookup_delete_eq.
  - intros Hsane. pose proof (sane_buried _ _ _ Hsane Hs) as Hb.
    unfold view, state_of.
    rewrite Hs, Hs', Ht, lookup_delete_eq, Hb, Hp. cbn. auto with lifecycle.
Qed.

(** ** Closing *)

Lemma finish_closed_session_lifecycle ev self e conv a self' a' :
  EC.finish_closed_session self e conv a = Ret (self', a') →
  lifecycle ev self a self' a'.
Proof.
  unfold EC.finish_closed_session.
  destruct (EC.sessions self !! conv) as [s|] eqn:Es;
    [|intros [= <- <-]; apply lifecycle_refl].
  cbn zeta. destruct (negb _) eqn:Ef; [intros [= <- <-]; apply lifecycle_refl|].
  case_bool_decide as Hp.
  { intros [= <- <-]. by eapply lifecycle_reject. }
  intros (a1 & Ha & Hr)%bind_ret. apply Ret_inj in Hr as [= <- <-].
  case_bool_decide as Hl.
  - apply bind_ret in Ha as (r & _ & Ha). apply Ret_inj in Ha as <-.
    eapply lifecycle_bury; [done..|by apply about_one|]. rewrite Hl. auto with lifecycle.
  - apply Ret_inj in Ha as <-. rewrite <- (app_nil_r a) at 2.
    eapply lifecycle_bury; [done..|apply about_nil|].
    destruct (ES.phase s); try done; auto with lifecycle.
Qed.

Lemma send_session_message_lifecycle ev self e conv m a self' a' :
  EC.send_session_message self e conv m a = Ret (self', a') →
  lifecycle ev self a self' a'.
Proof.
  unfold EC.send_session_message. intros (s & Hs & Hr)%bind_ret.
  destruct (EC.sessions self !! conv) as [s0|] eqn:Es; [|done].
  apply Ret_inj in Hs as ->.
  apply bind_ret in Hr as ([ps s1] & Hm%send_message_control & Hr).
  apply bind_ret in Hr as ([self1 a1] & Hq & Hr).
  eapply lifecycle_trans; [eapply lifecycle_keep; [exact Es|apply Hm]|].
  eapply lifecycle_trans; [by eapply quiet_lifecycle, send_kcp_packets_quiet|].
  by eapply finish_closed_session_lifecycle.
Qed.

Lemma queue_local_close_lifecycle ev self e conv a self' a' :
  EC.queue_local_close self e conv a = Ret (self', a') →
  lifecycle ev self a self' a'.
Proof.
  unfold EC.queue_local_close.
  assert (Ret (self, a) = Ret (self', a') → lifecycle ev self a self' a') as Hid
    by (intros [= <- <-]; apply lifecycle_refl).
  destruct (EC.sessions self !! conv) as [s|] eqn:Es; [|done].
  destruct (negb _); [done|]. destruct (ES.close_queued s); [done|].
  intros (d & _ & Hr)%bind_ret. destruct (_ || _); [by apply Hid|].
  apply bind_ret in Hr as (r & _ & Hr).
  eapply lifecycle_trans; [|by eapply send_session_message_lifecycle].
  eapply lifecycle_keep; [exact Es|done].
Qed.

(** ** Receiving *)

Lemma handle_session_message_lifecycle ev e conv m self a self' a' :
  EC.handle_session_message e conv m self a = (self', a') →
  lifecycle ev self a self' a'.
Proof.
  unfold EC.handle_session_message.
  destruct (EC.sessions self !! conv) as [s|] eqn:Es;
    [|intros [= <- <-]; apply lifecycle_refl].
  assert (lifecycle ev self a (EC.count_dropped self) a) as Hdrop.
  { apply quiet_lifecycle. split; try done. exists []. by rewrite app_nil_r. }
  destruct m as [|bytes|r], (ES.phase s) eqn:Ep; intros [= <- <-];
    try done; try apply lifecycle_refl; try by eapply lifecycle_reject.
  - eapply lifecycle_put; [done..|by apply about_one|]. rewrite Ep. auto with lifecycle.
  - eapply lifecycle_put; [done| |done|by apply about_one|].
    + by rewrite insert_id.
    + rewrite Ep. auto with lifecycle.
  - eapply lifecycle_put; [done..|by apply about_one|]. rewrite Ep. auto with lifecycle.
Qed.

Lemma session_messages_lifecycle ev e conv ms : ∀ self a self' a',
  foldl (λ '(self, a) m, EC.handle_session_message e conv m self a) (self, a) ms
    = (self', a') →
  lifecycle ev self a self' a'.
Proof.
  induction ms as [|m ms IH]; intros self a self' a'; cbn [foldl].
  - intros [= <- <-]. apply lifecycle_refl.
  - destruct (EC.handle_session_message e conv m self a) as [self1 a1] eqn:E.
    intros Hr. eapply lifecycle_trans; [by eapply handle_session_message_lifecycle|].
    by apply IH.
Qed.

(** The session [handle_kcp_packet] works on: the known one, or an adopted one. *)
Lemma adopt_lifecycle ev self conv s a :
  EC.tombstones self !! conv = None → ES.phase s = PendingRemote →
  let self1 := match EC.sessions self !! conv with
               | Some _ => self | None => EC.put_session self conv s end in
  lifecycle ev self a self1 a.
Proof.
  intros Ht Hp. cbn zeta. destruct (EC.sessions self !! conv) as [s0|] eqn:Es;
    [apply lifecycle_refl|].
  rewrite <- (app_nil_r a) at 2. apply (lifecycle_at ev conv).
  - intros c Hc. cbn. by rewrite lookup_insert_ne.
  - intros _. by right.
  - intros _. unfold view, state_of. cbn. rewrite Es, Ht, lookup_insert_eq, Hp.
    cbn. auto with lifecycle.
Qed.

Lemma handle_kcp_packet_lifecycle ev self e from packet a self' a' :
  EC.handle_kcp_packet self e from packet a = Ret (self', a') →
  lifecycle ev self a self' a'.
Proof.
  unfold EC.handle_kcp_packet. intros (conv & _ & Hr)%bind_ret.
  assert (∀ x : EC.t, lifecycle ev x a (EC.count_dropped x) a) as Hdrop.
  { intros x. apply quiet_lifecycle. split; try done. exists []. by rewrite app_nil_r. }
  case_bool_decide as Ht; [by apply Ret_inj in Hr as [= <- <-]|].
  apply eq_None_not_Some in Ht.
  match type of Hr with context [EC.put_session self conv ?x] =>
    pose proof (adopt_lifecycle ev self conv x a Ht eq_refl) as Hadopt end.
  cbn zeta in *. set (self1 := match EC.sessions self !! conv with Some _ => _ | None => _ end) in *.
  eapply lifecycle_trans; [exact Hadopt|]. clear Hadopt. clearbody self1.
  apply bind_ret in Hr as (s & Hs & Hr).
  destruct (EC.sessions self1 !! conv) as [s0|] eqn:Es; [|done].
  apply Ret_inj in Hs as ->.
  destruct (match ES.peer_seq s with Some _ => _ | None => _ end);
    [by apply Ret_inj in Hr as [= <- <-]|].
  apply bind_ret in Hr as ([[ms ps] s'] & Hi%input_packet_control & Hr).
  apply bind_ret in Hr as ([self2 a2] & Hq & Hr).
  destruct (foldl _ (self2, a2) ms) as [self3 a3] eqn:Ef.
  apply bind_ret in Hr as ([self4 a4] & Hc & Hr).
  eapply lifecycle_trans; [eapply lifecycle_keep; [exact Es|apply Hi]|].
  eapply lifecycle_trans; [by eapply quiet_lifecycle, send_kcp_packets_quiet|].
  eapply lifecycle_trans; [by eapply session_messages_lifecycle|].
  eapply lifecycle_trans; [by eapply queue_local_close_lifecycle|].
  by eapply finish_closed_session_lifecycle.
Qed.

(** A change outside the session maps. *)
Lemma lifecycle_same ev self a self' :
  EC.sessions self' = EC.sessions self → EC.tombstones self' = EC.tombstones self →
  lifecycle ev self a self' a.
Proof.
  intros Hs Ht Hsane. unfold sane, view. rewrite Hs, Ht. split; [done|].
  exists []. rewrite app_nil_r. split; [done|]. intros c. constructor.
Qed.

Lemma handle_message_lifecycle ev self e st m a self' a' :
  match m with
  | EndpointMessage.KcpPacket _ packet =>
      EC.handle_kcp_packet self e (stamp_seq_id st) packet a
  | EndpointMessage.KeepAlive _ => Ret (self, a)
  | EndpointMessage.RouteReply _ i n =>
      self ← EC.handle_route_reply self (i, n); Ret (self, a)
  end = Ret (self', a') →
  lifecycle ev self a self' a'.
Proof.
  destruct m as [d packet|d|d i n].
  - apply handle_kcp_packet_lifecycle.
  - intros [= <- <-]. apply lifecycle_refl.
  - intros (s1 & Hh & Hr)%bind_ret. apply Ret_inj in Hr as [= <- <-].
    by eapply quiet_lifecycle, handle_route_reply_quiet.
Qed.

Lemma handle_transport_packet_lifecycle ev self e bytes a self' a' :
  EC.handle_transport_packet self e bytes a = Ret (self', a') →
  lifecycle ev self a self' a'.
Proof.
  unfold EC.handle_transport_packet. cbn zeta.
  intros ([received m] & _ & Hr)%bind_ret.
  destruct received as [env|]; [|by apply Ret_inj in Hr as [= <- <-]; apply lifecycle_same].
  destruct (negb _); [by apply Ret_inj in Hr as [= <- <-]; apply lifecycle_same|].
  apply bind_ret in Hr as (opened & _ & Hr).
  destruct opened as [msg|]; [|by apply Ret_inj in Hr as [= <- <-]; apply lifecycle_same].
  apply bind_ret in Hr as ([[fresh f] m2] & _ & Hr).
  destruct (negb fresh); [by apply Ret_inj in Hr as [= <- <-]; apply lifecycle_same|].
  apply bind_ret in Hr as ([self2 a2] & Hm & Hr).
  eapply lifecycle_trans; [|eapply lifecycle_trans;
    [by eapply handle_message_lifecycle|by eapply quiet_lifecycle, send_route_reply_quiet]].
  by apply lifecycle_same.
Qed.

(** ** Polling *)

Lemma for_each_lifecycle {A} ev (l : list A)
    (b : A → EC.t * list CoreAction → comp (EC.t * list CoreAction)) self a self' a' :
  (∀ x s1 a1 s2 a2, b x (s1, a1) = Ret (s2, a2) → lifecycle ev s1 a1 s2 a2) →
  for_each l b (self, a) = Ret (self', a') →
  lifecycle ev self a self' a'.
Proof.
  intros Hb Hr.
  eapply (for_each_inv (λ st, lifecycle ev self a st.1 st.2)) in Hr;
    [done| |apply lifecycle_refl].
  intros x [s1 a1] [s2 a2] _ H1 H2. eapply lifecycle_trans; [exact H1|]. by eapply Hb.
Qed.

Lemma reset_session_lifecycle e conv self a self' a' :
  EC.reset_session e conv self a = Ret (self', a') →
  lifecycle None self a self' a'.
Proof.
  unfold EC.reset_session. intros (s & Hs & Hr)%bind_ret.
  destruct (EC.sessions self !! conv) as [s0|] eqn:Es; [|done].
  apply Ret_inj in Hs as ->. apply Ret_inj in Hr as [= <- <-].
  case_bool_decide as Hp.
  - rewrite <- (app_nil_r a) at 2. eapply lifecycle_bury; [done..|apply about_nil|].
    rewrite Hp. auto with lifecycle.
  - eapply lifecycle_bury; [done..|by apply about_one|]. auto with lifecycle.
Qed.

Lemma expire_sequences_lifecycle self e a self' a' :
  EC.expire_sequences self e a = Ret (self', a') →
  lifecycle None self a self' a'.
Proof.
  unfold EC.expire_sequences. destruct (SequenceFilter.remove_expired _ _ _) as [ids f].
  intros Hr. eapply lifecycle_trans; [|eapply for_each_lifecycle; [|exact Hr]];
    [by apply lifecycle_same|]. intros peer s1 a1 s2 a2 H2.
  eapply for_each_lifecycle; [|exact H2]. intros c *. apply reset_session_lifecycle.
Qed.

Lemma expire_tombstones_lifecycle self e a :
  lifecycle None self a (EC.expire_tombstones self e) a.
Proof.
  intros Hsane. split.
  - intros c. destruct (Hsane c) as [|Hc]; [by left|right]. cbn.
    apply map_lookup_filter_None. by left.
  - exists []. rewrite app_nil_r. split; [done|]. intros c. unfold view, state_of. cbn.
    destruct (EC.sessions self !! c); [constructor|].
    destruct (EC.tombstones self !! c) as [d|] eqn:Et.
    + rewrite (bool_decide_eq_true_2 (is_Some (Some d))) by eauto.
      case_bool_decide; auto with lifecycle.
    + rewrite (proj2 (map_lookup_filter_None _ _ _) (or_introl Et)). constructor.
Qed.

Lemma poll_session_lifecycle ev e conv self a self' a' :
  EC.poll_session e conv self a = Ret (self', a') →
  lifecycle ev self a self' a'.
Proof.
  unfold EC.poll_session. intros ([self1 a1] & H1 & Hr)%bind_ret.
  apply bind_ret in Hr as (s & Hs & Hr).
  destruct (EC.sessions self1 !! conv) as [s0|] eqn:Es; [|done].
  apply Ret_inj in Hs as ->.
  apply bind_ret in Hr as ([ps s'] & Hp%session_poll_control & Hr).
  apply bind_ret in Hr as ([self2 a2] & Hq & Hr).
  eapply lifecycle_trans; [by eapply queue_local_close_lifecycle|].
  eapply lifecycle_trans; [eapply lifecycle_keep; [exact Es|apply Hp]|].
  eapply lifecycle_trans; [by eapply quiet_lifecycle, send_kcp_packets_quiet|].
  by eapply finish_closed_session_lifecycle.
Qed.

Lemma send_keepalive_lifecycle ev self e a self' a' :
  EC.send_keepalive self e a = Ret (self', a') → lifecycle ev self a self' a'.
Proof.
  unfold EC.send_keepalive. destruct (_ && _).
  - intros ([self1 a1] & Hq & Hr)%bind_ret. apply Ret_inj in Hr as [= <- <-].
    eapply lifecycle_trans; [by eapply quiet_lifecycle, send_endpoint_message_quiet|].
    by apply lifecycle_same.
  - intros [= <- <-]. apply lifecycle_refl.
Qed.

Lemma poll_lifecycle self e a self' a' :
  EC.poll self e a = Ret (self', a') → lifecycle None self a self' a'.
Proof.
  unfold EC.poll. intros (self1 & H1 & Hr)%bind_ret.
  apply bind_ret in Hr as ([self2 a2] & H2 & Hr).
  apply bind_ret in Hr as ([self3 a3] & H3 & Hr).
  eapply lifecycle_trans; [by eapply quiet_lifecycle, expire_feedback_quiet|].
  eapply lifecycle_trans; [by eapply expire_sequences_lifecycle|].
  eapply lifecycle_trans; [apply expire_tombstones_lifecycle|].
  eapply lifecycle_trans; [|by eapply send_keepalive_lifecycle].
  eapply for_each_lifecycle; [|exact H3]. intros c *. apply poll_session_lifecycle.
Qed.

(** ** Events *)

(** What the shell owes: a fresh conversation id to open, an open session to
    close. *)
Definition shell_ok (self : EC.t) (event : CoreEvent) : Prop :=
  match event with
  | SessionOpen => view self (EC.next_conv_id self) = Idle
  | SessionClose c _ => view self c = Active Open
  | _ => True
  end.

Lemma session_open_lifecycle self e a r self' a' :
  view self (EC.next_conv_id self) = Idle →
  EC.handle_session_open self e a = Ret (r, self', a') →
  lifecycle (Some SessionOpen) self a self' a'.
Proof.
  intros Hidle. unfold EC.handle_session_open. cbn zeta.
  intros ([self1 a1] & H1%(send_session_message_lifecycle (Some SessionOpen)) & Hr)%bind_ret.
  apply Ret_inj in Hr as [= _ <- <-].
  eapply lifecycle_trans; [|exact H1]. rewrite <- (app_nil_r a) at 2.
  apply (lifecycle_at _ (EC.next_conv_id self)).
  - intros c Hc. cbn. by rewrite lookup_insert_ne.
  - intros _. right. unfold view, state_of in Hidle. cbn.
    destruct (EC.sessions self !! _); [done|]. case_bool_decide as Ht; [done|].
    by apply eq_None_not_Some.
  - intros _. rewrite Hidle. unfold view, state_of. cbn. rewrite lookup_insert_eq.
    auto with lifecycle.
Qed.

Lemma session_write_lifecycle ev self e c bytes a r self' a' :
  EC.handle_session_write self e c bytes a = Ret (r, self', a') →
  lifecycle ev self a self' a'.
Proof.
  unfold EC.handle_session_write. intros (s & _ & Hr)%bind_ret.
  apply bind_ret in Hr as (n & _ & Hr). destruct (_ <? _).
  - apply Ret_inj in Hr as [= _ <- <-]. apply lifecycle_refl.
  - apply bind_ret in Hr as ([self1 a1] & H1 & Hr). apply Ret_inj in Hr as [= _ <- <-].
    by eapply send_session_message_lifecycle.
Qed.

Lemma session_close_lifecycle self e c reason a r self' a' :
  view self c = Active Open →
  EC.handle_session_close self e c reason a = Ret (r, self', a') →
  lifecycle (Some (SessionClose c reason)) self a self' a'.
Proof.
  intros Hopen. unfold EC.handle_session_close. intros (s & Hs & Hr)%bind_ret.
  destruct (EC.sessions self !! c) as [s0|] eqn:Es; [|done].
  apply Ret_inj in Hs as ->.
  apply bind_ret in Hr as ([self1 a1] & H1 & Hr). apply Ret_inj in Hr as [= _ <- <-].
  eapply lifecycle_trans; [|by eapply queue_local_close_lifecycle].
  rewrite <- (app_nil_r a) at 2. eapply lifecycle_put; [done..|apply about_nil|].
  unfold view, state_of in Hopen. rewrite Es in Hopen. injection Hopen as ->. cbn.
  eauto with lifecycle.
Qed.

Lemma send_failed_lifecycle ev self e ch bytes a r self' a' :
  EC.handle_send_failed self e ch bytes a = Ret (r, self', a') →
  lifecycle ev self a self' a'.
Proof.
  unfold EC.handle_send_failed. cbn zeta. intros (pl & _ & Hr)%bind_ret.
  apply bind_ret in Hr as (d & _ & Hr). apply bind_ret in Hr as (env & _ & Hr).
  apply bind_ret in Hr as (o & _ & Hr). apply bind_ret in Hr as (m & _ & Hr).
  match type of Hr with context [EC.send_envelope ?x] => set (self1 := x) in * end.
  eapply (lifecycle_trans _ _ _ self1 a).
  { apply lifecycle_same; subst self1; by destruct (bool_decide _). }
  destruct m; try (apply Ret_inj in Hr as [= _ <- <-]; apply lifecycle_refl).
  apply bind_ret in Hr as ([self2 a2] & H2 & Hr). apply Ret_inj in Hr as [= _ <- <-].
  by eapply quiet_lifecycle, send_envelope_quiet.
Qed.

Lemma handle_event_lifecycle self e event a r self' a' :
  shell_ok self event → EC.handle_event self e event a = Ret (r, self', a') →
  lifecycle (Some event) self a self' a'.
Proof.
  destruct event as [ch bytes|ch bytes| |c bytes|c reason]; cbn [shell_ok EC.handle_event];
    intros Hok Hr.
  - apply bind_ret in Hr as ([self1 a1] & H1 & Hr). apply Ret_inj in Hr as [= _ <- <-].
    eapply lifecycle_trans; [|by eapply handle_transport_packet_lifecycle].
    by apply lifecycle_same.
  - by eapply send_failed_lifecycle.
  - by eapply session_open_lifecycle.
  - by eapply session_write_lifecycle.
  - by eapply session_close_lifecycle.
Qed.

(** ** What only the gate and the eviction touch *)

(** The replay filter and the configuration are the same. *)
Definition same_gate (self self' : EC.t) : Prop :=
  EC.sequence_filter self' = EC.sequence_filter self ∧ EC.config self' = EC.config self.

#[local] Instance same_gate_trans : Transitive same_gate.
Proof. intros x y z [? ?] [? ?]. split; congruence. Qed.

Lemma quiet_gate self a self' a' : quiet self a self' a' → same_gate self self'.
Proof. by intros [_ _ ? ? _ _ _]. Qed.

Lemma finish_closed_session_gate self e conv a self' a' :
  EC.finish_closed_session self e conv a = Ret (self', a') → same_gate self self'.
Proof.
  unfold EC.finish_closed_session. destruct (_ !! conv) as [s|]; [|by intros [= <- _]].
  cbn zeta. destruct (negb _); [by intros [= <- _]|]. case_bool_decide.
  { by intros [= <- _]. }
  intros (a1 & _ & Hr)%bind_ret. by apply Ret_inj in Hr as [= <- _].
Qed.

Lemma send_session_message_gate self e conv m a self' a' :
  EC.send_session_message self e conv m a = Ret (self', a') → same_gate self self'.
Proof.
  unfold EC.send_session_message. intros (s & _ & Hr)%bind_ret.
  apply bind_ret in Hr as ([ps s'] & _ & Hr).
  apply bind_ret in Hr as ([self1 a1] & Hq%send_kcp_packets_quiet%quiet_gate & Hr).
  apply finish_closed_session_gate in Hr. by etrans; [|exact Hr].
Qed.

Lemma queue_local_close_gate self e conv a self' a' :
  EC.queue_local_close self e conv a = Ret (self', a') → same_gate self self'.
Proof.
  unfold EC.queue_local_close. destruct (_ !! conv) as [s|]; [|by intros [= <- _]].
  destruct (negb _); [by intros [= <- _]|].
  destruct (ES.close_queued s); [by intros [= <- _]|].
  intros (d & _ & Hr)%bind_ret. destruct (_ || _); [by apply Ret_inj in Hr as [= <- _]|].
  apply bind_ret in Hr as (r & _ & Hr). by apply send_session_message_gate in Hr.
Qed.

Lemma session_messages_gate e conv ms : ∀ self a self' a',
  foldl (λ '(self, a) m, EC.handle_session_message e conv m self a) (self, a) ms
    = (self', a') → same_gate self self'.
Proof.
  induction ms as [|m ms IH]; intros self a self' a'; cbn [foldl].
  { by intros [= <- _]. }
  destruct (EC.handle_session_message e conv m self a) as [self1 a1] eqn:E.
  intros Hr%IH. etrans; [|exact Hr]. revert E. unfold EC.handle_session_message.
  destruct (_ !! conv) as [s|]; [|by intros [= <- _]].
  destruct m, (ES.phase s); by intros [= <- _].
Qed.

Lemma handle_kcp_packet_gate self e from packet a self' a' :
  EC.handle_kcp_packet self e from packet a = Ret (self', a') → same_gate self self'.
Proof.
  unfold EC.handle_kcp_packet. intros (conv & _ & Hr)%bind_ret.
  case_bool_decide; [by apply Ret_inj in Hr as [= <- _]|].
  cbn zeta in Hr. set (self1 := match EC.sessions self !! conv with Some _ => _ | None => _ end) in *.
  assert (same_gate self self1) as H1 by (subst self1; by destruct (_ !! conv)).
  etrans; [exact H1|]. clear H1. clearbody self1.
  apply bind_ret in Hr as (s & _ & Hr).
  destruct (match ES.peer_seq s with Some _ => _ | None => _ end);
    [by apply Ret_inj in Hr as [= <- _]|].
  apply bind_ret in Hr as ([[ms ps] s'] & _ & Hr).
  apply bind_ret in Hr as ([self2 a2] & Hq%send_kcp_packets_quiet%quiet_gate & Hr).
  destruct (foldl _ (self2, a2) ms) as [self3 a3] eqn:Ef.
  apply session_messages_gate in Ef.
  apply bind_ret in Hr as ([self4 a4] & Hc%queue_local_close_gate & Hr).
  apply finish_closed_session_gate in Hr.
  change (same_gate self1 self2) in Hq. by do 3 (etrans; [eassumption|]).
Qed.

Lemma handle_message_gate self e st m a self' a' :
  match m with
  | EndpointMessage.KcpPacket _ packet =>
      EC.handle_kcp_packet self e (stamp_seq_id st) packet a
  | EndpointMessage.KeepAlive _ => Ret (self, a)
  | EndpointMessage.RouteReply _ i n =>
      self ← EC.handle_route_reply self (i, n); Ret (self, a)
  end = Ret (self', a') →
  same_gate self self'.
Proof.
  destruct m as [d packet|d|d i n].
  - apply handle_kcp_packet_gate.
  - by intros [= <- _].
  - intros (s1 & Hh & Hr)%bind_ret. apply Ret_inj in Hr as [= <- _].
    by eapply quiet_gate, (handle_route_reply_quiet _ _ _ a).
Qed.

Lemma poll_session_gate self e conv a self' a' :
  EC.poll_session e conv self a = Ret (self', a') → same_gate self self'.
Proof.
  unfold EC.poll_session. intros ([self1 a1] & H1%queue_local_close_gate & Hr)%bind_ret.
  apply bind_ret in Hr as (s & _ & Hr). apply bind_ret in Hr as ([ps s'] & _ & Hr).
  apply bind_ret in Hr as ([self2 a2] & Hq%send_kcp_packets_quiet%quiet_gate & Hr).
  apply finish_closed_session_gate in Hr.
  change (same_gate self1 self2) in Hq. by do 2 (etrans; [eassumption|]).
Qed.

(** A poll replaces the filter by the one eviction leaves. *)
Lemma poll_gate self e a self' a' :
  EC.poll self e a = Ret (self', a') →
  EC.config self' = EC.config self
  ∧ EC.sequence_filter self'
    = (SequenceFilter.remove_expired (EC.sequence_filter self)
         (EC.current_time self e) SEQUENCE_SOFT_CAP).2.
Proof.
  unfold EC.poll. intros (self1 & H1 & Hr)%bind_ret.
  apply (expire_feedback_quiet _ _ _ a) in H1 as [Hf1 Hc1]%quiet_gate.
  apply bind_ret in Hr as ([self2 a2] & H2 & Hr).
  apply bind_ret in Hr as ([self3 a3] & H3 & Hr).
  assert (EC.config self2 = EC.config self1 ∧ EC.sequence_filter self2
    = (SequenceFilter.remove_expired (EC.sequence_filter self1)
         (EC.current_time self1 e) SEQUENCE_SOFT_CAP).2) as [Hc2 Hf2].
  { unfold EC.expire_sequences in H2.
    destruct (SequenceFilter.remove_expired _ _ _) as [ids f].
    set (s0 := self1 <| EC.sequence_filter := f |>) in H2.
    assert (same_gate s0 self2) as [? ?]; [|done].
    eapply (for_each_inv (λ st, same_gate s0 st.1)) in H2; [done| |done].
    intros peer [s1 a1] [s2 b2] _ Hs1 Hs2.
    eapply (for_each_inv (λ st, same_gate s0 st.1)) in Hs2; [done| |done].
    intros c [s3 a3'] [s4 a4] _ Hs3 Hs4. revert Hs4. unfold EC.reset_session.
    intros (s & _ & Hs4)%bind_ret. by apply Ret_inj in Hs4 as [= <- _]. }
  assert (same_gate self2 self3) as [Hf3 Hc3].
  { eapply (for_each_inv (λ st, same_gate self2 st.1)) in H3; [done| |done].
    intros c [s1 a1] [s2 b2] _ Hs1 Hs2%poll_session_gate. by etrans. }
  assert (same_gate self3 self') as [Hf4 Hc4].
  { revert Hr. unfold EC.send_keepalive. destruct (_ && _); [|by intros [= <- _]].
    intros ([s1 a1] & Hq%send_endpoint_message_quiet%quiet_gate & Hr)%bind_ret.
    by apply Ret_inj in Hr as [= <- _]. }
  rewrite Hc4, Hc3, Hc2, Hc1, Hf4, Hf3, Hf2, Hf1. split; [done|].
  unfold EC.current_time. by rewrite Hc1.
Qed.

(** The events that are not inbound packets. *)
Lemma other_event_gate self e event a r self' a' :
  match event with TransportPacketReceived _ _ => False | _ => True end →
  EC.handle_event self e event a = Ret (r, self', a') → same_gate self self'.
Proof.
  destruct event as [ch bytes|ch bytes| |c bytes|c reason]; cbn [EC.handle_event];
    intros Hev Hr; try done.
  - unfold EC.handle_send_failed in Hr. cbn zeta in Hr.
    apply bind_ret in Hr as (pl & _ & Hr).
    apply bind_ret in Hr as (d & _ & Hr). apply bind_ret in Hr as (env & _ & Hr).
    apply bind_ret in Hr as (o & _ & Hr). apply bind_ret in Hr as (m & _ & Hr).
    match type of Hr with context [EC.send_envelope ?x] => set (self1 := x) in * end.
    assert (same_gate self self1) as H1 by (subst self1; by destruct (bool_decide _)).
    destruct m; try (by apply Ret_inj in Hr as [= _ <- _]).
    apply bind_ret in Hr as ([self2 a2] & H2%send_envelope_quiet%quiet_gate & Hr).
    apply Ret_inj in Hr as [= _ <- _]. by etrans.
  - unfold EC.handle_session_open in Hr. cbn zeta in Hr.
    apply bind_ret in Hr as ([self1 a1] & H1%send_session_message_gate & Hr).
    by apply Ret_inj in Hr as [= _ <- _].
  - unfold EC.handle_session_write in Hr. apply bind_ret in Hr as (s & _ & Hr).
    apply bind_ret in Hr as (n & _ & Hr). destruct (_ <? _).
    + by apply Ret_inj in Hr as [= _ <- _].
    + apply bind_ret in Hr as ([self1 a1] & H1%send_session_message_gate & Hr).
      by apply Ret_inj in Hr as [= _ <- _].
  - unfold EC.handle_session_close in Hr. apply bind_ret in Hr as (s & _ & Hr).
    apply bind_ret in Hr as ([self1 a1] & H1%queue_local_close_gate & Hr).
    by apply Ret_inj in Hr as [= _ <- _].
Qed.

(** ** Reachable states *)

(** One call of the shell: an event, or a poll. *)
Definition call (self : EC.t) (elapsed : Z) (ev : cause) (actions : list CoreAction)
    : comp (EC.t * list CoreAction) :=
  match ev with
  | Some event =>
      '(_, self, actions) ← EC.handle_event self elapsed event actions;
      Ret (self, actions)
  | None => EC.poll self elapsed actions
  end.

Definition call_ok (self : EC.t) (ev : cause) : Prop :=
  match ev with Some event => shell_ok self event | None => True end.

Inductive reachable (config : EndpointConfig.t) : EC.t → Prop :=
  | reach_new self : EC.new config = Ret self → reachable config self
  | reach_call self elapsed ev actions self' actions' :
      reachable config self → call_ok self ev →
      call self elapsed ev actions = Ret (self', actions') →
      reachable config self'.

Lemma call_lifecycle self e ev a self' a' :
  call_ok self ev → call self e ev a = Ret (self', a') → lifecycle ev self a self' a'.
Proof.
  destruct ev as [event|]; cbn [call call_ok].
  - intros Hok ([[r s1] a1] & H1 & Hr)%bind_ret. apply Ret_inj in Hr as [= <- <-].
    by eapply handle_event_lifecycle.
  - intros _. apply poll_lifecycle.
Qed.

Lemma new_sane config self : EC.new config = Ret self → sane self.
Proof.
  unfold EC.new. intros (overhead & _ & Hr)%bind_ret.
  destruct (RandomStream.u64 _) as [r1 rnd1]. destruct (RandomStream.u64 _) as [r2 rnd2].
  apply Ret_inj in Hr as <-. intros c. left. apply lookup_empty.
Qed.

Lemma reachable_sane config self : reachable config self → sane self.
Proof.
  induction 1 as [self Hn|self e ev a self' a' _ IH Hok Hc]; [by eapply new_sane|].
  by apply (call_lifecycle _ _ _ _ _ _ Hok Hc).
Qed.

(** C5: in every reachable state of an endpoint, every call moves each
    conversation along the documented session state machine and emits, for
    that conversation, exactly the actions its steps are labelled with; a
    conversation is never both live and buried.  So data is delivered only
    while open, a conversation is announced once, and a buried one ignores
    packets until its tombstone expires. *)
Theorem session_state_machine config self elapsed ev actions self' actions' :
  reachable config self → call_ok self ev →
  call self elapsed ev actions = Ret (self', actions') →
  sane self' ∧ ∃ out, actions' = actions ++ out ∧
    ∀ c, session_run ev c (view self c) (shell_view c out) (view self' c).
Proof.
  intros Hr%reachable_sane Hok Hc. by apply (call_lifecycle _ _ _ _ _ _ Hok Hc).
Qed.

End steps.

(** ** Witnesses *)

#[local] Existing Instance toy_aegis.
#[local] Existing Instance toy_aegis_spec.
#[local] Existing Instance toy_blake3.
#[local] Existing Instance toy_blake3_spec.
#[local] Existing Instance Sequence.toy_iter.
#[local] Existing Instance Sequence.toy_iter_spec.

(** Two endpoints joined by channel 7; [seed] tells them apart. *)
Definition demo_endpoint (seed : Z) : EndpointConfig.t :=
  {| EndpointConfig.envelope_key := vec 16 1;
     EndpointConfig.message_key := vec 16 2;
     EndpointConfig.random_seed := vec 16 seed;
     EndpointConfig.boot_time_ms := 1000000;
     EndpointConfig.kcp := KcpConfig.Build_t 0 0 0 32;
     EndpointConfig.route :=
       {| RouteConfig.graph := RouteGraph.Build_t
            [RouteNode.Build_t [RouteEdge.Build_t 7 1 0 0]; RouteNode.Build_t []];
          RouteConfig.min_mtu := 200;
          RouteConfig.feedback_interval_ms := 1000;
          RouteConfig.feedback_timeout_ms := 500 |};
     EndpointConfig.local_channels := [7];
     EndpointConfig.padding_reserve := 10;
     EndpointConfig.keepalive_interval_ms := 5000 |}.

Definition demo_core (seed : Z) : comp EC.t := EC.new (demo_endpoint seed).

(** Deliver the transport packets among the actions of the other side. *)
Definition deliver (self : EC.t) (elapsed : Z) (sent : list CoreAction)
    : comp (EC.t * list CoreAction) :=
  for_each sent (λ a '(self, actions),
    match a with
    | SendTransportPacket ch bytes =>
        call self elapsed (Some (TransportPacketReceived ch bytes)) actions
    | _ => Ret (self, actions)
    end) (self, []).

(** What the shells see of a session opened, written to and closed by the
    first endpoint: the actions other than transport packets. *)
Definition demo_dialogue : comp (list CoreAction * list CoreAction * ConvId) :=
  a ← demo_core 3; b ← demo_core 4;
  let conv := EC.next_conv_id a in
  '(a, sent) ← call a 10 (Some SessionOpen) [];
  '(a, sent) ← call a 12 (Some (SessionWrite conv [1; 2; 3])) sent;
  '(b, got) ← deliver b 60 sent;
  '(a, _) ← deliver a 110 got;
  '(a, sent) ← call a 120 (Some (SessionClose conv LocalClosed)) [];
  '(b, got2) ← deliver b 170 sent;
  '(a, back) ← deliver a 220 got2;
  Ret (shell_view conv (got ++ got2), shell_view conv back, conv).

Example demo_dialogue_runs : ∃ c,
  demo_dialogue = Ret ([OpenSession c; WriteSession c [1; 2; 3]; CloseSession c LocalClosed],
                       [CloseSession c LocalClosed], c).
Proof. eexists. vm_compute. reflexivity. Qed.

Lemma new_idle config self c : EC.new config = Ret self → view self c = Idle.
Proof.
  unfold EC.new. intros (overhead & _ & Hr)%bind_ret.
  destruct (RandomStream.u64 _) as [r1 rnd1]. destruct (RandomStream.u64 _) as [r2 rnd2].
  apply Ret_inj in Hr as <-. unfold view, state_of. cbn. by rewrite !lookup_empty.
Qed.

Lemma session_state_machine_witness :
  ∃ self self' actions',
    reachable (demo_endpoint 3) self
    ∧ call self 10 (Some SessionOpen) [] = Ret (self', actions')
    ∧ sane self' ∧ ∃ out, actions' = [] ++ out ∧
      ∀ c, session_run (Some SessionOpen) c (view self c) (shell_view c out) (view self' c).
Proof.
  destruct (is_ret_returns (demo_core 3 ≫= λ s, call s 10 (Some SessionOpen) []))
    as [[self' actions'] E]; [by vm_compute|].
  apply bind_ret in E as (self & En & Ec).
  pose proof (reach_new (demo_endpoint 3) self En) as Hreach.
  exists self, self', actions'. split; [exact Hreach|]. split; [exact Ec|].
  apply (session_state_machine (demo_endpoint 3) self 10 (Some SessionOpen) [] self' actions');
    [exact Hreach| |exact Ec].
  cbn [call_ok shell_ok]. exact (new_idle _ _ _ En).
Defined.
