(* ===== verification/EndpointFacts.v ===== *)
(** * Correctness of the endpoint core

    Sealed messages open again; a forged, misrouted or replayed packet has no
    effect beyond one counter; and the eviction of a peer's window closes
    exactly the sessions bound to it.  The state machine of a session is in
    [EndpointLifecycle]. *)

From S2P Require Import Prelude Bytes Core Wire WireFacts Sequence.
From S2P Require Import SequenceFacts SequenceTrace Crypto Packet Machine.
From S2P Require Import MachineFacts Kcp Routing Endpoint EndpointLifecycle.

(** ** Sealing *)

Section sealing.
Context `{Aes : Aegis128L, AesSpec : !Aegis128LSpec, Bl : Blake3, It : HashIter}.

Lemma seal_eq (self : EC.t) stamp m :
  in_width TIME_BITS (stamp_time stamp) → EndpointMessage.wf m →
  let nonce := header_bytes (stamp_time stamp) (stamp_seq_id stamp) (stamp_seq_no stamp) 0 in
  let sealed := encrypt_in_place (EndpointConfig.message_key (EC.config self)) nonce
                  (message_bytes m) in
  EC.seal_endpoint_message self stamp m = Ret (sealed.2 ++ sealed.1).
Proof.
  intros Ht Hm. cbn zeta. unfold EC.seal_endpoint_message.
  rewrite message_encode_eq by done. cbn [mbind comp_bind].
  rewrite endpoint_nonce_eq by done. cbn [mbind comp_bind].
  rewrite slice_app_r by (rewrite ?len_app, ?len_vec; done || lia).
  cbn [mbind comp_bind].
  pose proof (encrypt_len (EndpointConfig.message_key (EC.config self))
    (header_bytes (stamp_time stamp) (stamp_seq_id stamp) (stamp_seq_no stamp) 0)
    (message_bytes m)) as Hc.
  pose proof (encrypt_tag_len (EndpointConfig.message_key (EC.config self))
    (header_bytes (stamp_time stamp) (stamp_seq_id stamp) (stamp_seq_no stamp) 0)
    (message_bytes m)) as Htag.
  destruct (encrypt_in_place _ _ _) as [c t]. cbn [fst snd] in *.
  rewrite <- (app_nil_r (message_bytes m)).
  rewrite copy_middle by (rewrite ?len_app, ?len_vec, ?(@len_nil Z); done || lia).
  cbn [mbind comp_bind]. rewrite app_nil_r. by rewrite copy_prefix.
Qed.

Lemma open_parts (self : EC.t) stamp tag body :
  in_width TIME_BITS (stamp_time stamp) → len tag = 16 →
  EC.open_endpoint_message self stamp (tag ++ body)
  = match decrypt_in_place (EndpointConfig.message_key (EC.config self))
            (header_bytes (stamp_time stamp) (stamp_seq_id stamp) (stamp_seq_no stamp) 0)
            body tag with
    | None => Ret None
    | Some body => m ← EndpointMessage.decode body; Ret (Some m)
    end.
Proof.
  intros Ht Htag. unfold EC.open_endpoint_message.
  pose proof (len_nonneg body). rewrite len_app, Htag.
  rewrite (proj2 (Z.ltb_ge _ _)) by lia.
  rewrite endpoint_nonce_eq by done. cbn [mbind comp_bind].
  rewrite slice_app_l by done. cbn [mbind comp_bind].
  by rewrite slice_app_r by lia.
Qed.

Lemma seal_open (self other : EC.t) stamp m :
  in_width TIME_BITS (stamp_time stamp) → EndpointMessage.wf m →
  EndpointConfig.message_key (EC.config other)
    = EndpointConfig.message_key (EC.config self) →
  ∃ sealed, EC.seal_endpoint_message self stamp m = Ret sealed
    ∧ len sealed = 16 + len (message_bytes m)
    ∧ EC.open_endpoint_message other stamp sealed = Ret (Some m).
Proof.
  intros Ht Hm Hk. rewrite seal_eq by done. eexists; split; [done|].
  rewrite len_app, encrypt_len, encrypt_tag_len. split; [done|].
  rewrite open_parts by (done || apply encrypt_tag_len).
  rewrite Hk, decrypt_encrypt, message_decode_bytes by done. done.
Qed.

End sealing.

(** ** The gate in front of the sessions *)

Section gate.
Context `{Aes : Aegis128L, AesSpec : !Aegis128LSpec, Bl : Blake3,
  It : HashIter, ItSpec : !HashIterSpec}.

(** The packet does not pass: no envelope, more hops to go, not sealed with the
    message key, or a stamp that was accepted before. *)
Definition not_for_us (self : EC.t) (log : list packet) (bytes : list Z) : Prop :=
  ∀ e, decode_transport_packet (EndpointConfig.envelope_key (EC.config self)) bytes
         = Ret (Ok e) →
    Envelope.route_plan e ≠ []
    ∨ EC.open_endpoint_message self (envelope_stamp e) (Envelope.payload e) = Ret None
    ∨ returns (EC.open_endpoint_message self (envelope_stamp e) (Envelope.payload e))
      ∧ envelope_packet e ∈ log.

(** Nothing but the metrics and the replay filter differ. *)
Definition inert (self self' : EC.t) : Prop :=
  self' = self <| EC.metrics := EC.metrics self' |>
               <| EC.sequence_filter := EC.sequence_filter self' |>.

Lemma current_time_tick (self : EC.t) elapsed :
  0 <= EndpointConfig.boot_time_ms (EC.config self) + elapsed < 2 ^ 64 →
  EC.current_time self elapsed
  = tick_of (EndpointConfig.boot_time_ms (EC.config self)) elapsed mod 2 ^ 26.
Proof. apply current_time_of_tick. Qed.

Lemma gate_closed T0 (self : EC.t) elapsed bytes actions log :
  let T := tick_of (EndpointConfig.boot_time_ms (EC.config self)) elapsed in
  0 <= EndpointConfig.boot_time_ms (EC.config self) + elapsed < 2 ^ 64 →
  T0 <= T < T0 + 2 ^ 24 → bytes_ok bytes →
  filter_inv T0 T (EC.sequence_filter self) log → not_for_us self log bytes →
  ∃ self', EC.handle_transport_packet self elapsed bytes actions = Ret (self', actions)
    ∧ inert self self' ∧ filter_inv T0 T (EC.sequence_filter self') log
    ∧ one_more_handled (EC.metrics self) (EC.metrics self').
Proof.
  intros T Hclk HT Hok Hinv Hnot. unfold EC.handle_transport_packet. cbn zeta.
  destruct (receive_cases (EndpointConfig.envelope_key (EC.config self))
    (EC.metrics self) bytes Hok) as [(m & -> & Hm)|(e & -> & Hd & Hwf & _)];
    cbn [mbind comp_bind].
  { eexists; split_and!; [done|by destruct self|done|done]. }
  change (EC.open_endpoint_message (self <| EC.metrics := EC.metrics self |>))
    with (EC.open_endpoint_message self).
  specialize (Hnot e Hd).
  destruct (Z.eqb_spec (len (Envelope.route_plan e)) 0) as [Hl|Hl]; cbn [negb].
  2: { eexists; split_and!; [done|by destruct self|done|]. count_bump. }
  apply len_zero_nil in Hl. destruct Hnot as [|Hnot]; [done|].
  assert (EC.open_endpoint_message self (envelope_stamp e) (Envelope.payload e) = Ret None
    ∨ ∃ m, EC.open_endpoint_message self (envelope_stamp e) (Envelope.payload e) = Ret (Some m)
        ∧ envelope_packet e ∈ log) as [-> | (m & -> & Hin)].
  { destruct Hnot as [|[[[m|] Hm] Hin]]; [by left|right; by exists m|by left]. }
  { cbn [mbind comp_bind]. eexists; split_and!; [done|by destruct self|done|]. count_bump. }
  cbn [mbind comp_bind]. rewrite current_time_tick by done.
  destruct (check_sequence_cases T0 T (EC.sequence_filter self) (EC.metrics self) e log HT Hwf Hinv)
    as [(f & m' & Hc & Hf & Hm')|(f & _ & Hf)].
  - cbn. fold T. rewrite Hc. cbn [mbind comp_bind negb].
    eexists; split_and!; [done|by destruct self|done|done].
  - exfalso. destruct Hf as (G & _ & _ & Hnd).
    apply NoDup_app in Hnd as (_ & Hnd & _). apply (Hnd _ Hin). by left.
Qed.

(** The stamp a packet passes the gate with, if it does. *)
Definition admission (self : EC.t) (elapsed : Z) (bytes : list Z) : list packet :=
  match decode_transport_packet (EndpointConfig.envelope_key (EC.config self)) bytes with
  | Ret (Ok e) =>
      match Envelope.route_plan e,
            EC.open_endpoint_message self (envelope_stamp e) (Envelope.payload e),
            SequenceFilter.check_and_insert (EC.sequence_filter self)
              (EC.current_time self elapsed) (Envelope.time e) (Envelope.seq_id e)
              (Envelope.seq_no e) with
      | [], Ret (Some _), Ret (Ok _, _) => [envelope_packet e]
      | _, _, _ => []
      end
  | _ => []
  end.

Lemma check_sequence_result f m now e b f' m' :
  check_sequence f m now (envelope_stamp e) = Ret (b, f', m') →
  ∃ r, SequenceFilter.check_and_insert f now (Envelope.time e) (Envelope.seq_id e)
         (Envelope.seq_no e) = Ret (r, f')
    ∧ b = match r with Ok _ => true | Err _ => false end.
Proof.
  unfold check_sequence. cbn [stamp_time stamp_seq_id stamp_seq_no envelope_stamp].
  intros ([r f1] & -> & Hr)%bind_ret. exists r.
  by destruct r as [[]|[]]; apply Ret_inj in Hr as [= <- <- <-].
Qed.

(** A packet takes effect only with an admitted stamp, which is new. *)
Lemma gate_admission T0 (self : EC.t) elapsed bytes actions log self' actions' :
  let T := tick_of (EndpointConfig.boot_time_ms (EC.config self)) elapsed in
  0 <= EndpointConfig.boot_time_ms (EC.config self) + elapsed < 2 ^ 64 →
  T0 <= T < T0 + 2 ^ 24 → bytes_ok bytes →
  filter_inv T0 T (EC.sequence_filter self) log →
  EC.handle_transport_packet self elapsed bytes actions = Ret (self', actions') →
  filter_inv T0 T (EC.sequence_filter self') (log ++ admission self elapsed bytes)
  ∧ (admission self elapsed bytes = [] → actions' = actions ∧ inert self self').
Proof.
  intros T Hclk HT Hok Hinv Hh. unfold admission.
  unfold EC.handle_transport_packet in Hh. cbn zeta in Hh.
  assert (filter_inv T0 T (EC.sequence_filter self) (log ++ [])) as Hinv0
    by by rewrite app_nil_r.
  unfold receive_transport_packet in Hh.
  destruct (decode_transport_packet_returns (EndpointConfig.envelope_key (EC.config self))
    bytes Hok) as [[e|err] Hd]; rewrite Hd in Hh |- *; cbn [mbind comp_bind] in Hh.
  2: { destruct err; apply Ret_inj in Hh as [= <- <-];
         (split; [done|by destruct self]). }
  apply decode_transport_packet_Ok in Hd as (Hwf & _); [|done].
  change (EC.open_endpoint_message (self <| EC.metrics := EC.metrics self |>))
    with (EC.open_endpoint_message self) in Hh.
  destruct (Envelope.route_plan e) as [|hop hops]; cbn [len length] in Hh.
  2: { apply Ret_inj in Hh as [= <- <-]. split; [done|by destruct self]. }
  cbn [Z.of_nat Z.eqb negb] in Hh. apply bind_ret in Hh as (o & -> & Hh).
  destruct o as [m|].
  2: { apply Ret_inj in Hh as [= <- <-]. split; [done|by destruct self]. }
  rewrite current_time_tick in Hh |- * by done. cbn in Hh. fold T in Hh |- *.
  destruct (check_sequence_cases T0 T (EC.sequence_filter self) (EC.metrics self) e log HT Hwf Hinv)
    as [(f & m' & Hc & Hf & Hm')|(f & Hc & Hf)]; rewrite Hc in Hh;
    apply check_sequence_result in Hc as (r & -> & Hb); cbn [mbind comp_bind negb] in Hh;
    destruct r; try done.
  - apply Ret_inj in Hh as [= <- <-]. rewrite app_nil_r. split; [done|by destruct self].
  - split; [|done].
    apply bind_ret in Hh as ([self1 a1] & H1 & Hh).
    apply (handle_message_gate _ _ (envelope_stamp e)) in H1 as [H1 _].
    apply send_route_reply_quiet, quiet_gate in Hh as [H2 _].
    by rewrite H2, H1.
Qed.

(** ** Traces *)

(** The stamps one call admits. *)
Definition admits (self : EC.t) (elapsed : Z) (ev : option CoreEvent) : list packet :=
  match ev with
  | Some (TransportPacketReceived _ bytes) => admission self elapsed bytes
  | _ => []
  end.

(** Calls at a monotone clock, for at most 2^24 ticks, on arbitrary packets. *)
Inductive history (config : EndpointConfig.t) : Z → EC.t → list packet → Prop :=
  | history_new self : EC.new config = Ret self → history config 0 self []
  | history_call now self log elapsed ev actions self' actions' :
      history config now self log →
      now <= elapsed →
      0 <= EndpointConfig.boot_time_ms config + elapsed < 2 ^ 64 →
      tick_of (EndpointConfig.boot_time_ms config) elapsed
        < tick_of (EndpointConfig.boot_time_ms config) 0 + 2 ^ 24 →
      match ev with Some (TransportPacketReceived _ bytes) => bytes_ok bytes | _ => True end →
      call self elapsed ev actions = Ret (self', actions') →
      history config elapsed self' (log ++ admits self elapsed ev).

Lemma new_fields config self :
  EC.new config = Ret self →
  EndpointConfig.boot_time_ms (EC.config self) = EndpointConfig.boot_time_ms config
  ∧ EC.sequence_filter self = SequenceFilter.default.
Proof.
  unfold EC.new. intros (overhead & _ & Hr)%bind_ret.
  destruct (RandomStream.u64 _) as [r1 rnd1]. destruct (RandomStream.u64 _) as [r2 rnd2].
  by apply Ret_inj in Hr as <-.
Qed.

Lemma received_config (self : EC.t) e bytes a self' a' :
  EC.handle_transport_packet self e bytes a = Ret (self', a') →
  EC.config self' = EC.config self.
Proof.
  unfold EC.handle_transport_packet. cbn zeta.
  intros ([received m] & _ & Hr)%bind_ret.
  destruct received as [env|]; [|by apply Ret_inj in Hr as [= <- _]].
  destruct (negb _); [by apply Ret_inj in Hr as [= <- _]|].
  apply bind_ret in Hr as (opened & _ & Hr).
  destruct opened as [msg|]; [|by apply Ret_inj in Hr as [= <- _]].
  apply bind_ret in Hr as ([[fresh f] m2] & _ & Hr).
  destruct (negb fresh); [by apply Ret_inj in Hr as [= <- _]|].
  apply bind_ret in Hr as ([self2 a2] & [_ H1]%handle_message_gate & Hr).
  apply send_route_reply_quiet, quiet_gate in Hr as [_ H2]. by rewrite H2, H1.
Qed.

Lemma call_filter T0 (self : EC.t) elapsed ev a self' a' log :
  let T := tick_of (EndpointConfig.boot_time_ms (EC.config self)) elapsed in
  0 <= EndpointConfig.boot_time_ms (EC.config self) + elapsed < 2 ^ 64 →
  T0 <= T < T0 + 2 ^ 24 →
  match ev with Some (TransportPacketReceived _ bytes) => bytes_ok bytes | _ => True end →
  filter_inv T0 T (EC.sequence_filter self) log →
  call self elapsed ev a = Ret (self', a') →
  EC.config self' = EC.config self
  ∧ filter_inv T0 T (EC.sequence_filter self') (log ++ admits self elapsed ev).
Proof.
  intros T Hclk HT Hok Hinv. destruct ev as [event|]; cbn [call admits].
  2: { intros [Hc Hf]%poll_gate. split; [done|].
       rewrite Hf, current_time_tick by done.
       destruct (expire_step_inv T0 T (EC.sequence_filter self) log SEQUENCE_SOFT_CAP HT Hinv)
         as (f & Hf' & Hi). cbn [filter_step] in Hf'.
       destruct (SequenceFilter.remove_expired _ _ _) as [ids f1]. by apply Ret_inj in Hf' as [= <-]. }
  intros ([[r s1] a1] & H1 & Hr)%bind_ret. apply Ret_inj in Hr as [= <- _].
  destruct event as [ch bytes|ch bytes| |c bytes|c reason];
    try (apply other_event_gate in H1 as [-> ->]; [by rewrite app_nil_r|done]).
  cbn [EC.handle_event] in H1. apply bind_ret in H1 as ([s2 a2] & H2 & Hr).
  apply Ret_inj in Hr as [= _ <- _].
  split; [by apply received_config in H2|].
  by apply (gate_admission T0) with (log := log) in H2 as [Hf _].
Qed.

Lemma history_filter config now self log :
  0 <= EndpointConfig.boot_time_ms config →
  history config now self log →
  EndpointConfig.boot_time_ms (EC.config self) = EndpointConfig.boot_time_ms config
  ∧ 0 <= now
  ∧ filter_inv (tick_of (EndpointConfig.boot_time_ms config) 0)
      (tick_of (EndpointConfig.boot_time_ms config) now) (EC.sequence_filter self) log.
Proof.
  intros Hboot. induction 1 as [self Hn|now self log e ev a self' a' _ IH Hle Hclk HT Hok Hc].
  - apply new_fields in Hn as [-> ->]. split_and!; [done|done|apply filter_inv_default].
  - destruct IH as (Hcfg & Hnow & Hinv).
    apply (call_filter (tick_of (EndpointConfig.boot_time_ms config) 0)) with (log := log) in Hc
      as [Hc Hf]; rewrite ?Hcfg; try done.
    + rewrite Hc, Hcfg in *. split_and!; [done|lia|done].
    + pose proof (tick_of_mono (EndpointConfig.boot_time_ms config) 0 e). lia.
    + eapply filter_inv_mono; [|done]. by apply tick_of_mono.
Qed.

End gate.

(** ** Eviction of a peer *)

Section eviction.
Context `{Aes : Aegis128L, Bl : Blake3, It : HashIter}.

(** The session of [c] belongs to one of the evicted peers. *)
Definition bound_to (peers : list Z) (sessions : gmap ConvId ES.t) (c : ConvId) : bool :=
  match sessions !! c with
  | Some s => match ES.peer_seq s with
              | Some peer => bool_decide (peer ∈ peers) | None => false end
  | None => false
  end.

(** The notification a removed session leaves. *)
Definition close_notice (sessions : gmap ConvId ES.t) (c : ConvId) : option CoreAction :=
  match sessions !! c with
  | Some s => if bool_decide (ES.phase s = PendingRemote) then None
              else Some (CloseSession c Reset)
  | None => None
  end.

(** [self'] is [self] without the sessions of [gone], which are buried. *)
Record evicted (elapsed : Z) (gone : ConvId → bool) (self self' : EC.t) : Prop := {
  ev_sessions : ∀ c, EC.sessions self' !! c
    = if gone c then None else EC.sessions self !! c;
  ev_tombstones : ∀ c, EC.tombstones self' !! c
    = if gone c then Some (elapsed +{64} SESSION_TOMBSTONE_MS) else EC.tombstones self !! c;
  ev_rest : self' = self <| EC.sessions := EC.sessions self' |>
                         <| EC.tombstones := EC.tombstones self' |>;
}.

Definition notices (sessions : gmap ConvId ES.t) (gone : ConvId → bool)
    (out : list CoreAction) : Prop :=
  NoDup out ∧ ∀ x, x ∈ out ↔ ∃ c s, x = CloseSession c Reset
    ∧ sessions !! c = Some s ∧ gone c = true ∧ ES.phase s ≠ PendingRemote.

Lemma elem_of_sessions_of_peer (self : EC.t) peer c :
  c ∈ EC.sessions_of_peer self peer
  ↔ ∃ s, EC.sessions self !! c = Some s ∧ ES.peer_seq s = Some peer.
Proof.
  unfold EC.sessions_of_peer, conv_iter. rewrite list_elem_of_fmap. split.
  - intros ([c' s] & -> & Hin). apply list_elem_of_In, List.filter_In in Hin as [Hin Hp].
    apply bool_decide_eq_true in Hp. exists s. split; [|done].
    apply list_elem_of_In in Hin. rewrite merge_sort_Permutation in Hin.
    by apply elem_of_map_to_list in Hin.
  - intros (s & Hs & Hp). exists (c, s). split; [done|].
    apply list_elem_of_In, List.filter_In. split; [|by apply bool_decide_eq_true].
    apply list_elem_of_In. rewrite merge_sort_Permutation. by apply elem_of_map_to_list.
Qed.

Lemma NoDup_sessions_of_peer (self : EC.t) peer : NoDup (EC.sessions_of_peer self peer).
Proof.
  unfold EC.sessions_of_peer. eapply sublist_NoDup; [|apply filter_fst_sublist].
  unfold conv_iter. rewrite merge_sort_Permutation. apply NoDup_fst_map_to_list.
Qed.

Lemma reset_session_eq elapsed c (self : EC.t) a s :
  EC.sessions self !! c = Some s →
  EC.reset_session elapsed c self a
  = Ret (self <| EC.sessions ::= delete c |>
              <| EC.tombstones ::= <[c := elapsed +{64} SESSION_TOMBSTONE_MS]> |>,
         a ++ option_list (close_notice (EC.sessions self) c)).
Proof.
  intros Hs. unfold EC.reset_session, close_notice. rewrite Hs. cbn [unwrap mbind comp_bind].
  destruct (bool_decide _); cbn [option_list]; by rewrite ?app_nil_r.
Qed.

Lemma reset_loop elapsed l : ∀ (self : EC.t) a,
  NoDup l → (∀ c, c ∈ l → is_Some (EC.sessions self !! c)) →
  ∃ self',
    for_each l (λ c '(self, a), EC.reset_session elapsed c self a) (self, a)
      = Ret (self', a ++ omap (close_notice (EC.sessions self)) l)
    ∧ evicted elapsed (λ c, bool_decide (c ∈ l)) self self'.
Proof.
  induction l as [|c l IH]; intros self a Hnd Hl; cbn [for_each].
  { exists self. cbn. rewrite app_nil_r. split; [done|].
    split; [..|by destruct self]; intros c; by rewrite bool_decide_eq_false_2 by set_solver. }
  apply NoDup_cons in Hnd as [Hc Hnd]. destruct (Hl c ltac:(by left)) as [s Hs].
  rewrite (reset_session_eq _ _ _ _ s Hs). cbn [mbind comp_bind].
  match goal with |- context [for_each l _ (?x, ?y)] =>
    set (self1 := x); set (a1 := y) end.
  assert (EC.sessions self1 = delete c (EC.sessions self)) as Es1 by done.
  assert (EC.tombstones self1
    = <[c := elapsed +{64} SESSION_TOMBSTONE_MS]> (EC.tombstones self)) as Et1 by done.
  destruct (IH self1 a1 Hnd) as (self' & Hr & [Hses Htomb Hrest]).
  { intros c' Hc'. rewrite Es1, lookup_delete_ne by set_solver. apply Hl. by right. }
  exists self'. rewrite Hr. split.
  - f_equal. f_equal. cbn [omap list_omap].
    assert (omap (close_notice (EC.sessions self1)) l
      = omap (close_notice (EC.sessions self)) l) as ->.
    { apply list_omap_ext, Forall_Forall2_diag, Forall_forall. intros c' Hc'.
      unfold close_notice. rewrite Es1, lookup_delete_ne; [done|]. set_solver. }
    unfold a1. rewrite <- (assoc_L (++)). f_equal. by destruct (close_notice _ c).
  - split; [intros c'; rewrite Hses, Es1|intros c'; rewrite Htomb, Et1|].
    + destruct (decide (c' = c)) as [->|Hne].
      * rewrite lookup_delete_eq, (bool_decide_eq_true_2 (c ∈ c :: l)) by set_solver.
        by destruct (bool_decide _).
      * rewrite lookup_delete_ne by done. do 2 case_bool_decide; set_solver.
    + destruct (decide (c' = c)) as [->|Hne].
      * rewrite lookup_insert_eq, (bool_decide_eq_true_2 (c ∈ c :: l)) by set_solver.
        by destruct (bool_decide _).
      * rewrite lookup_insert_ne by done. do 2 case_bool_decide; set_solver.
    + rewrite Hrest. by destruct self.
Qed.

Lemma close_notice_Some sessions c x :
  close_notice sessions c = Some x ↔
  ∃ s, x = CloseSession c Reset ∧ sessions !! c = Some s ∧ ES.phase s ≠ PendingRemote.
Proof.
  unfold close_notice. destruct (sessions !! c) as [s|]; [case_bool_decide|]; naive_solver.
Qed.

Lemma notices_of sessions l :
  NoDup l → notices sessions (λ c, bool_decide (c ∈ l)) (omap (close_notice sessions) l).
Proof.
  intros Hl. split.
  - induction Hl as [|c l Hc Hl IH]; cbn; [constructor|].
    destruct (close_notice sessions c) as [x|] eqn:E; [|done]. constructor; [|done].
    apply close_notice_Some in E as (s & -> & _).
    intros (c' & Hc' & E)%list_elem_of_omap. apply close_notice_Some in E as (? & [= ->] & _).
    done.
  - intros x. rewrite list_elem_of_omap. setoid_rewrite close_notice_Some.
    setoid_rewrite bool_decide_eq_true. naive_solver.
Qed.

Lemma bound_to_cons elapsed peer ids (self self1 : EC.t) c :
  evicted elapsed (λ c, bool_decide (c ∈ EC.sessions_of_peer self peer)) self self1 →
  bound_to (peer :: ids) (EC.sessions self) c
  = bool_decide (c ∈ EC.sessions_of_peer self peer) || bound_to ids (EC.sessions self1) c.
Proof.
  intros [Hs _ _]. unfold bound_to. rewrite Hs.
  case_bool_decide as Hin; cbn [orb].
  - apply elem_of_sessions_of_peer in Hin as (s & -> & ->).
    by apply bool_decide_eq_true_2, list_elem_of_here.
  - destruct (EC.sessions self !! c) as [s|] eqn:Es; [|done].
    destruct (ES.peer_seq s) as [p|] eqn:Ep; [|done].
    apply bool_decide_ext. rewrite elem_of_cons. split; [|by right].
    intros [->|]; [|done]. exfalso. apply Hin, elem_of_sessions_of_peer. eauto.
Qed.

Lemma eviction_loop elapsed ids : ∀ (self : EC.t) a,
  ∃ self' out,
    for_each ids (λ peer '(self, a),
      for_each (EC.sessions_of_peer self peer)
        (λ c '(self, a), EC.reset_session elapsed c self a) (self, a)) (self, a)
      = Ret (self', a ++ out)
    ∧ evicted elapsed (bound_to ids (EC.sessions self)) self self'
    ∧ notices (EC.sessions self) (bound_to ids (EC.sessions self)) out.
Proof.
  induction ids as [|peer ids IH]; intros self a; cbn [for_each].
  - exists self, []. rewrite app_nil_r. split; [done|].
    assert (∀ c, bound_to [] (EC.sessions self) c = false) as Hb.
    { intros c. unfold bound_to. destruct (_ !! _) as [s|]; [|done].
      by destruct (ES.peer_seq s). }
    split; split; try (intros c; by rewrite Hb); [by destruct self|constructor|].
    intros x. rewrite elem_of_nil. split; [done|]. intros (c & s & _ & _ & Hg & _).
    by rewrite Hb in Hg.
  - destruct (reset_loop elapsed (EC.sessions_of_peer self peer) self a)
      as (self1 & -> & Hev).
    { apply NoDup_sessions_of_peer. }
    { intros c (s & Hs & _)%elem_of_sessions_of_peer. by exists s. }
    cbn [mbind comp_bind].
    destruct (IH self1 (a ++ omap (close_notice (EC.sessions self))
      (EC.sessions_of_peer self peer))) as (self' & out & -> & Hev' & Hnd & Hout).
    pose proof (notices_of (EC.sessions self) (EC.sessions_of_peer self peer)
      (NoDup_sessions_of_peer self peer)) as [Hnd1 Hout1].
    pose proof (λ c, bound_to_cons elapsed peer ids self self1 c Hev) as Hb.
    destruct Hev as [Hs1 Ht1 Hr1], Hev' as [Hs' Ht' Hr'].
    eexists _, (_ ++ out). rewrite (assoc_L (++)). split; [done|]. split; split.
    + intros c. rewrite Hs', Hs1, Hb. destruct (bool_decide _); [by destruct (bound_to _ _ _)|done].
    + intros c. rewrite Ht', Ht1, Hb. destruct (bool_decide _), (bound_to _ _ _); done.
    + rewrite Hr', Hr1. by destruct self.
    + apply NoDup_app. split_and!; [done| |done].
      intros x (c & s & -> & _ & Hin & _)%Hout1 (c' & s' & [= <-] & Hs & _ & _)%Hout.
      by rewrite Hs1, Hin in Hs.
    + intros x. rewrite elem_of_app, Hout1, Hout. setoid_rewrite Hb.
      setoid_rewrite Hs1. split.
      * intros [(c & s & -> & Hs & Hg & Hp)|(c & s & -> & Hs & Hg & Hp)]; exists c, s.
        -- by rewrite Hg.
        -- destruct (bool_decide _); [done|]. by rewrite Hg.
      * intros (c & s & -> & Hs & Hg & Hp). destruct (bool_decide _) eqn:E; cbn in Hg.
        -- left. exists c, s. done.
        -- right. exists c, s. rewrite E. done.
Qed.

End eviction.

(** ** Properties *)

Section properties.
Context `{Aes : Aegis128L, AesSpec : !Aegis128LSpec, Bl : Blake3,
  It : HashIter, ItSpec : !HashIterSpec}.

(** Whatever message an endpoint seals under a stamp, an endpoint with the
    same message key opens to the same message under that stamp, and sealing
    costs exactly the documented 17 bytes for a KCP packet. *)
Theorem sealed_message_opens (self other : EC.t) stamp m :
  in_width TIME_BITS (stamp_time stamp) → EndpointMessage.wf m →
  EndpointConfig.message_key (EC.config other)
    = EndpointConfig.message_key (EC.config self) →
  ∃ sealed, EC.seal_endpoint_message self stamp m = Ret sealed
    ∧ EC.open_endpoint_message other stamp sealed = Ret (Some m)
    ∧ ∀ depth packet, m = EndpointMessage.KcpPacket depth packet →
        len sealed = ENDPOINT_MESSAGE_OVERHEAD + len packet.
Proof.
  intros Ht Hm Hk. destruct (seal_open self other stamp m Ht Hm Hk)
    as (sealed & Hs & Hl & Ho).
  exists sealed. split_and!; [done|done|]. intros depth packet ->.
  rewrite Hl. cbn [message_bytes]. rewrite len_cons.
  change ENDPOINT_MESSAGE_OVERHEAD with 17. lia.
Qed.

(** C15: a packet that is malformed, forged, addressed further along a route,
    sealed with another message key or a replay changes nothing but the
    metrics and the filter: no panic, no action, no session, sample, route or
    clock state touched, and it is counted exactly once. *)
Theorem rejected_packet_is_inert T0 (self : EC.t) elapsed bytes actions log :
  let T := tick_of (EndpointConfig.boot_time_ms (EC.config self)) elapsed in
  0 <= EndpointConfig.boot_time_ms (EC.config self) + elapsed < 2 ^ 64 →
  T0 <= T < T0 + 2 ^ 24 → bytes_ok bytes →
  filter_inv T0 T (EC.sequence_filter self) log → not_for_us self log bytes →
  ∃ self', EC.handle_transport_packet self elapsed bytes actions = Ret (self', actions)
    ∧ inert self self' ∧ filter_inv T0 T (EC.sequence_filter self') log
    ∧ one_more_handled (EC.metrics self) (EC.metrics self').
Proof. apply gate_closed. Qed.

(** C16: whenever an inbound packet has any effect beyond counters, it passed
    the gate: empty route, both layers authenticated, fresh and unseen stamp;
    from then on that stamp is remembered. *)
Theorem effective_packet_is_genuine T0 (self : EC.t) elapsed bytes actions log
    self' actions' :
  let T := tick_of (EndpointConfig.boot_time_ms (EC.config self)) elapsed in
  0 <= EndpointConfig.boot_time_ms (EC.config self) + elapsed < 2 ^ 64 →
  T0 <= T < T0 + 2 ^ 24 → bytes_ok bytes →
  filter_inv T0 T (EC.sequence_filter self) log →
  EC.handle_transport_packet self elapsed bytes actions = Ret (self', actions') →
  filter_inv T0 T (EC.sequence_filter self') (log ++ admission self elapsed bytes)
  ∧ (admission self elapsed bytes = [] → actions' = actions ∧ inert self self').
Proof. apply gate_admission. Qed.

(** C6: over any history of calls - opens, writes, closes, polls with
    evictions, and arbitrary bytes from the network - an endpoint admits each
    packet stamp at most once: no replay reaches a session. *)
Theorem endpoint_admits_once config now self log :
  0 <= EndpointConfig.boot_time_ms config →
  history config now self log → NoDup log.
Proof.
  intros Hboot Hh. destruct (history_filter config now self log Hboot Hh)
    as (_ & _ & G & _ & _ & Hnd). done.
Qed.

(** C22: evicting expired peer windows never panics, removes exactly the
    sessions bound to an evicted peer and buries them, notifies the shell once
    with [Reset] for each removed session except those never announced
    ([PendingRemote]), and leaves every other session, tombstone and field
    alone.  A session already closed by the peer ([ClosingRemote]) is notified
    a second time. *)
Theorem eviction_closes_bound_sessions (self : EC.t) elapsed actions :
  let '(peers, f) := SequenceFilter.remove_expired (EC.sequence_filter self)
                       (EC.current_time self elapsed) SEQUENCE_SOFT_CAP in
  let gone := bound_to peers (EC.sessions self) in
  ∃ self' out,
    EC.expire_sequences self elapsed actions = Ret (self', actions ++ out)
    ∧ evicted elapsed gone (self <| EC.sequence_filter := f |>) self'
    ∧ notices (EC.sessions self) gone out.
Proof.
  unfold EC.expire_sequences. destruct (SequenceFilter.remove_expired _ _ _) as [peers f].
  cbn zeta.
  destruct (eviction_loop elapsed peers (self <| EC.sequence_filter := f |>) actions)
    as (self' & out & Hr & Hev & Hn).
  exists self', out. done.
Qed.

End properties.

(** ** Witnesses *)

#[local] Existing Instance toy_aegis.
#[local] Existing Instance toy_aegis_spec.
#[local] Existing Instance toy_blake3.
#[local] Existing Instance toy_blake3_spec.
#[local] Existing Instance Sequence.toy_iter.
#[local] Existing Instance Sequence.toy_iter_spec.

(** The endpoint of seed 4, and the packet the endpoint of seed 3 opens with. *)
Definition demo_self : EC.t := Eval vm_compute in from_ret (demo_core 4) eq_refl.

Definition demo_open : list Z :=
  Eval vm_compute in
    match demo_core 3 ≫= λ s, call s 10 (Some SessionOpen) [] with
    | Ret (_, [SendTransportPacket _ bytes]) => bytes
    | _ => []
    end.

Lemma demo_self_new : EC.new (demo_endpoint 4) = Ret demo_self.
Proof. by vm_compute. Qed.

Lemma demo_open_ok : bytes_ok demo_open.
Proof. repeat constructor; by vm_compute. Qed.

Lemma sealed_message_opens_witness :
  ∃ sealed,
    EC.seal_endpoint_message demo_self (Build_EnvelopeStamp 976 4 0)
      (EndpointMessage.KcpPacket 1 [5; 6]) = Ret sealed
    ∧ EC.open_endpoint_message demo_self (Build_EnvelopeStamp 976 4 0) sealed
      = Ret (Some (EndpointMessage.KcpPacket 1 [5; 6]))
    ∧ ∀ depth packet, EndpointMessage.KcpPacket 1 [5; 6] = EndpointMessage.KcpPacket depth packet →
        len sealed = ENDPOINT_MESSAGE_OVERHEAD + len packet.
Proof.
  apply (sealed_message_opens demo_self demo_self); [by vm_compute|split; by vm_compute|done].
Defined.

(** A packet of zeros does not authenticate. *)
Lemma rejected_packet_is_inert_witness :
  ∃ self', EC.handle_transport_packet demo_self 60 (vec 60 0) [] = Ret (self', [])
    ∧ inert demo_self self' ∧ filter_inv 976 976 (EC.sequence_filter self') []
    ∧ one_more_handled (EC.metrics demo_self) (EC.metrics self').
Proof.
  apply (rejected_packet_is_inert 976 demo_self 60 (vec 60 0) [] []);
    [by vm_compute|by vm_compute|by apply bytes_ok_vec|apply filter_inv_default|].
  intros e He. vm_compute in He. discriminate He.
Defined.

Lemma effective_packet_is_genuine_witness :
  ∃ self' actions',
    EC.handle_transport_packet demo_self 60 demo_open [] = Ret (self', actions')
    ∧ filter_inv 976 976 (EC.sequence_filter self') ([] ++ admission demo_self 60 demo_open)
    ∧ (admission demo_self 60 demo_open = [] → actions' = [] ∧ inert demo_self self').
Proof.
  assert (0 <= 1000000 + 60 < 2 ^ 64) as Hclk by lia.
  assert (976 <= tick_of 1000000 60 < 976 + 2 ^ 24) as HT by (by vm_compute).
  destruct (is_ret_returns (EC.handle_transport_packet demo_self 60 demo_open []))
    as [[self' actions'] E]; [by vm_compute|].
  exists self', actions'. split; [exact E|].
  exact (effective_packet_is_genuine 976 demo_self 60 demo_open [] [] self' actions'
    Hclk HT demo_open_ok (filter_inv_default _) E).
Defined.

(** That packet is admitted, its replay is not. *)
Example demo_open_admitted : len (admission demo_self 60 demo_open) = 1.
Proof. by vm_compute. Qed.

Lemma endpoint_admits_once_witness :
  ∃ self log, history (demo_endpoint 4) 60 self log ∧ log ≠ [] ∧ NoDup log.
Proof.
  assert (0 <= 1000000 + 60 < 2 ^ 64) as Hclk by lia.
  assert (tick_of 1000000 60 < tick_of 1000000 0 + 2 ^ 24) as HT by (by vm_compute).
  assert ([] ++ admission demo_self 60 demo_open ≠ []) as Hne by (by vm_compute).
  destruct (is_ret_returns (call demo_self 60 (Some (TransportPacketReceived 7 demo_open)) []))
    as [[self actions] E]; [by vm_compute|].
  assert (history (demo_endpoint 4) 60 self ([] ++ admission demo_self 60 demo_open)) as Hh.
  { exact (history_call (demo_endpoint 4) 0 demo_self [] 60
      (Some (TransportPacketReceived 7 demo_open)) [] self actions
      (history_new _ _ demo_self_new) (Z.lt_le_incl 0 60 eq_refl) Hclk HT demo_open_ok E). }
  eexists self, _. split; [exact Hh|]. split; [exact Hne|].
  exact (endpoint_admits_once (demo_endpoint 4) 60 self _ (Z.lt_le_incl 0 1000000 eq_refl) Hh).
Defined.

(** ** Limits the code does not guard *)

(** The first endpoint with its [Open] acknowledged. *)
Definition demo_connected (cfg : EndpointConfig.t) : comp EC.t :=
  a ← EC.new cfg; b ← demo_core 4;
  '(a, sent) ← call a 10 (Some SessionOpen) [];
  '(b, got) ← deliver b 60 sent;
  '(a, _) ← deliver a 110 got;
  Ret a.

(** A write of [n] bytes on its session. *)
Definition demo_write (cfg : EndpointConfig.t) (n : Z) : comp CoreEventResult :=
  c ← EC.new cfg; a ← demo_connected cfg;
  '(r, _, _) ← EC.handle_event a 120 (SessionWrite (EC.next_conv_id c) (vec n 0)) [];
  Ret r.

(** The blocking test admits a message of as many fragments as the receive
    window, which [Kcp::send] rejects: the event handler panics, between the
    largest message that is sent and the smallest one that is blocked. *)
Fact write_of_a_full_window_panics :
  demo_write (demo_endpoint 3) (127 * 97 - 1) = Ret ResultNone
  ∧ demo_write (demo_endpoint 3) (128 * 97 - 1) = Panic
  ∧ demo_write (demo_endpoint 3) (128 * 97) = Ret SessionWriteBlocked.
Proof. split_and!; vm_compute; reflexivity. Qed.

(** Without padding reserve a full fragment leaves no byte of padding, and the
    padding length is drawn modulo zero. *)
Fact full_packet_without_reserve_panics :
  let cfg := (demo_endpoint 3) <| EndpointConfig.padding_reserve := 0 |> in
  demo_write cfg 105 = Ret ResultNone ∧ demo_write cfg 106 = Panic.
Proof. split; vm_compute; reflexivity. Qed.

(** What the first shell is told of a write of the peer, without and with a
    copy of the endpoint's own [Open] that came back before. *)
Definition demo_reflected : comp (list CoreAction * list CoreAction) :=
  a ← demo_core 3; b ← demo_core 4;
  let c := EC.next_conv_id a in
  '(a, sent) ← call a 10 (Some SessionOpen) [];
  '(b, _) ← deliver b 60 sent;
  '(b, wrote) ← call b 70 (Some (SessionWrite c [1; 2; 3])) [];
  '(_, told) ← deliver a 120 wrote;
  '(a, _) ← deliver a 30 sent;
  '(_, lost) ← deliver a 120 wrote;
  Ret (shell_view c told, shell_view c lost).

(** Both endpoints seal with the same key and nothing names the direction, so an
    endpoint takes its own reflected packet for one of the peer, binds the
    session to its own sequence id and drops what the peer sends. *)
Fact reflected_packet_mutes_the_peer : ∃ c,
  demo_reflected = Ret ([WriteSession c [1; 2; 3]], []).
Proof. eexists. vm_compute. reflexivity. Qed.

(** A session opened by the first endpoint and closed by the second, whose
    packets are all lost, until the tombstone expired; then the first one
    retransmits. *)
Definition demo_reopened : comp (list CoreAction * list CoreAction) :=
  a ← demo_core 3; b ← demo_core 4;
  let c := EC.next_conv_id a in
  '(a, sent) ← call a 10 (Some SessionOpen) [];
  '(b, told) ← deliver b 60 sent;
  '(b, told') ← call b 100 (Some (SessionClose c LocalClosed)) [];
  '(b, told') ← call b 190000 None told';
  '(b, told') ← call b 860000 None told';
  '(_, sent) ← call a 860000 None [];
  '(_, again) ← deliver b 860060 sent;
  Ret (shell_view c (told ++ told'), shell_view c again).

(** The side that never heard of the close has no deadline: it retransmits its
    [Open] after the tombstone of the other side, which announces the session a
    second time. *)
Fact closed_session_reopens : ∃ c,
  demo_reopened = Ret ([OpenSession c; CloseSession c LocalClosed], [OpenSession c]).
Proof. eexists. vm_compute. reflexivity. Qed.
