(* ===== verification/EndpointSend.v ===== *)
(** * Sending within the MTU

    [scheduled_packet_overhead] is the cost of the longest route of the graph,
    so whatever route the planner picks, a message of the size KCP was promised
    fits the MTU with room for padding; the packet sent decodes to the stamp,
    the rest of the route and the sealed message. *)

From S2P Require Import Prelude Bytes Core Wire WireFacts Sequence Crypto Packet.
From S2P Require Import Machine Kcp Routing RoutingPath RoutingFacts RoutingFeedback.
From S2P Require Import RoutingTotal Endpoint EndpointLifecycle EndpointFacts.

(** ** The longest route *)

(** Total correctness of [for i in (0..n).rev()]. *)
Lemma for_range_rev_total {S} (I : Z → S → Prop) n (b : Z → S → comp S) s :
  (∀ i t, 0 <= i < n → I (i + 1) t → ∃ t', b i t = Ret t' ∧ I i t') →
  0 <= n → I n s → ∃ s', for_each (rev (seqZ 0 n)) b s = Ret s' ∧ I 0 s'.
Proof.
  intros Hb Hn. revert s Hb. pattern n. apply natlike_ind; [|clear n Hn|done].
  - intros s _ Hs. by exists s.
  - intros n Hn IH s Hb Hs. rewrite <- Z.add_1_r in *.
    rewrite seqZ_app by lia. change (seqZ (0 + n) 1) with [0 + n].
    rewrite rev_app_distr. cbn [rev app for_each]. rewrite Z.add_0_l.
    destruct (Hb n s) as (t & -> & Ht); [lia|done|]. cbn [mbind comp_bind].
    apply IH; [|done]. intros i u Hi. apply Hb. lia.
Qed.

(** Every edge leads to a later node. *)
Definition layered (g : RouteGraph.t) : Prop :=
  0 < len (RouteGraph.nodes g) < 2 ^ 32
  ∧ ∀ i node edge, RouteGraph.nodes g !! i = Some node → edge ∈ RouteNode.edges node →
      Z.of_nat i < RouteEdge.next edge < len (RouteGraph.nodes g).

Lemma config_layered g : config_ok g → layered g.
Proof.
  intros [Hn He]. split; [lia|]. intros i node edge Hnode Hin. by destruct (He i node edge Hnode Hin).
Qed.

Section longest.
Context (route : RouteConfig.t).
Hypothesis Hroute : layered (RouteConfig.graph route).

Abbreviation nodes := (RouteGraph.nodes (RouteConfig.graph route)) (only parsing).
Abbreviation n := (len nodes) (only parsing).

(** [m] is the length of the longest route from node [j]. *)
Definition longest_from (j m : Z) : Prop :=
  (∀ path, chain (RP.new route) j path → len path <= m)
  ∧ ∃ path, chain (RP.new route) j path ∧ len path = m.

(** The table from node [k] on. *)
Definition longest_inv (k : Z) (longest : list Z) : Prop :=
  len longest = n
  ∧ (∀ j m, k <= j < n → longest !! Z.to_nat j = Some m → longest_from j m ∧ 0 <= m < n - j)
  ∧ ∀ j, 0 <= j < k → longest !! Z.to_nat j = Some 0.

Lemma chain_edge j id path :
  chain (RP.new route) j (id :: path) →
  ∃ node edge, nodes !! Z.to_nat j = Some node ∧ edge ∈ RouteNode.edges node
    ∧ 0 <= j ∧ j < RouteEdge.next edge < n
    ∧ chain (RP.new route) (RouteEdge.next edge) path.
Proof.
  intros (Hn & e & He & Hc).
  apply new_edge in He as (node & edge & Hnode & Hid & Hin & ->).
  rewrite Hn in Hnode, Hid. pose proof (proj2 Hroute _ _ _ Hnode Hin) as Hnext.
  exists node, edge. split_and!; [done|done|done|lia|lia|done].
Qed.

Lemma edge_chain j node edge path :
  0 <= j → nodes !! Z.to_nat j = Some node → edge ∈ RouteNode.edges node →
  chain (RP.new route) (RouteEdge.next edge) path →
  ∃ id, chain (RP.new route) j (id :: path).
Proof.
  intros Hj Hnode Hin Hc. apply list_elem_of_lookup_1 in Hin as [k Hk].
  exists (EdgeId.Build_t j (Z.of_nat k)). split; [done|].
  exists (Edge.of_config edge). split; [|done].
  apply get_edge_lookup; [split; cbn; lia|]. cbn [EdgeId.node EdgeId.edge].
  exists (Edge.of_config <$> RouteNode.edges node). rewrite Nat2Z.id. split.
  - cbn [RP.new RP.nodes]. by rewrite list_lookup_fmap, Hnode.
  - by rewrite list_lookup_fmap, Hk.
Qed.

Lemma longest_step_eq i e longest v m :
  0 <= i → 0 <= RouteEdge.next e → longest !! Z.to_nat i = Some v →
  longest !! Z.to_nat (RouteEdge.next e) = Some m → 0 <= m < 2 ^ 64 - 1 →
  longest_step i e longest = Ret (<[Z.to_nat i := v `max` (m + 1)]> longest).
Proof.
  intros Hi He Hv Hm Hr. pose proof (lookup_lt_Some _ _ _ Hv).
  unfold longest_step.
  rewrite (index_eq longest i v), (index_eq longest (RouteEdge.next e) m) by done.
  cbn [mbind comp_bind]. rewrite wrap_id by lia. apply store_returns. unfold len. lia.
Qed.

(** The edges of one node: the entry becomes the largest candidate. *)
Lemma longest_edges i es : ∀ longest v,
  0 <= i < n → len longest = n → longest !! Z.to_nat i = Some v → 0 <= v ->
  (∀ e, e ∈ es → i < RouteEdge.next e < n
     ∧ ∃ m, longest !! Z.to_nat (RouteEdge.next e) = Some m ∧ 0 <= m < n) →
  ∃ v', for_each es (longest_step i) longest = Ret (<[Z.to_nat i := v']> longest)
    ∧ v <= v'
    ∧ (∀ e m, e ∈ es → longest !! Z.to_nat (RouteEdge.next e) = Some m → m + 1 <= v')
    ∧ (v' = v ∨ ∃ e m, e ∈ es ∧ longest !! Z.to_nat (RouteEdge.next e) = Some m ∧ v' = m + 1).
Proof.
  induction es as [|e es IH]; intros longest v Hi Hlen Hv Hv0 Hes; cbn [for_each].
  { exists v. rewrite list_insert_id by done. split_and!; [done|done|set_solver|by left]. }
  destruct (Hes e ltac:(by left)) as (Hnext & m & Hm & Hmr).
  assert (n < 2 ^ 64) as Hn64 by (pose proof (proj1 Hroute); lia).
  rewrite (longest_step_eq i e longest v m) by (done || lia). cbn [mbind comp_bind].
  assert (∀ j, i < j → <[Z.to_nat i := v `max` (m + 1)]> longest !! Z.to_nat j
    = longest !! Z.to_nat j) as Hother.
  { intros j Hj. apply list_lookup_insert_ne. lia. }
  destruct (IH (<[Z.to_nat i := v `max` (m + 1)]> longest) (v `max` (m + 1)))
    as (v' & -> & Hle & Hall & Hex).
  - done.
  - unfold len in *. by rewrite length_insert.
  - apply list_lookup_insert_eq. unfold len in *. lia.
  - lia.
  - intros e' He'. destruct (Hes e' ltac:(by right)) as (Hn' & m' & Hm' & Hr').
    split; [done|]. exists m'. by rewrite Hother by lia.
  - exists v'. rewrite list_insert_insert_eq. split_and!; [done|lia| |].
    + intros e' m' [->|He']%elem_of_cons Hm'.
      * rewrite Hm in Hm'. injection Hm' as <-. lia.
      * apply (Hall e' m' He'). rewrite Hother; [done|].
        destruct (Hes e' ltac:(by right)). lia.
    + destruct Hex as [->|(e' & m' & He' & Hm' & ->)].
      * destruct (Z.max_spec v (m + 1)) as [[_ ->]|[_ ->]]; [|by left].
        right. exists e, m. split_and!; [by left|done|done].
      * right. exists e', m'. split_and!; [by right| |done].
        rewrite Hother in Hm'; [done|]. destruct (Hes e' ltac:(by right)). lia.
Qed.

Lemma longest_node i longest :
  0 <= i < n - 1 → longest_inv (i + 1) longest →
  ∃ longest', (node ← index nodes i;
     for_each (RouteNode.edges node) (longest_step i) longest) = Ret longest'
    ∧ longest_inv i longest'.
Proof.
  intros Hi (Hlen & Hdone & Hzero).
  destruct (index_returns nodes i) as (node & -> & Hnode); [lia|]. cbn [mbind comp_bind].
  assert (∀ e, e ∈ RouteNode.edges node → i < RouteEdge.next e < n
     ∧ ∃ m, longest !! Z.to_nat (RouteEdge.next e) = Some m ∧ 0 <= m < n) as Hes.
  { intros e He. pose proof (proj2 Hroute _ _ _ Hnode He) as Hnext.
    split; [lia|].
    destruct (lookup_lt_is_Some_2 longest (Z.to_nat (RouteEdge.next e))) as [m Hm];
      [unfold len in *; lia|].
    exists m. split; [done|]. destruct (Hdone (RouteEdge.next e) m ltac:(lia) Hm). lia. }
  destruct (longest_edges i (RouteNode.edges node) longest 0 ltac:(lia) Hlen
    (Hzero i ltac:(lia)) ltac:(lia) Hes) as (v & -> & Hv & Hall & Hex).
  eexists; split; [done|]. split_and!.
  - unfold len in *. by rewrite length_insert.
  - intros j m Hj Hm. destruct (decide (j = i)) as [->|Hne].
    + rewrite list_lookup_insert_eq in Hm by (unfold len in *; lia). injection Hm as <-.
      split; [split|].
      * intros [|id path] Hc; [by rewrite (@len_nil EdgeId.t)|].
        apply chain_edge in Hc as (node' & edge & Hnode' & Hin & _ & Hnx & Hc).
        rewrite Hnode in Hnode'. injection Hnode' as <-.
        destruct (Hes edge Hin) as (Hnext & m & Hm & _).
        destruct (Hdone (RouteEdge.next edge) m ltac:(lia) Hm) as [[Hmax _] _].
        specialize (Hmax path Hc). specialize (Hall edge m Hin Hm). rewrite len_cons. lia.
      * destruct Hex as [->|(edge & m & Hin & Hm & ->)]; [by exists []|].
        destruct (Hes edge Hin) as (Hnext & _).
        destruct (Hdone (RouteEdge.next edge) m ltac:(lia) Hm) as [[_ (path & Hc & Hl)] _].
        destruct (edge_chain i node edge path ltac:(lia) Hnode Hin Hc) as [id Hid].
        exists (id :: path). split; [done|]. rewrite len_cons. lia.
      * destruct Hex as [->|(edge & m & Hin & Hm & ->)]; [lia|].
        destruct (Hes edge Hin) as (Hnext & _).
        destruct (Hdone (RouteEdge.next edge) m ltac:(lia) Hm). lia.
    + rewrite list_lookup_insert_ne in Hm by lia. apply Hdone; [lia|done].
  - intros j Hj. rewrite list_lookup_insert_ne by lia. apply Hzero. lia.
Qed.

Lemma longest_start : longest_inv (n - 1) (vec n 0).
Proof.
  pose proof (proj1 Hroute) as Hn. split_and!.
  - apply len_vec. lia.
  - intros j m Hj Hm. assert (j = n - 1) as -> by lia.
    unfold vec in Hm. apply lookup_replicate in Hm as [-> _].
    split; [|lia]. split; [|by exists []].
    intros [|id path] Hc; [done|]. apply chain_edge in Hc as (node & edge & _ & _ & _ & Hnx & _).
    lia.
  - intros j Hj. unfold vec. apply lookup_replicate. split; [done|lia].
Qed.

Lemma longest_route_spec :
  ∃ longest l0,
    for_each (rev (seqZ 0 (n - 1))) (λ i longest,
      node ← index nodes i;
      for_each (RouteNode.edges node) (longest_step i) longest) (vec n 0) = Ret longest
    ∧ index longest 0 = Ret l0 ∧ longest_from 0 l0 ∧ 0 <= l0 < n.
Proof.
  pose proof (proj1 Hroute) as Hn.
  destruct (for_range_rev_total longest_inv (n - 1) (λ i longest,
      node ← index nodes i;
      for_each (RouteNode.edges node) (longest_step i) longest) (vec n 0))
    as (longest & Hr & Hlen & Hdone & _).
  - intros i t Hi. apply longest_node. lia.
  - lia.
  - apply longest_start.
  - destruct (index_returns longest 0) as (l0 & Hi & Hl0); [lia|].
    exists longest, l0. split_and!; [done|done|..]; destruct (Hdone 0 l0 ltac:(lia) Hl0); [done|lia..].
Qed.

End longest.

(** The overhead is computed for every layered graph. *)
Lemma overhead_returns config :
  layered (RouteConfig.graph (EndpointConfig.route config)) →
  ∃ overhead, scheduled_packet_overhead config = Ret overhead.
Proof.
  intros Hg. destruct (longest_route_spec (EndpointConfig.route config) Hg)
    as (longest & l0 & Hloop & Hi & _).
  pose proof (proj1 Hg). unfold scheduled_packet_overhead. cbn zeta.
  rewrite (wrap_id 64 (_ - 1)) by lia. rewrite Hloop. cbn [mbind comp_bind]. rewrite Hi.
  cbn [mbind comp_bind]. by eexists.
Qed.

(** The overhead charges the longest route of the graph. *)
Lemma overhead_value config :
  let nodes := RouteGraph.nodes (RouteConfig.graph (EndpointConfig.route config)) in
  config_ok (RouteConfig.graph (EndpointConfig.route config)) → 1 < len nodes →
  1 <= EndpointConfig.padding_reserve config <= 255 →
  ∃ l overhead, scheduled_packet_overhead config = Ret overhead ∧ 0 <= overhead
    ∧ longest_from (EndpointConfig.route config) 0 l ∧ 0 <= l < len nodes
    ∧ (1 <= l → overhead = 48 + EndpointConfig.padding_reserve config + (l - 1) * 2).
Proof.
  cbn zeta. intros Hg Hhop Hpad. pose proof (proj1 Hg) as Hn.
  destruct (longest_route_spec (EndpointConfig.route config) (config_layered _ Hg))
    as (longest & l0 & Hloop & Hi & Hl & Hl0).
  unfold scheduled_packet_overhead. cbn zeta. rewrite (wrap_id 64 (_ - 1)) by lia.
  rewrite Hloop. cbn [mbind comp_bind]. rewrite Hi. cbn [mbind comp_bind].
  eexists _, _; split_and!; [done|by apply wrap_range|exact Hl|lia|lia|]. intros H1.
  unfold TRANSPORT_PACKET_OVERHEAD, ENVELOPE_FIXED_OVERHEAD, CHANNEL_ID_SIZE, U48_SIZE.
  rewrite (wrap_id 64 (32 + _)) by lia. rewrite (wrap_id 64 (32 + _ + _)) by lia.
  rewrite (wrap_id 64 (l0 - 1)) by lia. rewrite (wrap_id 64 ((l0 - 1) * 2)) by lia.
  rewrite wrap_id by lia. lia.
Qed.

(** ** The geometry of an endpoint *)

(** What the shell's configuration provides: a layered graph with 16-bit
    channels and routes of at most 64 hops, an MTU in which a KCP segment fits,
    some padding, and a sampling interval. *)
Record routable (config : EndpointConfig.t) : Prop := {
  rtb_graph : config_ok (RouteConfig.graph (EndpointConfig.route config));
  rtb_hop : 1 < len (RouteGraph.nodes (RouteConfig.graph (EndpointConfig.route config)));
  rtb_ids : ∀ id e, RP.get_edge (RP.new (EndpointConfig.route config)) id = Ret e →
    in_width 16 (Edge.channel_id e);
  rtb_depth : ∀ path, chain (RP.new (EndpointConfig.route config)) 0 path → len path <= 64;
  rtb_padding : 1 <= EndpointConfig.padding_reserve config <= 255;
  rtb_mtu : ∃ overhead, scheduled_packet_overhead config = Ret overhead
    ∧ overhead + ENDPOINT_MESSAGE_OVERHEAD
        <= effective_transport_mtu (RouteConfig.min_mtu (EndpointConfig.route config));
  rtb_interval : 0 < RouteConfig.feedback_interval_ms (EndpointConfig.route config);
}.

(** What every call preserves: the planner still describes the configured
    graph, the overhead and the MTU promised to KCP are those of the graph, and
    the sequence counters fit their 48 bits. *)
Record geometry `{Aegis128L, Blake3, HashIter} (self : EC.t) : Prop := {
  geo_config : routable (EC.config self);
  geo_planner : graph_ok (EC.route_planner self);
  geo_graph : same_graph (RP.new (EndpointConfig.route (EC.config self)))
                         (EC.route_planner self);
  geo_overhead : scheduled_packet_overhead (EC.config self) = Ret (EC.packet_overhead self);
  geo_mtu : 0 <= KcpParams.mtu (EC.kcp_params self)
    ∧ KcpParams.mtu (EC.kcp_params self) + ENDPOINT_MESSAGE_OVERHEAD + EC.packet_overhead self
      = effective_transport_mtu
          (RouteConfig.min_mtu (EndpointConfig.route (EC.config self)));
  geo_seq_id : in_width 48 (EC.seq_id self);
  geo_seq_no : 0 <= EC.next_seq_no self <= 2 ^ 48;
}.

(** The lengths of the plans. *)
Lemma plan_of_len self path : ∀ plan, plan_of self path plan → len plan = len path.
Proof.
  induction path as [|id path IH]; intros [|c plan]; cbn; try done.
  intros [_ H]. rewrite !len_cons. by rewrite (IH plan).
Qed.

Lemma plan_of_ids self path : ∀ plan,
  (∀ id e, RP.get_edge self id = Ret e → in_width 16 (Edge.channel_id e)) →
  plan_of self path plan → Forall (in_width 16) plan.
Proof.
  induction path as [|id path IH]; intros [|c plan] Hids; cbn; try done.
  intros [(e & He & <-) H]. constructor; [by eapply Hids|by apply IH].
Qed.

Section sending.
Context `{Aes : Aegis128L, AesSpec : !Aegis128LSpec, Bl : Blake3, BlSpec : !Blake3Spec,
  It : HashIter}.

Lemma geometry_frame (self self' : EC.t) :
  geometry self →
  EC.config self' = EC.config self → EC.kcp_params self' = EC.kcp_params self →
  EC.packet_overhead self' = EC.packet_overhead self →
  graph_ok (EC.route_planner self') →
  same_graph (EC.route_planner self) (EC.route_planner self') →
  in_width 48 (EC.seq_id self') → 0 <= EC.next_seq_no self' <= 2 ^ 48 →
  geometry self'.
Proof.
  intros [] Hc Hk Ho Hp Hg Hi Hn. split; rewrite ?Hc, ?Hk, ?Ho; try done. by etrans.
Qed.

(** A route the planner picks is no longer than the overhead charges. *)
Lemma geometry_plan (self : EC.t) elapsed b path plan :
  geometry self → is_path (EC.route_planner self) elapsed 0 path b → b ≠ 0 →
  plan_of (EC.route_planner self) path plan →
  1 <= len plan <= 64 ∧ Forall (in_width 16) plan
  ∧ 48 + EndpointConfig.padding_reserve (EC.config self) + (len plan - 1) * 2
    <= EC.packet_overhead self.
Proof.
  intros Hgeo Hp Hb Hplan. pose proof (geo_config _ Hgeo) as Hr.
  apply is_path_chain in Hp as Hc. eapply same_graph_chain in Hc; [|by apply geo_graph].
  pose proof (rtb_depth _ Hr path Hc) as Hd. rewrite (plan_of_len _ _ _ Hplan).
  destruct (overhead_value _ (rtb_graph _ Hr) (rtb_hop _ Hr) (rtb_padding _ Hr))
    as (l & o & Ho & _ & [Hl _] & _ & Heq).
  rewrite (geo_overhead _ Hgeo) in Ho. apply Ret_inj in Ho as <-.
  specialize (Hl path Hc).
  assert (1 <= len path) as H1.
  { destruct path as [|id path]; [by cbn in Hp|]. rewrite len_cons.
    pose proof (len_nonneg path). lia. }
  split_and!; [done|done| |rewrite Heq; lia].
  eapply plan_of_ids; [|done]. intros id e He.
  pose proof (proj2 (geo_graph _ Hgeo) id) as Hs. rewrite He in Hs. unfold same_edge in Hs.
  destruct (RP.get_edge (RP.new _) id) as [e0| |] eqn:E0; try done.
  destruct Hs as [-> _]. by eapply rtb_ids.
Qed.

Lemma overhead_nonneg (self : EC.t) : geometry self → 0 <= EC.packet_overhead self.
Proof.
  intros Hg. pose proof (geo_config _ Hg) as Hr.
  destruct (overhead_value _ (rtb_graph _ Hr) (rtb_hop _ Hr) (rtb_padding _ Hr))
    as (l & o & Ho & Ho0 & _).
  rewrite (geo_overhead _ Hg) in Ho. apply Ret_inj in Ho as <-. lia.
Qed.

Lemma next_sequence_spec (self : EC.t) :
  geometry self →
  ∃ i n self', EC.next_sequence self = ((i, n), self')
    ∧ in_width 48 i ∧ in_width 48 n ∧ geometry self'
    ∧ EC.config self' = EC.config self ∧ EC.route_planner self' = EC.route_planner self
    ∧ EC.kcp_params self' = EC.kcp_params self
    ∧ EC.packet_overhead self' = EC.packet_overhead self
    ∧ EC.outstanding self' = EC.outstanding self.
Proof.
  intros Hg. pose proof (geo_seq_id _ Hg) as Hi. pose proof (geo_seq_no _ Hg) as Hn.
  unfold EC.next_sequence. change SEQUENCE_MASK with (2 ^ 48 - 1).
  destruct (Z.ltb_spec (2 ^ 48 - 1) (EC.next_seq_no self)).
  - destruct (RandomStream.u64 _) as [r rnd]. cbn zeta.
    rewrite land_ones_mod by done. eexists _, _, _; split; [done|].
    assert (in_width 48 (r mod 2 ^ 48)) by (apply Z.mod_pos_bound; lia).
    split_and!; [done|done| |done..].
    eapply geometry_frame; [done..|exact (geo_planner _ Hg)|reflexivity|done|split; by vm_compute].
  - eexists _, _, _; split; [done|]. split_and!; [done|split; lia| |done..].
    eapply geometry_frame; [done..|exact (geo_planner _ Hg)|reflexivity|done|].
    cbn. rewrite wrap_id by lia. lia.
Qed.

(** A packet on channel [ch]: it fits the MTU, and whoever holds the envelope
    key reads from it the stamp, the rest of the route and the payload. *)
Definition carries (config : EndpointConfig.t) (stamp : EnvelopeStamp) (route payload : list Z)
    (bytes : list Z) : Prop :=
  len bytes <= effective_transport_mtu (RouteConfig.min_mtu (EndpointConfig.route config))
  ∧ ∃ e, decode_transport_packet (EndpointConfig.envelope_key config) bytes = Ret (Ok e)
      ∧ envelope_stamp e = stamp ∧ Envelope.route_plan e = route
      ∧ Envelope.payload e = payload.

(** What [send_envelope] emits for [payload], and what it remembers of it. *)
Definition emitted (self self' : EC.t) (elapsed : Z) (stamp : EnvelopeStamp) (sample : bool)
    (payload : list Z) (sent : list CoreAction) : Prop :=
  let planner := EC.route_planner self in
  match sent with
  | [] => EC.route_planner self' = planner ∧ EC.outstanding self' = EC.outstanding self
  | [SendTransportPacket ch bytes] => ∃ path route,
      is_path planner elapsed 0 path (len (RP.nodes planner) - 1)
      ∧ plan_of planner path (ch :: route)
      ∧ carries (EC.config self) stamp route payload bytes
      ∧ EC.outstanding self' =
          if sample
          then <[(stamp_seq_id stamp, stamp_seq_no stamp) := FeedbackSample.Build_t (ch :: route)
                   elapsed (elapsed +{64} RouteConfig.feedback_timeout_ms
                              (EndpointConfig.route (EC.config self)))]> (EC.outstanding self)
          else EC.outstanding self
  | _ => False
  end.

(** Nothing is emitted only if there is no route; for a sampled message of a
    graph with dead ends, only if there is none through the edge that sampling
    asks for. *)
Definition sends (self self' : EC.t) (elapsed : Z) (stamp : EnvelopeStamp) (sample : bool)
    (payload : list Z) (sent : list CoreAction) : Prop :=
  emitted self self' elapsed stamp sample payload sent
  ∧ (sent = [] →
       (sample = true → nothing_to_sample (EC.route_planner self) elapsed)
       ∧ (sample = false
            ∨ no_dead_end (RouteConfig.graph (EndpointConfig.route (EC.config self))) →
          ∀ p, ¬ is_path (EC.route_planner self) elapsed 0 p
                   (len (RP.nodes (EC.route_planner self)) - 1))).

(** Why the planner had no plan. *)
Lemma unsent (self : EC.t) elapsed (sample : bool) :
  geometry self → 0 <= elapsed →
  (if sample then nothing_to_sample (EC.route_planner self) elapsed
   else ∀ p, ¬ is_path (EC.route_planner self) elapsed 0 p
                 (len (RP.nodes (EC.route_planner self)) - 1)) →
  (sample = true → nothing_to_sample (EC.route_planner self) elapsed)
  ∧ (sample = false
       ∨ no_dead_end (RouteConfig.graph (EndpointConfig.route (EC.config self))) →
     ∀ p, ¬ is_path (EC.route_planner self) elapsed 0 p
              (len (RP.nodes (EC.route_planner self)) - 1)).
Proof.
  intros Hg He Hwhy. destruct sample; [|by split].
  split; [done|]. intros [?|Hno]; [done|].
  eapply (nothing_to_sample_no_route (EndpointConfig.route (EC.config self))); try done;
    [apply (geo_planner _ Hg)|apply (geo_graph _ Hg)|].
  pose proof (proj1 (geo_graph _ Hg)) as ->. cbn [RP.new RP.nodes]. rewrite len_map.
  apply (rtb_hop _ (geo_config _ Hg)).
Qed.

(** The packet built for a plan. *)
Lemma carries_encoded config random stamp plan payload padding :
  in_width TIME_BITS (stamp_time stamp) → in_width 48 (stamp_seq_id stamp) →
  in_width 48 (stamp_seq_no stamp) → Forall (in_width 16) plan → len plan < 64 →
  1 <= padding <= 255 →
  48 + len plan * 2 + len payload + padding
    <= effective_transport_mtu (RouteConfig.min_mtu (EndpointConfig.route config)) →
  ∃ bytes random',
    encode_transport_packet (EndpointConfig.envelope_key config) random
      (Envelope.Build_t (stamp_time stamp) (stamp_seq_id stamp) (stamp_seq_no stamp)
         plan payload padding) = Ret (bytes, random')
    ∧ carries config stamp plan payload bytes.
Proof.
  intros Ht Hi Hn Hp Hl Hpad Hfit.
  pose proof (effective_transport_mtu_le
    (RouteConfig.min_mtu (EndpointConfig.route config))) as Hmax.
  set (e := Envelope.Build_t _ _ _ _ _ _).
  assert (32 + Envelope.encoded_len e = 48 + len plan * 2 + len payload + padding) as He.
  { unfold Envelope.encoded_len, ENVELOPE_FIXED_OVERHEAD, CHANNEL_ID_SIZE, U48_SIZE.
    cbn [e Envelope.payload Envelope.route_plan Envelope.padding_len]. lia. }
  destruct (transport_decode_encode (EndpointConfig.envelope_key config) random e)
    as (bytes & random' & Henc & Hlen & Hdec); [by constructor|lia|].
  exists bytes, random'. split; [done|]. split; [lia|].
  exists e. split_and!; [done|by destruct stamp|done|done].
Qed.

(** The sample of a packet. *)
Lemma note_sample_spec (self : EC.t) elapsed stamp plan :
  geometry self →
  ∃ self', EC.note_sample self elapsed stamp plan = Ret self' ∧ geometry self'
    ∧ EC.outstanding self' =
        <[(stamp_seq_id stamp, stamp_seq_no stamp) := FeedbackSample.Build_t plan elapsed
            (elapsed +{64} RouteConfig.feedback_timeout_ms
               (EndpointConfig.route (EC.config self)))]> (EC.outstanding self).
Proof.
  intros Hg. unfold EC.note_sample. cbn zeta. destruct (RandomStream.u64 _) as [r rnd].
  destruct (checked_rem_returns r (RouteConfig.feedback_interval_ms
    (EndpointConfig.route (EC.config self)))) as (j & Hj & _);
    [by apply rtb_interval, geo_config|].
  rewrite Hj. cbn [mbind comp_bind]. eexists; split; [done|]. split; [|done].
  eapply geometry_frame; [done..|exact (geo_planner _ Hg)|reflexivity|apply (geo_seq_id _ Hg)
    |apply (geo_seq_no _ Hg)].
Qed.

(** What the planner answered decides. *)
Lemma send_planned (self : EC.t) elapsed stamp payload sample actions r planner :
  geometry self →
  in_width TIME_BITS (stamp_time stamp) → in_width 48 (stamp_seq_id stamp) →
  in_width 48 (stamp_seq_no stamp) →
  len payload <= KcpParams.mtu (EC.kcp_params self) + ENDPOINT_MESSAGE_OVERHEAD →
  RP.build_route_plan (EC.route_planner self) elapsed (len payload + EC.packet_overhead self)
    sample = Ret (r, planner) →
  graph_ok planner → reserved (EC.route_planner self) planner →
  match r with
  | None => planner = EC.route_planner self
  | Some plan => ∃ p, plan_of (EC.route_planner self) p plan
      ∧ is_path (EC.route_planner self) elapsed 0 p (len (RP.nodes (EC.route_planner self)) - 1)
  end →
  ∃ self' sent,
    EC.send_envelope self elapsed stamp payload sample actions = Ret (self', actions ++ sent)
    ∧ geometry self' ∧ emitted self self' elapsed stamp sample payload sent
    ∧ (sent = [] → r = None).
Proof.
  intros Hg Ht Hi Hn Hfit Hplanned Hgo Hres%reserved_same_graph Hr.
  pose proof (geo_mtu _ Hg) as [Hmtu0 Hmtu].
  pose proof (rtb_padding _ (geo_config _ Hg)) as Hpad.
  pose proof (overhead_nonneg self Hg) as Hover0.
  pose proof (effective_transport_mtu_le
    (RouteConfig.min_mtu (EndpointConfig.route (EC.config self)))) as Hmax.
  unfold MAX_TRANSPORT_PACKET_SIZE in Hmax. change ENDPOINT_MESSAGE_OVERHEAD with 17 in *.
  pose proof (len_nonneg payload).
  unfold EC.send_envelope. cbn zeta. rewrite (wrap_id 64 (len payload + _)) by lia.
  rewrite Hplanned. cbn [mbind comp_bind].
  destruct r as [full_plan|].
  2:{ subst planner. eexists _, []. rewrite app_nil_r. split; [done|]. split_and!; [|done|done].
      eapply geometry_frame; [done..|exact Hgo|reflexivity|apply (geo_seq_id _ Hg)|apply (geo_seq_no _ Hg)]. }
  destruct Hr as (path & Hplan & Hpath).
  assert (len (RP.nodes (EC.route_planner self)) - 1 ≠ 0) as Hd.
  { pose proof (proj1 (geo_graph _ Hg)) as ->. unfold RP.new. cbn [RP.nodes].
    rewrite len_map. pose proof (rtb_hop _ (geo_config _ Hg)). lia. }
  destruct (geometry_plan self elapsed _ path full_plan Hg Hpath Hd Hplan)
    as (Hlen & Hids & Hover).
  destruct full_plan as [|ch route]; [rewrite (@len_nil Z) in Hlen; lia|].
  change (index (ch :: route) 0) with (@Ret Z ch). rewrite slice_tail.
  rewrite len_cons in Hlen, Hover. pose proof (len_nonneg route).
  cbn [mbind comp_bind]. unfold TRANSPORT_PACKET_OVERHEAD, ENVELOPE_FIXED_OVERHEAD,
    CHANNEL_ID_SIZE, U48_SIZE. rewrite len_cons.
  change (32 +{64} (4 + 2 * 6)) with 48.
  rewrite (wrap_id 64 (1 + len route - 1)) by lia.
  rewrite (wrap_id 64 ((1 + len route - 1) * 2)) by lia.
  rewrite (wrap_id 64 (48 + _)) by lia. rewrite (wrap_id 64 (48 + _ + _)) by lia.
  destruct (RandomStream.u64 _) as [r rnd].
  set (mtu := effective_transport_mtu _) in *.
  change (effective_transport_mtu _) with mtu.
  destruct (checked_rem_returns r ((mtu -{64} (48 + (1 + len route - 1) * 2 + len payload))
    `min` 255)) as (p & -> & Hp); [rewrite wrap_id by lia; lia|].
  rewrite wrap_id in Hp by lia. cbn [mbind comp_bind]. rewrite (wrap_id 8) by lia.
  apply Forall_cons in Hids as [Hch Hids].
  destruct (carries_encoded (EC.config self) rnd stamp route payload (1 + p))
    as (bytes & rnd' & Henc & Hcar); [done..|lia|lia|fold mtu; lia|].
  change (EC.config (self <| EC.route_planner := planner |>)) with (EC.config self).
  rewrite Henc. cbn [mbind comp_bind].
  match goal with |- context [if sample then EC.note_sample ?s _ _ _ else _] =>
    set (self1 := s) end.
  assert (geometry self1 ∧ EC.config self1 = EC.config self
    ∧ EC.outstanding self1 = EC.outstanding self) as (Hg1 & Hc1 & Ho1).
  { unfold self1. destruct (negb _); (split; [|done]);
      (eapply geometry_frame; [done..|exact Hgo|done|apply (geo_seq_id _ Hg)
        |apply (geo_seq_no _ Hg)]). }
  clearbody self1. destruct sample; cbn [mbind comp_bind].
  2:{ exists self1, [SendTransportPacket ch bytes]. split_and!; [done|done| |done].
      by exists path, route. }
  destruct (note_sample_spec self1 elapsed stamp (ch :: route) Hg1) as (self2 & -> & Hg2 & Ho2).
  cbn [mbind comp_bind]. exists self2, [SendTransportPacket ch bytes].
  split_and!; [done|done| |done]. exists path, route. by rewrite Ho2, Ho1, Hc1.
Qed.

(** With times far from overflow; why nothing is sent is part of [sends]. *)
Lemma send_envelope_spec (self : EC.t) elapsed stamp payload sample actions :
  geometry self →
  in_width TIME_BITS (stamp_time stamp) → in_width 48 (stamp_seq_id stamp) →
  in_width 48 (stamp_seq_no stamp) →
  len payload <= KcpParams.mtu (EC.kcp_params self) + ENDPOINT_MESSAGE_OVERHEAD →
  in_time (EC.route_planner self) elapsed (len payload + EC.packet_overhead self) →
  ∃ self' sent,
    EC.send_envelope self elapsed stamp payload sample actions = Ret (self', actions ++ sent)
    ∧ geometry self' ∧ sends self self' elapsed stamp sample payload sent.
Proof.
  intros Hg Ht Hi Hn Hfit Htime.
  destruct (build_route_plan_spec _ (geo_planner _ Hg) _ _ sample Htime)
    as (r & planner & E & Hgo & Hres & Hr).
  destruct (send_planned self elapsed stamp payload sample actions r planner)
    as (self' & sent & Hs & Hg' & He & Hnone); try done.
  { destruct r as [plan|]; [|by destruct Hr]. destruct Hr as (forced & p & _ & Hp & Hpath & _).
    by exists p. }
  exists self', sent. split_and!; [done|done|]. split; [done|].
  intros Hsent. rewrite (Hnone Hsent) in Hr. destruct Hr as [_ Hwhy].
  apply unsent; [done|apply Htime|done].
Qed.

(** At any time, sending returns. *)
Lemma send_envelope_returns (self : EC.t) elapsed stamp payload sample actions :
  geometry self →
  in_width TIME_BITS (stamp_time stamp) → in_width 48 (stamp_seq_id stamp) →
  in_width 48 (stamp_seq_no stamp) →
  len payload <= KcpParams.mtu (EC.kcp_params self) + ENDPOINT_MESSAGE_OVERHEAD →
  ∃ self' sent,
    EC.send_envelope self elapsed stamp payload sample actions = Ret (self', actions ++ sent)
    ∧ geometry self' ∧ emitted self self' elapsed stamp sample payload sent.
Proof.
  intros Hg Ht Hi Hn Hfit. pose proof (overhead_nonneg self Hg) as Ho.
  pose proof (geo_mtu _ Hg) as [Hmtu0 Hmtu].
  pose proof (effective_transport_mtu_le
    (RouteConfig.min_mtu (EndpointConfig.route (EC.config self)))) as Hmax.
  unfold MAX_TRANSPORT_PACKET_SIZE in Hmax. change ENDPOINT_MESSAGE_OVERHEAD with 17 in *.
  pose proof (len_nonneg payload).
  destruct (build_route_plan_total (EC.route_planner self) elapsed
    (len payload + EC.packet_overhead self) sample (geo_planner _ Hg))
    as (r & planner & E & Hgo & Hres & Hr); [lia|].
  destruct (send_planned self elapsed stamp payload sample actions r planner)
    as (self' & sent & Hs & Hg' & He & _); try done. by exists self', sent.
Qed.

(** An endpoint is created over every layered graph ... *)
Lemma new_returns config :
  layered (RouteConfig.graph (EndpointConfig.route config)) → ∃ self, EC.new config = Ret self.
Proof.
  intros Hg. unfold EC.new. set (cfg := config <| EndpointConfig.kcp ::= EC.with_kcp_defaults |>).
  destruct (overhead_returns cfg Hg) as [o ->]. cbn [mbind comp_bind]. cbn zeta.
  destruct (RandomStream.u64 _) as [conv rnd1]. destruct (RandomStream.u64 rnd1) as [i rnd2].
  by eexists.
Qed.

Lemma new_route config self :
  EC.new config = Ret self → EndpointConfig.route (EC.config self) = EndpointConfig.route config.
Proof.
  unfold EC.new. intros (o & _ & Hr)%bind_ret. cbn zeta in Hr.
  destruct (RandomStream.u64 _) as [conv rnd1]. destruct (RandomStream.u64 rnd1) as [i rnd2].
  by injection Hr as <-.
Qed.

(** ... and has the geometry of its configuration. *)
Lemma new_geometry config :
  routable config → ∃ self, EC.new config = Ret self ∧ geometry self.
Proof.
  intros Hr. unfold EC.new. set (cfg := config <| EndpointConfig.kcp ::= EC.with_kcp_defaults |>).
  assert (routable cfg) as Hr' by (by destruct Hr).
  destruct (overhead_value _ (rtb_graph _ Hr') (rtb_hop _ Hr') (rtb_padding _ Hr'))
    as (l & o & Ho & Ho0 & _).
  destruct (rtb_mtu _ Hr') as (o' & Ho' & Hfit). rewrite Ho in Ho'. apply Ret_inj in Ho' as <-.
  rewrite Ho. clearbody cfg. cbn [mbind comp_bind]. cbn zeta.
  destruct (RandomStream.u64 _) as [conv rnd1]. destruct (RandomStream.u64 rnd1) as [i rnd2].
  eexists; split; [done|].
  pose proof (effective_transport_mtu_le (RouteConfig.min_mtu (EndpointConfig.route cfg))) as Hmax.
  unfold MAX_TRANSPORT_PACKET_SIZE, ENDPOINT_MESSAGE_OVERHEAD in *.
  split; cbn [EC.config EC.route_planner EC.packet_overhead EC.kcp_params EC.seq_id
    EC.next_seq_no KcpParams.mtu].
  - done.
  - by apply new_graph_ok, rtb_graph.
  - reflexivity.
  - done.
  - rewrite (wrap_id 64 (_ - o)), wrap_id by lia. unfold ENDPOINT_MESSAGE_OVERHEAD. lia.
  - change SEQUENCE_MASK with (2 ^ 48 - 1). rewrite land_ones_mod by done.
    apply Z.mod_pos_bound. lia.
  - lia.
Qed.

(** The stamp of the next message. *)
Definition next_stamp (self : EC.t) (elapsed : Z) : EnvelopeStamp :=
  let '((i, n), _) := EC.next_sequence self in
  Build_EnvelopeStamp (EC.current_time self elapsed) i n.

Lemma current_time_width (self : EC.t) elapsed :
  in_width TIME_BITS (EC.current_time self elapsed).
Proof.
  unfold EC.current_time, current_time_of. change TIME_MASK with (2 ^ 26 - 1).
  rewrite land_ones_mod by done. by apply Z.mod_pos_bound.
Qed.

(** C13: sending never panics, and whatever route is picked the packet fits: a
    message of the size promised to KCP leaves as one packet within the MTU,
    sealed for the peer under the next stamp, along a path of allowed edges to
    the destination; it is remembered when sampled; and the endpoint keeps its
    geometry.  When nothing leaves, no route of allowed edges exists; only for
    a sampled message of a graph in which some node before the destination has
    no edge (which DESIGN.md forbids, and the shell never builds) is it that no
    edge of the source may be used, or that no route leads through the edge
    sampled longest ago. *)
Theorem message_sent_within_mtu (self : EC.t) elapsed m (sample : bool) actions :
  geometry self → EndpointMessage.wf m →
  len (message_bytes m) <= 1 + KcpParams.mtu (EC.kcp_params self) →
  in_time (EC.route_planner self) elapsed
    (16 + len (message_bytes m) + EC.packet_overhead self) →
  ∃ self' sent payload,
    EC.send_endpoint_message self elapsed m sample actions = Ret (self', actions ++ sent)
    ∧ geometry self'
    ∧ sends self self' elapsed (next_stamp self elapsed) sample payload sent
    ∧ ∀ other : EC.t,
        EndpointConfig.message_key (EC.config other)
          = EndpointConfig.message_key (EC.config self) →
        EC.open_endpoint_message other (next_stamp self elapsed) payload = Ret (Some m).
Proof.
  intros Hg Hm Hlen Htime. unfold EC.send_endpoint_message, next_stamp.
  destruct (next_sequence_spec self Hg)
    as (i & n & self1 & -> & Hi & Hn & Hg1 & Hc & Hp & Hk & Ho & Hout). cbn zeta.
  assert (EC.current_time self1 elapsed = EC.current_time self elapsed) as ->
    by (unfold EC.current_time; by rewrite Hc).
  set (stamp := Build_EnvelopeStamp _ i n).
  pose proof (current_time_width self elapsed) as Ht.
  destruct (seal_open self1 self1 stamp m Ht Hm eq_refl) as (payload & Hs & Hl & _).
  rewrite Hs. cbn [mbind comp_bind].
  destruct (send_envelope_spec self1 elapsed stamp payload sample actions)
    as (self2 & sent & Hsend & Hg2 & Hsent); try done.
  { rewrite Hk. change ENDPOINT_MESSAGE_OVERHEAD with 17. lia. }
  { by rewrite Hp, Ho, Hl. }
  exists self2, sent, payload. split_and!; [done|done| |].
  - unfold sends, emitted in *. by rewrite Hc, Hp, Hout in Hsent.
  - intros other Hkey. destruct (seal_open self1 other stamp m Ht Hm) as (s & Hs' & _ & Hopen);
      [by rewrite Hc|]. rewrite Hs in Hs'. by apply Ret_inj in Hs' as <-.
Qed.

End sending.

(** ** Witness *)

#[local] Existing Instance toy_aegis.
#[local] Existing Instance toy_aegis_spec.
#[local] Existing Instance toy_blake3.
#[local] Existing Instance toy_blake3_spec.
#[local] Existing Instance Sequence.toy_iter.

Lemma demo_routable seed : routable (demo_endpoint seed).
Proof.
  assert (config_ok (RouteConfig.graph (EndpointConfig.route (demo_endpoint seed)))) as Hg.
  { split; [by vm_compute|]. intros [|[|i]] node edge [= <-] Hin; cbn in Hin;
      repeat (apply elem_of_cons in Hin as [->|Hin]; [by vm_compute|]);
      by apply elem_of_nil in Hin. }
  split; [done|by vm_compute| | |by vm_compute| |by vm_compute].
  - intros id e (node & edge & Hnode & _ & Hin & ->)%new_edge.
    apply list_elem_of_lookup_2 in Hnode. cbn in Hnode.
    repeat (apply elem_of_cons in Hnode as [->|Hnode]); try by apply elem_of_nil in Hnode.
    all: repeat (apply elem_of_cons in Hin as [->|Hin]); try by apply elem_of_nil in Hin.
    by vm_compute.
  - intros path Hc. destruct (longest_route_spec _ (config_layered _ Hg)) as (lg & l0 & _ & _ & [Hl _] & Hl0).
    specialize (Hl path Hc). change (len _) with 2 in Hl0. lia.
  - eexists. by vm_compute.
Qed.

Lemma demo_onward :
  no_dead_end (RouteConfig.graph (EndpointConfig.route (EC.config demo_self))).
Proof. intros [|[|i]] node [= <-] Hi; [done|by vm_compute in Hi]. Qed.

(** A sampled KCP packet of the endpoint of seed 4. *)
Lemma message_sent_within_mtu_witness :
  ∃ self, EC.new (demo_endpoint 4) = Ret self ∧
  ∃ self' sent payload,
    EC.send_endpoint_message self 7 (EndpointMessage.KcpPacket 1 [5; 6]) true []
      = Ret (self', [] ++ sent)
    ∧ geometry self'
    ∧ sends self self' 7 (next_stamp self 7) true payload sent
    ∧ ∀ other : EC.t,
        EndpointConfig.message_key (EC.config other)
          = EndpointConfig.message_key (EC.config self) →
        EC.open_endpoint_message other (next_stamp self 7) payload
        = Ret (Some (EndpointMessage.KcpPacket 1 [5; 6])).
Proof.
  destruct (new_geometry (demo_endpoint 4) (demo_routable 4)) as (self & Hnew & Hg).
  exists self. split; [exact Hnew|].
  assert (self = demo_self) as -> by (pose proof demo_self_new as E; congruence).
  apply (message_sent_within_mtu demo_self 7 (EndpointMessage.KcpPacket 1 [5; 6]) true []).
  - exact Hg.
  - split; [by vm_compute|exact I].
  - vm_compute. discriminate.
  - change (EC.route_planner demo_self) with (RP.new (EndpointConfig.route (demo_endpoint 4))).
    apply new_in_time; split; vm_compute; (discriminate || reflexivity).
Defined.

(** ... and it does leave. *)
Example demo_message_leaves :
  (r ← EC.send_endpoint_message demo_self 7 (EndpointMessage.KcpPacket 1 [5; 6]) true [];
   Ret (len r.2)) = Ret 1.
Proof. by vm_compute. Qed.

(** The configuration accepts a feedback interval of zero, the design does not:
    the first sampled packet takes a remainder by it. *)
Fact sampled_packet_without_interval_panics :
  (self ← EC.new ((demo_endpoint 4) <| EndpointConfig.route ::= λ r,
     RouteConfig.Build_t (RouteConfig.graph r) (RouteConfig.min_mtu r) 0
       (RouteConfig.feedback_timeout_ms r) |>);
   EC.send_endpoint_message self 7 (EndpointMessage.KcpPacket 1 [5; 6]) true []) = Panic.
Proof. by vm_compute. Qed.
