(* ===== verification/EndpointTraffic.v ===== *)
(** * The traffic of an endpoint

    Everything an endpoint sends on its own account: KCP packets, keep-alives,
    route replies, resends after a local failure, and the feedback on samples.
    None of it panics, at any clock and whatever the planner has measured, and
    every packet opens, for a holder of the keys, to the message it was sent
    for. *)

From S2P Require Import Prelude Bytes Core Wire WireFacts Sequence Crypto Packet.
From S2P Require Import Machine MachineFacts Kcp KcpStream Routing RoutingPath.
From S2P Require Import RoutingFacts RoutingFeedback RoutingTotal Endpoint.
From S2P Require Import EndpointLifecycle EndpointFacts EndpointSend.

(** A plan of the configured graph, from this endpoint on. *)
Definition planned (config : EndpointConfig.t) (plan : list ChannelId) : Prop :=
  ∃ path, chain (RP.new (EndpointConfig.route config)) 0 path
    ∧ plan_of (RP.new (EndpointConfig.route config)) path plan.

(** A channel that leaves this endpoint. *)
Definition local_channel (config : EndpointConfig.t) (ch : ChannelId) : Prop :=
  ∃ id e, RP.get_edge (RP.new (EndpointConfig.route config)) id = Ret e
    ∧ EdgeId.node id = 0 ∧ Edge.channel_id e = ch.

Section traffic.
Context `{Aes : Aegis128L, AesSpec : !Aegis128LSpec, Bl : Blake3, BlSpec : !Blake3Spec,
  It : HashIter}.

(** What sending relies on: the geometry, parameters KCP accepts, channels
    that name their edges, and samples that are plans. *)
Record fit (self : EC.t) : Prop := {
  fit_geometry : geometry self;
  fit_params : params_ok (EC.kcp_params self);
  fit_distinct : distinct_channels (RP.new (EndpointConfig.route (EC.config self)));
  fit_samples : map_Forall (λ _ s, planned (EC.config self) (FeedbackSample.route_plan s))
    (EC.outstanding self);
}.

(** [payload] is [m] sealed under [stamp], in a size that can be sent. *)
Record sealed_for (config : EndpointConfig.t) (mtu : Z) (stamp : EnvelopeStamp)
    (m : EndpointMessage.t) (payload : list Z) : Prop := {
  sf_time : in_width TIME_BITS (stamp_time stamp);
  sf_seq_id : in_width 48 (stamp_seq_id stamp);
  sf_seq_no : in_width 48 (stamp_seq_no stamp);
  sf_wf : EndpointMessage.wf m;
  sf_len : len payload <= mtu + ENDPOINT_MESSAGE_OVERHEAD;
  sf_open : ∀ other : EC.t,
    EndpointConfig.message_key (EC.config other) = EndpointConfig.message_key config →
    EC.open_endpoint_message other stamp payload = Ret (Some m);
}.

(** A packet that carries [m] and leaves on a local channel. *)
Definition posted (config : EndpointConfig.t) (mtu : Z) (stamp : EnvelopeStamp)
    (m : EndpointMessage.t) (ch : ChannelId) (bytes : list Z) : Prop :=
  local_channel config ch ∧ ∃ e,
    decode_transport_packet (EndpointConfig.envelope_key config) bytes = Ret (Ok e)
    ∧ envelope_stamp e = stamp ∧ sealed_for config mtu stamp m (Envelope.payload e).

(** Every packet among the actions carries a message of [Q]. *)
Definition traffic (config : EndpointConfig.t) (mtu : Z) (Q : EndpointMessage.t → Prop)
    (out : list CoreAction) : Prop :=
  ∀ ch bytes, SendTransportPacket ch bytes ∈ out →
    ∃ stamp m, posted config mtu stamp m ch bytes ∧ Q m.

Lemma traffic_nil config mtu Q : traffic config mtu Q [].
Proof. intros ch bytes H. by apply elem_of_nil in H. Qed.

Lemma traffic_app config mtu Q o1 o2 :
  traffic config mtu Q o1 → traffic config mtu Q o2 → traffic config mtu Q (o1 ++ o2).
Proof. intros H1 H2 ch bytes [H|H]%elem_of_app; [by apply H1|by apply H2]. Qed.

Lemma traffic_impl config mtu (Q Q' : EndpointMessage.t → Prop) out :
  (∀ m, Q m → Q' m) → traffic config mtu Q out → traffic config mtu Q' out.
Proof.
  intros HQ H ch bytes Hin. destruct (H ch bytes Hin) as (st & m & Hp & Hq).
  exists st, m. split; [done|by apply HQ].
Qed.

(** The call returns; only packets with messages of [Q] were added. *)
Definition transmits (Q : EndpointMessage.t → Prop) (self : EC.t) (a : list CoreAction)
    (r : comp (EC.t * list CoreAction)) : Prop :=
  ∃ self' out, r = Ret (self', a ++ out) ∧ fit self' ∧ quiet self a self' (a ++ out)
    ∧ traffic (EC.config self) (KcpParams.mtu (EC.kcp_params self)) Q out.

(** No new packets: nothing but counters and clocks changed. *)
Lemma transmits_nothing Q self a : fit self → transmits Q self a (Ret (self, a)).
Proof.
  intros Hf. exists self, []. rewrite app_nil_r.
  split_and!; [done|done|apply quiet_refl|apply traffic_nil].
Qed.

Lemma transmits_bind Q self a r f :
  transmits Q self a r →
  (∀ self1 out, fit self1 → quiet self a self1 (a ++ out) →
     transmits Q self1 (a ++ out) (f (self1, a ++ out))) →
  transmits Q self a (r ≫= f).
Proof.
  intros (s1 & o1 & -> & Hf1 & Hq1 & Ht1) H. cbn [mbind comp_bind].
  destruct (H s1 o1 Hf1 Hq1) as (s2 & o2 & -> & Hf2 & Hq2 & Ht2).
  exists s2, (o1 ++ o2). rewrite (assoc_L (++)). split_and!; [done|done|by eapply quiet_trans|].
  apply traffic_app; [done|]. by rewrite (quiet_config _ _ _ _ Hq1), (quiet_params _ _ _ _ Hq1) in Ht2.
Qed.

(** ** Frames *)

Lemma fit_frame (self self' : EC.t) :
  fit self → geometry self' → EC.config self' = EC.config self →
  EC.kcp_params self' = EC.kcp_params self →
  (∀ id s, EC.outstanding self' !! id = Some s →
     EC.outstanding self !! id = Some s
     ∨ planned (EC.config self) (FeedbackSample.route_plan s)) →
  fit self'.
Proof.
  intros [Hg Hp Hd Hs] Hg' Hc Hk Ho. split; rewrite ?Hc, ?Hk; [done|done|done|].
  intros id s Hi. destruct (Ho id s Hi) as [H|H]; [|done]. by apply (Hs id).
Qed.

(** Everything but the sessions, the filter, the counters and the clocks. *)
Record same_core (self self' : EC.t) : Prop := {
  sc_config : EC.config self' = EC.config self;
  sc_params : EC.kcp_params self' = EC.kcp_params self;
  sc_overhead : EC.packet_overhead self' = EC.packet_overhead self;
  sc_planner : EC.route_planner self' = EC.route_planner self;
  sc_seq_id : EC.seq_id self' = EC.seq_id self;
  sc_seq_no : EC.next_seq_no self' = EC.next_seq_no self;
  sc_samples : EC.outstanding self' = EC.outstanding self;
  sc_conv_id : EC.next_conv_id self' = EC.next_conv_id self;
}.

#[export] Instance same_core_refl : Reflexive same_core.
Proof. by split. Qed.

#[export] Instance same_core_trans : Transitive same_core.
Proof. intros x y z [] []. split; congruence. Qed.

Lemma fit_same (self self' : EC.t) : fit self → same_core self self' → fit self'.
Proof.
  intros Hf []. pose proof (fit_geometry _ Hf) as Hg.
  apply (fit_frame self); [done| |done|done|rewrite sc_samples0; by left].
  apply (geometry_frame self); rewrite ?sc_planner0, ?sc_seq_id0, ?sc_seq_no0; try done;
    apply Hg.
Qed.

Lemma planned_path (self : EC.t) path plan :
  geometry self → chain (EC.route_planner self) 0 path →
  plan_of (EC.route_planner self) path plan → planned (EC.config self) plan.
Proof.
  intros Hg Hc Hp. exists path. split.
  - eapply same_graph_chain; [by apply geo_graph|done].
  - eapply same_graph_plan; [symmetry; by apply geo_graph|done].
Qed.

Lemma path_local (self : EC.t) path ch route :
  geometry self → chain (EC.route_planner self) 0 path →
  plan_of (EC.route_planner self) path (ch :: route) → local_channel (EC.config self) ch.
Proof.
  intros Hg Hc Hp. destruct (planned_path self path _ Hg Hc Hp) as (p & Hc' & Hp').
  destruct p as [|id p]; [done|]. destruct Hp' as [(e & He & <-) _].
  destruct Hc' as [Hn _]. by exists id, e.
Qed.

(** ** Packets *)

Lemma envelope_transmits Q (self : EC.t) elapsed stamp m payload sample a :
  fit self → Q m →
  sealed_for (EC.config self) (KcpParams.mtu (EC.kcp_params self)) stamp m payload →
  transmits Q self a (EC.send_envelope self elapsed stamp payload sample a).
Proof.
  intros Hf HQ Hs. pose proof (fit_geometry _ Hf) as Hg. pose proof Hs as [Ht Hi Hn _ Hl _].
  destruct (send_envelope_returns self elapsed stamp payload sample a Hg Ht Hi Hn Hl)
    as (self' & sent & E & Hg' & Hem).
  exists self', sent. apply send_envelope_quiet in E as Hq.
  pose proof (quiet_config _ _ _ _ Hq) as Hc. pose proof (quiet_params _ _ _ _ Hq) as Hk.
  split; [done|]. destruct sent as [|[ch bytes| | | ] [|]]; try done.
  - destruct Hem as [_ Ho]. split_and!; [|done|apply traffic_nil].
    apply (fit_frame self); [done..|]. rewrite Ho. by left.
  - destruct Hem as (path & route & Hp%is_path_chain & Hplan & (_ & e & Hd & Hst & _ & Hpl) & Ho).
    split_and!; [|done|].
    + apply (fit_frame self); [done..|]. intros id s. rewrite Ho.
      destruct sample; [|by left]. intros [[_ <-]|[_ H]]%lookup_insert_Some; [|by left].
      right. by eapply planned_path.
    + intros ch' bytes' [= -> ->]%list_elem_of_singleton. exists stamp, m. split; [|done].
      split; [by eapply path_local|]. exists e. by rewrite Hpl.
Qed.

Lemma message_transmits (Q : EndpointMessage.t → Prop) (self : EC.t) elapsed m sample a :
  fit self → EndpointMessage.wf m →
  len (message_bytes m) <= 1 + KcpParams.mtu (EC.kcp_params self) → Q m →
  transmits Q self a (EC.send_endpoint_message self elapsed m sample a).
Proof.
  intros Hf Hm Hlen HQ. unfold EC.send_endpoint_message.
  destruct (next_sequence_spec self (fit_geometry _ Hf))
    as (i & n & self1 & E & Hi & Hn & Hg1 & Hc & Hp & Hk & Ho & Hout). rewrite E. cbn zeta.
  set (stamp := Build_EnvelopeStamp _ i n).
  pose proof (current_time_width self1 elapsed) as Ht.
  destruct (seal_open self1 self1 stamp m Ht Hm eq_refl) as (payload & Hs & Hl & _).
  rewrite Hs. cbn [mbind comp_bind].
  assert (fit self1) as Hf1.
  { apply (fit_frame self); [done..|]. rewrite Hout. by left. }
  destruct (envelope_transmits Q self1 elapsed stamp m payload sample a Hf1 HQ)
    as (self2 & out & E2 & Hf2 & Hq2 & Ht2).
  { rewrite Hc, Hk. split; [done..| |].
    - rewrite Hl. change ENDPOINT_MESSAGE_OVERHEAD with 17. lia.
    - intros other Hkey. destruct (seal_open self1 other stamp m Ht Hm) as (s & Hs' & _ & Hopen);
        [by rewrite Hc|]. rewrite Hs in Hs'. by apply Ret_inj in Hs' as <-. }
  rewrite Hc, Hk in Ht2. exists self2, out. split_and!; [done|done| |done].
  apply (send_endpoint_message_quiet self elapsed m sample). unfold EC.send_endpoint_message.
  rewrite E. cbn zeta. fold stamp. rewrite Hs. exact E2.
Qed.

Lemma len_kcp_message d k : len (message_bytes (EndpointMessage.KcpPacket d k)) = 1 + len k.
Proof. cbn [message_bytes]. apply len_cons. Qed.

Lemma params_mtu_bounds (self : EC.t) :
  fit self → KCP_OVERHEAD < KcpParams.mtu (EC.kcp_params self) < 2 ^ 32.
Proof. intros Hf. apply (fit_params _ Hf). Qed.

Lemma depth_of_range sample : 0 <= EC.depth_of sample <= 3.
Proof. destruct sample; cbn; lia. Qed.

Lemma kcp_packets_transmit (Q : EndpointMessage.t → Prop) elapsed packets :
  ∀ (self : EC.t) a, fit self →
  Forall (λ k, len k <= KcpParams.mtu (EC.kcp_params self)
     ∧ ∀ d, Q (EndpointMessage.KcpPacket d k)) packets →
  transmits Q self a (EC.send_kcp_packets self elapsed packets a).
Proof.
  unfold EC.send_kcp_packets. induction packets as [|k packets IH]; intros self a Hf Hall;
    cbn [for_each]; [by apply transmits_nothing|].
  apply Forall_cons in Hall as [[Hk HQ] Hall].
  apply transmits_bind.
  - apply message_transmits; [done| |rewrite len_kcp_message; lia|apply HQ].
    split; [apply depth_of_range|done].
  - intros self1 out Hf1 Hq1. apply IH; [done|]. by rewrite (quiet_params _ _ _ _ Hq1).
Qed.

Lemma route_reply_transmits (Q : EndpointMessage.t → Prop) (self : EC.t) elapsed stamp depth a :
  fit self → in_width 48 (stamp_seq_id stamp) → in_width 48 (stamp_seq_no stamp) →
  0 <= depth → (∀ d i n, Q (EndpointMessage.RouteReply d i n)) →
  transmits Q self a (EC.send_route_reply self elapsed stamp depth a).
Proof.
  intros Hf Hi Hn Hd HQ. unfold EC.send_route_reply.
  destruct (negb _); [|by apply transmits_nothing].
  pose proof (params_mtu_bounds self Hf) as Hm. unfold KCP_OVERHEAD in Hm.
  apply message_transmits; [done| | |apply HQ].
  - split; [|done]. cbn [EndpointMessage.reply_depth].
    destruct (Z.ltb_spec depth 3); cbn [andb]; [|lia].
    destruct (EC.feedback_due self elapsed); [|lia]. rewrite wrap_id; lia.
  - cbn [message_bytes]. rewrite len_cons, len_app, !len_to_le. lia.
Qed.

Lemma keepalive_transmits (Q : EndpointMessage.t → Prop) (self : EC.t) elapsed a :
  fit self → (∀ d, Q (EndpointMessage.KeepAlive d)) →
  transmits Q self a (EC.send_keepalive self elapsed a).
Proof.
  intros Hf HQ. unfold EC.send_keepalive. destruct (_ && _); [|by apply transmits_nothing].
  pose proof (params_mtu_bounds self Hf) as Hm. unfold KCP_OVERHEAD in Hm.
  apply transmits_bind.
  - apply message_transmits; [done| | |apply HQ].
    + split; [apply depth_of_range|done].
    + cbn [message_bytes]. rewrite len_cons, (@len_nil Z). lia.
  - intros self1 out Hf1 _. eexists _, []. rewrite app_nil_r. split; [done|].
    split_and!; [by apply (fit_same self1)| |apply traffic_nil].
    split; try done. exists []. by rewrite app_nil_r.
Qed.

(** ** Feedback *)

Lemma feedback_returns (self : EC.t) plan sent_at success :
  fit self → planned (EC.config self) plan →
  ∃ planner, RP.note_feedback (EC.route_planner self) plan sent_at success = Ret planner
    ∧ graph_ok planner ∧ same_graph (EC.route_planner self) planner.
Proof.
  intros Hf (path & Hc & Hp). pose proof (fit_geometry _ Hf) as Hg.
  pose proof (geo_graph _ Hg) as Hsame.
  apply (note_feedback_total _ path).
  - by apply geo_planner.
  - eapply same_graph_distinct; [done|by apply fit_distinct].
  - by eapply same_graph_chain_r.
  - by eapply same_graph_plan.
Qed.

(** A planner over the same graph, and one sample less. *)
Lemma fit_planner (self : EC.t) (planner : RP.t) (id : PacketId) :
  fit self → graph_ok planner → same_graph (EC.route_planner self) planner →
  fit (self <| EC.route_planner := planner |> <| EC.outstanding ::= delete id |>).
Proof.
  intros Hf Hp Hs. pose proof (fit_geometry _ Hf) as Hg.
  apply (fit_frame self); [done| |done|done|].
  - apply (geometry_frame self); try done; apply Hg.
  - intros i s Hi. left. change (delete id (EC.outstanding self) !! i = Some s) in Hi.
    by apply lookup_delete_Some in Hi as [_ Hi].
Qed.

Lemma route_reply_returns (self : EC.t) id :
  fit self → ∃ self', EC.handle_route_reply self id = Ret self' ∧ fit self'.
Proof.
  intros Hf. unfold EC.handle_route_reply.
  destruct (EC.outstanding self !! id) as [s|] eqn:Es; [|by exists self]. cbn zeta.
  destruct (feedback_returns self (FeedbackSample.route_plan s) (FeedbackSample.sent_at s) true)
    as (planner & E & Hok & Hsame); [done|by apply (fit_samples _ Hf id)|].
  change (EC.route_planner (self <| EC.outstanding ::= delete id |>)) with (EC.route_planner self).
  rewrite E. cbn [mbind comp_bind]. eexists; split; [done|].
  exact (fit_planner self planner id Hf Hok Hsame).
Qed.

Lemma expire_feedback_returns (self : EC.t) elapsed :
  fit self → ∃ self', EC.expire_feedback self elapsed = Ret self' ∧ fit self'.
Proof.
  intros Hf. unfold EC.expire_feedback.
  assert (∀ l (x : EC.t), fit x → EC.config x = EC.config self →
    Forall (λ kv, planned (EC.config self) (FeedbackSample.route_plan kv.2)) l →
    ∃ self', for_each l (λ '(packet_id, sample) self,
      if elapsed <? FeedbackSample.deadline sample then Ret self else
      planner ← RP.note_feedback (EC.route_planner self)
        (FeedbackSample.route_plan sample) (FeedbackSample.sent_at sample) false;
      Ret (self <| EC.route_planner := planner |>
                <| EC.outstanding ::= delete packet_id |>)) x = Ret self' ∧ fit self') as Hloop.
  { induction l as [|[id s] l IH]; intros x Hx Hc Hl; cbn [for_each]; [by exists x|].
    apply Forall_cons in Hl as [Hs Hl]. cbn [snd] in Hs.
    destruct (_ <? _); cbn [mbind comp_bind]; [by apply IH|].
    destruct (feedback_returns x (FeedbackSample.route_plan s) (FeedbackSample.sent_at s) false)
      as (planner & -> & Hok & Hsame); [done|by rewrite Hc|]. cbn [mbind comp_bind].
    apply IH; [|done|done].
    exact (fit_planner x planner id Hx Hok Hsame). }
  apply Hloop; [done|done|]. apply Forall_forall. intros [id s] Hin.
  unfold packet_iter in Hin. rewrite merge_sort_Permutation in Hin.
  apply elem_of_map_to_list in Hin. by apply (fit_samples _ Hf id).
Qed.

(** ** A packet the shell could not send *)

Lemma local_failure_returns (self : EC.t) ch elapsed :
  fit self → local_channel (EC.config self) ch →
  ∃ planner, RP.note_local_send_failure (EC.route_planner self) ch elapsed = Ret planner
    ∧ graph_ok planner ∧ same_graph (EC.route_planner self) planner.
Proof.
  intros Hf (id & e0 & He & Hn & Hch). pose proof (fit_geometry _ Hf) as Hg.
  pose proof (proj2 (geo_graph _ Hg) id) as Hs. rewrite He in Hs. unfold same_edge in Hs.
  destruct (RP.get_edge (EC.route_planner self) id) as [e| |] eqn:E; try done.
  apply (note_local_send_failure_total _ ch elapsed id e); [by apply geo_planner|done|done|].
  destruct Hs. congruence.
Qed.

Lemma send_failed_transmits (Q : EndpointMessage.t → Prop) (self : EC.t) elapsed stamp m ch bytes a :
  fit self → Q m →
  posted (EC.config self) (KcpParams.mtu (EC.kcp_params self)) stamp m ch bytes →
  ∃ self' out, EC.handle_send_failed self elapsed ch bytes a = Ret (ResultNone, self', a ++ out)
    ∧ fit self' ∧ quiet self a self' (a ++ out)
    ∧ traffic (EC.config self) (KcpParams.mtu (EC.kcp_params self)) Q out.
Proof.
  intros Hf HQ (Hch & e & Hd & Hst & Hs). unfold EC.handle_send_failed. cbn zeta.
  destruct (local_failure_returns self ch elapsed Hf Hch) as (planner & E & Hok & Hsame).
  change (EC.route_planner (EC.count self _)) with (EC.route_planner self). rewrite E.
  cbn [mbind comp_bind].
  match goal with |- context [decode_transport_packet ?k bytes] =>
    change k with (EndpointConfig.envelope_key (EC.config self)) end.
  rewrite Hd. cbn [mbind comp_bind unwrap_ok]. rewrite Hst.
  cbn [mbind comp_bind unwrap_ok].
  set (id := (stamp_seq_id stamp, stamp_seq_no stamp)).
  set (was := bool_decide _).
  match goal with |- context [EC.open_endpoint_message ?x] => set (self1 := x) end.
  assert (fit self1 ∧ quiet self a self1 a) as [Hf1 Hq1].
  { pose proof (fit_planner self planner id Hf Hok Hsame) as Hf1.
    subst self1. destruct was; (split; [eapply fit_same; [exact Hf1|by split]|]);
      (split; try done; exists []; by rewrite app_nil_r). }
  clearbody self1. pose proof (quiet_config _ _ _ _ Hq1) as Hc.
  pose proof (quiet_params _ _ _ _ Hq1) as Hk.
  rewrite (sf_open _ _ _ _ _ Hs) by (by rewrite Hc). cbn [mbind comp_bind unwrap].
  assert (∀ r, transmits Q self1 a r → ∃ self' out,
    ('(self, actions) ← r; Ret (ResultNone, self, actions)) = Ret (ResultNone, self', a ++ out)
    ∧ fit self' ∧ quiet self a self' (a ++ out)
    ∧ traffic (EC.config self) (KcpParams.mtu (EC.kcp_params self)) Q out) as Hend.
  { intros r (self' & out & -> & Hf' & Hq' & Ht). cbn [mbind comp_bind].
    exists self', out. rewrite Hc, Hk in Ht. split_and!; [done|done|by eapply quiet_trans|done]. }
  destruct m as [d k|d|d i n].
  - apply Hend. eapply (envelope_transmits Q); [done|exact HQ|by rewrite Hc, Hk].
  - apply (Hend (Ret (self1, a))). by apply transmits_nothing.
  - apply (Hend (Ret (self1, a))). by apply transmits_nothing.
Qed.

End traffic.
