(* ===== verification/SessionPeer.v ===== *)
(** * A session as one side of a reliable stream

    The operations of [EndpointSession] on the KCP side of a conversation: as
    long as the datagrams come from the peer, none of them panics, and they
    keep the refinement invariant of [KcpStream].  A [talk] is what one
    endpoint and the network know of one conversation. *)

From S2P Require Import Prelude Bytes Core Wire WireFacts Kcp KcpWire KcpMessage.
From S2P Require Import KcpReceive KcpInv KcpFlush KcpStream Endpoint EndpointLifecycle.

(** ** One side of a conversation *)

(** The KCP side with its logs, the data handed to the shell so far, and
    whether the shell knows the conversation. *)
Record talk := {
  tk_peer : peer;
  tk_log : list (Z * list Z);
  tk_hist : list Seg.t;
  tk_told : list (list Z);
  tk_known : bool;
}.

#[export] Instance eta_talk : Eta talk := λ t,
  Build_talk (tk_peer t) (tk_log t) (tk_hist t) (tk_told t) (tk_known t).

(** Encodings of session messages. *)
Definition spoken (m : list Z) : Prop := ∃ msg, m = SessionMessage.encode msg.

(** The data among encoded messages. *)
Definition datas (ms : list (list Z)) : list (list Z) :=
  omap (λ m, match m with 1 :: b => Some b | _ => None end) ms.

Lemma datas_app l1 l2 : datas (l1 ++ l2) = datas l1 ++ datas l2.
Proof. apply omap_app. Qed.

Lemma datas_prefix l1 l2 : l1 `prefix_of` l2 → datas l1 `prefix_of` datas l2.
Proof. intros [k ->]. rewrite datas_app. by eexists. Qed.

(** ** Operations of a session *)

Section session.
Context (conv : Z) (pp pq : KcpParams.t) (h : talk).
Hypothesis params : KCP_OVERHEAD < KcpParams.mtu pq.
Hypothesis room : len (stream_of (mss_of pq) (sent (tk_peer h))) < 2 ^ 32.
Hypothesis words : Forall spoken (sent (tk_peer h)).

(** The side [g] faces [h]. *)
Definition facing (g : talk) : Prop :=
  half conv pp pq (tk_log g) (tk_log h) (tk_hist g) (tk_peer g) (tk_peer h).

(** From [g] to [g'], whose KCP state the session [s'] holds: the datagrams
    put on the wire, the messages accepted from and returned to the session. *)
Record talked (g g' : talk) (s' : ES.t) (out said heard : list (list Z)) : Prop := {
  tkd_facing : facing g';
  tkd_kcp : ES.kcp s' = node (tk_peer g');
  tkd_log : tk_log g `prefix_of` tk_log g';
  tkd_sent : sent (tk_peer g') = sent (tk_peer g) ++ said;
  tkd_received : received (tk_peer g') = received (tk_peer g) ++ heard;
  tkd_wire : wire (tk_peer g') = wire (tk_peer g) ++ out;
  tkd_told : tk_told g' = tk_told g;
  tkd_known : tk_known g' = tk_known g;
}.

Lemma talked_trans g1 g2 g3 s2 s3 o1 o2 a1 a2 b1 b2 :
  talked g1 g2 s2 o1 a1 b1 → talked g2 g3 s3 o2 a2 b2 →
  talked g1 g3 s3 (o1 ++ o2) (a1 ++ a2) (b1 ++ b2).
Proof.
  intros [] []. split; try done; try congruence; [by etrans|..];
    rewrite (assoc_L (++)); congruence.
Qed.

Lemma talked_refl g s : facing g → ES.kcp s = node (tk_peer g) → talked g g s [] [] [].
Proof. intros. split; rewrite ?app_nil_r; done. Qed.

(** A new KCP state [k] with the logs it comes with. *)
Definition at_node (g : talk) (k : Kcp.t) (log : list (Z * list Z)) : talk :=
  g <| tk_peer := (tk_peer g) <| node := k |> |> <| tk_log := log |>.

Lemma talked_node g s k log :
  half conv pp pq log (tk_log h) (tk_hist g) ((tk_peer g) <| node := k |>) (tk_peer h) →
  tk_log g `prefix_of` log →
  talked g (at_node g k log) (s <| ES.kcp := k |>) [] [] [].
Proof. intros. split; cbn; rewrite ?app_nil_r; done. Qed.

Lemma now_width e : in_width 32 (wrap 32 e).
Proof. by apply wrap_range. Qed.

Lemma facing_room g : facing g → len (tk_log h) < 2 ^ 32.
Proof. intros Hf. by eapply half_room. Qed.

Lemma session_update g s e :
  facing g → ES.kcp s = node (tk_peer g) →
  ∃ s' g', ES.update_kcp s e = Ret s' ∧ talked g g' s' [] [] []
    ∧ Kcp.updated (ES.kcp s') = true ∧ pending (ES.kcp s') = pending (ES.kcp s).
Proof.
  intros Hf Hk. unfold ES.update_kcp. rewrite Hk.
  destruct (update_half _ _ _ _ _ _ _ _ Hf (wrap 32 e) (now_width e))
    as (k & sp' & -> & Hh & Hpre & Hu & Hp). cbn [mbind comp_bind unwrap_ok].
  eexists _, _. split; [done|]. split; [by apply talked_node|]. done.
Qed.

Lemma session_take g s :
  facing g → ES.kcp s = node (tk_peer g) →
  ∃ out s' g', ES.take_output s = (out, s') ∧ talked g g' s' out [] []
    ∧ pending (ES.kcp s') = pending (ES.kcp s).
Proof.
  intros Hf Hk. unfold ES.take_output. rewrite Hk.
  destruct (take_half _ _ _ _ _ _ _ _ Hf) as [Hh _].
  destruct (Kcp.take_output (node (tk_peer g))) as [out k] eqn:E. cbn [fst snd] in Hh.
  eexists out, _, (g <| tk_peer := (tk_peer g) <| node := k |> <| wire ::= λ l, l ++ out |> |>).
  split; [done|]. split.
  - split; cbn; rewrite ?app_nil_r; done.
  - unfold Kcp.take_output in E. by injection E as <- <-.
Qed.

Lemma session_flush g s e :
  facing g → ES.kcp s = node (tk_peer g) →
  ∃ out s' g', ES.flush_now s e = Ret (out, s') ∧ talked g g' s' out [] []
    ∧ pending (ES.kcp s') = pending (ES.kcp s).
Proof.
  intros Hf Hk. unfold ES.flush_now.
  destruct (session_update g s e Hf Hk) as (s1 & g1 & -> & H1 & Hu & Hp1).
  cbn [mbind comp_bind]. pose proof (tkd_facing _ _ _ _ _ _ H1) as Hf1.
  pose proof (tkd_kcp _ _ _ _ _ _ H1) as Hk1.
  destruct (flush_half _ _ _ _ _ _ _ _ Hf1) as (r & k & sp' & E & Hh & Hpre & Hok).
  rewrite <- Hk1 in E, Hok. rewrite E. destruct (Hok Hu) as (-> & _ & Hp).
  cbn [mbind comp_bind unwrap_ok].
  pose proof (talked_node g1 s1 k sp' Hh Hpre) as H2.
  destruct (session_take _ _ (tkd_facing _ _ _ _ _ _ H2) (tkd_kcp _ _ _ _ _ _ H2))
    as (out & s' & g' & -> & H3 & Hp3).
  exists out, s', g'. split; [done|]. split.
  - pose proof (talked_trans _ _ _ _ _ _ _ _ _ _ _ (talked_trans _ _ _ _ _ _ _ _ _ _ _ H1 H2) H3).
    done.
  - rewrite Hp3. cbn. congruence.
Qed.

Lemma session_poll g s e :
  facing g → ES.kcp s = node (tk_peer g) →
  ∃ out s' g', ES.poll s e = Ret (out, s') ∧ talked g g' s' out [] [].
Proof.
  intros Hf Hk. unfold ES.poll.
  destruct (session_update g s e Hf Hk) as (s1 & g1 & -> & H1 & _).
  cbn [mbind comp_bind].
  destruct (session_take _ _ (tkd_facing _ _ _ _ _ _ H1) (tkd_kcp _ _ _ _ _ _ H1))
    as (out & s' & g' & -> & H2 & _).
  exists out, s', g'. split; [done|]. exact (talked_trans _ _ _ _ _ _ _ _ _ _ _ H1 H2).
Qed.

(** A message that fits the peer's window is accepted. *)
Lemma session_send g s e msg :
  facing g → ES.kcp s = node (tk_peer g) → bytes_ok (SessionMessage.encode msg) →
  fragment_count (mss_of pp) (SessionMessage.encode msg)
    < KcpParams.receive_window pp `min` 256 →
  ∃ out s' g', ES.send_message s e msg = Ret (out, s')
    ∧ talked g g' s' out [SessionMessage.encode msg] []
    ∧ 0 < pending (ES.kcp s').
Proof.
  intros Hf Hk Hb Hfit. unfold ES.send_message. rewrite Hk.
  destruct (send_half _ _ _ _ _ _ _ _ Hf _ Hb) as (r & k & -> & Hr).
  destruct r as [n|err]; [|lia]. destruct Hr as [Hh Hp]. cbn [mbind comp_bind unwrap_ok].
  set (g1 := g <| tk_peer := (tk_peer g) <| node := k |>
    <| sent ::= λ l, l ++ [SessionMessage.encode msg] |> |>).
  assert (talked g g1 (s <| ES.kcp := k |>) [] [SessionMessage.encode msg] []) as H1
    by (split; cbn; rewrite ?app_nil_r; done).
  destruct (session_flush _ _ e (tkd_facing _ _ _ _ _ _ H1) (tkd_kcp _ _ _ _ _ _ H1))
    as (out & s' & g' & -> & H2 & Hp2).
  exists out, s', g'. split; [done|]. split.
  - pose proof (talked_trans _ _ _ _ _ _ _ _ _ _ _ H1 H2) as H3. by rewrite app_nil_r in H3.
  - rewrite Hp2. cbn. rewrite Hp.
    pose proof (fragment_count_pos (mss_of pp) (SessionMessage.encode msg)).
    unfold pending. pose proof (len_nonneg (Kcp.snd_buf (node (tk_peer g)))).
    pose proof (len_nonneg (Kcp.snd_queue (node (tk_peer g)))). lia.
Qed.

(** ** Receiving *)

Lemma heard_spoken g m ms :
  facing g → received (tk_peer g) = ms ++ [m] → spoken m.
Proof.
  intros Hf Hr. destruct (half_link _ _ _ _ _ _ _ _ Hf) as [_ [rest Hrest]].
  rewrite Hr in Hrest. rewrite Hrest in words. apply Forall_app in words as [Hw _].
  by apply Forall_app in Hw as [_ [Hw _]%Forall_cons].
Qed.

Lemma session_recv fuel : ∀ g s ms,
  facing g → ES.kcp s = node (tk_peer g) → (backlog (ES.kcp s) <= fuel)%nat →
  ∃ msgs s' g', ES.recv_loop fuel s ms = Ret (ms ++ msgs, s')
    ∧ talked g g' s' [] [] (SessionMessage.encode <$> msgs).
Proof.
  induction fuel as [|fuel IH]; intros g s ms Hf Hk Hfuel; cbn [ES.recv_loop];
    destruct (Kcp.peeksize (ES.kcp s)) as [n|err] eqn:Hp.
  2,4: apply peeksize_Err in Hp as [-> | ->]; exists [], s, g; rewrite app_nil_r;
    (split; [done|by apply talked_refl]).
  { unfold Kcp.peeksize in Hp. unfold backlog in Hfuel.
    destruct (Kcp.rcv_queue (ES.kcp s)); [done|]. cbn in Hfuel. lia. }
  rewrite Hk in Hp, Hfuel |- *.
  destruct (message_half _ _ _ _ _ _ _ _ params Hf n Hp (facing_room g Hf))
    as (k & m & hp' & -> & Hlt & Hh). cbn [mbind comp_bind unwrap_ok].
  set (g1 := g <| tk_peer := (tk_peer g) <| node := k |> <| received ::= λ l, l ++ [m] |> |>
               <| tk_hist := hp' |>).
  assert (talked g g1 (s <| ES.kcp := k |>) [] [] [m]) as H1
    by (split; cbn; rewrite ?app_nil_r; done).
  destruct (heard_spoken g1 m (received (tk_peer g))) as [msg ->];
    [apply H1|apply H1|]. rewrite session_decode_encode. cbn [mbind comp_bind].
  destruct (IH g1 (s <| ES.kcp := k |>) (ms ++ [msg])) as (msgs & s' & g' & -> & H2);
    [apply H1|apply H1|cbn; lia|].
  exists (msg :: msgs), s', g'. split; [by rewrite <- (assoc_L (++))|].
  exact (talked_trans _ _ _ _ _ _ _ _ _ _ _ H1 H2).
Qed.

(** A datagram of the peer is taken in, and answered. *)
Lemma session_input g s e d :
  facing g → ES.kcp s = node (tk_peer g) → d ∈ wire (tk_peer h) →
  ∃ msgs out s' g', ES.input_packet s e d = Ret (msgs, out, s')
    ∧ talked g g' s' out [] (SessionMessage.encode <$> msgs).
Proof.
  intros Hf Hk Hd. unfold ES.input_packet. rewrite Hk.
  destruct (input_half _ _ _ _ _ _ _ _ Hf (wrap 32 e) d (now_width e) Hd (facing_room g Hf))
    as (n & k & -> & Hh). cbn [mbind comp_bind unwrap_ok].
  assert (talked g (at_node g k (tk_log g)) (s <| ES.kcp := k |>) [] [] []) as H1
    by (by apply talked_node).
  destruct (session_flush _ _ e (tkd_facing _ _ _ _ _ _ H1) (tkd_kcp _ _ _ _ _ _ H1))
    as (out & s2 & g2 & -> & H2 & _). cbn [mbind comp_bind]. unfold ES.recv_messages.
  destruct (session_recv (backlog (ES.kcp s2)) g2 s2 [])
    as (msgs & s3 & g3 & E & H3); [apply H2|apply H2|done|].
  unfold backlog in E. rewrite E. cbn [mbind comp_bind].
  exists msgs, out, s3, g3. split; [done|].
  pose proof (talked_trans _ _ _ _ _ _ _ _ _ _ _
    (talked_trans _ _ _ _ _ _ _ _ _ _ _ H1 H2) H3) as H. by rewrite !app_nil_r in H.
Qed.

(** Datagrams on the wire are whole segments within the MTU. *)
Lemma facing_wire g d : facing g → d ∈ wire (tk_peer g) →
  good_datagram conv (KcpParams.mtu pp) (tk_log g) d.
Proof.
  intros Hf Hd. eapply (proj1 (Forall_forall _ _)); [|exact Hd].
  apply (half_peer _ _ _ _ _ _ _ _ Hf).
Qed.

End session.

(** ** Datagrams *)

Lemma good_datagram_bytes conv mtu log d : good_datagram conv mtu log d → bytes_ok d.
Proof.
  intros (segs & _ & -> & _ & Hs). induction Hs as [|s l Hs Hl IH]; [constructor|].
  rewrite datagram_cons. apply bytes_ok_app. split; [|done]. apply seg_bytes_ok, Hs.
Qed.

(** The conversation of a datagram is in its first bytes. *)
Lemma good_datagram_conv conv mtu log d :
  good_datagram conv mtu log d → get_conv d = Ret conv.
Proof.
  intros (segs & Hne & -> & _ & Hs). destruct segs as [|s segs]; [done|].
  apply Forall_cons in Hs as [Hs _]. rewrite datagram_cons.
  unfold get_conv, seg_bytes, Seg.encode. rewrite app_nil_l, <- !(assoc_L (++)).
  pose proof (wf_conv _ (wire_wf _ _ _ Hs)) as Hc. rewrite (get_le_app 8) by exact Hc.
  cbn [mbind comp_bind]. by rewrite (wire_conv _ _ _ Hs).
Qed.
