(* ===== verification/Talk.v ===== *)
(** * What two endpoints say to each other in one conversation

    The discipline of a conversation: what a side may have said, how much of
    the peer's words it has handed to its shell, and how the session's phase
    bounds both.  The lemmas show that each thing a session does — speaking,
    hearing a message, starting over before anything was said — keeps it. *)

From S2P Require Import Prelude Bytes Core Wire WireFacts Sequence Crypto Routing.
From S2P Require Import Kcp KcpMessage KcpInv.
From S2P Require Import KcpFlush KcpStream Endpoint EndpointLifecycle.
From S2P Require Import EndpointTraffic SessionPeer.

(** ** Words *)

Definition closes (m : list Z) : bool := bool_decide (head m = Some 2).

(** Some word of [ms] closes the conversation. *)
Definition closed (ms : list (list Z)) : bool := existsb closes ms.

Lemma closed_app l1 l2 : closed (l1 ++ l2) = closed l1 || closed l2.
Proof. apply existsb_app. Qed.

Lemma closed_elem ms : closed ms = true ↔ ∃ l m l', ms = l ++ m :: l' ∧ closes m = true.
Proof.
  unfold closed. rewrite existsb_exists. split.
  - intros (m & Hm & Hc). apply in_split in Hm as (l & l' & ->). by exists l, m, l'.
  - intros (l & m & l' & -> & Hc). exists m. split; [|done]. apply in_elt.
Qed.

(** The segments that carry the data [bs]. *)
Definition segments (mss : Z) (bs : list (list Z)) : Z := len (stream_of mss (cons 1 <$> bs)).

Lemma segments_app mss b1 b2 : segments mss (b1 ++ b2) = segments mss b1 + segments mss b2.
Proof. unfold segments. by rewrite fmap_app, stream_of_app, len_app. Qed.

Lemma segments_nil mss : segments mss [] = 0.
Proof. done. Qed.

Lemma len_stream_one mss m : len (stream_of mss [m]) = fragment_count mss m.
Proof. rewrite stream_of_one. apply length_message_fragments. Qed.

Lemma segments_one mss b : segments mss [b] = fragment_count mss (1 :: b).
Proof. apply len_stream_one. Qed.

Lemma fragment_count_le mss m : 0 < mss → fragment_count mss m <= len m `max` 1.
Proof.
  intros Hm. unfold fragment_count. pose proof (len_nonneg m).
  pose proof (Z.div_le_upper_bound (len m + mss - 1) mss (len m `max` 1) Hm). nia.
Qed.

Lemma segments_nonneg mss bs : 0 <= segments mss bs.
Proof. apply len_nonneg. Qed.

(** What may be said: encoded messages, starting with [Open] unless the peer
    spoke first, ending with [Close], within the 2^32 segments of a stream. *)
Record speaker (params : KcpParams.t) (g : talk) : Prop := {
  sp_spoken : Forall spoken (sent (tk_peer g));
  sp_first : sent (tk_peer g) = [] ∨ head (sent (tk_peer g)) = Some [0]
    ∨ received (tk_peer g) ≠ [];
  sp_last : ∀ l m l', sent (tk_peer g) = l ++ m :: l' → closes m = true → l' = [];
  sp_cost : len (stream_of (mss_of params) (sent (tk_peer g)))
    <= segments (mss_of params) (datas (sent (tk_peer g))) + 1
       + (if closed (sent (tk_peer g)) then 2 else 0);
  sp_room : segments (mss_of params) (datas (sent (tk_peer g))) + 3 < 2 ^ 32;
}.

Lemma speaker_room params g :
  speaker params g → len (stream_of (mss_of params) (sent (tk_peer g))) < 2 ^ 32.
Proof. intros []. destruct (closed _); lia. Qed.

(** [speaker] is about the words only. *)
Lemma speaker_same params g g' :
  sent (tk_peer g') = sent (tk_peer g) →
  received (tk_peer g) `prefix_of` received (tk_peer g') →
  speaker params g → speaker params g'.
Proof.
  intros Hs Hr []. split; rewrite ?Hs; try done.
  destruct sp_first0 as [|[|H]]; [by left|by right; left|]. right; right.
  intros E. rewrite E in Hr. by apply prefix_nil_inv in Hr.
Qed.

(** One more message, which costs what it should. *)
Lemma speaker_say params g g' m :
  0 < mss_of params → speaker params g → spoken m → closed (sent (tk_peer g)) = false →
  (sent (tk_peer g) = [] → m = [0] ∨ received (tk_peer g') ≠ []) →
  sent (tk_peer g') = sent (tk_peer g) ++ [m] →
  received (tk_peer g) `prefix_of` received (tk_peer g') →
  segments (mss_of params) (datas (sent (tk_peer g'))) + 3 < 2 ^ 32 →
  fragment_count (mss_of params) m
    <= segments (mss_of params) (datas [m]) + (if closes m then 2 else 0)
  ∨ sent (tk_peer g) = [] ∧ m = [0] →
  speaker params g'.
Proof.
  intros Hmss [Hsp Hf Hl Hc Hr] Hm Hopen Hfirst Hs Hrec Hroom Hcost. split; rewrite ?Hs.
  - apply Forall_app. split; [done|by apply Forall_singleton].
  - right. destruct (sent (tk_peer g)) as [|x l] eqn:E.
    + destruct (Hfirst eq_refl) as [->|]; [by left|by right].
    + destruct Hf as [|[|H]]; [done|by left|]. right. intros E'. rewrite E' in Hrec.
      by apply prefix_nil_inv in Hrec.
  - intros l x l' E Hx. destruct (decide (l' = [])) as [|Hne]; [done|].
    destruct (exists_last Hne) as (l'' & y & ->). exfalso.
    rewrite app_comm_cons, (assoc_L (++)) in E. apply app_inj_tail in E as [E _].
    assert (closed (sent (tk_peer g)) = true); [|congruence].
    apply closed_elem. by exists l, x, l''.
  - rewrite stream_of_app, len_app, len_stream_one, datas_app, segments_app, closed_app.
    rewrite Hopen in *. cbn [orb]. unfold closed at 1. cbn [existsb]. rewrite orb_false_r.
    destruct Hcost as [Hcost|[E ->]].
    + destruct (closes m); lia.
    + rewrite E in *. change (datas [[0]]) with (@nil (list Z)). change (closes [0]) with false.
      change (len (stream_of (mss_of params) [])) with 0. cbn [datas omap list_omap].
      rewrite segments_nil. pose proof (fragment_count_le (mss_of params) [0] Hmss) as Hle.
      change (len [0]) with 1 in Hle. lia.
  - by rewrite Hs in Hroom.
Qed.

Lemma len_close r : len (SessionMessage.encode (SessionMessage.Close r)) = 2.
Proof. done. Qed.

Lemma speaker_close params (g t : talk) r :
  0 < mss_of params → speaker params g → closed (sent (tk_peer g)) = false →
  sent (tk_peer g) ≠ [] ∨ received (tk_peer g) ≠ [] →
  sent (tk_peer t) = sent (tk_peer g) ++ [SessionMessage.encode (SessionMessage.Close r)] →
  received (tk_peer t) = received (tk_peer g) → speaker params t.
Proof.
  intros Hm Hsp Hc Hor Hs Hr.
  eapply (speaker_say params g); [done|done|by eexists|done| |exact Hs|by rewrite Hr|..].
  - intros E. right. rewrite Hr. by destruct Hor.
  - rewrite Hs, datas_app, app_nil_r. apply Hsp.
  - left. pose proof (fragment_count_le (mss_of params)
      (SessionMessage.encode (SessionMessage.Close r)) Hm) as Hle. rewrite len_close in Hle.
    change (datas _) with (@nil (list Z)). change (closes _) with true. rewrite segments_nil. lia.
Qed.

Lemma speaker_data params (g t : talk) b :
  0 < mss_of params → speaker params g → closed (sent (tk_peer g)) = false →
  sent (tk_peer g) ≠ [] ∨ received (tk_peer g) ≠ [] →
  segments (mss_of params) (datas (sent (tk_peer g)) ++ [b]) + 3 < 2 ^ 32 →
  sent (tk_peer t) = sent (tk_peer g) ++ [SessionMessage.encode (SessionMessage.Data b)] →
  received (tk_peer t) = received (tk_peer g) → speaker params t.
Proof.
  intros Hm Hsp Hc Hor Hroom Hs Hr.
  eapply (speaker_say params g); [done|done|by eexists|done| |exact Hs|by rewrite Hr|..].
  - intros E. right. rewrite Hr. by destruct Hor.
  - by rewrite Hs, datas_app.
  - left. change (datas _) with [b]. change (closes _) with false. rewrite segments_one.
    cbn. lia.
Qed.

(** ** The session and its side of the talk *)

(** How far the shell has been told, by phase; [heard] are the messages the
    session has handled. *)
Definition session_ok (os : option ES.t) (heard : list (list Z)) (g : talk) : Prop :=
  match os with
  | None => True
  | Some s =>
      ES.kcp s = node (tk_peer g) ∧
      match ES.phase s with
      | PendingRemote => tk_known g = false
      | Open => tk_known g = true ∧ tk_told g = datas heard
          ∧ closed (sent (tk_peer g)) = false
      | ClosingLocal => tk_known g = true ∧ is_Some (ES.close_deadline_at s)
          ∧ is_Some (ES.pending_close s)
          ∧ (ES.close_queued s = false → closed (sent (tk_peer g)) = false)
      | ClosingRemote => tk_known g = true ∧ tk_told g = datas heard ∧ closed heard = true
      end
  end.

(** What [g] may rely on in its peer [h]. *)
Record listens (params : KcpParams.t) (h g : talk) : Prop := {
  ls_speaker : speaker params h;
  ls_heard : received (tk_peer h) `prefix_of` sent (tk_peer g);
}.

(** One side of the conversation [c]: [os] is its session, [heard] the
    messages handled so far, [h] the other side. *)
Record talks_at (c : ConvId) (pp pq : KcpParams.t) (os : option ES.t)
    (heard : list (list Z)) (h g : talk) : Prop := {
  ta_facing : facing c pp pq h g;
  ta_speaker : speaker pp g;
  ta_told : tk_told g `prefix_of` datas heard;
  ta_fresh : tk_known g = false → sent (tk_peer g) = [] ∧ heard = [];
  ta_begun : tk_known g = true → sent (tk_peer g) ≠ [] ∨ heard ≠ [];
  ta_session : session_ok os heard g;
}.

Definition talks (c : ConvId) (pp pq : KcpParams.t) (os : option ES.t) (h g : talk) : Prop :=
  talks_at c pp pq os (received (tk_peer g)) h g.

(** ** Hearing a message *)

(** What a list of actions tells the shell about [c]. *)
Definition told_in (c : ConvId) (out : list CoreAction) : list (list Z) :=
  omap (λ a, match a with
    | WriteSession c' b => if decide (c' = c) then Some b else None
    | _ => None
    end) out.

Definition opened_in (c : ConvId) (out : list CoreAction) : bool :=
  existsb (λ a, match a with OpenSession c' => c' =? c | _ => false end) out.

Lemma told_in_app c o1 o2 : told_in c (o1 ++ o2) = told_in c o1 ++ told_in c o2.
Proof. apply omap_app. Qed.

Lemma opened_in_app c o1 o2 : opened_in c (o1 ++ o2) = opened_in c o1 || opened_in c o2.
Proof. apply existsb_app. Qed.

(** The talk after the shell saw [out]. *)
Definition tell (c : ConvId) (out : list CoreAction) (g : talk) : talk :=
  Build_talk (tk_peer g) (tk_log g) (tk_hist g) (tk_told g ++ told_in c out)
    (tk_known g || opened_in c out).

Lemma tell_app c o1 o2 g : tell c (o1 ++ o2) g = tell c o2 (tell c o1 g).
Proof.
  unfold tell. cbn. by rewrite told_in_app, opened_in_app, orb_assoc, (assoc_L (++)).
Qed.

Lemma tell_nothing c out g : told_in c out = [] → opened_in c out = false → tell c out g = g.
Proof.
  intros Ht Ho. unfold tell. rewrite Ht, Ho, app_nil_r, orb_false_r. by destruct g.
Qed.

(** What the session of [c] becomes when it handles a message: the handler of
    [EndpointCore], seen from one conversation. *)
Section hear.
Context `{Aes : Aegis128L, Bl : Blake3, It : HashIter}.

(** The handler touches the session of [c], counters and actions only. *)
Record heard_by (c : ConvId) (self self' : EC.t) : Prop := {
  hb_others : ∀ c', c' ≠ c → EC.sessions self' !! c' = EC.sessions self !! c';
  hb_core : same_core self self';
}.

Lemma heard_by_trans c s1 s2 s3 : heard_by c s1 s2 → heard_by c s2 s3 → heard_by c s1 s3.
Proof.
  intros [H1 C1] [H2 C2]. split; [|by etrans]. intros c' Hc. by rewrite H2, H1.
Qed.

Lemma heard_by_refl c self : heard_by c self self.
Proof. by split. Qed.

(** Nothing is heard before the peer opened. *)
Lemma first_heard pq (h g : talk) m :
  listens pq h g → sent (tk_peer g) = [] → [m] `prefix_of` sent (tk_peer h) → m = [0].
Proof.
  intros [[_ Hf _ _ _] Hh] Hg Hm. rewrite Hg in Hh. apply prefix_nil_inv in Hh.
  destruct Hm as [l Hm]. rewrite Hm in Hf. destruct Hf as [|[[= ->]|]]; done.
Qed.

(** Nothing is heard after the peer closed. *)
Lemma last_heard pq (h g : talk) heard m :
  listens pq h g → closed heard = true → ¬ heard ++ [m] `prefix_of` sent (tk_peer h).
Proof.
  intros [[_ _ Hl _ _] _] (l & x & l' & -> & Hx)%closed_elem [k Hk].
  rewrite <- !(assoc_L (++)) in Hk. cbn in Hk. specialize (Hl _ _ _ Hk Hx).
  by destruct l'.
Qed.

Lemma talks_dropped c pp pq os (h g : talk) heard m :
  talks_at c pp pq os heard h g → (tk_known g = false → False) →
  session_ok os (heard ++ [m]) g → talks_at c pp pq os (heard ++ [m]) h g.
Proof.
  intros [] Hk Hs. split; try done; [|intros _; right; by destruct heard].
  rewrite datas_app. by apply prefix_app_r.
Qed.

Lemma put_session_eq (self : EC.t) c s : EC.sessions (EC.put_session self c s) !! c = Some s.
Proof. apply lookup_insert_eq. Qed.

Lemma put_session_ne (self : EC.t) c c' s :
  c' ≠ c → EC.sessions (EC.put_session self c s) !! c' = EC.sessions self !! c'.
Proof. intros Hc. by apply lookup_insert_ne. Qed.

(** The session may go on to [os] when [msg] was heard and [out] told, as far as
    the conversation is concerned. *)
Lemma talks_heard c pp pq os0 os heard msg out (h g : talk) :
  talks_at c pp pq os0 heard h g →
  (tk_known g = false → opened_in c out = true) → told_in c out `prefix_of` datas [msg] →
  tk_told g = datas heard ∨ told_in c out = [] →
  session_ok os (heard ++ [msg]) (tell c out g) →
  talks_at c pp pq os (heard ++ [msg]) h (tell c out g) ∧ tk_known (tell c out g) = true.
Proof.
  intros [Hf Hsp Htd _ _ _] Hk Ht Ht' Hs.
  assert (tk_known (tell c out g) = true) as Hkn.
  { cbn. destruct (tk_known g); [done|]. by apply Hk. }
  split; [|done].
  split; [exact Hf|by apply (speaker_same pp g)| |congruence|intros _; right; by destruct heard|done].
  change (tk_told (tell c out g)) with (tk_told g ++ told_in c out). rewrite datas_app.
  destruct Ht' as [-> | ->]; [by apply prefix_app|].
  rewrite app_nil_r. by apply prefix_app_r.
Qed.

(** What hearing message [m] gives. *)
Definition hears (c : ConvId) (m : list Z) (pp pq : KcpParams.t) (h g : talk)
    (heard : list (list Z)) (self : EC.t) (a : list CoreAction)
    (r : EC.t * list CoreAction) : Prop :=
  ∃ self' out, r = (self', a ++ out) ∧ heard_by c self self' ∧ about c out
    ∧ talks_at c pp pq (EC.sessions self' !! c) (heard ++ [m]) h (tell c out g)
    ∧ tk_known (tell c out g) = true.

(** The session stays as it is and nothing is told. *)
Lemma hear_nothing c pp pq (h g : talk) heard msg (self self' : EC.t) a :
  talks_at c pp pq (EC.sessions self !! c) heard h g → tk_known g = true →
  self' = self ∨ self' = EC.count_dropped self →
  session_ok (EC.sessions self !! c) (heard ++ [msg]) g →
  hears c msg pp pq h g heard self a (self', a).
Proof.
  intros Hta Hk Hs' Hok. exists self', []. rewrite app_nil_r.
  assert (heard_by c self self' ∧ EC.sessions self' !! c = EC.sessions self !! c) as [Hhb ->]
    by (destruct Hs' as [-> | ->]; (split; [by split|done])).
  split_and!; [done|done|apply about_nil|..]; rewrite tell_nothing by done; [|done].
  apply talks_dropped; [done|congruence|done].
Qed.

(** The session [s] takes another phase and one action is told. *)
Lemma hear_action c pp pq (h g : talk) heard msg (self : EC.t) a s x :
  talks_at c pp pq (EC.sessions self !! c) heard h g → about c [x] →
  (tk_known g = false → opened_in c [x] = true) → told_in c [x] = [] →
  session_ok (Some s) (heard ++ [msg]) (tell c [x] g) →
  hears c msg pp pq h g heard self a (EC.put_session self c s, a ++ [x]).
Proof.
  intros Hta Hab Hop Ht Hok. eexists _, [x]. split; [done|].
  split; [|split; [done|]].
  - split; [|by split]. intros c' Hc. by apply put_session_ne.
  - rewrite put_session_eq. eapply talks_heard; [done|done|rewrite Ht; apply prefix_nil|by right|done].
Qed.

Lemma hear_message c e m pp pq (h g : talk) heard (self : EC.t) a :
  listens pq h g → talks_at c pp pq (EC.sessions self !! c) heard h g →
  heard ++ [SessionMessage.encode m] `prefix_of` sent (tk_peer h) →
  tk_known g = true ∨ is_Some (EC.sessions self !! c) →
  hears c (SessionMessage.encode m) pp pq h g heard self a
    (EC.handle_session_message e c m self a).
Proof.
  intros Hl Hta Hm Hor.
  pose proof (hear_nothing c pp pq h g heard (SessionMessage.encode m) self) as Hstay.
  pose proof (hear_action c pp pq h g heard (SessionMessage.encode m) self a) as Hact.
  unfold EC.handle_session_message. destruct (EC.sessions self !! c) as [s|] eqn:Es.
  2:{ destruct Hor as [Hk|[]]; [|done]. apply Hstay; [done|done|by left|done]. }
  pose proof (ta_session _ _ _ _ _ _ _ Hta) as [Hkcp Hph].
  assert (tk_known g = false → SessionMessage.encode m = [0] ∧ heard = []
    ∧ tk_told g = [] ∧ sent (tk_peer g) = []) as Hfirst.
  { intros Hk. destruct (ta_fresh _ _ _ _ _ _ _ Hta Hk) as [Hs ->].
    pose proof (ta_told _ _ _ _ _ _ _ Hta) as Ht. apply prefix_nil_inv in Ht.
    split_and!; [by eapply first_heard|done|done|done]. }
  destruct m as [|b|r], (ES.phase s) eqn:Ep; cbn [SessionMessage.encode] in *.
  - destruct (Hfirst Hph) as (_ & -> & Ht & Hs).
    apply Hact; [done|by apply about_one|intros _; cbn; by rewrite Z.eqb_refl|done|].
    split; [done|]. cbn. by rewrite Hph, Z.eqb_refl, Ht, Hs.
  - destruct Hph as (Hk & Ht & Hc). apply Hstay; [done|done|by left|]. split; [done|].
    rewrite Ep, datas_app, app_nil_r. done.
  - destruct Hph as (Hk & Hd). apply Hstay; [done|done|by right|]. split; [done|]. by rewrite Ep.
  - destruct Hph as (Hk & Ht & Hc). apply Hstay; [done|done|by right|]. split; [done|].
    by rewrite Ep, datas_app, app_nil_r, closed_app, Hc.
  - by destruct (Hfirst Hph) as (? & _).
  - destruct Hph as (Hk & Ht & Hc).
    eexists self, [WriteSession c b]. split; [done|].
    split; [apply heard_by_refl|]. split; [by apply about_one|]. rewrite Es.
    assert (told_in c [WriteSession c b] = [b]) as Hb by (cbn; by rewrite decide_True).
    eapply talks_heard; [exact Hta|congruence|by rewrite Hb|by left|]. split; [done|]. rewrite Ep.
    change (tk_told (tell c [WriteSession c b] g))
      with (tk_told g ++ told_in c [WriteSession c b]).
    split_and!; [cbn; by rewrite Hk|by rewrite datas_app, Hb, Ht|done].
  - destruct Hph as (Hk & Hd). apply Hstay; [done|done|by right|]. split; [done|]. by rewrite Ep.
  - destruct Hph as (Hk & Ht & Hc). by destruct (last_heard pq h g heard (1 :: b)).
  - by destruct (Hfirst Hph) as (? & _).
  - destruct Hph as (Hk & Ht & Hc).
    apply Hact; [done|by apply about_one|congruence|done|]. split; [done|].
    cbn. by rewrite Hk, datas_app, !app_nil_r, Ht, closed_app, orb_true_r.
  - destruct Hph as (Hk & Hd). apply Hstay; [done|done|by left|]. split; [done|]. by rewrite Ep.
  - destruct Hph as (Hk & Ht & Hc). apply Hstay; [done|done|by left|]. split; [done|].
    by rewrite Ep, datas_app, app_nil_r, closed_app, Hc.
Qed.

Lemma listens_tell pq c out (h g : talk) : listens pq h g → listens pq h (tell c out g).
Proof. by intros []. Qed.

(** All the messages of a datagram, in order. *)
Lemma hear_messages c e pp pq (h : talk) msgs : ∀ (g : talk) heard (self : EC.t) a,
  listens pq h g → talks_at c pp pq (EC.sessions self !! c) heard h g →
  heard ++ (SessionMessage.encode <$> msgs) `prefix_of` sent (tk_peer h) →
  tk_known g = true ∨ is_Some (EC.sessions self !! c) →
  ∃ self' out,
    foldl (λ '(self, a) m, EC.handle_session_message e c m self a) (self, a) msgs
      = (self', a ++ out)
    ∧ heard_by c self self' ∧ about c out
    ∧ talks_at c pp pq (EC.sessions self' !! c)
        (heard ++ (SessionMessage.encode <$> msgs)) h (tell c out g).
Proof.
  induction msgs as [|m msgs IH]; intros g heard self a Hl Hta Hm Hor; cbn [foldl fmap list_fmap].
  { exists self, []. rewrite !app_nil_r, tell_nothing by done.
    split_and!; [done|apply heard_by_refl|apply about_nil|done]. }
  rewrite fmap_cons, cons_middle, (assoc_L (++)) in Hm.
  destruct (hear_message c e m pp pq h g heard self a Hl Hta) as (s1 & o1 & -> & H1 & A1 & T1 & K1);
    [by eapply prefix_app_l|done|].
  destruct (IH (tell c o1 g) _ s1 (a ++ o1) (listens_tell _ _ _ _ _ Hl) T1 Hm (or_introl K1))
    as (s2 & o2 & -> & H2 & A2 & T2).
  exists s2, (o1 ++ o2). rewrite <- (assoc_L (++)) in T2. rewrite tell_app, (assoc_L (++)).
  split_and!; [done|by eapply heard_by_trans|by apply Forall_app|done].
Qed.

End hear.

(** ** Speaking, and starting over *)

Section moves.
Context (c : ConvId) (pp pq : KcpParams.t).

(** The fields of a session that KCP does not touch, the peer's stamp aside. *)
Definition same_phase (s s' : ES.t) : Prop :=
  ES.phase s' = ES.phase s ∧ ES.pending_close s' = ES.pending_close s
  ∧ ES.close_deadline_at s' = ES.close_deadline_at s ∧ ES.close_queued s' = ES.close_queued s.

Lemma control_phase s s' : same_control s s' → same_phase s s'.
Proof. by intros (? & _ & ? & ? & ?). Qed.

(** The session worked; what it received is not handled yet. *)
Lemma talks_moved (s s' : ES.t) (h g t : talk) out said heard :
  talks c pp pq (Some s) h g → talked c pp pq h g t s' out said heard → same_phase s s' →
  speaker pp t → said = [] ∨ tk_known g = true →
  (closed said = true → ES.phase s = ClosingLocal ∧ ES.close_queued s = true) →
  talks_at c pp pq (Some s') (received (tk_peer g)) h t.
Proof.
  intros [_ _ Ht Hf Hbg [_ Hph]] [Hfac Hkcp _ Hsent Hrec _ Htold Hkn] (P1 & P3 & P4 & P5) Hsp Hor Hcl.
  split; rewrite ?Htold, ?Hkn; try done.
  - intros Hk. destruct (Hf Hk) as [Hs ->]. rewrite Hsent, Hs. split; [|done].
    by destruct Hor as [->|]; [|congruence].
  - intros Hk. destruct (Hbg Hk) as [Hne|]; [left|by right]. rewrite Hsent.
    by destruct (sent (tk_peer g)).
  - split; [done|]. rewrite P1, P3, P4, P5, Hsent, Htold, Hkn, closed_app.
    destruct (ES.phase s).
    + done.
    + destruct Hph as (? & ? & ->). split_and!; [done|done|].
      destruct (closed said); [|done]. by destruct (Hcl eq_refl).
    + destruct Hph as (? & ? & ? & Hq). split_and!; [done..|]. intros E. rewrite Hq by done.
      destruct (closed said); [|done]. destruct (Hcl eq_refl). congruence.
    + done.
Qed.

Lemma talks_said (s s' : ES.t) (h g t : talk) out said :
  talks c pp pq (Some s) h g → talked c pp pq h g t s' out said [] → same_phase s s' →
  speaker pp t → said = [] ∨ tk_known g = true →
  (closed said = true → ES.phase s = ClosingLocal ∧ ES.close_queued s = true) →
  talks c pp pq (Some s') h t.
Proof.
  intros Ht Htd Hp Hsp Hor Hcl. unfold talks.
  rewrite (tkd_received _ _ _ _ _ _ _ _ _ _ Htd), app_nil_r. by eapply talks_moved.
Qed.

Lemma talked_speaker (s' : ES.t) (h g t : talk) out heard :
  talked c pp pq h g t s' out [] heard → speaker pp g → speaker pp t.
Proof.
  intros [_ _ _ Hs Hr _ _ _]. rewrite app_nil_r in Hs.
  apply (speaker_same pp g); [done|]. rewrite Hr. by apply prefix_app_r.
Qed.

Lemma talks_kept (s s' : ES.t) (h g t : talk) out :
  talks c pp pq (Some s) h g → talked c pp pq h g t s' out [] [] → same_phase s s' →
  talks c pp pq (Some s') h t.
Proof.
  intros Ht Htd Hc. eapply talks_said; [done|done|done| |by left|done].
  eapply talked_speaker; [done|apply Ht].
Qed.

(** Without a session there is nothing to keep. *)
Lemma talks_gone (os : option ES.t) (h g : talk) : talks c pp pq os h g → talks c pp pq None h g.
Proof. by intros []. Qed.

(** A new session on a conversation the shell does not know. *)
Definition restart (known : bool) (g : talk) : talk :=
  Build_talk (Build_peer (Kcp.new c pp) (sent (tk_peer g)) (received (tk_peer g)) (wire (tk_peer g)))
    (tk_log g) (tk_hist g) (tk_told g) known.

Lemma fresh_talk (os : option ES.t) (h g : talk) :
  talks c pp pq os h g → tk_known g = false →
  sent (tk_peer g) = [] ∧ received (tk_peer g) = [] ∧ tk_told g = [] ∧ tk_log g = [] ∧ tk_hist g = [].
Proof.
  intros [Hfac _ Ht Hf _ _] Hk. destruct (Hf Hk) as [Hs Hr]. rewrite Hr in Ht.
  apply prefix_nil_inv in Ht. split_and!; [done..| |];
    destruct Hfac as [[_ Hl _ _] _ [Hh _]]; rewrite ?Hs in Hl; rewrite ?Hr in Hh.
  - by apply app_nil in Hl as [-> _].
  - by apply fmap_nil_inv in Hh.
Qed.

Lemma facing_restart (os : option ES.t) (h g : talk) known :
  in_width 64 c → params_ok pp → talks c pp pq os h g → tk_known g = false →
  facing c pp pq h (restart known g).
Proof.
  intros Hc Hp Ht Hk. destruct (fresh_talk os h g Ht Hk) as (Hs & Hr & _ & Hlog & Hhist).
  destruct Ht as [[[_ _ Hcnt Hw] Hsrc [_ Hpre]] _ _ _ _ _]. unfold facing, restart. cbn.
  rewrite Hlog, Hhist in *. rewrite Hr. split; [|done|].
  - constructor; cbn; [by apply new_inv|by rewrite Hs|done|done].
  - split; cbn; [done|apply prefix_nil].
Qed.

(** Adopted from a datagram of the peer. *)
Lemma talks_adopted (os : option ES.t) (s : ES.t) (h g : talk) :
  in_width 64 c → params_ok pp → talks c pp pq os h g → tk_known g = false →
  ES.kcp s = Kcp.new c pp → ES.phase s = PendingRemote →
  talks c pp pq (Some s) h (restart false g).
Proof.
  intros Hc Hp Ht Hk Hkcp Hph. pose proof (facing_restart os h g false Hc Hp Ht Hk) as Hf.
  destruct Ht as [_ Hsp Htd Hfr _ _].
  split; [done|by apply (speaker_same pp g)|done|intros _; by apply Hfr|done|].
  split; [done|]. by rewrite Hph.
Qed.

(** Opened by the shell, once [Open] is said. *)
Lemma talks_opened (os : option ES.t) (s s' : ES.t) (h g t : talk) out :
  talks c pp pq os h g → tk_known g = false → 0 < mss_of pp →
  ES.phase s = Open → talked c pp pq h (restart true g) t s' out [[0]] [] →
  same_control s s' → talks c pp pq (Some s') h t.
Proof.
  intros Ht Hk Hm Hph [Hfac Hkcp _ Hsent Hrec _ Htold Hkn] (P1 & _).
  destruct (fresh_talk os h g Ht Hk) as (Hs & Hr & Htd & _). destruct Ht as [_ Hsp _ _ _ _].
  cbn in Hsent, Hrec, Htold, Hkn. rewrite Hs in Hsent. rewrite Hr in Hrec. rewrite Htd in Htold.
  split; rewrite ?Hrec, ?Hsent, ?Htold, ?Hkn; [done| |done|done|by left|].
  - eapply (speaker_say pp g); [done|done|by exists SessionMessage.Open|by rewrite Hs|by left
      |by rewrite Hs|by rewrite Hr, Hrec| |right; by rewrite Hs].
    rewrite Hsent. cbn. by rewrite segments_nil.
  - split; [done|]. by rewrite P1, Hph, Htold, Hkn, Hsent.
Qed.

(** The other side moved on. *)
Lemma talks_grown (os : option ES.t) (h h' g : talk) :
  grown (tk_log h) (tk_log h') (tk_peer h) (tk_peer h') →
  source c pq (tk_log h') (tk_peer h') →
  talks c pp pq os h g → talks c pp pq os h' g.
Proof. intros Hg Hs []. split; try done. by eapply half_grown. Qed.

End moves.

Definition new_talk (c : ConvId) (params : KcpParams.t) : talk :=
  Build_talk (new_peer c params) [] [] [] false.

Lemma new_speaker c params : speaker params (new_talk c params).
Proof. split; cbn; [constructor|by left|by intros [|]|done|done]. Qed.

Lemma new_talks c pp pq :
  in_width 64 c → params_ok pp → talks c pp pq None (new_talk c pq) (new_talk c pp).
Proof. intros. split; cbn; [by apply new_half|apply new_speaker|done..]. Qed.
