(* ===== verification/EndpointTalk.v ===== *)
(** * An endpoint in its conversations

    Every operation of [EndpointCore] on sessions, for an endpoint [self] whose
    peer's side of every conversation is [h]: it returns, keeps the invariant
    [site_inv], and extends each conversation by what it said and by what it
    told the shell ([went]). *)

From stdpp Require Import functions.
From S2P Require Import Prelude Bytes Core Wire WireFacts Sequence Crypto Packet.
From S2P Require Import Machine MachineFacts Kcp KcpMessage KcpInv KcpFlush KcpStream.
From S2P Require Import Routing Endpoint EndpointLifecycle EndpointFacts EndpointSend.
From S2P Require Import EndpointTraffic SessionPeer Talk.

(** One conversation says [l], the others nothing. *)
Definition said_at (c : ConvId) (l : list (list Z)) (c' : ConvId) : list (list Z) :=
  if decide (c' = c) then l else [].

Definition silence (c : ConvId) : list (list Z) := [].

Lemma said_at_nil c c' : said_at c [] c' = [].
Proof. unfold said_at. by destruct (decide _). Qed.

(** The message carries a datagram that is on the wire of its conversation. *)
Definition carried (g : ConvId → talk) (m : EndpointMessage.t) : Prop :=
  match m with
  | EndpointMessage.KcpPacket _ d => ∃ c, in_width 64 c ∧ d ∈ wire (tk_peer (g c))
  | _ => True
  end.

Section site.
Context `{Aes : Aegis128L, AesSpec : !Aegis128LSpec, Bl : Blake3, BlSpec : !Blake3Spec,
  It : HashIter}.
Context (config : EndpointConfig.t) (pp pq : KcpParams.t) (h : ConvId → talk).
Hypothesis mtu_pq : KCP_OVERHEAD < KcpParams.mtu pq.
Hypothesis params_pp : params_ok pp.
Hypothesis window_pp : 2 < KcpParams.receive_window pp.

Lemma mss_pos : 0 < mss_of pp.
Proof. pose proof (params_mtu _ params_pp). unfold mss_of. lia. Qed.

(** The invariant of one endpoint; [g c] is its side of conversation [c]. *)
Record site_inv (self : EC.t) (g : ConvId → talk) : Prop := {
  si_fit : fit self;
  si_config : EC.config self = config;
  si_params : EC.kcp_params self = pp;
  si_conv_id : in_width 64 (EC.next_conv_id self);
  si_ids : ∀ c, is_Some (EC.sessions self !! c) → in_width 64 c;
  si_listens : ∀ c, in_width 64 c → listens pq (h c) (g c);
  si_talks : ∀ c, in_width 64 c → talks c pp pq (EC.sessions self !! c) (h c) (g c);
}.

(** What [out] and the words [said] add to the conversations. *)
Record went (g : ConvId → talk) (out : list CoreAction) (said : ConvId → list (list Z))
    (g' : ConvId → talk) : Prop := {
  w_grown : ∀ c, grown (tk_log (g c)) (tk_log (g' c)) (tk_peer (g c)) (tk_peer (g' c));
  w_told : ∀ c, tk_told (g' c) = tk_told (g c) ++ told_in c out;
  w_known : ∀ c, tk_known (g' c) = tk_known (g c) || opened_in c out;
  w_said : ∀ c, datas (sent (tk_peer (g' c))) = datas (sent (tk_peer (g c))) ++ said c;
  w_traffic : traffic config (KcpParams.mtu pp) (carried g') out;
}.

Lemma carried_grown (g g' : ConvId → talk) m :
  (∀ c, grown (tk_log (g c)) (tk_log (g' c)) (tk_peer (g c)) (tk_peer (g' c))) →
  carried g m → carried g' m.
Proof.
  intros Hg. destruct m as [d k|d|d i n]; cbn; try done. intros (c & Hc & Hk). exists c.
  split; [done|]. destruct (Hg c) as [_ _ [l ->]]. apply elem_of_app. by left.
Qed.

Lemma went_trans g1 g2 g3 o1 o2 a1 a2 :
  went g1 o1 a1 g2 → went g2 o2 a2 g3 → went g1 (o1 ++ o2) (λ c, a1 c ++ a2 c) g3.
Proof.
  intros [G1 T1 K1 S1 F1] [G2 T2 K2 S2 F2]. split.
  - intros c. by eapply grown_trans.
  - intros c. by rewrite T2, T1, told_in_app, (assoc_L (++)).
  - intros c. by rewrite K2, K1, opened_in_app, orb_assoc.
  - intros c. by rewrite S2, S1, (assoc_L (++)).
  - apply traffic_app; [|done]. eapply traffic_impl; [|exact F1]. intros m. by apply carried_grown.
Qed.

Lemma went_refl g : went g [] silence g.
Proof.
  split; try (intros c; unfold silence); cbn; rewrite ?app_nil_r, ?orb_false_r; try done.
  apply traffic_nil.
Qed.

Lemma went_said g out a a' g' : (∀ c, a c = a' c) → went g out a g' → went g out a' g'.
Proof. intros Ha []. split; try done. intros c. by rewrite <- Ha. Qed.

Lemma went_ext g out said g1 g2 : (∀ c, g1 c = g2 c) → went g out said g1 → went g out said g2.
Proof.
  intros E []. split; try (intros c; rewrite <- E; done).
  eapply traffic_impl; [|done]. intros m Hm. eapply carried_grown; [|exact Hm].
  intros c. by rewrite E.
Qed.

(** Silent steps compose silently. *)
Lemma went_silent g1 g2 g3 o1 o2 :
  went g1 o1 silence g2 → went g2 o2 silence g3 → went g1 (o1 ++ o2) silence g3.
Proof. apply went_trans. Qed.

(** Actions that concern no conversation. *)
Lemma went_out g out :
  (∀ c, told_in c out = []) → (∀ c, opened_in c out = false) →
  traffic config (KcpParams.mtu pp) (carried g) out → went g out silence g.
Proof.
  intros Ht Ho Hf. split; try done; intros c; unfold silence;
    rewrite ?Ht, ?Ho, ?app_nil_r, ?orb_false_r; done.
Qed.

Lemma packets_out out :
  Forall (λ a, ∃ ch b, a = SendTransportPacket ch b) out →
  ∀ c, told_in c out = [] ∧ opened_in c out = false.
Proof. intros H c. induction H as [|a out (ch & b & ->) _ IH]; [done|]. apply IH. Qed.

(** ** Frames *)

Lemma site_sub (self self' : EC.t) g :
  site_inv self g → same_core self self' →
  (∀ c, EC.sessions self' !! c = EC.sessions self !! c ∨ EC.sessions self' !! c = None) →
  site_inv self' g.
Proof.
  intros [Hf Hc Hp Hn Hi Hl Ht] Hs Hsub. pose proof Hs as [Ec Ep _ _ _ _ _ En].
  split; [by eapply fit_same|congruence|congruence|by rewrite En| |done|].
  - intros c. destruct (Hsub c) as [-> | ->]; [apply Hi|by intros []].
  - intros c Hcw. destruct (Hsub c) as [-> | ->]; [by apply Ht|]. eapply talks_gone, Ht, Hcw.
Qed.

Lemma site_quiet (self self' : EC.t) g a a' :
  site_inv self g → fit self' → quiet self a self' a' → site_inv self' g.
Proof.
  intros [Hf Hc Hp Hn Hi Hl Ht] Hf' [Es _ _ Ec Ep En _].
  split; [done|congruence|congruence|by rewrite En|by rewrite Es|done|by rewrite Es].
Qed.

(** Sending packets that are on the wire. *)
Lemma site_transmits (self : EC.t) g a r :
  site_inv self g → transmits (carried g) self a r →
  ∃ self' out, r = Ret (self', a ++ out) ∧ site_inv self' g ∧ went g out silence g
    ∧ EC.sessions self' = EC.sessions self ∧ EC.tombstones self' = EC.tombstones self
    ∧ EC.config self' = EC.config self.
Proof.
  intros Hs (self' & out & -> & Hf & Hq & Ht). exists self', out.
  split; [done|]. split; [by eapply site_quiet|]. pose proof Hq as [E1 E2 _ E4 _ _ E6].
  destruct E6 as (out' & E & Hout). apply (inj (app a)) in E as <-.
  rewrite (si_config _ _ Hs), (si_params _ _ Hs) in Ht.
  split_and!; [|done|done|done].
  apply went_out; [intros c; by apply packets_out|intros c; by apply packets_out|done].
Qed.

(** Only the session of [c] and its conversation change. *)
Lemma site_change (self self' : EC.t) g c t :
  site_inv self g → in_width 64 c → same_core self self' ∨ fit self'
    ∧ EC.config self' = EC.config self ∧ EC.kcp_params self' = EC.kcp_params self
    ∧ EC.next_conv_id self' = EC.next_conv_id self →
  (∀ c', c' ≠ c → EC.sessions self' !! c' = EC.sessions self !! c') →
  talks c pp pq (EC.sessions self' !! c) (h c) t →
  sent (tk_peer (g c)) `prefix_of` sent (tk_peer t) →
  site_inv self' (<[c := t]> g).
Proof.
  intros [Hf Hc Hp Hn Hi Hl Ht] Hcw Hcore Hoth Htalk Hpre.
  assert (fit self' ∧ EC.config self' = config ∧ EC.kcp_params self' = pp
    ∧ EC.next_conv_id self' = EC.next_conv_id self) as (Hf' & Hc' & Hp' & Hn').
  { destruct Hcore as [Hcore|(? & ? & ? & ?)]; [|split_and!; congruence].
    pose proof Hcore as [E1 E2 _ _ _ _ _ E8].
    split_and!; [by eapply fit_same|congruence|congruence|done]. }
  split; [done|done|done|by rewrite Hn'|..].
  - intros c' Hc1. destruct (decide (c' = c)) as [->|Hne]; [done|].
    rewrite Hoth in Hc1 by done. by apply Hi.
  - intros c' Hc1. destruct (decide (c' = c)) as [->|Hne].
    + rewrite fn_lookup_insert. destruct (Hl c Hcw). split; [done|by etrans].
    + rewrite fn_lookup_insert_ne by done. by apply Hl.
  - intros c' Hc1. destruct (decide (c' = c)) as [->|Hne].
    + by rewrite fn_lookup_insert.
    + rewrite Hoth, fn_lookup_insert_ne by done. by apply Ht.
Qed.

Lemma site_put (self : EC.t) g c (s : ES.t) t :
  site_inv self g → in_width 64 c → talks c pp pq (Some s) (h c) t →
  sent (tk_peer (g c)) `prefix_of` sent (tk_peer t) →
  site_inv (EC.put_session self c s) (<[c := t]> g).
Proof.
  intros Hs Hc Ht Hpre. apply (site_change self); [done|done|by left; split| |by rewrite put_session_eq|done].
  intros c' Hne. by apply put_session_ne.
Qed.

Lemma went_put g c t said :
  grown (tk_log (g c)) (tk_log t) (tk_peer (g c)) (tk_peer t) →
  tk_told t = tk_told (g c) → tk_known t = tk_known (g c) →
  datas (sent (tk_peer t)) = datas (sent (tk_peer (g c))) ++ said →
  went g [] (said_at c said) (<[c := t]> g).
Proof.
  intros Hg Ht Hk Hs. unfold said_at.
  split; [..|apply traffic_nil]; intros c'; destruct (decide (c' = c)) as [->|Hne];
    rewrite ?fn_lookup_insert, ?fn_lookup_insert_ne by done; cbn;
    rewrite ?app_nil_r, ?orb_false_r; done.
Qed.

(** The same conversation, another record for its session. *)
Lemma site_keep (self : EC.t) g c (s : ES.t) :
  site_inv self g → in_width 64 c → talks c pp pq (Some s) (h c) (g c) →
  site_inv (EC.put_session self c s) g.
Proof.
  intros [Hf Hc Hp Hn Hi Hl Ht] Hcw Htalk.
  split; [by eapply fit_same|done|done|done|..|done|].
  - intros c' Hc'. destruct (decide (c' = c)) as [->|Hne]; [done|].
    rewrite put_session_ne in Hc' by done. by apply Hi.
  - intros c' Hc'. destruct (decide (c' = c)) as [->|Hne].
    + by rewrite put_session_eq.
    + rewrite put_session_ne by done. by apply Ht.
Qed.

(** A new state of the session of [c], and the packets it put on the wire. *)
Lemma put_does (self : EC.t) g c e (s' : ES.t) t out a :
  site_inv self g → in_width 64 c → talks c pp pq (Some s') (h c) t →
  sent (tk_peer (g c)) `prefix_of` sent (tk_peer t) →
  Forall (λ k, k ∈ wire (tk_peer t)) out →
  ∃ self' out', EC.send_kcp_packets (EC.put_session self c s') e out a = Ret (self', a ++ out')
    ∧ site_inv self' (<[c := t]> g) ∧ went (<[c := t]> g) out' silence (<[c := t]> g)
    ∧ EC.sessions self' = <[c := s']> (EC.sessions self)
    ∧ EC.config self' = EC.config self.
Proof.
  intros Hs Hc Htk Hpre Hout.
  pose proof (site_put self g c s' t Hs Hc Htk Hpre) as Hs1.
  destruct (site_transmits (EC.put_session self c s') (<[c := t]> g) a
    (EC.send_kcp_packets (EC.put_session self c s') e out a) Hs1)
    as (self2 & out2 & -> & Hs2 & Hw2 & Es2 & _ & Ec2).
  { apply kcp_packets_transmit; [apply Hs1|]. rewrite (si_params _ _ Hs1).
    eapply Forall_impl; [exact Hout|]. intros k Hk. split.
    - by destruct (facing_wire _ _ _ _ _ _ (ta_facing _ _ _ _ _ _ _ Htk) Hk)
        as (_ & _ & _ & Hl & _).
    - intros d. exists c. split; [done|]. by rewrite fn_lookup_insert. }
  by exists self2, out2.
Qed.

(** A session that did its part and whose packets are sent. *)
Lemma talked_does (self : EC.t) g c e (s s' : ES.t) t out said a :
  site_inv self g → in_width 64 c → EC.sessions self !! c = Some s →
  talked c pp pq (h c) (g c) t s' out said [] →
  talks c pp pq (Some s') (h c) t →
  ∃ self' out', EC.send_kcp_packets (EC.put_session self c s') e out a = Ret (self', a ++ out')
    ∧ site_inv self' (<[c := t]> g) ∧ went g out' (said_at c (datas said)) (<[c := t]> g)
    ∧ EC.sessions self' = <[c := s']> (EC.sessions self)
    ∧ EC.config self' = EC.config self.
Proof.
  intros Hs Hc Hses [_ _ Hlog Hsent Hrec Hwire Htold Hkn] Htk.
  destruct (put_does self g c e s' t out a Hs Hc Htk) as (self2 & out2 & E & Hs2 & Hw2 & Es2 & Ec2).
  { rewrite Hsent. by apply prefix_app_r. }
  { apply Forall_forall. intros k Hk. rewrite Hwire. apply elem_of_app. by right. }
  exists self2, out2. split_and!; [done|done| |done|done].
  apply (went_said _ _ (λ c', said_at c (datas said) c' ++ silence c'));
    [intros c'; apply app_nil_r|].
  rewrite <- (app_nil_l out2). eapply went_trans; [|exact Hw2].
  rewrite app_nil_r in Hrec. apply went_put; [|done|done|by rewrite Hsent, datas_app].
  split; [done|rewrite Hsent; by apply prefix_app_r|rewrite Hwire; by apply prefix_app_r].
Qed.

(** ** Finishing *)

Lemma finish_does (self : EC.t) g c e a :
  site_inv self g → in_width 64 c →
  ∃ self' out, EC.finish_closed_session self e c a = Ret (self', a ++ out)
    ∧ site_inv self' g ∧ went g out silence g
    ∧ (∀ c', c' ≠ c → EC.sessions self' !! c' = EC.sessions self !! c').
Proof.
  intros Hs Hc. unfold EC.finish_closed_session.
  assert (∀ self' out, same_core self self' →
    (∀ c', EC.sessions self' !! c' = delete c (EC.sessions self) !! c') →
    out = [] ∨ (∃ r, out = [CloseSession c r]) →
    site_inv self' g ∧ went g out silence g
    ∧ (∀ c', c' ≠ c → EC.sessions self' !! c' = EC.sessions self !! c')) as Hgone.
  { intros self' out Hcore Hdel Hout. split_and!.
    - apply (site_sub self); [done|done|]. intros c'. rewrite Hdel.
      destruct (decide (c' = c)) as [->|Hne]; [right; apply lookup_delete_eq|left].
      by apply lookup_delete_ne.
    - destruct Hout as [->|[r ->]]; apply went_out; try done; [apply traffic_nil|].
      intros ch b Hin%list_elem_of_singleton. done.
    - intros c' Hne. rewrite Hdel. by apply lookup_delete_ne. }
  destruct (EC.sessions self !! c) as [s|] eqn:Es.
  2:{ exists self, []. rewrite app_nil_r. split_and!; [done|done|apply went_refl|done]. }
  cbn zeta. destruct (negb _) eqn:Ef.
  { exists self, []. rewrite app_nil_r. split_and!; [done|done|apply went_refl|done]. }
  case_bool_decide as Hp.
  { eexists _, []. rewrite app_nil_r. split; [reflexivity|]. apply Hgone; [by split|done|by left]. }
  case_bool_decide as Hl; cbn [mbind comp_bind].
  - pose proof (si_talks _ _ Hs c Hc) as Ht. rewrite Es in Ht.
    destruct (ta_session _ _ _ _ _ _ _ Ht) as [_ Hph]. rewrite Hl in Hph.
    destruct Hph as (_ & _ & [r Hr] & _). rewrite Hr. cbn [unwrap mbind comp_bind].
    eexists _, [CloseSession c r]. split; [reflexivity|].
    apply Hgone; [by split|done|right; by exists r].
  - eexists _, []. rewrite app_nil_r. split; [reflexivity|]. apply Hgone; [by split|done|by left].
Qed.

(** A session with something in flight and time left stays. *)
Lemma finish_stays (self : EC.t) c (s : ES.t) e (a : list CoreAction) :
  EC.sessions self !! c = Some s →
  ES.phase s = Open ∨ ES.phase s = ClosingLocal ∧ Kcp.wait_snd (ES.kcp s) ≠ 0
    ∧ (∃ d, ES.close_deadline_at s = Some d ∧ e < d) →
  EC.finish_closed_session self e c a = Ret (self, a).
Proof.
  intros Hs Hor. unfold EC.finish_closed_session. rewrite Hs.
  destruct Hor as [-> | (-> & Hw & d & -> & Hd)]; [done|].
  by rewrite (proj2 (Z.eqb_neq _ _) Hw), (proj2 (Z.leb_gt _ _) Hd).
Qed.

(** ** Speaking *)

Lemma wait_pending c g (s : ES.t) :
  facing c pp pq (h c) g → ES.kcp s = node (tk_peer g) → speaker pp g →
  Kcp.wait_snd (ES.kcp s) = pending (ES.kcp s).
Proof.
  intros Hf Hk Hsp. pose proof (pending_half _ _ _ _ _ _ _ _ Hf) as Hle.
  pose proof (speaker_room _ _ Hsp). rewrite Hk. unfold Kcp.wait_snd, pending in *.
  pose proof (len_nonneg (Kcp.snd_buf (node (tk_peer g)))).
  pose proof (len_nonneg (Kcp.snd_queue (node (tk_peer g)))). by rewrite wrap_id by lia.
Qed.

(** A message that fits goes out, and the session stays. *)
Lemma say_does (self : EC.t) g c (s : ES.t) e msg a :
  site_inv self g → in_width 64 c → EC.sessions self !! c = Some s →
  bytes_ok (SessionMessage.encode msg) →
  fragment_count (mss_of pp) (SessionMessage.encode msg)
    < KcpParams.receive_window pp `min` 256 →
  (∀ t, sent (tk_peer t) = sent (tk_peer (g c)) ++ [SessionMessage.encode msg] →
     received (tk_peer t) = received (tk_peer (g c)) → speaker pp t) →
  tk_known (g c) = true →
  (closes (SessionMessage.encode msg) = true →
     ES.phase s = ClosingLocal ∧ ES.close_queued s = true) →
  ES.phase s = Open ∨ ES.phase s = ClosingLocal
    ∧ (∃ d, ES.close_deadline_at s = Some d ∧ e < d) →
  ∃ self' g' out s', EC.send_session_message self e c msg a = Ret (self', a ++ out)
    ∧ site_inv self' g' ∧ went g out (said_at c (datas [SessionMessage.encode msg])) g'
    ∧ EC.sessions self' = <[c := s']> (EC.sessions self).
Proof.
  intros Hs Hc Es Hb Hfit Hsp Hkn Hcl Hor. unfold EC.send_session_message. rewrite Es.
  cbn [unwrap mbind comp_bind].
  pose proof (si_talks _ _ Hs c Hc) as Ht. rewrite Es in Ht.
  pose proof (si_listens _ _ Hs c Hc) as Hl.
  destruct (session_send c pp pq (h c) (g c) s e msg)
    as (out & s' & t & E & Htd & Hpend);
    [apply Ht|apply (ta_session _ _ _ _ _ _ _ Ht)|done|done|].
  rewrite E. cbn [mbind comp_bind]. apply send_message_control in E as Hctl.
  pose proof Htd as [Hfac Hkcp _ Hsent Hrec _ _ _]. rewrite app_nil_r in Hrec.
  assert (talks c pp pq (Some s') (h c) t) as Ht'.
  { eapply talks_said; [exact Ht|exact Htd|by apply control_phase|by apply Hsp|by right|].
    unfold closed. cbn [existsb]. by rewrite orb_false_r. }
  destruct (talked_does self g c e s s' t out _ a Hs Hc Es Htd Ht')
    as (self2 & out2 & -> & Hs2 & Hw2 & Es2 & _). cbn [mbind comp_bind].
  rewrite (finish_stays self2 c s'); [| |].
  - by exists self2, (<[c := t]> g), out2, s'.
  - by rewrite Es2, lookup_insert_eq.
  - destruct Hctl as (P1 & _ & _ & P4 & _). rewrite P1, P4.
    destruct Hor as [Ho|[Ho Hd]]; [by left|right]. split_and!; [done| |done].
    rewrite (wait_pending c t) by (done || apply Ht'). lia.
Qed.

(** A pending close is queued when there is room. *)
Lemma close_does (self : EC.t) g c e a :
  site_inv self g → in_width 64 c →
  ∃ self' g' out, EC.queue_local_close self e c a = Ret (self', a ++ out)
    ∧ site_inv self' g' ∧ went g out silence g'
    ∧ (∀ c', c' ≠ c → EC.sessions self' !! c' = EC.sessions self !! c')
    ∧ (is_Some (EC.sessions self !! c) → is_Some (EC.sessions self' !! c)).
Proof.
  intros Hs Hc. unfold EC.queue_local_close.
  assert (∃ self' g' out, Ret (self, a) = Ret (self', a ++ out)
    ∧ site_inv self' g' ∧ went g out silence g'
    ∧ (∀ c', c' ≠ c → EC.sessions self' !! c' = EC.sessions self !! c')
    ∧ (is_Some (EC.sessions self !! c) → is_Some (EC.sessions self' !! c))) as Hno.
  { exists self, g, []. rewrite app_nil_r. split_and!; done || apply went_refl. }
  pose proof (si_talks _ _ Hs c Hc) as Ht.
  destruct (EC.sessions self !! c) as [s|] eqn:Es; [|exact Hno].
  case_bool_decide as Hp; cbn [negb]; [|exact Hno].
  destruct (ES.close_queued s) eqn:Eq; [exact Hno|].
  destruct (ta_session _ _ _ _ _ _ _ Ht) as [Hk Hph]. rewrite Hp in Hph.
  destruct Hph as (Hkn & [d Hd] & [r Hr] & Hopen). specialize (Hopen Eq).
  rewrite Hd. cbn [unwrap mbind comp_bind].
  destruct (Z.leb_spec d e) as [|Hlt]; [exact Hno|]. cbn [orb].
  destruct (_ <=? _); [exact Hno|]. rewrite Hr. cbn [unwrap mbind comp_bind]. clear Hno.
  set (s1 := s <| ES.close_queued := true |>).
  assert (talks c pp pq (Some s1) (h c) (g c)) as Ht1.
  { destruct Ht as [? ? ? ? ? _]. split; try done. split; [done|]. cbn. by rewrite Hp, Hd, Hr. }
  pose proof (site_keep self g c s1 Hs Hc Ht1) as Hs1.
  destruct (say_does (EC.put_session self c s1) g c s1 e (SessionMessage.Close r) a)
    as (self2 & g2 & out & s2 & -> & Hs2 & Hw2 & Es2); try done.
  - apply put_session_eq.
  - cbn. repeat constructor; by destruct r.
  - pose proof (fragment_count_le (mss_of pp) (SessionMessage.encode (SessionMessage.Close r))
      mss_pos) as Hle. rewrite len_close in Hle. lia.
  - intros t Hsent Hrec. eapply (speaker_close pp (g c) t r); [apply mss_pos|apply Ht|done| |done|done].
    by apply Ht.
  - right. split; [done|]. by exists d.
  - exists self2, g2, out. split_and!; [done|done| | |].
    + eapply went_said; [|exact Hw2]. apply said_at_nil.
    + intros c' Hne. rewrite Es2, lookup_insert_ne by done. by apply put_session_ne.
    + intros _. rewrite Es2, lookup_insert_eq. by eexists.
Qed.

End site.
