(* ===== verification/EndpointEvents.v ===== *)
(** * Every call of the shell, in a dialogue

    Polls, datagrams of the peer and shell events: each returns and keeps the
    invariant of [EndpointTalk]. *)

From stdpp Require Import functions.
From S2P Require Import Prelude Bytes Core Wire WireFacts Sequence SequenceTrace Crypto.
From S2P Require Import Packet Machine MachineFacts Kcp KcpMessage KcpInv KcpFlush KcpStream.
From S2P Require Import Routing RoutingTotal Endpoint EndpointLifecycle EndpointFacts EndpointSend.
From S2P Require Import EndpointTraffic SessionPeer Talk EndpointTalk.

Section events.
Context `{Aes : Aegis128L, AesSpec : !Aegis128LSpec, Bl : Blake3, BlSpec : !Blake3Spec,
  It : HashIter, ItSpec : !HashIterSpec}.
Context (config : EndpointConfig.t) (pp pq : KcpParams.t) (h : ConvId → talk).
Hypothesis mtu_pq : KCP_OVERHEAD < KcpParams.mtu pq.
Hypothesis params_pp : params_ok pp.
Hypothesis window_pp : 2 < KcpParams.receive_window pp.

Abbreviation inv := (site_inv config pp pq h) (only parsing).
Abbreviation steps := (went config pp) (only parsing).

(** The call returns; the conversations go on, silently on this side. *)
Definition goes_on (g : ConvId → talk) (a : list CoreAction)
    (r : comp (EC.t * list CoreAction)) : Prop :=
  ∃ self' g' out, r = Ret (self', a ++ out) ∧ inv self' g' ∧ steps g out silence g'.

Lemma goes_on_bind g a r f :
  goes_on g a r →
  (∀ self1 g1 out, inv self1 g1 → goes_on g1 (a ++ out) (f (self1, a ++ out))) →
  goes_on g a (r ≫= f).
Proof.
  intros (s1 & g1 & o1 & -> & H1 & W1) Hf. cbn [mbind comp_bind].
  destruct (Hf s1 g1 o1 H1) as (s2 & g2 & o2 & -> & H2 & W2).
  exists s2, g2, (o1 ++ o2). rewrite (assoc_L (++)).
  split_and!; [done|done|by eapply went_silent].
Qed.

Lemma goes_on_same (self self' : EC.t) g a :
  inv self g → same_core self self' →
  (∀ c, EC.sessions self' !! c = EC.sessions self !! c ∨ EC.sessions self' !! c = None) →
  goes_on g a (Ret (self', a)).
Proof.
  intros Hs Hc Hsub. exists self', g, []. rewrite app_nil_r.
  split_and!; [done|by eapply site_sub|apply went_refl].
Qed.

(** ** Polling a session *)

Lemma poll_session_does (self : EC.t) g c e a :
  inv self g → in_width 64 c → is_Some (EC.sessions self !! c) →
  ∃ self' g' out, EC.poll_session e c self a = Ret (self', a ++ out)
    ∧ inv self' g' ∧ steps g out silence g'
    ∧ (∀ c', c' ≠ c → EC.sessions self' !! c' = EC.sessions self !! c').
Proof.
  intros Hs Hc Hses. unfold EC.poll_session.
  destruct (close_does config pp pq h params_pp window_pp self g c e a Hs Hc)
    as (s1 & g1 & o1 & -> & H1 & W1 & F1 & K1). cbn [mbind comp_bind].
  destruct (K1 Hses) as [s Es]. rewrite Es. cbn [unwrap mbind comp_bind].
  pose proof (si_talks _ _ _ _ _ _ H1 c Hc) as Ht. rewrite Es in Ht.
  destruct (session_poll c pp pq (h c) (g1 c) s e) as (out & s' & t & E & Htd);
    [apply Ht|apply (ta_session _ _ _ _ _ _ _ Ht)|].
  rewrite E. cbn [mbind comp_bind]. apply session_poll_control, control_phase in E as Hctl.
  pose proof (talks_kept c pp pq s s' _ _ t out Ht Htd Hctl) as Ht'.
  destruct (talked_does config pp pq h s1 g1 c e s s' t out [] (a ++ o1) H1 Hc Es Htd Ht')
    as (s2 & o2 & -> & H2 & W2 & S2 & _). cbn [mbind comp_bind].
  destruct (finish_does config pp pq h s2 _ c e ((a ++ o1) ++ o2) H2 Hc)
    as (s3 & o3 & -> & H3 & W3 & F3).
  exists s3, (<[c := t]> g1), (o1 ++ o2 ++ o3). rewrite <- !(assoc_L (++)).
  split_and!; [done|done| |].
  - eapply went_silent; [exact W1|]. eapply went_silent; [|exact W3].
    eapply went_said; [|exact W2]. apply said_at_nil.
  - intros c' Hne. rewrite F3, S2, lookup_insert_ne by done. by apply F1.
Qed.

(** ** A datagram of the peer *)

Lemma about_told c c' out : about c out → c' ≠ c → told_in c' out = [] ∧ opened_in c' out = false.
Proof.
  intros Hab Hne. induction Hab as [|x out Hx _ IH]; [done|]. specialize (Hx c').
  rewrite (proj2 (Z.eqb_neq c c')) in Hx by done. destruct IH as [IH1 IH2].
  destruct x as [ch b|c1|c1 b|c1 r]; cbn in *; rewrite ?IH1, ?IH2; try done.
  - by rewrite Hx.
  - apply Z.eqb_neq in Hx. by rewrite decide_False.
Qed.

Lemma about_traffic c out mtu Q : about c out → traffic config mtu Q out.
Proof.
  unfold about. rewrite Forall_forall. intros Hab ch b Hin. specialize (Hab _ Hin c).
  cbn in Hab. by rewrite Z.eqb_refl in Hab.
Qed.

(** Packets [o2] go out for the conversation [t], then [o3] is told of it. *)
Lemma heard_steps (g : ConvId → talk) c (s : ES.t) (t : talk) out heard o2 o3 :
  talked c pp pq (h c) (g c) t s out [] heard → (∀ c, told_in c o2 = [] ∧ opened_in c o2 = false) → about c o3 →
  traffic config (KcpParams.mtu pp) (carried (<[c := t]> g)) o2 →
  steps g (o2 ++ o3) silence (<[c := tell c o3 t]> g).
Proof.
  intros [_ _ Hlog Hsent _ Hwire Htold Hkn] Ho2 A3 Ht2. unfold silence. rewrite app_nil_r in Hsent.
  split; try (intros c'; destruct (decide (c' = c)) as [->|Hne];
    [rewrite fn_lookup_insert|rewrite fn_lookup_insert_ne by done]).
  - split; cbn; [done|by rewrite Hsent|rewrite Hwire; by apply prefix_app_r].
  - done.
  - cbn. rewrite told_in_app, (proj1 (Ho2 c)). by rewrite Htold.
  - destruct (about_told c c' o3 A3 Hne) as [Ht3 _].
    by rewrite told_in_app, (proj1 (Ho2 c')), Ht3, app_nil_r.
  - cbn. rewrite opened_in_app, (proj2 (Ho2 c)). by rewrite Hkn.
  - destruct (about_told c c' o3 A3 Hne) as [_ Hk3].
    by rewrite opened_in_app, (proj2 (Ho2 c')), Hk3, orb_false_r.
  - cbn. by rewrite Hsent, app_nil_r.
  - by rewrite app_nil_r.
  - apply traffic_app; [|by eapply about_traffic].
    eapply traffic_impl; [|exact Ht2]. intros m. destruct m as [dp k|dp|dp i n]; [|done|done].
    intros (c' & Hc' & Hk). exists c'. split; [done|].
    destruct (decide (c' = c)) as [->|Hne];
      [rewrite fn_lookup_insert in Hk |- *|rewrite fn_lookup_insert_ne in Hk |- * by done]; done.
Qed.

(** The session takes the datagram in, answers, and hands on the messages. *)
Lemma input_does (self : EC.t) g c e (s : ES.t) from d a next :
  inv self g → in_width 64 c → EC.sessions self !! c = Some s → d ∈ wire (tk_peer (h c)) →
  (∀ self1 g1 out, inv self1 g1 → goes_on g1 (a ++ out) (next self1 (a ++ out))) →
  goes_on g a
    ('(messages, packets, session) ←
       ES.input_packet (s <| ES.peer_seq := Some from |>) e d;
     let self := EC.put_session self c session in
     '(self, actions) ← EC.send_kcp_packets self e packets a;
     let '(self, actions) :=
       foldl (λ '(self, actions) message,
         EC.handle_session_message e c message self actions) (self, actions) messages in
     next self actions).
Proof.
  intros Hs Hc Es Hd Hnext. set (s0 := s <| ES.peer_seq := Some from |>).
  pose proof (si_talks _ _ _ _ _ _ Hs c Hc) as Ht. rewrite Es in Ht.
  pose proof (si_listens _ _ _ _ _ _ Hs c Hc) as Hl.
  destruct (session_input c pp pq (h c) mtu_pq (speaker_room _ _ (ls_speaker _ _ _ Hl))
    (sp_spoken _ _ (ls_speaker _ _ _ Hl)) (g c) s0 e d)
    as (msgs & out & s' & t & E & Htd);
    [apply Ht|apply (ta_session _ _ _ _ _ _ _ Ht)|done|].
  rewrite E. cbn [mbind comp_bind]. apply input_packet_control, control_phase in E as Hctl.
  change (same_phase s s') in Hctl.
  pose proof (talked_speaker c pp pq s' _ _ t out _ Htd (ta_speaker _ _ _ _ _ _ _ Ht)) as Hsp.
  assert (talks_at c pp pq (Some s') (received (tk_peer (g c))) (h c) t) as Hmid
    by (eapply (talks_moved c pp pq s s'); [done|done|done|done|by left|done]).
  pose proof Htd as [Hfac _ Hlog Hsent Hrec Hwire Htold Hkn]. rewrite app_nil_r in Hsent.
  set (self1 := EC.put_session self c s').
  destruct (kcp_packets_transmit (carried (<[c := t]> g)) e out self1 a)
    as (s2 & o2 & -> & Hf2 & Hq2 & Ht2).
  { eapply fit_same; [apply Hs|by split]. }
  { change (EC.kcp_params self1) with (EC.kcp_params self). rewrite (si_params _ _ _ _ _ _ Hs).
    apply Forall_forall. intros k Hk.
    assert (k ∈ wire (tk_peer t)) as Hkw by (rewrite Hwire; apply elem_of_app; by right). split.
    - by destruct (facing_wire _ _ _ _ _ _ Hfac Hkw) as (_ & _ & _ & Hle & _).
    - intros dp. exists c. split; [done|]. by rewrite fn_lookup_insert. }
  cbn [mbind comp_bind]. pose proof Hq2 as [Q1 _ _ Q4 Q5 Q6 (o2' & Eo & Hpk)].
  apply (inj (app a)) in Eo as <-.
  assert (EC.sessions s2 !! c = Some s') as Es2 by (rewrite Q1; apply put_session_eq).
  destruct (hear_messages c e pp pq (h c) msgs t (received (tk_peer (g c))) s2 (a ++ o2))
    as (s3 & o3 & -> & [F3 C3] & A3 & T3).
  { split; [apply Hl|]. rewrite Hsent. apply Hl. }
  { by rewrite Es2. }
  { rewrite <- Hrec. apply Hfac. }
  { right. by rewrite Es2. }
  rewrite <- Hrec in T3. pose proof C3 as [E1 E2 _ _ _ _ _ E8].
  set (g3 := <[c := tell c o3 t]> g).
  assert (inv s3 g3 ∧ steps g (o2 ++ o3) silence g3) as [H3 W3].
  2:{ destruct (Hnext s3 g3 (o2 ++ o3) H3) as (s4 & g4 & o4 & E4 & H4 & W4).
      rewrite (assoc_L (++)) in E4. rewrite E4. exists s4, g4, ((o2 ++ o3) ++ o4).
      rewrite !(assoc_L (++)). split_and!; [done|done|by eapply went_silent]. }
  unfold g3. split.
  - apply (site_change config pp pq h self); [done|done| | |done|by cbn; rewrite Hsent].
    + right. split_and!; [by eapply fit_same|by rewrite E1, Q4|by rewrite E2, Q5|by rewrite E8, Q6].
    + intros c' Hne. rewrite F3, Q1 by done. by apply put_session_ne.
  - eapply heard_steps; [exact Htd|by apply packets_out|exact A3|].
    change (EC.config self1) with (EC.config self) in Ht2.
    change (EC.kcp_params self1) with (EC.kcp_params self) in Ht2.
    by rewrite (si_config _ _ _ _ _ _ Hs), (si_params _ _ _ _ _ _ Hs) in Ht2.
Qed.

Lemma handle_kcp_does (self : EC.t) g c e from d a :
  inv self g → in_width 64 c → d ∈ wire (tk_peer (h c)) →
  (view self c = Idle → tk_known (g c) = false) →
  goes_on g a (EC.handle_kcp_packet self e from d a).
Proof.
  intros Hs Hc Hd Hwait. unfold EC.handle_kcp_packet.
  pose proof (si_talks _ _ _ _ _ _ Hs c Hc) as Ht.
  assert (good_datagram c (KcpParams.mtu pq) (tk_log (h c)) d) as Hgood.
  { eapply (proj1 (Forall_forall _ _)); [|exact Hd].
    apply (half_source _ _ _ _ _ _ _ _ (ta_facing _ _ _ _ _ _ _ Ht)). }
  rewrite (good_datagram_conv _ _ _ _ Hgood). cbn [mbind comp_bind].
  case_bool_decide as Htomb; [by apply (goes_on_same self); [done|split|left]|].
  apply eq_None_not_Some in Htomb. cbn zeta.
  match goal with |- context [EC.put_session self c ?x] => set (s0 := x) end.
  assert (∃ g1, inv (match EC.sessions self !! c with Some _ => self
      | None => EC.put_session self c s0 end) g1 ∧ steps g [] silence g1) as (g1 & H1 & W1).
  { destruct (EC.sessions self !! c) as [s|] eqn:Es; [by exists g; split; [|apply went_refl]|].
    assert (tk_known (g c) = false) as Hk.
    { apply Hwait. unfold view, state_of. rewrite Es. by rewrite Htomb. }
    exists (<[c := restart c pp false (g c)]> g). split.
    - apply site_put; [done..| |done].
      apply (talks_adopted c pp pq None); try done.
      cbn. by rewrite (si_params _ _ _ _ _ _ Hs).
    - eapply went_said; [apply (said_at_nil c)|]. apply went_put;
        [done|done|by rewrite Hk|by rewrite app_nil_r]. }
  set (self1 := match EC.sessions self !! c with Some _ => _ | None => _ end) in *.
  assert (is_Some (EC.sessions self1 !! c)) as [s Es].
  { unfold self1. destruct (EC.sessions self !! c) as [s|] eqn:Es; [by rewrite Es|].
    by rewrite put_session_eq. }
  clearbody self1. rewrite Es. cbn [unwrap mbind comp_bind].
  assert (∀ r, goes_on g1 a r → goes_on g a r) as Hend.
  { intros r (s2 & g2 & o2 & -> & H2 & W2). exists s2, g2, o2. split_and!; [done|done|].
    by apply (went_silent _ _ g g1 g2 [] o2). }
  apply Hend. destruct (match ES.peer_seq s with Some _ => _ | None => _ end).
  { by apply (goes_on_same self1); [done|split|left]. }
  apply input_does; [done..|]. intros s2 g2 o2 H2. apply goes_on_bind.
  - destruct (close_does config pp pq h params_pp window_pp s2 g2 c e (a ++ o2) H2 Hc)
      as (s3 & g3 & o3 & -> & H3 & W3 & _). by exists s3, g3, o3.
  - intros s3 g3 o3 H3.
    destruct (finish_does config pp pq h s3 g3 c e ((a ++ o2) ++ o3) H3 Hc)
      as (s4 & o4 & -> & H4 & W4 & _). by exists s4, g3, o4.
Qed.

(** ** A transport packet *)

(** What may arrive: garbage, or a message of the peer whose conversation, if
    the shell knows it, is not forgotten yet. *)
Definition welcome (self : EC.t) (g : ConvId → talk) (bytes : list Z) : Prop :=
  ∀ e, decode_transport_packet (EndpointConfig.envelope_key config) bytes = Ret (Ok e) →
    Envelope.route_plan e = [] →
    EC.open_endpoint_message self (envelope_stamp e) (Envelope.payload e) = Ret None
    ∨ ∃ m, EC.open_endpoint_message self (envelope_stamp e) (Envelope.payload e) = Ret (Some m)
        ∧ carried h m ∧ 0 <= EndpointMessage.reply_depth m
        ∧ ∀ d k c, m = EndpointMessage.KcpPacket d k → get_conv k = Ret c →
            view self c = Idle → tk_known (g c) = false.

Lemma transmit_goes_on (self : EC.t) g a r :
  inv self g → transmits (carried g) self a r → goes_on g a r.
Proof.
  intros Hs Ht. destruct (site_transmits config pp pq h self g a r Hs Ht)
    as (s1 & o1 & -> & H1 & W1 & _). by exists s1, g, o1.
Qed.

Lemma quiet_goes_on (self self' : EC.t) g a :
  inv self g → fit self' → quiet self a self' a → goes_on g a (Ret (self', a)).
Proof.
  intros Hs Hf Hq. exists self', g, []. rewrite app_nil_r.
  split_and!; [done|by eapply site_quiet|apply went_refl].
Qed.

Lemma packet_does T0 (self : EC.t) g e bytes a log :
  let T := tick_of (EndpointConfig.boot_time_ms config) e in
  0 <= EndpointConfig.boot_time_ms config + e < 2 ^ 64 → T0 <= T < T0 + 2 ^ 24 →
  bytes_ok bytes → filter_inv T0 T (EC.sequence_filter self) log →
  inv self g → welcome self g bytes →
  goes_on g a (EC.handle_transport_packet self e bytes a).
Proof.
  intros T Hclk HT Hok Hinv Hs Hwel. unfold EC.handle_transport_packet. cbn zeta.
  pose proof (si_config _ _ _ _ _ _ Hs) as Hcfg. unfold welcome in Hwel. rewrite <- Hcfg in Hwel.
  destruct (receive_cases (EndpointConfig.envelope_key (EC.config self))
    (EC.metrics self) bytes Hok) as [(m & -> & Hm)|(env & -> & Hd & Hwf & _)];
    cbn [mbind comp_bind].
  { by apply (goes_on_same self); [done|split|left]. }
  destruct (Z.eqb_spec (len (Envelope.route_plan env)) 0) as [Hl|Hl]; cbn [negb].
  2:{ by apply (goes_on_same self); [done|split|left]. }
  apply len_zero_nil in Hl.
  change (EC.open_endpoint_message (self <| EC.metrics := EC.metrics self |>))
    with (EC.open_endpoint_message self).
  destruct (Hwel env Hd Hl) as [->|(m & -> & Hcar & Hdep & Hwait)]; cbn [mbind comp_bind].
  { by apply (goes_on_same self); [done|split|left]. }
  rewrite current_time_tick by (by rewrite Hcfg). cbn. rewrite Hcfg. fold T.
  destruct (check_sequence_cases T0 T (EC.sequence_filter self) (EC.metrics self) env log HT Hwf Hinv)
    as [(f & m' & Hcs & Hf & Hm')|(f & Hcs & Hf)]; rewrite Hcs; cbn [mbind comp_bind negb].
  { by apply (goes_on_same self); [done|split|left]. }
  match goal with |- context [EC.count ?x ?y] => set (self1 := EC.count x y) end.
  assert (inv self1 g) as H1 by (apply (site_sub config pp pq h self); [done|by split|by left]).
  assert (view self1 = view self) as Hview by done. clearbody self1.
  apply goes_on_bind.
  - destruct m as [d k|d|d i n].
    + destruct Hcar as (c & Hc & Hk).
      apply (handle_kcp_does self1 g c); [done..|]. rewrite Hview. apply (Hwait d k c); [done|].
      eapply good_datagram_conv, (proj1 (Forall_forall _ _)); [|exact Hk].
      apply (half_source _ _ _ _ _ _ _ _ (ta_facing _ _ _ _ _ _ _ (si_talks _ _ _ _ _ _ Hs c Hc))).
    + by apply (goes_on_same self1); [done|split|left].
    + destruct (route_reply_returns self1 (i, n)) as (s2 & E & Hf2); [apply H1|].
      rewrite E. cbn [mbind comp_bind].
      by apply (quiet_goes_on self1); [| |eapply handle_route_reply_quiet].
  - intros s2 g2 o2 H2. apply (transmit_goes_on s2); [done|].
    apply route_reply_transmits; [apply H2|apply Hwf|apply Hwf|by destruct m|done].
Qed.

(** ** Polling *)

Lemma notices_out out :
  (∀ x, x ∈ out → ∃ c r, x = CloseSession c r) →
  (∀ c, told_in c out = [] ∧ opened_in c out = false)
  ∧ ∀ mtu Q, traffic config mtu Q out.
Proof.
  intros Hout. split.
  - intros c. induction out as [|x out IH]; [done|].
    destruct (Hout x ltac:(by left)) as (c' & r & ->). apply IH. intros y Hy. apply Hout. by right.
  - intros mtu Q ch b (c & r & H)%Hout. done.
Qed.

Lemma expire_sequences_does (self : EC.t) g e a :
  inv self g → goes_on g a (EC.expire_sequences self e a).
Proof.
  intros Hs. unfold EC.expire_sequences. destruct (SequenceFilter.remove_expired _ _ _) as [ids f].
  destruct (eviction_loop e ids (self <| EC.sequence_filter := f |>) a)
    as (self' & out & -> & [Hses _ Hrest] & [_ Hout]).
  destruct (notices_out out) as [Hno Htr].
  { intros x (c & s & -> & _)%Hout. by eexists _, _. }
  exists self', g, out. split; [done|]. split.
  - apply (site_sub config pp pq h self); [done|by rewrite Hrest; split|].
    intros c. rewrite Hses. destruct (bound_to _ _ c); [by right|by left].
  - apply went_out; [apply Hno|apply Hno|apply Htr].
Qed.

Lemma poll_sessions_do e convs : ∀ (self : EC.t) g a,
  inv self g → NoDup convs → (∀ c, c ∈ convs → is_Some (EC.sessions self !! c)) →
  goes_on g a (for_each convs (λ conv_id '(self, actions),
    EC.poll_session e conv_id self actions) (self, a)).
Proof.
  induction convs as [|c convs IH]; intros self g a Hs Hnd Hin; cbn [for_each].
  { by apply (goes_on_same self); [done|split|left]. }
  apply NoDup_cons in Hnd as [Hc Hnd]. destruct (Hin c ltac:(by left)) as [s Es].
  pose proof (si_ids _ _ _ _ _ _ Hs c ltac:(by eexists)) as Hcw.
  destruct (poll_session_does self g c e a Hs Hcw ltac:(by eexists))
    as (s1 & g1 & o1 & -> & H1 & W1 & F1). cbn [mbind comp_bind].
  destruct (IH s1 g1 (a ++ o1) H1 Hnd) as (s2 & g2 & o2 & -> & H2 & W2).
  { intros c' Hc'. rewrite F1 by (by intros ->). apply Hin. by right. }
  exists s2, g2, (o1 ++ o2). rewrite (assoc_L (++)).
  split_and!; [done|done|by eapply went_silent].
Qed.

Lemma conv_iter_keys {V} (m : gmap ConvId V) :
  NoDup (conv_iter m).*1 ∧ ∀ c, c ∈ (conv_iter m).*1 → is_Some (m !! c).
Proof.
  unfold conv_iter. split.
  - rewrite merge_sort_Permutation. apply NoDup_fst_map_to_list.
  - intros c. rewrite merge_sort_Permutation. intros ([c' v] & -> & Hin)%list_elem_of_fmap.
    apply elem_of_map_to_list in Hin. by exists v.
Qed.

Lemma poll_does (self : EC.t) g e a : inv self g → goes_on g a (EC.poll self e a).
Proof.
  intros Hs. unfold EC.poll.
  destruct (expire_feedback_returns self e) as (s1 & E1 & Hf1); [apply Hs|].
  rewrite E1. cbn [mbind comp_bind].
  assert (inv s1 g) as H1
    by (eapply (site_quiet config pp pq h self); [done|done|by eapply (expire_feedback_quiet _ _ _ [])]).
  apply goes_on_bind; [by apply expire_sequences_does|]. intros s2 g2 o2 H2.
  set (s3 := EC.expire_tombstones s2 e).
  assert (inv s3 g2) as H3 by (apply (site_sub config pp pq h s2); [done|by split|by left]).
  apply goes_on_bind.
  - apply poll_sessions_do; [done|apply conv_iter_keys..].
  - intros s4 g4 o4 H4. apply (transmit_goes_on s4); [done|].
    apply keepalive_transmits; [apply H4|done].
Qed.

(** ** Shell events *)

Lemma failure_does (self : EC.t) g e ch bytes a stamp m :
  inv self g → posted config (KcpParams.mtu pp) stamp m ch bytes → carried g m →
  ∃ self' g' out, EC.handle_send_failed self e ch bytes a = Ret (ResultNone, self', a ++ out)
    ∧ inv self' g' ∧ steps g out silence g'.
Proof.
  intros Hs Hp Hm. destruct (send_failed_transmits (carried g) self e stamp m ch bytes a)
    as (s1 & o1 & E & Hf1 & Hq1 & Ht1); [apply Hs|done| |].
  { by rewrite (si_config _ _ _ _ _ _ Hs), (si_params _ _ _ _ _ _ Hs). }
  destruct (site_transmits config pp pq h self g a (Ret (s1, a ++ o1)) Hs)
    as (s2 & o2 & E2 & H2 & W2 & _); [by exists s1, o1|].
  apply Ret_inj in E2 as [= <- <-%(inj (app a))]. by exists s1, g, o1.
Qed.

(** The conversation [SessionOpen] starts, as far as this side knows it. *)
Definition opening (g : ConvId → talk) (c : ConvId) : ConvId → talk :=
  <[c := restart c pp true (g c)]> g.

Lemma open_does (self : EC.t) g e a :
  inv self g → tk_known (g (EC.next_conv_id self)) = false →
  ∃ self' g' out, EC.handle_session_open self e a
      = Ret (SessionCreated (EC.next_conv_id self), self', a ++ out)
    ∧ inv self' g' ∧ steps (opening g (EC.next_conv_id self)) out silence g'.
Proof.
  intros Hs Hk. set (c := EC.next_conv_id self) in *. unfold EC.handle_session_open. cbn zeta.
  fold c. pose proof (si_conv_id _ _ _ _ _ _ Hs) as Hc. fold c in Hc.
  set (self0 := self <| EC.next_conv_id ::= λ c, c +{64} 1 |>).
  set (s := ES.new c (EC.kcp_params self0) Open).
  pose proof (si_talks _ _ _ _ _ _ Hs c Hc) as Ht.
  pose proof (facing_restart c pp pq _ (h c) (g c) true Hc params_pp Ht Hk) as Hf0.
  unfold EC.send_session_message. rewrite put_session_eq. cbn [unwrap mbind comp_bind].
  pose proof (mss_pos pp params_pp) as Hm.
  destruct (session_send c pp pq (h c) (restart c pp true (g c)) s e SessionMessage.Open)
    as (out & s' & t & E & Htd & _); [done| |by repeat constructor| |].
  { cbn. by rewrite (si_params _ _ _ _ _ _ Hs). }
  { pose proof (fragment_count_le (mss_of pp) (SessionMessage.encode SessionMessage.Open) Hm) as Hle.
    change (len (SessionMessage.encode SessionMessage.Open)) with 1 in Hle. lia. }
  rewrite E. cbn [mbind comp_bind]. apply send_message_control in E as Hctl.
  assert (talks c pp pq (Some s') (h c) t) as Ht'
    by (by eapply (talks_opened c pp pq _ s)).
  pose proof Htd as [_ _ Hlog Hsent Hrec Hwire Htold Hkn].
  assert (inv self0 g) as H0.
  { destruct Hs as [Hf Hcf Hp _ Hi Hl Htk]. split; try done; [|by apply wrap_range].
    destruct Hf as [Hg Hpar Hd Hsm]. split; try done. apply (geometry_frame self); try done; try reflexivity; apply Hg. }
  assert (EC.put_session (EC.put_session self0 c s) c s' = EC.put_session self0 c s') as Eput.
  { change (self0 <| EC.sessions := <[c := s']> (<[c := s]> (EC.sessions self0)) |>
      = self0 <| EC.sessions := <[c := s']> (EC.sessions self0) |>).
    by rewrite insert_insert_eq. }
  rewrite Eput.
  destruct (put_does config pp pq h self0 g c e s' t out a H0 Hc Ht')
    as (s2 & o2 & -> & H2 & W2 & S2 & _).
  { rewrite Hsent. by apply prefix_app_r. }
  { apply Forall_forall. intros k Hin. rewrite Hwire. apply elem_of_app. by right. }
  cbn [mbind comp_bind].
  rewrite (finish_stays s2 c s');
    [|by rewrite S2, lookup_insert_eq|left; by rewrite (proj1 Hctl)].
  cbn [mbind comp_bind]. exists s2, (<[c := t]> g), o2. split_and!; [done|done|].
  rewrite <- (app_nil_l o2). eapply went_silent; [|exact W2].
  eapply went_said; [apply (said_at_nil c)|].
  apply (went_ext _ _ _ _ _ (<[c := t]> (opening g c))).
  { intros c'. unfold opening. destruct (decide (c' = c)) as [->|Hne];
      [by rewrite !fn_lookup_insert|by rewrite !fn_lookup_insert_ne by done]. }
  apply went_put; unfold opening; rewrite fn_lookup_insert; [|done|done|].
  - split; [done|rewrite Hsent; by apply prefix_app_r|rewrite Hwire; by apply prefix_app_r].
  - rewrite Hsent, datas_app. done.
Qed.

(** The shell writes to a conversation it has open. *)
Lemma write_does (self : EC.t) g c e b a :
  inv self g → in_width 64 c → view self c = Active Open → bytes_ok b →
  fragment_count (mss_of pp) (1 :: b) < KcpParams.receive_window pp `min` 256 →
  segments (mss_of pp) (datas (sent (tk_peer (g c))) ++ [b]) + 3 < 2 ^ 32 →
  ∃ r self' g' out, EC.handle_session_write self e c b a = Ret (r, self', a ++ out)
    ∧ inv self' g' ∧ match r with
      | ResultNone => steps g out (said_at c [b]) g'
      | SessionWriteBlocked => steps g out silence g'
      | SessionCreated _ => False
      end.
Proof.
  intros Hs Hc Hview Hb Hfit Hroom. unfold EC.handle_session_write.
  pose proof (si_talks _ _ _ _ _ _ Hs c Hc) as Ht. unfold view, state_of in Hview.
  destruct (EC.sessions self !! c) as [s|] eqn:Es; [|by case_bool_decide].
  injection Hview as Hph. cbn [unwrap mbind comp_bind].
  pose proof (params_mtu _ params_pp) as Hm. unfold KCP_OVERHEAD in Hm.
  rewrite div_ceil_returns
    by (rewrite (si_params _ _ _ _ _ _ Hs); unfold Kcp.KCP_OVERHEAD, KCP_OVERHEAD;
        rewrite wrap_id by lia; lia).
  cbn [mbind comp_bind]. destruct (_ <? _).
  { eexists _, self, g, []. rewrite app_nil_r. split_and!; [done|done|apply went_refl]. }
  destruct (ta_session _ _ _ _ _ _ _ Ht) as [_ Hses]. rewrite Hph in Hses.
  destruct Hses as (Hk & _ & Hcl).
  destruct (say_does config pp pq h self g c s e (SessionMessage.Data b) a)
    as (s2 & g2 & o2 & s' & -> & H2 & W2 & _); try done.
  - by constructor.
  - intros t Hsent Hrec. eapply (speaker_data pp (g c) t b); try done; [by apply mss_pos|apply Ht|].
    by apply Ht.
  - by left.
  - cbn [mbind comp_bind]. by exists ResultNone, s2, g2, o2.
Qed.

(** The shell closes a conversation it has open. *)
Lemma shut_does (self : EC.t) g c e r a :
  inv self g → in_width 64 c → view self c = Active Open →
  ∃ self' g' out, EC.handle_session_close self e c r a = Ret (ResultNone, self', a ++ out)
    ∧ inv self' g' ∧ steps g out silence g'.
Proof.
  intros Hs Hc Hview. unfold EC.handle_session_close.
  pose proof (si_talks _ _ _ _ _ _ Hs c Hc) as Ht. unfold view, state_of in Hview.
  destruct (EC.sessions self !! c) as [s|] eqn:Es; [|by case_bool_decide].
  injection Hview as Hph. cbn [unwrap mbind comp_bind].
  match goal with |- context [EC.put_session self c ?x] => set (s1 := x) end.
  assert (inv (EC.put_session self c s1) g) as H1.
  { apply site_keep; [done|done|]. destruct Ht as [? ? ? ? ? [Hk Hses]].
    rewrite Hph in Hses. destruct Hses as (? & ? & ?). split; try done. }
  destruct (close_does config pp pq h params_pp window_pp _ g c e a H1 Hc)
    as (s2 & g2 & o2 & -> & H2 & W2 & _). cbn [mbind comp_bind]. by exists s2, g2, o2.
Qed.

End events.
