(* ===== verification/Dialogue.v ===== *)
(** * Two endpoints in dialogue

    A whole run of two endpoints over a network that loses, delays, repeats and
    reorders packets, and adds whatever it likes except a forgery: the shells
    open, write and close sessions, the clocks tick independently, sends fail
    and are retried.  The specification is a pair of queues per session: what
    one shell is told is a prefix of what the other shell wrote. *)

From stdpp Require Import functions.
From S2P Require Import Prelude Bytes Core Wire WireFacts Sequence SequenceTrace Crypto.
From S2P Require Import Packet Machine MachineFacts Kcp KcpMessage KcpInv KcpFlush KcpStream.
From S2P Require Import Routing RoutingFeedback RoutingTotal Endpoint EndpointLifecycle.
From S2P Require Import EndpointFacts EndpointSend EndpointTraffic SessionPeer Talk.
From S2P Require Import EndpointTalk EndpointEvents.

(** ** A site: an endpoint and what its shell saw *)

Section site.
Context `{Aes : Aegis128L, Bl : Blake3, It : HashIter}.

(** The endpoint with its clock, every packet it handed to the shell, the
    writes it accepted, the data it delivered, and the sessions it announced. *)
Record site := {
  core : EC.t;
  clock : Z;
  packets : list (ChannelId * list Z);
  written : list (ConvId * list Z);
  delivered : list (ConvId * list Z);
  announced : list ConvId;
}.

Definition new_site (self : EC.t) : site := Build_site self 0 [] [] [] [].

Definition packets_of (out : list CoreAction) : list (ChannelId * list Z) :=
  omap (λ a, match a with SendTransportPacket ch b => Some (ch, b) | _ => None end) out.

Definition delivered_of (out : list CoreAction) : list (ConvId * list Z) :=
  omap (λ a, match a with WriteSession c b => Some (c, b) | _ => None end) out.

Definition announced_of (out : list CoreAction) : list ConvId :=
  omap (λ a, match a with OpenSession c => Some c | _ => None end) out.

Definition written_by (event : CoreEvent) (r : CoreEventResult) : list (ConvId * list Z) :=
  match event, r with SessionWrite c b, ResultNone => [(c, b)] | _, _ => [] end.

Definition created_by (r : CoreEventResult) : list ConvId :=
  match r with SessionCreated c => [c] | _ => [] end.

(** The site after a call at time [e] that left [self] and emitted [out]. *)
Definition after_call (s : site) (e : Z) (self : EC.t) (out : list CoreAction)
    (wrote : list (ConvId * list Z)) (created : list ConvId) : site :=
  Build_site self e (packets s ++ packets_of out) (written s ++ wrote)
    (delivered s ++ delivered_of out) (announced s ++ created ++ announced_of out).

(** One call of the shell at time [e]: an event, or a poll. *)
Definition site_call (s : site) (e : Z) (ev : option CoreEvent) : comp site :=
  match ev with
  | Some event =>
      '(r, self, out) ← EC.handle_event (core s) e event [];
      Ret (after_call s e self out (written_by event r) (created_by r))
  | None =>
      '(self, out) ← EC.poll (core s) e [];
      Ret (after_call s e self out [] [])
  end.

(** The data of one session among data of many. *)
Definition data_of (c : ConvId) (l : list (ConvId * list Z)) : list (list Z) :=
  omap (λ cb, if decide (cb.1 = c) then Some cb.2 else None) l.

(** ** What the shells and the network may do *)

(** Some packet of [b] carries message [m] under [stamp]. *)
Definition said_by (b : site) (stamp : EnvelopeStamp) (m : EndpointMessage.t) : Prop :=
  ∃ ch bytes e, (ch, bytes) ∈ packets b
    ∧ decode_transport_packet (EndpointConfig.envelope_key (EC.config (core b))) bytes = Ret (Ok e)
    ∧ envelope_stamp e = stamp
    ∧ EC.open_endpoint_message (core b) stamp (Envelope.payload e) = Ret (Some m).

(** Messages cannot be forged or reflected: what opens at [a] was sealed by
    [b].  (Relays may have changed the envelope around it.)  And a packet of a
    session that [a]'s shell knew does not outlive the session's tombstone. *)
Definition genuine (a b : site) (bytes : list Z) : Prop :=
  ∀ e, decode_transport_packet (EndpointConfig.envelope_key (EC.config (core a))) bytes
      = Ret (Ok e) → Envelope.route_plan e = [] →
    EC.open_endpoint_message (core a) (envelope_stamp e) (Envelope.payload e) = Ret None
    ∨ ∃ m, EC.open_endpoint_message (core a) (envelope_stamp e) (Envelope.payload e)
          = Ret (Some m)
        ∧ said_by b (envelope_stamp e) m
        ∧ ∀ d k c, m = EndpointMessage.KcpPacket d k → get_conv k = Ret c →
            view (core a) c = Idle → c ∉ announced a.

(** The clock runs forward within one window of 2^24 ticks; a new session gets
    an unused id; writes and closes address open sessions, and a write fits
    the KCP window and the 2^32 segments of a stream. *)
Definition permitted (a b : site) (e : Z) (ev : option CoreEvent) : Prop :=
  let boot := EndpointConfig.boot_time_ms (EC.config (core a)) in
  let params := EC.kcp_params (core a) in
  clock a <= e ∧ boot + e < 2 ^ 64 ∧ tick_of boot e < tick_of boot 0 + 2 ^ 24
  ∧ match ev with
    | None => True
    | Some SessionOpen => EC.next_conv_id (core a) ∉ announced a
    | Some (SessionWrite c bytes) =>
        view (core a) c = Active Open ∧ bytes_ok bytes
        ∧ fragment_count (mss_of params) (1 :: bytes) < KcpParams.receive_window params `min` 256
        ∧ segments (mss_of params) (data_of c (written a) ++ [bytes]) + 3 < 2 ^ 32
    | Some (SessionClose c _) => view (core a) c = Active Open
    | Some (TransportPacketSendFailed ch bytes) => (ch, bytes) ∈ packets a
    | Some (TransportPacketReceived _ bytes) => bytes_ok bytes ∧ genuine a b bytes
    end.

(** Runs of two endpoints. *)
Inductive dialogue (ca cb : EndpointConfig.t) : site → site → Prop :=
  | dialogue_new a b :
      EC.new ca = Ret a → EC.new cb = Ret b → dialogue ca cb (new_site a) (new_site b)
  | dialogue_left a b e ev a' :
      dialogue ca cb a b → permitted a b e ev → site_call a e ev = Ret a' →
      dialogue ca cb a' b
  | dialogue_right a b e ev b' :
      dialogue ca cb a b → permitted b a e ev → site_call b e ev = Ret b' →
      dialogue ca cb a b'.

Lemma dialogue_sym ca cb a b : dialogue ca cb a b → dialogue cb ca b a.
Proof.
  induction 1; [by apply dialogue_new|by eapply dialogue_right|by eapply dialogue_left].
Qed.

(** What a configuration owes. *)
Record ready (config : EndpointConfig.t) : Prop := {
  rd_routable : routable config;
  rd_distinct : config_distinct (RouteConfig.graph (EndpointConfig.route config));
  rd_boot : 0 <= EndpointConfig.boot_time_ms config;
  rd_params : ∀ self, EC.new config = Ret self →
    params_ok (EC.kcp_params self) ∧ 2 < KcpParams.receive_window (EC.kcp_params self);
}.

End site.

(** ** The traces of a call *)

Lemma data_of_app c l1 l2 : data_of c (l1 ++ l2) = data_of c l1 ++ data_of c l2.
Proof. apply omap_app. Qed.

Lemma data_of_delivered c out : data_of c (delivered_of out) = told_in c out.
Proof.
  induction out as [|x out IH]; [done|]. destruct x as [ch b|c'|c' b|c' r]; cbn; try done.
  fold (delivered_of out). destruct (decide (c' = c)); [by f_equal|done].
Qed.

Lemma elem_of_announced c out : c ∈ announced_of out ↔ opened_in c out = true.
Proof.
  unfold announced_of, opened_in. rewrite list_elem_of_omap, existsb_exists.
  split.
  - intros (x & Hin & Hx). exists x. split; [by apply list_elem_of_In|].
    destruct x; try done. injection Hx as ->. apply Z.eqb_refl.
  - intros (x & Hin & Hx). exists x. split; [by apply list_elem_of_In|].
    destruct x; try done. by apply Z.eqb_eq in Hx as ->.
Qed.

Lemma elem_of_packets ch bytes out :
  (ch, bytes) ∈ packets_of out → SendTransportPacket ch bytes ∈ out.
Proof.
  unfold packets_of. intros (x & Hin & Hx)%list_elem_of_omap. destruct x; try done.
  by injection Hx as -> ->.
Qed.

(** ** The invariant of one side *)

Section side.
Context `{Aes : Aegis128L, AesSpec : !Aegis128LSpec, Bl : Blake3, BlSpec : !Blake3Spec,
  It : HashIter, ItSpec : !HashIterSpec}.

(** The traces agree with the conversations. *)
Record traces (s : site) (g : ConvId → talk) : Prop := {
  tr_delivered : ∀ c, data_of c (delivered s) = tk_told (g c);
  tr_written : ∀ c, data_of c (written s) = datas (sent (tk_peer (g c)));
  tr_announced : ∀ c, c ∈ announced s ↔ tk_known (g c) = true;
}.

Definition sent_packets (config : EndpointConfig.t) (params : KcpParams.t) (s : site)
    (g : ConvId → talk) : Prop :=
  ∀ ch bytes, (ch, bytes) ∈ packets s →
    ∃ stamp m, posted config (KcpParams.mtu params) stamp m ch bytes ∧ carried g m.

Record side_inv (config : EndpointConfig.t) (pp pq : KcpParams.t) (h : ConvId → talk)
    (s : site) (g : ConvId → talk) : Prop := {
  sd_site : site_inv config pp pq h (core s) g;
  sd_traces : traces s g;
  sd_packets : sent_packets config pp s g;
  sd_clock : 0 <= EndpointConfig.boot_time_ms config ∧ 0 <= clock s;
  sd_filter : ∃ log, filter_inv (tick_of (EndpointConfig.boot_time_ms config) 0)
    (tick_of (EndpointConfig.boot_time_ms config) (clock s)) (EC.sequence_filter (core s)) log;
}.

(** What the network delivers is welcome. *)
Lemma genuine_welcome cq config pp pq h (a b : site) g bytes :
  side_inv config pp pq h a g → sent_packets cq pq b h → EC.config (core b) = cq →
  genuine a b bytes → welcome config h (core a) g bytes.
Proof.
  intros Ha Hb Hcq Hgen e. rewrite <- (si_config _ _ _ _ _ _ (sd_site _ _ _ _ _ _ Ha)).
  intros Hd Hr. destruct (Hgen e Hd Hr) as [|(m & Ho & (ch & by' & e' & Hin & Hd' & Hst & Ho') & Hwait)];
    [by left|right].
  destruct (Hb ch by' Hin) as (stamp & m' & (_ & e'' & Hd'' & Hst' & Hs) & Hcar).
  rewrite Hcq, Hd'' in Hd'. apply Ret_inj in Hd' as [= <-].
  assert (m' = m) as ->.
  { rewrite <- Hst, Hst', (sf_open _ _ _ _ _ Hs) in Ho' by (by rewrite Hcq).
    by apply Ret_inj in Ho' as [= ->]. }
  exists m. split_and!; [done|done|apply (sf_wf _ _ _ _ _ Hs)|].
  intros d k c -> Hc Hv. specialize (Hwait d k c eq_refl Hc Hv).
  apply not_true_iff_false. intros Hk. apply Hwait.
  by apply (tr_announced _ _ (sd_traces _ _ _ _ _ _ Ha)).
Qed.

(** A call that went on from [g] with [out] and [said], where [g] is [g0] but
    for the sessions [k] that the call created. *)
Lemma side_done config pp pq h (s : site) g0 g g' e self out w k said log :
  side_inv config pp pq h s g0 → clock s <= e →
  filter_inv (tick_of (EndpointConfig.boot_time_ms config) 0)
    (tick_of (EndpointConfig.boot_time_ms config) e) (EC.sequence_filter self) log →
  site_inv config pp pq h self g' → went config pp g out said g' →
  (∀ c, tk_told (g c) = tk_told (g0 c)
     ∧ grown (tk_log (g0 c)) (tk_log (g c)) (tk_peer (g0 c)) (tk_peer (g c))
     ∧ sent (tk_peer (g c)) = sent (tk_peer (g0 c))
     ∧ (tk_known (g c) = true ↔ tk_known (g0 c) = true ∨ c ∈ k)) →
  (∀ c, data_of c w = said c) →
  side_inv config pp pq h (after_call s e self out w k) g'
  ∧ ∀ c, grown (tk_log (g0 c)) (tk_log (g' c)) (tk_peer (g0 c)) (tk_peer (g' c)).
Proof.
  intros [Hs [Hd Hw Ha] Hp [Hb Hc] _] Hle Hf Hs' [G T K S F] Hg Hsaid.
  assert (∀ c, grown (tk_log (g0 c)) (tk_log (g' c)) (tk_peer (g0 c)) (tk_peer (g' c))) as Hgr.
  { intros c. destruct (Hg c) as (_ & Hg1 & _). by eapply grown_trans. }
  split; [|done]. split; [done|..].
  - split; intros c; destruct (Hg c) as (Ht & _ & Hs1 & Hk);
      cbn [delivered written announced after_call].
    + by rewrite data_of_app, Hd, data_of_delivered, T, Ht.
    + by rewrite data_of_app, Hw, Hsaid, S, Hs1.
    + rewrite !elem_of_app, Ha, elem_of_announced, K, orb_true_iff, Hk. tauto.
  - intros ch bytes [Hin|Hin]%elem_of_app.
    + destruct (Hp ch bytes Hin) as (st & m & Hpost & Hcar). exists st, m. split; [done|].
      by eapply carried_grown.
    + apply elem_of_packets in Hin. by apply F.
  - cbn. lia.
  - by exists log.
Qed.

Lemma site_call_shape (s : site) e ev s' :
  site_call s e ev = Ret s' →
  clock s' = e ∧ ∃ out, call (core s) e ev [] = Ret (core s', out).
Proof.
  unfold site_call, call. destruct ev as [event|].
  - intros ([[r self] out] & E & Hr)%bind_ret. apply Ret_inj in Hr as <-. rewrite E.
    split; [done|]. by exists out.
  - intros ([self out] & E & Hr)%bind_ret. apply Ret_inj in Hr as <-. split; [done|].
    by exists out.
Qed.

Lemma active_session (self : EC.t) c p : view self c = Active p → is_Some (EC.sessions self !! c).
Proof.
  unfold view, state_of. destruct (EC.sessions self !! c); [by eexists|]. by case_bool_decide.
Qed.

(** What a step owes the other side: it returns, and this side's conversations
    have grown. *)
Definition advances (config : EndpointConfig.t) (pp pq : KcpParams.t)
    (h g : ConvId → talk) (a : site) (e : Z) (ev : option CoreEvent) : Prop :=
  ∃ a' g', site_call a e ev = Ret a' ∧ side_inv config pp pq h a' g'
    ∧ ∀ c, grown (tk_log (g c)) (tk_log (g' c)) (tk_peer (g c)) (tk_peer (g' c)).

Section step.
Context (config : EndpointConfig.t) (pp pq : KcpParams.t) (h : ConvId → talk).
Context (a : site) (g : ConvId → talk) (e : Z).
Context (Hpq : KCP_OVERHEAD < KcpParams.mtu pq) (Hpp : params_ok pp).
Context (Hwnd : 2 < KcpParams.receive_window pp).
Context (Ha : side_inv config pp pq h a g) (Hle : clock a <= e).
Context (H64 : EndpointConfig.boot_time_ms config + e < 2 ^ 64).
Context (Htick : tick_of (EndpointConfig.boot_time_ms config) e
  < tick_of (EndpointConfig.boot_time_ms config) 0 + 2 ^ 24).

Lemma step_site : site_inv config pp pq h (core a) g.
Proof using Ha. apply Ha. Qed.

(** The replay filter knows no packet from the future. *)
Lemma step_filter :
  ∃ log, filter_inv (tick_of (EndpointConfig.boot_time_ms config) 0)
    (tick_of (EndpointConfig.boot_time_ms config) e) (EC.sequence_filter (core a)) log.
Proof using Ha Hle.
  destruct (sd_clock _ _ _ _ _ _ Ha) as [Hb Hc].
  destruct (sd_filter _ _ _ _ _ _ Ha) as [log Hf]. exists log.
  eapply filter_inv_mono; [|exact Hf]. by apply tick_of_mono.
Qed.

Lemma step_filtered ev a' :
  match ev with Some (TransportPacketReceived _ bytes) => bytes_ok bytes | _ => True end →
  site_call a e ev = Ret a' →
  ∃ log, filter_inv (tick_of (EndpointConfig.boot_time_ms config) 0)
    (tick_of (EndpointConfig.boot_time_ms config) e) (EC.sequence_filter (core a')) log.
Proof using AesSpec BlSpec ItSpec Ha Hle H64 Htick.
  intros Hev Hcall. destruct step_filter as [log Hf].
  apply site_call_shape in Hcall as (_ & out & E).
  pose proof (si_config _ _ _ _ _ _ step_site) as Hcfg.
  destruct (sd_clock _ _ _ _ _ _ Ha) as [Hb Hc].
  pose proof (tick_of_mono (EndpointConfig.boot_time_ms config) 0 e) as Hmono.
  destruct (call_filter (tick_of (EndpointConfig.boot_time_ms config) 0) (core a) e ev []
    (core a') out log) as [_ Hf']; rewrite ?Hcfg; [lia|lia|done|done|done|].
  rewrite Hcfg in Hf'. by eexists.
Qed.

(** A call that announced at most the sessions [k] that it created. *)
Lemma step_done ev g1 g' self out w k said :
  match ev with Some (TransportPacketReceived _ bytes) => bytes_ok bytes | _ => True end →
  site_call a e ev = Ret (after_call a e self out w k) →
  site_inv config pp pq h self g' → went config pp g1 out said g' →
  (∀ c, tk_told (g1 c) = tk_told (g c)
     ∧ grown (tk_log (g c)) (tk_log (g1 c)) (tk_peer (g c)) (tk_peer (g1 c))
     ∧ sent (tk_peer (g1 c)) = sent (tk_peer (g c))
     ∧ (tk_known (g1 c) = true ↔ tk_known (g c) = true ∨ c ∈ k)) →
  (∀ c, data_of c w = said c) →
  advances config pp pq h g a e ev.
Proof using AesSpec BlSpec ItSpec Ha Hle H64 Htick.
  intros Hev E Hs' Hw Hg Hd. destruct (step_filtered ev _ Hev E) as [log Hf].
  eexists _, g'. split; [exact E|]. by eapply side_done.
Qed.

Lemma step_goes_on ev g' self out w said :
  match ev with Some (TransportPacketReceived _ bytes) => bytes_ok bytes | _ => True end →
  site_call a e ev = Ret (after_call a e self out w []) →
  site_inv config pp pq h self g' → went config pp g out said g' →
  (∀ c, data_of c w = said c) → advances config pp pq h g a e ev.
Proof using AesSpec BlSpec ItSpec Ha Hle H64 Htick.
  intros Hev E Hs' Hw. eapply step_done; [done..|].
  intros c. split_and!; [done|apply grown_refl|done|]. rewrite elem_of_nil. tauto.
Qed.

Lemma packet_step ch bytes :
  bytes_ok bytes → welcome config h (core a) g bytes →
  advances config pp pq h g a e (Some (TransportPacketReceived ch bytes)).
Proof using AesSpec BlSpec ItSpec Hpq Hpp Hwnd Ha Hle H64 Htick.
  intros Hok Hwel. destruct step_filter as [log Hf].
  destruct (sd_clock _ _ _ _ _ _ Ha) as [Hb Hc].
  pose proof (tick_of_mono (EndpointConfig.boot_time_ms config) 0 e) as Hmono.
  pose proof (step_goes_on (Some (TransportPacketReceived ch bytes))) as Hend.
  unfold site_call in Hend. cbn [EC.handle_event] in Hend.
  match type of Hend with context [EC.handle_transport_packet ?x] => set (self0 := x) in * end.
  destruct (packet_does config pp pq h Hpq Hpp Hwnd
    (tick_of (EndpointConfig.boot_time_ms config) 0) self0 g e bytes [] log)
    as (self & g' & out & E & H1 & W1); [lia|lia|done|exact Hf| |exact Hwel|].
  { apply (site_sub config pp pq h (core a)); [apply step_site|by split|by left]. }
  rewrite E in Hend. by eapply Hend.
Qed.

Lemma failure_step ch bytes :
  (ch, bytes) ∈ packets a →
  advances config pp pq h g a e (Some (TransportPacketSendFailed ch bytes)).
Proof using AesSpec BlSpec ItSpec Ha Hle H64 Htick.
  intros Hin. destruct (sd_packets _ _ _ _ _ _ Ha ch bytes Hin) as (st & m & Hpost & Hcar).
  pose proof (step_goes_on (Some (TransportPacketSendFailed ch bytes))) as Hend.
  unfold site_call in Hend. cbn [EC.handle_event] in Hend.
  destruct (failure_does config pp pq h (core a) g e ch bytes [] st m step_site Hpost Hcar)
    as (self & g' & out & E & H1 & W1).
  rewrite E in Hend. by eapply Hend.
Qed.

Lemma open_step :
  EC.next_conv_id (core a) ∉ announced a → advances config pp pq h g a e (Some SessionOpen).
Proof using AesSpec BlSpec ItSpec Hpp Hwnd Ha Hle H64 Htick.
  intros Hnew. set (c := EC.next_conv_id (core a)) in *.
  assert (tk_known (g c) = false) as Hk.
  { apply not_true_iff_false. by rewrite <- (tr_announced _ _ (sd_traces _ _ _ _ _ _ Ha)). }
  destruct (open_does config pp pq h Hpp Hwnd (core a) g e [] step_site Hk)
    as (self & g' & out & E & H1 & W1). fold c in E, W1. cbn [app] in E.
  apply (step_done (Some SessionOpen) (opening pp g c) g' self out [] [c] silence);
    [done| |done|done| |done].
  { unfold site_call. cbn [EC.handle_event]. by rewrite E. }
  intros c'. unfold opening. rewrite list_elem_of_singleton.
  destruct (decide (c' = c)) as [->|Hne].
  - rewrite fn_lookup_insert. cbn. split_and!; [done|done|done|]. tauto.
  - rewrite fn_lookup_insert_ne by done. split_and!; [done|done|done|]. tauto.
Qed.

(** Sessions carry 64-bit ids. *)
Lemma step_conv c p : view (core a) c = Active p → in_width 64 c.
Proof using Ha.
  intros Hv. apply (si_ids _ _ _ _ _ _ step_site). by apply (active_session _ _ p).
Qed.

Lemma write_step c bytes :
  view (core a) c = Active Open → bytes_ok bytes →
  fragment_count (mss_of pp) (1 :: bytes) < KcpParams.receive_window pp `min` 256 →
  segments (mss_of pp) (data_of c (written a) ++ [bytes]) + 3 < 2 ^ 32 →
  advances config pp pq h g a e (Some (SessionWrite c bytes)).
Proof using AesSpec BlSpec ItSpec Hpp Ha Hle H64 Htick.
  intros Hv Hbs Hfit Hroom. rewrite (tr_written _ _ (sd_traces _ _ _ _ _ _ Ha)) in Hroom.
  pose proof (step_goes_on (Some (SessionWrite c bytes))) as Hend.
  unfold site_call in Hend. cbn [EC.handle_event] in Hend.
  destruct (write_does config pp pq h Hpp (core a) g c e bytes [] step_site (step_conv c _ Hv)
    Hv Hbs Hfit Hroom) as (r & self & g' & out & E & H1 & W1).
  cbn [app] in E. rewrite E in Hend.
  destruct r as [|c'|]; [|done|]; (eapply Hend; [done|done|done|exact W1|]); [|done].
  intros c'. unfold said_at. cbn. by destruct (decide (c = c')), (decide (c' = c)); subst.
Qed.

Lemma close_step c r :
  view (core a) c = Active Open →
  advances config pp pq h g a e (Some (SessionClose c r)).
Proof using AesSpec BlSpec ItSpec Hpp Hwnd Ha Hle H64 Htick.
  intros Hv. pose proof (step_goes_on (Some (SessionClose c r))) as Hend.
  unfold site_call in Hend. cbn [EC.handle_event] in Hend.
  destruct (shut_does config pp pq h Hpp Hwnd (core a) g c e r [] step_site (step_conv c _ Hv) Hv)
    as (self & g' & out & E & H1 & W1).
  cbn [app] in E. rewrite E in Hend. by eapply Hend.
Qed.

Lemma poll_step : advances config pp pq h g a e None.
Proof using AesSpec BlSpec ItSpec Hpp Hwnd Ha Hle H64 Htick.
  pose proof (step_goes_on None) as Hend. unfold site_call in Hend.
  destruct (poll_does config pp pq h Hpp Hwnd (core a) g e [] step_site)
    as (self & g' & out & E & H1 & W1).
  rewrite E in Hend. by eapply Hend.
Qed.

End step.

(** A permitted call returns; afterwards this side's conversations have grown. *)
Lemma side_step cq config pp pq h (a b : site) g e ev :
  KCP_OVERHEAD < KcpParams.mtu pq → params_ok pp → 2 < KcpParams.receive_window pp →
  side_inv config pp pq h a g → sent_packets cq pq b h → EC.config (core b) = cq →
  permitted a b e ev → advances config pp pq h g a e ev.
Proof.
  intros Hpq Hpp Hwnd Ha Hb Hcq Hperm. pose proof (sd_site _ _ _ _ _ _ Ha) as Hs.
  unfold permitted in Hperm. cbn zeta in Hperm.
  rewrite (si_config _ _ _ _ _ _ Hs), (si_params _ _ _ _ _ _ Hs) in Hperm.
  destruct Hperm as (Hle & H64 & Htick & Hev).
  destruct ev as [[ch bytes|ch bytes| |c bytes|c r]|].
  - destruct Hev as [Hok Hgen]. apply packet_step; try done.
    exact (genuine_welcome cq config pp pq h a b g bytes Ha Hb Hcq Hgen).
  - by apply failure_step.
  - by apply open_step.
  - destruct Hev as (Hv & Hbs & Hfit & Hroom). by apply write_step.
  - by apply close_step.
  - by apply poll_step.
Qed.

(** ** Both sides *)

(** This side, when the other one moved from [h] to [h']. *)
Lemma side_listens cq config pp pq h h' (a b : site) g :
  side_inv config pp pq h a g → side_inv cq pq pp g b h' →
  (∀ c, grown (tk_log (h c)) (tk_log (h' c)) (tk_peer (h c)) (tk_peer (h' c))) →
  side_inv config pp pq h' a g.
Proof.
  intros [[Hf Hc Hp Hn Hi Hl Ht] Htr Hpk Hclk Hflt] [[_ _ _ _ _ _ Ht'] _ _ _ _] Hg.
  split; [|done..]. split; [done..| |].
  - intros c Hcw. specialize (Ht' c Hcw). split; [apply Ht'|].
    apply (half_link _ _ _ _ _ _ _ _ (ta_facing _ _ _ _ _ _ _ Ht')).
  - intros c Hcw. specialize (Ht' c Hcw). eapply talks_grown; [apply Hg| |by apply Ht].
    eapply peer_source, (half_peer _ _ _ _ _ _ _ _ (ta_facing _ _ _ _ _ _ _ Ht')).
Qed.

Lemma new_core config self :
  ready config → EC.new config = Ret self →
  fit self ∧ in_width 64 (EC.next_conv_id self) ∧ EC.sessions self = ∅
  ∧ EC.sequence_filter self = SequenceFilter.default
  ∧ 0 <= EndpointConfig.boot_time_ms (EC.config self).
Proof.
  intros [Hr Hd Hb Hp] Hnew. destruct (Hp self Hnew) as [Hpar _].
  destruct (new_geometry config Hr) as (self' & E & Hg). rewrite Hnew in E.
  apply Ret_inj in E as <-. pose proof (new_fields config self Hnew) as [Hboot Hflt].
  rewrite Hboot, Hflt. unfold EC.new in Hnew. apply bind_ret in Hnew as (o & _ & Hnew).
  destruct (RandomStream.u64 (RandomStream.new _)) as [conv rnd1] eqn:Eu.
  pose proof (random_u64_range (RandomStream.new (EndpointConfig.random_seed
    (config <| EndpointConfig.kcp ::= EC.with_kcp_defaults |>)))) as Hu. rewrite Eu in Hu.
  destruct (RandomStream.u64 rnd1) as [i rnd2].
  apply Ret_inj in Hnew. subst self. split_and!; [|done|done|done|done].
  split; [done|done| |].
  - by apply new_distinct.
  - intros id s Hi. cbn [EC.outstanding] in Hi. by apply lookup_empty_Some in Hi.
Qed.

Lemma new_side ca cb a b :
  ready ca → ready cb → EC.new ca = Ret a → EC.new cb = Ret b →
  let pa := EC.kcp_params a in let pb := EC.kcp_params b in
  side_inv (EC.config a) pa pb (λ c, new_talk c pb) (new_site a) (λ c, new_talk c pa).
Proof.
  intros Ha Hb Hna Hnb. destruct (new_core ca a Ha Hna) as (Hf & Hn & Hs & Hfl & Hbt).
  destruct (rd_params _ Ha a Hna) as [Hpa _]. destruct (rd_params _ Hb b Hnb) as [Hpb _].
  cbn zeta. split; cbn [core new_site clock].
  - split; [done|done|done|done|..].
    + intros c. rewrite Hs, lookup_empty. by intros [].
    + intros c Hc. split; [apply new_speaker|done].
    + intros c Hc. rewrite Hs, lookup_empty. by apply new_talks.
  - split; intros c; cbn; [done|done|]. by rewrite elem_of_nil.
  - intros ch bytes Hin. by apply elem_of_nil in Hin.
  - done.
  - exists []. rewrite Hfl. apply filter_inv_default.
Qed.

(** Both sides of a run: their parameters and conversations. *)
Definition both (a b : site) : Prop :=
  ∃ ka kb pa pb g h,
    (params_ok pa ∧ 2 < KcpParams.receive_window pa)
    ∧ (params_ok pb ∧ 2 < KcpParams.receive_window pb)
    ∧ side_inv ka pa pb h a g ∧ side_inv kb pb pa g b h.

Lemma both_sym a b : both a b → both b a.
Proof.
  intros (ka & kb & pa & pb & g & h & ? & ? & ? & ?). by exists kb, ka, pb, pa, h, g.
Qed.

Lemma both_step a b e ev :
  both a b → permitted a b e ev → ∃ a', site_call a e ev = Ret a' ∧ both a' b.
Proof.
  intros (ka & kb & pa & pb & g & h & [Hpa Hwa] & [Hpb Hwb] & Ha & Hb) Hperm.
  destruct (side_step kb ka pa pb h a b g e ev) as (a' & g' & E & Ha' & Hg); try done.
  - apply (params_mtu _ Hpb).
  - apply Hb.
  - apply (si_config _ _ _ _ _ _ (sd_site _ _ _ _ _ _ Hb)).
  - exists a'. split; [done|]. exists ka, kb, pa, pb, g', h. split_and!; try done.
    by eapply side_listens.
Qed.

Lemma dialogue_both ca cb a b : ready ca → ready cb → dialogue ca cb a b → both a b.
Proof.
  intros Ha Hb. induction 1 as [a b Hna Hnb|a b e ev a' _ IH Hp E|a b e ev b' _ IH Hp E].
  - exists (EC.config a), (EC.config b), (EC.kcp_params a), (EC.kcp_params b),
      (λ c, new_talk c (EC.kcp_params a)), (λ c, new_talk c (EC.kcp_params b)).
    split; [by apply (rd_params _ Ha)|]. split; [by apply (rd_params _ Hb)|].
    split; [by apply (new_side ca cb)|by apply (new_side cb ca)].
  - destruct (both_step a b e ev IH Hp) as (a1 & E1 & Hbo). rewrite E in E1.
    by apply Ret_inj in E1 as <-.
  - apply both_sym in IH. destruct (both_step b a e ev IH Hp) as (b1 & E1 & Hbo).
    rewrite E in E1. apply Ret_inj in E1 as <-. by apply both_sym.
Qed.

(** What [b]'s shell was told is what [a]'s shell wrote, up to a point. *)
Lemma both_streams a b c :
  both a b → in_width 64 c →
  data_of c (delivered b) `prefix_of` data_of c (written a)
  ∧ (view (core b) c = Active ClosingRemote → data_of c (delivered b) = data_of c (written a)).
Proof.
  intros (ka & kb & pa & pb & g & h & _ & _ & [Sa [_ Wa _] _ _ _] & [Sb [Db _ _] _ _ _]) Hc.
  rewrite Wa, Db. pose proof (si_talks _ _ _ _ _ _ Sb c Hc) as Hb.
  pose proof (si_talks _ _ _ _ _ _ Sa c Hc) as Ha.
  pose proof (link_prefix _ _ _ _ (half_link _ _ _ _ _ _ _ _ (ta_facing _ _ _ _ _ _ _ Hb))) as Hpre.
  split; [etrans; [apply Hb|by apply datas_prefix]|].
  unfold view, state_of. pose proof (ta_session _ _ _ _ _ _ _ Hb) as Hses.
  destruct (EC.sessions (core b) !! c) as [s|]; [|by case_bool_decide].
  intros [= Hph]. destruct Hses as [_ Hses]. rewrite Hph in Hses.
  destruct Hses as (_ & -> & (l & m & l' & E & Hm)%closed_elem). f_equal.
  destruct Hpre as [k Hk]. rewrite Hk, E. rewrite E, <- (assoc_L (++)) in Hk. cbn in Hk.
  apply (sp_last _ _ (ta_speaker _ _ _ _ _ _ _ Ha)) in Hk; [|done].
  apply app_nil in Hk as [-> ->]. by rewrite app_nil_r.
Qed.

(** ** Properties *)

(** C2: in every run of two endpoints over a network that may lose, delay,
    repeat, reorder and invent packets, but not forge or reflect sealed
    messages, every permitted call of either shell and every delivery returns:
    no panic and no endless loop, whatever the routes, the measurements and the
    interleaving. *)
Theorem dialogue_never_panics ca cb a b :
  ready ca → ready cb → dialogue ca cb a b →
  (∀ e ev, permitted a b e ev → ∃ a', site_call a e ev = Ret a')
  ∧ (∀ e ev, permitted b a e ev → ∃ b', site_call b e ev = Ret b').
Proof.
  intros Ha Hb Hd. pose proof (dialogue_both ca cb a b Ha Hb Hd) as Hbo.
  split; intros e ev Hp; [|apply both_sym in Hbo];
    destruct (both_step _ _ e ev Hbo Hp) as (s' & E & _); by exists s'.
Qed.

(** C1: end to end, a session is a reliable stream in both directions: what a
    shell is told is a prefix of what the other shell wrote to that session, in
    order, without gaps or repetitions, over the composition of the session
    protocol, KCP, sealing, routing and the replay filter; and when the peer's
    close arrives, everything the peer wrote has been told. *)
Theorem dialogue_streams ca cb a b c :
  ready ca → ready cb → dialogue ca cb a b → in_width 64 c →
  (data_of c (delivered b) `prefix_of` data_of c (written a)
   ∧ data_of c (delivered a) `prefix_of` data_of c (written b))
  ∧ (view (core b) c = Active ClosingRemote →
       data_of c (delivered b) = data_of c (written a))
  ∧ (view (core a) c = Active ClosingRemote →
       data_of c (delivered a) = data_of c (written b)).
Proof.
  intros Ha Hb Hd Hc. pose proof (dialogue_both ca cb a b Ha Hb Hd) as Hbo.
  destruct (both_streams a b c Hbo Hc). apply both_sym in Hbo.
  by destruct (both_streams b a c Hbo Hc).
Qed.

(** ** Playing a script *)

(** A shell event or poll, or the delivery of the peer's [n]-th packet. *)
Inductive move : Type :=
  | Shell (ev : option CoreEvent)
  | Deliver (n : nat).

Definition tick_ok (a : site) (e : Z) : bool :=
  let boot := EndpointConfig.boot_time_ms (EC.config (core a)) in
  (clock a <=? e) && (boot + e <? 2 ^ 64) && (tick_of boot e <? tick_of boot 0 + 2 ^ 24).

#[local] Instance session_state_eq_dec : EqDecision session_state.
Proof. solve_decision. Defined.

Definition shell_permits (a : site) (ev : option CoreEvent) : bool :=
  let params := EC.kcp_params (core a) in
  match ev with
  | None => true
  | Some SessionOpen => bool_decide (EC.next_conv_id (core a) ∉ announced a)
  | Some (SessionWrite c bytes) =>
      bool_decide (view (core a) c = Active Open) && bool_decide (bytes_ok bytes)
      && (fragment_count (mss_of params) (1 :: bytes) <? KcpParams.receive_window params `min` 256)
      && (segments (mss_of params) (data_of c (written a) ++ [bytes]) + 3 <? 2 ^ 32)
  | Some (SessionClose c _) => bool_decide (view (core a) c = Active Open)
  | Some (TransportPacketSendFailed ch bytes) => bool_decide ((ch, bytes) ∈ packets a)
  | Some (TransportPacketReceived _ _) => false
  end.

(** The peer's packet arrives as it was sent, by a holder of the same keys. *)
Definition delivery_ok (a b : site) (bytes : list Z) : bool :=
  let ka := EC.config (core a) in let kb := EC.config (core b) in
  bool_decide (EndpointConfig.envelope_key ka = EndpointConfig.envelope_key kb)
  && bool_decide (EndpointConfig.message_key ka = EndpointConfig.message_key kb)
  && bool_decide (bytes_ok bytes)
  && forallb (λ c, bool_decide (view (core a) c ≠ Idle)) (announced a).

Definition play_move (a b : site) (e : Z) (m : move) : comp site :=
  if negb (tick_ok a e) then Panic else
  match m with
  | Shell ev => if shell_permits a ev then site_call a e ev else Panic
  | Deliver n =>
      match packets b !! n with
      | Some (ch, bytes) =>
          if delivery_ok a b bytes
          then site_call a e (Some (TransportPacketReceived ch bytes)) else Panic
      | None => Panic
      end
  end.

(** A script: who moves ([true] for the first), when, and what. *)
Fixpoint play (script : list (bool * Z * move)) (a b : site) : comp (site * site) :=
  match script with
  | [] => Ret (a, b)
  | (true, e, m) :: script => a ← play_move a b e m; play script a b
  | (false, e, m) :: script => b ← play_move b a e m; play script a b
  end.

Lemma delivery_genuine a b ch bytes :
  both a b → (ch, bytes) ∈ packets b → delivery_ok a b bytes = true →
  bytes_ok bytes ∧ genuine a b bytes.
Proof.
  intros (ka & kb & pa & pb & g & h & _ & _ & Ha & Hb) Hin Hok.
  unfold delivery_ok in Hok. cbn zeta in Hok. repeat rewrite andb_true_iff in Hok.
  rewrite !bool_decide_eq_true, forallb_forall in Hok. destruct Hok as [[[Hk1 Hk2] Hby] Hann].
  split; [done|]. intros e Hd Hr.
  destruct (sd_packets _ _ _ _ _ _ Hb ch bytes Hin) as (st & m & (_ & e' & Hd' & Hst & Hs) & Hcar).
  pose proof (si_config _ _ _ _ _ _ (sd_site _ _ _ _ _ _ Hb)) as Hcb. rewrite Hcb in *.
  rewrite Hk1, Hd' in Hd. apply Ret_inj in Hd as [= <-]. rewrite Hst. right. exists m.
  split; [by apply (sf_open _ _ _ _ _ Hs)|]. split.
  - exists ch, bytes, e'. split_and!; [done|by rewrite Hcb|done|].
    apply (sf_open _ _ _ _ _ Hs). by rewrite Hcb.
  - intros d k c _ _ Hv Hc. apply list_elem_of_In, Hann in Hc. by apply bool_decide_eq_true in Hc.
Qed.

Lemma play_move_permitted a b e m a' :
  both a b → play_move a b e m = Ret a' → ∃ ev, permitted a b e ev ∧ site_call a e ev = Ret a'.
Proof.
  intros Hbo. unfold play_move. destruct (tick_ok a e) eqn:Ht; [|done]. cbn [negb].
  unfold tick_ok in Ht. cbn zeta in Ht. rewrite !andb_true_iff, Z.leb_le, !Z.ltb_lt in Ht.
  destruct Ht as [[H1 H2] H3]. destruct m as [ev|n].
  - destruct (shell_permits a ev) eqn:Hs; [|done]. intros E. exists ev. split; [|done].
    split_and!; [done..|]. unfold shell_permits in Hs. cbn zeta in Hs.
    destruct ev as [[ch bytes|ch bytes| |c bytes|c r]|]; try done.
    + by apply bool_decide_eq_true in Hs.
    + by apply bool_decide_eq_true in Hs.
    + rewrite !andb_true_iff, !bool_decide_eq_true, !Z.ltb_lt in Hs. by destruct Hs as [[[? ?] ?] ?].
    + by apply bool_decide_eq_true in Hs.
  - destruct (packets b !! n) as [[ch bytes]|] eqn:En; [|done].
    destruct (delivery_ok a b bytes) eqn:Hd; [|done]. intros E.
    exists (Some (TransportPacketReceived ch bytes)). split; [|done].
    split_and!; [done..| |]; eapply (delivery_genuine a b ch bytes); try done;
      by eapply list_elem_of_lookup_2.
Qed.

(** Scripts are runs. *)
Lemma play_dialogue ca cb script : ∀ a b a' b',
  ready ca → ready cb → dialogue ca cb a b → play script a b = Ret (a', b') →
  dialogue ca cb a' b'.
Proof.
  induction script as [|[[side e] m] script IH]; intros a b a' b' Ha Hb Hd; cbn [play].
  { by intros [= -> ->]. }
  pose proof (dialogue_both ca cb a b Ha Hb Hd) as Hbo.
  destruct side; intros (s & E & Hr)%bind_ret.
  - destruct (play_move_permitted a b e m s Hbo E) as (ev & Hp & Hc).
    apply (IH s b a' b'); [done|done|by eapply dialogue_left|done].
  - apply both_sym in Hbo. destruct (play_move_permitted b a e m s Hbo E) as (ev & Hp & Hc).
    apply (IH a s a' b'); [done|done|by eapply dialogue_right|done].
Qed.

End side.

(** ** Witnesses *)

#[local] Existing Instance toy_aegis.
#[local] Existing Instance toy_aegis_spec.
#[local] Existing Instance toy_blake3.
#[local] Existing Instance toy_blake3_spec.
#[local] Existing Instance Sequence.toy_iter.
#[local] Existing Instance Sequence.toy_iter_spec.

(** The endpoint of seed 3; [demo_self] is the one of seed 4. *)
Definition demo_peer : EC.t := Eval vm_compute in from_ret (demo_core 3) eq_refl.

Lemma demo_peer_new : EC.new (demo_endpoint 3) = Ret demo_peer.
Proof. by vm_compute. Qed.

Lemma demo_ready seed core :
  EC.new (demo_endpoint seed) = Ret core → params_ok (EC.kcp_params core) →
  2 < KcpParams.receive_window (EC.kcp_params core) → ready (demo_endpoint seed).
Proof.
  intros Hn Hp Hw. split.
  - apply demo_routable.
  - intros [|[|i]] node [= <-]; cbn; [apply NoDup_singleton|constructor].
  - done.
  - intros self E. rewrite Hn in E. by apply Ret_inj in E as <-.
Qed.

(** The first endpoint opens a session, hears that it is accepted, and writes
    twice and closes; the last packets overtake the first and one is repeated. *)
Definition demo_conv : ConvId := Eval vm_compute in EC.next_conv_id demo_peer.

Definition demo_script : list (bool * Z * move) :=
  [(true, 10, Shell (Some SessionOpen)); (false, 60, Deliver 0);
   (true, 110, Deliver 0);
   (true, 120, Shell (Some (SessionWrite demo_conv [1; 2; 3])));
   (true, 130, Shell (Some (SessionWrite demo_conv [4; 5])));
   (true, 140, Shell (Some (SessionClose demo_conv LocalClosed)));
   (false, 180, Deliver 4); (false, 185, Deliver 3); (false, 186, Deliver 3);
   (false, 190, Deliver 2)].

Definition demo_end : site * site :=
  Eval vm_compute in
    match play demo_script (new_site demo_peer) (new_site demo_self) with
    | Ret ends => ends
    | _ => (new_site demo_peer, new_site demo_self)
    end.

Definition demo_a : site := Eval vm_compute in demo_end.1.

Definition demo_b : site := Eval vm_compute in demo_end.2.

Lemma demo_play :
  play demo_script (new_site demo_peer) (new_site demo_self) = Ret (demo_a, demo_b).
Proof. by vm_compute. Qed.

Lemma demo_ready_3 : ready (demo_endpoint 3).
Proof.
  apply (demo_ready 3 demo_peer demo_peer_new); [|vm_compute; reflexivity].
  split; vm_compute; (split; (discriminate || reflexivity)) || exact I.
Qed.

Lemma demo_ready_4 : ready (demo_endpoint 4).
Proof.
  apply (demo_ready 4 demo_self demo_self_new); [|vm_compute; reflexivity].
  split; vm_compute; (split; (discriminate || reflexivity)) || exact I.
Qed.

Lemma demo_dialogue_end :
  dialogue (demo_endpoint 3) (demo_endpoint 4) demo_a demo_b.
Proof.
  apply (play_dialogue (demo_endpoint 3) (demo_endpoint 4) demo_script
    (new_site demo_peer) (new_site demo_self) demo_a demo_b).
  - exact demo_ready_3.
  - exact demo_ready_4.
  - exact (dialogue_new _ _ _ _ demo_peer_new demo_self_new).
  - exact demo_play.
Qed.

(** Both writes were told, once and in order, and the close came last. *)
Example demo_told :
  data_of demo_conv (delivered demo_b) = [[1; 2; 3]; [4; 5]]
  ∧ view (core demo_b) demo_conv = Active ClosingRemote.
Proof. by vm_compute. Qed.

Lemma dialogue_streams_witness :
  dialogue (demo_endpoint 3) (demo_endpoint 4) demo_a demo_b
  ∧ view (core demo_b) demo_conv = Active ClosingRemote
  ∧ data_of demo_conv (delivered demo_b) = data_of demo_conv (written demo_a).
Proof.
  split; [exact demo_dialogue_end|]. split; [exact (proj2 demo_told)|].
  assert (in_width 64 demo_conv) as Hc by (by vm_compute).
  exact (proj1 (proj2 (dialogue_streams _ _ _ _ demo_conv demo_ready_3 demo_ready_4
    demo_dialogue_end Hc)) (proj2 demo_told)).
Defined.

Lemma demo_poll_permitted : permitted demo_a demo_b 150 None.
Proof. by vm_compute. Qed.

(** The closing side polls before the acknowledgement of its close arrives. *)
Lemma dialogue_never_panics_witness :
  dialogue (demo_endpoint 3) (demo_endpoint 4) demo_a demo_b
  ∧ permitted demo_a demo_b 150 None
  ∧ ∃ a', site_call demo_a 150 None = Ret a'.
Proof.
  split; [exact demo_dialogue_end|]. split; [exact demo_poll_permitted|].
  exact (proj1 (dialogue_never_panics _ _ _ _ demo_ready_3 demo_ready_4 demo_dialogue_end)
    150 None demo_poll_permitted).
Defined.
