(* ===== verification/Config.v ===== *)
(** * Shell configuration

    raynet-shell's [config.rs]: the defaults of the tuning knobs, and
    [build_route], which turns the named edges of the configuration file into
    the layered graph the planner works on; and from [endpoint.rs], [relay.rs]
    the configurations the shell hands to the cores.  [CoreFileConfig],
    [KcpFileConfig] and [RouteFileConfig] are the records serde fills in; parsing
    the TOML file is serde's. *)

From stdpp Require Import strings.
From S2P Require Import Prelude Core Routing Endpoint Relay.

Definition DEFAULT_TRANSPORT_MTU : Z := 1400.

(** ** Tuning *)

Module KcpFileConfig.
Record t := {
  send_window : option Z;
  receive_window : option Z;
  time_scale : option Z;
  fast_resend : option Z;
}.

Definition to_kcp_config (self : t) : KcpConfig.t :=
  let defaults := KcpConfig.default in
  {| KcpConfig.send_window := default (KcpConfig.send_window defaults) (send_window self);
     KcpConfig.receive_window :=
       default (KcpConfig.receive_window defaults) (receive_window self);
     KcpConfig.time_scale := default (KcpConfig.time_scale defaults) (time_scale self);
     KcpConfig.fast_resend := default (KcpConfig.fast_resend defaults) (fast_resend self) |}.
End KcpFileConfig.

Module RouteTiming.
Record t := { min_mtu : Z; feedback_interval_ms : Z; feedback_timeout_ms : Z }.
End RouteTiming.

Module RouteFileConfig.
Record t := {
  min_mtu : option Z;
  feedback_interval_ms : option Z;
  feedback_timeout_ms : option Z;
}.

Definition to_route_timing (self : t) : RouteTiming.t :=
  {| RouteTiming.min_mtu := default DEFAULT_TRANSPORT_MTU (min_mtu self);
     RouteTiming.feedback_interval_ms := default 1000 (feedback_interval_ms self);
     RouteTiming.feedback_timeout_ms := default 5000 (feedback_timeout_ms self) |}.
End RouteFileConfig.

Module RelayCoreTuning.
Record t := { local_min_mtu : Z }.
End RelayCoreTuning.

Module EndpointCoreTuning.
Record t := {
  kcp : KcpConfig.t;
  route : RouteTiming.t;
  padding_reserve : Z;
  keepalive_interval_ms : Z;
}.

Definition route_config (self : t) (graph : RouteGraph.t) : RouteConfig.t :=
  {| RouteConfig.graph := graph;
     RouteConfig.min_mtu := RouteTiming.min_mtu (route self);
     RouteConfig.feedback_interval_ms := RouteTiming.feedback_interval_ms (route self);
     RouteConfig.feedback_timeout_ms := RouteTiming.feedback_timeout_ms (route self) |}.
End EndpointCoreTuning.

Module CoreFileConfig.
Record t := {
  local_min_mtu : option Z;
  padding_reserve : option Z;
  keepalive_interval_ms : option Z;
  kcp : KcpFileConfig.t;
  route : RouteFileConfig.t;
}.

(** [CoreFileConfig::default()]: an empty table. *)
Definition default_config : t :=
  Build_t None None None (KcpFileConfig.Build_t None None None None)
    (RouteFileConfig.Build_t None None None).

Definition relay_tuning (self : t) : RelayCoreTuning.t :=
  RelayCoreTuning.Build_t (default DEFAULT_TRANSPORT_MTU (local_min_mtu self)).

Definition endpoint_tuning (self : t) : EndpointCoreTuning.t :=
  {| EndpointCoreTuning.kcp := KcpFileConfig.to_kcp_config (kcp self);
     EndpointCoreTuning.route := RouteFileConfig.to_route_timing (route self);
     EndpointCoreTuning.padding_reserve := default 128 (padding_reserve self);
     EndpointCoreTuning.keepalive_interval_ms := default 0 (keepalive_interval_ms self) |}.
End CoreFileConfig.

(** ** The route builder *)

Module RouteEdgeConfig.
Record t := {
  from : string;
  to : string;
  channel : Z;
  capacity_hint_kbps : Z;
  latency_hint_ms : Z;
}.
End RouteEdgeConfig.

Module REC := RouteEdgeConfig.

(** [assert!(b)] *)
Definition assert_that (b : bool) : comp unit := if b then Ret () else Panic.

(** [map.entry(k).or_insert(v)] *)
Definition or_insert {V} (m : gmap string V) (k : string) (v : V) : gmap string V :=
  match m !! k with Some _ => m | None => <[k := v]> m end.

(** Both ends of an edge get the next free index unless they have one. *)
Definition index_edge (indexes : gmap string Z) (edge : REC.t) : gmap string Z :=
  let next := Z.of_nat (size indexes) in
  let indexes := or_insert indexes (REC.from edge) next in
  let next := Z.of_nat (size indexes) in
  or_insert indexes (REC.to edge) next.

Definition name_indexes (edges : list REC.t) : gmap string Z :=
  foldl index_edge ∅ edges.

(** The edge out of [from], and one more edge into [next]. *)
Definition connect (indexes : gmap string Z) (edge : REC.t)
    (st : list RouteNode.t * list Z) : comp (list RouteNode.t * list Z) :=
  let '(nodes, indegree) := st in
  from ← unwrap (indexes !! REC.from edge);
  next ← unwrap (indexes !! REC.to edge);
  _ ← assert_that (negb (from =? next));
  d ← index indegree next;
  indegree ← store indegree next (as_i32 (d + 1));
  node ← index nodes from;
  nodes ← store nodes from (RouteNode.Build_t (RouteNode.edges node ++
    [{| RouteEdge.channel_id := REC.channel edge;
        RouteEdge.next := wrap 32 next;
        RouteEdge.capacity_hint_kbps := REC.capacity_hint_kbps edge;
        RouteEdge.latency_hint_ms := REC.latency_hint_ms edge |}]));
  Ret (nodes, indegree).

(** [iter().enumerate()] *)
Definition enumerate {A} (l : list A) : list (Z * A) := zip (seqZ 0 (len l)) l.

(** The nodes no edge leads to. *)
Definition sources_of (indegree : list Z) : list Z :=
  (filter (λ entry : Z * Z, entry.2 = 0) (enumerate indegree)).*1.

Definition is_sink (node : RouteNode.t) : bool :=
  match RouteNode.edges node with [] => true | _ => false end.

Module Sorting.
Record t := { ready : list Z; order : list Z; indegree : list Z }.
End Sorting.

(** An edge out of a node that has left the queue. *)
Definition release_edge (edge : RouteEdge.t) (st : list Z * list Z)
    : comp (list Z * list Z) :=
  let '(ready, indegree) := st in
  let next := RouteEdge.next edge in
  d ← index indegree next;
  let d := as_i32 (d - 1) in
  indegree ← store indegree next d;
  Ret (if d =? 0 then ready ++ [next] else ready, indegree).

Definition visit (nodes : list RouteNode.t) (st : Sorting.t) : comp Sorting.t :=
  match Sorting.ready st with
  | [] => Ret st
  | node :: ready =>
      let order := Sorting.order st ++ [node] in
      n ← index nodes node;
      '(ready, indegree) ←
        for_each (RouteNode.edges n) release_edge (ready, Sorting.indegree st);
      Ret (Sorting.Build_t ready order indegree)
  end.

Definition has_ready (st : Sorting.t) : bool :=
  match Sorting.ready st with [] => false | _ => true end.

(** [while let Some(node) = ready.pop_front()]; every node is popped once. *)
Definition topological_order (nodes : list RouteNode.t) (sources indegree : list Z)
    : comp Sorting.t :=
  while (length nodes) has_ready (visit nodes) (Sorting.Build_t sources [] indegree).

Definition place (entry : Z * Z) (positions : list Z) : comp (list Z) :=
  let '(position, node) := entry in store positions node (wrap 32 position).

Definition renumber_edge (positions : list Z) (edge : RouteEdge.t) : comp RouteEdge.t :=
  next ← index positions (RouteEdge.next edge);
  Ret {| RouteEdge.channel_id := RouteEdge.channel_id edge;
         RouteEdge.next := next;
         RouteEdge.capacity_hint_kbps := RouteEdge.capacity_hint_kbps edge;
         RouteEdge.latency_hint_ms := RouteEdge.latency_hint_ms edge |}.

Definition renumber (nodes : list RouteNode.t) (positions : list Z) (node : Z)
    : comp RouteNode.t :=
  n ← index nodes node;
  edges ← mapM (renumber_edge positions) (RouteNode.edges n);
  Ret (RouteNode.Build_t edges).

Definition build_route (edges : list REC.t) : comp RouteGraph.t :=
  _ ← assert_that (negb (bool_decide (length edges = 0%nat)));
  let indexes := name_indexes edges in
  let n := Z.of_nat (size indexes) in
  '(nodes, indegree) ← for_each edges (connect indexes)
    (vec n (RouteNode.Build_t []), vec n 0);
  let sources := sources_of indegree in
  _ ← assert_that (len sources =? 1);
  _ ← assert_that (len (filter (λ node, is_sink node = true) nodes) =? 1);
  sorted ← topological_order nodes sources indegree;
  let order := Sorting.order sorted in
  _ ← assert_that (len order =? len nodes);
  positions ← for_each (enumerate order) place (vec (len nodes) 0);
  nodes ← mapM (renumber nodes positions) order;
  Ret (RouteGraph.Build_t nodes).

(** [file_config.route.map(build_route)] *)
Definition build_optional (route : option (list REC.t)) : comp (option RouteGraph.t) :=
  match route with
  | None => Ret None
  | Some edges => g ← build_route edges; Ret (Some g)
  end.

(** ** What the shell gives the cores *)

(** [endpoint.rs]: without a route, one hop over any local channel. *)
Definition direct_graph (local_channels : list ChannelId) : RouteGraph.t :=
  RouteGraph.Build_t
    [RouteNode.Build_t ((λ channel_id, RouteEdge.Build_t channel_id 1 0 0) <$> local_channels);
     RouteNode.Build_t []].

Definition route_graph (local_channels : list ChannelId) (route : option RouteGraph.t)
    : comp RouteGraph.t :=
  let graph := default (direct_graph local_channels) route in
  node ← index (RouteGraph.nodes graph) 0;
  _ ← assert_that (forallb
    (λ edge, bool_decide (RouteEdge.channel_id edge ∈ local_channels)) (RouteNode.edges node));
  Ret graph.

(** The configuration [endpoint::run] passes to [EndpointCore::new]. *)
Definition endpoint_config (envelope_key message_key random_seed : list Z)
    (boot_time_ms : Z) (local_channels : list ChannelId) (route : option RouteGraph.t)
    (tuning : EndpointCoreTuning.t) : comp EndpointConfig.t :=
  graph ← route_graph local_channels route;
  Ret {| EndpointConfig.envelope_key := envelope_key;
         EndpointConfig.message_key := message_key;
         EndpointConfig.random_seed := random_seed;
         EndpointConfig.boot_time_ms := boot_time_ms;
         EndpointConfig.kcp := EndpointCoreTuning.kcp tuning;
         EndpointConfig.route := EndpointCoreTuning.route_config tuning graph;
         EndpointConfig.local_channels := local_channels;
         EndpointConfig.padding_reserve := EndpointCoreTuning.padding_reserve tuning;
         EndpointConfig.keepalive_interval_ms :=
           EndpointCoreTuning.keepalive_interval_ms tuning |}.

(** The configuration [relay::run] passes to [RelayCore::new]. *)
Definition relay_config (envelope_key random_seed : list Z) (boot_time_ms : Z)
    (local_channels : list ChannelId) (tuning : RelayCoreTuning.t) : RelayConfig.t :=
  {| RelayConfig.envelope_key := envelope_key;
     RelayConfig.random_seed := random_seed;
     RelayConfig.boot_time_ms := boot_time_ms;
     RelayConfig.local_channels := local_channels;
     RelayConfig.local_min_mtu := RelayCoreTuning.local_min_mtu tuning |}.

(** ** Examples *)

Definition edge (f t : string) (c : Z) : REC.t := REC.Build_t f t c 0 0.

(** Two routes from [in] to [out], given in no particular order. *)
Definition demo_edges : list REC.t :=
  [edge "b" "out" 4; edge "in" "a" 1; edge "a" "b" 3; edge "in" "b" 2].

Example demo_route_built :
  build_route demo_edges = Ret (RouteGraph.Build_t
    [RouteNode.Build_t [RouteEdge.Build_t 1 1 0 0; RouteEdge.Build_t 2 2 0 0];
     RouteNode.Build_t [RouteEdge.Build_t 3 2 0 0];
     RouteNode.Build_t [RouteEdge.Build_t 4 3 0 0];
     RouteNode.Build_t []]).
Proof. by vm_compute. Qed.

Example demo_cycle_panics :
  build_route [edge "in" "a" 1; edge "a" "b" 2; edge "b" "a" 3; edge "b" "out" 4] = Panic.
Proof. by vm_compute. Qed.
