(* ===== verification/ConfigFacts.v ===== *)
(** * Correctness of the route builder

    [build_route] returns exactly on the configurations that describe a route:
    one source, one target, no cycle.  The graph it returns is that
    configuration laid out in a topological order, which is what the planner
    relies on. *)

From stdpp Require Import strings.
From S2P Require Import Prelude Core Routing RoutingPath RoutingFacts Config.

(** ** Related lists *)

Lemma Forall2_in_l {A B} (R : A → B → Prop) l k x :
  Forall2 R l k → x ∈ l → ∃ y, y ∈ k ∧ R x y.
Proof.
  intros HF (i & Hi)%list_elem_of_lookup_1.
  destruct (Forall2_lookup_l _ _ _ _ _ HF Hi) as (y & Hy & HR).
  exists y. split; [by eapply list_elem_of_lookup_2|done].
Qed.

Lemma Forall2_in_r {A B} (R : A → B → Prop) l k y :
  Forall2 R l k → y ∈ k → ∃ x, x ∈ l ∧ R x y.
Proof.
  intros HF (i & Hi)%list_elem_of_lookup_1.
  destruct (Forall2_lookup_r _ _ _ _ _ HF Hi) as (x & Hx & HR).
  exists x. split; [by eapply list_elem_of_lookup_2|done].
Qed.

(** ** Tables over a range *)

Definition tab {A} (n : Z) (f : Z → A) : list A := f <$> seqZ 0 n.

Lemma tab_len {A} n (f : Z → A) : 0 <= n → len (tab n f) = n.
Proof. intros. unfold tab. rewrite len_map. unfold len. rewrite length_seqZ. lia. Qed.

Lemma tab_lookup {A} n (f : Z → A) i :
  0 <= i < n → tab n f !! Z.to_nat i = Some (f i).
Proof.
  intros Hi. unfold tab. rewrite list_lookup_fmap.
  rewrite lookup_seqZ_lt by lia. cbn. do 2 f_equal. lia.
Qed.

Lemma tab_index {A} n (f : Z → A) i : 0 <= i < n → index (tab n f) i = Ret (f i).
Proof.
  intros Hi. apply index_eq; [lia|]. by apply tab_lookup.
Qed.

Lemma tab_ext {A} n (f g : Z → A) : (∀ i, 0 <= i < n → f i = g i) → tab n f = tab n g.
Proof.
  intros H. apply list_fmap_ext. intros k i [-> Hk]%lookup_seqZ. apply H. lia.
Qed.

Lemma tab_store {A} n (f g : Z → A) i :
  0 <= i < n → (∀ j, 0 <= j < n → j ≠ i → g j = f j) →
  store (tab n f) i (g i) = Ret (tab n g).
Proof.
  intros Hi Hg. rewrite store_returns by (rewrite tab_len; lia). f_equal.
  apply list_eq. intros k. destruct (decide (k = Z.to_nat i)) as [->|Hne].
  - rewrite list_lookup_insert_eq by (pose proof (tab_len n f ltac:(lia)); unfold len in *; lia).
    by rewrite tab_lookup.
  - rewrite list_lookup_insert_ne by done. unfold tab. rewrite !list_lookup_fmap.
    destruct (seqZ 0 n !! k) as [j|] eqn:E; [|done]. cbn. apply lookup_seqZ in E as [-> Hk].
    rewrite Hg; [done|lia|lia].
Qed.

Lemma vec_tab {A} n (x : A) : 0 <= n → vec n x = tab n (λ _, x).
Proof.
  intros Hn. unfold vec, tab. apply list_eq. intros k. rewrite list_lookup_fmap.
  destruct (decide (k < Z.to_nat n)%nat).
  - rewrite lookup_replicate_2 by done. by rewrite lookup_seqZ_lt by lia.
  - rewrite (proj1 (lookup_replicate_None _ _ _)) by lia. by rewrite lookup_seqZ_ge by lia.
Qed.

Lemma enumerate_tab {A} n (f : Z → A) :
  0 <= n → enumerate (tab n f) = (λ i, (i, f i)) <$> seqZ 0 n.
Proof.
  intros Hn. unfold enumerate. rewrite tab_len by done. unfold tab.
  induction (seqZ 0 n) as [|i l IH]; [done|]. cbn. by f_equal.
Qed.

(** ** Counting *)

Fixpoint cnt {A} (p : A → bool) (l : list A) : Z :=
  match l with [] => 0 | x :: l => (if p x then 1 else 0) + cnt p l end.

Lemma cnt_app {A} (p : A → bool) l1 l2 : cnt p (l1 ++ l2) = cnt p l1 + cnt p l2.
Proof. induction l1 as [|x l1 IH]; cbn; [done|]. rewrite IH. lia. Qed.

Lemma cnt_range {A} (p : A → bool) l : 0 <= cnt p l <= len l.
Proof.
  induction l as [|x l IH]; [done|]. cbn [cnt]. rewrite len_cons. destruct (p x); lia.
Qed.

Lemma cnt_zero {A} (p : A → bool) l : cnt p l = 0 ↔ ∀ x, x ∈ l → p x = false.
Proof.
  induction l as [|x l IH]; cbn [cnt].
  { split; [|done]. intros _ x Hx. by apply elem_of_nil in Hx. }
  pose proof (cnt_range p l). split.
  - intros H0 y [->|Hy]%elem_of_cons; destruct (p _) eqn:E; try done; try lia.
    apply IH; [lia|done].
  - intros Hall. rewrite (Hall x) by by left. cbn. apply IH. intros y Hy. apply Hall. by right.
Qed.

Lemma cnt_ext {A} (p q : A → bool) l : (∀ x, x ∈ l → p x = q x) → cnt p l = cnt q l.
Proof.
  induction l as [|x l IH]; intros H; cbn [cnt]; [done|].
  rewrite (H x) by by left. rewrite IH; [done|]. intros y Hy. apply H. by right.
Qed.

Lemma cnt_split {A} (p q : A → bool) l :
  cnt p l = cnt (λ x, p x && q x) l + cnt (λ x, p x && negb (q x)) l.
Proof. induction l as [|x l IH]; cbn [cnt]; [done|]. destruct (p x), (q x); cbn; lia. Qed.

Lemma cnt_fmap {A B} (f : A → B) (p : B → bool) l : cnt p (f <$> l) = cnt (λ x, p (f x)) l.
Proof. induction l as [|x l IH]; cbn; [done|]. by rewrite IH. Qed.

Lemma cnt_filter {A} (p q : A → bool) l :
  cnt p (filter (λ x, q x = true) l) = cnt (λ x, q x && p x) l.
Proof.
  induction l as [|x l IH]; [done|]. rewrite filter_cons. cbn [cnt].
  destruct (q x) eqn:E; cbn [decide]; rewrite <- IH.
  - by rewrite decide_True.
  - by rewrite decide_False by congruence.
Qed.

(** ** The numbering of the names *)

Definition names_of (edges : list REC.t) : list string :=
  edges ≫= λ e, [REC.from e; REC.to e].

Record numbering (m : gmap string Z) (names : list string) : Prop := {
  num_dom : ∀ x, is_Some (m !! x) ↔ x ∈ names;
  num_range : ∀ x i, m !! x = Some i → 0 <= i < Z.of_nat (size m);
  num_inj : ∀ x y i, m !! x = Some i → m !! y = Some i → x = y;
  num_surj : ∀ i, 0 <= i < Z.of_nat (size m) → ∃ x, m !! x = Some i;
  num_size : Z.of_nat (size m) <= len names;
}.

Lemma numbering_empty : numbering ∅ [].
Proof.
  split; intros *; rewrite ?map_size_empty; try (rewrite lookup_empty); try done; try lia.
  split; [by intros [? ?]|by intros ?%elem_of_nil].
Qed.

Lemma or_insert_numbering m names x :
  numbering m names → numbering (or_insert m x (Z.of_nat (size m))) (names ++ [x]).
Proof.
  intros [Hd Hr Hi Hs Hn]. unfold or_insert. destruct (m !! x) as [i|] eqn:E.
  - split; try done.
    + intros y. rewrite Hd, elem_of_app, elem_of_cons.
      split; [by left|]. intros [?|[->|?%elem_of_nil]]; [done|by apply Hd; exists i|done].
    + rewrite len_app, len_cons, (@len_nil string). lia.
  - assert (size (<[x:=Z.of_nat (size m)]> m) = S (size m)) as Es by by rewrite map_size_insert_None.
    split; rewrite ?Es.
    + intros y. destruct (decide (y = x)) as [->|Hne].
      * rewrite lookup_insert_eq. split; [|by eauto]. set_solver.
      * rewrite lookup_insert_ne by done. rewrite Hd. set_solver.
    + intros y i. destruct (decide (y = x)) as [->|Hne].
      * rewrite lookup_insert_eq. intros [= <-]. lia.
      * rewrite lookup_insert_ne by done. intros H%Hr. lia.
    + intros y z i. destruct (decide (y = x)) as [->|Hy], (decide (z = x)) as [->|Hz];
        rewrite ?lookup_insert_eq, ?(lookup_insert_ne _ x) by done; [done|..|by apply Hi].
      * intros [= <-] H%Hr. lia.
      * intros H%Hr [= <-]. lia.
    + intros i Hi'. destruct (decide (i = Z.of_nat (size m))) as [->|Hne].
      * exists x. by rewrite lookup_insert_eq.
      * destruct (Hs i) as [y Hy]; [lia|]. exists y. rewrite lookup_insert_ne; [done|]. congruence.
    + rewrite len_app, len_cons, (@len_nil string). lia.
Qed.

Lemma foldl_numbering edges : ∀ m names,
  numbering m names → numbering (foldl index_edge m edges) (names ++ names_of edges).
Proof.
  induction edges as [|e edges IH]; intros m names Hm; [by rewrite app_nil_r|].
  change (names ++ names_of (e :: edges))
    with (names ++ [REC.from e] ++ [REC.to e] ++ names_of edges).
  rewrite !(assoc_L (++)). apply IH. by do 2 apply or_insert_numbering.
Qed.

Lemma name_indexes_spec edges : numbering (name_indexes edges) (names_of edges).
Proof. apply (foldl_numbering edges ∅ []), numbering_empty. Qed.

Lemma elem_of_names edges x :
  x ∈ names_of edges ↔ ∃ e, e ∈ edges ∧ (x = REC.from e ∨ x = REC.to e).
Proof.
  unfold names_of. rewrite list_elem_of_bind. split.
  - intros (e & Hx & He). exists e. split; [done|]. set_solver.
  - intros (e & He & Hx). exists e. set_solver.
Qed.

Lemma names_len edges : len (names_of edges) = 2 * len edges.
Proof. induction edges as [|e edges IH]; [done|]. cbn. rewrite !len_cons. unfold names_of in IH. lia. Qed.

(** ** The graph on indexes *)

Section builder.
Context (edges : list REC.t).
Hypothesis Hsmall : len edges < 2 ^ 30.

Abbreviation m := (name_indexes edges) (only parsing).
Abbreviation n := (Z.of_nat (size (name_indexes edges))) (only parsing).

(** The index of a name. *)
Definition ix (x : string) : Z := default 0 (m !! x).
Definition tail (e : REC.t) : Z := ix (REC.from e).
Definition head (e : REC.t) : Z := ix (REC.to e).

Lemma n_small : 0 <= n < 2 ^ 31.
Proof.
  pose proof (num_size _ _ (name_indexes_spec edges)) as H. rewrite names_len in H. lia.
Qed.

Lemma ix_name x : x ∈ names_of edges → m !! x = Some (ix x) ∧ 0 <= ix x < n.
Proof.
  intros Hx. apply (num_dom _ _ (name_indexes_spec edges)) in Hx as [i Hi].
  unfold ix. rewrite Hi. split; [done|]. by eapply (num_range _ _ (name_indexes_spec edges)).
Qed.

Lemma ix_inj x y : x ∈ names_of edges → y ∈ names_of edges → ix x = ix y → x = y.
Proof.
  intros [Hx _]%ix_name [Hy _]%ix_name He. rewrite He in Hx.
  by eapply (num_inj _ _ (name_indexes_spec edges)).
Qed.

Lemma ix_surj i : 0 <= i < n → ∃ x, x ∈ names_of edges ∧ ix x = i.
Proof.
  intros [x Hx]%(num_surj _ _ (name_indexes_spec edges)). exists x.
  split; [apply (num_dom _ _ (name_indexes_spec edges)); by eauto|]. unfold ix. by rewrite Hx.
Qed.

Lemma edge_names e : e ∈ edges → REC.from e ∈ names_of edges ∧ REC.to e ∈ names_of edges.
Proof. intros He. split; apply elem_of_names; eauto. Qed.

Lemma edge_range e : e ∈ edges → 0 <= tail e < n ∧ 0 <= head e < n.
Proof. intros [Hf Ht]%edge_names. split; by apply ix_name. Qed.

Definition route_edge (next : Z) (e : REC.t) : RouteEdge.t :=
  {| RouteEdge.channel_id := REC.channel e;
     RouteEdge.next := next;
     RouteEdge.capacity_hint_kbps := REC.capacity_hint_kbps e;
     RouteEdge.latency_hint_ms := REC.latency_hint_ms e |}.

(** The edges of [es] out of node [i], in order. *)
Definition leaving (es : list REC.t) (i : Z) : list REC.t :=
  filter (λ e, (tail e =? i) = true) es.

Definition node_of (es : list REC.t) (i : Z) : RouteNode.t :=
  RouteNode.Build_t ((λ e, route_edge (head e) e) <$> leaving es i).

Definition entering (es : list REC.t) (i : Z) : Z := cnt (λ e, head e =? i) es.

Definition loop_free (e : REC.t) : bool := negb (tail e =? head e).

Lemma leaving_app es es' i : leaving (es ++ es') i = leaving es i ++ leaving es' i.
Proof. apply filter_app. Qed.

Lemma elem_of_leaving es i e : e ∈ leaving es i ↔ e ∈ es ∧ tail e = i.
Proof.
  unfold leaving. rewrite list_elem_of_filter, Z.eqb_eq. tauto.
Qed.

Lemma connect_eq done e :
  e ∈ edges → len done < 2 ^ 30 →
  connect m e (tab n (node_of done), tab n (entering done))
  = if loop_free e
    then Ret (tab n (node_of (done ++ [e])), tab n (entering (done ++ [e])))
    else Panic.
Proof.
  intros He Hd. destruct (edge_range e He) as [Ht Hh]. destruct (edge_names e He) as [Hf Hto].
  pose proof n_small as Hn. pose proof (cnt_range (λ e', head e' =? head e) done) as Hc.
  unfold connect. rewrite (proj1 (ix_name _ Hf)), (proj1 (ix_name _ Hto)).
  cbn [unwrap mbind comp_bind]. fold (tail e). fold (head e). unfold loop_free.
  destruct (Z.eqb_spec (tail e) (head e)) as [|Hne]; [done|].
  cbn [negb assert_that mbind comp_bind].
  rewrite (tab_index n (entering done) (head e)) by done. cbn [mbind comp_bind].
  fold (entering done (head e)) in Hc. rewrite as_i32_small by lia.
  replace (entering done (head e) + 1) with (entering (done ++ [e]) (head e)).
  2:{ unfold entering. rewrite cnt_app. cbn. rewrite Z.eqb_refl. lia. }
  rewrite tab_store; [|done|].
  2:{ intros j _ Hj. unfold entering. rewrite cnt_app. cbn.
      destruct (Z.eqb_spec (head e) j); [congruence|lia]. }
  cbn [mbind comp_bind].
  rewrite (tab_index n (node_of done) (tail e)) by done. cbn [mbind comp_bind].
  rewrite (wrap_id 32) by lia.
  fold (route_edge (head e) e).
  replace (RouteNode.Build_t (RouteNode.edges (node_of done (tail e)) ++ [route_edge (head e) e]))
    with (node_of (done ++ [e]) (tail e)).
  2:{ unfold node_of. rewrite leaving_app, fmap_app. cbn [RouteNode.edges]. do 2 f_equal.
      unfold leaving. by rewrite filter_cons, decide_True by by rewrite Z.eqb_refl. }
  rewrite tab_store; [done|done|].
  intros j _ Hj. unfold node_of. rewrite leaving_app, fmap_app.
  unfold leaving at 2. rewrite filter_cons, decide_False by (rewrite Z.eqb_eq; congruence).
  by rewrite app_nil_r.
Qed.

Lemma connect_all es : ∀ done,
  done ++ es = edges →
  for_each es (connect m) (tab n (node_of done), tab n (entering done))
  = if forallb loop_free es then Ret (tab n (node_of edges), tab n (entering edges)) else Panic.
Proof.
  induction es as [|e es IH]; intros done Hd; cbn [for_each forallb].
  { by rewrite app_nil_r in Hd; subst done. }
  rewrite connect_eq.
  - destruct (loop_free e); [|done]. cbn [mbind comp_bind andb].
    apply IH. by rewrite <- Hd, <- app_assoc.
  - rewrite <- Hd. set_solver.
  - rewrite <- Hd in Hsmall. rewrite len_app in Hsmall. pose proof (len_nonneg (e :: es)). lia.
Qed.

(** The sources are the nodes no edge enters. *)
Lemma sources_eq :
  sources_of (tab n (entering edges)) = filter (λ i, entering edges i = 0) (seqZ 0 n).
Proof.
  unfold sources_of. rewrite enumerate_tab by lia.
  induction (seqZ 0 n) as [|i l IH]; [done|]. rewrite fmap_cons, !filter_cons. cbn [snd].
  destruct (decide (entering edges i = 0)); cbn; by rewrite IH.
Qed.

Lemma sinks_eq :
  len (filter (λ node, is_sink node = true) (tab n (node_of edges)))
  = len (filter (λ i, leaving edges i = []) (seqZ 0 n)).
Proof.
  unfold tab. induction (seqZ 0 n) as [|i l IH]; [done|]. rewrite fmap_cons, !filter_cons.
  assert (is_sink (node_of edges i) = true ↔ leaving edges i = []) as Hi
    by (unfold is_sink, node_of; cbn; by destruct (leaving edges i)).
  destruct (decide (leaving edges i = [])) as [E|E].
  - rewrite decide_True by by apply Hi. by rewrite !len_cons, IH.
  - rewrite decide_False by by rewrite Hi. exact IH.
Qed.

(** A filter of a range has one element exactly when one index satisfies it. *)
Lemma filter_one (P : Z → Prop) `{!∀ i, Decision (P i)} :
  len (filter P (seqZ 0 n)) = 1 ↔ ∃ i, filter P (seqZ 0 n) = [i] ∧ ∀ j, 0 <= j < n ∧ P j ↔ j = i.
Proof.
  split; [|by intros (i & -> & _)]. intros Hl.
  destruct (filter P (seqZ 0 n)) as [|i [|j l]] eqn:E.
  - done.
  - exists i. split; [done|]. intros j.
    transitivity (j ∈ filter P (seqZ 0 n)).
    + rewrite list_elem_of_filter, elem_of_seqZ. split; intros []; split_and?; try done; lia.
    + rewrite E. set_solver.
  - unfold len in Hl. cbn in Hl. lia.
Qed.

(** ** The topological order *)

(** The edges into [j] whose tail is not in [order]. *)
Definition rem (order : list Z) (j : Z) : Z :=
  cnt (λ e, (head e =? j) && negb (bool_decide (tail e ∈ order))) edges.

Lemma rem_small order j : 0 <= rem order j < 2 ^ 30.
Proof. unfold rem. pose proof (cnt_range (λ e, (head e =? j) &&
  negb (bool_decide (tail e ∈ order))) edges). lia. Qed.

Lemma rem_zero order j : rem order j = 0 ↔ ∀ e, e ∈ edges → head e = j → tail e ∈ order.
Proof.
  unfold rem. rewrite cnt_zero. split; intros H e He.
  - intros Hj. specialize (H e He). rewrite Hj, Z.eqb_refl in H. cbn in H.
    by apply negb_false_iff, bool_decide_eq_true in H.
  - destruct (Z.eqb_spec (head e) j) as [Hj|]; [|done]. cbn.
    by apply negb_false_iff, bool_decide_eq_true, H.
Qed.

Lemma rem_nil j : rem [] j = entering edges j.
Proof.
  apply cnt_ext. intros e _. rewrite bool_decide_eq_false_2 by apply not_elem_of_nil.
  by rewrite andb_true_r.
Qed.

(** Taking [u] out releases its edges. *)
Lemma rem_snoc order u j :
  u ∉ order → rem order j = rem (order ++ [u]) j + entering (leaving edges u) j.
Proof.
  intros Hu. unfold rem, entering, leaving. rewrite cnt_filter.
  rewrite (cnt_split _ (λ e, tail e =? u)), Z.add_comm. f_equal; apply cnt_ext; intros e _.
  - destruct (Z.eqb_spec (tail e) u) as [He|He]; cbn.
    + rewrite andb_false_r, He. rewrite (bool_decide_eq_true_2 (u ∈ _)) by set_solver.
      by rewrite andb_false_r.
    + rewrite andb_true_r. do 2 f_equal. apply bool_decide_ext. set_solver.
  - destruct (Z.eqb_spec (tail e) u) as [He|He]; cbn; [|by rewrite andb_false_r].
    rewrite He, bool_decide_eq_false_2 by done. by rewrite !andb_true_r.
Qed.

(** What holds of the queue and the order: together they list, in an order in
    which every edge points backwards, the nodes whose edges were all released. *)
Record kahn (st : Sorting.t) : Prop := {
  kahn_nodup : NoDup (Sorting.order st ++ Sorting.ready st);
  kahn_range : ∀ v, v ∈ Sorting.order st ++ Sorting.ready st → 0 <= v < n;
  kahn_degree : Sorting.indegree st = tab n (rem (Sorting.order st));
  kahn_ready : ∀ v, 0 <= v < n →
    v ∈ Sorting.order st ++ Sorting.ready st ↔ rem (Sorting.order st) v = 0;
  kahn_topo : ∀ l1 v l2, Sorting.order st ++ Sorting.ready st = l1 ++ v :: l2 →
    ∀ e, e ∈ edges → head e = v → tail e ∈ l1;
}.

Lemma kahn_start :
  kahn (Sorting.Build_t (filter (λ i, entering edges i = 0) (seqZ 0 n)) []
          (tab n (entering edges))).
Proof.
  split; cbn [Sorting.order Sorting.ready Sorting.indegree app].
  - apply NoDup_filter, NoDup_seqZ.
  - intros v [_ Hv%elem_of_seqZ]%list_elem_of_filter. lia.
  - apply tab_ext. intros i _. by rewrite rem_nil.
  - intros v Hv. rewrite rem_nil, list_elem_of_filter, elem_of_seqZ. split; [by intros []|].
    intros. split; [done|lia].
  - intros l1 v l2 Hl e He Hv. exfalso.
    assert (v ∈ filter (λ i, entering edges i = 0) (seqZ 0 n)) as [H0 _]%list_elem_of_filter
      by (rewrite Hl; set_solver).
    rewrite <- rem_nil, rem_zero in H0. by specialize (H0 e He Hv) as ?%elem_of_nil.
Qed.

(** The queue while the edges [done] of the node [u] are released. *)
Definition releasing (order : list Z) (u : Z) (rest : list Z) (done : list REC.t)
    (st : list Z * list Z) : Prop :=
  ∃ new, st = (rest ++ new, tab n (λ j, rem order j - entering done j))
    ∧ NoDup ((order ++ u :: rest) ++ new) ∧ (∀ v, v ∈ new → 0 <= v < n)
    ∧ ∀ v, 0 <= v < n →
        v ∈ (order ++ u :: rest) ++ new ↔ rem order v - entering done v = 0.

Lemma release_step order u rest done e es st :
  u ∉ order → done ++ e :: es = leaving edges u → releasing order u rest done st →
  ∃ st', release_edge (route_edge (head e) e) st = Ret st'
    ∧ releasing order u rest (done ++ [e]) st'.
Proof.
  intros Hu Hd (new & -> & Hnd & Hr & Hz).
  assert (e ∈ leaving edges u) as [He Htail]%elem_of_leaving by (rewrite <- Hd; set_solver).
  destruct (edge_range e He) as [_ Hh]. set (j := head e) in *.
  assert (∀ i, entering (done ++ [e]) i = entering done i + if j =? i then 1 else 0) as Hstep.
  { intros i. unfold entering. rewrite cnt_app. cbn. fold j. lia. }
  assert (∀ i, entering (done ++ [e]) i <= rem order i ∧ 0 <= entering done i) as Hle.
  { intros i. rewrite (rem_snoc order u i Hu), <- Hd.
    pose proof (rem_small (order ++ [u]) i). unfold entering.
    replace (done ++ e :: es) with ((done ++ [e]) ++ es) by by rewrite <- app_assoc.
    rewrite (cnt_app _ (done ++ [e])).
    pose proof (cnt_range (λ e', head e' =? i) es). pose proof (cnt_range (λ e', head e' =? i) done).
    lia. }
  pose proof (rem_small order j) as Hrem. pose proof (Hle j) as Hj. rewrite Hstep, Z.eqb_refl in Hj.
  unfold release_edge. cbn [route_edge RouteEdge.next].
  rewrite (tab_index n (λ i, rem order i - entering done i) j) by done. cbn [mbind comp_bind].
  rewrite as_i32_small by lia.
  replace (rem order j - entering done j - 1) with (rem order j - entering (done ++ [e]) j)
    by (rewrite Hstep, Z.eqb_refl; lia).
  rewrite (tab_store n _ (λ i, rem order i - entering (done ++ [e]) i) j); [|done|].
  2:{ intros i _ Hi. rewrite Hstep. destruct (Z.eqb_spec j i); [congruence|lia]. }
  cbn [mbind comp_bind]. eexists; split; [done|].
  assert (∀ v, v ≠ j → rem order v - entering (done ++ [e]) v = rem order v - entering done v) as Hne.
  { intros v Hv. rewrite Hstep. destruct (Z.eqb_spec j v); [congruence|lia]. }
  assert (j ∉ (order ++ u :: rest) ++ new) as Hnew by (rewrite Hz by done; lia).
  destruct (Z.eqb_spec (rem order j - entering (done ++ [e]) j) 0) as [H0|H0].
  - exists (new ++ [j]). rewrite !(assoc_L (++)). split_and!; [done| | |].
    + apply NoDup_app. split; [done|]. split; [|apply NoDup_singleton].
      intros v Hv ->%list_elem_of_singleton. done.
    + intros v [Hv| ->%list_elem_of_singleton]%elem_of_app; [by apply Hr|done].
    + intros v Hv. rewrite elem_of_app, list_elem_of_singleton.
      destruct (decide (v = j)) as [->|Hvj]; [tauto|]. rewrite Hne by done. rewrite Hz by done. tauto.
  - exists new. split_and!; [done|done|done|]. intros v Hv.
    destruct (decide (v = j)) as [->|Hvj]; [tauto|]. rewrite Hne by done. by apply Hz.
Qed.

Lemma release_all order u rest es : ∀ done st,
  u ∉ order → done ++ es = leaving edges u → releasing order u rest done st →
  ∃ st', for_each ((λ e, route_edge (head e) e) <$> es) release_edge st = Ret st'
    ∧ releasing order u rest (leaving edges u) st'.
Proof.
  induction es as [|e es IH]; intros done st Hu Hd Hst; cbn [fmap list_fmap for_each].
  - rewrite app_nil_r in Hd. subst done. by exists st.
  - destruct (release_step order u rest done e es st) as (st1 & -> & H1); [done..|].
    cbn [mbind comp_bind]. apply (IH (done ++ [e])); [done|by rewrite <- app_assoc|done].
Qed.

(** Splitting a list that ends in [new]. *)
Lemma app_split_cases {A} (l new l1 : list A) v l2 :
  l ++ new = l1 ++ v :: l2 →
  (∃ l3, l = l1 ++ v :: l3) ∨ (v ∈ new ∧ ∃ l3, l1 = l ++ l3).
Proof.
  intros [(k & -> & Hk)|(k & -> & ->)]%app_eq_inv.
  - destruct k as [|y k]; cbn in Hk.
    + right. rewrite <- Hk. split; [by left|]. exists []. by rewrite !app_nil_r.
    + injection Hk as -> _. left. by exists k.
  - right. split; [set_solver|by exists k].
Qed.

Lemma visit_kahn st :
  kahn st → has_ready st = true →
  ∃ st', visit (tab n (node_of edges)) st = Ret st' ∧ kahn st'
    ∧ length (Sorting.order st') = S (length (Sorting.order st)).
Proof.
  destruct st as [ready order indegree]. intros Hk Hr. unfold visit, has_ready in *.
  cbn [Sorting.ready Sorting.order Sorting.indegree] in *. destruct ready as [|u rest]; [done|].
  destruct Hk as [Hnd Hrange Hdeg Hready Htopo].
  cbn [Sorting.ready Sorting.order Sorting.indegree] in *. subst indegree.
  assert (0 <= u < n) as Hu by (apply Hrange; set_solver).
  assert (u ∉ order) as Huo by (apply NoDup_app in Hnd as (_ & H & _); set_solver).
  rewrite (tab_index n (node_of edges) u) by done. cbn [mbind comp_bind node_of RouteNode.edges].
  destruct (release_all order u rest (leaving edges u) [] (rest, tab n (rem order)))
    as (st' & -> & new & -> & Hnd' & Hrange' & Hz); [done|done| |].
  { exists []. rewrite !app_nil_r. split_and!; [|done|by intros v ?%elem_of_nil|].
    - f_equal. apply tab_ext. intros. unfold entering. cbn. lia.
    - intros v Hv. rewrite Z.sub_0_r. by apply Hready. }
  cbn [mbind comp_bind]. eexists; split; [done|]. split; [|cbn; rewrite length_app; cbn; lia].
  assert ((order ++ [u]) ++ rest ++ new = (order ++ u :: rest) ++ new) as HQ
    by by rewrite <- !app_assoc.
  assert (∀ v, rem order v - entering (leaving edges u) v = rem (order ++ [u]) v) as Hrem
    by (intros v; rewrite (rem_snoc order u v Huo); lia).
  split; cbn [Sorting.ready Sorting.order Sorting.indegree]; rewrite ?HQ.
  - done.
  - intros v [Hv|Hv]%elem_of_app; [by apply Hrange|by apply Hrange'].
  - apply tab_ext. auto.
  - intros v Hv. rewrite Hz by done. by rewrite Hrem.
  - intros l1 v l2 [(l3 & Hl)|(Hv & l3 & ->)]%app_split_cases e He Hhead; [by eapply Htopo|].
    pose proof (Hrange' v Hv) as Hvr.
    assert (rem (order ++ [u]) v = 0) as H0
      by (rewrite <- Hrem; apply Hz; [done|set_solver]).
    pose proof (proj1 (rem_zero _ _) H0 e He Hhead). set_solver.
Qed.

Lemma kahn_length st : kahn st → (length (Sorting.order st) <= Z.to_nat n)%nat.
Proof.
  intros Hk. pose proof (kahn_nodup _ Hk) as [Hnd _]%NoDup_app.
  assert (Sorting.order st ⊆+ seqZ 0 n) as Hs.
  { apply NoDup_submseteq; [done|]. intros v Hv. apply elem_of_seqZ.
    assert (0 <= v < n) by (apply (kahn_range _ Hk); set_solver). lia. }
  apply submseteq_length in Hs. by rewrite length_seqZ in Hs.
Qed.

Lemma topological_order_spec :
  ∃ st, topological_order (tab n (node_of edges))
      (filter (λ i, entering edges i = 0) (seqZ 0 n)) (tab n (entering edges)) = Ret st
    ∧ kahn st ∧ Sorting.ready st = [].
Proof.
  unfold topological_order.
  destruct (while_total kahn (λ st, Z.to_nat n - length (Sorting.order st))%nat has_ready
    (visit (tab n (node_of edges))) (length (tab n (node_of edges)))
    (Sorting.Build_t (filter (λ i, entering edges i = 0) (seqZ 0 n)) [] (tab n (entering edges))))
    as (st & Hst & Hk & Hr).
  - intros st Hk Hr. destruct (visit_kahn st Hk Hr) as (st' & Hv & Hk' & Hl).
    exists st'. split_and!; [done|done|]. pose proof (kahn_length _ Hk'). lia.
  - apply kahn_start.
  - cbn. unfold tab. rewrite length_fmap, length_seqZ. lia.
  - exists st. split_and!; [done|done|]. unfold has_ready in Hr. by destruct (Sorting.ready st).
Qed.

(** ** Acyclic configurations *)

Definition acyclic : Prop :=
  ∃ rank : string → nat, ∀ e, e ∈ edges → (rank (REC.from e) < rank (REC.to e))%nat.

Fixpoint index_of (l : list Z) (v : Z) : nat :=
  match l with [] => O | x :: l => if decide (x = v) then O else S (index_of l v) end.

Lemma index_of_app l1 l2 v : v ∉ l1 → index_of (l1 ++ v :: l2) v = length l1.
Proof.
  induction l1 as [|x l1 IH]; cbn; intros H; [by rewrite decide_True|].
  rewrite decide_False by set_solver. rewrite IH; [done|set_solver].
Qed.

Lemma index_of_lt l1 l2 v : v ∈ l1 → (index_of (l1 ++ l2) v < length l1)%nat.
Proof.
  induction l1 as [|x l1 IH]; [by intros ?%elem_of_nil|]. intros Hv. cbn.
  destruct (decide (x = v)); [lia|]. apply elem_of_cons in Hv as [->|Hv]; [done|].
  specialize (IH Hv). lia.
Qed.

Lemma index_of_lookup l v i : NoDup l → l !! i = Some v → index_of l v = i.
Proof.
  intros Hnd Hi. pose proof (take_drop_middle l i v Hi) as Hl.
  rewrite <- Hl in Hnd |- *. apply NoDup_app in Hnd as (_ & Hd & _).
  rewrite index_of_app by (intros Hv; apply (Hd v Hv); by left).
  rewrite length_take_le; [done|]. apply lookup_lt_Some in Hi. lia.
Qed.

Lemma lookup_index_of l v : v ∈ l → l !! index_of l v = Some v.
Proof.
  induction l as [|x l IH]; [by intros ?%elem_of_nil|]. intros Hv. cbn.
  destruct (decide (x = v)) as [->|]; [done|]. cbn. apply IH. set_solver.
Qed.

Section ordered.
Context (order : list Z) (indegree : list Z).
Hypothesis Hk : kahn (Sorting.Build_t [] order indegree).

Lemma order_nodup : NoDup order.
Proof. pose proof (kahn_nodup _ Hk) as H. cbn in H. by rewrite app_nil_r in H. Qed.

Lemma order_complete_iff : len order = n ↔ ∀ v, v ∈ order ↔ 0 <= v < n.
Proof.
  pose proof order_nodup as Hnd.
  assert (∀ v, v ∈ order → 0 <= v < n) as Hr.
  { intros v Hv. apply (kahn_range _ Hk). cbn. by rewrite app_nil_r. }
  split.
  - intros Hl v. split; [apply Hr|]. intros Hv.
    assert (order ≡ₚ seqZ 0 n) as ->.
    { apply submseteq_length_Permutation.
      - apply NoDup_submseteq; [done|]. intros w Hw. apply elem_of_seqZ. specialize (Hr w Hw). lia.
      - rewrite length_seqZ. unfold len in Hl. lia. }
    apply elem_of_seqZ. lia.
  - intros Hall. assert (order ≡ₚ seqZ 0 n) as HP.
    { apply NoDup_Permutation; [done|apply NoDup_seqZ|]. intros v. rewrite Hall, elem_of_seqZ. lia. }
    unfold len. rewrite HP, length_seqZ. lia.
Qed.

(** An edge leads to a later position. *)
Lemma order_forward e :
  e ∈ edges → head e ∈ order → (index_of order (tail e) < index_of order (head e))%nat.
Proof.
  intros He Hh. apply list_elem_of_split in Hh as (l1 & l2 & Hl).
  assert (tail e ∈ l1) as Ht.
  { eapply (kahn_topo _ Hk); [cbn; rewrite app_nil_r; exact Hl|done|done]. }
  pose proof order_nodup as Hnd. rewrite Hl in *. apply NoDup_app in Hnd as (_ & Hd & _).
  rewrite index_of_app by (intros Hv; apply (Hd _ Hv); by left). by apply index_of_lt.
Qed.

Lemma order_complete_acyclic : len order = n ↔ acyclic.
Proof.
  rewrite order_complete_iff. split.
  - intros Hall. exists (λ x, index_of order (ix x)). intros e He.
    apply order_forward; [done|]. apply Hall. by apply edge_range.
  - intros (rank & Hrank) v. split.
    { intros Hv. apply (kahn_range _ Hk). cbn. by rewrite app_nil_r. }
    intros (x & Hx & <-)%ix_surj. remember (rank x) as k eqn:Ek. revert x Hx Ek.
    induction (lt_wf k) as [k _ IH]. intros x Hx ->.
    pose proof (kahn_ready _ Hk (ix x) (proj2 (ix_name x Hx))) as Hr. cbn in Hr.
    rewrite app_nil_r in Hr. apply Hr, rem_zero. intros e He Hh.
    destruct (edge_names e He) as [Hf Ht]. apply ix_inj in Hh as <-; [|done..].
    by eapply (IH (rank (REC.from e))); [apply Hrank|..].
Qed.

End ordered.

(** ** Positions and the final graph *)

Lemma mapM_Ret {A B} (f : A → comp B) (g : A → B) l :
  (∀ x, x ∈ l → f x = Ret (g x)) → mapM f l = Ret (g <$> l).
Proof.
  induction l as [|x l IH]; intros H; [done|]. cbn. rewrite (H x) by by left. cbn.
  rewrite IH; [done|]. intros y Hy. apply H. by right.
Qed.

Lemma place_all order rest : ∀ done,
  NoDup order → (∀ v, v ∈ order → 0 <= v < n) → done ++ rest = order →
  for_each (zip (seqZ (len done) (len rest)) rest) place
    (tab n (λ v, if bool_decide (v ∈ done) then Z.of_nat (index_of order v) else 0))
  = Ret (tab n (λ v, if bool_decide (v ∈ order) then Z.of_nat (index_of order v) else 0)).
Proof.
  induction rest as [|v rest IH]; intros done Hnd Hr Ho.
  { rewrite app_nil_r in Ho. subst done. by destruct (seqZ _ _). }
  rewrite len_cons. rewrite seqZ_cons by (pose proof (len_nonneg rest); lia).
  replace (Z.succ (len done)) with (len (done ++ [v]))
    by (rewrite len_app, len_cons, (@len_nil Z); lia).
  replace (Z.pred (1 + len rest)) with (len rest) by lia.
  cbn [zip zip_with for_each place].
  assert (index_of order v = length done) as Hi.
  { rewrite <- Ho in Hnd |- *. apply NoDup_app in Hnd as (_ & Hd & _).
    apply index_of_app. intros Hv. apply (Hd v Hv). by left. }
  pose proof n_small as Hn. assert (0 <= v < n) as Hv by (apply Hr; rewrite <- Ho; set_solver).
  assert (len done < 2 ^ 31) as Hd.
  { assert (order ⊆+ seqZ 0 n) as Hs%submseteq_length.
    { apply NoDup_submseteq; [done|]. intros w Hw. apply elem_of_seqZ. specialize (Hr w Hw). lia. }
    rewrite length_seqZ, <- Ho, length_app in Hs. cbn [length] in Hs. unfold len. lia. }
  rewrite wrap_id by (pose proof (len_nonneg done); lia).
  set (f := λ w, if bool_decide (w ∈ done) then Z.of_nat (index_of order w) else 0).
  set (g := λ w, if bool_decide (w ∈ done ++ [v]) then Z.of_nat (index_of order w) else 0).
  assert (g v = len done) as <-.
  { unfold g. rewrite bool_decide_eq_true_2 by set_solver. by rewrite Hi. }
  rewrite tab_store; [|done|].
  2:{ intros w _ Hw. unfold f, g. by rewrite (bool_decide_ext (w ∈ done ++ [v]) (w ∈ done)) by set_solver. }
  cbn [mbind comp_bind]. apply (IH (done ++ [v])); [done|done|by rewrite <- app_assoc].
Qed.

Definition position (order : list Z) (v : Z) : Z := Z.of_nat (index_of order v).

(** The node [i] of the configuration, with the positions of [order]. *)
Definition laid_node (order : list Z) (i : Z) : RouteNode.t :=
  RouteNode.Build_t ((λ e, route_edge (position order (head e)) e) <$> leaving edges i).

Lemma renumber_all order :
  NoDup order → (∀ v, v ∈ order ↔ 0 <= v < n) →
  (positions ← for_each (enumerate order) place (vec n 0);
   mapM (renumber (tab n (node_of edges)) positions) order)
  = Ret (laid_node order <$> order).
Proof.
  intros Hnd Hall. pose proof n_small as Hn. rewrite vec_tab by lia. unfold enumerate.
  change (for_each _ _ _) with (for_each (zip (seqZ (len (@nil Z)) (len order)) order) place
    (tab n (λ v, if bool_decide (v ∈ []) then Z.of_nat (index_of order v) else 0))).
  rewrite place_all by (done || apply Hall). cbn [mbind comp_bind].
  rewrite (tab_ext n _ (position order)).
  2:{ intros v Hv. by rewrite bool_decide_eq_true_2 by by apply Hall. }
  apply mapM_Ret. intros u Hu%Hall. unfold renumber.
  rewrite (tab_index n (node_of edges) u) by done. cbn [mbind comp_bind node_of RouteNode.edges].
  rewrite (mapM_Ret _ (λ r, RouteEdge.Build_t (RouteEdge.channel_id r)
    (position order (RouteEdge.next r)) (RouteEdge.capacity_hint_kbps r)
    (RouteEdge.latency_hint_ms r))).
  - cbn [mbind comp_bind]. unfold laid_node. by rewrite <- list_fmap_compose.
  - intros r (e & -> & [He _]%elem_of_leaving)%list_elem_of_fmap. unfold renumber_edge.
    rewrite (tab_index n (position order)); [done|]. cbn. by apply edge_range.
Qed.

(** ** The builder as a whole *)

Definition one_source : Prop :=
  ∃ i, ∀ j, 0 <= j < n ∧ entering edges j = 0 ↔ j = i.
Definition one_sink : Prop :=
  ∃ i, ∀ j, 0 <= j < n ∧ leaving edges j = [] ↔ j = i.

Lemma acyclic_loop_free : acyclic → forallb loop_free edges = true.
Proof.
  intros (rank & Hr). apply forallb_forall. intros e He%list_elem_of_In.
  unfold loop_free. destruct (Z.eqb_spec (tail e) (head e)) as [Heq|]; [|done].
  destruct (edge_names e He) as [Hf Ht]. apply ix_inj in Heq; [|done..].
  specialize (Hr e He). rewrite Heq in Hr. lia.
Qed.

Lemma filter_len_one (P : Z → Prop) `{!∀ i, Decision (P i)} :
  (len (filter P (seqZ 0 n)) =? 1) = true ↔ ∃ i, ∀ j, 0 <= j < n ∧ P j ↔ j = i.
Proof.
  rewrite Z.eqb_eq, filter_one. split; [by intros (i & _ & Hi); exists i|].
  intros (i & Hone). exists i. split; [|done].
  assert (filter P (seqZ 0 n) ≡ₚ [i]) as HP%Permutation_singleton_r; [|done].
  apply NoDup_Permutation; [apply NoDup_filter, NoDup_seqZ|apply NoDup_singleton|].
  intros j. rewrite list_elem_of_filter, elem_of_seqZ, list_elem_of_singleton, <- Hone.
  split; intros [? ?]; split; try done; lia.
Qed.

Lemma build_route_cases :
  (one_source ∧ one_sink ∧ acyclic ∧ ∃ order indegree,
     build_route edges = Ret (RouteGraph.Build_t (laid_node order <$> order))
     ∧ kahn (Sorting.Build_t [] order indegree) ∧ len order = n)
  ∨ (¬ (one_source ∧ one_sink ∧ acyclic) ∧ build_route edges = Panic).
Proof.
  pose proof n_small as Hn. unfold build_route. cbn zeta.
  destruct (decide (length edges = 0%nat)) as [Hnil|Hne].
  { right. rewrite bool_decide_eq_true_2 by done. split; [|done].
    intros [[i Hi] _]. destruct (proj2 (Hi i) eq_refl) as [Hr _].
    pose proof (num_size _ _ (name_indexes_spec edges)) as Hs.
    rewrite names_len in Hs. unfold len in Hs. lia. }
  rewrite bool_decide_eq_false_2 by done. cbn [negb assert_that mbind comp_bind].
  rewrite !(vec_tab n) by lia.
  change (tab n (λ _, RouteNode.Build_t [])) with (tab n (node_of [])).
  change (tab n (λ _, 0)) with (tab n (entering [])).
  rewrite (connect_all edges []) by done.
  destruct (forallb loop_free edges) eqn:Hloop.
  2:{ right. split; [|done]. intros (_ & _ & Hac%acyclic_loop_free). congruence. }
  cbn [mbind comp_bind]. rewrite sources_eq, sinks_eq, tab_len by lia.
  pose proof (filter_len_one (λ i, entering edges i = 0)) as Hsrc. fold one_source in Hsrc.
  pose proof (filter_len_one (λ i, leaving edges i = [])) as Hsnk. fold one_sink in Hsnk.
  destruct (_ =? 1) eqn:E1 in Hsrc |- *; cbn [assert_that mbind comp_bind].
  2:{ right. split; [|done]. by intros [?%Hsrc _]. }
  destruct (_ =? 1) eqn:E2 in Hsnk |- *; cbn [assert_that mbind comp_bind].
  2:{ right. split; [|done]. by intros (_ & ?%Hsnk & _). }
  destruct topological_order_spec as ([ready order indegree] & -> & Hk & Hr).
  cbn in Hr. subst ready. cbn [mbind comp_bind Sorting.order].
  pose proof (order_complete_acyclic order indegree Hk) as Hac.
  destruct (Z.eqb_spec (len order) n) as [Hl|Hl]; cbn [assert_that mbind comp_bind].
  2:{ right. split; [|done]. by intros (_ & _ & ?%Hac). }
  left. split_and!; [by apply Hsrc|by apply Hsnk|by apply Hac|].
  exists order, indegree. split_and!; [|done|done].
  pose proof (renumber_all order (order_nodup _ _ Hk)
    (proj1 (order_complete_iff _ _ Hk) Hl)) as Hre.
  destruct (for_each (enumerate order) place (vec n 0)) as [positions| |]; try done.
  cbn [mbind comp_bind] in Hre |- *. by rewrite Hre.
Qed.

(** ** The layout of a configuration *)

Definition is_source (x : string) : Prop :=
  x ∈ names_of edges ∧ ∀ e, e ∈ edges → REC.to e ≠ x.
Definition is_target (x : string) : Prop :=
  x ∈ names_of edges ∧ ∀ e, e ∈ edges → REC.from e ≠ x.

(** What describes a route: one source, one target, no cycle. *)
Definition route_ok : Prop :=
  (∃ s, ∀ x, is_source x ↔ x = s) ∧ (∃ t, ∀ x, is_target x ↔ x = t) ∧ acyclic.

Lemma entering_zero j : entering edges j = 0 ↔ ∀ e, e ∈ edges → head e ≠ j.
Proof.
  unfold entering. rewrite cnt_zero. split; intros H e He; specialize (H e He);
    by apply Z.eqb_neq.
Qed.

Lemma leaving_nil j : leaving edges j = [] ↔ ∀ e, e ∈ edges → tail e ≠ j.
Proof.
  split.
  - intros H e He Ht. assert (e ∈ leaving edges j) as Hin by by apply elem_of_leaving.
    rewrite H in Hin. by apply elem_of_nil in Hin.
  - intros H. destruct (leaving edges j) as [|e l] eqn:E; [done|].
    assert (e ∈ leaving edges j) as [He Ht]%elem_of_leaving by (rewrite E; by left).
    by destruct (H e He).
Qed.

Lemma source_index x : x ∈ names_of edges → is_source x ↔ entering edges (ix x) = 0.
Proof.
  intros Hx. rewrite entering_zero. unfold is_source. split.
  - intros [_ H] e He Hh. apply (H e He). apply ix_inj; [|done|done]. by apply edge_names.
  - intros H. split; [done|]. intros e He <-. by apply (H e He).
Qed.

Lemma target_index x : x ∈ names_of edges → is_target x ↔ leaving edges (ix x) = [].
Proof.
  intros Hx. rewrite leaving_nil. unfold is_target. split.
  - intros [_ H] e He Hh. apply (H e He). apply ix_inj; [|done|done]. by apply edge_names.
  - intros H. split; [done|]. intros e He <-. by apply (H e He).
Qed.

(** One name satisfies [P] exactly when one index satisfies [Q]. *)
Lemma one_index (P : string → Prop) (Q : Z → Prop) :
  (∀ x, P x → x ∈ names_of edges) → (∀ x, x ∈ names_of edges → P x ↔ Q (ix x)) →
  (∃ s, ∀ x, P x ↔ x = s) ↔ ∃ i, ∀ j, 0 <= j < n ∧ Q j ↔ j = i.
Proof.
  intros HP HPQ. split.
  - intros [s Hs]. assert (P s) as Ps by by apply Hs. pose proof (HP s Ps) as Hn.
    exists (ix s). intros j. split.
    + intros [(x & Hx & <-)%ix_surj HQ]. f_equal. apply Hs. by apply HPQ.
    + intros ->. split; [by apply ix_name|]. by apply HPQ.
  - intros [i Hi]. destruct (proj2 (Hi i) eq_refl) as [(s & Hs & <-)%ix_surj HQ].
    exists s. intros x. split.
    + intros Px. pose proof (HP x Px) as Hx. apply ix_inj; [done..|]. apply Hi.
      split; [by apply ix_name|by apply HPQ].
    + intros ->. by apply HPQ.
Qed.

Lemma route_ok_index : route_ok ↔ one_source ∧ one_sink ∧ acyclic.
Proof.
  pose proof (one_index is_source (λ j, entering edges j = 0) (λ x H, proj1 H) source_index) as Hs.
  pose proof (one_index is_target (λ j, leaving edges j = []) (λ x H, proj1 H) target_index) as Ht.
  unfold route_ok, one_source, one_sink. by rewrite Hs, Ht.
Qed.

(** The edge [r] of node [i] of a graph over [names] is the edge [e]. *)
Definition laid (names : list string) (i : nat) (e : REC.t) (r : RouteEdge.t) : Prop :=
  RouteEdge.channel_id r = REC.channel e
  ∧ RouteEdge.capacity_hint_kbps r = REC.capacity_hint_kbps e
  ∧ RouteEdge.latency_hint_ms r = REC.latency_hint_ms e
  ∧ Z.of_nat i < RouteEdge.next r
  ∧ names !! Z.to_nat (RouteEdge.next r) = Some (REC.to e).

(** [g] is the configuration with its names in the order [names]: from the
    source to the target, every edge leading to a later name. *)
Definition layout (names : list string) (g : RouteGraph.t) : Prop :=
  NoDup names ∧ (∀ x, x ∈ names ↔ x ∈ names_of edges)
  ∧ len (RouteGraph.nodes g) = len names
  ∧ (∀ s, is_source s → names !! 0%nat = Some s)
  ∧ (∀ t, is_target t → last names = Some t)
  ∧ ∀ i x node, names !! i = Some x → RouteGraph.nodes g !! i = Some node →
      Forall2 (laid names i) (filter (λ e, REC.from e = x) edges) (RouteNode.edges node).

Lemma leaving_names x :
  x ∈ names_of edges → leaving edges (ix x) = filter (λ e, REC.from e = x) edges.
Proof.
  intros Hx. unfold leaving.
  assert (∀ e, e ∈ edges → (tail e =? ix x) = true ↔ REC.from e = x) as He.
  { intros e He. rewrite Z.eqb_eq. split; [|by intros <-].
    intros Heq. apply ix_inj; [by apply edge_names|done|done]. }
  revert He. generalize edges as es. induction es as [|e es IH]; intros He; [done|].
  rewrite !filter_cons. rewrite IH by (intros; apply He; by right).
  destruct (decide (REC.from e = x)).
  - by rewrite decide_True by (apply He; [by left|done]).
  - by rewrite decide_False by (rewrite He; [done|by left]).
Qed.

Lemma order_names (order : list Z) : (∀ v, v ∈ order → 0 <= v < n) →
  ∃ names : list string, ix <$> names = order ∧ ∀ x, x ∈ names → x ∈ names_of edges.
Proof.
  induction order as [|v order IH]; intros Hr.
  { exists []. split; [done|]. by intros x ?%elem_of_nil. }
  destruct IH as (names & <- & Hn); [intros; apply Hr; by right|].
  destruct (ix_surj v (Hr v ltac:(by left))) as (x & Hx & <-). exists (x :: names).
  split; [done|]. intros y [->|Hy]%elem_of_cons; [done|by apply Hn].
Qed.

Lemma order_layout order indegree :
  route_ok → kahn (Sorting.Build_t [] order indegree) → len order = n →
  ∃ names, layout names (RouteGraph.Build_t (laid_node order <$> order)).
Proof.
  intros ((s & Hs) & (t & Ht) & _) Hk Hl.
  pose proof (order_nodup _ _ Hk) as Hnd.
  pose proof (proj1 (order_complete_iff _ _ Hk) Hl) as Hall.
  destruct (order_names order) as (names & Ho & Hn); [apply Hall|].
  assert (∀ x, x ∈ names_of edges → x ∈ names) as Hn'.
  { intros x Hx. pose proof (proj2 (Hall _) (proj2 (ix_name x Hx))) as Hi. rewrite <- Ho in Hi.
    apply list_elem_of_fmap in Hi as (y & Hy & Hin). apply ix_inj in Hy as ->; auto. }
  assert (∀ e, e ∈ edges → ∃ k, index_of order (head e) = k ∧ order !! k = Some (head e)
    ∧ names !! k = Some (REC.to e)) as Hhead.
  { intros e He. eexists; split; [done|]. pose proof (edge_range e He) as [_ Hr].
    pose proof (lookup_index_of order (head e) (proj2 (Hall _) Hr)) as Hlk.
    split; [done|]. assert ((ix <$> names) !! index_of order (head e) = Some (head e))
      as (y & Hy & Hyn)%list_lookup_fmap_Some by by rewrite Ho.
    apply ix_inj in Hy as ->; [done|by apply edge_names|]. apply Hn. by eapply list_elem_of_lookup_2. }
  assert (∀ i x e, names !! i = Some x → e ∈ edges → REC.from e = x →
    (i < index_of order (head e))%nat) as Hfwd.
  { intros i x e Hi He <-.
    assert (order !! i = Some (tail e)) as Hoi by (rewrite <- Ho, list_lookup_fmap, Hi; done).
    rewrite <- (index_of_lookup order (tail e) i Hnd Hoi).
    apply (order_forward order indegree Hk); [done|]. apply Hall. by apply edge_range. }
  assert (NoDup names) as Hnn by (rewrite <- Ho in Hnd; by eapply NoDup_fmap_1).
  exists names. split_and!.
  - done.
  - intros x. split; [apply Hn|apply Hn'].
  - cbn [RouteGraph.nodes]. rewrite len_map, <- Ho. apply len_map.
  - intros s' ->%Hs. assert (s ∈ names) as Hin by by apply Hn', Hs.
    destruct names as [|x names'] eqn:En; [by apply elem_of_nil in Hin|]. rewrite <- En in *.
    rewrite En. cbn. f_equal. apply Hs. split; [apply Hn; rewrite En; by left|]. intros e He Hto.
    destruct (Hhead e He) as (k & Hik & _ & Hk').
    assert (REC.from e ∈ names) as [i Hi]%list_elem_of_lookup_1 by by apply Hn', edge_names.
    specialize (Hfwd i _ e Hi He eq_refl). rewrite Hik in Hfwd.
    assert (k = 0%nat) by (eapply NoDup_lookup; [exact Hnn|exact Hk'|by rewrite En, Hto]). lia.
  - intros t' ->%Ht. assert (t ∈ names) as Hin by by apply Hn', Ht.
    destruct (last names) as [x|] eqn:El; [|by apply last_None in El; rewrite El in Hin; apply elem_of_nil in Hin].
    f_equal. pose proof El as Hx. rewrite last_lookup in Hx. apply Ht.
    split; [apply Hn; by eapply list_elem_of_lookup_2|]. intros e He Hf.
    specialize (Hfwd _ x e Hx He Hf). destruct (Hhead e He) as (k & Hik & _ & Hk').
    apply lookup_lt_Some in Hk'. lia.
  - intros i x node Hi Hnode. cbn [RouteGraph.nodes] in Hnode. rewrite list_lookup_fmap in Hnode.
    rewrite <- Ho in Hnode at 2. rewrite list_lookup_fmap, Hi in Hnode. injection Hnode as <-.
    assert (x ∈ names_of edges) as Hx by (apply Hn; by eapply list_elem_of_lookup_2).
    cbn [laid_node RouteNode.edges]. rewrite (leaving_names x Hx).
    apply Forall2_fmap_r, Forall_Forall2_diag, Forall_forall.
    intros e [Hf He]%list_elem_of_filter. destruct (Hhead e He) as (k & Hp & _ & Hk').
    unfold laid, position. cbn. rewrite Nat2Z.id, Hp. split_and!; [done..| |done].
    specialize (Hfwd i x e Hi He Hf). lia.
Qed.

End builder.

(** ** Properties *)

(** C32: [build_route] never runs forever and panics exactly on the
    configurations that do not describe a route (none or several sources or
    targets, a cycle, a loop, no edge at all); otherwise the graph is the
    configuration in a topological order of its names, from the source to the
    target, each name with its edges in their order, every edge leading to a
    later node and keeping its channel and hints. *)
Theorem build_route_correct edges :
  len edges < 2 ^ 30 →
  (route_ok edges ∧ ∃ g names, build_route edges = Ret g ∧ layout edges names g)
  ∨ (¬ route_ok edges ∧ build_route edges = Panic).
Proof.
  intros Hs. rewrite (route_ok_index edges).
  destruct (build_route_cases edges Hs) as [(H1 & H2 & H3 & order & indegree & Hb & Hk & Hl)|[Hn Hb]];
    [left|by right].
  split; [done|]. destruct (order_layout edges Hs order indegree) as [names Hlay];
    [by apply route_ok_index|done|done|]. by eexists _, names.
Qed.

(** ** Witnesses *)

Lemma build_route_correct_witness :
  (route_ok demo_edges
   ∧ ∃ g names, build_route demo_edges = Ret g ∧ layout demo_edges names g)
  ∨ (¬ route_ok demo_edges ∧ build_route demo_edges = Panic).
Proof. apply (build_route_correct demo_edges). vm_compute. reflexivity. Defined.

(** The first alternative is the one that holds. *)
Example demo_route_ok_config : route_ok demo_edges.
Proof.
  destruct (build_route_cases demo_edges) as [(H1 & H2 & H3 & _)|[_ Hb]]; [by vm_compute| |].
  - by apply route_ok_index.
  - by rewrite demo_route_built in Hb.
Qed.
