(* ===== verification/ConfigSend.v ===== *)
(** * Configured endpoints

    Which routes an endpoint starts with: exactly those that describe a route
    from one source to one target and begin with channels of the node.  The
    core is created whatever the tuning; with the tuning and the route within
    the limits below it satisfies what the sending theorems assume: the geometry
    that makes every message fit the MTU, and no dead end in the graph. *)

From stdpp Require Import strings.
From S2P Require Import Prelude Core Wire Sequence Crypto Kcp Routing RoutingPath RoutingFacts.
From S2P Require Import RoutingFeedback RoutingTotal Relay Endpoint EndpointLifecycle EndpointFacts.
From S2P Require Import EndpointSend Config ConfigFacts.

(** ** Layered graphs that can be used *)

(** A layered graph of at most 65 nodes with 16-bit channels and hints of 32
    bits, whose source has a channel. *)
Record usable (g : RouteGraph.t) : Prop := {
  usable_layers : config_ok g;
  usable_size : 1 < len (RouteGraph.nodes g) <= 65;
  usable_ids : ∀ i node e, RouteGraph.nodes g !! i = Some node → e ∈ RouteNode.edges node →
    in_width 16 (RouteEdge.channel_id e);
  usable_first : ∃ node e, RouteGraph.nodes g !! 0%nat = Some node ∧ e ∈ RouteNode.edges node;
}.

(** Tuning values in the ranges of their types, and an MTU with room for the
    longest header. *)
Record tuned (tuning : EndpointCoreTuning.t) : Prop := {
  tuned_padding : 1 <= EndpointCoreTuning.padding_reserve tuning <= 255;
  tuned_mtu : 446 <= RouteTiming.min_mtu (EndpointCoreTuning.route tuning);
  tuned_interval : 0 < RouteTiming.feedback_interval_ms (EndpointCoreTuning.route tuning);
}.

Lemma usable_routable g tuning cfg :
  usable g → tuned tuning →
  EndpointConfig.route cfg = EndpointCoreTuning.route_config tuning g →
  EndpointConfig.padding_reserve cfg = EndpointCoreTuning.padding_reserve tuning →
  routable cfg.
Proof.
  intros [Hg Hsize Hids (node & e & Hnode & He)] [Hpad Hmtu Hint] Hr Hp.
  assert (∃ id e0, RP.get_edge (RP.new (EndpointConfig.route cfg)) id = Ret e0
    ∧ EdgeId.node id = 0) as (id & e0 & Hid & Hid0).
  { destruct (edge_chain (EndpointConfig.route cfg) 0 node e []) as (id & Hn & e0 & He0 & _);
      [lia|by rewrite Hr|done|done|]. by exists id, e0. }
  assert (config_ok (RouteConfig.graph (EndpointConfig.route cfg))) as Hg' by by rewrite Hr.
  destruct (overhead_value cfg Hg') as (l & o & Ho & _ & Hl & Hlr & Hov);
    [by rewrite Hr; cbn; lia|by rewrite Hp|].
  assert (1 <= l) as Hl1 by (apply (proj1 Hl [id]); split; [done|by exists e0]).
  assert (len (RouteGraph.nodes (RouteConfig.graph (EndpointConfig.route cfg))) <= 65) as Hn65
    by (rewrite Hr; cbn; lia).
  split.
  - done.
  - rewrite Hr. cbn. lia.
  - intros id' e' (node' & edge & Hnode' & _ & Hin & ->)%new_edge. rewrite Hr in Hnode'.
    cbn in Hnode' |- *. by eapply Hids.
  - intros path Hc. specialize (proj1 Hl path Hc). lia.
  - by rewrite Hp.
  - exists o. split; [done|]. rewrite (Hov Hl1), Hp, Hr.
    cbn [EndpointCoreTuning.route_config RouteConfig.min_mtu].
    unfold ENDPOINT_MESSAGE_OVERHEAD, effective_transport_mtu, MAX_TRANSPORT_PACKET_SIZE. lia.
  - rewrite Hr. cbn. lia.
Qed.

(** ** Graphs the builder lays out *)

Lemma layout_config_ok edges names g :
  layout edges names g → names ≠ [] → len names <= 2 ^ 12 →
  (∀ e, e ∈ edges → in_width 32 (REC.capacity_hint_kbps e) ∧ in_width 32 (REC.latency_hint_ms e)) →
  config_ok g.
Proof.
  intros (Hnd & Hn & Hl & _ & _ & Hnodes) Hne Hlen He.
  assert (0 < len names) by (destruct names; [done|rewrite len_cons; pose proof (len_nonneg names); lia]).
  split; [lia|]. intros i node r Hi Hr.
  destruct (lookup_lt_is_Some_2 names i) as [x Hx].
  { apply lookup_lt_Some in Hi. unfold len in Hl. lia. }
  destruct (Forall2_in_r _ _ _ r (Hnodes i x node Hx Hi) Hr)
    as (e & [_ Hin]%list_elem_of_filter & (_ & -> & -> & Hnext & Hlk)).
  split; [|by apply He]. apply lookup_lt_Some in Hlk. unfold len in *. lia.
Qed.

Lemma layout_layered edges names g :
  layout edges names g → names ≠ [] → len names < 2 ^ 32 → layered g.
Proof.
  intros (Hnd & Hn & Hl & _ & _ & Hnodes) Hne Hlen.
  assert (0 < len names) by (destruct names; [done|rewrite len_cons; pose proof (len_nonneg names); lia]).
  split; [lia|]. intros i node r Hi Hr.
  destruct (lookup_lt_is_Some_2 names i) as [x Hx].
  { apply lookup_lt_Some in Hi. unfold len in Hl. lia. }
  destruct (Forall2_in_r _ _ _ r (Hnodes i x node Hx Hi) Hr)
    as (e & _ & (_ & _ & _ & Hnext & Hlk)).
  apply lookup_lt_Some in Hlk. unfold len in *. lia.
Qed.

(** Only the target has no edge, and it is the last node. *)
Lemma layout_onward edges names g : route_ok edges → layout edges names g → no_dead_end g.
Proof.
  intros (_ & (t & Ht) & _) (Hnd & Hn & Hl & _ & Hlast & Hnodes) i node Hi Hlt Hnil.
  specialize (Hlast t ltac:(by apply Ht)). rewrite last_lookup in Hlast.
  destruct (lookup_lt_is_Some_2 names i) as [x Hx].
  { apply lookup_lt_Some in Hi. unfold len in Hl. lia. }
  specialize (Hnodes i x node Hx Hi). rewrite Hnil in Hnodes. apply Forall2_nil_inv_r in Hnodes.
  assert (x = t) as ->.
  { apply Ht. split; [apply Hn; by eapply list_elem_of_lookup_2|]. intros e He Hf.
    apply (not_elem_of_nil e). rewrite <- Hnodes. by apply list_elem_of_filter. }
  pose proof (NoDup_lookup names _ _ t Hnd Hx Hlast). unfold len in *. lia.
Qed.

Lemma remove_dups_length {A} `{EqDecision A} (l : list A) : (length (remove_dups l) <= length l)%nat.
Proof. induction l as [|x l IH]; cbn; [lia|]. case_decide; cbn; lia. Qed.

(** The names of a route, each once. *)
Definition node_names (edges : list REC.t) : list string := remove_dups (names_of edges).

Lemma layout_size edges names g : layout edges names g → len names = len (node_names edges).
Proof.
  intros (Hnd & Hn & _). unfold len, node_names. f_equal. apply Permutation_length.
  apply NoDup_Permutation; [done|apply NoDup_remove_dups|]. intros x. by rewrite elem_of_remove_dups.
Qed.

Lemma node_names_len edges : len (node_names edges) <= 2 * len edges.
Proof.
  rewrite <- names_len. unfold node_names, len. apply inj_le, remove_dups_length.
Qed.

Lemma layout_usable edges names g :
  route_ok edges → layout edges names g → len names <= 65 →
  (∀ e, e ∈ edges → in_width 16 (REC.channel e)
     ∧ in_width 32 (REC.capacity_hint_kbps e) ∧ in_width 32 (REC.latency_hint_ms e)) →
  usable g.
Proof.
  intros ((s & Hs) & (t & Ht) & _) Hlay Hlen He.
  pose proof Hlay as (Hnd & Hn & Hl & Hfirst & _ & Hnodes).
  assert (is_source edges s) as Hss by by apply Hs.
  specialize (Hfirst s Hss). destruct Hss as [Hin Hno].
  assert (names ≠ []) as Hne by (intros ->; done).
  apply elem_of_names in Hin as (e & Hin & [->| ->]); [|by destruct (Hno e Hin)].
  destruct (lookup_lt_is_Some_2 (RouteGraph.nodes g) 0) as [node Hnode].
  { apply lookup_lt_Some in Hfirst. unfold len in Hl. lia. }
  pose proof (Hnodes 0%nat _ node Hfirst Hnode) as Hedges.
  destruct (Forall2_in_l _ _ _ e Hedges) as (r & Hr & (_ & _ & _ & Hnext & Hlk));
    [by apply list_elem_of_filter|].
  split.
  - eapply layout_config_ok; [done|done|lia|]. intros e' He'. by destruct (He e' He').
  - apply lookup_lt_Some in Hlk. unfold len in *. lia.
  - intros i node' r' Hi Hr'. destruct (lookup_lt_is_Some_2 names i) as [x Hx].
    { apply lookup_lt_Some in Hi. unfold len in Hl. lia. }
    destruct (Forall2_in_r _ _ _ r' (Hnodes i x node' Hx Hi) Hr')
      as (e' & [_ He']%list_elem_of_filter & (-> & _)). by apply He.
  - by exists node, r.
Qed.

Lemma direct_usable channels :
  channels ≠ [] → Forall (in_width 16) channels → usable (direct_graph channels).
Proof.
  intros Hne Hids. assert (∀ i node e, RouteGraph.nodes (direct_graph channels) !! i = Some node →
    e ∈ RouteNode.edges node → i = 0%nat ∧ ∃ c, c ∈ channels ∧ e = RouteEdge.Build_t c 1 0 0) as Hedge.
  { intros [|[|i]] node e [= <-] He; cbn in He; [|by apply elem_of_nil in He].
    apply list_elem_of_fmap in He as (c & -> & Hc). split; [done|by exists c]. }
  split.
  - split; [done|]. intros i node e Hi He. destruct (Hedge i node e Hi He) as (-> & c & _ & ->).
    cbn. repeat split; lia.
  - done.
  - intros i node e Hi He. destruct (Hedge i node e Hi He) as (_ & c & Hc & ->). cbn.
    by eapply Forall_forall in Hids.
  - destruct channels as [|c channels]; [done|]. eexists _, _. split; [done|]. by left.
Qed.

(** A direct graph. *)
Lemma direct_layered channels : layered (direct_graph channels).
Proof.
  split; [done|]. intros [|[|i]] node e [= <-] He; cbn in He; [|by apply elem_of_nil in He].
  apply list_elem_of_fmap in He as (c & -> & _). by split.
Qed.

Lemma direct_onward channels : channels ≠ [] → no_dead_end (direct_graph channels).
Proof.
  intros Hne [|[|i]] node [= <-] Hi; [cbn|vm_compute in Hi; discriminate].
  by destruct channels.
Qed.

(** ** Routes a node starts with *)

(** What [build_route] and [route_graph] check of the route section, if there is
    one: it describes a route, and its first hops are channels of the node. *)
Definition checked_route (local_channels : list ChannelId) (route : option (list REC.t)) : Prop :=
  match route with
  | None => True
  | Some edges => route_ok edges
      ∧ ∀ e, e ∈ edges → is_source edges (REC.from e) → REC.channel e ∈ local_channels
  end.

(** Nobody checks these: values in the ranges of their types, a route of at most
    65 names (so of at most 64 hops, what a packet can carry), some sender when
    there is no route, and a tuning that leaves room for a message. *)
Definition within_limits (local_channels : list ChannelId) (route : option (list REC.t))
    (tuning : EndpointCoreTuning.t) : Prop :=
  tuned tuning ∧
  match route with
  | None => local_channels ≠ [] ∧ Forall (in_width 16) local_channels
  | Some edges => len (node_names edges) <= 65
      ∧ ∀ e, e ∈ edges → in_width 16 (REC.channel e)
           ∧ in_width 32 (REC.capacity_hint_kbps e) ∧ in_width 32 (REC.latency_hint_ms e)
  end.

Definition small_route (route : option (list REC.t)) : Prop :=
  ∀ edges, route = Some edges → len edges < 2 ^ 30.

(** The graph of a route, and what it has. *)
Lemma build_optional_cases route :
  small_route route →
  match route with
  | None => build_optional route = Ret None
  | Some edges =>
      (route_ok edges ∧ ∃ g names, build_optional route = Ret (Some g) ∧ layout edges names g)
      ∨ (¬ route_ok edges ∧ build_optional route = Panic)
  end.
Proof.
  destruct route as [edges|]; [|done]. intros Hs. specialize (Hs edges eq_refl). cbn.
  rewrite (route_ok_index edges).
  destruct (build_route_cases edges Hs) as [(H1 & H2 & H3 & order & indegree & -> & Hk & Hl)|[Hn ->]];
    [left|by right].
  split; [done|]. destruct (order_layout edges Hs order indegree) as [names Hlay];
    [by apply route_ok_index|done|done|]. cbn. by eexists _, names.
Qed.

(** The edges of node 0 are those of the source. *)
Lemma layout_source edges names g :
  route_ok edges → layout edges names g →
  ∃ s node, (∀ x, is_source edges x ↔ x = s) ∧ RouteGraph.nodes g !! 0%nat = Some node
    ∧ Forall2 (laid names 0) (filter (λ e, REC.from e = s) edges) (RouteNode.edges node).
Proof.
  intros ((s & Hs) & _) (_ & _ & Hl & Hfirst & _ & Hnodes).
  specialize (Hfirst s ltac:(by apply Hs)).
  destruct (lookup_lt_is_Some_2 (RouteGraph.nodes g) 0) as [node Hnode].
  { apply lookup_lt_Some in Hfirst. unfold len in Hl. lia. }
  exists s, node. split_and!; [done|done|by apply Hnodes].
Qed.

Lemma route_graph_Ret local_channels route graph :
  route_graph local_channels route = Ret graph ↔
  graph = default (direct_graph local_channels) route ∧
  ∃ node, RouteGraph.nodes graph !! 0%nat = Some node
    ∧ ∀ r, r ∈ RouteNode.edges node → RouteEdge.channel_id r ∈ local_channels.
Proof.
  unfold route_graph. set (g := default _ route). split.
  - intros (node & [_ Hnode]%index_Ret & H)%bind_ret. apply bind_ret in H as (? & Ha & [= <-]).
    split; [done|]. exists node. split; [done|]. intros r Hr%list_elem_of_In.
    unfold assert_that in Ha. destruct (forallb _ _) eqn:E; [|done].
    rewrite forallb_forall in E. apply (bool_decide_eq_true _), E, Hr.
  - intros (-> & node & Hnode & Hl). rewrite (index_eq _ 0 node) by done. cbn [mbind comp_bind].
    rewrite (proj2 (forallb_forall _ _)); [done|].
    intros r Hr%list_elem_of_In. apply bool_decide_eq_true. by apply Hl.
Qed.

(** A route with which an endpoint gets its configuration passes the checks ... *)
Lemma route_graph_checked local_channels route graph g :
  small_route route → build_optional route = Ret graph → route_graph local_channels graph = Ret g →
  checked_route local_channels route.
Proof.
  intros Hs Hb Hg. pose proof (build_optional_cases route Hs) as Hc. destruct route as [edges|]; [|done].
  rewrite Hb in Hc. destruct Hc as [(Hok & g' & names & [= ->] & Hlay)|[_ Hc]]; [|done].
  apply route_graph_Ret in Hg as (-> & node & Hnode & Hl).
  destruct (layout_source edges names g' Hok Hlay) as (s & node' & Hsrc & Hnode' & Hedges).
  cbn in Hnode. rewrite Hnode in Hnode'. injection Hnode' as <-.
  split; [done|]. intros e He ?%Hsrc.
  destruct (Forall2_in_l _ _ _ e Hedges) as (r & Hr & (<- & _)); [by apply list_elem_of_filter|].
  by apply Hl.
Qed.

(** ... and one that passes the checks has a graph. *)
Lemma checked_route_graph local_channels route :
  small_route route → checked_route local_channels route →
  ∃ graph, build_optional route = Ret graph
    ∧ let g := default (direct_graph local_channels) graph in
      route_graph local_channels graph = Ret g ∧ layered g
      ∧ ∀ tuning, within_limits local_channels route tuning → usable g ∧ no_dead_end g.
Proof.
  intros Hs Hchecked. pose proof (build_optional_cases route Hs) as Hc.
  destruct route as [edges|].
  - destruct Hchecked as [Hok Hl].
    destruct Hc as [(_ & g & names & -> & Hlay)|[Hno _]]; [|done].
    destruct (layout_source edges names g Hok Hlay) as (s & node & Hsrc & Hnode & Hedges).
    pose proof (layout_size edges names g Hlay) as Hsize. pose proof (node_names_len edges).
    specialize (Hs edges eq_refl). exists (Some g). split; [done|]. cbv zeta. change (default _ (Some g)) with g. split_and!.
    + apply route_graph_Ret. split; [done|]. exists node. split; [done|]. intros r Hr.
      destruct (Forall2_in_r _ _ _ r Hedges Hr) as (e & [Hf He]%list_elem_of_filter & (-> & _)).
      apply Hl; [done|]. rewrite Hf. by apply Hsrc.
    + eapply layout_layered; [done| |lia]. destruct Hlay as (_ & _ & Hlen & _).
      intros ->. apply lookup_lt_Some in Hnode. unfold len in *. cbn in Hlen. lia.
    + intros tuning (_ & Hn & Hw). split; [|by eapply layout_onward].
      eapply layout_usable; [done|done|lia|done].
  - exists None. split; [done|]. cbv zeta. change (default ?g None) with g.
    split_and!; [|apply direct_layered|].
    + apply route_graph_Ret. split; [done|]. eexists. split; [done|]. cbn.
      by intros r (c & -> & Hc')%list_elem_of_fmap.
    + intros tuning (_ & Hne & Hw). split; [by apply direct_usable|by apply direct_onward].
Qed.

(** ** Starting *)

Section configured.
Context `{Aes : Aegis128L, Bl : Blake3, It : HashIter}.

(** What sending needs of an endpoint, so that every message of the promised
    size leaves within the MTU, and always when a route exists. *)
Definition sending_ready (self : EC.t) : Prop :=
  geometry self ∧ no_dead_end (RouteConfig.graph (EndpointConfig.route (EC.config self))).

(** The core of an endpoint is created, whatever the tuning, with every route
    that passes the checks; within the limits it is ready to send. *)
Lemma configured_endpoint_starts local_channels route tuning ek mk seed boot :
  small_route route → checked_route local_channels route →
  ∃ graph cfg self,
    build_optional route = Ret graph
    ∧ endpoint_config ek mk seed boot local_channels graph tuning = Ret cfg
    ∧ EC.new cfg = Ret self
    ∧ (within_limits local_channels route tuning → sending_ready self).
Proof.
  intros Hs Hc.
  destruct (checked_route_graph local_channels route Hs Hc) as (graph & Hb & Hrg & Hlay & Hlim).
  exists graph. unfold endpoint_config. rewrite Hrg. cbn [mbind comp_bind].
  set (cfg := EndpointConfig.Build_t _ _ _ _ _ _ _ _ _).
  destruct (new_returns cfg Hlay) as [self Hnew]. exists cfg, self. split_and!; [done..|].
  intros Hw. destruct (Hlim tuning Hw) as [Hu Hon]. split.
  - assert (routable cfg) as Hr by (eapply usable_routable; [exact Hu|apply Hw|done|done]).
    destruct (new_geometry cfg Hr) as (self' & Hnew' & Hgeo). congruence.
  - by rewrite (new_route cfg self Hnew).
Qed.

End configured.

(** ** Witness *)

#[local] Existing Instance toy_aegis.
#[local] Existing Instance toy_blake3.
#[local] Existing Instance Sequence.toy_iter.

(** The two-route example under the default tuning. *)
Definition demo_tuning : EndpointCoreTuning.t :=
  CoreFileConfig.endpoint_tuning CoreFileConfig.default_config.

Lemma demo_checked : checked_route [1; 2] (Some demo_edges).
Proof.
  split; [exact demo_route_ok_config|]. intros e He [_ Hs]. unfold demo_edges in He.
  repeat (apply elem_of_cons in He as [->|He]; [first [set_solver|
    exfalso; by apply (Hs (edge "in" "b" 2)); [set_solver|]|
    exfalso; by apply (Hs (edge "in" "a" 1)); [set_solver|]]|]). by apply elem_of_nil in He.
Qed.

Lemma demo_within_limits : within_limits [1; 2] (Some demo_edges) demo_tuning.
Proof.
  split; [split; vm_compute; try split; (reflexivity || discriminate)|]. split; [by vm_compute|].
  intros e He. unfold demo_edges in He.
  repeat (apply elem_of_cons in He as [->|He]; [by vm_compute|]). by apply elem_of_nil in He.
Qed.
