(* ===== verification/TestShell.v ===== *)
(** * The network simulator

    raynet-test-shell: endpoints and relays joined by links with latency,
    bandwidth, loss and down times, driven by a discrete clock.  The cores are
    the models of [Endpoint] and [Relay]; a [Vec] of scheduled packets is a
    list, a [BTreeMap] a [gmap] iterated in key order.

    [run_until_idle] takes at most the number of turns it is given.  The
    functions that execute core actions call each other: a packet that
    cannot be sent makes the core fail over, which sends again; an echoed write
    sends.  They are one recursion on a budget of nested calls. *)

From S2P Require Import Prelude Core Sequence Crypto Routing Relay Endpoint.

(** ** Saturating arithmetic on [u64] *)

Definition sat_add (a b : Z) : Z := (a + b) `min` U64_MAX.
Definition sat_sub (a b : Z) : Z := (a - b) `max` 0.

(** ** Links *)

Inductive LossModel : Type :=
  | NoLoss
  | Every (packets : Z)
  | Bernoulli (loss_ppm seed : Z).

Module DownWindow.
Record t := { start_ms : Z; end_ms : Z }.
End DownWindow.

Definition splitmix64 (value : Z) : Z :=
  let value := value +{64} 0x9e3779b97f4a7c15 in
  let value := Z.lxor value (Z.shiftr value 30) *{64} 0xbf58476d1ce4e5b9 in
  let value := Z.lxor value (Z.shiftr value 27) *{64} 0x94d049bb133111eb in
  Z.lxor value (Z.shiftr value 31).

Module SimLink.
Record t := {
  from_node : Z;
  from_channel_id : ChannelId;
  to_node : Z;
  to_channel_id : ChannelId;
  latency_ms : Z;
  bandwidth_bytes_per_ms : Z;
  loss : LossModel;
  extra_delay_ms : Z;
  down_windows : list DownWindow.t;
}.

Definition is_down (self : t) (now_ms : Z) : bool :=
  existsb (λ window, (DownWindow.start_ms window <=? now_ms)
                     && (now_ms <? DownWindow.end_ms window)) (down_windows self).

(** [u64::is_multiple_of] *)
Definition is_multiple_of (a b : Z) : bool :=
  if b =? 0 then a =? 0 else a mod b =? 0.

Definition should_drop (self : t) (sent_packets : Z) : comp bool :=
  match loss self with
  | NoLoss => Ret false
  | Every packets => Ret (is_multiple_of sent_packets packets)
  | Bernoulli loss_ppm seed =>
      if negb (loss_ppm <=? 1000000) then Panic else
      let random := splitmix64 (seed +{64} sent_packets) in
      let sample := wrap 32 (Z.shiftr (random * 1000000) 64) in
      Ret (sample <? loss_ppm)
  end.
End SimLink.

Module TestMetrics.
Record t := {
  sent_packets : Z;
  delivered_packets : Z;
  dropped_packets : Z;
  delivered_local_bytes : Z;
  last_delivery_ms : Z;
}.

#[global] Instance eta_TestMetrics : Eta t := λ m,
  Build_t (sent_packets m) (delivered_packets m) (dropped_packets m)
    (delivered_local_bytes m) (last_delivery_ms m).

Definition default : t := Build_t 0 0 0 0 0.
End TestMetrics.

Module ScheduledPacket.
Record t := {
  due_ms : Z;
  from_node : Z;
  from_channel_id : ChannelId;
  to_node : Z;
  to_channel_id : ChannelId;
  bytes : list Z;
}.

#[global] Instance eta_ScheduledPacket : Eta t := λ p,
  Build_t (due_ms p) (from_node p) (from_channel_id p) (to_node p) (to_channel_id p) (bytes p).
End ScheduledPacket.

(** [for byte in seed]: adds one to a little-endian number, and panics when it
    wraps. *)
Fixpoint advance_seed (seed : list Z) : comp (list Z) :=
  match seed with
  | [] => Panic
  | byte :: rest =>
      if byte +{8} 1 =? 0 then rest ← advance_seed rest; Ret (0 :: rest)
      else Ret (byte +{8} 1 :: rest)
  end.

(** [position]: the index of the first element that satisfies [p]. *)
Fixpoint position {A} (p : A → bool) (l : list A) : option Z :=
  match l with
  | [] => None
  | x :: l => if p x then Some 0 else i ← position p l; Some (1 + i)
  end.

(** [min_by_key]: the first element with the least key. *)
Fixpoint min_by_key {A} (key : A → Z) (l : list A) : option A :=
  match l with
  | [] => None
  | x :: l =>
      match min_by_key key l with
      | Some y => if key y <? key x then Some y else Some x
      | None => Some x
      end
  end.

(** [packets.remove(index)] *)
Definition remove_at {A} (l : list A) (i : Z) : comp (A * list A) :=
  x ← index l i;
  Ret (x, take (Z.to_nat i) l ++ drop (S (Z.to_nat i)) l).

(** [map.entry(k).or_default().extend_from_slice(bytes)] *)
Definition append_at (m : gmap Z (list Z)) (k : Z) (bytes : list Z) : gmap Z (list Z) :=
  <[k := default [] (m !! k) ++ bytes]> m.

Section shell.
Context `{Aegis128L, Blake3, HashIter}.

(** ** Nodes *)

Inductive SimNode : Type :=
  | SimEndpoint (core : EndpointCore.t) (config : EndpointConfig.t) (started_at_sim_ms : Z)
      (sessions : gmap ConvId (list Z)) (echo_exit : bool)
      (blocked_writes : gmap ConvId (list Z))
  | SimRelay (core : RelayCore.t) (config : RelayConfig.t) (started_at_sim_ms : Z).

Definition started_at (node : SimNode) : Z :=
  match node with
  | SimEndpoint _ _ started_at_sim_ms _ _ _ | SimRelay _ _ started_at_sim_ms =>
      started_at_sim_ms
  end.

Definition node_deadline (node : SimNode) (elapsed : Z) : Z :=
  match node with
  | SimEndpoint core _ _ _ _ _ => EndpointCore.next_deadline core elapsed
  | SimRelay core _ _ => RelayCore.next_deadline core elapsed
  end.

(** [core.handle_event] *)
Definition node_event (node : SimNode) (elapsed : Z) (event : CoreEvent)
    : comp (CoreEventResult * SimNode * list CoreAction) :=
  match node with
  | SimEndpoint core config started sessions echo blocked =>
      '(r, core, actions) ← EndpointCore.handle_event core elapsed event [];
      Ret (r, SimEndpoint core config started sessions echo blocked, actions)
  | SimRelay core config started =>
      '(r, core, actions) ← RelayCore.handle_event core elapsed event [];
      Ret (r, SimRelay core config started, actions)
  end.

(** [core.poll] *)
Definition node_poll (node : SimNode) (elapsed : Z) : comp (SimNode * list CoreAction) :=
  match node with
  | SimEndpoint core config started sessions echo blocked =>
      '(core, actions) ← EndpointCore.poll core elapsed [];
      Ret (SimEndpoint core config started sessions echo blocked, actions)
  | SimRelay core config started =>
      let '(core, actions) := RelayCore.poll core elapsed [] in
      Ret (SimRelay core config started, actions)
  end.

Record TestShell := {
  now_ms : Z;
  nodes : gmap Z SimNode;
  links : list SimLink.t;
  link_attempts : list Z;
  packets : list ScheduledPacket.t;
  captured_packets : gmap (Z * ChannelId) ScheduledPacket.t;
  link_next_tx : gmap (Z * ChannelId) Z;
  metrics : TestMetrics.t;
  delivered_by_outbound_channel : gmap (Z * ChannelId) Z;
}.

#[global] Instance eta_TestShell : Eta TestShell := λ s,
  Build_TestShell (now_ms s) (nodes s) (links s) (link_attempts s) (packets s)
    (captured_packets s) (link_next_tx s) (metrics s) (delivered_by_outbound_channel s).

Definition new : TestShell := Build_TestShell 0 ∅ [] [] [] ∅ ∅ TestMetrics.default ∅.

Definition put_node (self : TestShell) (node_id : Z) (node : SimNode) : TestShell :=
  self <| nodes ::= <[node_id := node]> |>.

Definition add_endpoint (self : TestShell) (node_id : Z) (config : EndpointConfig.t)
    (echo_exit : bool) : comp TestShell :=
  core ← EndpointCore.new config;
  Ret (put_node self node_id (SimEndpoint core config (now_ms self) ∅ echo_exit ∅)).

Definition add_relay (self : TestShell) (node_id : Z) (config : RelayConfig.t) : TestShell :=
  put_node self node_id (SimRelay (RelayCore.new config) config (now_ms self)).

Definition add_link (self : TestShell) (link : SimLink.t) : TestShell :=
  self <| links ::= λ l, l ++ [link] |> <| link_attempts ::= λ l, l ++ [0] |>.

(** A restart keeps the global clock and takes the next seed. *)
Definition restart_node (self : TestShell) (node_id : Z) : comp TestShell :=
  match nodes self !! node_id with
  | None => Ret self
  | Some (SimEndpoint core config started sessions echo blocked) =>
      let uptime_ms := now_ms self -{64} started in
      seed ← advance_seed (EndpointConfig.random_seed config);
      let config := config <| EndpointConfig.boot_time_ms ::= λ t, sat_add t uptime_ms |>
                           <| EndpointConfig.random_seed := seed |> in
      core ← EndpointCore.new config;
      Ret (put_node self node_id (SimEndpoint core config (now_ms self) ∅ echo ∅))
  | Some (SimRelay core config started) =>
      let uptime_ms := now_ms self -{64} started in
      seed ← advance_seed (RelayConfig.random_seed config);
      let config := {| RelayConfig.envelope_key := RelayConfig.envelope_key config;
                       RelayConfig.random_seed := seed;
                       RelayConfig.boot_time_ms :=
                         sat_add (RelayConfig.boot_time_ms config) uptime_ms;
                       RelayConfig.local_channels := RelayConfig.local_channels config;
                       RelayConfig.local_min_mtu := RelayConfig.local_min_mtu config |} in
      Ret (put_node self node_id (SimRelay (RelayCore.new config) config (now_ms self)))
  end.

Definition elapsed (self : TestShell) (node_id : Z) : Z :=
  match nodes self !! node_id with
  | Some node => sat_sub (now_ms self) (started_at node)
  | None => 0
  end.

Definition count_dropped_packet (self : TestShell) : TestShell :=
  self <| metrics ::= λ m, m <| TestMetrics.dropped_packets ::= λ n, sat_add n 1 |> |>.

(** ** Queries *)

Definition has_session (self : TestShell) (node_id conv_id : Z) : bool :=
  match nodes self !! node_id with
  | Some (SimEndpoint _ _ _ sessions _ _) => bool_decide (is_Some (sessions !! conv_id))
  | _ => false
  end.

Definition active_sessions_of (self : TestShell) (node_id : Z) : Z :=
  match nodes self !! node_id with
  | Some (SimEndpoint core _ _ _ _ _) => active_sessions (EndpointCore.get_metrics core)
  | _ => 0
  end.

Definition session_bytes (self : TestShell) (node_id conv_id : Z) : option (list Z) :=
  match nodes self !! node_id with
  | Some (SimEndpoint _ _ _ sessions _ _) => sessions !! conv_id
  | _ => None
  end.

Definition delivered_on (self : TestShell) (node_id channel_id : Z) : Z :=
  default 0 (delivered_by_outbound_channel self !! (node_id, channel_id)).

Definition on_link (node_id channel_id : Z) (link : SimLink.t) : bool :=
  (SimLink.from_node link =? node_id) && (SimLink.from_channel_id link =? channel_id).

Definition attempted_on (self : TestShell) (node_id channel_id : Z) : comp Z :=
  match position (on_link node_id channel_id) (links self) with
  | Some i => index (link_attempts self) i
  | None => Ret 0
  end.

(** ** Executing actions *)

Section handlers.
(** The nested [handle_actions]. *)
Variable handle_actions : Z → list CoreAction → TestShell → comp TestShell.

Definition handle_event_with (self : TestShell) (node_id : Z) (event : CoreEvent)
    : comp TestShell :=
  match nodes self !! node_id with
  | None => Ret self
  | Some node =>
      '(_, node, actions) ← node_event node (elapsed self node_id) event;
      handle_actions node_id actions (put_node self node_id node)
  end.

Definition transport_send_failed (self : TestShell) (node_id channel_id : Z)
    (bytes : list Z) : comp TestShell :=
  handle_event_with (count_dropped_packet self) node_id
    (TransportPacketSendFailed channel_id bytes).

Definition transmit_ms (link : SimLink.t) (bytes : list Z) : comp Z :=
  if SimLink.bandwidth_bytes_per_ms link =? 0 then Ret 0
  else div_ceil (len bytes) (SimLink.bandwidth_bytes_per_ms link).

(** A packet enters the queue of its link. *)
Definition schedule (self : TestShell) (node_id channel_id : Z) (link : SimLink.t)
    (bytes : list Z) : comp TestShell :=
  let next := default (now_ms self) (link_next_tx self !! (node_id, channel_id)) in
  let starts_at := next `max` now_ms self in
  transmit ← transmit_ms link bytes;
  let packet :=
    {| ScheduledPacket.due_ms :=
         sat_add (sat_add (sat_add starts_at transmit) (SimLink.latency_ms link))
           (SimLink.extra_delay_ms link);
       ScheduledPacket.from_node := node_id;
       ScheduledPacket.from_channel_id := channel_id;
       ScheduledPacket.to_node := SimLink.to_node link;
       ScheduledPacket.to_channel_id := SimLink.to_channel_id link;
       ScheduledPacket.bytes := bytes |} in
  Ret (self <| link_next_tx ::= <[(node_id, channel_id) := sat_add starts_at transmit]> |>
            <| captured_packets ::= <[(node_id, channel_id) := packet]> |>
            <| packets ::= λ l, l ++ [packet] |>).

Definition send_transport (self : TestShell) (node_id channel_id : Z) (bytes : list Z)
    : comp TestShell :=
  let self := self <| metrics ::= λ m,
    m <| TestMetrics.sent_packets ::= λ n, sat_add n 1 |> |> in
  match position (on_link node_id channel_id) (links self) with
  | None => transport_send_failed self node_id channel_id bytes
  | Some link_index =>
      link ← index (links self) link_index;
      attempts ← index (link_attempts self) link_index;
      let attempts := sat_add attempts 1 in
      link_attempts' ← store (link_attempts self) link_index attempts;
      let self := self <| link_attempts := link_attempts' |> in
      if SimLink.is_down link (now_ms self)
      then transport_send_failed self node_id channel_id bytes else
      drop ← SimLink.should_drop link attempts;
      if drop : bool then Ret (count_dropped_packet self) else
      schedule self node_id channel_id link bytes
  end.

(** [true] when the core accepted the write. *)
Definition send_session_bytes_with (self : TestShell) (node_id conv_id : Z) (bytes : list Z)
    : comp (bool * TestShell) :=
  match nodes self !! node_id with
  | Some (SimEndpoint core config started sessions echo blocked) =>
      '(result, core, actions) ←
        EndpointCore.handle_event core (elapsed self node_id) (SessionWrite conv_id bytes) [];
      let blocked :=
        match result with
        | SessionWriteBlocked => <[conv_id := bytes]> blocked
        | _ => delete conv_id blocked
        end in
      let self := put_node self node_id
        (SimEndpoint core config started sessions echo blocked) in
      match result with
      | SessionCreated _ => Panic
      | _ =>
          self ← handle_actions node_id actions self;
          Ret (match result with ResultNone => true | _ => false end, self)
      end
  | _ => Panic
  end.

Definition write_session (self : TestShell) (node_id conv_id : Z) (bytes : list Z)
    : comp TestShell :=
  let '(echo_exit, self) :=
    match nodes self !! node_id with
    | Some (SimEndpoint core config started sessions echo blocked) =>
        (echo, put_node self node_id
           (SimEndpoint core config started (append_at sessions conv_id bytes) echo blocked))
    | _ => (false, self)
    end in
  if echo_exit : bool
  then '(_, self) ← send_session_bytes_with self node_id conv_id bytes; Ret self
  else Ret (self <| metrics ::= λ m,
    m <| TestMetrics.delivered_local_bytes ::= λ n, sat_add n (len bytes) |>
      <| TestMetrics.last_delivery_ms := now_ms self |> |>).

Definition handle_action (node_id : Z) (action : CoreAction) (self : TestShell)
    : comp TestShell :=
  match action with
  | SendTransportPacket channel_id bytes => send_transport self node_id channel_id bytes
  | OpenSession conv_id =>
      Ret match nodes self !! node_id with
          | Some (SimEndpoint core config started sessions echo blocked) =>
              put_node self node_id
                (SimEndpoint core config started (append_at sessions conv_id []) echo blocked)
          | _ => self
          end
  | WriteSession conv_id bytes => write_session self node_id conv_id bytes
  | CloseSession conv_id _ =>
      Ret match nodes self !! node_id with
          | Some (SimEndpoint core config started sessions echo blocked) =>
              put_node self node_id
                (SimEndpoint core config started (delete conv_id sessions) echo
                   (delete conv_id blocked))
          | _ => self
          end
  end.
End handlers.

(** [handle_actions], with a budget of nested calls; a list without actions
    needs none. *)
Fixpoint handle_actions (fuel : nat) (node_id : Z) (actions : list CoreAction)
    (self : TestShell) : comp TestShell :=
  match actions, fuel with
  | [], _ => Ret self
  | _, O => NoFuel
  | _, S fuel => for_each actions (handle_action (handle_actions fuel) node_id) self
  end.

(** ** Operations *)

Section operations.
(** The budget: one level for the actions of an event, one for an echoed write
    and one for each failover of a packet, which puts a channel in cooldown. *)
Variable nesting : nat.

Definition handle_event (self : TestShell) (node_id : Z) (event : CoreEvent)
    : comp TestShell :=
  handle_event_with (handle_actions nesting) self node_id event.

Definition send_session_bytes (self : TestShell) (node_id conv_id : Z) (bytes : list Z)
    : comp (bool * TestShell) :=
  send_session_bytes_with (handle_actions nesting) self node_id conv_id bytes.

Definition open_session (self : TestShell) (node_id : Z) : comp (ConvId * TestShell) :=
  match nodes self !! node_id with
  | Some (SimEndpoint core config started sessions echo blocked) =>
      '(result, core, actions) ←
        EndpointCore.handle_event core (elapsed self node_id) SessionOpen [];
      match result with
      | SessionCreated conv_id =>
          self ← handle_actions nesting node_id actions (put_node self node_id
            (SimEndpoint core config started (append_at sessions conv_id []) echo blocked));
          Ret (conv_id, self)
      | _ => Panic
      end
  | _ => Panic
  end.

Definition close_session (self : TestShell) (node_id conv_id : Z) (reason : CloseReason)
    : comp TestShell :=
  handle_event self node_id (SessionClose conv_id reason).

Definition drop_queued_from (self : TestShell) (from_node channel_id : Z) : Z * TestShell :=
  let before := len (packets self) in
  let kept := filter (λ packet, negb ((ScheduledPacket.from_node packet =? from_node)
    && (ScheduledPacket.from_channel_id packet =? channel_id)) = true) (packets self) in
  let dropped := before -{64} len kept in
  (dropped, self <| packets := kept |> <| metrics ::= λ m,
     m <| TestMetrics.dropped_packets ::= λ n, sat_add n dropped |> |>).

Definition replay_last_packet (self : TestShell) (from_node channel_id : Z)
    : bool * TestShell :=
  match captured_packets self !! (from_node, channel_id) with
  | None => (false, self)
  | Some packet =>
      (true, self <| packets ::= λ l,
         l ++ [packet <| ScheduledPacket.due_ms := now_ms self |>] |>)
  end.

(** The writes that were blocked, in node and conversation order. *)
Definition blocked_of (self : TestShell) : list (Z * Z * list Z) :=
  conv_iter (nodes self) ≫= λ '(node_id, node),
    match node with
    | SimEndpoint _ _ _ _ _ blocked =>
        (λ '(conv_id, bytes), (node_id, conv_id, bytes)) <$> conv_iter blocked
    | SimRelay _ _ _ => []
    end.

Definition retry_blocked_writes (self : TestShell) : comp TestShell :=
  for_each (blocked_of self) (λ '(node_id, conv_id, bytes) self,
    '(_, self) ← send_session_bytes self node_id conv_id bytes; Ret self) self.

(** The first packet with the earliest due time. *)
Definition next_packet_index (self : TestShell) : option (Z * Z) :=
  '(i, packet) ← min_by_key (λ ip, ScheduledPacket.due_ms ip.2)
    (zip (seqZ 0 (len (packets self))) (packets self));
  Some (i, ScheduledPacket.due_ms packet).

Definition poll_deadline (self : TestShell) (entry : Z * SimNode) : option (Z * Z) :=
  let '(node_id, node) := entry in
  let deadline := node_deadline node (elapsed self node_id) in
  if deadline =? U64_MAX then None
  else Some (node_id, sat_add deadline (started_at node)).

Definition next_poll_deadline (self : TestShell) : option (Z * Z) :=
  min_by_key snd (omap (poll_deadline self) (conv_iter (nodes self))).

Definition poll_node (self : TestShell) (node_id : Z) : comp TestShell :=
  match nodes self !! node_id with
  | None => Ret self
  | Some node =>
      '(node, actions) ← node_poll node (elapsed self node_id);
      self ← handle_actions nesting node_id actions (put_node self node_id node);
      retry_blocked_writes self
  end.

(** The clock moves to a node's deadline, by one when that is not later. *)
Definition poll_at (self : TestShell) (node_id due : Z) : comp TestShell :=
  poll_node (self <| now_ms := if due <=? now_ms self then sat_add (now_ms self) 1 else due |>)
    node_id.

Definition deliver_packet (self : TestShell) (index : Z) : comp TestShell :=
  '(packet, rest) ← remove_at (packets self) index;
  let key := (ScheduledPacket.from_node packet, ScheduledPacket.from_channel_id packet) in
  let self := self <| packets := rest |> <| now_ms := ScheduledPacket.due_ms packet |>
    <| metrics ::= λ m, m <| TestMetrics.delivered_packets ::= λ n, sat_add n 1 |> |>
    <| delivered_by_outbound_channel ::= λ m, <[key := default 0 (m !! key) +{64} 1]> m |> in
  handle_event self (ScheduledPacket.to_node packet)
    (TransportPacketReceived (ScheduledPacket.to_channel_id packet)
       (ScheduledPacket.bytes packet)).

(** One turn of [run_until_idle]; [false] when nothing is left to do. *)
Definition turn (self : TestShell) : comp (bool * TestShell) :=
  self ← retry_blocked_writes self;
  match next_packet_index self, next_poll_deadline self with
  | None, None => Ret (false, self)
  | Some (index, due), Some (node, poll_due) =>
      self ← (if poll_due <? due then poll_at self node poll_due else deliver_packet self index);
      Ret (true, self)
  | Some (index, _), None => self ← deliver_packet self index; Ret (true, self)
  | None, Some (node, due) => self ← poll_at self node due; Ret (true, self)
  end.

Fixpoint run_until_idle (max_steps : nat) (self : TestShell) : comp TestShell :=
  match max_steps with
  | O => Ret self
  | S max_steps =>
      '(busy, self) ← turn self;
      if busy : bool then run_until_idle max_steps self else Ret self
  end.
End operations.
End shell.

(** ** Configurations *)

Definition route_edge (channel_id : ChannelId) (next : Z) : RouteEdge.t :=
  RouteEdge.Build_t channel_id next 0 0.

Definition route_graph (nodes : list (list RouteEdge.t)) : RouteGraph.t :=
  RouteGraph.Build_t (RouteNode.Build_t <$> nodes).

Definition kcp_config : KcpConfig.t := KcpConfig.default.

Definition endpoint_config (envelope_key message_key random_seed : list Z)
    (boot_time_ms : Z) (local_channels : list ChannelId) (route_graph : RouteGraph.t)
    (kcp : KcpConfig.t) : EndpointConfig.t :=
  {| EndpointConfig.envelope_key := envelope_key;
     EndpointConfig.message_key := message_key;
     EndpointConfig.random_seed := random_seed;
     EndpointConfig.boot_time_ms := boot_time_ms;
     EndpointConfig.kcp := kcp;
     EndpointConfig.route :=
       {| RouteConfig.graph := route_graph; RouteConfig.min_mtu := 1200;
          RouteConfig.feedback_interval_ms := 1000; RouteConfig.feedback_timeout_ms := 5000 |};
     EndpointConfig.local_channels := local_channels;
     EndpointConfig.padding_reserve := 128;
     EndpointConfig.keepalive_interval_ms := 0 |}.

Definition relay_config (envelope_key random_seed : list Z) (boot_time_ms : Z)
    (local_channels : list ChannelId) : RelayConfig.t :=
  {| RelayConfig.envelope_key := envelope_key;
     RelayConfig.random_seed := random_seed;
     RelayConfig.boot_time_ms := boot_time_ms;
     RelayConfig.local_channels := local_channels;
     RelayConfig.local_min_mtu := 1200 |}.
