(* ===== verification/TestShellFacts.v ===== *)
(** * Correctness of the network simulator

    What the simulator does to its network, whatever the cores do, is a
    sequence of three kinds of steps: a packet is refused or lost, a packet
    enters the queue of its link, or nothing changes.  So packets are conserved
    and every link delivers in order. *)

From stdpp Require Import relations.
From S2P Require Import Prelude Core Sequence Crypto Routing Relay Endpoint TestShell.

(** ** The network *)

Module SP := ScheduledPacket.

Module Net.
Record t := {
  links : list SimLink.t;
  next_tx : gmap (Z * ChannelId) Z;
  queue : list SP.t;
  sent : Z;
  delivered : Z;
  dropped : Z;
}.
End Net.

Definition key (p : SP.t) : Z * Z := (SP.from_node p, SP.from_channel_id p).

(** When a packet that leaves the link's transmitter at [t] arrives. *)
Definition arrival (link : SimLink.t) (t : Z) : Z :=
  sat_add (sat_add t (SimLink.latency_ms link)) (SimLink.extra_delay_ms link).

(** The link of a node's channel. *)
Definition link_of (links : list SimLink.t) (k : Z * Z) (link : SimLink.t) : Prop :=
  ∃ i, position (on_link k.1 k.2) links = Some i ∧ index links i = Ret link.

(** What a core action does to the network. *)
Inductive net_step : Net.t → Net.t → Prop :=
  | net_refused links tx q s d l :
      net_step (Net.Build_t links tx q s d l)
               (Net.Build_t links tx q (sat_add s 1) d (sat_add l 1))
  | net_scheduled links tx q s d l p link now transmit :
      link_of links (key p) link → 0 <= transmit →
      let left := sat_add (default now (tx !! key p) `max` now) transmit in
      SP.due_ms p = arrival link left →
      net_step (Net.Build_t links tx q s d l)
               (Net.Build_t links (<[key p := left]> tx) (q ++ [p]) (sat_add s 1) d l).

Section shell.
Context `{Aes : Aegis128L, Bl : Blake3, It : HashIter}.

Definition net (self : TestShell) : Net.t :=
  {| Net.links := links self;
     Net.next_tx := link_next_tx self;
     Net.queue := packets self;
     Net.sent := TestMetrics.sent_packets (metrics self);
     Net.delivered := TestMetrics.delivered_packets (metrics self);
     Net.dropped := TestMetrics.dropped_packets (metrics self) |}.

(** [self'] comes from [self] by steps of the network. *)
Definition evolves_to (self self' : TestShell) : Prop := rtc net_step (net self) (net self').

#[local] Instance evolves_to_refl : Reflexive evolves_to.
Proof. intros s. apply rtc_refl. Qed.

#[local] Instance evolves_to_trans : Transitive evolves_to.
Proof. intros s1 s2 s3 H1 H2. unfold evolves_to in *. by etrans. Qed.

(** The bandwidth of a link is a [u64]. *)
Definition links_ok (ls : list SimLink.t) : Prop :=
  Forall (λ l, 0 <= SimLink.bandwidth_bytes_per_ms l) ls.

Lemma evolves_links s s' : evolves_to s s' → links s' = links s.
Proof.
  unfold evolves_to. intros H.
  change (Net.links (net s') = Net.links (net s)).
  induction H as [n|n1 n2 n3 Hs _ IH]; [done|]. rewrite IH. by destruct Hs.
Qed.

Lemma evolves_quiet s s' : net s' = net s → evolves_to s s'.
Proof. intros H. unfold evolves_to. by rewrite H. Qed.

(** A handler that only moves the network by its steps. *)
Definition moves (handle : Z → list CoreAction → TestShell → comp TestShell) : Prop :=
  ∀ node actions s s', links_ok (links s) →
    handle node actions s = Ret s' → evolves_to s s'.

Section handlers.
Context (handle : Z → list CoreAction → TestShell → comp TestShell).
Hypothesis Hmoves : moves handle.

Lemma handle_event_moves s node ev s' :
  links_ok (links s) → handle_event_with handle s node ev = Ret s' → evolves_to s s'.
Proof.
  intros Hl. unfold handle_event_with.
  destruct (nodes s !! node) as [nd|]; [|by intros [= <-]].
  intros ([[r nd'] a] & _ & H)%bind_ret. by apply Hmoves in H.
Qed.

Lemma div_ceil_nonneg a b q : 0 <= a → 0 <= b → div_ceil a b = Ret q → 0 <= q.
Proof.
  unfold div_ceil. intros Ha Hb. destruct (Z.eqb_spec b 0); [done|]. intros [= <-].
  apply Z.div_pos; lia.
Qed.

Lemma send_transport_moves s node ch bytes s' :
  links_ok (links s) → send_transport handle s node ch bytes = Ret s' → evolves_to s s'.
Proof.
  intros Hbw. unfold send_transport, transport_send_failed. cbn zeta.
  assert (∀ s0 s1, net s0 = net s →
    handle_event_with handle (count_dropped_packet
      (s0 <| metrics ::= λ m, m <| TestMetrics.sent_packets ::= λ n, sat_add n 1 |> |>)) node
      (TransportPacketSendFailed ch bytes) = Ret s1 → evolves_to s s1) as Hfail.
  { intros s0 s1 Hs H%handle_event_moves.
    - eapply rtc_l; [|exact H].
      destruct s0 as [??????? []?], s as [??????? []?]. unfold net in Hs |- *. cbn in Hs |- *.
      injection Hs as -> -> -> -> -> ->. constructor.
    - cbn. by replace (links s0) with (links s) by by injection Hs. }
  destruct (position _ _) as [i|] eqn:Ei; [|by apply (Hfail s)].
  intros (link & Hlink & Hr)%bind_ret. cbn in Hlink.
  apply bind_ret in Hr as (attempts & _ & (tries & _ & Hr)%bind_ret).
  cbn in Hr. destruct (SimLink.is_down _ _).
  { by apply (Hfail (s <| link_attempts := tries |>)). }
  apply bind_ret in Hr as (drop & _ & Hr). destruct drop.
  { injection Hr as <-. apply rtc_once. destruct s as [??????? []?]. constructor. }
  unfold schedule in Hr. apply bind_ret in Hr as (transmit & Ht & Hr). injection Hr as <-.
  assert (0 <= transmit) as Ht0.
  { unfold transmit_ms in Ht. destruct (SimLink.bandwidth_bytes_per_ms link =? 0); [by injection Ht as <-|].
    apply div_ceil_nonneg in Ht; [done|apply len_nonneg|].
    apply index_Ret in Hlink as [_ Hlink]. by eapply Forall_lookup_1 in Hbw. }
  apply rtc_once. destruct s as [now ? ls ? q ? tx [] ?]. cbn in Ei, Hlink.
  refine (net_scheduled ls tx q _ _ _ (ScheduledPacket.Build_t
    (arrival link (sat_add (default now (tx !! (node, ch)) `max` now) transmit))
    node ch (SimLink.to_node link) (SimLink.to_channel_id link) bytes) link now transmit _ Ht0 eq_refl).
  by exists i.
Qed.

Lemma send_session_moves s node conv bytes b s' :
  links_ok (links s) → send_session_bytes_with handle s node conv bytes = Ret (b, s') →
  evolves_to s s'.
Proof.
  intros Hl. unfold send_session_bytes_with.
  destruct (nodes s !! node) as [[core cfg st ss echo bl|]|]; try done.
  intros ([[r core'] a] & _ & H)%bind_ret.
  destruct r; [|done|]; apply bind_ret in H as (s1 & H%Hmoves & [= _ <-]); done.
Qed.

Lemma handle_action_moves node a s s' :
  links_ok (links s) → handle_action handle node a s = Ret s' → evolves_to s s'.
Proof.
  intros Hl. destruct a as [ch bytes|conv|conv bytes|conv reason]; cbn [handle_action].
  - by apply send_transport_moves.
  - intros [= <-]. apply evolves_quiet. by destruct (nodes s !! node) as [[]|].
  - unfold write_session.
    destruct (nodes s !! node) as [[core cfg st ss [] bl|]|].
    + intros ([b s1] & H%send_session_moves & [= <-])%bind_ret; done.
    + intros [= <-]. apply evolves_quiet. by destruct s as [??????? []?].
    + intros [= <-]. apply evolves_quiet. by destruct s as [??????? []?].
    + intros [= <-]. apply evolves_quiet. by destruct s as [??????? []?].
  - intros [= <-]. apply evolves_quiet. by destruct (nodes s !! node) as [[]|].
Qed.
End handlers.

Lemma handle_actions_moves fuel : moves (handle_actions fuel).
Proof.
  induction fuel as [|fuel IH]; intros node actions s s' Hl; destruct actions as [|a actions];
    cbn [handle_actions]; try (by intros [= <-]); try done.
  intros H. assert (evolves_to s s' ∧ links_ok (links s')) as [? _]; [|done].
  eapply (for_each_inv (λ t, evolves_to s t ∧ links_ok (links t))); [|by split|exact H].
  intros x t t' _ [He Ht] Hx. apply handle_action_moves in Hx; [|done|done].
  split; [by etrans|]. by rewrite (evolves_links _ _ Hx).
Qed.
(** ** Runs of the network *)

(** Everything that happens to the network; the label counts replays. *)
Inductive net_event : Z → Net.t → Net.t → Prop :=
  | net_acts n n' : net_step n n' → net_event 0 n n'
  | net_linked links tx q s d l link :
      net_event 0 (Net.Build_t links tx q s d l) (Net.Build_t (links ++ [link]) tx q s d l)
  | net_delivered links tx q1 p q2 s d l :
      net_event 0 (Net.Build_t links tx (q1 ++ p :: q2) s d l)
                  (Net.Build_t links tx (q1 ++ q2) s (sat_add d 1) l)
  | net_dropped links tx q (f : SP.t → bool) s d l :
      let kept := filter (λ p, f p = true) q in
      net_event 0 (Net.Build_t links tx q s d l)
                  (Net.Build_t links tx kept s d (sat_add l (len q - len kept)))
  | net_replayed links tx q p s d l :
      net_event 1 (Net.Build_t links tx q s d l) (Net.Build_t links tx (q ++ [p]) s d l).

Inductive net_runs : Z → Net.t → Prop :=
  | net_start : net_runs 0 (Net.Build_t [] ∅ [] 0 0 0)
  | net_next r r' n n' : net_runs r n → net_event r' n n' → net_runs (r + r') n'.

(** [self'] is a later state of a simulation, after [r] more replays. *)
Definition later (r : Z) (self self' : TestShell) : Prop :=
  links_ok (links self) →
  links_ok (links self') ∧ ∀ r0, net_runs r0 (net self) → net_runs (r0 + r) (net self').

Lemma later_trans r1 r2 s1 s2 s3 : later r1 s1 s2 → later r2 s2 s3 → later (r1 + r2) s1 s3.
Proof.
  intros H1 H2 Hl. destruct (H1 Hl) as [Hl2 Hr1], (H2 Hl2) as [Hl3 Hr2]. split; [done|].
  intros r0 Hr. rewrite Z.add_assoc. by apply Hr2, Hr1.
Qed.

Lemma later_event r s s' :
  (links_ok (links s) → links_ok (links s')) → net_event r (net s) (net s') → later r s s'.
Proof. intros Hk He Hl. split; [by apply Hk|]. intros r0 Hr. by eapply net_next. Qed.

Lemma later_quiet s s' : net s' = net s → later 0 s s'.
Proof.
  intros He Hl. assert (links s' = links s) as -> by by injection He.
  split; [done|]. intros r0. by rewrite He, Z.add_0_r.
Qed.

Lemma later_evolves s s' : (links_ok (links s) → evolves_to s s') → later 0 s s'.
Proof.
  intros He Hl. specialize (He Hl). rewrite (evolves_links _ _ He). split; [done|].
  intros r0 Hr. rewrite Z.add_0_r. unfold evolves_to in He. revert Hr.
  induction He as [n|n1 n2 n3 Hs _ IH]; [done|]. intros Hr. apply IH.
  rewrite <- (Z.add_0_r r0). eapply net_next; [done|by constructor].
Qed.

Lemma later_0_trans s1 s2 s3 : later 0 s1 s2 → later 0 s2 s3 → later 0 s1 s3.
Proof. apply (later_trans 0 0). Qed.

Section operations.
Context (nesting : nat).

Lemma handle_event_later s node ev s' :
  handle_event nesting s node ev = Ret s' → later 0 s s'.
Proof.
  intros H. apply later_evolves. intros Hl. by eapply handle_event_moves; [apply handle_actions_moves|..].
Qed.

Lemma send_session_later s node conv bytes b s' :
  send_session_bytes nesting s node conv bytes = Ret (b, s') → later 0 s s'.
Proof.
  intros H. apply later_evolves. intros Hl. by eapply send_session_moves; [apply handle_actions_moves|..].
Qed.

Lemma open_session_later s node conv s' :
  open_session nesting s node = Ret (conv, s') → later 0 s s'.
Proof.
  unfold open_session. destruct (nodes s !! node) as [[core cfg st ss echo bl|]|]; try done.
  intros ([[r core'] a] & _ & H)%bind_ret. destruct r as [|c|]; try done.
  apply bind_ret in H as (s1 & H & [= _ <-]). apply later_evolves. intros Hl.
  by apply handle_actions_moves in H.
Qed.

Lemma retry_later s s' : retry_blocked_writes nesting s = Ret s' → later 0 s s'.
Proof.
  unfold retry_blocked_writes. intros H.
  eapply (for_each_inv (λ t, later 0 s t)); [|by apply later_quiet|exact H].
  intros [[node conv] bytes] t t' _ Ht ([b t1] & Hs & [= <-])%bind_ret.
  eapply later_0_trans; [done|]. by eapply send_session_later.
Qed.

Lemma poll_node_later s node s' : poll_node nesting s node = Ret s' → later 0 s s'.
Proof.
  unfold poll_node. destruct (nodes s !! node) as [nd|]; [|intros [= <-]; by apply later_quiet].
  intros ([nd' a] & _ & (s1 & H1 & H2%retry_later)%bind_ret)%bind_ret.
  eapply later_0_trans; [|exact H2]. apply later_evolves. intros Hl.
  by apply handle_actions_moves in H1.
Qed.

Lemma poll_at_later s node due s' : poll_at nesting s node due = Ret s' → later 0 s s'.
Proof.
  intros H%poll_node_later. eapply later_0_trans; [|exact H]. by apply later_quiet.
Qed.

Lemma deliver_later s i s' : deliver_packet nesting s i = Ret s' → later 0 s s'.
Proof.
  unfold deliver_packet, remove_at.
  intros ([p rest] & (p' & Hi & [= -> <-])%bind_ret & H%handle_event_later)%bind_ret.
  eapply later_0_trans; [|exact H]. apply index_Ret in Hi as [_ Hi].
  apply later_event; [done|]. destruct s as [??????? []?]. cbn in *.
  pose proof (take_drop_middle _ _ _ Hi) as Hq. rewrite <- Hq at 1. apply net_delivered.
Qed.

Lemma turn_later s b s' : turn nesting s = Ret (b, s') → later 0 s s'.
Proof.
  unfold turn. intros (s1 & H1%retry_later & H)%bind_ret.
  eapply later_0_trans; [exact H1|].
  destruct (next_packet_index s1) as [[i due]|], (next_poll_deadline s1) as [[node pd]|].
  - apply bind_ret in H as (s2 & H & [= _ <-]). destruct (pd <? due);
      [by eapply poll_at_later|by eapply deliver_later].
  - apply bind_ret in H as (s2 & H & [= _ <-]). by eapply deliver_later.
  - apply bind_ret in H as (s2 & H & [= _ <-]). by eapply poll_at_later.
  - injection H as _ <-. by apply later_quiet.
Qed.

Lemma run_later k : ∀ s s', run_until_idle nesting k s = Ret s' → later 0 s s'.
Proof.
  induction k as [|k IH]; intros s s'; cbn; [intros [= <-]; by apply later_quiet|].
  intros ([b s1] & H1%turn_later & H)%bind_ret. eapply later_0_trans; [exact H1|].
  destruct b; [by apply IH|]. injection H as <-. by apply later_quiet.
Qed.

Lemma restart_later s node s' : restart_node s node = Ret s' → later 0 s s'.
Proof.
  unfold restart_node. intros H. apply later_quiet.
  destruct (nodes s !! node) as [[core cfg st ss echo bl|core cfg st]|]; [| |by injection H as <-].
  - by apply bind_ret in H as (seed & _ & (core' & _ & [= <-])%bind_ret).
  - by apply bind_ret in H as (seed & _ & [= <-]).
Qed.

Lemma drop_later s node ch :
  len (packets s) < 2 ^ 64 → later 0 s (drop_queued_from s node ch).2.
Proof.
  intros Hlen. unfold drop_queued_from. cbn [snd]. apply later_event; [done|].
  destruct s as [? ? ? ? q ? ? []?]. unfold net. cbn in *.
  set (f := λ p : SP.t, negb ((SP.from_node p =? node) && (SP.from_channel_id p =? ch))).
  change (filter _ q) with (filter (λ p, f p = true) q).
  rewrite wrap_id; [apply net_dropped|].
  pose proof (length_filter (λ p, f p = true) q). unfold len in *. lia.
Qed.

Lemma replay_later s node ch :
  later (if (replay_last_packet s node ch).1 then 1 else 0) s (replay_last_packet s node ch).2.
Proof.
  unfold replay_last_packet. destruct (captured_packets s !! _) as [p|]; cbn [fst snd];
    [|by apply later_quiet].
  apply later_event; [done|]. destruct s. apply net_replayed.
Qed.

(** A simulation, with the number of packets it replayed. *)
Inductive simulation : Z → TestShell → Prop :=
  | sim_new : simulation 0 new
  | sim_add_endpoint r s node config echo s' :
      simulation r s → add_endpoint s node config echo = Ret s' → simulation r s'
  | sim_add_relay r s node config : simulation r s → simulation r (add_relay s node config)
  | sim_add_link r s link :
      simulation r s → 0 <= SimLink.bandwidth_bytes_per_ms link → simulation r (add_link s link)
  | sim_restart r s node s' : simulation r s → restart_node s node = Ret s' → simulation r s'
  | sim_open r s node conv s' :
      simulation r s → open_session nesting s node = Ret (conv, s') → simulation r s'
  | sim_send r s node conv bytes b s' :
      simulation r s → send_session_bytes nesting s node conv bytes = Ret (b, s') →
      simulation r s'
  | sim_close r s node conv reason s' :
      simulation r s → close_session nesting s node conv reason = Ret s' → simulation r s'
  | sim_drop r s node ch :
      simulation r s → len (packets s) < 2 ^ 64 → simulation r (drop_queued_from s node ch).2
  | sim_replay r s node ch :
      simulation r s →
      simulation (r + if (replay_last_packet s node ch).1 then 1 else 0)
        (replay_last_packet s node ch).2
  | sim_run r s k s' :
      simulation r s → run_until_idle nesting k s = Ret s' → simulation r s'.

(** Every simulation is a run of the network. *)
Lemma simulation_runs r s : simulation r s → links_ok (links s) ∧ net_runs r (net s).
Proof.
  assert (∀ r r' s s', later r' s s' → links_ok (links s) ∧ net_runs r (net s) →
    links_ok (links s') ∧ net_runs (r + r') (net s')) as Hstep.
  { intros r0 r' s0 s' Hlater [Hl Hr]. destruct (Hlater Hl) as [Hl' Hr']. auto. }
  assert (∀ r s s', later 0 s s' → links_ok (links s) ∧ net_runs r (net s) →
    links_ok (links s') ∧ net_runs r (net s')) as Hstep0.
  { intros r0 s0 s' Hlater H. rewrite <- (Z.add_0_r r0). by eapply Hstep. }
  induction 1 as [|r s node config echo s' _ IH H|r s node config _ IH|r s link _ IH Hbw
    |r s node s' _ IH H|r s node conv s' _ IH H|r s node conv bytes b s' _ IH H
    |r s node conv reason s' _ IH H|r s node ch _ IH Hlen|r s node ch _ IH|r s k s' _ IH H].
  - split; [constructor|]. apply net_start.
  - eapply Hstep0; [|exact IH]. apply bind_ret in H as (core & _ & [= <-]). by apply later_quiet.
  - eapply Hstep0; [|exact IH]. by apply later_quiet.
  - eapply Hstep0; [|exact IH]. apply later_event; [|destruct s; apply net_linked].
    intros Hl. cbn. apply Forall_app. by repeat constructor.
  - eapply Hstep0; [|exact IH]. by eapply restart_later.
  - eapply Hstep0; [|exact IH]. by eapply open_session_later.
  - eapply Hstep0; [|exact IH]. by eapply send_session_later.
  - eapply Hstep0; [|exact IH]. by eapply handle_event_later.
  - eapply Hstep0; [|exact IH]. by apply drop_later.
  - eapply Hstep; [|exact IH]. apply replay_later.
  - eapply Hstep0; [|exact IH]. by eapply run_later.
Qed.

End operations.
End shell.

(** ** Invariants of the network *)

(** The counters are the saturated values of exact ones, which balance. *)
Definition conserved (r : Z) (n : Net.t) : Prop :=
  0 <= r ∧ ∃ s d l, 0 <= s ∧ 0 <= d ∧ 0 <= l
    ∧ Net.sent n = s `min` U64_MAX ∧ Net.delivered n = d `min` U64_MAX
    ∧ Net.dropped n = l `min` U64_MAX ∧ s + r = d + l + len (Net.queue n).

Lemma sat_add_min a b : 0 <= b → sat_add (a `min` U64_MAX) b = (a + b) `min` U64_MAX.
Proof. unfold sat_add. lia. Qed.

Lemma runs_conserved r n : net_runs r n → conserved r n.
Proof.
  induction 1 as [|r r' n n' _ (Hr & s & d & l & Hs & Hd & Hl & E1 & E2 & E3 & Hsum) He].
  - split; [done|]. exists 0, 0, 0. split_and!; done.
  - destruct He as [n n' Hstep|links tx q s0 d0 l0 link|links tx q1 p q2 s0 d0 l0
      |links tx q f s0 d0 l0|links tx q p s0 d0 l0]; cbn in *; subst.
    + split; [lia|].
      destruct Hstep as [links tx q s0 d0 l0|links tx q s0 d0 l0 p link now transmit Hlk Ht left Hdue];
        cbn in *; subst.
      * exists (s + 1), d, (l + 1). cbn. rewrite !sat_add_min by lia. cbn; split_and!; (done || lia).
      * exists (s + 1), d, l. cbn. rewrite !sat_add_min by lia.
        cbn. rewrite len_app, len_cons, (@len_nil SP.t). cbn; split_and!; (done || lia).
    + split; [lia|]. exists s, d, l. cbn; split_and!; (done || lia).
    + split; [lia|]. exists s, (d + 1), l. cbn. rewrite !sat_add_min by lia.
      cbn. rewrite !len_app, len_cons in *. cbn; split_and!; (done || lia).
    + split; [lia|].
      assert (len kept <= len q) by (pose proof (length_filter (λ p, f p = true) q);
        unfold len, kept in *; lia).
      exists s, d, (l + (len q - len kept)). cbn. rewrite !sat_add_min by lia.
      cbn; split_and!; (done || lia).
    + split; [lia|]. exists s, d, l. cbn. rewrite len_app, len_cons, (@len_nil SP.t).
      cbn; split_and!; (done || lia).
Qed.

(** In-order links: packets of one channel are queued in the order in which
    they arrive, and none arrives after the transmitter's next free time. *)
Record fifo (n : Net.t) : Prop := {
  fifo_tx : ∀ k t, Net.next_tx n !! k = Some t → t <= U64_MAX;
  fifo_due : ∀ p, p ∈ Net.queue n → ∃ link t, link_of (Net.links n) (key p) link
    ∧ Net.next_tx n !! key p = Some t ∧ SP.due_ms p <= arrival link t;
  fifo_sorted : ∀ p p', [p; p'] `sublist_of` Net.queue n → key p = key p' →
    SP.due_ms p <= SP.due_ms p';
}.

Lemma position_app {A} (p : A → bool) l l' i :
  position p l = Some i → 0 <= i ∧ position p (l ++ l') = Some i.
Proof.
  revert i. induction l as [|x l IH]; intros i; cbn; [done|].
  destruct (p x); [by intros [= <-]|]. destruct (position p l) as [j|]; [|done].
  cbn. intros [= <-]. destruct (IH j eq_refl) as [Hj ->]. cbn. split; [lia|done].
Qed.

Lemma link_of_app links link k l : link_of links k l → link_of (links ++ [link]) k l.
Proof.
  intros (i & Hp & [Hr Hi]%index_Ret). exists i.
  destruct (position_app _ _ [link] _ Hp) as [H0 Hp']. split; [done|].
  apply index_eq; [done|]. by apply lookup_app_l_Some.
Qed.

Lemma link_of_unique links k l l' : link_of links k l → link_of links k l' → l = l'.
Proof. intros (i & Hp & Hi) (j & Hp' & Hj). congruence. Qed.

Lemma arrival_mono link t t' : t <= t' → arrival link t <= arrival link t'.
Proof. unfold arrival, sat_add. lia. Qed.

Lemma fifo_sublist links tx q q' s d l s' d' l' :
  q' `sublist_of` q → fifo (Net.Build_t links tx q s d l) → fifo (Net.Build_t links tx q' s' d' l').
Proof.
  intros Hs [Ht Hd Ho]. cbn in *. split; cbn; [done| |].
  - intros p Hp. apply Hd. by eapply elem_of_sublist.
  - intros p p' Hp. apply Ho. by etrans.
Qed.

Lemma runs_fifo n : net_runs 0 n → fifo n.
Proof.
  intros H. remember 0 as r eqn:Er. induction H as [|r r' n n' Hr IH He].
  - split; cbn; [done|by intros p ?%elem_of_nil|].
    intros p p' Hp. by apply sublist_nil_r in Hp.
  - assert (r' = 0 ∧ r = 0) as [-> ->].
    { apply runs_conserved in Hr as [Hr _]. destruct He; lia. }
    specialize (IH eq_refl). remember 0 as r0 eqn:E0 in He.
    destruct He as [n n' Hstep|links tx q s d l link|links tx q1 p q2 s d l
      |links tx q f s d l|links tx q p s d l]; [..|done].
    + destruct Hstep as [links tx q s d l|links tx q s d l p link now transmit Hlk Ht left Hdue].
      { by eapply fifo_sublist. }
      destruct IH as [Htx Hd Ho]. cbn in *.
      assert (left <= U64_MAX) as Hleft by (unfold left, sat_add; lia).
      assert (∀ t, tx !! key p = Some t → t <= left) as Hle.
      { intros t Et. specialize (Htx _ _ Et). unfold left, sat_add. rewrite Et. cbn. lia. }
      assert (∀ p', p' ∈ q → key p' = key p → SP.due_ms p' <= arrival link left) as Hbefore.
      { intros p' Hp' Hk. destruct (Hd p' Hp') as (link' & t & Hlk' & Et & Hdue').
        rewrite Hk in Hlk', Et. rewrite (link_of_unique _ _ _ _ Hlk Hlk').
        etrans; [exact Hdue'|]. apply arrival_mono. by apply Hle. }
      split; cbn.
      * intros k t. destruct (decide (k = key p)) as [->|Hne].
        -- rewrite lookup_insert_eq. by intros [= <-].
        -- rewrite lookup_insert_ne by done. apply Htx.
      * intros p' [Hp'| ->%list_elem_of_singleton]%elem_of_app.
        -- destruct (decide (key p' = key p)) as [Hk|Hne].
           ++ rewrite Hk, lookup_insert_eq. exists link, left. split_and!; [done|done|by apply Hbefore].
           ++ rewrite lookup_insert_ne by done. by apply Hd.
        -- rewrite lookup_insert_eq. exists link, left. split_and!; [done|done|lia].
      * intros p1 p2 (l1 & l2 & Hl & H1 & H2)%sublist_app_r Hk.
        apply sublist_cons_r in H2 as [H2%sublist_nil_r|(l3 & -> & H2%sublist_nil_r)].
        -- subst l2. rewrite app_nil_r in Hl. subst l1. by apply Ho.
        -- subst l3. destruct l1 as [|x [|y l1]]; cbn in Hl; [done| |by destruct l1].
           injection Hl as -> ->. rewrite Hdue. apply Hbefore; [|done].
           eapply elem_of_sublist; [|exact H1]. by left.
    + destruct IH as [Htx Hd Ho]. split; cbn in *; [done| |done].
      intros p Hp. destruct (Hd p Hp) as (link' & t & Hlk & Et & Hdue). exists link', t.
      split_and!; [by apply link_of_app|done|done].
    + eapply fifo_sublist; [|exact IH]. apply sublist_app; [done|]. by apply sublist_cons.
    + eapply fifo_sublist; [|exact IH]. apply sublist_filter.
Qed.

(** ** The budget of nested calls *)

Section budget.
Context `{Aes : Aegis128L, Bl : Blake3, It : HashIter}.

(** Where the first returns, the second returns the same. *)
Definition agrees (h h' : Z → list CoreAction → TestShell → comp TestShell) : Prop :=
  ∀ node actions s s', h node actions s = Ret s' → h' node actions s = Ret s'.

Lemma bind_agrees {A B} (m : comp A) (f g : A → comp B) b :
  (∀ a, f a = Ret b → g a = Ret b) → m ≫= f = Ret b → m ≫= g = Ret b.
Proof. intros H (a & -> & Hf)%bind_ret. by apply H. Qed.

Lemma for_each_agrees {A S} (l : list A) (f g : A → S → comp S) s s' :
  (∀ x t t', f x t = Ret t' → g x t = Ret t') → for_each l f s = Ret s' → for_each l g s = Ret s'.
Proof.
  intros H. revert s. induction l as [|x l IH]; intros s; cbn; [done|].
  intros (t & Ht & Hr)%bind_ret. rewrite (H _ _ _ Ht). by apply IH.
Qed.

Section handlers.
Context (h h' : Z → list CoreAction → TestShell → comp TestShell).
Hypothesis Hagrees : agrees h h'.

Lemma handle_event_agrees s node ev s' :
  handle_event_with h s node ev = Ret s' → handle_event_with h' s node ev = Ret s'.
Proof.
  unfold handle_event_with. destruct (nodes s !! node); [|done].
  apply bind_agrees. intros [[r nd] acts]. apply Hagrees.
Qed.

Lemma send_session_agrees s node conv bytes r :
  send_session_bytes_with h s node conv bytes = Ret r →
  send_session_bytes_with h' s node conv bytes = Ret r.
Proof.
  unfold send_session_bytes_with.
  destruct (nodes s !! node) as [[core cfg st ss echo bl|]|]; [|done..].
  apply bind_agrees. intros [[[|c|] core'] acts]; try done;
    intros (s1 & H%Hagrees & Hr)%bind_ret; by rewrite H.
Qed.

Lemma handle_action_agrees node a s s' :
  handle_action h node a s = Ret s' → handle_action h' node a s = Ret s'.
Proof.
  destruct a as [ch bytes|conv|conv bytes|conv reason]; cbn [handle_action]; [|done| |done].
  - unfold send_transport, transport_send_failed.
    destruct (position _ _); [|apply handle_event_agrees].
    do 3 (apply bind_agrees; intros ?). destruct (SimLink.is_down _ _); [apply handle_event_agrees|done].
  - unfold write_session. destruct (nodes s !! node) as [[core cfg st ss [] bl|]|]; [|done..].
    intros (r & H%send_session_agrees & Hr)%bind_ret. by rewrite H.
Qed.
End handlers.

(** A larger budget changes no result: what a simulation returns is what the
    unbounded recursion of the code returns. *)
Lemma handle_actions_more k fuel : agrees (handle_actions fuel) (handle_actions (k + fuel)).
Proof.
  induction k as [|k IH]; [by intros ????|]. cbn [Nat.add].
  assert (∀ f, agrees (handle_actions f) (handle_actions (S f))) as Hstep.
  { clear. induction f as [|f IH]; intros node [|a actions] s s'; try done.
    apply (for_each_agrees (a :: actions)). intros x t t'. by apply handle_action_agrees. }
  intros node actions s s' H%IH. by apply Hstep.
Qed.
End budget.

(** ** Properties *)

Lemma min_by_key_spec {A} (f : A → Z) l x :
  min_by_key f l = Some x →
  ∃ l1 l2, l = l1 ++ x :: l2 ∧ (∀ y, y ∈ l1 → f x < f y) ∧ (∀ y, y ∈ l2 → f x <= f y).
Proof.
  revert x. induction l as [|z l IH]; intros x; cbn; [done|].
  destruct (min_by_key f l) as [y|] eqn:E.
  - destruct (IH y eq_refl) as (l1 & l2 & -> & H1 & H2).
    destruct (Z.ltb_spec (f y) (f z)); intros [= <-].
    + exists (z :: l1), l2. split_and!; [done| |done]. intros w [->|Hw]%elem_of_cons; auto.
    + exists [], (l1 ++ y :: l2). split_and!; [done|by intros ? ?%elem_of_nil|].
      intros w [Hw|[->|Hw]%elem_of_cons]%elem_of_app; [specialize (H1 w Hw)| |specialize (H2 w Hw)]; lia.
  - intros [= <-]. destruct l as [|y l]; [|cbn in E; by destruct (min_by_key f l) as [w|]; [destruct (_ <? _)|]].
    exists [], []. split_and!; [done|by intros ? ?%elem_of_nil..].
Qed.

Lemma zip_seqZ_split {A} (l : list A) : ∀ a l1 i x l2,
  zip (seqZ a (len l)) l = l1 ++ (i, x) :: l2 →
  l = l1.*2 ++ x :: l2.*2 ∧ i = a + len l1.
Proof.
  induction l as [|y l IH]; intros a l1 i x l2; [by destruct l1; destruct (seqZ _ _)|].
  rewrite len_cons, seqZ_cons by (pose proof (len_nonneg l); lia).
  replace (Z.pred (1 + len l)) with (len l) by lia. cbn [zip zip_with].
  destruct l1 as [|z l1]; cbn.
  - intros [= <- <- <-]. change (@len (Z * A) []) with 0. split; [|lia]. f_equal.
    clear IH. generalize (Z.succ a) as b. induction l as [|w l IH]; intros b; [done|].
    rewrite len_cons, seqZ_cons by (pose proof (len_nonneg l); lia).
    replace (Z.pred (1 + len l)) with (len l) by lia. cbn. f_equal. apply IH.
  - intros [= <- (-> & ->)%IH]. split; [done|]. rewrite len_cons. lia.
Qed.

Section properties.
Context `{Aes : Aegis128L, Bl : Blake3, It : HashIter}.

(** The packet [run_until_idle] delivers next. *)
Lemma next_packet_split (s : TestShell) i due :
  next_packet_index s = Some (i, due) →
  ∃ q1 p q2, packets s = q1 ++ p :: q2 ∧ i = len q1 ∧ due = SP.due_ms p
    ∧ (∀ p', p' ∈ q1 → due < SP.due_ms p') ∧ ∀ p', p' ∈ q2 → due <= SP.due_ms p'.
Proof.
  unfold next_packet_index. destruct (min_by_key _ _) as [[j p]|] eqn:E; [|done].
  cbn. intros [= <- <-]. apply min_by_key_spec in E as (l1 & l2 & Hl & H1 & H2).
  apply zip_seqZ_split in Hl as [Hq ->]. exists l1.*2, p, l2.*2. split_and!; [done| |done|..].
  - by rewrite len_map.
  - intros p' (x & -> & Hx)%list_elem_of_fmap. exact (H1 x Hx).
  - intros p' (x & -> & Hx)%list_elem_of_fmap. exact (H2 x Hx).
Qed.

(** C34: packets are conserved. In every simulation, whatever the cores send and
    the links lose, each packet sent or replayed is delivered, counted as
    dropped, or in flight, as long as the counters have not saturated. *)
Theorem simulation_conserves_packets nesting replays (s : TestShell) :
  simulation nesting replays s →
  TestMetrics.sent_packets (metrics s) + replays < U64_MAX →
  TestMetrics.sent_packets (metrics s) + replays
  = TestMetrics.delivered_packets (metrics s) + TestMetrics.dropped_packets (metrics s)
    + len (packets s).
Proof.
  intros [_ Hr]%simulation_runs Hsat.
  apply runs_conserved in Hr as (H0 & a & d & l & Ha & Hd & Hl & E1 & E2 & E3 & Hsum).
  cbn in *. pose proof (len_nonneg (packets s)). lia.
Qed.

(** C35: links deliver in order. In every simulation without replays the packet
    delivered next is the first one sent of those in flight on its link, and no
    packet in flight is due earlier. *)
Theorem simulation_links_are_fifo nesting (s : TestShell) i due :
  simulation nesting 0 s → next_packet_index s = Some (i, due) →
  ∃ q1 p q2, packets s = q1 ++ p :: q2 ∧ i = len q1 ∧ due = SP.due_ms p
    ∧ (∀ p', p' ∈ q1 → key p' ≠ key p)
    ∧ ∀ p', p' ∈ packets s → due <= SP.due_ms p'.
Proof.
  intros [_ Hr%runs_fifo]%simulation_runs (q1 & p & q2 & Hq & -> & -> & H1 & H2)%next_packet_split.
  exists q1, p, q2. split_and!; [done|done|done|..].
  - intros p' Hp' Hk. specialize (H1 p' Hp').
    assert (SP.due_ms p' <= SP.due_ms p); [|lia]. apply (fifo_sorted _ Hr); [|done].
    cbn. rewrite Hq. apply (sublist_app [p'] q1 [p]).
    + by apply singleton_sublist_l.
    + apply singleton_sublist_l. by left.
  - rewrite Hq. intros p' [Hp'|[->|Hp']%elem_of_cons]%elem_of_app;
      [specialize (H1 p' Hp')| |specialize (H2 p' Hp')]; lia.
Qed.

End properties.

(** ** Simulations *)

#[local] Existing Instance toy_aegis.
#[local] Existing Instance toy_blake3.
#[local] Existing Instance toy_iter.

Definition demo_config (seed : Z) (channels : list ChannelId) (graph : list (list RouteEdge.t)) :=
  endpoint_config (vec 16 5) (vec 16 7) (vec 16 seed) 0 channels (route_graph graph) kcp_config.

Definition demo_link (from_node from_channel to_node to_channel : Z) : SimLink.t :=
  SimLink.Build_t from_node from_channel to_node to_channel 5 100 NoLoss 0 [].

(** Two endpoints and a link each way. *)
Definition demo_pair : comp TestShell :=
  s ← add_endpoint new 1 (demo_config 42 [11] [[route_edge 11 1]; []]) false;
  s ← add_endpoint s 2 (demo_config 43 [21] [[route_edge 21 1]; []]) true;
  Ret (add_link (add_link s (demo_link 1 11 2 21)) (demo_link 2 21 1 11)).

(** The echo test of the crate: what is sent comes back. *)
Example demo_echo :
  (s ← demo_pair;
   '(conv, s) ← open_session 6 s 1;
   s ← run_until_idle 6 256 s;
   '(_, s) ← send_session_bytes 6 s 1 conv [100; 101; 116];
   s ← run_until_idle 6 256 s;
   Ret (session_bytes s 1 conv, len (packets s))) = Ret (Some [100; 101; 116], 0).
Proof. by vm_compute. Qed.

(** Two relays, and a first channel that is down: the first packet fails over
    to the other channel, and the echo comes back without using the first. *)
Definition demo_multihop : comp TestShell :=
  s ← add_endpoint new 1 (demo_config 1 [11; 12]
    [[route_edge 11 1; route_edge 12 2]; [route_edge 21 3]; [route_edge 31 3]; []]) false;
  let s := add_relay s 2 (relay_config (vec 16 5) (vec 16 2) 0 [21; 51]) in
  let s := add_relay s 3 (relay_config (vec 16 5) (vec 16 3) 0 [31]) in
  s ← add_endpoint s 4 (demo_config 4 [41] [[route_edge 41 1]; [route_edge 51 2]; []]) true;
  Ret (foldl add_link s
    [SimLink.Build_t 1 11 2 201 5 100 NoLoss 0 [DownWindow.Build_t 0 U64_MAX];
     demo_link 2 21 4 401; demo_link 1 12 3 301; demo_link 3 31 4 401; demo_link 4 41 2 202;
     demo_link 2 51 1 101; demo_link 4 41 3 302; demo_link 3 61 1 101]).

Example demo_multihop_echo :
  (s ← demo_multihop;
   '(conv, s) ← open_session 6 s 1;
   s ← run_until_idle 6 128 s;
   '(_, s) ← send_session_bytes 6 s 1 conv [114; 111];
   s ← run_until_idle 6 256 s;
   Ret (session_bytes s 1 conv, delivered_on s 1 11, 0 <? delivered_on s 1 12))
  = Ret (Some [114; 111], 0, true).
Proof. by vm_compute. Qed.

(** The clock can go back: three endpoints whose keep-alives are due together
    are polled at 100, 101 and 102, past the packet that was due at 101. *)
Definition demo_keepalive (seed channel : Z) : EndpointConfig.t :=
  (demo_config seed [channel] [[route_edge channel 1]; []])
    <| EndpointConfig.keepalive_interval_ms := 100 |>.

Definition demo_three : comp TestShell :=
  s ← add_endpoint new 1 (demo_keepalive 42 11) false;
  s ← add_endpoint s 2 (demo_keepalive 43 21) false;
  s ← add_endpoint s 3 (demo_keepalive 44 31) false;
  Ret (foldl add_link s
    [SimLink.Build_t 1 11 2 21 1 0 NoLoss 0 []; SimLink.Build_t 2 21 1 11 1 0 NoLoss 0 []]).

Fixpoint clocks (turns : nat) (s : TestShell) : comp (list Z) :=
  match turns with
  | O => Ret [now_ms s]
  | S turns => '(_, s') ← turn 6 s; rest ← clocks turns s'; Ret (now_ms s :: rest)
  end.

Fact clock_goes_back : demo_three ≫= clocks 4 = Ret [0; 100; 101; 102; 101].
Proof. by vm_compute. Qed.

(** ** Witnesses *)

(** The pair as it is built up, and after a session was opened: its first
    packet is in flight. *)
Definition or_new (m : comp TestShell) : TestShell := match m with Ret s => s | _ => new end.

Definition demo_first : TestShell :=
  Eval vm_compute in or_new (add_endpoint new 1 (demo_config 42 [11] [[route_edge 11 1]; []]) false).
Definition demo_second : TestShell :=
  Eval vm_compute in
    or_new (add_endpoint demo_first 2 (demo_config 43 [21] [[route_edge 21 1]; []]) true).
Definition demo_linked : TestShell :=
  add_link (add_link demo_second (demo_link 1 11 2 21)) (demo_link 2 21 1 11).
Definition demo_opened : Z * TestShell :=
  Eval vm_compute in match open_session 6 demo_linked 1 with Ret r => r | _ => (0, new) end.

Lemma demo_opened_simulation : simulation 6 0 demo_opened.2.
Proof.
  apply (sim_open 6 0 demo_linked 1 demo_opened.1); [|by vm_compute].
  do 2 (apply sim_add_link; [|done]).
  apply (sim_add_endpoint 6 0 demo_first 2 (demo_config 43 [21] [[route_edge 21 1]; []]) true);
    [|by vm_compute].
  apply (sim_add_endpoint 6 0 new 1 (demo_config 42 [11] [[route_edge 11 1]; []]) false);
    [apply sim_new|by vm_compute].
Qed.

Lemma simulation_conserves_packets_witness :
  TestMetrics.sent_packets (metrics demo_opened.2) + 0
  = TestMetrics.delivered_packets (metrics demo_opened.2)
    + TestMetrics.dropped_packets (metrics demo_opened.2) + len (packets demo_opened.2).
Proof.
  apply (simulation_conserves_packets 6 0 demo_opened.2).
  - exact demo_opened_simulation.
  - vm_compute. reflexivity.
Defined.

Lemma simulation_links_are_fifo_witness :
  ∃ q1 p q2, packets demo_opened.2 = q1 ++ p :: q2 ∧ 0 = len q1 ∧ 9 = SP.due_ms p
    ∧ (∀ p', p' ∈ q1 → key p' ≠ key p)
    ∧ ∀ p', p' ∈ packets demo_opened.2 → 9 <= SP.due_ms p'.
Proof.
  apply (simulation_links_are_fifo 6 demo_opened.2 0 9).
  - exact demo_opened_simulation.
  - vm_compute. reflexivity.
Defined.
