(* ===== verification/Socks5.v ===== *)
(** * The SOCKS5 proxy plugin

    [proxy_socks5.rs].  The entry side speaks SOCKS5 with a local client and
    passes its request through the session; the exit side parses the request,
    connects, and answers; then both relay bytes until each direction ended.

    A TCP stream is the bytes still to come and the bytes written; a write
    fails once the peer is gone, after [writes_left] more writes.  Strings are
    lists of UTF-8 bytes; printing an address and [str::from_utf8] are the
    standard library's.  Sockets, tasks and channels are the environment: the
    outcome of each [await] is an argument. *)

From S2P Require Import Prelude Bytes Core.

(** ** proxy.rs *)

Inductive ProxyMessage : Type :=
  | Write (bytes : list Z)
  | Close (reason : CloseReason).

(** ** Streams *)

Module Stream.
Record t := { incoming : list Z; written : list Z; writes_left : nat }.

#[global] Instance eta_Stream : Eta t := λ s,
  Build_t (incoming s) (written s) (writes_left s).
End Stream.

Definition io (A : Type) : Type := Stream.t → result unit A * Stream.t.

Definition io_ret {A} (a : A) : io A := λ s, (Ok a, s).
Definition io_fail {A} : io A := λ s, (Err (), s).
Definition io_bind {A B} (m : io A) (k : A → io B) : io B := λ s,
  match m s with (Ok a, s) => k a s | (Err e, s) => (Err e, s) end.

Notation "x ←! m ; k" := (io_bind m (λ x, k))
  (at level 20, m at level 100, k at level 200, right associativity, only parsing)
  : rust_scope.

(** [read_exact] into a buffer of [n] bytes: the end of the stream is an error. *)
Definition read_exact (n : Z) : io (list Z) := λ s,
  if len (Stream.incoming s) <? n then (Err (), s <| Stream.incoming := [] |>)
  else (Ok (take (Z.to_nat n) (Stream.incoming s)),
        s <| Stream.incoming ::= drop (Z.to_nat n) |>).

Definition write_all (bytes : list Z) : io unit := λ s,
  match Stream.writes_left s with
  | O => (Err (), s)
  | S more => (Ok (), s <| Stream.written ::= λ w, w ++ bytes |> <| Stream.writes_left := more |>)
  end.

(** ** Addresses *)

Inductive IpAddr : Type := V4 (octets : list Z) | V6 (octets : list Z).

Module SocketAddr.
Record t := { ip : IpAddr; port : Z }.
End SocketAddr.

(** [to_be_bytes] and [from_be_bytes] of a [u16]. *)
Definition to_be16 (p : Z) : list Z := [wrap 8 (p / 256); wrap 8 p].
Definition from_be16 (bytes : list Z) : Z := foldl (λ acc b, acc * 256 + b) 0 bytes.

Definition reply (status : Z) (addr : option SocketAddr.t) : list Z :=
  let addr := default (SocketAddr.Build_t (V4 [0; 0; 0; 0]) 0) addr in
  [5; status; 0]
  ++ match SocketAddr.ip addr with
     | V4 octets => 1 :: octets
     | V6 octets => 4 :: octets
     end
  ++ to_be16 (SocketAddr.port addr).

(** ** Printing addresses (core::fmt and core::net) *)

Definition digit (d : Z) : Z := if d <? 10 then 48 + d else 87 + d.

(** The digits of a number in a base, most significant first. *)
Fixpoint digits (fuel : nat) (base z : Z) : list Z :=
  match fuel with
  | O => []
  | S fuel => (if z <? base then [] else digits fuel base (z / base)) ++ [digit (z mod base)]
  end.

(** Decimal and hexadecimal of a [u16]. *)
Definition show_dec (z : Z) : list Z := digits 5 10 z.
Definition show_hex (z : Z) : list Z := digits 4 16 z.

Definition COLON : Z := 58.
Definition DOT : Z := 46.

Fixpoint intersperse (sep : list Z) (l : list (list Z)) : list Z :=
  match l with
  | [] => []
  | [x] => x
  | x :: l => x ++ sep ++ intersperse sep l
  end.

Definition show_v4 (octets : list Z) : list Z := intersperse [DOT] (show_dec <$> octets).

(** The eight 16-bit segments. *)
Fixpoint segments (octets : list Z) : list Z :=
  match octets with
  | a :: b :: rest => a * 256 + b :: segments rest
  | _ => []
  end.

(** The first longest run of zero segments: its start and length. *)
Fixpoint longest_zeroes (i : Z) (l : list Z) (current longest : Z * Z) : Z * Z :=
  match l with
  | [] => longest
  | segment :: l =>
      if segment =? 0 then
        let current := (if current.2 =? 0 then i else current.1, current.2 + 1) in
        longest_zeroes (i + 1) l current (if longest.2 <? current.2 then current else longest)
      else longest_zeroes (i + 1) l (0, 0) longest
  end.

Definition show_segments (l : list Z) : list Z := intersperse [COLON] (show_hex <$> l).

Definition show_v6 (octets : list Z) : list Z :=
  let l := segments octets in
  if bool_decide (take 6 l = [0; 0; 0; 0; 0; 65535])
  then [COLON; COLON; 102; 102; 102; 102; COLON] ++ show_v4 (drop 12 octets) else
  let '(start, length) := longest_zeroes 0 l (0, 0) (0, 0) in
  if 1 <? length
  then show_segments (take (Z.to_nat start) l) ++ [COLON; COLON]
       ++ show_segments (drop (Z.to_nat (start + length)) l)
  else show_segments l.

(** [str::from_utf8]: well-formed UTF-8, without overlong forms, surrogates or
    code points past U+10FFFF. *)
Definition cont (b : Z) : bool := (128 <=? b) && (b <=? 191).
Definition between (lo hi b : Z) : bool := (lo <=? b) && (b <=? hi).

Fixpoint utf8_ok (fuel : nat) (l : list Z) : bool :=
  match fuel, l with
  | _, [] => true
  | O, _ => false
  | S fuel, b :: l =>
      if b <? 128 then utf8_ok fuel l else
      match l with
      | c :: l1 =>
          if between 194 223 b then cont c && utf8_ok fuel l1 else
          match l1 with
          | d :: l2 =>
              if between 224 239 b then
                between (if b =? 224 then 160 else 128) (if b =? 237 then 159 else 191) c
                && cont d && utf8_ok fuel l2
              else
              match l2 with
              | e :: l3 =>
                  between 240 244 b
                  && between (if b =? 240 then 144 else 128) (if b =? 244 then 143 else 191) c
                  && cont d && cont e && utf8_ok fuel l3
              | [] => false
              end
          | [] => false
          end
      | [] => false
      end
  end.

Definition from_utf8 (bytes : list Z) : result unit (list Z) :=
  if utf8_ok (length bytes) bytes then Ok bytes else Err ().

(** ** The handshake *)

Definition handshake : io (list Z) :=
  greeting ←! read_exact 2;
  methods ←! read_exact (nth 1 greeting 0);
  if negb (nth 0 greeting 0 =? 5) || negb (existsb (Z.eqb 0) methods)
  then _ ←! write_all [5; 255]; io_fail else
  _ ←! write_all [5; 0];
  header ←! read_exact 4;
  if negb (bool_decide (take 3 header = [5; 1; 0]))
  then _ ←! write_all (reply 7 None); io_fail else
  let kind := nth 3 header 0 in
  if kind =? 1 then rest ←! read_exact 6; io_ret (header ++ rest) else
  if kind =? 4 then rest ←! read_exact 18; io_ret (header ++ rest) else
  if kind =? 3 then
    length ←! read_exact 1;
    let request := header ++ length in
    rest ←! read_exact (nth 0 length 0 + 2);
    io_ret (request ++ rest)
  else _ ←! write_all (reply 8 None); io_fail.

(** [target]: the [host:port] a request names. *)
Definition target (request : list Z) : comp (result unit (list Z)) :=
  if negb (bool_decide (3 <= len request ∧ take 3 request = [5; 1; 0])) then Ret (Err ()) else
  let size := len request in
  let length :=
    match request !! 3%nat with
    | Some 1 => if size =? 10 then Some 4 else None
    | Some 4 => if size =? 22 then Some 16 else None
    | Some 3 =>
        if (7 <=? size) && (size =? nth 4 request 0 + 7) then Some (nth 4 request 0) else None
    | _ => None
    end in
  match length with
  | None => Ret (Err ())
  | Some length =>
      port_bytes ← slice request (size -{64} 2) size;
      let port := show_dec (from_be16 port_bytes) in
      kind ← index request 3;
      if kind =? 1 then
        octets ← slice request 4 8;
        Ret (Ok (show_v4 octets ++ [COLON] ++ port))
      else if kind =? 4 then
        octets ← slice request 4 20;
        Ret (Ok ([91] ++ show_v6 octets ++ [93; COLON] ++ port))
      else if kind =? 3 then
        host ← slice request 5 (5 +{64} length);
        Ret (match from_utf8 host with
             | Ok host => Ok (host ++ [COLON] ++ port)
             | Err e => Err e
             end)
      else Panic
  end.

(** ** Sessions *)

(** A task that talks to the shell: the messages it has sent and whether the
    shell still receives them, for [sends_left] more messages. *)
Module Output.
Record t := { sent : list ProxyMessage; sends_left : nat }.

#[global] Instance eta_Output : Eta t := λ o, Build_t (sent o) (sends_left o).
End Output.

Definition send (message : ProxyMessage) (out : Output.t) : result unit unit * Output.t :=
  match Output.sends_left out with
  | O => (Err (), out)
  | S more => (Ok (), out <| Output.sent ::= λ l, l ++ [message] |> <| Output.sends_left := more |>)
  end.

(** *** Relaying *)

Module Transfer.
Record t := {
  (** what reached the TCP peer, and whether that half was shut down *)
  delivered : list Z;
  shut : bool;
  read_open : bool;
  write_open : bool;
  output : Output.t;
}.

#[global] Instance eta_Transfer : Eta t := λ s,
  Build_t (delivered s) (shut s) (read_open s) (write_open s) (output s).

Definition start (output : Output.t) : t := Build_t [] false true true output.
End Transfer.

(** What [select!] completes with: a message of the shell, with the outcome of
    the write it leads to ([Some n]: it failed after [n] bytes), or the outcome
    of a read of the stream. *)
Inductive TransferEvent : Type :=
  | Received (message : option ProxyMessage) (failed : option nat)
  | ReadDone (r : result unit (list Z)).

(** Running, or left with a result. *)
Inductive Outcome : Type := Running | Finished (r : result unit unit).

(** After either branch: both directions over. *)
Definition transfer_end (close_reason : CloseReason) (s : Transfer.t) : Outcome * Transfer.t :=
  if negb (Transfer.read_open s) && negb (Transfer.write_open s)
  then let '(r, out) := send (Close close_reason) (Transfer.output s) in
       (Finished r, s <| Transfer.output := out |>)
  else (Running, s).

Definition transfer_send (close_reason : CloseReason) (message : ProxyMessage) (s : Transfer.t)
    : Outcome * Transfer.t :=
  match send message (Transfer.output s) with
  | (Ok _, out) => transfer_end close_reason (s <| Transfer.output := out |>)
  | (Err e, out) => (Finished (Err e), s <| Transfer.output := out |>)
  end.

(** One turn of the loop; the read branch is only polled while [read_open], and
    the stream refuses writes once shut down. *)
Definition transfer_step (close_reason : CloseReason) (s : Transfer.t) (event : TransferEvent)
    : Outcome * Transfer.t :=
  match event with
  | Received (Some (Write [])) failed =>
      match failed with
      | None =>
          transfer_end close_reason
            (s <| Transfer.shut := true |> <| Transfer.write_open := false |>)
      | Some _ => (Finished (Err ()), s)
      end
  | Received (Some (Write bytes)) failed =>
      if Transfer.shut s then (Finished (Err ()), s) else
      match failed with
      | None => transfer_end close_reason (s <| Transfer.delivered ::= λ d, d ++ bytes |>)
      | Some n => (Finished (Err ()), s <| Transfer.delivered ::= λ d, d ++ take n bytes |>)
      end
  | Received (Some (Close _)) _ | Received None _ => (Finished (Ok ()), s)
  | ReadDone r =>
      if negb (Transfer.read_open s) then (Running, s) else
      match r with
      | Ok [] => transfer_send close_reason (Write []) (s <| Transfer.read_open := false |>)
      | Ok bytes => transfer_send close_reason (Write bytes) s
      | Err e => (Finished (Err e), s)
      end
  end.

(** The loop over the events of a connection. *)
Fixpoint transfer (close_reason : CloseReason) (events : list TransferEvent) (s : Transfer.t)
    : Outcome * Transfer.t :=
  match events with
  | [] => (Running, s)
  | event :: events =>
      match transfer_step close_reason s event with
      | (Running, s) => transfer close_reason events s
      | r => r
      end
  end.

(** *** The two ends *)

(** The end of a task: a failure closes the session. *)
Definition close_on_error (r : Outcome) (out : Output.t) : Output.t :=
  match r with Finished (Err _) => (send (Close Reset) out).2 | _ => out end.

(** What [run_entry] does before the transfer: the request goes out, and
    the answer to the client.  [None] when the session ends there. *)
Definition entry_request (request : list Z) (out : Output.t) : result unit unit * Output.t :=
  send (Write request) out.

Definition entry_reply (answer : option ProxyMessage) : io (option unit) :=
  match answer with
  | Some (Write reply) =>
      match reply !! 1%nat with
      | None => io_fail
      | Some status =>
          _ ←! write_all reply;
          io_ret (if status =? 0 then Some () else None)
      end
  | _ => io_ret None
  end.

(** What [run_exit] does before the transfer; [connect] is the outcome of
    [TcpStream::connect] and of [local_addr] on the address it is given. *)
Definition exit_request (connect : list Z → option (option SocketAddr.t))
    (request : option ProxyMessage) (out : Output.t)
    : comp (result unit (option unit) * Output.t) :=
  match request with
  | Some (Write request) =>
      r ← target request;
      match r with
      | Err e => Ret (Err e, out)
      | Ok address =>
          match connect address with
          | None =>
              match send (Write (reply 5 None)) out with
              | (Err e, out) => Ret (Err e, out)
              | (Ok _, out) =>
                  let '(r, out) := send (Close Reset) out in
                  Ret (match r with Ok _ => Ok None | Err e => Err e end, out)
              end
          | Some None => Ret (Err (), out)
          | Some (Some bound_addr) =>
              let '(r, out) := send (Write (reply 0 (Some bound_addr))) out in
              Ret (match r with Ok _ => Ok (Some ()) | Err e => Err e end, out)
          end
      end
  | _ => Ret (Ok None, out)
  end.

(** A whole session of either end, over the events of its connection. *)
Definition run_entry (request : list Z) (answer : option ProxyMessage)
    (events : list TransferEvent) (stream : Stream.t) (out : Output.t) : Outcome * Output.t :=
  match entry_request request out with
  | (Err e, out) => (Finished (Err e), out)
  | (Ok _, out) =>
      match entry_reply answer stream with
      | (Err e, _) => (Finished (Err e), out)
      | (Ok None, _) => (Finished (Ok ()), out)
      | (Ok (Some _), _) =>
          let '(r, s) := transfer LocalClosed events (Transfer.start out) in
          (r, Transfer.output s)
      end
  end.

Definition run_exit (connect : list Z → option (option SocketAddr.t))
    (request : option ProxyMessage) (events : list TransferEvent) (out : Output.t)
    : comp (Outcome * Output.t) :=
  '(r, out) ← exit_request connect request out;
  Ret match r with
      | Err e => (Finished (Err e), out)
      | Ok None => (Finished (Ok ()), out)
      | Ok (Some _) =>
          let '(r, s) := transfer RemoteClosed events (Transfer.start out) in
          (r, Transfer.output s)
      end.

(** ** Examples *)

Definition demo_stream (bytes : list Z) : Stream.t := Stream.Build_t bytes [] 10.

(** A client asks for [a.io:443]. *)
Example demo_handshake :
  handshake (demo_stream [5; 1; 0; 5; 1; 0; 3; 4; 97; 46; 105; 111; 1; 187; 9])
  = (Ok [5; 1; 0; 3; 4; 97; 46; 105; 111; 1; 187], Stream.Build_t [9] [5; 0] 9).
Proof. by vm_compute. Qed.

Example demo_target :
  target [5; 1; 0; 3; 4; 97; 46; 105; 111; 1; 187]
  = Ret (Ok [97; 46; 105; 111; 58; 52; 52; 51]).
Proof. by vm_compute. Qed.

(** [::1] and [2001:db8::1:0:0:1]. *)
Example demo_v6 :
  show_v6 [0;0;0;0;0;0;0;0;0;0;0;0;0;0;0;1] = [58; 58; 49]
  ∧ show_v6 [32;1;13;184;0;0;0;0;0;1;0;0;0;0;0;1]
    = [50;48;48;49; 58; 100;98;56; 58;58; 49; 58; 48; 58; 48; 58; 49].
Proof. by vm_compute. Qed.
