(* ===== verification/Socks5Facts.v ===== *)
(** * Correctness of the SOCKS5 plugin

    The requests the entry side accepts are exactly the well-formed ones, and
    they are what the exit side parses; relaying is a pipe in both directions
    that closes once, after both ended. *)

From S2P Require Import Prelude Bytes Core Socks5.

(** ** Streams *)

Lemma read_exact_inv n s bytes s' :
  0 <= n → read_exact n s = (Ok bytes, s') →
  Stream.incoming s = bytes ++ Stream.incoming s' ∧ len bytes = n
  ∧ Stream.written s' = Stream.written s ∧ Stream.writes_left s' = Stream.writes_left s.
Proof.
  intros Hn. unfold read_exact. destruct (Z.ltb_spec (len (Stream.incoming s)) n); [done|].
  intros [= <- <-]. destruct s as [inc w k]. cbn in *. rewrite take_drop.
  split_and!; [done| |done|done]. unfold len in *. rewrite length_take. lia.
Qed.

Lemma read_exact_app (bytes rest w : list Z) k n :
  n = len bytes →
  read_exact n (Stream.Build_t (bytes ++ rest) w k) = (Ok bytes, Stream.Build_t rest w k).
Proof.
  intros ->. unfold read_exact. cbn [Stream.incoming]. rewrite len_app.
  pose proof (len_nonneg rest). rewrite (proj2 (Z.ltb_ge _ _)) by lia.
  unfold len. rewrite Nat2Z.id. rewrite take_app_length.
  change ((Stream.Build_t (bytes ++ rest) w k) <| Stream.incoming ::= drop (length bytes) |>)
    with (Stream.Build_t (drop (length bytes) (bytes ++ rest)) w k).
  by rewrite drop_app_length.
Qed.

Lemma write_all_inv bytes s s' :
  write_all bytes s = (Ok (), s') →
  Stream.incoming s' = Stream.incoming s ∧ Stream.written s' = Stream.written s ++ bytes
  ∧ Stream.writes_left s = S (Stream.writes_left s').
Proof.
  unfold write_all. destruct s as [inc w [|k]]; cbn; [done|]. by intros [= <-].
Qed.

Lemma io_bind_inv {A B} (m : io A) (k : A → io B) s b s' :
  io_bind m k s = (Ok b, s') → ∃ a s1, m s = (Ok a, s1) ∧ k a s1 = (Ok b, s').
Proof. unfold io_bind. destruct (m s) as [[a|e] s1]; [|done]. by exists a, s1. Qed.

Lemma io_bind_eq {A B} (m : io A) (k : A → io B) s a s1 :
  m s = (Ok a, s1) → io_bind m k s = k a s1.
Proof. unfold io_bind. by intros ->. Qed.

(** ** Requests *)

Inductive Address : Type :=
  | HostV4 (octets : list Z)
  | HostV6 (octets : list Z)
  | HostName (name : list Z).

Definition address_ok (a : Address) : Prop :=
  match a with
  | HostV4 octets => len octets = 4 ∧ bytes_ok octets
  | HostV6 octets => len octets = 16 ∧ bytes_ok octets
  | HostName name => len name <= 255 ∧ bytes_ok name
  end.

(** The address field of a request (RFC 1928): type, address, port. *)
Definition address_field (a : Address) : list Z :=
  match a with
  | HostV4 octets => 1 :: octets
  | HostV6 octets => 4 :: octets
  | HostName name => 3 :: len name :: name
  end.

Definition request_of (a : Address) (port : Z) : list Z :=
  [5; 1; 0] ++ address_field a ++ to_be16 port.

(** [host:port], unless the name is not UTF-8. *)
Definition address_text (a : Address) (port : Z) : result unit (list Z) :=
  match a with
  | HostV4 octets => Ok (show_v4 octets ++ [COLON] ++ show_dec port)
  | HostV6 octets => Ok ([91] ++ show_v6 octets ++ [93; COLON] ++ show_dec port)
  | HostName name =>
      match from_utf8 name with
      | Ok host => Ok (host ++ [COLON] ++ show_dec port)
      | Err e => Err e
      end
  end.

Lemma be16_roundtrip p : in_width 16 p → from_be16 (to_be16 p) = p.
Proof.
  intros Hp. unfold from_be16, to_be16. cbn [foldl]. unfold wrap, in_width in *.
  rewrite (Z.mod_small (p / 256)) by (split; [apply Z.div_pos; lia|apply Z.div_lt_upper_bound; lia]).
  change (2 ^ 8) with 256. pose proof (Z.div_mod p 256). lia.
Qed.

Lemma be16_of_bytes a b : in_width 8 a → in_width 8 b →
  in_width 16 (from_be16 [a; b]) ∧ to_be16 (from_be16 [a; b]) = [a; b].
Proof.
  unfold in_width. intros Ha Hb. unfold from_be16. cbn [foldl].
  split; [change (2 ^ 16) with 65536; change (2 ^ 8) with 256 in *; lia|].
  unfold to_be16, wrap. change (2 ^ 8) with 256 in *.
  replace ((0 * 256 + a) * 256 + b) with (b + a * 256) by lia.
  rewrite Z.div_add, Z.div_small, Z.add_0_l, Z_mod_plus_full, !Z.mod_small by lia. done.
Qed.

Lemma last_two pre port size :
  size = len pre + 2 → size < 2 ^ 64 →
  slice (pre ++ to_be16 port) (size -{64} 2) size = Ret (to_be16 port).
Proof.
  intros -> Hs. pose proof (len_nonneg pre). rewrite wrap_id by lia.
  apply slice_app_r; [lia|done].
Qed.

Lemma target_v4 octets port :
  len octets = 4 → in_width 16 port →
  target (request_of (HostV4 octets) port)
  = Ret (Ok (show_v4 octets ++ [COLON] ++ show_dec port)).
Proof.
  intros Hl Hp. change (request_of _ port) with ([5; 1; 0; 1] ++ octets ++ to_be16 port).
  assert (len ([5; 1; 0; 1] ++ octets ++ to_be16 port) = 10) as Hx
    by (rewrite !len_app, Hl; done).
  unfold target. rewrite Hx. rewrite bool_decide_eq_true_2 by done.
  change (([5; 1; 0; 1] ++ octets ++ to_be16 port) !! 3%nat) with (Some 1).
  cbn [negb Z.eqb Pos.eqb]. rewrite (assoc_L (++)) at 1.
  rewrite last_two by (rewrite ?len_app, ?Hl; done). cbn [mbind comp_bind].
  change (index ([5; 1; 0; 1] ++ octets ++ to_be16 port) 3) with (@Ret Z 1).
  cbn [mbind comp_bind Z.eqb Pos.eqb].
  rewrite (slice_app [5; 1; 0; 1] octets (to_be16 port) 4 8) by (rewrite ?Hl; done).
  cbn [mbind comp_bind]. by rewrite be16_roundtrip.
Qed.

Lemma target_v6 octets port :
  len octets = 16 → in_width 16 port →
  target (request_of (HostV6 octets) port)
  = Ret (Ok ([91] ++ show_v6 octets ++ [93; COLON] ++ show_dec port)).
Proof.
  intros Hl Hp. change (request_of _ port) with ([5; 1; 0; 4] ++ octets ++ to_be16 port).
  assert (len ([5; 1; 0; 4] ++ octets ++ to_be16 port) = 22) as Hx
    by (rewrite !len_app, Hl; done).
  unfold target. rewrite Hx. rewrite bool_decide_eq_true_2 by done.
  change (([5; 1; 0; 4] ++ octets ++ to_be16 port) !! 3%nat) with (Some 4).
  cbn [negb Z.eqb Pos.eqb]. rewrite (assoc_L (++)) at 1.
  rewrite last_two by (rewrite ?len_app, ?Hl; done). cbn [mbind comp_bind].
  change (index ([5; 1; 0; 4] ++ octets ++ to_be16 port) 3) with (@Ret Z 4).
  cbn [mbind comp_bind Z.eqb Pos.eqb].
  rewrite (slice_app [5; 1; 0; 4] octets (to_be16 port) 4 20) by (rewrite ?Hl; done).
  cbn [mbind comp_bind]. by rewrite be16_roundtrip.
Qed.

Lemma target_name name port :
  len name <= 255 → in_width 16 port →
  target (request_of (HostName name) port) = Ret (address_text (HostName name) port).
Proof.
  intros Hl Hp. pose proof (len_nonneg name).
  change (request_of _ port) with ([5; 1; 0; 3; len name] ++ name ++ to_be16 port).
  assert (len ([5; 1; 0; 3; len name] ++ name ++ to_be16 port) = len name + 7) as Hx.
  { rewrite !len_app. change (len [5; 1; 0; 3; len name]) with 5.
    change (len (to_be16 port)) with 2. lia. }
  unfold target. rewrite Hx. rewrite bool_decide_eq_true_2 by (split; [lia|done]).
  change (([5; 1; 0; 3; len name] ++ name ++ to_be16 port) !! 3%nat) with (Some 3).
  change (nth 4 ([5; 1; 0; 3; len name] ++ name ++ to_be16 port) 0) with (len name).
  cbn [negb]. rewrite (proj2 (Z.leb_le _ _)), Z.eqb_refl by lia. cbn [andb].
  rewrite (assoc_L (++)) at 1.
  rewrite last_two; [|rewrite len_app; change (len [5; 1; 0; 3; len name]) with 5; lia|lia].
  cbn [mbind comp_bind].
  change (index ([5; 1; 0; 3; len name] ++ name ++ to_be16 port) 3) with (@Ret Z 3).
  cbn [mbind comp_bind Z.eqb Pos.eqb]. rewrite wrap_id by lia.
  rewrite (slice_app [5; 1; 0; 3; len name] name (to_be16 port) 5 (5 + len name)) by done.
  cbn [mbind comp_bind address_text]. by rewrite be16_roundtrip.
Qed.

Lemma target_of_request a port :
  address_ok a → in_width 16 port → target (request_of a port) = Ret (address_text a port).
Proof.
  intros Ha Hp. destruct a as [octets|octets|name]; destruct Ha as [Hl _];
    [by apply target_v4|by apply target_v6|by apply target_name].
Qed.

(** ** The handshake *)

(** The client offers [methods], asks for [a] and [port], and was told that no
    authentication is needed. *)
Definition accepted (s s' : Stream.t) (methods : list Z) (a : Address) (port : Z) : Prop :=
  Stream.incoming s = 5 :: len methods :: methods ++ request_of a port ++ Stream.incoming s'
  ∧ 0 ∈ methods
  ∧ Stream.written s' = Stream.written s ++ [5; 0]
  ∧ Stream.writes_left s = S (Stream.writes_left s').

Lemma handshake_complete s s' methods a port :
  address_ok a → in_width 16 port → accepted s s' methods a port →
  handshake s = (Ok (request_of a port), s').
Proof.
  destruct s as [inc w k], s' as [inc' w' k']. unfold accepted. cbn.
  intros Ha Hp (-> & Hm & -> & ->). unfold handshake.
  erewrite io_bind_eq by exact (read_exact_app [5; len methods] _ _ _ 2 eq_refl). cbn [nth].
  erewrite io_bind_eq by by apply read_exact_app.
  rewrite (proj2 (existsb_exists _ _)) by (exists 0; split; [by apply list_elem_of_In|done]).
  cbn [negb orb Z.eqb Pos.eqb].
  erewrite io_bind_eq by reflexivity.
  assert (∀ kind rest, io_bind (read_exact 4) (λ header,
      if negb (bool_decide (take 3 header = [5; 1; 0])) then
        io_bind (write_all (reply 7 None)) (λ _, io_fail)
      else
        let kind := nth 3 header 0 in
        if kind =? 1 then io_bind (read_exact 6) (λ rest, io_ret (header ++ rest)) else
        if kind =? 4 then io_bind (read_exact 18) (λ rest, io_ret (header ++ rest)) else
        if kind =? 3 then
          io_bind (read_exact 1) (λ length,
            let request := header ++ length in
            io_bind (read_exact (nth 0 length 0 + 2)) (λ rest, io_ret (request ++ rest)))
        else io_bind (write_all (reply 8 None)) (λ _, io_fail))
      (Stream.Build_t ([5; 1; 0; kind] ++ rest) (w ++ [5; 0]) k')
    = (if kind =? 1 then io_bind (read_exact 6) (λ rest, io_ret ([5; 1; 0; kind] ++ rest)) else
       if kind =? 4 then io_bind (read_exact 18) (λ rest, io_ret ([5; 1; 0; kind] ++ rest)) else
       if kind =? 3 then
         io_bind (read_exact 1) (λ length,
           io_bind (read_exact (nth 0 length 0 + 2))
             (λ rest, io_ret (([5; 1; 0; kind] ++ length) ++ rest)))
       else io_bind (write_all (reply 8 None)) (λ _, io_fail))
      (Stream.Build_t rest (w ++ [5; 0]) k')) as Hheader.
  { intros kind rest. by erewrite io_bind_eq by by apply read_exact_app. }
  destruct a as [octets|octets|name]; destruct Ha as [Hl _].
  - change (request_of _ port ++ inc') with ([5; 1; 0; 1] ++ (octets ++ to_be16 port) ++ inc').
    setoid_rewrite Hheader. cbn [Z.eqb Pos.eqb].
    erewrite io_bind_eq; [reflexivity|apply read_exact_app].
    change (6 = len (octets ++ to_be16 port)). by rewrite len_app, Hl.
  - change (request_of _ port ++ inc') with ([5; 1; 0; 4] ++ (octets ++ to_be16 port) ++ inc').
    setoid_rewrite Hheader. cbn [Z.eqb Pos.eqb].
    erewrite io_bind_eq; [reflexivity|apply read_exact_app].
    change (18 = len (octets ++ to_be16 port)). by rewrite len_app, Hl.
  - change (request_of _ port ++ inc')
      with ([5; 1; 0; 3] ++ [len name] ++ (name ++ to_be16 port) ++ inc').
    setoid_rewrite Hheader. cbn [Z.eqb Pos.eqb].
    erewrite io_bind_eq by by apply (read_exact_app [len name]). cbn [nth].
    erewrite io_bind_eq; [reflexivity|apply read_exact_app].
    change (len name + 2 = len (name ++ to_be16 port)). by rewrite len_app.
Qed.

Lemma len_two (l : list Z) : len l = 2 → ∃ a b, l = [a; b].
Proof.
  destruct l as [|a [|b [|c l]]]; unfold len; cbn; try lia. intros _. by exists a, b.
Qed.

Lemma len_four (l : list Z) : len l = 4 → ∃ a b c d, l = [a; b; c; d].
Proof.
  destruct l as [|a [|b [|c [|d [|e l]]]]]; unfold len; cbn; try lia.
  intros _. by exists a, b, c, d.
Qed.

(** The tail of a request: [n] bytes that end in a port. *)
Lemma split_port l n :
  len l = n + 2 → 0 <= n → bytes_ok l →
  ∃ host port, l = host ++ to_be16 port ∧ len host = n ∧ bytes_ok host ∧ in_width 16 port.
Proof.
  intros Hl Hn Hb. rewrite <- (take_drop (Z.to_nat n) l) in Hb |- *.
  apply bytes_ok_app in Hb as [Hh Ht].
  assert (len (take (Z.to_nat n) l) = n) as Ehost by (unfold len in *; rewrite length_take; lia).
  assert (len (drop (Z.to_nat n) l) = 2) as (a & b & Eport)%len_two
    by (unfold len in *; rewrite length_drop; lia).
  rewrite Eport in *. apply Forall_cons in Ht as [Ha [Hb _]%Forall_cons].
  destruct (be16_of_bytes a b Ha Hb) as [Hw He].
  exists (take (Z.to_nat n) l), (from_be16 [a; b]). by rewrite He.
Qed.

(** What is left after the four header bytes. *)
Lemma request_inv kind request s s' :
  bytes_ok (Stream.incoming s) →
  (if kind =? 1 then rest ←! read_exact 6; io_ret ([5; 1; 0; kind] ++ rest) else
   if kind =? 4 then rest ←! read_exact 18; io_ret ([5; 1; 0; kind] ++ rest) else
   if kind =? 3 then
     length ←! read_exact 1;
     rest ←! read_exact (nth 0 length 0 + 2);
     io_ret (([5; 1; 0; kind] ++ length) ++ rest)
   else _ ←! write_all (reply 8 None); io_fail) s = (Ok request, s') →
  ∃ a port, address_ok a ∧ in_width 16 port ∧ request = request_of a port
    ∧ [5; 1; 0; kind] ++ Stream.incoming s = request_of a port ++ Stream.incoming s'
    ∧ Stream.written s' = Stream.written s ∧ Stream.writes_left s' = Stream.writes_left s.
Proof.
  intros Hb.
  destruct (Z.eqb_spec kind 1) as [->|_]; [|destruct (Z.eqb_spec kind 4) as [->|_];
    [|destruct (Z.eqb_spec kind 3) as [->|_]]].
  - intros (rest & s1 & (Hi & Hl & Hw & Hk)%read_exact_inv & [= <- <-])%io_bind_inv; [|done].
    rewrite Hi in Hb. apply bytes_ok_app in Hb as [Hb _].
    destruct (split_port rest 4 Hl ltac:(lia) Hb) as (host & port & -> & Hh & Hhb & Hp).
    exists (HostV4 host), port. rewrite Hi. split_and!; done.
  - intros (rest & s1 & (Hi & Hl & Hw & Hk)%read_exact_inv & [= <- <-])%io_bind_inv; [|done].
    rewrite Hi in Hb. apply bytes_ok_app in Hb as [Hb _].
    destruct (split_port rest 16 Hl ltac:(lia) Hb) as (host & port & -> & Hh & Hhb & Hp).
    exists (HostV6 host), port. rewrite Hi. split_and!; done.
  - intros (length & s1 & (Hi & Hl & Hw & Hk)%read_exact_inv & H)%io_bind_inv; [|done].
    assert (∃ n, length = [n]) as [n ->].
    { destruct length as [|n [|? ?]]; unfold len in Hl; cbn in Hl; try lia. by exists n. }
    cbn [nth] in H.
    rewrite Hi in Hb. apply bytes_ok_app in Hb as [[[Hn0 Hn1] _]%Forall_cons Hb].
    apply io_bind_inv in H as (rest & s2 & (Hi2 & Hl2 & Hw2 & Hk2)%read_exact_inv & [= <- <-]); [|lia].
    rewrite Hi2 in Hb. apply bytes_ok_app in Hb as [Hb _].
    destruct (split_port rest n Hl2 ltac:(lia) Hb) as (host & port & -> & Hh & Hhb & Hp).
    exists (HostName host), port. rewrite Hi, Hi2, Hw2, Hw, Hk2, Hk.
    split_and!; try done; [split; [change (2 ^ 8) with 256 in *; lia|done]|..];
      unfold request_of; cbn; by rewrite Hh.
  - by intros (u & s1 & _ & H)%io_bind_inv.
Qed.

Lemma handshake_sound s s' request :
  bytes_ok (Stream.incoming s) → handshake s = (Ok request, s') →
  ∃ methods a port, address_ok a ∧ in_width 16 port ∧ request = request_of a port
    ∧ accepted s s' methods a port.
Proof.
  intros Hb H. unfold handshake in H.
  apply io_bind_inv in H as (greeting & s1 & (Hi1 & (v & m & ->)%len_two & Hw1 & Hk1)%read_exact_inv & H);
    [|done]. cbn [nth] in H.
  rewrite Hi1 in Hb. apply bytes_ok_app in Hb as [[Hv [Hm _]%Forall_cons]%Forall_cons Hb].
  destruct Hm as [Hm0 Hm1].
  apply io_bind_inv in H as (methods & s2 & (Hi2 & Hl2 & Hw2 & Hk2)%read_exact_inv & H); [|done].
  rewrite Hi2 in Hb. apply bytes_ok_app in Hb as [_ Hb].
  destruct (Z.eqb_spec v 5) as [->|]; [|by apply io_bind_inv in H as (? & ? & _ & ?)].
  destruct (existsb (Z.eqb 0) methods) eqn:Hz; [|by apply io_bind_inv in H as (? & ? & _ & ?)].
  cbn [negb orb] in H.
  apply io_bind_inv in H as ([] & s3 & (Hi3 & Hw3 & Hk3)%write_all_inv & H).
  apply io_bind_inv in H as (header & s4 & (Hi4 & (a & b & c & kind & ->)%len_four & Hw4 & Hk4)%read_exact_inv & H);
    [|done].
  rewrite <- Hi3, Hi4 in Hb. apply bytes_ok_app in Hb as [_ Hb]. cbn [take nth] in H.
  destruct (bool_decide_reflect ([a; b; c] = [5; 1; 0])) as [[= -> -> ->]|];
    [|by apply io_bind_inv in H as (? & ? & _ & ?)].
  apply request_inv in H as (addr & port & Ha & Hp & -> & Hi & Hw & Hk); [|done].
  exists methods, addr, port. split_and!; [done|done|done|]. split_and!.
  - rewrite Hi1, Hi2, <- Hi3, Hi4, Hi, Hl2. done.
  - apply existsb_exists in Hz as (x & Hx & Ex%Z.eqb_eq). subst x. by apply list_elem_of_In.
  - by rewrite Hw, Hw4, Hw3, Hw2, Hw1.
  - rewrite Hk, Hk4, <- Hk3, Hk2, Hk1. done.
Qed.

(** ** Relaying *)

(** The bytes of the writes of the shell. *)
Fixpoint incoming_bytes (events : list TransferEvent) : list Z :=
  match events with
  | Received (Some (Write bytes)) _ :: events => bytes ++ incoming_bytes events
  | _ :: events => incoming_bytes events
  | [] => []
  end.

(** The messages for the reads of the TCP peer, up to its end of stream. *)
Fixpoint outgoing_messages (events : list TransferEvent) : list ProxyMessage :=
  match events with
  | ReadDone (Ok []) :: _ => [Write []]
  | ReadDone (Ok bytes) :: events => Write bytes :: outgoing_messages events
  | _ :: events => outgoing_messages events
  | [] => []
  end.

Definition eof_in (events : list TransferEvent) : bool :=
  existsb (λ e, match e with Received (Some (Write [])) _ => true | _ => false end) events.
Definition eof_out (events : list TransferEvent) : bool :=
  existsb (λ e, match e with ReadDone (Ok []) => true | _ => false end) events.

(** A transfer that is running has relayed everything so far, in order, and one
    of its directions is still open. *)
Definition relayed (events : list TransferEvent) (out : Output.t) (s : Transfer.t) : Prop :=
  Transfer.delivered s = incoming_bytes events
  ∧ Output.sent (Transfer.output s) = Output.sent out ++ outgoing_messages events
  ∧ Transfer.shut s = eof_in events ∧ Transfer.write_open s = negb (eof_in events)
  ∧ Transfer.read_open s = negb (eof_out events).

Lemma incoming_snoc l e : incoming_bytes (l ++ [e]) = incoming_bytes l ++ incoming_bytes [e].
Proof.
  induction l as [|[[[bytes|c]|] ok|r] l IH]; cbn [incoming_bytes app]; try done.
  by rewrite IH, (assoc_L (++)).
Qed.

Lemma outgoing_snoc l e :
  outgoing_messages (l ++ [e])
  = if eof_out l then outgoing_messages l else outgoing_messages l ++ outgoing_messages [e].
Proof.
  induction l as [|[m ok|[[|b bytes]|err]] l IH]; try done; cbn [outgoing_messages app]; rewrite IH;
    cbn [eof_out existsb orb]; fold (eof_out l); by destruct (eof_out l).
Qed.

Lemma eof_snoc l e :
  eof_in (l ++ [e]) = eof_in l || eof_in [e] ∧ eof_out (l ++ [e]) = eof_out l || eof_out [e].
Proof. split; apply existsb_app. Qed.

Definition both_ended (events : list TransferEvent) : bool := eof_in events && eof_out events.

(** The state of a transfer after the events [seen]. *)
Definition transferred (close_reason : CloseReason) (out : Output.t) (seen : list TransferEvent)
    (r : Outcome) (s : Transfer.t) : Prop :=
  match r with
  | Running => relayed seen out s ∧ both_ended seen = false
  | Finished (Ok _) =>
      Transfer.delivered s = incoming_bytes seen
      ∧ ((both_ended seen = true
          ∧ Output.sent (Transfer.output s)
            = Output.sent out ++ outgoing_messages seen ++ [Close close_reason])
         ∨ (∃ m ok, last seen = Some (Received m ok) ∧ (m = None ∨ ∃ c, m = Some (Close c))
            ∧ Output.sent (Transfer.output s) = Output.sent out ++ outgoing_messages seen))
  | Finished (Err _) =>
      Transfer.delivered s `prefix_of` incoming_bytes seen
      ∧ ∃ sent, Output.sent (Transfer.output s) = Output.sent out ++ sent
          ∧ sent `prefix_of` outgoing_messages seen
  end.

Lemma send_spec m out :
  send m out = (Ok (), Output.Build_t (Output.sent out ++ [m]) (pred (Output.sends_left out)))
  ∨ send m out = (Err (), out).
Proof. unfold send. destruct out as [l [|k]]; cbn; [by right|by left]. Qed.

Section transfer.
Context (reason : CloseReason) (out : Output.t).

Lemma transfer_end_spec seen s :
  relayed seen out s →
  let '(r, s') := transfer_end reason s in transferred reason out seen r s'.
Proof.
  intros (Hd & Ho & Hs & Hw & Hr). unfold transfer_end. rewrite Hr, Hw, !negb_involutive.
  destruct (eof_out seen && eof_in seen) eqn:E.
  - apply andb_true_iff in E as [Eo Ei].
    destruct (send_spec (Close reason) (Transfer.output s)) as [->| ->]; cbn.
    + split; [done|]. left. unfold both_ended. rewrite Eo, Ei, Ho. by rewrite <- (assoc_L (++)).
    + rewrite Hd. split; [done|]. by exists (outgoing_messages seen).
  - cbn. split; [by split_and!|]. unfold both_ended. by rewrite andb_comm.
Qed.

Lemma transfer_send_spec seen e m s :
  relayed seen out s → eof_out seen = false →
  incoming_bytes [e] = [] → eof_in [e] = false → outgoing_messages [e] = [m] →
  let s1 := s <| Transfer.read_open := negb (eof_out [e]) |> in
  let '(r, s') := transfer_send reason m s1 in transferred reason out (seen ++ [e]) r s'.
Proof.
  intros (Hd & Ho & Hs & Hw & Hr) Eo Hin Hi Hm. cbn zeta. unfold transfer_send.
  destruct (eof_snoc seen e) as [Ei' Eo']. pose proof (outgoing_snoc seen e) as Hout.
  rewrite Eo, Hm in Hout.
  change (Transfer.output (s <| Transfer.read_open := _ |>)) with (Transfer.output s).
  destruct (send_spec m (Transfer.output s)) as [->| ->].
  - apply transfer_end_spec. repeat split; cbn.
    + by rewrite incoming_snoc, Hin, app_nil_r.
    + by rewrite Hout, Ho, (assoc_L (++)).
    + by rewrite Ei', Hi, orb_false_r.
    + by rewrite Ei', Hi, orb_false_r.
    + by rewrite Eo', Eo.
  - cbn. rewrite incoming_snoc, Hin, app_nil_r, Hd. split; [done|].
    exists (outgoing_messages seen). split; [done|]. rewrite Hout. by exists [m].
Qed.

Lemma transfer_step_spec seen s e :
  transferred reason out seen Running s →
  let '(r, s') := transfer_step reason s e in transferred reason out (seen ++ [e]) r s'.
Proof.
  intros [Hrel Hboth]. pose proof Hrel as (Hd & Ho & Hs & Hw & Hr).
  destruct (eof_snoc seen e) as [Ei Eo]. pose proof (outgoing_snoc seen e) as Hout.
  pose proof (incoming_snoc seen e) as Hin.
  assert (∀ bytes s', bytes `prefix_of` incoming_bytes [e] →
    Transfer.delivered s' = incoming_bytes seen ++ bytes →
    Transfer.output s' = Transfer.output s →
    transferred reason out (seen ++ [e]) (Finished (Err ())) s') as Herr.
  { intros bytes s' Hb Hd' Ho'. cbn. rewrite Hd', Ho', Ho, Hin. split; [by apply prefix_app|].
    exists (outgoing_messages seen). split; [done|]. rewrite Hout.
    destruct (eof_out seen); [done|by eexists]. }
  assert (Transfer.delivered s = incoming_bytes seen ++ []) as Hd0 by by rewrite app_nil_r.
  assert (outgoing_messages [e] = [] → outgoing_messages (seen ++ [e]) = outgoing_messages seen)
    as Hquiet by (intros He; rewrite Hout, He; destruct (eof_out seen); [done|by rewrite app_nil_r]).
  destruct e as [[[bytes|c]|] failed|r]; cbn [transfer_step].
  - specialize (Hquiet eq_refl). destruct bytes as [|b bytes].
    + destruct failed; [by apply (Herr [] s (prefix_nil _))|]. apply transfer_end_spec.
      repeat split; cbn.
      * by rewrite Hin, app_nil_r.
      * by rewrite Hquiet.
      * by rewrite Ei, orb_true_r.
      * by rewrite Ei, orb_true_r.
      * by rewrite Eo, orb_false_r.
    + destruct (Transfer.shut s) eqn:Eshut; [by apply (Herr [] s (prefix_nil _))|].
      assert (incoming_bytes [Received (Some (Write (b :: bytes))) failed] = b :: bytes) as Hbytes
        by (cbn [incoming_bytes]; by rewrite app_nil_r).
      destruct failed as [n|].
      { apply (Herr (take n (b :: bytes))); [|cbn; by rewrite Hd|done].
        rewrite Hbytes. exists (drop n (b :: bytes)). by rewrite take_drop. }
      apply transfer_end_spec.
      rewrite <- Eshut in Hs. repeat split; cbn [Transfer.delivered Transfer.output Transfer.shut Transfer.write_open
        Transfer.read_open].
      * rewrite Hin, Hbytes. by rewrite <- Hd.
      * by rewrite Hquiet.
      * by rewrite Ei, orb_false_r.
      * by rewrite Ei, orb_false_r.
      * by rewrite Eo, orb_false_r.
  - cbn. rewrite Hin, Hd. cbn. rewrite app_nil_r. split; [done|]. right.
    exists (Some (Close c)), failed. rewrite last_snoc.
    split_and!; [done|right; by exists c|by rewrite Hquiet].
  - cbn. rewrite Hin, Hd. cbn. rewrite app_nil_r. split; [done|]. right.
    exists None, failed. rewrite last_snoc. split_and!; [done|by left|by rewrite Hquiet].
  - rewrite Hr, negb_involutive. destruct (eof_out seen) eqn:E.
    + split; [|unfold both_ended in *; rewrite Ei, Eo, orb_false_r; by rewrite E in Hboth].
      repeat split; [by rewrite Hin, app_nil_r|by rewrite Hout|by rewrite Ei, orb_false_r
        |by rewrite Ei, orb_false_r|by rewrite Eo].
    + destruct r as [[|b bytes]|[]]; [by apply (transfer_send_spec seen (ReadDone (Ok [])))| |
        by apply (Herr [] s (prefix_nil _))].
      pose proof (transfer_send_spec seen (ReadDone (Ok (b :: bytes))) (Write (b :: bytes)) s
        Hrel E eq_refl eq_refl eq_refl) as H. cbn zeta in H.
      replace (s <| Transfer.read_open := _ |>) with s in H; [done|].
      destruct s. cbn in Hr. by subst.
Qed.

Lemma transfer_spec events : ∀ seen s,
  transferred reason out seen Running s →
  ∃ more rest, events = more ++ rest
    ∧ let '(r, s') := transfer reason events s in transferred reason out (seen ++ more) r s'
      ∧ (r = Running → rest = []).
Proof.
  induction events as [|e events IH]; intros seen s Hs; cbn [transfer].
  { exists [], []. split_and!; [done|by rewrite app_nil_r|done]. }
  pose proof (transfer_step_spec seen s e Hs) as Hstep.
  destruct (transfer_step reason s e) as [[|r] s1].
  - destruct (IH _ _ Hstep) as (more & rest & -> & H). exists (e :: more), rest.
    split; [done|]. by rewrite <- (assoc_L (++)) in H.
  - exists [e], events. by split_and!.
Qed.
End transfer.

(** ** Properties *)

(** C36: The entry side accepts exactly the handshakes of RFC 1928 with a CONNECT
    request: on any bytes of a client, [handshake] succeeds if and only if the
    client offered "no authentication" and sent a well-formed request, and it
    consumes those bytes and no more, answers [5, 0], and hands on the request
    verbatim; and the exit side reads from that request the address and the
    port the client asked for, without panicking. *)
Theorem handshake_accepts s s' request :
  bytes_ok (Stream.incoming s) →
  handshake s = (Ok request, s') ↔
  ∃ methods a port,
    address_ok a ∧ in_width 16 port ∧ request = request_of a port
    ∧ accepted s s' methods a port
    ∧ target request = Ret (address_text a port).
Proof.
  intros Hb. split.
  - intros (methods & a & port & Ha & Hp & -> & Hs)%handshake_sound; [|done].
    exists methods, a, port. split_and!; [done..|]. by apply target_of_request.
  - intros (methods & a & port & Ha & Hp & -> & Hs & _). by eapply handshake_complete.
Qed.

Definition demo_client : Stream.t :=
  demo_stream [5; 2; 2; 0; 5; 1; 0; 3; 4; 97; 46; 105; 111; 1; 187; 9].

Lemma handshake_accepts_witness :
  bytes_ok (Stream.incoming demo_client)
  ∧ ∃ methods a port,
    address_ok a ∧ in_width 16 port
    ∧ [5; 1; 0; 3; 4; 97; 46; 105; 111; 1; 187] = request_of a port
    ∧ accepted demo_client (Stream.Build_t [9] [5; 0] 9) methods a port
    ∧ target [5; 1; 0; 3; 4; 97; 46; 105; 111; 1; 187] = Ret (address_text a port).
Proof.
  assert (bytes_ok (Stream.incoming demo_client)) as Hb.
  { apply Forall_forall. intros b Hb%list_elem_of_In. unfold in_width.
    cbn in Hb. change (2 ^ 8) with 256. intuition lia. }
  split; [exact Hb|].
  apply (handshake_accepts demo_client (Stream.Build_t [9] [5; 0] 9)
    [5; 1; 0; 3; 4; 97; 46; 105; 111; 1; 187] Hb).
  vm_compute. reflexivity.
Defined.

(** C37: A relayed connection is a pipe in both directions: whatever the order in
    which the shell's messages and the peer's bytes come, as long as the loop of
    [transfer] runs, the TCP peer got exactly the bytes of the shell's writes,
    the shell got one write per read, in order, each end of stream was passed on
    once, and one direction is still open.  The loop ends well only when the
    shell closes the session or when both directions ended, and then the shell
    got exactly one close after all the data; when it fails, what was relayed is
    a prefix of what should have been. *)
Theorem transfer_is_a_pipe reason out events :
  ∃ seen rest, events = seen ++ rest
    ∧ let '(r, s) := transfer reason events (Transfer.start out) in
      transferred reason out seen r s ∧ (r = Running → rest = []).
Proof.
  destruct (transfer_spec reason out events [] (Transfer.start out)) as (seen & rest & H).
  - split; [|done]. repeat split. cbn. by rewrite app_nil_r.
  - by exists seen, rest.
Qed.

(** The shell ends its stream first, then the peer: one close, after the data. *)
Example demo_transfer :
  transfer LocalClosed
    [Received (Some (Write [1; 2])) None; ReadDone (Ok [3]);
     Received (Some (Write [])) None; ReadDone (Ok [4; 5]); ReadDone (Ok [])]
    (Transfer.start (Output.Build_t [] 9))
  = (Finished (Ok ()),
     Transfer.Build_t [1; 2] true false false
       (Output.Build_t [Write [3]; Write [4; 5]; Write []; Close LocalClosed] 5)).
Proof. by vm_compute. Qed.
