(* ===== verification/UdpChannel.v ===== *)
(** * The UDP channel plugin

    [channel_udp.rs].  A forward channel sends each packet to a destination of
    its configuration.  A reverse channel has no destinations: its receiver
    sends authenticated probes, its sender answers them and sends packets to the
    peers that probed lately, and the receiver takes the answers out of the
    stream of packets.

    Sockets, tasks and time are the environment: a step has the time of
    [Instant::now] (in nanoseconds, so [elapsed] is a saturating difference) and
    whether [send_to] succeeded as arguments, and so are the values of [rand].
    BLAKE3 and the iteration order of a [HashMap] are interfaces. *)

From stdpp Require Import strings.
From S2P Require Import Prelude Bytes Core.

Definition PROBE_INTERVAL : Z := 15 * 1000000000.
Definition PEER_TIMEOUT : Z := 60 * 1000000000.

(** [blake3::derive_key] and a keyed hasher's digest of all it was fed. *)
Class Blake3Keyed : Type := {
  derive_key (context key_material : list Z) : list Z;
  keyed_digest (key input : list Z) : list Z;
}.

Class Blake3KeyedSpec `{Blake3Keyed} : Prop := {
  derive_key_len : ∀ context key_material, len (derive_key context key_material) = 32;
  keyed_digest_len : ∀ key input, len (keyed_digest key input) = 32;
  keyed_digest_ok : ∀ key input, bytes_ok (keyed_digest key input);
}.

(** The keys of a [HashMap], in its order. *)
Class KeyOrder (K : Type) `{Countable K} : Type := key_order : ∀ {V}, gmap K V → list K.
Class KeyOrderSpec (K : Type) `{KeyOrder K} : Prop :=
  key_order_perm : ∀ {V} (m : gmap K V), key_order m ≡ₚ (map_to_list m).*1.

(** [rand::random_range(..n)] of a draw. *)
Definition random_range (draw n : Z) : comp Z := if n <=? 0 then Panic else Ret (draw mod n).

(** The bytes of a string literal. *)
Definition literal (s : string) : list Z :=
  (λ a, Z.of_N (Ascii.N_of_ascii a)) <$> String.list_ascii_of_string s.

(** ** Probes and responses *)

Section messages.
Context `{Blake3Keyed}.

Definition challenge_key (channel_key : list Z) : list Z :=
  derive_key (literal "RayNet reverse UDP challenge key v1") channel_key.

Definition tag (key : list Z) (domain : Z) (bytes : list Z) : comp (list Z) :=
  slice (keyed_digest key ([domain] ++ bytes)) 0 16.

Definition make_probe (nonce key : list Z) : comp (list Z) :=
  let probe := vec 32 0 in
  probe ← copy_from_slice probe 0 16 nonce;
  t ← tag key 0 nonce;
  copy_from_slice probe 16 32 t.

Definition valid_probe (probe key : list Z) : comp bool :=
  if negb (len probe =? 32) then Ret false else
  sent ← slice probe 16 32;
  nonce ← slice probe 0 16;
  t ← tag key 0 nonce;
  Ret (bool_decide (sent = t)).

Definition make_response (nonce key challenge : list Z) : comp (list Z) :=
  let authenticated := vec 32 0 in
  authenticated ← copy_from_slice authenticated 0 16 challenge;
  authenticated ← copy_from_slice authenticated 16 32 nonce;
  let response := vec 32 0 in
  response ← copy_from_slice response 0 16 nonce;
  t ← tag key 1 authenticated;
  copy_from_slice response 16 32 t.

Definition valid_response (response key challenge : list Z) : comp bool :=
  if negb (len response =? 32) then Ret false else
  let authenticated := vec 32 0 in
  authenticated ← copy_from_slice authenticated 0 16 challenge;
  nonce ← slice response 0 16;
  authenticated ← copy_from_slice authenticated 16 32 nonce;
  sent ← slice response 16 32;
  t ← tag key 1 authenticated;
  Ret (bool_decide (sent = t)).

End messages.

(** ** The channels *)

(** What becomes of a packet given to a sender: it leaves on a socket for a
    peer, or is reported to the failure channel. *)
Inductive Sent (A : Type) : Type :=
  | SentTo (socket : Z) (peer : A) (bytes : list Z)
  | SendFailed (bytes : list Z).
Arguments SentTo {A}. Arguments SendFailed {A}.

(** [bind_all]: one socket per address; an empty list is refused. *)
Definition bind_all {A} (binds : list A) : comp Z :=
  if decide (binds = []) then Panic else Ret (len binds).

Module ForwardUdp.
Section forward.
Context {SocketAddr : Type}.

Record t := { sockets : Z; destinations : list SocketAddr }.

Definition sender (binds destinations : list SocketAddr) : comp t :=
  if decide (destinations = []) then Panic else
  sockets ← bind_all binds;
  Ret {| sockets := sockets; destinations := destinations |}.

(** One packet: two draws, and whether [send_to] succeeded. *)
Definition send (self : t) (bytes : list Z) (draw_socket draw_destination : Z) (sent_ok : bool)
    : comp (Sent SocketAddr) :=
  socket ← random_range draw_socket (sockets self);
  d ← random_range draw_destination (len (destinations self));
  destination ← index (destinations self) d;
  Ret (if sent_ok then SentTo socket destination bytes else SendFailed bytes).

End forward.
Arguments t : clear implicits.
End ForwardUdp.

(** [ReverseUdp::sender]: the tasks of the sockets and the task that sends share
    the table of peers. *)
Module ReverseSender.
Section reverse.
Context `{Blake3Keyed, Countable SocketAddr, !KeyOrder (Z * SocketAddr)}.

Record t := {
  key : list Z;
  sockets : Z;
  peers : gmap (Z * SocketAddr) Z;
}.

#[global] Instance eta_ReverseSender : Eta t := λ s, Build_t (key s) (sockets s) (peers s).

Definition new (binds : list SocketAddr) (channel_key : list Z) : comp t :=
  sockets ← bind_all binds;
  Ret {| key := challenge_key channel_key; sockets := sockets; peers := ∅ |}.

(** A datagram on a socket: the answer it gets, if any. *)
Definition receive (self : t) (socket_index : Z) (peer : SocketAddr) (bytes nonce : list Z)
    (sent_ok : bool) (now : Z) : comp (option (list Z) * t) :=
  valid ← valid_probe bytes (key self);
  if negb valid then Ret (None, self) else
  challenge ← slice bytes 0 16;
  response ← make_response nonce (key self) challenge;
  Ret (Some response,
       if sent_ok then self <| peers ::= <[(socket_index, peer) := now]> |> else self).

(** [seen.elapsed()] *)
Definition elapsed (now seen : Z) : Z := (now - seen) `max` 0.

(** A packet to send. *)
Definition send (self : t) (bytes : list Z) (now draw : Z) (sent_ok : bool)
    : comp (Sent SocketAddr * t) :=
  let self := self <| peers ::= filter (λ kv, elapsed now kv.2 < PEER_TIMEOUT) |> in
  path ←
    (if decide (peers self = ∅) then Ret None
     else n ← random_range draw (Z.of_nat (size (peers self)));
          Ret (key_order (peers self) !! Z.to_nat n));
  match path with
  | Some (socket, peer) =>
      if (0 <=? socket) && (socket <? sockets self)
      then Ret (if sent_ok then SentTo socket peer bytes else SendFailed bytes, self)
      else Panic
  | None => Ret (SendFailed bytes, self)
  end.

End reverse.
Arguments t _ {_ _}.
End ReverseSender.

(** [ReverseUdp::receiver]: each socket has a task with its own challenges. *)
Module ReverseReceiver.
Section reverse.
Context `{Blake3Keyed, Countable SocketAddr}.

Record t := {
  key : list Z;
  destinations : list SocketAddr;
  challenges : gmap SocketAddr (list Z);
}.

#[global] Instance eta_ReverseReceiver : Eta t := λ s,
  Build_t (key s) (destinations s) (challenges s).

Definition new (destinations : list SocketAddr) (channel_key : list Z) : comp t :=
  if decide (destinations = []) then Panic else
  Ret {| key := challenge_key channel_key; destinations := destinations; challenges := ∅ |}.

(** The timer: a probe for every destination; the [i]-th draws [nonce_of i]. *)
Definition tick (self : t) (nonce_of : nat → list Z)
    : comp (list (SocketAddr * list Z) * t) :=
  for_each (imap pair (destinations self)) (λ '(i, destination) '(sent, self),
    probe ← make_probe (nonce_of i) (key self);
    nonce ← slice probe 0 16;
    Ret (sent ++ [(destination, probe)],
         self <| challenges ::= <[destination := nonce]> |>)) ([], self).

(** A datagram: the bytes handed to the channel, if it is no answer. *)
Definition receive (self : t) (peer : SocketAddr) (bytes : list Z)
    : comp (option (list Z) * t) :=
  answered ←
    match challenges self !! peer with
    | Some nonce => valid_response bytes (key self) nonce
    | None => Ret false
    end;
  Ret (if answered : bool then (None, self <| challenges ::= delete peer |>)
       else (Some bytes, self)).

End reverse.
Arguments t _ {_ _}.
End ReverseReceiver.
