(* ===== verification/UdpChannelFacts.v ===== *)
(** * Correctness of the UDP channels

    The probe exchange of a reverse channel: which datagrams pass as probes and
    as answers, that the two sides understand each other, and that packets only
    ever leave on a path whose peer proved lately that it holds the key. *)

From stdpp Require Import strings.
From S2P Require Import Prelude Bytes Core UdpChannel.

Section messages.
Context `{Blake3KeyedSpec}.

(** The tag of a message, and the messages themselves. *)
Definition tag_of (key : list Z) (domain : Z) (bytes : list Z) : list Z :=
  take 16 (keyed_digest key ([domain] ++ bytes)).

Definition probe_of (key nonce : list Z) : list Z := nonce ++ tag_of key 0 nonce.
Definition response_of (key challenge nonce : list Z) : list Z :=
  nonce ++ tag_of key 1 (challenge ++ nonce).

Lemma tag_eq key domain bytes : tag key domain bytes = Ret (tag_of key domain bytes).
Proof. unfold tag. rewrite slice_returns by (rewrite ?keyed_digest_len; lia). done. Qed.

Lemma len_tag_of key domain bytes : len (tag_of key domain bytes) = 16.
Proof.
  pose proof (keyed_digest_len key ([domain] ++ bytes)). unfold tag_of, len in *.
  rewrite length_take. lia.
Qed.

(** Filling the two halves of a 32-byte array. *)
Lemma fill_halves a b :
  len a = 16 → len b = 16 →
  (x ← copy_from_slice (vec 32 0) 0 16 a; copy_from_slice x 16 32 b) = Ret (a ++ b).
Proof.
  intros Ha Hb. rewrite copy_from_slice_returns by (rewrite ?len_vec; lia).
  cbn [mbind comp_bind]. change (take (Z.to_nat 0) _) with (@nil Z). rewrite app_nil_l.
  change (drop (Z.to_nat 16) (vec 32 0)) with (vec 16 0).
  rewrite copy_from_slice_returns; [|lia|rewrite len_app, Ha; done|lia].
  assert (Z.to_nat 16 = length a) as -> by (unfold len in Ha; lia).
  rewrite take_app_length. f_equal. f_equal. rewrite drop_ge, app_nil_r; [done|].
  rewrite length_app. unfold len in Ha. change (length (vec 16 0)) with 16%nat. lia.
Qed.

Lemma make_probe_eq nonce key :
  len nonce = 16 → make_probe nonce key = Ret (probe_of key nonce).
Proof.
  intros Hn. unfold make_probe. rewrite tag_eq. cbn [mbind comp_bind].
  by apply fill_halves, len_tag_of.
Qed.

Lemma make_response_eq nonce key challenge :
  len nonce = 16 → len challenge = 16 →
  make_response nonce key challenge = Ret (response_of key challenge nonce).
Proof.
  intros Hn Hc. unfold make_response.
  pose proof (fill_halves challenge nonce Hc Hn) as Hf.
  destruct (copy_from_slice (vec 32 0) 0 16 challenge) as [x| |]; try done. cbn [mbind comp_bind] in *.
  rewrite Hf. cbn [mbind comp_bind]. rewrite tag_eq. by apply fill_halves, len_tag_of.
Qed.

Lemma halves (l : list Z) :
  len l = 32 → ∃ a b, l = a ++ b ∧ len a = 16 ∧ len b = 16.
Proof.
  intros Hl. exists (take 16 l), (drop 16 l). unfold len in *.
  rewrite take_drop, length_take, length_drop. split_and!; [done|lia|lia].
Qed.

(** A probe is valid when it is a probe under the key. *)
Definition is_probe (key bytes : list Z) : Prop :=
  ∃ nonce, len nonce = 16 ∧ bytes = probe_of key nonce.

Lemma probe_halves key nonce b :
  len nonce = 16 → len b = 16 → is_probe key (nonce ++ b) ↔ b = tag_of key 0 nonce.
Proof.
  intros Hn Hb. split.
  - intros (n & Hn' & [-> ->]%app_inj_1); [done|]. unfold len in *. lia.
  - intros ->. by exists nonce.
Qed.

#[global] Instance is_probe_dec key bytes : Decision (is_probe key bytes).
Proof.
  refine (cast_if (decide (len bytes = 32 ∧ drop 16 bytes = tag_of key 0 (take 16 bytes)))).
  - exists (take 16 bytes). destruct a as [Hl Ht]. unfold probe_of. rewrite <- Ht, take_drop.
    split; [|done]. unfold len in *. rewrite length_take. lia.
  - intros (nonce & Hn & ->). apply n. unfold probe_of.
    assert (length nonce = 16%nat) as Hl by (unfold len in Hn; lia).
    rewrite len_app, len_tag_of, Hn. split; [done|]. rewrite <- Hl at 1.
    rewrite drop_app_length. rewrite <- Hl. by rewrite take_app_length.
Defined.

Lemma valid_probe_eq bytes key : valid_probe bytes key = Ret (bool_decide (is_probe key bytes)).
Proof.
  unfold valid_probe. destruct (Z.eqb_spec (len bytes) 32) as [Hl|Hl]; cbn [negb].
  - apply halves in Hl as (nonce & b & -> & Hn & Hb).
    rewrite (slice_app_r nonce b 16 32) by lia. cbn [mbind comp_bind].
    rewrite slice_app_l by done. cbn [mbind comp_bind]. rewrite tag_eq. cbn [mbind comp_bind].
    f_equal. apply bool_decide_ext. by rewrite probe_halves.
  - rewrite bool_decide_eq_false_2; [done|]. intros (nonce & Hn & ->). apply Hl.
    unfold probe_of. by rewrite len_app, len_tag_of, Hn.
Qed.

Definition is_response (key challenge bytes : list Z) : Prop :=
  ∃ nonce, len nonce = 16 ∧ bytes = response_of key challenge nonce.

Lemma valid_response_spec bytes key challenge :
  len challenge = 16 →
  ∃ b, valid_response bytes key challenge = Ret b ∧ (b = true ↔ is_response key challenge bytes).
Proof.
  intros Hc. unfold valid_response. destruct (Z.eqb_spec (len bytes) 32) as [Hl|Hl]; cbn [negb].
  - apply halves in Hl as (nonce & t & -> & Hn & Ht).
    pose proof (fill_halves challenge nonce Hc Hn) as Hf.
    destruct (copy_from_slice (vec 32 0) 0 16 challenge) as [x| |]; try done.
    cbn [mbind comp_bind] in *.
    rewrite slice_app_l by done. cbn [mbind comp_bind]. rewrite Hf. cbn [mbind comp_bind].
    rewrite (slice_app_r nonce t 16 32) by lia. cbn [mbind comp_bind].
    rewrite tag_eq. cbn [mbind comp_bind]. eexists. split; [done|].
    rewrite bool_decide_eq_true. split.
    + intros ->. by exists nonce.
    + intros (n & Hn' & [-> ->]%app_inj_1); [done|]. unfold len in *. lia.
  - exists false. split; [done|]. split; [done|]. intros (nonce & Hn & ->). destruct Hl.
    unfold response_of. by rewrite len_app, len_tag_of, Hn.
Qed.

End messages.

(** ** The sender of a reverse channel *)

Module Sender.
Section sender.
Context `{Blake3KeyedSpec, Countable SocketAddr, !KeyOrder (Z * SocketAddr),
  !KeyOrderSpec (Z * SocketAddr)}.

Abbreviation RS := (ReverseSender.t SocketAddr).

(** What happens to a sender: datagrams on its sockets and packets to send. *)
Inductive Event : Type :=
  | Datagram (socket : Z) (peer : SocketAddr) (bytes nonce : list Z) (sent_ok : bool) (now : Z)
  | Packet (bytes : list Z) (draw : Z) (sent_ok : bool) (now : Z).

Inductive Output : Type :=
  | Answer (response : option (list Z))
  | Channel (sent : Sent SocketAddr).

Definition time_of (e : Event) : Z :=
  match e with Datagram _ _ _ _ _ now | Packet _ _ _ now => now end.

Definition step (self : RS) (e : Event) : comp (Output * RS) :=
  match e with
  | Datagram socket peer bytes nonce sent_ok now =>
      '(response, self) ← ReverseSender.receive self socket peer bytes nonce sent_ok now;
      Ret (Answer response, self)
  | Packet bytes draw sent_ok now =>
      '(sent, self) ← ReverseSender.send self bytes now draw sent_ok;
      Ret (Channel sent, self)
  end.

Fixpoint run (self : RS) (events : list Event) : comp (list Output * RS) :=
  match events with
  | [] => Ret ([], self)
  | e :: events =>
      '(output, self) ← step self e;
      '(outputs, self) ← run self events;
      Ret (output :: outputs, self)
  end.

(** Datagrams come from existing sockets, and nonces have 16 bytes. *)
Definition event_ok (sockets : Z) (e : Event) : Prop :=
  match e with
  | Datagram socket _ _ nonce _ _ => 0 <= socket < sockets ∧ len nonce = 16
  | Packet _ _ _ _ => True
  end.

Section history.
Context (key : list Z).

(** Whether an event proves that the peer of a path holds the key. *)
Definition proves (path : Z * SocketAddr) (e : Event) : option Z :=
  match e with
  | Datagram socket peer bytes _ sent_ok now =>
      if bool_decide ((socket, peer) = path ∧ is_probe key bytes) && sent_ok
      then Some now else None
  | Packet _ _ _ _ => None
  end.

(** When the peer of a path last proved it. *)
Definition last_proof (seen : list Event) (path : Z * SocketAddr) : option Z :=
  foldl (λ last e, match proves path e with Some now => Some now | None => last end) None seen.

(** The path's peer proved it within the timeout. *)
Definition live (seen : list Event) (now : Z) (path : Z * SocketAddr) : Prop :=
  ∃ t, last_proof seen path = Some t ∧ now - t < PEER_TIMEOUT.

Definition outcome (seen : list Event) (e : Event) (output : Output) : Prop :=
  match e, output with
  | Datagram _ _ bytes nonce _ _, Answer response =>
      (is_probe key bytes → response = Some (response_of key (take 16 bytes) nonce))
      ∧ (¬ is_probe key bytes → response = None)
  | Packet bytes _ sent_ok now, Channel (SentTo socket peer bytes') =>
      bytes' = bytes ∧ sent_ok = true ∧ live seen now (socket, peer)
  | Packet bytes _ sent_ok now, Channel (SendFailed bytes') =>
      bytes' = bytes ∧ (sent_ok = true → ∀ path, ¬ live seen now path)
  | _, _ => False
  end.

(** The table holds the last proofs, and all of those within the timeout. *)
Record tracks (sockets : Z) (seen : list Event) (self : RS) : Prop := {
  tracks_key : ReverseSender.key self = key;
  tracks_sockets : ReverseSender.sockets self = sockets;
  tracks_range : ∀ path t, ReverseSender.peers self !! path = Some t → 0 <= path.1 < sockets;
  tracks_last : ∀ path t,
    ReverseSender.peers self !! path = Some t → last_proof seen path = Some t;
  tracks_live : ∀ path t,
    last_proof seen path = Some t → ReverseSender.peers self !! path = None →
    ∃ e, last seen = Some e ∧ PEER_TIMEOUT <= time_of e - t;
}.

Lemma last_proof_snoc seen e path :
  last_proof (seen ++ [e]) path
  = match proves path e with Some now => Some now | None => last_proof seen path end.
Proof. unfold last_proof. by rewrite foldl_app. Qed.

Definition not_before (seen : list Event) (e : Event) : Prop :=
  ∀ e', last seen = Some e' → time_of e' <= time_of e.

Lemma tracks_step sockets seen self e self' :
  tracks sockets seen self → event_ok sockets e → not_before seen e →
  ReverseSender.key self' = key → ReverseSender.sockets self' = sockets →
  (∀ path,
    ReverseSender.peers self' !! path
      = match proves path e with
        | Some t => Some t
        | None => ReverseSender.peers self !! path
        end
    ∨ proves path e = None ∧ ReverseSender.peers self' !! path = None
      ∧ ∀ t, ReverseSender.peers self !! path = Some t → PEER_TIMEOUT <= time_of e - t) →
  tracks sockets (seen ++ [e]) self'.
Proof.
  intros HT He Hnow Hk Hs Hp. split; [done|done| | |].
  - intros path t Ht. destruct (Hp path) as [Heq|(_ & Heq & _)]; rewrite Ht in Heq; [|done].
    destruct (proves path e) as [t'|] eqn:E; [|by apply (tracks_range _ _ _ HT path t)].
    destruct e as [socket peer bytes nonce ok now|]; [|done]. cbn in E, He.
    destruct (bool_decide_reflect ((socket, peer) = path ∧ is_probe key bytes)) as [[<- _]|];
      [cbn; lia|done].
  - intros path t Ht. rewrite last_proof_snoc.
    destruct (Hp path) as [Heq|(_ & Heq & _)]; rewrite Ht in Heq; [|done].
    destruct (proves path e); [done|]. by apply (tracks_last _ _ _ HT).
  - intros path t Ht Hnone. rewrite last_proof_snoc in Ht. exists e. rewrite last_snoc.
    split; [done|].
    destruct (Hp path) as [Heq|(Hpr & _ & Hold)].
    + rewrite Hnone in Heq. destruct (proves path e); [done|].
      destruct (tracks_live _ _ _ HT path t Ht (eq_sym Heq)) as (e' & He' & Hle).
      specialize (Hnow e' He'). lia.
    + rewrite Hpr in Ht. destruct (ReverseSender.peers self !! path) as [t'|] eqn:E.
      * apply (tracks_last _ _ _ HT) in E as E'. rewrite E' in Ht. injection Ht as <-. by apply Hold.
      * destruct (tracks_live _ _ _ HT path t Ht E) as (e' & He' & Hle).
        specialize (Hnow e' He'). lia.
Qed.

Lemma datagram_outcome sockets seen self socket peer bytes nonce sent_ok now :
  let e := Datagram socket peer bytes nonce sent_ok now in
  tracks sockets seen self → event_ok sockets e → not_before seen e →
  ∃ output self', step self e = Ret (output, self') ∧ outcome seen e output
    ∧ tracks sockets (seen ++ [e]) self'.
Proof.
  intros e HT He Hnow. pose proof He as [Hr Hn].
  assert (∀ path, proves path e
    = if bool_decide ((socket, peer) = path ∧ is_probe key bytes) && sent_ok
      then Some now else None) as Hproves by done.
  cbn [step e]. unfold ReverseSender.receive. rewrite (tracks_key _ _ _ HT), valid_probe_eq.
  cbn [mbind comp_bind].
  destruct (bool_decide_reflect (is_probe key bytes)) as [Hp|Hp]; cbn [negb].
  - pose proof Hp as (challenge & Hc & Hb).
    assert (take 16 bytes = challenge) as Ht.
    { rewrite Hb. unfold probe_of, len in *. by rewrite take_app_length' by lia. }
    rewrite slice_returns; [|lia|rewrite Hb; unfold probe_of; rewrite len_app, len_tag_of; lia].
    change (take (Z.to_nat (16 - 0)) (drop (Z.to_nat 0) bytes)) with (take 16 bytes).
    rewrite Ht. cbn [mbind comp_bind]. rewrite make_response_eq by done. cbn [mbind comp_bind].
    eexists _, _. split; [done|]. split; [by rewrite <- Ht|].
    apply (tracks_step sockets seen self); [done..| | |].
    + by destruct sent_ok; apply (tracks_key _ _ _ HT).
    + by destruct sent_ok; apply (tracks_sockets _ _ _ HT).
    + intros path. left. rewrite Hproves. destruct sent_ok; cbn.
      * destruct (decide ((socket, peer) = path)) as [<-|Hne].
        { rewrite lookup_insert_eq, bool_decide_true; done. }
        rewrite lookup_insert_ne, bool_decide_false by naive_solver. done.
      * by rewrite andb_false_r.
  - eexists _, _. split; [done|]. split; [done|].
    apply (tracks_step sockets seen self); [done..| | |].
    + apply (tracks_key _ _ _ HT).
    + apply (tracks_sockets _ _ _ HT).
    + intros path. left. rewrite Hproves, bool_decide_false by naive_solver. done.
Qed.

Lemma key_order_lookup (m : gmap (Z * SocketAddr) Z) n :
  (n < size m)%nat → ∃ path t, key_order m !! n = Some path ∧ m !! path = Some t.
Proof.
  intros Hn. pose proof (key_order_perm m) as Hperm.
  destruct (lookup_lt_is_Some_2 (key_order m) n) as [path Hpath].
  { rewrite Hperm, length_fmap, length_map_to_list. done. }
  assert (path ∈ (map_to_list m).*1) as ([p t] & -> & Ht)%list_elem_of_fmap.
  { rewrite <- Hperm. by eapply list_elem_of_lookup_2. }
  apply elem_of_map_to_list in Ht. by exists p, t.
Qed.

Lemma packet_outcome sockets seen self bytes draw sent_ok now :
  let e := Packet bytes draw sent_ok now in
  tracks sockets seen self → not_before seen e →
  ∃ output self', step self e = Ret (output, self') ∧ outcome seen e output
    ∧ tracks sockets (seen ++ [e]) self'.
Proof.
  intros e HT Hnow. cbn [step e]. unfold ReverseSender.send.
  set (self' := self <| ReverseSender.peers ::= _ |>).
  assert (∀ path t, ReverseSender.peers self' !! path = Some t ↔
    ReverseSender.peers self !! path = Some t ∧ now - t < PEER_TIMEOUT) as Hlook.
  { intros path t. change (ReverseSender.peers self') with
      (filter (λ kv, ReverseSender.elapsed now kv.2 < PEER_TIMEOUT) (ReverseSender.peers self)).
    rewrite map_lookup_filter_Some. cbn. unfold ReverseSender.elapsed, PEER_TIMEOUT.
    split; intros [? ?]; (split; [done|lia]). }
  assert (tracks sockets (seen ++ [e]) self') as HT'.
  { apply (tracks_step sockets seen self); [done..| | |].
    - apply (tracks_key _ _ _ HT).
    - apply (tracks_sockets _ _ _ HT).
    - intros path. cbn [proves e]. destruct (ReverseSender.peers self' !! path) as [t|] eqn:E.
      + left. by apply Hlook in E as [-> _].
      + right. split_and!; [done..|]. intros t Ht.
        destruct (decide (now - t < PEER_TIMEOUT)); [|cbn; lia].
        assert (ReverseSender.peers self' !! path = Some t) by by apply Hlook. congruence. }
  assert (∀ path, ReverseSender.peers self' !! path = None → ¬ live seen now path) as Hdead.
  { intros path Hnone (t & Ht & Hlt). destruct (ReverseSender.peers self !! path) as [t'|] eqn:E.
    - apply (tracks_last _ _ _ HT) in E as E'. rewrite E' in Ht. injection Ht as ->.
      assert (ReverseSender.peers self' !! path = Some t) by by apply Hlook. congruence.
    - destruct (tracks_live _ _ _ HT path t Ht E) as (e' & He' & Hle).
      specialize (Hnow e' He'). cbn in Hnow. lia. }
  destruct (decide (ReverseSender.peers self' = ∅)) as [Hempty|Hne].
  { eexists _, _. split; [done|]. split; [|done]. cbn. split; [done|]. intros _ path.
    apply Hdead. by rewrite Hempty, lookup_empty. }
  unfold random_range. set (n := Z.of_nat (size (ReverseSender.peers self'))).
  assert (0 < n) as Hn.
  { apply map_size_non_empty_iff in Hne. unfold n. lia. }
  rewrite (proj2 (Z.leb_gt n 0)) by done. cbn [mbind comp_bind].
  pose proof (Z.mod_pos_bound draw n Hn) as Hm.
  destruct (key_order_lookup (ReverseSender.peers self') (Z.to_nat (draw mod n))) as ([socket peer] & t & -> & Ht);
    [unfold n in *; lia|].
  cbn [mbind comp_bind].
  pose proof (tracks_range _ _ _ HT' _ _ Ht) as Hr. cbn in Hr.
  change (ReverseSender.sockets self') with (ReverseSender.sockets self).
  rewrite (tracks_sockets _ _ _ HT), (proj2 (Z.leb_le _ _)), (proj2 (Z.ltb_lt _ _)) by lia.
  cbn [andb mbind comp_bind]. eexists _, _. split; [done|]. split; [|done].
  apply Hlook in Ht as [Ht Hlt].
  destruct sent_ok; cbn; [|done]. split_and!; [done..|]. exists t.
  split; [by apply (tracks_last _ _ _ HT)|done].
Qed.

Lemma run_outcomes sockets events : ∀ seen self,
  tracks sockets seen self → Forall (event_ok sockets) events →
  StronglySorted (λ e e', time_of e <= time_of e') (seen ++ events) →
  ∃ outputs self', run self events = Ret (outputs, self') ∧ length outputs = length events
    ∧ ∀ i e output, events !! i = Some e → outputs !! i = Some output →
        outcome (seen ++ take i events) e output.
Proof.
  induction events as [|e events IH]; intros seen self HT Hok Hsort.
  { by exists [], self. }
  apply Forall_cons in Hok as [He Hok].
  assert (not_before seen e) as Hnow.
  { intros e' He'. apply last_Some in He' as [l ->].
    eapply StronglySorted_app_1_elem_of in Hsort; [exact Hsort|set_solver|set_solver]. }
  assert (∃ output self', step self e = Ret (output, self') ∧ outcome seen e output
    ∧ tracks sockets (seen ++ [e]) self') as (output & self1 & Hstep & Hout & HT1).
  { destruct e; [by apply datagram_outcome|by apply packet_outcome]. }
  destruct (IH (seen ++ [e]) self1 HT1 Hok) as (outputs & self' & Hrun & Hlen & Houts).
  { by rewrite <- (assoc_L (++)). }
  exists (output :: outputs), self'. cbn [run]. rewrite Hstep. cbn [mbind comp_bind].
  rewrite Hrun. split_and!; [done|cbn; by rewrite Hlen|].
  intros [|i] e' o; cbn; [intros [= <-] [= <-]; by rewrite app_nil_r|].
  intros Hi Ho. specialize (Houts i e' o Hi Ho). by rewrite <- (assoc_L (++)) in Houts.
Qed.

End history.
End sender.
End Sender.

(** ** The receiver of a reverse channel *)

Section receiver.
Context `{Blake3KeyedSpec, Countable SocketAddr}.

Abbreviation RR := (ReverseReceiver.t SocketAddr).

Definition challenges_ok (self : RR) : Prop :=
  map_Forall (λ _ nonce, len nonce = 16) (ReverseReceiver.challenges self).

(** What a receiver withholds from its channel. *)
Lemma receive_spec (self : RR) peer bytes :
  challenges_ok self →
  (∃ challenge, ReverseReceiver.challenges self !! peer = Some challenge
    ∧ is_response (ReverseReceiver.key self) challenge bytes
    ∧ ReverseReceiver.receive self peer bytes
      = Ret (None, self <| ReverseReceiver.challenges ::= delete peer |>))
  ∨ ((∀ challenge, ReverseReceiver.challenges self !! peer = Some challenge →
        ¬ is_response (ReverseReceiver.key self) challenge bytes)
     ∧ ReverseReceiver.receive self peer bytes = Ret (Some bytes, self)).
Proof.
  intros Hok. unfold ReverseReceiver.receive.
  destruct (ReverseReceiver.challenges self !! peer) as [challenge|] eqn:E; [|by right].
  destruct (valid_response_spec bytes (ReverseReceiver.key self) challenge (Hok _ _ E))
    as ([] & -> & Hb); [left|right].
  - exists challenge. split_and!; [done|by apply Hb|done].
  - split; [|done]. intros ? [= <-] Hr. by apply Hb in Hr.
Qed.

(** The probes of a round, and the last challenge for a destination. *)
Definition probes (key : list Z) (nonce_of : nat → list Z) (destinations : list SocketAddr)
    : list (SocketAddr * list Z) :=
  imap (λ i d, (d, probe_of key (nonce_of i))) destinations.

Lemma imap_snoc {A B} (f : nat → A → B) l x : imap f (l ++ [x]) = imap f l ++ [f (length l) x].
Proof. rewrite imap_app. cbn. by rewrite Nat.add_0_r. Qed.

Lemma tick_spec (self : RR) nonce_of :
  (∀ i, len (nonce_of i) = 16) →
  ∃ self', ReverseReceiver.tick self nonce_of
      = Ret (probes (ReverseReceiver.key self) nonce_of (ReverseReceiver.destinations self), self')
    ∧ ReverseReceiver.key self' = ReverseReceiver.key self
    ∧ ReverseReceiver.destinations self' = ReverseReceiver.destinations self
    ∧ ∀ d, ReverseReceiver.challenges self' !! d
        = match last (filter (λ p, p.2 = d) (imap pair (ReverseReceiver.destinations self))) with
          | Some (i, _) => Some (nonce_of i)
          | None => ReverseReceiver.challenges self !! d
          end.
Proof.
  intros Hn. unfold ReverseReceiver.tick, probes.
  generalize (ReverseReceiver.destinations self) at 1 2 4 as l.
  induction l as [|d l IH] using rev_ind.
  { exists self. done. }
  destruct IH as (self1 & Htick & Hk & Hd & Hc).
  rewrite !imap_snoc, for_each_app, Htick. cbn [mbind comp_bind for_each].
  rewrite Hk, make_probe_eq by done. cbn [mbind comp_bind].
  assert (∀ n, len n = 16 → slice (probe_of (ReverseReceiver.key self) n) 0 16 = Ret n) as Hslice
    by (intros n En; by apply slice_app_l).
  rewrite Hslice by done. cbn [mbind comp_bind].
  eexists. split; [done|]. split_and!; [done|done|]. intros d'.
  change (ReverseReceiver.challenges (self1 <| ReverseReceiver.challenges ::= _ |>))
    with (<[d := nonce_of (length l)]> (ReverseReceiver.challenges self1)).
  rewrite filter_app, filter_cons, filter_nil. cbn [snd].
  destruct (decide (d = d')) as [->|Hne].
  - by rewrite lookup_insert_eq, last_snoc.
  - by rewrite lookup_insert_ne, app_nil_r, Hc.
Qed.

Lemma last_position (before after : list SocketAddr) d :
  d ∉ after →
  last (filter (λ p, p.2 = d) (imap pair (before ++ d :: after))) = Some (length before, d).
Proof.
  intros Hd. rewrite imap_app, filter_app. cbn [imap]. rewrite filter_cons, decide_True by done.
  rewrite Nat.add_0_r.
  assert (∀ f : nat → nat, filter (λ p, p.2 = d) (imap (λ i x, (f i, x)) after) = []) as Hnil.
  { clear before. induction after as [|x after IH]; intros f; [done|].
    rewrite imap_cons, filter_cons. apply not_elem_of_cons in Hd as [Hx Hd].
    rewrite decide_False by by apply not_eq_sym. by apply (IH Hd (f ∘ S)). }
  change (imap (_ ∘ S) after) with (imap (λ i x, ((λ j, (length before + S j)%nat) i, x)) after).
  rewrite Hnil. by rewrite last_snoc.
Qed.

End receiver.

(** ** A concrete model of the interfaces *)

#[local] Instance toy_keyed : Blake3Keyed := {
  derive_key context key_material := take 32 (key_material ++ vec 32 0);
  keyed_digest key input := to_le 32 (from_le key + 3 * from_le input);
}.

#[local] Instance toy_keyed_spec : Blake3KeyedSpec.
Proof.
  split; intros; [|apply (len_to_le 32)|apply (to_le_bytes_ok 32)].
  cbn. unfold len, vec. rewrite length_take, length_app, length_replicate. lia.
Qed.

#[local] Instance toy_order : KeyOrder (Z * Z) := λ V m, (map_to_list m).*1.
#[local] Instance toy_order_spec : KeyOrderSpec (Z * Z).
Proof. by intros V m. Qed.

(** ** Properties *)

(** A reverse UDP channel only sends to peers that lately proved they hold
    the channel key, and loses nothing silently: whatever datagrams and packets
    a sender handles, in any order, it never panics; a datagram is answered
    exactly when it is an authentic probe; a packet leaves unchanged on a path
    whose peer sent an answered probe less than [PEER_TIMEOUT] ago, or is
    reported unchanged as failed, and that only when the socket refused it or
    no path was live. *)
Lemma reverse_udp_sends_to_live_peers
    `{Blake3KeyedSpec, Countable SocketAddr, !KeyOrder (Z * SocketAddr),
      !KeyOrderSpec (Z * SocketAddr)}
    binds channel_key (self : ReverseSender.t SocketAddr) (events : list Sender.Event) :
  ReverseSender.new binds channel_key = Ret self →
  Forall (Sender.event_ok (len binds)) events →
  StronglySorted (λ e e', Sender.time_of e <= Sender.time_of e') events →
  ∃ outputs self', Sender.run self events = Ret (outputs, self')
    ∧ length outputs = length events
    ∧ ∀ i e output, events !! i = Some e → outputs !! i = Some output →
        Sender.outcome (challenge_key channel_key) (take i events) e output.
Proof.
  intros Hnew Hok Hsort. unfold ReverseSender.new, bind_all in Hnew.
  destruct (decide (binds = [])); [done|]. injection Hnew as <-.
  apply (Sender.run_outcomes (challenge_key channel_key) (len binds) events []); [|done|done].
  split; [done|done| | |done]; intros path t; cbn; by rewrite lookup_empty.
Qed.

Definition demo_events : list (Sender.Event (SocketAddr := Z)) :=
  let nonce := vec 16 7 in
  [Sender.Packet [1; 2; 3] 5 true 0;
   Sender.Datagram 1 9 (probe_of (vec 32 3) nonce) (vec 16 8) true 10;
   Sender.Packet [1; 2; 3] 5 true (PEER_TIMEOUT + 9);
   Sender.Packet [1; 2; 3] 5 true (PEER_TIMEOUT + 10)].

(** No path, an answered probe, a packet on that path, and its timeout. *)
Lemma reverse_udp_sends_to_live_peers_witness :
  ∃ self outputs self',
    ReverseSender.new [100; 200] (vec 32 3) = Ret self
    ∧ Sender.run self demo_events = Ret (outputs, self')
    ∧ (∀ i e output, demo_events !! i = Some e → outputs !! i = Some output →
         Sender.outcome (challenge_key (vec 32 3)) (take i demo_events) e output)
    ∧ outputs = [Sender.Channel (SendFailed [1; 2; 3]);
        Sender.Answer (Some (response_of (vec 32 3) (vec 16 7) (vec 16 8)));
        Sender.Channel (SentTo 1 9 [1; 2; 3]); Sender.Channel (SendFailed [1; 2; 3])].
Proof.
  destruct (reverse_udp_sends_to_live_peers [100; 200] (vec 32 3)
    (ReverseSender.Build_t (vec 32 3) 2 ∅) demo_events) as (outputs & self' & Hrun & _ & Hout).
  - reflexivity.
  - repeat constructor; cbn; lia.
  - repeat (constructor; [|cbn; repeat (constructor; [cbn; unfold PEER_TIMEOUT; lia|]); constructor]).
    constructor.
  - exists (ReverseSender.Build_t (vec 32 3) 2 ∅), outputs, self'.
    split; [reflexivity|]. split; [exact Hrun|]. split; [exact Hout|].
    clear Hout. revert Hrun.
    assert (∃ s, Sender.run (ReverseSender.Build_t (vec 32 3) 2 ∅) demo_events
      = Ret ([Sender.Channel (SendFailed [1; 2; 3]);
        Sender.Answer (Some (response_of (vec 32 3) (vec 16 7) (vec 16 8)));
        Sender.Channel (SentTo 1 9 [1; 2; 3]); Sender.Channel (SendFailed [1; 2; 3])], s))
      as [s ->] by (eexists; vm_compute; reflexivity).
    intros Hrun. congruence.
Defined.

(** C39: The two ends of a reverse channel understand each other: with the same
    channel key, the probe a round of the timer sends to a destination is
    answered and registers the path, and the receiver takes that answer out of
    the packet stream, once (a second copy is a packet like any other); every
    datagram that is no answer to an open challenge reaches the channel
    unchanged. *)
Theorem reverse_udp_handshake
    `{Blake3KeyedSpec, Countable SocketAddr, !KeyOrder (Z * SocketAddr)}
    (receiver : ReverseReceiver.t SocketAddr) (sender : ReverseSender.t SocketAddr)
    nonce_of before d after :
  ReverseReceiver.key receiver = ReverseSender.key sender →
  challenges_ok receiver → (∀ i, len (nonce_of i) = 16) →
  ReverseReceiver.destinations receiver = before ++ d :: after → d ∉ after →
  ∃ sent probe receiver1,
    ReverseReceiver.tick receiver nonce_of = Ret (sent, receiver1)
    ∧ sent !! length before = Some (d, probe)
    ∧ (∀ socket peer nonce sent_ok now, len nonce = 16 →
        ∃ response sender' receiver2,
          ReverseSender.receive sender socket peer probe nonce sent_ok now
            = Ret (Some response, sender')
          ∧ (sent_ok = true → ReverseSender.peers sender' !! (socket, peer) = Some now)
          ∧ ReverseReceiver.receive receiver1 d response = Ret (None, receiver2)
          ∧ ReverseReceiver.receive receiver2 d response = Ret (Some response, receiver2))
    ∧ (∀ peer bytes,
        (∀ challenge, ReverseReceiver.challenges receiver1 !! peer = Some challenge →
           ¬ is_response (ReverseSender.key sender) challenge bytes) →
        ReverseReceiver.receive receiver1 peer bytes = Ret (Some bytes, receiver1)).
Proof.
  intros Hkey Hok Hn Hd Hafter.
  destruct (tick_spec receiver nonce_of Hn) as (receiver1 & Htick & Hk1 & _ & Hc1).
  rewrite Hd in Htick, Hc1. set (n := length before) in *.
  eexists _, (probe_of (ReverseReceiver.key receiver) (nonce_of n)), receiver1.
  split; [exact Htick|].
  assert (ReverseReceiver.challenges receiver1 !! d = Some (nonce_of n)) as Hch
    by by rewrite Hc1, last_position.
  split; [|split].
  - unfold probes. rewrite list_lookup_imap, lookup_app_r, Nat.sub_diag by done. done.
  - intros socket peer nonce sent_ok now Hnonce.
    unfold ReverseSender.receive. rewrite Hkey, valid_probe_eq, bool_decide_true by by exists (nonce_of n).
    cbn [mbind comp_bind negb]. unfold probe_of at 1.
    rewrite slice_app_l by by rewrite Hn. cbn [mbind comp_bind].
    rewrite make_response_eq by done. cbn [mbind comp_bind].
    assert (valid_response (response_of (ReverseSender.key sender) (nonce_of n) nonce)
      (ReverseSender.key sender) (nonce_of n) = Ret true) as Hvalid.
    { destruct (valid_response_spec (response_of (ReverseSender.key sender) (nonce_of n) nonce)
        (ReverseSender.key sender) (nonce_of n) (Hn n)) as (b & -> & Hb).
      f_equal. apply Hb. by exists nonce. }
    eexists _, _, _. split; [done|]. split; [|split].
    + intros ->. cbn. by rewrite lookup_insert_eq.
    + unfold ReverseReceiver.receive. rewrite Hch, Hk1, Hkey, Hvalid. done.
    + unfold ReverseReceiver.receive. cbn. by rewrite lookup_delete_eq.
  - intros peer bytes Hno. unfold ReverseReceiver.receive.
    destruct (ReverseReceiver.challenges receiver1 !! peer) as [c|] eqn:E; [|done].
    assert (len c = 16) as Hc.
    { rewrite Hc1 in E. destruct (last _) as [[i ?]|]; [by injection E as <-|by apply (Hok peer)]. }
    rewrite Hk1, Hkey.
    destruct (valid_response_spec bytes (ReverseSender.key sender) c Hc) as ([] & -> & Hb); [|done].
    destruct (Hno c eq_refl). by apply Hb.
Qed.

(** A destination that is listed twice: the second probe counts. *)
Lemma reverse_udp_handshake_witness :
  let receiver := ReverseReceiver.Build_t (vec 32 3) [9; 10; 9] ∅ in
  let sender : ReverseSender.t Z := ReverseSender.Build_t (vec 32 3) 1 ∅ in
  ReverseReceiver.destinations receiver = [9; 10] ++ 9 :: []
  ∧ ∃ sent receiver1,
      ReverseReceiver.tick receiver (λ i, vec 16 (Z.of_nat i)) = Ret (sent, receiver1)
      ∧ (∀ peer bytes,
          (∀ challenge, ReverseReceiver.challenges receiver1 !! peer = Some challenge →
             ¬ is_response (vec 32 3) challenge bytes) →
          ReverseReceiver.receive receiver1 peer bytes = Ret (Some bytes, receiver1)).
Proof.
  intros receiver sender. split; [reflexivity|].
  destruct (reverse_udp_handshake receiver sender (λ i, vec 16 (Z.of_nat i)) [9; 10] 9 [])
    as (sent & probe & receiver1 & Htick & _ & _ & Hpass).
  - reflexivity.
  - apply map_Forall_empty.
  - intros i. by rewrite len_vec.
  - reflexivity.
  - apply not_elem_of_nil.
  - exists sent, receiver1. split; [exact Htick|exact Hpass].
Defined.
