(* ===== verification/Runtime.v ===== *)
(** * The runtime of the shell

    [remote.rs]: the tasks that drive an endpoint core.  One task receives
    packets, one polls, one accepts local connections, one hands packets to
    the channels, and every session has a writer; they share the core behind a
    lock, the map of sessions, and bounded queues.

    A task is a program counter.  A move takes one task from one point where it
    can be interrupted (an [await], or between the lock and a notification) to
    the next; [None] says that the task has to wait there.  The proxy of a session
    is the relay loop of [Socks5.transfer]: it reads from a connection and sends,
    or takes a message, and while it sends it takes nothing. *)

From stdpp Require Import gmap.
From S2P Require Import Prelude Core Sequence Crypto Routing Relay Endpoint Socks5.

(** ** Queues *)

(** [mpsc::channel(64)] of a session, and [mpsc::channel(65536)] of packets. *)
Definition SESSION_QUEUE : Z := 64.
Definition RAY_QUEUE : Z := 65536.
Definition PACKET_BATCH_SIZE : Z := 64.

Module OutboundTransportPacket.
Record t := { channel_id : ChannelId; bytes : list Z }.
End OutboundTransportPacket.
Module OTP := OutboundTransportPacket.

(** ** channels.rs *)

Module ChannelSenders.
Section senders.
Context {Sender : Type}.

(** The table of [channels]: no channel is configured twice. *)
Definition new (senders : list (ChannelId * Sender)) : comp (gmap ChannelId Sender) :=
  for_each senders (λ '(channel_id, sender) by_id,
    match by_id !! channel_id with
    | Some _ => Panic
    | None => Ret (<[channel_id := sender]> by_id)
    end) ∅.

Definition channel_ids (self : gmap ChannelId Sender) : list ChannelId := (conv_iter self).*1.

(** The packet comes back when its channel does not exist or is closed. *)
Definition send (self : gmap ChannelId Sender) (accepts : Sender → list Z → bool)
    (packet : OTP.t) : result OTP.t unit :=
  match self !! OTP.channel_id packet with
  | Some sender => if accepts sender (OTP.bytes packet) then Ok () else Err packet
  | None => Err packet
  end.
End senders.
End ChannelSenders.

(** ** Tasks *)

(** The part of a task after it called the core: to notify (the writers, and
    the poll loop if [deadline]), to attach a session it opened, to execute the
    actions; [pending] is the message an [await] is trying to send. *)
Inductive Pc : Type :=
  | Idle
  | Notifying (deadline : bool) (actions : list CoreAction)
  | Attaching (session : nat) (actions : list CoreAction)
  | Executing (pending : option (nat * ProxyMessage)) (actions : list CoreAction).

(** The task [attach] spawns.  [Armed] has enabled its notification and is about
    to call the core; [Blocked] waits for the notification. *)
Inductive WriterPc : Type :=
  | Unattached
  | Reading
  | Armed (notified : bool) (bytes : list Z)
  | Blocked (notified : bool) (bytes : list Z)
  | Emitting (closed : bool) (pc : Pc)
  | Done.

Inductive PollPc : Type :=
  | Checking
  | Due
  | Sleeping (delay_ms : Z)
  | Polling (pc : Pc).

(** [forward_out]: the rest of its batch, and the failure it reports. *)
Inductive OutPc : Type :=
  | Forwarding (batch : list OTP.t)
  | Reporting (pc : Pc) (batch : list OTP.t).

Inductive ProxyPc : Type :=
  | Ready
  | Sending (message : ProxyMessage)
  | Gone.

Module Session.
Record t := {
  conv_id : ConvId;
  input : list ProxyMessage;
  output : list ProxyMessage;
  proxy : ProxyPc;
  writer : WriterPc;
}.

#[global] Instance eta_Session : Eta t := λ s,
  Build_t (conv_id s) (input s) (output s) (proxy s) (writer s).

Definition new (conv_id : ConvId) (writer : WriterPc) : t := Build_t conv_id [] [] Ready writer.
End Session.

(** ** The endpoint *)

Module EndpointRuntime.
Section runtime.
Context `{Aegis128L, Blake3, HashIter}.

Record t := {
  core : EndpointCore.t;
  (** the session map, and all sessions attached so far *)
  sessions : gmap ConvId nat;
  attached : list Session.t;
  ray : list OTP.t;
  channels : gmap ChannelId unit;
  handed : list OTP.t;
  deadline_changed : bool;
  receiver : Pc;
  poller : PollPc;
  opener : Pc;
  outgoing : OutPc;
}.

#[global] Instance eta_EndpointRuntime : Eta t := λ s,
  Build_t (core s) (sessions s) (attached s) (ray s) (channels s) (handed s)
    (deadline_changed s) (receiver s) (poller s) (opener s) (outgoing s).

Definition new (core : EndpointCore.t) (channels : gmap ChannelId unit) : t :=
  Build_t core ∅ [] [] channels [] false Idle Checking Idle (Forwarding []).

(** *** Notifications *)

Definition wake (w : WriterPc) : WriterPc :=
  match w with
  | Armed _ bytes => Armed true bytes
  | Blocked _ bytes => Blocked true bytes
  | w => w
  end.

(** [writable.notify_waiters()] *)
Definition notify_waiters (self : t) : t :=
  self <| attached ::= fmap (λ s, s <| Session.writer ::= wake |>) |>.

Definition notify_deadline (self : t) : t := self <| deadline_changed := true |>.

(** *** Calls of the core *)

Definition handle_event (self : t) (now : Z) (event : CoreEvent)
    : comp (CoreEventResult * list CoreAction * t) :=
  '(r, c, actions) ← EndpointCore.handle_event (core self) now event [];
  Ret (r, actions, self <| core := c |>).

(** [handle], up to the notification. *)
Definition handle (self : t) (now : Z) (event : CoreEvent) : comp (Pc * t) :=
  '(_, actions, self) ← handle_event self now event;
  Ret (Notifying true actions, self).

(** *** Actions *)

Definition set_session (i : nat) (f : Session.t → Session.t) (self : t) : t :=
  self <| attached ::= alter f i |>.

(** The map entry, and the writer task; [split] consumes the session, so this
    happens once. *)
Definition spawn (w : WriterPc) : WriterPc := match w with Unattached => Reading | w => w end.

Definition attach (i : nat) (self : t) : t :=
  match attached self !! i with
  | Some s =>
      set_session i (λ s, s <| Session.writer ::= spawn |>)
        (self <| sessions ::= <[Session.conv_id s := i]> |>)
  | None => self
  end.

(** [input.send(message)], which waits while the queue is full. *)
Definition send_input (i : nat) (message : ProxyMessage) (self : t) : option t :=
  match attached self !! i with
  | None => None
  | Some s =>
      match Session.proxy s with
      | Gone => Some self
      | _ =>
          if len (Session.input s) <? SESSION_QUEUE
          then Some (set_session i (λ s, s <| Session.input ::= λ l, l ++ [message] |>) self)
          else None
      end
  end.

(** [send_transport_action] *)
Definition send_transport (packet : OTP.t) (self : t) : option t :=
  if len (ray self) <? RAY_QUEUE then Some (self <| ray ::= λ l, l ++ [packet] |>) else None.

(** One action of [execute], up to the [await] in it. *)
Definition start_action (action : CoreAction) (rest : list CoreAction) (self : t)
    : option (Pc * t) :=
  match action with
  | OpenSession conv_id =>
      let i := length (attached self) in
      let self := self <| attached ::= λ l, l ++ [Session.new conv_id Unattached] |> in
      Some (Executing None rest, attach i self)
  | WriteSession conv_id bytes =>
      Some (Executing ((λ i, (i, Write bytes)) <$> sessions self !! conv_id) rest, self)
  | CloseSession conv_id reason =>
      Some (Executing ((λ i, (i, Close reason)) <$> sessions self !! conv_id) rest,
            self <| sessions ::= delete conv_id |>)
  | SendTransportPacket channel_id bytes =>
      self ← send_transport (OTP.Build_t channel_id bytes) self;
      Some (Executing None rest, self)
  end.

(** One step of a task that has called the core. *)
Definition advance (pc : Pc) (self : t) : option (Pc * t) :=
  match pc with
  | Idle => None
  | Notifying deadline actions =>
      let self := notify_waiters self in
      Some (Executing None actions, if deadline then notify_deadline self else self)
  | Attaching i actions => Some (Executing None actions, notify_deadline (attach i self))
  | Executing (Some (i, message)) actions =>
      self ← send_input i message self; Some (Executing None actions, self)
  | Executing None [] => Some (Idle, self)
  | Executing None (action :: rest) => start_action action rest self
  end.

(** *** Moves *)

Inductive Move : Type :=
  | Receive (batch : list (ChannelId * list Z)) (now : Z)
  | StepReceiver
  | CheckDeadline (now : Z)
  | Poll (now : Z)
  | StepPoller
  | WakePoller (by_timer : bool)
  | Accept (now : Z)
  | StepOpener
  | Failure (packet : OTP.t) (now : Z)
  | TakeBatch (n : nat)
  | Forward (accepted : bool) (now : Z)
  | StepOutgoing
  | ReadOutput (i : nat)
  | Attempt (i : nat) (now : Z)
  | EmitClose (i : nat) (reason : CloseReason) (now : Z)
  | WakeWriter (i : nat)
  | StepWriter (i : nat)
  | Produce (i : nat) (message : ProxyMessage)
  | SendOutput (i : nat)
  | TakeInput (i : nat)
  | EndProxy (i : nat).

(** [receive_packets]: a batch under one lock, then the notification. *)
Definition receive_batch (batch : list (ChannelId * list Z)) (now : Z) (self : t) : comp t :=
  '(c, actions) ← for_each batch (λ '(channel_id, bytes) '(c, actions),
    '(_, c, actions) ←
      EndpointCore.handle_event c now (TransportPacketReceived channel_id bytes) actions;
    Ret (c, actions)) (core self, []);
  Ret (self <| core := c |> <| receiver := Notifying true actions |>).

(** [poll]: the delay until the next check. *)
Definition poll_delay (deadline now : Z) : Z :=
  if deadline =? U64_MAX then 20 else (deadline - now) `min` 100.

Definition check_deadline (now : Z) (self : t) : t :=
  let deadline := EndpointCore.next_deadline (core self) now in
  self <| poller := if deadline <=? now then Due else Sleeping (poll_delay deadline now) |>.

Definition poll (now : Z) (self : t) : comp t :=
  '(c, actions) ← EndpointCore.poll (core self) now [];
  Ret (self <| core := c |> <| poller := Polling (Notifying false actions) |>).

(** [open], up to [attach]. *)
Definition open (now : Z) (self : t) : comp t :=
  '(r, actions, self) ← handle_event self now SessionOpen;
  match r with
  | SessionCreated conv_id =>
      let i := length (attached self) in
      Ret (self <| attached ::= λ l, l ++ [Session.new conv_id Unattached] |>
                <| opener := Attaching i actions |>)
  | _ => Panic
  end.

(** [send_failed] within [forward_out]. *)
Definition report (packet : OTP.t) (batch : list OTP.t) (now : Z) (self : t) : comp t :=
  '(pc, self) ← handle self now
    (TransportPacketSendFailed (OTP.channel_id packet) (OTP.bytes packet));
  Ret (self <| outgoing := Reporting pc batch |>).

(** One packet of a batch. *)
Definition forward (accepted : bool) (packet : OTP.t) (batch : list OTP.t) (now : Z) (self : t)
    : comp t :=
  match ChannelSenders.send (channels self) (λ _ _, accepted) packet with
  | Ok _ => Ret (self <| handed ::= λ l, l ++ [packet] |> <| outgoing := Forwarding batch |>)
  | Err packet => report packet batch now self
  end.

(** The writer stops: its session leaves the map. *)
Definition finish_writer (i : nat) (self : t) : t :=
  match attached self !! i with
  | Some s =>
      set_session i (λ s, s <| Session.writer := Done |>)
        (self <| sessions ::= delete (Session.conv_id s) |>)
  | None => self
  end.

(** [emit] returned. *)
Definition settle_writer (i : nat) (closed : bool) (pc : Pc) (self : t) : t :=
  match pc with
  | Idle =>
      if closed then finish_writer i self
      else set_session i (λ s, s <| Session.writer := Reading |>) self
  | pc => set_session i (λ s, s <| Session.writer := Emitting closed pc |>) self
  end.

(** One turn of the loop of [emit]. *)
Definition attempt (i : nat) (notified : bool) (s : Session.t) (bytes : list Z) (now : Z)
    (self : t) : comp t :=
  '(r, actions, self) ← handle_event self now (SessionWrite (Session.conv_id s) bytes);
  match r with
  | SessionWriteBlocked =>
      Ret (set_session i (λ s, s <| Session.writer := Blocked notified bytes |>) self)
  | ResultNone =>
      Ret (set_session i (λ s, s <| Session.writer := Emitting false (Executing None actions) |>)
             (notify_deadline self))
  | SessionCreated _ => Panic
  end.

Definition emit_close (i : nat) (s : Session.t) (reason : CloseReason) (now : Z) (self : t)
    : comp t :=
  '(pc, self) ← handle self now (SessionClose (Session.conv_id s) reason);
  Ret (set_session i (λ s, s <| Session.writer := Emitting true pc |>) self).

(** The writer takes a message, or sees that there will be none. *)
Definition read_output (i : nat) (s : Session.t) (self : t) : option t :=
  match Session.writer s, Session.output s with
  | Reading, Write bytes :: output =>
      Some (set_session i (λ s, s <| Session.output := output |>
                                 <| Session.writer := Armed false bytes |>) self)
  | Reading, [] =>
      match Session.proxy s with Gone => Some (finish_writer i self) | _ => None end
  | _, _ => None
  end.

(** The proxy's side of the queues. *)
Definition produce (message : ProxyMessage) (s : Session.t) : option Session.t :=
  match Session.proxy s with
  | Ready => Some (s <| Session.proxy := Sending message |>)
  | _ => None
  end.

Definition writer_alive (s : Session.t) : bool :=
  match Session.writer s with Done => false | _ => true end.

Definition send_output (s : Session.t) : option Session.t :=
  match Session.proxy s with
  | Sending message =>
      if negb (writer_alive s) then Some (s <| Session.proxy := Gone |>) else
      if len (Session.output s) <? SESSION_QUEUE
      then Some (s <| Session.output ::= λ l, l ++ [message] |> <| Session.proxy := Ready |>)
      else None
  | _ => None
  end.

Definition take_input (s : Session.t) : option Session.t :=
  match Session.proxy s, Session.input s with
  | Ready, _ :: input => Some (s <| Session.input := input |>)
  | _, _ => None
  end.

Definition end_proxy (s : Session.t) : option Session.t :=
  match Session.proxy s with Ready => Some (s <| Session.proxy := Gone |>) | _ => None end.

Definition proxy_move (i : nat) (f : Session.t → option Session.t) (self : t)
    : option (comp t) :=
  s ← attached self !! i;
  s' ← f s;
  Some (Ret (set_session i (λ _, s') self)).

(** A move, if its task is there and does not have to wait. *)
Definition do_move (m : Move) (self : t) : option (comp t) :=
  match m with
  | Receive batch now =>
      match receiver self with
      | Idle =>
          if (1 <=? len batch) && (len batch <=? PACKET_BATCH_SIZE)
          then Some (receive_batch batch now self) else None
      | _ => None
      end
  | StepReceiver =>
      '(pc, self) ← advance (receiver self) self; Some (Ret (self <| receiver := pc |>))
  | CheckDeadline now =>
      match poller self with Checking => Some (Ret (check_deadline now self)) | _ => None end
  | Poll now => match poller self with Due => Some (poll now self) | _ => None end
  | StepPoller =>
      match poller self with
      | Polling Idle => Some (Ret (self <| poller := Checking |>))
      | Polling pc =>
          '(pc, self) ← advance pc self; Some (Ret (self <| poller := Polling pc |>))
      | _ => None
      end
  | WakePoller by_timer =>
      match poller self with
      | Sleeping _ =>
          if by_timer then Some (Ret (self <| poller := Checking |>)) else
          if deadline_changed self
          then Some (Ret (self <| poller := Checking |> <| deadline_changed := false |>))
          else None
      | _ => None
      end
  | Accept now => match opener self with Idle => Some (open now self) | _ => None end
  | StepOpener =>
      '(pc, self) ← advance (opener self) self; Some (Ret (self <| opener := pc |>))
  | Failure packet now =>
      match outgoing self with
      | Forwarding [] => Some (report packet [] now self)
      | _ => None
      end
  | TakeBatch n =>
      match outgoing self with
      | Forwarding [] =>
          let batch := take (n `min` Z.to_nat PACKET_BATCH_SIZE) (ray self) in
          if 1 <=? len batch
          then Some (Ret (self <| ray ::= drop (length batch) |> <| outgoing := Forwarding batch |>))
          else None
      | _ => None
      end
  | Forward accepted now =>
      match outgoing self with
      | Forwarding (packet :: batch) => Some (forward accepted packet batch now self)
      | _ => None
      end
  | StepOutgoing =>
      match outgoing self with
      | Reporting Idle batch => Some (Ret (self <| outgoing := Forwarding batch |>))
      | Reporting pc batch =>
          '(pc, self) ← advance pc self; Some (Ret (self <| outgoing := Reporting pc batch |>))
      | Forwarding _ => None
      end
  | ReadOutput i => s ← attached self !! i; Ret <$> read_output i s self
  | Attempt i now =>
      s ← attached self !! i;
      match Session.writer s with
      | Armed notified bytes => Some (attempt i notified s bytes now self)
      | _ => None
      end
  | EmitClose i reason now =>
      s ← attached self !! i;
      match Session.writer s, Session.output s with
      | Reading, Close reason' :: output =>
          if decide (reason' = reason)
          then Some (emit_close i s reason now
                       (set_session i (λ s, s <| Session.output := output |>) self))
          else None
      | _, _ => None
      end
  | WakeWriter i =>
      s ← attached self !! i;
      match Session.writer s with
      | Blocked true bytes =>
          Some (Ret (set_session i (λ s, s <| Session.writer := Armed false bytes |>) self))
      | _ => None
      end
  | StepWriter i =>
      s ← attached self !! i;
      match Session.writer s with
      | Emitting closed pc =>
          '(pc, self) ← advance pc self; Some (Ret (settle_writer i closed pc self))
      | _ => None
      end
  | Produce i message => proxy_move i (produce message) self
  | SendOutput i => proxy_move i send_output self
  | TakeInput i => proxy_move i take_input self
  | EndProxy i => proxy_move i end_proxy self
  end.

(** A run of moves, each possible where it is made. *)
Fixpoint run (moves : list Move) (self : t) : option (comp t) :=
  match moves with
  | [] => Some (Ret self)
  | m :: moves =>
      r ← do_move m self;
      match r with
      | Ret self => run moves self
      | Panic => Some Panic
      | NoFuel => Some NoFuel
      end
  end.

End runtime.
End EndpointRuntime.

(** ** The relay *)

Module RelayRuntime.
Section relay.
Context `{Aegis128L, Blake3, HashIter}.

(** [send_transport_actions] *)
Definition transport_actions (actions : list CoreAction) : list OTP.t :=
  omap (λ action,
    match action with
    | SendTransportPacket channel_id bytes => Some (OTP.Build_t channel_id bytes)
    | _ => None
    end) actions.

(** A batch of [forward_in]. *)
Definition forward_in (core : RelayCore.t) (now : Z) (batch : list (ChannelId * list Z))
    : comp (list OTP.t * RelayCore.t) :=
  '(core, actions) ← for_each batch (λ '(channel_id, bytes) '(core, actions),
    '(_, core, actions) ←
      RelayCore.handle_event core now (TransportPacketReceived channel_id bytes) actions;
    Ret (core, actions)) (core, []);
  Ret (transport_actions actions, core).

(** The [on_failure] of relay.rs: the actions are dropped. *)
Definition on_failure (core : RelayCore.t) (now : Z) (packet : OTP.t) : comp RelayCore.t :=
  '(_, core, _) ← RelayCore.handle_event core now
    (TransportPacketSendFailed (OTP.channel_id packet) (OTP.bytes packet)) [];
  Ret core.

End relay.
End RelayRuntime.
