(* ===== verification/RuntimeFacts.v ===== *)
(** * Wake-ups and deadlocks of the runtime

    A writer that the core refused is never forgotten: as long as it sleeps, the
    core still refuses it, or a notification is on its way.  And the queues of
    the shell can lock up: a session that is busy in both directions can stop
    the task that receives packets for good. *)

From stdpp Require Import gmap.
From S2P Require Import Prelude Bytes Core Sequence Crypto Wire Packet Machine Kcp Routing.
From S2P Require Import Endpoint EndpointLifecycle EndpointFacts Socks5 Runtime.

Module ER := EndpointRuntime.

(** ** When the core refuses a write *)

Section refusal.
Context `{Aegis128L, Blake3, HashIter}.

Definition refuses (core : EC.t) (conv : ConvId) (bytes : list Z) : bool :=
  match EC.sessions core !! conv with
  | Some s =>
      match div_ceil (1 +{64} len bytes) (KcpParams.mtu (EC.kcp_params core) -{64} KCP_OVERHEAD) with
      | Ret n =>
          KcpConfig.send_window (EndpointConfig.kcp (EC.config core))
            <? Kcp.wait_snd (ES.kcp s) +{64} n
      | _ => false
      end
  | None => false
  end.

(** What the answer for [conv] depends on. *)
Definition same_for (conv : ConvId) (core core' : EC.t) : Prop :=
  EC.sessions core' !! conv = EC.sessions core !! conv
  ∧ EC.kcp_params core' = EC.kcp_params core ∧ EC.config core' = EC.config core.

Lemma same_for_refl conv core : same_for conv core core.
Proof. done. Qed.

Lemma same_for_trans conv c1 c2 c3 :
  same_for conv c1 c2 → same_for conv c2 c3 → same_for conv c1 c3.
Proof. intros (? & ? & ?) (? & ? & ?). split_and!; congruence. Qed.

Lemma refuses_same conv core core' bytes :
  same_for conv core core' → refuses core' conv bytes = refuses core conv bytes.
Proof. intros (Hs & Hk & Hc). unfold refuses. by rewrite Hs, Hk, Hc. Qed.

Lemma write_refused core now conv bytes :
  refuses core conv bytes = true →
  EC.handle_event core now (SessionWrite conv bytes) [] = Ret (SessionWriteBlocked, core, []).
Proof.
  unfold refuses. cbn [EC.handle_event]. unfold EC.handle_session_write.
  destruct (EC.sessions core !! conv) as [s|]; [|done]. cbn [unwrap mbind comp_bind].
  destruct (div_ceil _ _) as [n| |]; [|done..]. cbn [mbind comp_bind]. by intros ->.
Qed.

Lemma write_blocked core now conv bytes core' actions :
  EC.handle_event core now (SessionWrite conv bytes) [] = Ret (SessionWriteBlocked, core', actions) →
  refuses core conv bytes = true ∧ core' = core ∧ actions = [].
Proof.
  unfold refuses. cbn [EC.handle_event]. unfold EC.handle_session_write.
  destruct (EC.sessions core !! conv) as [s|]; [|done]. cbn [unwrap mbind comp_bind].
  destruct (div_ceil _ _) as [n| |]; [|done..]. cbn [mbind comp_bind].
  destruct (_ <? _); [by intros [= <- <-]|].
  intros ([self1 a1] & _ & Hr)%bind_ret. done.
Qed.

Lemma quiet_same conv self a self' a' : quiet self a self' a' → same_for conv self self'.
Proof. intros [Hs _ _ Hc Hk _]. split_and!; [by rewrite Hs|done|done]. Qed.

Lemma put_session_same c conv (self : EC.t) s :
  c ≠ conv → same_for c self (EC.put_session self conv s).
Proof. intros Hc. split_and!; [|done|done]. cbn. by rewrite lookup_insert_ne. Qed.

Lemma finish_closed_session_same c self e conv a self' a' :
  EC.finish_closed_session self e conv a = Ret (self', a') → c ≠ conv → same_for c self self'.
Proof.
  intros Hr Hc. revert Hr. unfold EC.finish_closed_session.
  destruct (_ !! conv) as [s|]; [|by intros [= <- _]].
  cbn zeta. destruct (negb _); [by intros [= <- _]|].
  assert (same_for c self (self <| EC.sessions ::= delete conv |>)) as Hd.
  { split_and!; [|done|done]. cbn. by rewrite lookup_delete_ne. }
  case_bool_decide; [by intros [= <- _]|].
  intros (a1 & _ & Hr)%bind_ret. by apply Ret_inj in Hr as [= <- _].
Qed.

Lemma send_session_message_same c self e conv m a self' a' :
  EC.send_session_message self e conv m a = Ret (self', a') → c ≠ conv → same_for c self self'.
Proof.
  unfold EC.send_session_message. intros (s & _ & Hr)%bind_ret Hc.
  apply bind_ret in Hr as ([ps s'] & _ & Hr).
  apply bind_ret in Hr as ([self1 a1] & Hq%send_kcp_packets_quiet & Hr).
  apply finish_closed_session_same with (c := c) in Hr; [|done].
  eapply same_for_trans; [by apply (put_session_same c conv self s')|].
  eapply same_for_trans; [by eapply quiet_same|done].
Qed.

Lemma write_same c core now conv bytes core' actions :
  EC.handle_event core now (SessionWrite conv bytes) [] = Ret (ResultNone, core', actions) →
  c ≠ conv → same_for c core core'.
Proof.
  cbn [EC.handle_event]. unfold EC.handle_session_write.
  intros (s & _ & Hr)%bind_ret Hc. apply bind_ret in Hr as (n & _ & Hr).
  destruct (_ <? _); [done|].
  apply bind_ret in Hr as ([self1 a1] & Hm & Hr). apply Ret_inj in Hr as [= <- _].
  by eapply send_session_message_same.
Qed.

Lemma open_same c core now conv core' actions :
  EC.handle_event core now SessionOpen [] = Ret (SessionCreated conv, core', actions) →
  c ≠ conv → same_for c core core'.
Proof.
  cbn [EC.handle_event]. unfold EC.handle_session_open. cbn zeta.
  intros ([self1 a1] & Hm & Hr)%bind_ret Hc. apply Ret_inj in Hr as [= <- <- _].
  eapply (same_for_trans c core (core <| EC.next_conv_id ::= λ c, c +{64} 1 |>)); [done|].
  eapply same_for_trans; [by eapply put_session_same|by eapply send_session_message_same].
Qed.

End refusal.

(** ** Who sleeps, and who is about to notify *)

Definition notifying_pc (pc : Pc) : bool :=
  match pc with Notifying _ _ => true | _ => false end.

Definition notifying_writer (w : WriterPc) : bool :=
  match w with Emitting _ pc => notifying_pc pc | _ => false end.

Definition notifying_poller (p : PollPc) : bool :=
  match p with Polling pc => notifying_pc pc | _ => false end.

Definition notifying_out (o : OutPc) : bool :=
  match o with Reporting pc _ => notifying_pc pc | _ => false end.

(** Asleep: refused, and not notified since it asked. *)
Definition asleep (w : WriterPc) (bytes : list Z) : Prop := w = Blocked false bytes.

Section runtime.
Context `{Aegis128L, Blake3, HashIter}.

(** Some task is between its call of the core and its notification. *)
Definition loop_notifying (self : ER.t) : bool :=
  notifying_pc (ER.receiver self) || notifying_poller (ER.poller self)
  || notifying_out (ER.outgoing self).

Definition notifying (self : ER.t) : Prop :=
  loop_notifying self = true
  ∨ ∃ s, s ∈ ER.attached self ∧ notifying_writer (Session.writer s) = true.

(** Every sleeping writer is still refused, unless a notification is due. *)
Definition heard (self : ER.t) : Prop :=
  ∀ s bytes, s ∈ ER.attached self → asleep (Session.writer s) bytes →
    notifying self ∨ refuses (ER.core self) (Session.conv_id s) bytes = true.

Inductive reachable (core : EC.t) (channels : gmap ChannelId unit) : ER.t → Prop :=
  | reachable_start : reachable core channels (ER.new core channels)
  | reachable_move m self self' :
      reachable core channels self → ER.do_move m self = Some (Ret self') →
      reachable core channels self'.

Definition conv_ids (self : ER.t) : list ConvId := Session.conv_id <$> ER.attached self.

(** *** Moves that leave writers asleep or awake as they are *)

(** Sessions keep their conversation; a writer only starts reading. *)
Definition kept (s s' : Session.t) : Prop :=
  Session.conv_id s' = Session.conv_id s
  ∧ (Session.writer s' = Session.writer s
     ∨ Session.writer s = Unattached ∧ Session.writer s' = Reading).

Definition fresh (s : Session.t) : Prop :=
  Session.writer s = Unattached ∨ Session.writer s = Reading.

Definition keeps (self self' : ER.t) : Prop :=
  ER.core self' = ER.core self
  ∧ ∃ old new, ER.attached self' = old ++ new ∧ Forall2 kept (ER.attached self) old
      ∧ Forall fresh new.

#[local] Instance kept_refl : Reflexive kept.
Proof. intros s. split; [done|by left]. Qed.

#[local] Instance kept_trans : Transitive kept.
Proof. intros s1 s2 s3 [? [?|[? ?]]] [? [?|[? ?]]]; (split; [congruence|]); naive_solver congruence. Qed.

Lemma keeps_same self self' :
  ER.core self' = ER.core self → ER.attached self' = ER.attached self → keeps self self'.
Proof.
  intros Hc Ha. split; [done|]. exists (ER.attached self), []. rewrite Ha, app_nil_r.
  split_and!; [done|reflexivity|done].
Qed.

Lemma keeps_trans s1 s2 s3 : keeps s1 s2 → keeps s2 s3 → keeps s1 s3.
Proof.
  intros [Hc1 (o1 & n1 & E1 & Hk1 & Hf1)] [Hc2 (o2 & n2 & E2 & Hk2 & Hf2)].
  split; [congruence|]. rewrite E1 in Hk2.
  apply Forall2_app_inv_l in Hk2 as (o & n & Hko & Hkn & ->).
  exists o, (n ++ n2). rewrite (assoc_L (++)). split_and!; [done| |].
  - by etrans.
  - apply Forall_app. split; [|done]. clear -Hkn Hf1.
    induction Hkn as [|x y n1 n [_ Hxy] _ IH]; [done|].
    apply Forall_cons in Hf1 as [Hx Hf1]. constructor; [|by apply IH].
    unfold fresh in *. destruct Hxy as [->|[_ ->]]; [done|by right].
Qed.

Lemma keeps_alter i f self :
  (∀ s, kept s (f s)) → keeps self (ER.set_session i f self).
Proof.
  intros Hf. split; [done|]. exists (ER.attached (ER.set_session i f self)), [].
  rewrite app_nil_r. split_and!; [done| |done]. cbn.
  apply Forall2_same_length_lookup. rewrite length_alter. split; [done|].
  intros j s s' Hs Hs'. destruct (decide (i = j)) as [->|Hne].
  - rewrite list_lookup_alter_eq, Hs in Hs'. by injection Hs' as <-.
  - rewrite list_lookup_alter_ne, Hs in Hs' by done. by injection Hs' as <-.
Qed.

(** *** What each kind of move does to [heard] *)

Lemma heard_notifying self : notifying self → heard self.
Proof. intros Hn s bytes _ _. by left. Qed.

Lemma heard_awake self :
  (∀ s bytes, s ∈ ER.attached self → ¬ asleep (Session.writer s) bytes) → heard self.
Proof. intros Hn s bytes Hs Ha. by destruct (Hn s bytes Hs). Qed.

Lemma heard_keeps self self' :
  keeps self self' → (loop_notifying self = true → loop_notifying self' = true) →
  heard self → heard self'.
Proof.
  intros [Hc (old & new & Ha & Hk & Hf)] Hl Hh s' bytes Hs' Hw. unfold asleep in Hw.
  rewrite Ha in Hs'. apply elem_of_app in Hs' as [Hs'|Hs'].
  2:{ rewrite Forall_forall in Hf. destruct (Hf s' Hs') as [E|E]; congruence. }
  apply list_elem_of_lookup_1 in Hs' as [i Hi].
  destruct (Forall2_lookup_r _ _ _ _ _ Hk Hi) as (s & Hs & Hconv & Hsw).
  assert (asleep (Session.writer s) bytes) as Hw0 by (unfold asleep; naive_solver congruence).
  apply list_elem_of_lookup_2 in Hs. rewrite Hconv, Hc.
  destruct (Hh s bytes Hs Hw0) as [[Hn|(t & Ht & Hn)]|]; [left; left; by apply Hl| |by right].
  left. right. apply list_elem_of_lookup_1 in Ht as [j Hj].
  destruct (Forall2_lookup_l _ _ _ _ _ Hk Hj) as (t' & Ht' & _ & Htw).
  exists t'. rewrite Ha. split; [apply elem_of_app; left; by eapply list_elem_of_lookup_2|].
  destruct Htw as [->|[E _]]; [done|]. by rewrite E in Hn.
Qed.

(** One writer moves, and the core may answer its conversation differently. *)
Lemma heard_writer i s s' self self' :
  ER.attached self !! i = Some s → ER.attached self' = <[i := s']> (ER.attached self) →
  (loop_notifying self = true → loop_notifying self' = true) →
  Session.conv_id s' = Session.conv_id s → notifying_writer (Session.writer s) = false →
  (∀ bytes, asleep (Session.writer s') bytes →
     refuses (ER.core self') (Session.conv_id s) bytes = true) →
  (∀ j t, j ≠ i → ER.attached self !! j = Some t →
     same_for (Session.conv_id t) (ER.core self) (ER.core self')) →
  heard self → heard self'.
Proof.
  intros Hi Ha Hl Hconv Hn Hs' Hother Hh t bytes Ht Hw. rewrite Ha in Ht.
  apply list_elem_of_lookup_1 in Ht as [j Hj].
  destruct (decide (i = j)) as [->|Hne].
  { rewrite list_lookup_insert_eq in Hj by by eapply lookup_lt_Some. injection Hj as <-.
    right. rewrite Hconv. by apply Hs'. }
  rewrite list_lookup_insert_ne in Hj by done.
  rewrite (refuses_same _ (ER.core self)) by by eapply Hother.
  destruct (Hh t bytes) as [[Hp|(u & Hu & Hp)]|]; [by eapply list_elem_of_lookup_2|done| | |by right].
  - left. left. by apply Hl.
  - left. right. exists u. split; [|done]. rewrite Ha.
    apply list_elem_of_lookup_1 in Hu as [k Hk].
    destruct (decide (i = k)) as [->|]; [rewrite Hi in Hk; injection Hk as <-; congruence|].
    apply (list_elem_of_lookup_2 _ k). by rewrite list_lookup_insert_ne.
Qed.

(** *** The steps of a task that has called the core *)

Definition same_loops (self self' : ER.t) : Prop :=
  ER.receiver self' = ER.receiver self ∧ ER.poller self' = ER.poller self
  ∧ ER.outgoing self' = ER.outgoing self.

Lemma kept_spawn s : kept s (s <| Session.writer ::= ER.spawn |>).
Proof. split; [done|]. cbn. destruct (Session.writer s) eqn:E; [by right|by left..]. Qed.

Lemma attach_keeps i self : keeps self (ER.attach i self) ∧ same_loops self (ER.attach i self).
Proof.
  unfold ER.attach. destruct (ER.attached self !! i) as [s|]; [|split; [by apply keeps_same|done]].
  split; [|done]. eapply keeps_trans; [|apply keeps_alter, kept_spawn]. by apply keeps_same.
Qed.

Lemma open_keeps conv self :
  keeps self (self <| ER.attached ::= λ l, l ++ [Session.new conv Unattached] |>).
Proof.
  split; [done|]. exists (ER.attached self), [Session.new conv Unattached].
  split_and!; [done|reflexivity|]. constructor; [by left|done].
Qed.

Lemma send_input_keeps i m self self' :
  ER.send_input i m self = Some self' → keeps self self' ∧ same_loops self self'.
Proof.
  unfold ER.send_input. destruct (_ !! i) as [s|]; [|done].
  assert (keeps self (ER.set_session i (λ s, s <| Session.input ::= λ l, l ++ [m] |>) self)) as Hk
    by (apply keeps_alter; intros; split; [done|by left]).
  destruct (Session.proxy s); [destruct (_ <? _)..|]; try done; intros [= <-];
    (split; [done || by apply keeps_same|done]).
Qed.

Lemma start_action_keeps a rest self pc' self' :
  ER.start_action a rest self = Some (pc', self') →
  keeps self self' ∧ same_loops self self' ∧ notifying_pc pc' = false.
Proof.
  destruct a as [ch bytes|conv|conv bytes|conv reason]; cbn [ER.start_action].
  - unfold ER.send_transport. destruct (_ <? _); [|done]. cbn. intros [= <- <-].
    split_and!; [by apply keeps_same|done|done].
  - intros [= <- <-]. set (self1 := self <| ER.attached ::= _ |>).
    destruct (attach_keeps (length (ER.attached self)) self1) as [Hk Hl].
    split_and!; [|done|done]. eapply keeps_trans; [apply open_keeps|done].
  - intros [= <- <-]. split_and!; [by apply keeps_same|done|done].
  - intros [= <- <-]. split_and!; [by apply keeps_same|done|done].
Qed.

Lemma advance_quiet pc self pc' self' :
  ER.advance pc self = Some (pc', self') → notifying_pc pc = false →
  keeps self self' ∧ same_loops self self' ∧ notifying_pc pc' = false.
Proof.
  destruct pc as [|d a|i a|[[i m]|] [|a rest]]; cbn [ER.advance]; try done.
  - intros [= <- <-] _. destruct (attach_keeps i self) as [Hk Hl]. split_and!; [|done|done].
    eapply keeps_trans; [exact Hk|by apply keeps_same].
  - destruct (ER.send_input i m self) as [self1|] eqn:E; [|done]. cbn. intros [= <- <-] _.
    by apply send_input_keeps in E as [? ?].
  - destruct (ER.send_input i m self) as [self1|] eqn:E; [|done]. cbn. intros [= <- <-] _.
    by apply send_input_keeps in E as [? ?].
  - intros [= <- <-] _. split_and!; [by apply keeps_same|done|done].
  - intros Ha _. by eapply start_action_keeps.
Qed.

Lemma advance_notifies pc self pc' self' :
  ER.advance pc self = Some (pc', self') → notifying_pc pc = true →
  ∀ s bytes, s ∈ ER.attached self' → ¬ asleep (Session.writer s) bytes.
Proof.
  destruct pc as [|d a| |]; try done. cbn [ER.advance]. intros [= <- <-] _ s bytes Hs Hw.
  assert (s ∈ (λ s, s <| Session.writer ::= ER.wake |>) <$> ER.attached self) as Hs'
    by by destruct d.
  apply list_elem_of_fmap in Hs' as (t & -> & _). unfold asleep in Hw. cbn in Hw.
  by destruct (Session.writer t).
Qed.

(** *** What a call of the core leaves behind *)

Lemma handle_event_ret self now ev r a self' :
  ER.handle_event self now ev = Ret (r, a, self') →
  ∃ c, EC.handle_event (ER.core self) now ev [] = Ret (r, c, a)
     ∧ self' = self <| ER.core := c |>.
Proof.
  unfold ER.handle_event. intros ([[r' c] a'] & He & Hr)%bind_ret.
  apply Ret_inj in Hr as [= <- <- <-]. by exists c.
Qed.

Lemma handle_ret self now ev pc self' :
  ER.handle self now ev = Ret (pc, self') →
  ∃ c a, pc = Notifying true a ∧ self' = self <| ER.core := c |>.
Proof.
  unfold ER.handle. intros ([[r a] s] & (c & _ & ->)%handle_event_ret & Hr)%bind_ret.
  apply Ret_inj in Hr as [= <- <-]. by exists c, a.
Qed.

Lemma report_ret packet batch now self self' :
  ER.report packet batch now self = Ret self' →
  ∃ c a, self' = self <| ER.core := c |> <| ER.outgoing := Reporting (Notifying true a) batch |>.
Proof.
  unfold ER.report. intros ([pc s] & (c & a & -> & ->)%handle_ret & Hr)%bind_ret.
  apply Ret_inj in Hr as <-. by exists c, a.
Qed.

Lemma emit_close_ret i s reason now self self' :
  ER.emit_close i s reason now self = Ret self' →
  ∃ c a, self' = ER.set_session i (λ s, s <| Session.writer := Emitting true (Notifying true a) |>)
                   (self <| ER.core := c |>).
Proof.
  unfold ER.emit_close. intros ([pc s'] & (c & a & -> & ->)%handle_ret & Hr)%bind_ret.
  apply Ret_inj in Hr as <-. by exists c, a.
Qed.

Lemma receive_batch_ret batch now self self' :
  ER.receive_batch batch now self = Ret self' →
  ∃ c a, self' = self <| ER.core := c |> <| ER.receiver := Notifying true a |>.
Proof.
  unfold ER.receive_batch. intros ([c a] & _ & Hr)%bind_ret. apply Ret_inj in Hr as <-.
  by exists c, a.
Qed.

Lemma poll_ret now self self' :
  ER.poll now self = Ret self' →
  ∃ c a, self' = self <| ER.core := c |> <| ER.poller := Polling (Notifying false a) |>.
Proof.
  unfold ER.poll. intros ([c a] & _ & Hr)%bind_ret. apply Ret_inj in Hr as <-. by exists c, a.
Qed.

Lemma open_ret now self self' :
  ER.open now self = Ret self' →
  ∃ conv c a, EC.handle_event (ER.core self) now SessionOpen [] = Ret (SessionCreated conv, c, a)
    ∧ self' = self <| ER.core := c |>
                <| ER.attached ::= λ l, l ++ [Session.new conv Unattached] |>
                <| ER.opener := Attaching (length (ER.attached self)) a |>.
Proof.
  unfold ER.open. intros ([[r a] s] & (c & He & ->)%handle_event_ret & Hr)%bind_ret.
  destruct r as [|conv|]; try done. apply Ret_inj in Hr as <-. by exists conv, c, a.
Qed.

(** *** One move *)

(** Sessions keep their conversations, and nothing is forgotten. *)
Definition good (self self' : ER.t) : Prop :=
  conv_ids self `prefix_of` conv_ids self' ∧ (NoDup (conv_ids self') → heard self → heard self').

Lemma keeps_conv_ids self self' : keeps self self' → conv_ids self `prefix_of` conv_ids self'.
Proof.
  intros [_ (old & new & Ha & Hk & _)]. unfold conv_ids. rewrite Ha, fmap_app.
  exists (Session.conv_id <$> new). f_equal.
  clear Ha. induction Hk as [|s s' l l' [Hs _] _ IH]; [done|]. csimpl. by rewrite Hs, IH.
Qed.

Lemma good_keeps self self' :
  keeps self self' → (loop_notifying self = true → loop_notifying self' = true) → good self self'.
Proof. intros Hk Hl. split; [by apply keeps_conv_ids|]. intros _. by apply heard_keeps. Qed.

(** A task that called the core is now about to notify. *)
Lemma good_notifying self self' :
  ER.attached self' = ER.attached self → loop_notifying self' = true → good self self'.
Proof.
  intros Ha Hl. split; [unfold conv_ids; by rewrite Ha|].
  intros _ _. apply heard_notifying. by left.
Qed.

Lemma alter_as_insert {A} (f : A → A) i (l : list A) x :
  l !! i = Some x → alter f i l = <[i := f x]> l.
Proof.
  intros Hi. apply list_eq. intros j. destruct (decide (i = j)) as [->|].
  - rewrite list_lookup_alter_eq, list_lookup_insert_eq by by eapply lookup_lt_Some.
    by rewrite Hi.
  - by rewrite list_lookup_alter_ne, list_lookup_insert_ne.
Qed.

Lemma insert_conv_ids i s s' (l : list Session.t) :
  l !! i = Some s → Session.conv_id s' = Session.conv_id s →
  Session.conv_id <$> <[i := s']> l = Session.conv_id <$> l.
Proof.
  intros Hi Hc. rewrite list_fmap_insert, Hc. apply list_insert_id. by rewrite list_lookup_fmap, Hi.
Qed.

Lemma good_writer i s s' self self' :
  ER.attached self !! i = Some s → ER.attached self' = <[i := s']> (ER.attached self) →
  (loop_notifying self = true → loop_notifying self' = true) →
  Session.conv_id s' = Session.conv_id s → notifying_writer (Session.writer s) = false →
  (∀ bytes, asleep (Session.writer s') bytes →
     refuses (ER.core self') (Session.conv_id s) bytes = true) →
  (NoDup (conv_ids self) → ∀ j t, j ≠ i → ER.attached self !! j = Some t →
     same_for (Session.conv_id t) (ER.core self) (ER.core self')) →
  good self self'.
Proof.
  intros Hi Ha Hl Hc Hn Hs' Hother.
  assert (conv_ids self' = conv_ids self) as E
    by (unfold conv_ids; rewrite Ha; by eapply insert_conv_ids).
  split; [by rewrite E|]. rewrite E. intros Hnd Hh. eapply heard_writer; eauto.
Qed.

Lemma advance_conv_ids pc self pc' self' :
  ER.advance pc self = Some (pc', self') → conv_ids self `prefix_of` conv_ids self'.
Proof.
  intros Ha. destruct (notifying_pc pc) eqn:Hn.
  - destruct pc as [|d a| |]; try done. cbn in Ha. injection Ha as <- <-.
    assert (conv_ids (ER.notify_waiters self) = conv_ids self) as E.
    { unfold conv_ids. cbn. rewrite <- list_fmap_compose. by apply list_fmap_ext. }
    destruct d; unfold conv_ids in *; cbn in *; by rewrite E.
  - apply advance_quiet in Ha as [Hk _]; [|done]. by apply keeps_conv_ids.
Qed.

Lemma good_advance pc self pc' self1 self' :
  ER.advance pc self = Some (pc', self1) →
  ER.core self' = ER.core self1 → ER.attached self' = ER.attached self1 →
  (notifying_pc pc = false → notifying_pc pc' = false → same_loops self self1 →
   loop_notifying self = true → loop_notifying self' = true) →
  good self self'.
Proof.
  intros Hadv Hc Ha Hl. split.
  { unfold conv_ids. rewrite Ha. by eapply advance_conv_ids. }
  intros _ Hh. destruct (notifying_pc pc) eqn:Hn.
  - apply heard_awake. rewrite Ha. by eapply advance_notifies.
  - eapply advance_quiet in Hadv as (Hk & Hs & Hn'); [|done].
    eapply heard_keeps; [|by apply Hl|exact Hh].
    eapply keeps_trans; [exact Hk|by apply keeps_same].
Qed.

Lemma settle_writer_spec i closed pc s self :
  ER.attached self !! i = Some s →
  ∃ s', ER.attached (ER.settle_writer i closed pc self) = <[i := s']> (ER.attached self)
    ∧ Session.conv_id s' = Session.conv_id s ∧ (∀ bytes, ¬ asleep (Session.writer s') bytes)
    ∧ ER.core (ER.settle_writer i closed pc self) = ER.core self
    ∧ loop_notifying (ER.settle_writer i closed pc self) = loop_notifying self.
Proof.
  intros Hi. unfold ER.settle_writer, ER.finish_writer. rewrite Hi.
  destruct pc; [destruct closed|..]; (eexists; split; [cbn; by apply alter_as_insert|]);
    by split_and!.
Qed.

Lemma good_step_writer i s closed pc pc' self self1 :
  ER.attached self !! i = Some s → Session.writer s = Emitting closed pc →
  ER.advance pc self = Some (pc', self1) → good self (ER.settle_writer i closed pc' self1).
Proof.
  intros Hi Hw Hadv. pose proof (advance_conv_ids _ _ _ _ Hadv) as Hpre.
  assert (∃ s1, ER.attached self1 !! i = Some s1
    ∧ (notifying_pc pc = false → kept s s1)) as (s1 & Hi1 & Hk1).
  { destruct (notifying_pc pc) eqn:Hn.
    - destruct Hpre as [l Hl]. apply (f_equal length) in Hl. unfold conv_ids in Hl.
      rewrite length_app, !length_fmap in Hl. apply lookup_lt_Some in Hi.
      destruct (lookup_lt_is_Some_2 (ER.attached self1) i) as [s1 Hs1]; [lia|]. by exists s1.
    - destruct (advance_quiet _ _ _ _ Hadv Hn) as ((_ & old & new & Ha & Hk & _) & _).
      destruct (Forall2_lookup_l _ _ _ _ _ Hk Hi) as (s1 & Hs1 & Hkk).
      exists s1. rewrite Ha. split; [by apply lookup_app_l_Some|done]. }
  destruct (settle_writer_spec i closed pc' s1 self1 Hi1) as (s' & Ha & Hc & Hw' & Hcore & Hl).
  split.
  { etrans; [exact Hpre|]. unfold conv_ids. rewrite Ha. by erewrite insert_conv_ids. }
  intros _ Hh. destruct (notifying_pc pc) eqn:Hn.
  - apply heard_awake. rewrite Ha. intros t bytes Ht.
    apply list_elem_of_lookup_1 in Ht as [j Hj].
    destruct (decide (i = j)) as [->|].
    + rewrite list_lookup_insert_eq in Hj by by eapply lookup_lt_Some. injection Hj as <-. apply Hw'.
    + rewrite list_lookup_insert_ne in Hj by done.
      eapply advance_notifies; [done|done|]. by eapply list_elem_of_lookup_2.
  - destruct (advance_quiet _ _ _ _ Hadv Hn) as (Hk & (Hr & Hp & Ho) & Hn').
    assert (loop_notifying self1 = loop_notifying self) as Hl1
      by (unfold loop_notifying; by rewrite Hr, Hp, Ho).
    eapply (heard_writer i s1 s' self1); [done|done|by rewrite Hl|done| | |by rewrite Hcore|].
    + destruct (Hk1 eq_refl) as [_ [E|[E _]]]; [by rewrite E, Hw|congruence].
    + intros bytes Hs. by destruct (Hw' bytes Hs).
    + eapply heard_keeps; [exact Hk|by rewrite Hl1|done].
Qed.

Lemma open_good now self self' : ER.open now self = Ret self' → good self self'.
Proof.
  intros (conv & c & a & Hev & ->)%open_ret. set (self' := _ <| ER.opener := _ |>).
  assert (conv_ids self' = conv_ids self ++ [conv]) as E by (unfold conv_ids; cbn; by rewrite fmap_app).
  split; [rewrite E; by eexists|]. rewrite E. intros Hnd Hh t bytes Ht Hw.
  change (ER.attached self') with (ER.attached self ++ [Session.new conv Unattached]) in Ht.
  apply elem_of_app in Ht as [Ht|Ht%list_elem_of_singleton]; [|by subst t].
  change (ER.core self') with c. rewrite (refuses_same _ (ER.core self)).
  - destruct (Hh t bytes Ht Hw) as [[Hp|(u & Hu & Hp)]|]; [by left; left| |by right].
    left. right. exists u. split; [|done]. cbn. by apply elem_of_app; left.
  - eapply open_same; [exact Hev|]. intros <-.
    apply NoDup_app in Hnd as (_ & Hnd & _). apply (Hnd (Session.conv_id t)); [|by left].
    by apply list_elem_of_fmap_2.
Qed.

Lemma attempt_good i notified s bytes now self self' :
  ER.attached self !! i = Some s → Session.writer s = Armed notified bytes →
  ER.attempt i notified s bytes now self = Ret self' → good self self'.
Proof.
  intros Hi Hw ([[r a] s1] & (c & Hev & ->)%handle_event_ret & Hr)%bind_ret.
  destruct r; try done; apply Ret_inj in Hr as <-.
  - eapply good_writer; [exact Hi|cbn; by apply alter_as_insert|done|done|by rewrite Hw|done|].
    intros Hnd j t Hj Ht. eapply write_same; [exact Hev|]. intros Hc. apply Hj.
    apply (NoDup_lookup _ _ _ (Session.conv_id s) Hnd); unfold conv_ids; rewrite list_lookup_fmap.
    + by rewrite Ht, <- Hc.
    + by rewrite Hi.
  - apply write_blocked in Hev as (Href & -> & _).
    eapply good_writer; [exact Hi|cbn; by apply alter_as_insert|done|done|by rewrite Hw| |done].
    intros b Hb. injection Hb as _ <-. exact Href.
Qed.

Lemma emit_close_good i s t reason now self self' :
  ER.attached self !! i = Some t → ER.emit_close i s reason now self = Ret self' →
  good self self'.
Proof.
  intros Hi (c & a & ->)%emit_close_ret. split.
  - unfold conv_ids. cbn. erewrite alter_as_insert by done. by erewrite insert_conv_ids.
  - intros _ _. apply heard_notifying. right. eexists. split; [|].
    + apply (list_elem_of_lookup_2 _ i). cbn. erewrite alter_as_insert by done.
      apply list_lookup_insert_eq. by eapply lookup_lt_Some.
    + done.
Qed.

Lemma report_good packet batch now self self' :
  ER.report packet batch now self = Ret self' → good self self'.
Proof.
  intros (c & a & ->)%report_ret.
  apply good_notifying; [done|]. unfold loop_notifying. cbn. by rewrite !orb_true_r.
Qed.

(** A change of one session that leaves its writer as it was. *)
Lemma good_session i s s' self :
  ER.attached self !! i = Some s → kept s s' →
  good self (ER.set_session i (λ _, s') self).
Proof.
  intros Hi Hk. apply good_keeps; [|done]. split; [done|].
  exists (<[i := s']> (ER.attached self)), []. rewrite app_nil_r.
  split_and!; [cbn; by rewrite (alter_as_insert _ _ _ s)| |done].
  rewrite <- (list_insert_id (ER.attached self) i s) at 1 by done.
  by apply Forall2_insert; [reflexivity|].
Qed.

Lemma proxy_move_good i f self self' :
  (∀ s s', f s = Some s' → kept s s') →
  ER.proxy_move i f self = Some (Ret self') → good self self'.
Proof.
  intros Hf. unfold ER.proxy_move. destruct (ER.attached self !! i) as [s|] eqn:Hi; [|done].
  cbn. destruct (f s) as [s'|] eqn:Hs; [|done]. cbn. intros [= <-]. apply good_session with s; [done|].
  by apply Hf.
Qed.

(** Writers that move without being asleep, core untouched. *)
Lemma good_set_writer i s f self :
  ER.attached self !! i = Some s → notifying_writer (Session.writer s) = false →
  Session.conv_id (f s) = Session.conv_id s → (∀ b, ¬ asleep (Session.writer (f s)) b) →
  good self (ER.set_session i f self).
Proof.
  intros Hi Hn Hc Hw. eapply good_writer; [exact Hi|cbn; by apply alter_as_insert|done|done|done| |done].
  intros b Hb. by destruct (Hw b Hb).
Qed.

Lemma read_output_good i s self self' :
  ER.attached self !! i = Some s → ER.read_output i s self = Some self' → good self self'.
Proof.
  intros Hi. unfold ER.read_output, ER.finish_writer. rewrite Hi.
  destruct (Session.writer s) eqn:Hw; try done.
  destruct (Session.output s) as [|[bytes|r] output]; [destruct (Session.proxy s)| |]; try done;
    intros [= <-].
  - eapply good_writer; [exact Hi|cbn; by apply alter_as_insert|done|done|by rewrite Hw|done|done].
  - by apply (good_set_writer i s); [|rewrite Hw|..].
Qed.

Lemma same_core_good self self' :
  ER.core self' = ER.core self → ER.attached self' = ER.attached self →
  (loop_notifying self = true → loop_notifying self' = true) → good self self'.
Proof. intros. apply good_keeps; [by apply keeps_same|done]. Qed.

(** The step of a loop, whatever field holds its counter. *)
Lemma step_good pc (set : Pc → ER.t → ER.t) self r :
  ('(pc', s) ← ER.advance pc self; Some (Ret (set pc' s))) = Some (Ret r) →
  (∀ pc' s, ER.core (set pc' s) = ER.core s ∧ ER.attached (set pc' s) = ER.attached s) →
  (∀ pc' s, notifying_pc pc = false → notifying_pc pc' = false → same_loops self s →
     loop_notifying self = true → loop_notifying (set pc' s) = true) →
  good self r.
Proof.
  destruct (ER.advance pc self) as [[pc' s1]|] eqn:E; [|done]. cbn. intros [= <-] Hset Hl.
  destruct (Hset pc' s1) as [Hc Ha]. eapply good_advance; [exact E|done|done|]. intros. by apply Hl.
Qed.

Lemma set_session_const i f s self :
  ER.attached self !! i = Some s → ER.set_session i f self = ER.set_session i (λ _, f s) self.
Proof.
  intros Hi. destruct self as [c ss at_ r ch hd dc rc po op ou]. cbn in Hi.
  assert (alter f i at_ = alter (λ _, f s) i at_) as E
    by by rewrite (alter_as_insert f _ _ _ Hi), (alter_as_insert (λ _, f s) _ _ _ Hi).
  change (ER.Build_t c ss (alter f i at_) r ch hd dc rc po op ou
    = ER.Build_t c ss (alter (λ _, f s) i at_) r ch hd dc rc po op ou). by rewrite E.
Qed.

(** The poll loop and [forward_out] leave their call of the core when it is done. *)
Lemma step_poller_good self self' :
  ER.do_move ER.StepPoller self = Some (Ret self') → good self self'.
Proof.
  cbn [ER.do_move]. destruct (ER.poller self) as [| |d|pc] eqn:E; try done.
  assert (∀ r, ('(pc', s) ← ER.advance pc self;
      Some (Ret (s <| ER.poller := Polling pc' |>))) = Some (Ret r) → good self r) as Hstep.
  { intros r Hr. eapply (step_good _ (λ pc s, s <| ER.poller := Polling pc |>)); [exact Hr|done|].
    unfold loop_notifying. intros pc' s Hn _ (Hrc & _ & Ho). cbn. rewrite E, Hrc, Ho. cbn.
    rewrite Hn. by destruct (notifying_pc (ER.receiver self)), (notifying_pc pc'),
      (notifying_out (ER.outgoing self)). }
  destruct pc as [|d a|j a|p a]; [intros [= <-]|intros Hr; apply Hstep; exact Hr..].
  apply same_core_good; [done|done|]. unfold loop_notifying. by rewrite E.
Qed.

Lemma step_outgoing_good self self' :
  ER.do_move ER.StepOutgoing self = Some (Ret self') → good self self'.
Proof.
  cbn [ER.do_move]. destruct (ER.outgoing self) as [|pc batch] eqn:E; [done|].
  assert (∀ r, ('(pc', s) ← ER.advance pc self;
      Some (Ret (s <| ER.outgoing := Reporting pc' batch |>))) = Some (Ret r) →
      good self r) as Hstep.
  { intros r Hr. eapply (step_good _ (λ pc s, s <| ER.outgoing := Reporting pc batch |>));
      [exact Hr|done|].
    unfold loop_notifying. intros pc' s Hn _ (Hrc & Hp & _). cbn. rewrite E, Hrc, Hp. cbn.
    rewrite Hn. by destruct (notifying_pc (ER.receiver self)), (notifying_pc pc'),
      (notifying_poller (ER.poller self)). }
  destruct pc as [|d a|j a|p a]; [intros [= <-]|intros Hr; apply Hstep; exact Hr..].
  apply same_core_good; [done|done|]. unfold loop_notifying. by rewrite E.
Qed.

(** The session a move belongs to, if it is not one of a task of the endpoint. *)
Definition session_of (m : ER.Move) : option nat :=
  match m with
  | ER.ReadOutput i | ER.Attempt i _ | ER.EmitClose i _ _ | ER.WakeWriter i | ER.StepWriter i
  | ER.Produce i _ | ER.SendOutput i | ER.TakeInput i | ER.EndProxy i => Some i
  | _ => None
  end.

Lemma task_move_good m self self' :
  session_of m = None → ER.do_move m self = Some (Ret self') → good self self'.
Proof.
  destruct m as [batch now| |now|now| |by_timer|now| |packet now|n|accepted now| | | | | | | | | |];
    try done; intros _.
  - cbn. destruct (ER.receiver self); try done. destruct (_ && _); [|done]. intros [= Hr].
    apply receive_batch_ret in Hr as (c & a & ->). by apply good_notifying.
  - intros Hr. eapply (step_good _ (λ pc s, s <| ER.receiver := pc |>)).
    { exact Hr. } { done. }
    unfold loop_notifying. intros pc s Hn _ (_ & Hp & Ho). cbn. rewrite Hn, Hp, Ho.
    by destruct (notifying_pc pc), (notifying_poller _), (notifying_out _).
  - cbn. destruct (ER.poller self) eqn:E; try done. intros [= <-].
    apply same_core_good; [done|done|].
    unfold loop_notifying, ER.check_deadline. cbn. rewrite E. cbn. by destruct (_ <=? _).
  - cbn. destruct (ER.poller self); try done. intros [= Hr].
    apply poll_ret in Hr as (c & a & ->).
    apply good_notifying; [done|]. unfold loop_notifying. cbn. by rewrite orb_true_r.
  - apply step_poller_good.
  - cbn. destruct (ER.poller self) eqn:E; try done.
    destruct by_timer; [|destruct (ER.deadline_changed self)]; try done; intros [= <-];
      (apply same_core_good; [done|done|]; unfold loop_notifying; by rewrite E).
  - cbn [ER.do_move]. destruct (ER.opener self); try done. intros [= Hr]. by eapply open_good.
  - intros Hr. eapply (step_good _ (λ pc s, s <| ER.opener := pc |>)).
    { exact Hr. } { done. }
    unfold loop_notifying. intros pc s _ _ (Hrc & Hp & Ho). cbn. by rewrite Hrc, Hp, Ho.
  - cbn. destruct (ER.outgoing self) as [[|]|]; try done. intros [= Hr]. by eapply report_good.
  - cbn. destruct (ER.outgoing self) as [[|]|] eqn:E; try done. destruct (1 <=? _); [|done].
    intros [= <-]. apply same_core_good; [done|done|]. unfold loop_notifying. by rewrite E.
  - cbn. destruct (ER.outgoing self) as [[|packet batch]|] eqn:E; try done. intros [= Hr].
    unfold ER.forward in Hr. destruct (ChannelSenders.send _ _ _); [|by eapply report_good].
    apply Ret_inj in Hr as <-. apply same_core_good; [done|done|].
    unfold loop_notifying. by rewrite E.
  - apply step_outgoing_good.
Qed.

Lemma good_trans self mid self' : good self mid → good mid self' → good self self'.
Proof.
  intros [Hp1 Hh1] [Hp2 Hh2]. split; [by etrans|]. intros Hnd Hh. apply Hh2; [done|].
  apply Hh1; [|done]. destruct Hp2 as [k Hk]. rewrite Hk in Hnd. by apply NoDup_app in Hnd as [? _].
Qed.

(** The close is taken from the output before the core is called. *)
Lemma take_close_good i s output reason now self self' :
  ER.attached self !! i = Some s →
  ER.emit_close i s reason now
    (ER.set_session i (λ s, s <| Session.output := output |>) self) = Ret self' →
  good self self'.
Proof.
  intros Hi Hr. erewrite set_session_const in Hr by done. eapply good_trans.
  - apply good_session with s; [done|]. instantiate (1 := s <| Session.output := output |>).
    split; [done|by left].
  - eapply emit_close_good; [|exact Hr]. cbn. by rewrite list_lookup_alter_eq, Hi.
Qed.

Lemma session_move_good m i self self' :
  session_of m = Some i → ER.do_move m self = Some (Ret self') → good self self'.
Proof.
  destruct m as [| | | | | | | | | | | |j|j now|j reason now|j|j|j message|j|j|j];
    try done; intros [= ->]; cbn [ER.do_move].
  - destruct (ER.attached self !! i) as [s|] eqn:Hi; [|done]. cbn [mbind option_bind].
    destruct (ER.read_output i s self) as [s1|] eqn:E; [|done]. cbn. intros [= <-].
    by eapply read_output_good.
  - destruct (ER.attached self !! i) as [s|] eqn:Hi; [|done]. cbn [mbind option_bind].
    destruct (Session.writer s) eqn:Hw; try done. intros [= Hr]. by eapply attempt_good.
  - destruct (ER.attached self !! i) as [s|] eqn:Hi; [|done]. cbn [mbind option_bind].
    destruct (Session.writer s) eqn:Hw, (Session.output s) as [|[|reason'] output]; try done.
    case_decide; [|done]. intros [= Hr]. by eapply take_close_good.
  - destruct (ER.attached self !! i) as [s|] eqn:Hi; [|done]. cbn [mbind option_bind].
    destruct (Session.writer s) as [| | |[] bytes| |] eqn:Hw; try done. intros [= <-].
    by apply (good_set_writer i s); [|rewrite Hw|..].
  - destruct (ER.attached self !! i) as [s|] eqn:Hi; [|done]. cbn [mbind option_bind].
    destruct (Session.writer s) as [| | | |closed pc|] eqn:Hw; try done.
    destruct (ER.advance pc self) as [[pc' s1]|] eqn:E; [|done]. cbn. intros [= <-].
    by eapply good_step_writer.
  - apply proxy_move_good. unfold ER.produce. intros s s'. destruct (Session.proxy s); try done.
    intros [= <-]. split; [done|by left].
  - apply proxy_move_good. unfold ER.send_output. intros s s'. destruct (Session.proxy s); try done.
    destruct (negb _); [|destruct (_ <? _)]; try done; intros [= <-]; (split; [done|by left]).
  - apply proxy_move_good. unfold ER.take_input. intros s s'.
    destruct (Session.proxy s), (Session.input s); try done. intros [= <-]. split; [done|by left].
  - apply proxy_move_good. unfold ER.end_proxy. intros s s'. destruct (Session.proxy s); try done.
    intros [= <-]. split; [done|by left].
Qed.

Lemma move_good m self self' : ER.do_move m self = Some (Ret self') → good self self'.
Proof.
  destruct (session_of m) as [i|] eqn:E; [by eapply session_move_good|by apply task_move_good].
Qed.

Lemma reachable_heard core channels self :
  reachable core channels self → NoDup (conv_ids self) → heard self.
Proof.
  induction 1 as [|m self self' Hr IH Hm]; intros Hnd.
  - intros s bytes Hs. by apply elem_of_nil in Hs.
  - destruct (move_good m self self' Hm) as [[l Hl] Hh]. apply Hh; [done|]. apply IH.
    rewrite Hl in Hnd. by apply NoDup_app in Hnd as [? _].
Qed.

(** *** The notification that is due can be given, and wakes the writer *)

(** Session [i] sleeps in [self] and was notified in [self']. *)
Definition woken (i : nat) (bytes : list Z) (self' : ER.t) : Prop :=
  ∃ s', ER.attached self' !! i = Some s' ∧ Session.writer s' = Blocked true bytes.

Lemma advance_wakes pc self i s bytes :
  notifying_pc pc = true → ER.attached self !! i = Some s → asleep (Session.writer s) bytes →
  ∃ pc' self', ER.advance pc self = Some (pc', self') ∧ woken i bytes self'
    ∧ length (ER.attached self') = length (ER.attached self).
Proof.
  intros Hn Hi Hw. destruct pc as [|d a| |]; try done. eexists _, _. split; [done|].
  assert (woken i bytes (ER.notify_waiters self)) as Hwake.
  { eexists. split; [cbn; by rewrite list_lookup_fmap, Hi|]. cbn. by rewrite Hw. }
  assert (length (ER.attached (ER.notify_waiters self)) = length (ER.attached self))
    by (cbn; by rewrite length_fmap).
  by destruct d.
Qed.

Lemma notification_possible self i s bytes :
  notifying self → ER.attached self !! i = Some s → asleep (Session.writer s) bytes →
  ∃ m self', ER.do_move m self = Some (Ret self') ∧ woken i bytes self'.
Proof.
  intros Hn Hi Hw.
  assert (∀ pc, notifying_pc pc = true →
    ∃ pc' self', ER.advance pc self = Some (pc', self') ∧ woken i bytes self'
      ∧ length (ER.attached self') = length (ER.attached self)) as Hadv
    by (intros pc Hpc; by eapply advance_wakes).
  destruct Hn as [Hl|(t & Ht & Hn)].
  - unfold loop_notifying in Hl. apply orb_true_iff in Hl as [[Hl|Hl]%orb_true_iff|Hl].
    + destruct (Hadv _ Hl) as (pc' & self1 & E & Hwk & _). exists ER.StepReceiver. eexists.
      cbn [ER.do_move]. rewrite E. by split.
    + destruct (ER.poller self) as [| | |pc] eqn:Ep; try done.
      destruct (Hadv _ Hl) as (pc' & self1 & E & Hwk & _). exists ER.StepPoller. eexists.
      cbn [ER.do_move]. rewrite Ep. destruct pc; try done. rewrite E. by split.
    + destruct (ER.outgoing self) as [|pc b] eqn:Ep; try done.
      destruct (Hadv _ Hl) as (pc' & self1 & E & Hwk & _). exists ER.StepOutgoing. eexists.
      cbn [ER.do_move]. rewrite Ep. destruct pc; try done. rewrite E. by split.
  - apply list_elem_of_lookup_1 in Ht as [j Hj].
    destruct (Session.writer t) as [| | | |closed pc|] eqn:Et; try done.
    destruct (Hadv _ Hn) as (pc' & self1 & E & (s1 & Hs1 & Hw1) & Hlen).
    destruct (lookup_lt_is_Some_2 (ER.attached self1) j) as [t1 Ht1];
      [rewrite Hlen; by eapply lookup_lt_Some|].
    destruct (settle_writer_spec j closed pc' t1 self1 Ht1) as (t' & Ha & _).
    exists (ER.StepWriter j), (ER.settle_writer j closed pc' self1). cbn [ER.do_move]. rewrite Hj.
    cbn [mbind option_bind]. rewrite Et, E. split; [done|]. exists s1. rewrite Ha.
    rewrite list_lookup_insert_ne; [done|]. intros ->. rewrite Hi in Hj. injection Hj as ->.
    unfold asleep in Hw. congruence.
Qed.

(** C40: No wake-up is lost. However the tasks of the runtime interleave, a writer
    that sleeps because the core refused its bytes is either still refused (the
    core would give the same answer now, and change nothing), or some task has
    changed the core and is about to notify: that step is possible right now,
    and after it the writer can wake up and ask again.  (No two sessions of the
    run share a conversation id.) *)
Theorem no_lost_wakeup core channels self i s bytes :
  reachable core channels self → NoDup (conv_ids self) →
  ER.attached self !! i = Some s → Session.writer s = Blocked false bytes →
  (∀ now, EC.handle_event (ER.core self) now (SessionWrite (Session.conv_id s) bytes) []
          = Ret (SessionWriteBlocked, ER.core self, []))
  ∨ ∃ m self', ER.do_move m self = Some (Ret self') ∧ woken i bytes self'
      ∧ is_Some (ER.do_move (ER.WakeWriter i) self').
Proof.
  intros Hr Hnd Hi Hw.
  destruct (reachable_heard _ _ _ Hr Hnd s bytes) as [Hn|Href];
    [by eapply list_elem_of_lookup_2|done|right|left].
  - destruct (notification_possible self i s bytes Hn Hi Hw) as (m & self' & Hm & Hwk).
    exists m, self'. split; [done|]. split; [done|]. destruct Hwk as (s' & Hs' & Hw').
    cbn [ER.do_move]. rewrite Hs'. cbn [mbind option_bind]. by rewrite Hw'.
  - intros now. by apply write_refused.
Qed.

(** ** A session that is busy both ways can lock up the endpoint *)

(** A session whose input and output are full; its proxy waits for room in the
    output, and so takes no input; its writer, which would make that room, has
    bytes for the core. *)
Record jammed (conv : ConvId) (bytes : list Z) (s : Session.t) : Prop := {
  jammed_conv : Session.conv_id s = conv;
  jammed_input : SESSION_QUEUE <= len (Session.input s);
  jammed_output : SESSION_QUEUE <= len (Session.output s);
  jammed_proxy : ∃ message, Session.proxy s = Sending message;
  jammed_writer : ∃ notified, Session.writer s = Armed notified bytes
                            ∨ Session.writer s = Blocked notified bytes;
}.

(** The task that receives packets waits for room in the input of session [i]. *)
Definition stuck (self : ER.t) (i : nat) (conv : ConvId) (bytes : list Z) : Prop :=
  (∃ payload rest, ER.receiver self = Executing (Some (i, Write payload)) rest)
  ∧ ∃ s, ER.attached self !! i = Some s ∧ jammed conv bytes s.

Section jam.
Context (i : nat) (conv : ConvId) (bytes : list Z).

Definition has_jam (self : ER.t) : Prop :=
  ∃ s, ER.attached self !! i = Some s ∧ jammed conv bytes s.

Lemma jam_same self self' : ER.attached self' = ER.attached self → has_jam self → has_jam self'.
Proof. intros E (s & Hs & Hj). exists s. by rewrite E. Qed.

Lemma jam_other j f self : j ≠ i → has_jam self → has_jam (ER.set_session j f self).
Proof. intros Hj (s & Hs & Hjam). exists s. split; [|done]. cbn. by rewrite list_lookup_alter_ne. Qed.

Lemma jam_at f self :
  (∀ s, jammed conv bytes s → jammed conv bytes (f s)) → has_jam self →
  has_jam (ER.set_session i f self).
Proof.
  intros Hf (s & Hs & Hj). exists (f s). split; [|by apply Hf]. cbn.
  by rewrite list_lookup_alter_eq, Hs.
Qed.

Lemma jam_snoc s self : has_jam self → has_jam (self <| ER.attached ::= λ l, l ++ [s] |>).
Proof. intros (t & Ht & Hj). exists t. split; [|done]. cbn. by apply lookup_app_l_Some. Qed.

Lemma jam_attach j self : has_jam self → has_jam (ER.attach j self).
Proof.
  intros Hj. unfold ER.attach. destruct (ER.attached self !! j) as [t|]; [|done].
  destruct (decide (j = i)) as [->|Hne].
  - apply jam_at; [|by eapply jam_same]. intros s [? ? ? ? (n & Hw)]. split; try done. exists n. cbn.
    by destruct Hw as [-> | ->]; [left|right].
  - apply jam_other; [done|by eapply jam_same].
Qed.

Lemma jam_notify self : has_jam self → has_jam (ER.notify_waiters self).
Proof.
  intros (s & Hs & [? ? ? ? (n & Hw)]). eexists. split; [cbn; by rewrite list_lookup_fmap, Hs|].
  split; try done. exists true. cbn. by destruct Hw as [-> | ->]; [left|right].
Qed.

(** Nobody gets a message into the full queue. *)
Lemma jam_input m self : has_jam self → ER.send_input i m self = None.
Proof.
  intros (s & Hs & [_ Hin _ (msg & Hp) _]). unfold ER.send_input. rewrite Hs, Hp.
  by rewrite (proj2 (Z.ltb_ge _ _)).
Qed.

Lemma jam_advance pc self pc' self' :
  ER.advance pc self = Some (pc', self') → has_jam self →
  has_jam self' ∧ ER.receiver self' = ER.receiver self.
Proof.
  intros Ha Hj.
  destruct pc as [|d a|j a|[[j m]|] a]; cbn [ER.advance] in Ha; [done|..].
  - injection Ha as <- <-. destruct d; (split; [|done]); by apply jam_notify.
  - injection Ha as <- <-. destruct (attach_keeps j self) as [_ (Hr & _)]. split; [|done].
    eapply jam_same; [|by apply jam_attach]. done.
  - destruct (decide (j = i)) as [->|Hne].
    { by rewrite jam_input in Ha. }
    destruct (ER.send_input j m self) as [self1|] eqn:E; [|done]. cbn in Ha. injection Ha as <- <-.
    apply send_input_keeps in E as Hl. destruct Hl as [_ (Hr & _)]. split; [|done].
    revert E. unfold ER.send_input. destruct (_ !! j) as [t|]; [|done].
    destruct (Session.proxy t); [destruct (_ <? _)..|]; try done; intros [= <-];
      [by apply jam_other..|done].
  - destruct a as [|a rest]; [by injection Ha as <- <-|].
    apply start_action_keeps in Ha as Hl. destruct Hl as (_ & (Hr & _) & _). split; [|done].
    destruct a as [ch b|c|c b|c r]; cbn [ER.start_action] in Ha.
    + unfold ER.send_transport in Ha. destruct (_ <? _); [|done]. cbn in Ha. injection Ha as <- <-.
      by eapply jam_same.
    + injection Ha as <- <-. by apply jam_attach, jam_snoc.
    + by injection Ha as <- <-.
    + injection Ha as <- <-. by eapply jam_same.
Qed.

Lemma jam_settle j closed pc self :
  j ≠ i → has_jam self → has_jam (ER.settle_writer j closed pc self)
    ∧ ER.receiver (ER.settle_writer j closed pc self) = ER.receiver self.
Proof.
  intros Hj Hjam. unfold ER.settle_writer, ER.finish_writer.
  destruct pc; [destruct closed; [destruct (_ !! j)|]|..]; (split; [|done]);
    try done; apply jam_other; done.
Qed.

Ltac by_same := (split; [by eapply jam_same|done]).

(** The tasks of the endpoint cannot change a jammed session. *)
Lemma jam_task_move m self self' :
  session_of m = None → ER.do_move m self = Some (Ret self') →
  (∃ payload rest, ER.receiver self = Executing (Some (i, Write payload)) rest) →
  has_jam self → has_jam self' ∧ ER.receiver self' = ER.receiver self.
Proof.
  intros Hm0 Hm (payload & rest & Hrec) Hj. revert Hm0.
  destruct m as [batch now| |now|now| |by_timer|now| |packet now|k|accepted now| | | | | | | | | |];
    try done; intros _; cbn [ER.do_move] in Hm.
  - by rewrite Hrec in Hm.
  - rewrite Hrec in Hm. cbn [ER.advance] in Hm. by rewrite jam_input in Hm.
  - destruct (ER.poller self); try done. injection Hm as <-. by_same.
  - destruct (ER.poller self); try done. injection Hm as (c & a & ->)%poll_ret. by_same.
  - destruct (ER.poller self) as [| |d|pc]; try done.
    destruct pc as [|d a|k a|p a]; [injection Hm as <-; by_same|..];
      (destruct (ER.advance _ self) as [[pc' self1]|] eqn:E; [|done]); injection Hm as <-;
      apply jam_advance in E as [Hj' Hr']; [by_same|done..].
  - destruct (ER.poller self); try done. destruct by_timer; [|destruct (ER.deadline_changed self)];
      try done; injection Hm as <-; by_same.
  - destruct (ER.opener self); try done. injection Hm as (cv & c & a & _ & ->)%open_ret.
    split; [|done]. eapply jam_same; [|by apply jam_snoc]. done.
  - destruct (ER.advance _ self) as [[pc' self1]|] eqn:E; [|done]. injection Hm as <-.
    apply jam_advance in E as [Hj' Hr']; [by_same|done].
  - destruct (ER.outgoing self) as [[|]|]; try done.
    injection Hm as (c & a & ->)%report_ret. by_same.
  - destruct (ER.outgoing self) as [[|]|]; try done. destruct (1 <=? _); [|done].
    injection Hm as <-. by_same.
  - destruct (ER.outgoing self) as [[|packet batch]|]; try done. injection Hm as Hm.
    unfold ER.forward in Hm. destruct (ChannelSenders.send _ _ _).
    { apply Ret_inj in Hm as <-. by_same. }
    apply report_ret in Hm as (c & a & ->). by_same.
  - destruct (ER.outgoing self) as [|pc batch]; [done|].
    destruct pc as [|d a|k a|p a]; [injection Hm as <-; by_same|..];
      (destruct (ER.advance _ self) as [[pc' self1]|] eqn:E; [|done]); injection Hm as <-;
      apply jam_advance in E as [Hj' Hr']; [by_same|done..].
Qed.

(** Nor can the moves of another session. *)
Lemma jam_other_session m j self self' :
  session_of m = Some j → j ≠ i → ER.do_move m self = Some (Ret self') → has_jam self →
  has_jam self' ∧ ER.receiver self' = ER.receiver self.
Proof.
  intros Hm0 Hji Hm Hj. revert Hm0.
  destruct m as [| | | | | | | | | | | |k|k now|k reason now|k|k|k message|k|k|k];
    try done; intros [= ->]; cbn [ER.do_move] in Hm; unfold ER.proxy_move in Hm;
    (destruct (ER.attached self !! j) as [t|] eqn:Ht; [|done]); cbn [mbind option_bind] in Hm.
  - unfold ER.read_output, ER.finish_writer in Hm. rewrite Ht in Hm.
    destruct (Session.writer t); try done.
    destruct (Session.output t) as [|[b|r] l]; [destruct (Session.proxy t)| |]; try done;
      injection Hm as <-; (split; [|done]); by apply jam_other.
  - destruct (Session.writer t) as [| |n' b| | |]; try done.
    injection Hm as ([[r a] s1] & (c & _ & ->)%handle_event_ret & Hm)%bind_ret.
    destruct r; try done; apply Ret_inj in Hm as <-; (split; [|done]); by apply jam_other.
  - destruct (Session.writer t), (Session.output t) as [|[|reason'] output]; try done.
    case_decide; [|done]. injection Hm as (c & a & ->)%emit_close_ret.
    split; [|done]. apply jam_other; [done|]. eapply jam_same; [|by apply jam_other]. done.
  - destruct (Session.writer t) as [| | |[] b| |]; try done. injection Hm as <-.
    split; [|done]. by apply jam_other.
  - destruct (Session.writer t) as [| | | |closed pc|]; try done.
    destruct (ER.advance pc self) as [[pc' self1]|] eqn:E; [|done]. injection Hm as <-.
    apply jam_advance in E as [Hj' Hr']; [|done].
    destruct (jam_settle j closed pc' self1) as [? Hr'']; [done..|by rewrite Hr''].
  - destruct (ER.produce _ _); [|done]. injection Hm as <-. split; [|done]. by apply jam_other.
  - destruct (ER.send_output _); [|done]. injection Hm as <-. split; [|done]. by apply jam_other.
  - destruct (ER.take_input _); [|done]. injection Hm as <-. split; [|done]. by apply jam_other.
  - destruct (ER.end_proxy _); [|done]. injection Hm as <-. split; [|done]. by apply jam_other.
Qed.

(** And of its own, only the writer can move, in a circle. *)
Lemma jam_own_session m self self' :
  session_of m = Some i → ER.do_move m self = Some (Ret self') →
  has_jam self → refuses (ER.core self) conv bytes = true →
  has_jam self' ∧ ER.receiver self' = ER.receiver self.
Proof.
  intros Hm0 Hm Hj Href. pose proof Hj as (s & Hs & [Hconv _ Hout (msg & Hproxy) (n & Hw)]).
  revert Hm0. destruct m as [| | | | | | | | | | | |k|k now|k reason now|k|k|k message|k|k|k];
    try done; intros [= ->]; cbn [ER.do_move] in Hm; unfold ER.proxy_move in Hm;
    rewrite Hs in Hm; cbn [mbind option_bind] in Hm.
  - unfold ER.read_output in Hm. by destruct Hw as [E|E]; rewrite E in Hm.
  - destruct (Session.writer s) as [| |n' b| | |]; try done. destruct Hw as [[= -> ->]|]; [|done].
    injection Hm as ([[r a] s1] & (c & Hev & ->)%handle_event_ret & Hm)%bind_ret.
    rewrite Hconv, write_refused in Hev by done. apply Ret_inj in Hev as [= <- <- <-].
    apply Ret_inj in Hm as <-. split; [|done]. apply jam_at; [|by eapply jam_same].
    intros s0 []. split; try done. exists n. by right.
  - by destruct Hw as [E|E]; rewrite E in Hm.
  - destruct (Session.writer s) as [| | |[] b| |]; try done. destruct Hw as [|[= _ ->]]; [done|].
    injection Hm as <-. split; [|done]. apply jam_at; [|done].
    intros s0 []. split; try done. exists false. by left.
  - by destruct Hw as [E|E]; rewrite E in Hm.
  - unfold ER.produce in Hm. by rewrite Hproxy in Hm.
  - unfold ER.send_output, ER.writer_alive in Hm. rewrite Hproxy in Hm.
    rewrite (proj2 (Z.ltb_ge _ _)) in Hm by done. by destruct Hw as [E|E]; rewrite E in Hm.
  - unfold ER.take_input in Hm. by rewrite Hproxy in Hm.
  - unfold ER.end_proxy in Hm. by rewrite Hproxy in Hm.
Qed.

Lemma jam_move m self self' :
  ER.do_move m self = Some (Ret self') →
  (∃ payload rest, ER.receiver self = Executing (Some (i, Write payload)) rest) →
  has_jam self → refuses (ER.core self) conv bytes = true →
  has_jam self' ∧ ER.receiver self' = ER.receiver self.
Proof.
  intros Hm Hrec Hj Href. destruct (session_of m) as [j|] eqn:E; [|by eapply jam_task_move].
  destruct (decide (j = i)) as [->|]; [by eapply jam_own_session|by eapply jam_other_session].
Qed.

Lemma stuck_move m self self' :
  ER.do_move m self = Some (Ret self') → stuck self i conv bytes →
  refuses (ER.core self) conv bytes = true →
  stuck self' i conv bytes ∧ ER.receiver self' = ER.receiver self.
Proof.
  intros Hm [Hrec Hj] Href. destruct (jam_move m self self' Hm Hrec Hj Href) as [Hj' Hr'].
  split; [|done]. split; [by rewrite Hr'|done].
Qed.

End jam.

End runtime.

Section lasting.
Context `{Aegis128L, Blake3, HashIter}.

Lemma run_app moves1 moves2 (self mid : ER.t) :
  ER.run moves1 self = Some (Ret mid) → ER.run (moves1 ++ moves2) self = ER.run moves2 mid.
Proof.
  revert self. induction moves1 as [|m moves IH]; intros self; cbn [ER.run app].
  - by intros [= ->].
  - destruct (ER.do_move m self) as [[self1| |]|]; try done. apply IH.
Qed.

Lemma run_reachable core channels moves : ∀ self self' : ER.t,
  reachable core channels self → ER.run moves self = Some (Ret self') →
  reachable core channels self'.
Proof.
  induction moves as [|m moves IH]; intros self self' Hr; cbn [ER.run]; [by intros [= <-]|].
  destruct (ER.do_move m self) as [[self1| |]|] eqn:E; try done. cbn [mbind option_bind].
  apply IH. by eapply reachable_move.
Qed.

(** A stuck endpoint stays stuck: in every run in which the core goes on
    refusing the writer's bytes, whatever the tasks and the proxies do, the
    session does not move and no packet is ever received; so no acknowledgement
    arrives that could make the core accept them. *)
Theorem jam_lasts i conv bytes moves : ∀ self self' : ER.t,
  stuck self i conv bytes → ER.run moves self = Some (Ret self') →
  (∀ moves1 moves2 mid, moves = moves1 ++ moves2 → ER.run moves1 self = Some (Ret mid) →
     refuses (ER.core mid) conv bytes = true) →
  stuck self' i conv bytes ∧ ER.receiver self' = ER.receiver self
  ∧ ∀ batch now, ER.Receive batch now ∉ moves.
Proof.
  induction moves as [|m moves IH]; intros self self' Hs Hr Href; cbn [ER.run] in Hr.
  { injection Hr as <-. split_and!; [done|done|]. intros ? ? Hin. by apply elem_of_nil in Hin. }
  destruct (ER.do_move m self) as [[self1| |]|] eqn:E; try done. cbn [mbind option_bind] in Hr.
  destruct (stuck_move i conv bytes m self self1 E Hs) as [Hs1 Hr1];
    [by apply (Href [] (m :: moves))|].
  destruct (IH self1 self' Hs1 Hr) as (Hs' & Hr' & Hno).
  { intros moves1 moves2 mid -> Hmid. apply (Href (m :: moves1) moves2); [done|].
    cbn [ER.run]. by rewrite E. }
  split_and!; [done|congruence|]. intros batch now [<-|Hin]%elem_of_cons; [|by eapply Hno].
  destruct Hs as [(p & rest & Hrec) _]. cbn [ER.do_move] in E. by rewrite Hrec in E.
Qed.

Definition stuckb (self : ER.t) (i : nat) (conv : ConvId) (bytes : list Z) : bool :=
  match ER.receiver self, ER.attached self !! i with
  | Executing (Some (j, Write _)) _, Some s =>
      bool_decide (j = i) && (Session.conv_id s =? conv)
      && (SESSION_QUEUE <=? len (Session.input s)) && (SESSION_QUEUE <=? len (Session.output s))
      && match Session.proxy s with Sending _ => true | _ => false end
      && match Session.writer s with
         | Armed _ b | Blocked _ b => bool_decide (b = bytes)
         | _ => false
         end
  | _, _ => false
  end.

Lemma stuckb_spec self i conv bytes : stuckb self i conv bytes = true → stuck self i conv bytes.
Proof.
  unfold stuckb, stuck.
  destruct (ER.receiver self) as [| | |[[j [payload|]]|] rest]; try done.
  destruct (ER.attached self !! i) as [s|]; [|done].
  intros Hb. apply andb_true_iff in Hb as [Hb Hw]. apply andb_true_iff in Hb as [Hb Hp].
  repeat (apply andb_true_iff in Hb as [Hb ?]).
  apply bool_decide_eq_true_1 in Hb as ->. split; [by exists payload, rest|].
  exists s. split; [done|].
  split; [by apply Z.eqb_eq|by apply Z.leb_le|by apply Z.leb_le| |].
  - destruct (Session.proxy s) as [|m|]; [done|by exists m|done].
  - destruct (Session.writer s) as [| |n b|n b| |]; try done;
      apply bool_decide_eq_true_1 in Hw as ->; exists n; [by left|by right].
Qed.

End lasting.

(** ** Two runs of one endpoint *)

#[local] Existing Instance toy_aegis.
#[local] Existing Instance toy_aegis_spec.
#[local] Existing Instance toy_blake3.
#[local] Existing Instance toy_blake3_spec.
#[local] Existing Instance Sequence.toy_iter.

(** An endpoint with a send window of one segment, and the packets of a remote
    endpoint that opens a session and then acts on it. *)
Definition narrow_core : comp EC.t :=
  EC.new ((demo_endpoint 3) <| EndpointConfig.kcp := KcpConfig.Build_t 1 0 0 32 |>).

Definition packets_of (actions : list CoreAction) : list (ChannelId * list Z) :=
  omap (λ a, match a with SendTransportPacket ch b => Some (ch, b) | _ => None end) actions.

Definition remote_packets (events : ConvId → list CoreEvent)
    : comp (ConvId * list (ChannelId * list Z)) :=
  b ← demo_core 4;
  let conv := EC.next_conv_id b in
  '(b, actions) ← call b 10 (Some SessionOpen) [];
  '(_, actions) ← for_each (events conv) (λ ev '(b, actions), call b 12 (Some ev) actions)
    (b, actions);
  Ret (conv, packets_of actions).

(** The session is attached, the proxy sends two messages, and the core, which
    takes the first, refuses the second. *)
Definition until_blocked (opening : list (ChannelId * list Z)) : list ER.Move :=
  let proxy_sends bytes := [ER.Produce 0 (Write bytes); ER.SendOutput 0; ER.ReadOutput 0;
                            ER.Attempt 0 60] in
  ER.Receive opening 50 :: replicate 5 ER.StepReceiver
  ++ proxy_sends [9] ++ replicate 2 (ER.StepWriter 0) ++ proxy_sends [8].

(** Then the proxy fills its output and waits, and 65 messages arrive: one more
    than its input holds. *)
Definition until_stuck (packets : list (ChannelId * list Z)) : list ER.Move :=
  until_blocked (take 1 packets)
  ++ concat (replicate 64 [ER.Produce 0 (Write [7]); ER.SendOutput 0])
  ++ [ER.Produce 0 (Write [6])]
  ++ ER.Receive (take 64 (drop 1 packets)) 70 :: replicate 194 ER.StepReceiver
  ++ ER.Receive (drop 65 packets) 80 :: replicate 3 ER.StepReceiver.

Definition run_from (start : comp EC.t) (remote : comp (ConvId * list (ChannelId * list Z)))
    (moves : list (ChannelId * list Z) → list ER.Move) : comp (ConvId * option (comp ER.t)) :=
  a ← start;
  '(conv, packets) ← remote;
  Ret (conv, ER.run (moves packets) (ER.new a {[7 := tt]})).

Definition sixty_five_writes (conv : ConvId) : list CoreEvent :=
  (λ k, SessionWrite conv [k]) <$> seqZ 0 65.

(** What a run computes, of a state that it reaches. *)
Lemma run_from_reaches start remote moves (P : ConvId → ER.t → bool) :
  match run_from start remote moves with
  | Ret (conv, Some (Ret self)) => P conv self
  | _ => false
  end = true →
  ∃ core conv self, start = Ret core ∧ reachable core {[7 := tt]} self ∧ P conv self = true.
Proof.
  unfold run_from. destruct start as [a| |]; cbn [mbind comp_bind]; [|discriminate..].
  destruct remote as [[conv packets]| |]; cbn [mbind comp_bind]; [|discriminate..].
  destruct (ER.run (moves packets) _) as [[self| |]|] eqn:E; [|discriminate..].
  intros HP. exists a, conv, self. split; [reflexivity|]. split; [|exact HP].
  eapply run_reachable; [|exact E]. constructor.
Qed.

(** A session that is busy both ways locks up its endpoint: a run reaches a
    state from which, by [jam_lasts], no packet is received any more. *)
Fact full_duplex_session_jams :
  ∃ core conv self, narrow_core = Ret core
    ∧ reachable core {[7 := tt]} self ∧ stuck self 0 conv [8]
    ∧ refuses (ER.core self) conv [8] = true.
Proof.
  destruct (run_from_reaches narrow_core (remote_packets sixty_five_writes) until_stuck
    (λ conv self, stuckb self 0 conv [8] && refuses (ER.core self) conv [8]))
    as (a & conv & self & Ha & Hr & Hb); [vm_compute; reflexivity|].
  apply andb_true_iff in Hb as [Hs Href]. exists a, conv, self.
  split_and!; [exact Ha|exact Hr|by apply stuckb_spec|exact Href].
Qed.

(** The peer closes while a writer is blocked, and is gone: at the close deadline
    the poll removes the session and wakes the writer, which offers its bytes
    for a session the core does not have. *)
Fact write_after_removal_panics :
  match run_from narrow_core (remote_packets (λ conv, [SessionClose conv RemoteClosed])) (λ packets,
      until_blocked (take 1 packets)
      ++ ER.Receive (drop 1 packets) 70 :: replicate 5 ER.StepReceiver
      ++ [ER.CheckDeadline 180070; ER.Poll 180070; ER.StepPoller; ER.WakeWriter 0;
          ER.Attempt 0 180071]) with
  | Ret (_, r) => r = Some Panic
  | _ => False
  end.
Proof. vm_compute. reflexivity. Qed.

(** A writer of this run is blocked, and the endpoint has one session. *)
Definition blockedb (self : ER.t) : bool :=
  match ER.attached self with
  | [s] => match Session.writer s with Blocked false bytes => bool_decide (bytes = [8]) | _ => false end
  | _ => false
  end.

Lemma blockedb_spec self : blockedb self = true →
  NoDup (conv_ids self)
  ∧ ∃ s, ER.attached self !! 0%nat = Some s ∧ Session.writer s = Blocked false [8].
Proof.
  unfold blockedb, conv_ids. destruct (ER.attached self) as [|s [|]]; try discriminate.
  destruct (Session.writer s) as [| | |[] b| |] eqn:Hw; try discriminate.
  intros ->%bool_decide_eq_true_1. split; [apply NoDup_singleton|]. by exists s.
Qed.

Lemma no_lost_wakeup_witness :
  ∃ core self s, reachable core {[7 := tt]} self
    ∧ ER.attached self !! 0%nat = Some s ∧ Session.writer s = Blocked false [8]
    ∧ ((∀ now, EC.handle_event (ER.core self) now (SessionWrite (Session.conv_id s) [8]) []
               = Ret (SessionWriteBlocked, ER.core self, []))
       ∨ ∃ m self', ER.do_move m self = Some (Ret self') ∧ woken 0 [8] self'
           ∧ is_Some (ER.do_move (ER.WakeWriter 0) self')).
Proof.
  destruct (run_from_reaches narrow_core (remote_packets (λ _, [])) until_blocked (λ _, blockedb))
    as (a & conv & self & Ha & Hr & Hb); [vm_compute; reflexivity|].
  destruct (blockedb_spec self Hb) as (Hnd & s & Hs & Hw). exists a, self, s.
  split; [exact Hr|]. split; [exact Hs|]. split; [exact Hw|].
  exact (no_lost_wakeup a {[7 := tt]} self 0 s [8] Hr Hnd Hs Hw).
Defined.
