(* ===== verification/Channel.v ===== *)
(** * Channels: handles, workers and merging

    raynet-shell-plugins' [channel.rs], the tasks of [channel_udp.rs] that take
    packets off a queue or put packets on one, and the tasks of [channels.rs]
    that merge the receivers.  The plugins themselves are those of [UdpChannel].

    [Outbound]: each configured sender has a queue and a worker; the workers
    share the queue of failures.  [Inbound]: each socket of a receiver has a task
    that holds a datagram while the channel's queue is full, each channel has a
    task that moves its packets, with its id, to one inbound queue.  As in
    [Runtime], a move takes one task from one [await] to the next, and [None] is a
    task that has to wait.  A panic aborts the process (the release profile). *)

From stdpp Require Import gmap.
From S2P Require Import Prelude Bytes Core UdpChannel Runtime.

(** ** Bounded queues *)

(** [mpsc::channel(n)]: the sender of a full queue waits; after the receiver is
    gone it gets the message back. *)
Module Mpsc.
Record t (A : Type) := { capacity : Z; items : list A; open : bool }.
Arguments Build_t {A}. Arguments capacity {A}. Arguments items {A}. Arguments open {A}.

#[global] Instance eta_Mpsc A : Eta (t A) := λ s, Build_t (capacity s) (items s) (open s).

Definition channel {A} (n : Z) : t A := Build_t n [] true.

Definition send {A} (self : t A) (message : A) : option (result A (t A)) :=
  if negb (open self) then Some (Err message) else
  if len (items self) <? capacity self
  then Some (Ok (self <| items ::= λ l, l ++ [message] |>)) else None.

(** [None] when there is nothing to receive yet. *)
Definition recv {A} (self : t A) : option (A * t A) :=
  match items self with
  | [] => None
  | message :: items' => Some (message, self <| items := items' |>)
  end.
End Mpsc.

(** channel_udp.rs, and the queues of channels.rs and main.rs. *)
Definition QUEUE_SIZE : Z := 256.
Definition INBOUND_QUEUE : Z := 256.
Definition FAILURE_QUEUE : Z := 256.

(** ** channel.rs *)

Module SendPacket.
Record t := { bytes : list Z }.
End SendPacket.

Abbreviation ChannelSendFailure := (ChannelId * list Z)%type.

Module ChannelSender.
Record t := { channel_id : ChannelId; tx : Mpsc.t SendPacket.t }.

#[global] Instance eta_ChannelSender : Eta t := λ s, Build_t (channel_id s) (tx s).

Definition new (channel_id : ChannelId) (tx : Mpsc.t SendPacket.t) : t := Build_t channel_id tx.

Definition send (self : t) (bytes : list Z) : option (result (list Z) t) :=
  match Mpsc.send (tx self) (SendPacket.Build_t bytes) with
  | None => None
  | Some (Ok tx') => Some (Ok (self <| tx := tx' |>))
  | Some (Err error) => Some (Err (SendPacket.bytes error))
  end.
End ChannelSender.

Module ChannelReceiver.
Record t := { channel_id : ChannelId; rx : Mpsc.t (list Z) }.

#[global] Instance eta_ChannelReceiver : Eta t := λ s, Build_t (channel_id s) (rx s).

Definition new (channel_id : ChannelId) (rx : Mpsc.t (list Z)) : t := Build_t channel_id rx.

Definition recv (self : t) : option (list Z * t) :=
  '(bytes, rx') ← Mpsc.recv (rx self); Some (bytes, self <| rx := rx' |>).
End ChannelReceiver.

(** ** Workers *)

(** What the environment decides when a packet is sent. *)
Module Chance.
Record t := { now : Z; draw : Z; draw_destination : Z; sent_ok : bool }.
End Chance.

(** What a plugin does with a packet its worker takes off the queue. *)
Class Transmitter (P A : Type) : Type :=
  transmit : P → Chance.t → list Z → comp (Sent A * P).

Definition payload {A} (sent : Sent A) : list Z :=
  match sent with SentTo _ _ bytes | SendFailed bytes => bytes end.

Section transmitters.
Context `{Blake3Keyed, Countable SocketAddr, !KeyOrder (Z * SocketAddr)}.

Definition forward_transmit (self : ForwardUdp.t SocketAddr) (c : Chance.t) (bytes : list Z)
    : comp (Sent SocketAddr * ForwardUdp.t SocketAddr) :=
  sent ← ForwardUdp.send self bytes (Chance.draw c) (Chance.draw_destination c) (Chance.sent_ok c);
  Ret (sent, self).

Definition reverse_transmit (self : ReverseSender.t SocketAddr) (c : Chance.t) (bytes : list Z)
    : comp (Sent SocketAddr * ReverseSender.t SocketAddr) :=
  ReverseSender.send self bytes (Chance.now c) (Chance.draw c) (Chance.sent_ok c).

#[global] Instance forward_transmitter : Transmitter (ForwardUdp.t SocketAddr) SocketAddr :=
  forward_transmit.
#[global] Instance reverse_transmitter : Transmitter (ReverseSender.t SocketAddr) SocketAddr :=
  reverse_transmit.

(** The senders of a configuration. *)
Inductive Plugin : Type :=
  | Forward (sender : ForwardUdp.t SocketAddr)
  | Reverse (sender : ReverseSender.t SocketAddr).

Definition plugin_transmit (self : Plugin) (c : Chance.t) (bytes : list Z)
    : comp (Sent SocketAddr * Plugin) :=
  match self with
  | Forward sender => '(sent, sender) ← transmit sender c bytes; Ret (sent, Forward sender)
  | Reverse sender => '(sent, sender) ← transmit sender c bytes; Ret (sent, Reverse sender)
  end.

#[global] Instance plugin_transmitter : Transmitter Plugin SocketAddr := plugin_transmit.

End transmitters.
Arguments Plugin SocketAddr {_ _}.

Module Worker.
Section worker.
Context `{Transmitter P A}.

(** The queue, the plugin, and the packet whose failure is being reported. *)
Record t := { sender : ChannelSender.t; plugin : P; reporting : option (list Z) }.

#[global] Instance eta_Worker : Eta t := λ s, Build_t (sender s) (plugin s) (reporting s).

Definition new (channel_id : ChannelId) (plugin : P) : t :=
  Build_t (ChannelSender.new channel_id (Mpsc.channel QUEUE_SIZE)) plugin None.

(** One turn of the loop, up to [failures.send]. *)
Definition turn (self : t) (c : Chance.t) : option (comp (Sent A * t)) :=
  match reporting self, Mpsc.recv (ChannelSender.tx (sender self)) with
  | None, Some (packet, rx) =>
      Some ('(sent, plugin') ← transmit (plugin self) c (SendPacket.bytes packet);
            Ret (sent,
              self <| sender ::= λ s, s <| ChannelSender.tx := rx |> |> <| plugin := plugin' |>
                   <| reporting := match sent with
                                   | SentTo _ _ _ => None
                                   | SendFailed bytes => Some bytes
                                   end |>))
  | _, _ => None
  end.

End worker.
Arguments t : clear implicits.
End Worker.

(** ** Outbound *)

Module Outbound.
Section outbound.
Context `{Blake3Keyed, Countable SocketAddr, !KeyOrder (Z * SocketAddr)}.

Abbreviation worker := (Worker.t (Plugin SocketAddr)).

Record t := { senders : gmap ChannelId worker; failures : Mpsc.t ChannelSendFailure }.

#[global] Instance eta_Outbound : Eta t := λ s, Build_t (senders s) (failures s).

(** The workers of the senders of a configuration. *)
Definition new (plugins : gmap ChannelId (Plugin SocketAddr)) : t :=
  Build_t (map_imap (λ id p, Some (Worker.new id p)) plugins) (Mpsc.channel FAILURE_QUEUE).

(** [ChannelSenders::send] *)
Definition send (self : t) (packet : OTP.t) : option (result OTP.t t) :=
  match senders self !! OTP.channel_id packet with
  | None => Some (Err packet)
  | Some w =>
      match ChannelSender.send (Worker.sender w) (OTP.bytes packet) with
      | None => None
      | Some (Ok s) =>
          Some (Ok (self <| senders ::= <[OTP.channel_id packet :=
                                             w <| Worker.sender := s |>]> |>))
      | Some (Err bytes) => Some (Err (OTP.Build_t (OTP.channel_id packet) bytes))
      end
  end.

(** [failures.send] of a worker. *)
Definition report (self : t) (channel_id : ChannelId) : option (list Z * t) :=
  w ← senders self !! channel_id;
  bytes ← Worker.reporting w;
  r ← Mpsc.send (failures self) (channel_id, bytes);
  let self := self <| senders ::= <[channel_id := w <| Worker.reporting := None |>]> |> in
  Some (bytes, match r with Ok q => self <| failures := q |> | Err _ => self end).

Inductive Move : Type :=
  | Send (packet : OTP.t)
  | Turn (channel_id : ChannelId) (c : Chance.t)
  | Report (channel_id : ChannelId)
  | TakeFailure
  | Datagram (channel_id : ChannelId) (socket : Z) (peer : SocketAddr) (bytes nonce : list Z)
      (sent_ok : bool) (now : Z).

Inductive Output : Type :=
  | Queued (packet : OTP.t)
  | Refused (packet : OTP.t)
  | Handled (channel_id : ChannelId) (sent : Sent SocketAddr)
  | Reported (channel_id : ChannelId) (bytes : list Z)
  | Noticed (failure : ChannelSendFailure)
  | Answered (channel_id : ChannelId) (response : option (list Z)).

Definition do_move (m : Move) (self : t) : option (comp (Output * t)) :=
  match m with
  | Send packet =>
      r ← send self packet;
      Some (Ret (match r with
                 | Ok self => (Queued packet, self)
                 | Err packet => (Refused packet, self)
                 end))
  | Turn id c =>
      w ← senders self !! id;
      r ← Worker.turn w c;
      Some ('(sent, w) ← r; Ret (Handled id sent, self <| senders ::= <[id := w]> |>))
  | Report id => '(bytes, self) ← report self id; Some (Ret (Reported id bytes, self))
  | TakeFailure =>
      '(failure, q) ← Mpsc.recv (failures self);
      Some (Ret (Noticed failure, self <| failures := q |>))
  | Datagram id socket peer bytes nonce sent_ok now =>
      w ← senders self !! id;
      match Worker.plugin w with
      | Forward _ => None
      | Reverse sender =>
          Some ('(response, sender) ←
                  ReverseSender.receive sender socket peer bytes nonce sent_ok now;
                Ret (Answered id response,
                     self <| senders ::= <[id := w <| Worker.plugin := Reverse sender |>]> |>))
      end
  end.

(** A run of moves, each possible where it is made, with what came of each. *)
Fixpoint run (moves : list Move) (self : t) : option (comp (list (Move * Output) * t)) :=
  match moves with
  | [] => Some (Ret ([], self))
  | m :: moves =>
      r ← do_move m self;
      match r with
      | Ret (output, self) =>
          r ← run moves self; Some ('(trace, self) ← r; Ret ((m, output) :: trace, self))
      | Panic => Some Panic
      | NoFuel => Some NoFuel
      end
  end.

End outbound.
Arguments t SocketAddr {_ _}.
Arguments Move : clear implicits.
Arguments Output : clear implicits.
End Outbound.

(** ** Inbound *)

Module InboundTransportPacket.
Record t := { channel_id : ChannelId; bytes : list Z }.
End InboundTransportPacket.
Module ITP := InboundTransportPacket.

(** What a socket is for: [receive_on], or the task of [ReverseUdp::receiver]
    with its own challenges. *)
Inductive Listener (A : Type) `{Countable A} : Type :=
  | Plain
  | Challenging (receiver : ReverseReceiver.t A).
Arguments Plain {A _ _}. Arguments Challenging {A _ _}.

(** The task of a socket: it waits for a datagram, waits for room in the queue,
    or has ended with an error of its socket. *)
Inductive SocketPc : Type :=
  | Listening
  | Pushing (bytes : list Z)
  | Stopped.

Module Socket.
Record t (A : Type) `{Countable A} := { listener : Listener A; pc : SocketPc }.
Arguments Build_t {A _ _}. Arguments listener {A _ _}. Arguments pc {A _ _}.
#[global] Instance eta_Socket `{Countable A} : Eta (t A) := λ s, Build_t (listener s) (pc s).
End Socket.

(** The task that merges a channel into the inbound queue. *)
Inductive MergePc : Type :=
  | Waiting
  | Moving (bytes : list Z)
  | Ended.

Module Channel.
Record t (A : Type) `{Countable A} :=
  { receiver : ChannelReceiver.t; sockets : list (Socket.t A); pc : MergePc }.
Arguments Build_t {A _ _}. Arguments receiver {A _ _}. Arguments sockets {A _ _}.
Arguments pc {A _ _}.
#[global] Instance eta_Channel `{Countable A} : Eta (t A) :=
  λ s, Build_t (receiver s) (sockets s) (pc s).

Definition new `{Countable A} (channel_id : ChannelId) (listeners : list (Listener A)) : t A :=
  Build_t (ChannelReceiver.new channel_id (Mpsc.channel QUEUE_SIZE))
    ((λ l, Socket.Build_t l Listening) <$> listeners) Waiting.
End Channel.

Module Inbound.
Section inbound.
Context `{Blake3Keyed, Countable SocketAddr}.

Record t := { channels : list (Channel.t SocketAddr); inbound : Mpsc.t ITP.t }.

#[global] Instance eta_Inbound : Eta t := λ s, Build_t (channels s) (inbound s).

Definition new (receivers : list (ChannelId * list (Listener SocketAddr))) : t :=
  Build_t ((λ '(id, listeners), Channel.new id listeners) <$> receivers)
    (Mpsc.channel INBOUND_QUEUE).

Inductive Move : Type :=
  | Arrive (channel socket : nat) (peer : SocketAddr) (bytes : list Z)
  | Tick (channel socket : nat) (nonce_of : nat → list Z)
  | SocketError (channel socket : nat)
  | Push (channel socket : nat)
  | Take (channel : nat)
  | Merge (channel : nat)
  | Finish (channel : nat)
  | Receive.

Inductive Output : Type :=
  | Heard (channel socket : nat) (bytes : list Z)
  | Answer (channel socket : nat)
  | Probed (channel socket : nat) (probes : list (SocketAddr * list Z))
  | Enqueued (channel socket : nat) (bytes : list Z)
  | Received (packet : ITP.t)
  | Silent.

(** A datagram: what the task goes on with. *)
Definition hear (l : Listener SocketAddr) (peer : SocketAddr) (bytes : list Z)
    : comp (option (list Z) * Listener SocketAddr) :=
  match l with
  | Plain => Ret (Some bytes, Plain)
  | Challenging receiver =>
      '(packet, receiver) ← ReverseReceiver.receive receiver peer bytes;
      Ret (packet, Challenging receiver)
  end.

Definition set_channel (c : nat) (f : Channel.t SocketAddr → Channel.t SocketAddr) (self : t) : t :=
  self <| channels ::= alter f c |>.

Definition set_socket (c s : nat) (f : Socket.t SocketAddr → Socket.t SocketAddr) (self : t) : t :=
  set_channel c (λ ch, ch <| Channel.sockets ::= alter f s |>) self.

(** All sending halves are gone: [recv] returns [None]. *)
Definition abandoned (ch : Channel.t SocketAddr) : bool :=
  forallb (λ s, match Socket.pc s with Stopped => true | _ => false end) (Channel.sockets ch).

Definition arrive (c s : nat) (socket : Socket.t SocketAddr) (peer : SocketAddr) (bytes : list Z) (self : t)
    : comp (Output * t) :=
  '(packet, l) ← hear (Socket.listener socket) peer bytes;
  Ret (match packet with
       | Some bytes => (Heard c s bytes, set_socket c s (λ _, Socket.Build_t l (Pushing bytes)) self)
       | None => (Answer c s, set_socket c s (λ _, Socket.Build_t l Listening) self)
       end).

(** [tx.send(bytes)] of a socket's task. *)
Definition push (c s : nat) (ch : Channel.t SocketAddr) (bytes : list Z) (self : t) : option (Output * t) :=
  r ← Mpsc.send (ChannelReceiver.rx (Channel.receiver ch)) bytes;
  Some (match r with
        | Ok q =>
            (Enqueued c s bytes,
             set_socket c s (λ s, s <| Socket.pc := Listening |>)
               (set_channel c (λ ch, ch <| Channel.receiver ::= λ r,
                                             r <| ChannelReceiver.rx := q |> |>) self))
        | Err _ => (Silent, set_socket c s (λ s, s <| Socket.pc := Stopped |>) self)
        end).

(** [tx.send(InboundTransportPacket { .. })] of a merging task. *)
Definition merge (c : nat) (ch : Channel.t SocketAddr) (bytes : list Z) (self : t) : option (Output * t) :=
  r ← Mpsc.send (inbound self)
        (ITP.Build_t (ChannelReceiver.channel_id (Channel.receiver ch)) bytes);
  Some (Silent,
        match r with
        | Ok q => set_channel c (λ ch, ch <| Channel.pc := Waiting |>) (self <| inbound := q |>)
        | Err _ => set_channel c (λ ch, ch <| Channel.pc := Ended |>) self
        end).

Definition do_move (m : Move) (self : t) : option (comp (Output * t)) :=
  match m with
  | Arrive c s peer bytes =>
      ch ← channels self !! c;
      socket ← Channel.sockets ch !! s;
      match Socket.pc socket with
      | Listening => Some (arrive c s socket peer bytes self)
      | _ => None
      end
  | Tick c s nonce_of =>
      ch ← channels self !! c;
      socket ← Channel.sockets ch !! s;
      match Socket.listener socket, Socket.pc socket with
      | Challenging receiver, Listening =>
          Some ('(probes, receiver) ← ReverseReceiver.tick receiver nonce_of;
                Ret (Probed c s probes,
                     set_socket c s (λ s, s <| Socket.listener := Challenging receiver |>) self))
      | _, _ => None
      end
  | SocketError c s =>
      ch ← channels self !! c;
      socket ← Channel.sockets ch !! s;
      match Socket.pc socket with
      | Listening => Some (Ret (Silent, set_socket c s (λ s, s <| Socket.pc := Stopped |>) self))
      | _ => None
      end
  | Push c s =>
      ch ← channels self !! c;
      socket ← Channel.sockets ch !! s;
      match Socket.pc socket with
      | Pushing bytes => Ret <$> push c s ch bytes self
      | _ => None
      end
  | Take c =>
      ch ← channels self !! c;
      match Channel.pc ch with
      | Waiting =>
          '(bytes, receiver) ← ChannelReceiver.recv (Channel.receiver ch);
          Some (Ret (Silent, set_channel c (λ ch, ch <| Channel.receiver := receiver |>
                                                     <| Channel.pc := Moving bytes |>) self))
      | _ => None
      end
  | Merge c =>
      ch ← channels self !! c;
      match Channel.pc ch with
      | Moving bytes => Ret <$> merge c ch bytes self
      | _ => None
      end
  | Finish c =>
      ch ← channels self !! c;
      match Channel.pc ch, ChannelReceiver.recv (Channel.receiver ch) with
      | Waiting, None =>
          if abandoned ch
          then Some (Ret (Silent, set_channel c (λ ch, ch <| Channel.pc := Ended |>) self))
          else None
      | _, _ => None
      end
  | Receive =>
      '(packet, q) ← Mpsc.recv (inbound self);
      Some (Ret (Received packet, self <| inbound := q |>))
  end.

(** A run of moves, each possible where it is made, with what came of each. *)
Fixpoint run (moves : list Move) (self : t) : option (comp (list (Move * Output) * t)) :=
  match moves with
  | [] => Some (Ret ([], self))
  | m :: moves =>
      r ← do_move m self;
      match r with
      | Ret (output, self) =>
          r ← run moves self; Some ('(trace, self) ← r; Ret ((m, output) :: trace, self))
      | Panic => Some Panic
      | NoFuel => Some NoFuel
      end
  end.

End inbound.
Arguments t SocketAddr {_ _}.
Arguments Move : clear implicits.
Arguments Output : clear implicits.
End Inbound.
