(* ===== verification/ChannelFacts.v ===== *)
(** * Correctness of the channel tasks

    Outbound: every packet a sender accepts is handed to its plugin in order, and
    leaves or is reported as failed, whatever the tasks of the other channels do.
    Inbound: every datagram that is no answer reaches the core under the id of
    its channel, in the order of its socket; no task gets stuck holding one. *)

From stdpp Require Import gmap.
From S2P Require Import Prelude Bytes Core UdpChannel UdpChannelFacts Runtime Channel.

Lemma snoc_omap {A B} (f : A → option B) l x : omap f (l ++ [x]) = omap f l ++ option_list (f x).
Proof. rewrite omap_app. cbn. by destruct (f x). Qed.

(** Messages of a shared queue that carry an id. *)
Definition of_id {B} (id : ChannelId) (l : list (ChannelId * B)) : list B :=
  (filter (λ x, x.1 = id) l).*2.

Lemma of_id_app {B} id (l k : list (ChannelId * B)) : of_id id (l ++ k) = of_id id l ++ of_id id k.
Proof. unfold of_id. by rewrite filter_app, fmap_app. Qed.

Lemma of_id_eq {B} id (x : B) : of_id id [(id, x)] = [x].
Proof. unfold of_id. by rewrite filter_cons, decide_True. Qed.

Lemma of_id_ne {B} id id' (x : B) : id' ≠ id → of_id id [(id', x)] = [].
Proof. intros. unfold of_id. by rewrite filter_cons, decide_False. Qed.

Lemma of_id_labels {B} id i (l : list B) :
  of_id i ((id,.) <$> l) = if decide (i = id) then l else [].
Proof.
  induction l as [|x l IH]; [by case_decide|].
  change ((id,.) <$> x :: l) with ([(id, x)] ++ ((id,.) <$> l)). rewrite of_id_app, IH.
  destruct (decide (i = id)) as [->|]; [by rewrite of_id_eq|by rewrite of_id_ne].
Qed.

(** ** Queues *)

(** A queue that is open and within its bound. *)
Record queue_ok {A} (n : Z) (q : Mpsc.t A) : Prop := {
  qk_open : Mpsc.open q = true;
  qk_capacity : Mpsc.capacity q = n;
  qk_len : len (Mpsc.items q) <= n;
}.

Lemma channel_ok {A} n : 0 <= n → queue_ok n (Mpsc.channel (A := A) n).
Proof. by split. Qed.

Lemma queue_send_spec {A} n (q : Mpsc.t A) x r :
  queue_ok n q → Mpsc.send q x = Some r →
  ∃ q', r = Ok q' ∧ queue_ok n q' ∧ Mpsc.items q' = Mpsc.items q ++ [x].
Proof.
  intros [Ho Hc Hl]. unfold Mpsc.send. rewrite Ho, Hc. cbn [negb]. case_cmp; [|done].
  intros [= <-]. eexists. split; [done|]. split; [|done]. split; [done|done|]. cbn.
  rewrite len_app. change (len [x]) with 1. lia.
Qed.

Lemma queue_recv_spec {A} n (q : Mpsc.t A) x q' :
  queue_ok n q → Mpsc.recv q = Some (x, q') →
  Mpsc.items q = [x] ++ Mpsc.items q' ∧ queue_ok n q'.
Proof.
  intros [Ho Hc Hl]. unfold Mpsc.recv. destruct (Mpsc.items q) as [|y items] eqn:E; [done|].
  intros [= -> <-]. split; [done|]. split; [done|done|]. cbn. rewrite len_cons in Hl. lia.
Qed.

(** ** Outbound *)

Section outbound.
Context `{Blake3KeyedSpec, Countable SocketAddr, !KeyOrder (Z * SocketAddr),
  !KeyOrderSpec (Z * SocketAddr)}.

Abbreviation OB := (Outbound.t SocketAddr).
Abbreviation worker := (Worker.t (Plugin SocketAddr)).
Abbreviation Step := (Outbound.Move SocketAddr * Outbound.Output SocketAddr)%type.

Abbreviation SEvent := (Sender.Event (SocketAddr := SocketAddr)).
Abbreviation SOutput := (Sender.Output (SocketAddr := SocketAddr)).

(** The plugins of the constructors. *)
Inductive started : Plugin SocketAddr → Prop :=
  | started_forward binds destinations f :
      ForwardUdp.sender binds destinations = Ret f → started (Forward f)
  | started_reverse binds channel_key s :
      ReverseSender.new binds channel_key = Ret s → started (Reverse s).

(** *** What a trace says of a channel *)

Definition queued (id : ChannelId) (s : Step) : option (list Z) :=
  match s.2 with
  | Outbound.Queued p => if decide (OTP.channel_id p = id) then Some (OTP.bytes p) else None
  | _ => None
  end.

Definition handled (id : ChannelId) (s : Step) : option (Sent SocketAddr) :=
  match s.2 with
  | Outbound.Handled i sent => if decide (i = id) then Some sent else None
  | _ => None
  end.

Definition noticed (id : ChannelId) (s : Step) : option (list Z) :=
  match s.2 with
  | Outbound.Noticed (i, bytes) => if decide (i = id) then Some bytes else None
  | _ => None
  end.

Definition failed (sent : Sent SocketAddr) : option (list Z) :=
  match sent with SendFailed bytes => Some bytes | SentTo _ _ _ => None end.

(** What happened to the plugin of a channel. *)
Definition event (id : ChannelId) (s : Step)
    : option (SEvent * SOutput) :=
  match s with
  | (Outbound.Turn i c, Outbound.Handled _ sent) =>
      if decide (i = id)
      then Some (Sender.Packet (payload sent) (Chance.draw c) (Chance.sent_ok c) (Chance.now c),
                 Sender.Channel sent)
      else None
  | (Outbound.Datagram i socket peer bytes nonce sent_ok now, Outbound.Answered _ response) =>
      if decide (i = id)
      then Some (Sender.Datagram socket peer bytes nonce sent_ok now, Sender.Answer response)
      else None
  | _ => None
  end.

(** Time passes, nonces have 16 bytes, and a datagram comes from a socket. *)
Definition time_of (m : Outbound.Move SocketAddr) : option Z :=
  match m with
  | Outbound.Turn _ c => Some (Chance.now c)
  | Outbound.Datagram _ _ _ _ _ _ now => Some now
  | _ => None
  end.

Definition move_ok (plugins : gmap ChannelId (Plugin SocketAddr)) (m : Outbound.Move SocketAddr)
    : Prop :=
  match m with
  | Outbound.Datagram id socket _ _ nonce _ _ =>
      len nonce = 16
      ∧ ∀ s, plugins !! id = Some (Reverse s) → 0 <= socket < ReverseSender.sockets s
  | _ => True
  end.

Lemma event_time id s e o : event id s = Some (e, o) → time_of s.1 = Some (Sender.time_of e).
Proof.
  destruct s as [[] []]; cbn; try done; case_decide; try done; by intros [= <- <-].
Qed.

(** *** What a plugin does, by its kind *)

Definition behaves (id : ChannelId) (p : Plugin SocketAddr) (trace : list Step) : Prop :=
  match p with
  | Forward f => ∀ c sent,
      (Outbound.Turn id c, Outbound.Handled id sent) ∈ trace →
      match sent with
      | SentTo socket peer _ => Chance.sent_ok c = true
          ∧ 0 <= socket < ForwardUdp.sockets f ∧ peer ∈ ForwardUdp.destinations f
      | SendFailed _ => Chance.sent_ok c = false
      end
  | Reverse s => ∀ i e o,
      omap (event id) trace !! i = Some (e, o) →
      Sender.outcome (ReverseSender.key s) (take i (omap (event id) trace).*1) e o
  end.

(** The plugin after a trace. *)
Definition follows (id : ChannelId) (p0 : Plugin SocketAddr) (trace : list Step)
    (p : Plugin SocketAddr) : Prop :=
  match p0, p with
  | Forward f, Forward f' =>
      f' = f ∧ 0 < ForwardUdp.sockets f ∧ ForwardUdp.destinations f ≠ []
  | Reverse s, Reverse s' =>
      Sender.tracks (ReverseSender.key s) (ReverseSender.sockets s) (omap (event id) trace).*1 s'
  | _, _ => False
  end ∧ behaves id p0 trace.

Lemma started_follows id p : started p → follows id p [] p.
Proof.
  destruct 1 as [binds destinations f Hf|binds channel_key s Hs].
  - unfold ForwardUdp.sender, bind_all in Hf. case_decide; [done|]. case_decide; [done|].
    injection Hf as <-. split; [|by intros ? ? ?%elem_of_nil]. split_and!; [done| |done].
    cbn. destruct binds; [done|]. rewrite len_cons. pose proof (len_nonneg binds). lia.
  - unfold ReverseSender.new, bind_all in Hs. case_decide; [done|]. injection Hs as <-.
    split; [|done]. split; [done|done| | |done]; intros path t; cbn; by rewrite lookup_empty.
Qed.

(** A step that the channel does not notice. *)
Definition silent (id : ChannelId) (s : Step) : Prop :=
  queued id s = None ∧ handled id s = None ∧ noticed id s = None ∧ event id s = None.

Lemma follows_silent id p0 trace p s :
  follows id p0 trace p → handled id s = None → event id s = None →
  follows id p0 (trace ++ [s]) p.
Proof.
  intros [Hf Hb] Hh He. unfold follows, behaves in *. rewrite !snoc_omap, He. cbn.
  rewrite !app_nil_r. split; [done|]. destruct p0; [|done].
  intros c sent [Hin|Hin]%elem_of_app; [by apply Hb|].
  apply list_elem_of_singleton in Hin as <-. cbn in Hh. by rewrite decide_True in Hh.
Qed.

Lemma event_outcomes key (es : list (SEvent * SOutput)) e o :
  (∀ i e' o', es !! i = Some (e', o') → Sender.outcome key (take i es.*1) e' o') →
  Sender.outcome key es.*1 e o →
  ∀ i e' o', (es ++ [(e, o)]) !! i = Some (e', o') →
    Sender.outcome key (take i (es ++ [(e, o)]).*1) e' o'.
Proof.
  intros Hes Heo i e' o' Hi. rewrite fmap_app. apply lookup_app_Some in Hi as [Hi|[Hge Hi]].
  - rewrite take_app_le; [by apply Hes|]. apply lookup_lt_Some in Hi. rewrite length_fmap. lia.
  - apply list_lookup_singleton_Some in Hi as [Hi [= -> ->]].
    assert (i = length es.*1) as -> by (rewrite length_fmap; lia). by rewrite take_app_length.
Qed.

(** No step of the channel's plugin is in the past of an earlier one. *)
Definition after (id : ChannelId) (trace : list Step) (now : Z) : Prop :=
  ∀ e, last (omap (event id) trace).*1 = Some e → Sender.time_of e <= now.

(** A packet of the queue. *)
Lemma transmit_follows id p0 trace p c bytes :
  follows id p0 trace p → after id trace (Chance.now c) →
  ∃ sent p', transmit p c bytes = Ret (sent, p') ∧ payload sent = bytes
    ∧ follows id p0 (trace ++ [(Outbound.Turn id c, Outbound.Handled id sent)]) p'.
Proof.
  intros [Hf Hb] Hafter. unfold follows, behaves in *.
  destruct p0 as [f|s], p as [f'|s']; try done.
  - destruct Hf as (-> & Hs & Hd). unfold transmit at 1, plugin_transmitter, plugin_transmit.
    unfold transmit, forward_transmitter, forward_transmit, ForwardUdp.send, random_range.
    assert (0 < len (ForwardUdp.destinations f)) as Hd'.
    { destruct (ForwardUdp.destinations f) as [|d l]; [done|].
      rewrite len_cons. pose proof (len_nonneg l). lia. }
    rewrite !(proj2 (Z.leb_gt _ 0)) by done. cbn [mbind comp_bind].
    pose proof (Z.mod_pos_bound (Chance.draw_destination c) _ Hd') as Hm.
    pose proof (Z.mod_pos_bound (Chance.draw c) _ Hs) as Hm'.
    set (d := Chance.draw_destination c mod _) in *.
    destruct (lookup_lt_is_Some_2 (ForwardUdp.destinations f) (Z.to_nat d)) as [peer Hp];
      [unfold len in *; lia|].
    rewrite (index_eq _ d peer) by (done || lia). cbn [mbind comp_bind].
    eexists _, (Forward f). split; [done|]. split; [by destruct (Chance.sent_ok c)|].
    split; [done|]. intros c' sent [Hin|Hin]%elem_of_app; [by apply Hb|].
    apply list_elem_of_singleton in Hin. injection Hin as -> ->.
    destruct (Chance.sent_ok c); [|done]. split_and!; [done|lia|lia|].
    by eapply list_elem_of_lookup_2.
  - destruct (Sender.packet_outcome (ReverseSender.key s) (ReverseSender.sockets s)
      (omap (event id) trace).*1 s' bytes (Chance.draw c) (Chance.sent_ok c) (Chance.now c) Hf)
      as (output & s1 & Hstep & Hout & Ht); [exact Hafter|].
    cbn [Sender.step] in Hstep.
    destruct (ReverseSender.send s' bytes (Chance.now c) (Chance.draw c) (Chance.sent_ok c))
      as [[sent s2]| |] eqn:E; try done. cbn [mbind comp_bind] in Hstep.
    injection Hstep as <- <-.
    assert (payload sent = bytes) as Hpay by by destruct sent; destruct Hout as [-> _].
    exists sent, (Reverse s2). split; [|split; [done|]].
    { unfold transmit at 1, plugin_transmitter, plugin_transmit.
      unfold transmit, reverse_transmitter, reverse_transmit. by rewrite E. }
    rewrite snoc_omap. cbn [event]. rewrite decide_True by done. cbn [option_list].
    rewrite Hpay. split; [by rewrite fmap_app|]. by apply event_outcomes.
Qed.

(** A datagram on a socket of a reverse channel. *)
Lemma datagram_follows id s0 trace s socket peer bytes nonce sent_ok now :
  follows id (Reverse s0) trace (Reverse s) → after id trace now →
  0 <= socket < ReverseSender.sockets s0 → len nonce = 16 →
  ∃ response s', ReverseSender.receive s socket peer bytes nonce sent_ok now
      = Ret (response, s')
    ∧ follows id (Reverse s0)
        (trace ++ [(Outbound.Datagram id socket peer bytes nonce sent_ok now,
                    Outbound.Answered id response)]) (Reverse s').
Proof.
  intros [Hf Hb] Hafter Hsock Hn. unfold follows, behaves in *.
  destruct (Sender.datagram_outcome (ReverseSender.key s0) (ReverseSender.sockets s0)
    (omap (event id) trace).*1 s socket peer bytes nonce sent_ok now Hf)
    as (output & s1 & Hstep & Hout & Ht); [done|exact Hafter|].
  cbn [Sender.step] in Hstep.
  destruct (ReverseSender.receive s socket peer bytes nonce sent_ok now)
    as [[response s2]| |] eqn:E; try done. cbn [mbind comp_bind] in Hstep.
  injection Hstep as <- <-. exists response, s2. split; [done|].
  rewrite snoc_omap. cbn [event]. rewrite decide_True by done. cbn [option_list].
  split; [by rewrite fmap_app|]. by apply event_outcomes.
Qed.

(** *** The books of a channel *)

(** Everything accepted was handled or is in the queue, every failure was
    noticed, is in the queue of failures, or is about to be put there. *)
Record books (id : ChannelId) (p0 : Plugin SocketAddr) (trace : list Step)
    (failures : list ChannelSendFailure) (w : worker) : Prop := {
  bk_tx : queue_ok QUEUE_SIZE (ChannelSender.tx (Worker.sender w));
  bk_queued : omap (queued id) trace = (payload <$> omap (handled id) trace)
    ++ (SendPacket.bytes <$> Mpsc.items (ChannelSender.tx (Worker.sender w)));
  bk_failed : omap failed (omap (handled id) trace)
    = omap (noticed id) trace ++ of_id id failures ++ option_list (Worker.reporting w);
  bk_plugin : follows id p0 trace (Worker.plugin w);
}.

Record ledger (plugins : gmap ChannelId (Plugin SocketAddr)) (trace : list Step) (self : OB)
    : Prop := {
  lg_failures : queue_ok FAILURE_QUEUE (Outbound.failures self);
  lg_workers : ∀ id, option_relation
    (λ p0 w, books id p0 trace (Mpsc.items (Outbound.failures self)) w)
    (λ _, False) (λ _, False) (plugins !! id) (Outbound.senders self !! id);
  lg_refused : ∀ m p, (m, Outbound.Refused p) ∈ trace → plugins !! OTP.channel_id p = None;
}.

Lemma ledger_worker plugins trace self id w :
  ledger plugins trace self → Outbound.senders self !! id = Some w →
  ∃ p0, plugins !! id = Some p0 ∧ books id p0 trace (Mpsc.items (Outbound.failures self)) w.
Proof.
  intros Hl Hw. pose proof (lg_workers _ _ _ Hl id) as Hb. rewrite Hw in Hb.
  destruct (plugins !! id) as [p0|]; [|done]. by exists p0.
Qed.

Lemma new_ledger plugins : map_Forall (λ _, started) plugins → ledger plugins [] (Outbound.new plugins).
Proof.
  intros Hp. split; [by apply channel_ok| |by intros ? ? ?%elem_of_nil].
  intros id. cbn. rewrite map_lookup_imap. destruct (plugins !! id) as [p|] eqn:E; [|done]. cbn.
  split; [by apply channel_ok|done|done|]. apply started_follows. by apply (Hp id).
Qed.

Lemma books_silent id p0 trace failures failures' w s :
  books id p0 trace failures w → silent id s → of_id id failures' = of_id id failures →
  books id p0 (trace ++ [s]) failures' w.
Proof.
  intros [Htx Hq Hf Hp] (Hsq & Hsh & Hsn & Hse) Hid.
  split; [done| | |by apply follows_silent]; rewrite !snoc_omap, ?Hsq, ?Hsh, ?Hsn; cbn;
    rewrite ?app_nil_r; [done|by rewrite Hid].
Qed.

(** A step of one channel: the others do not notice. *)
Lemma ledger_step plugins trace self self' id p0 w' s :
  ledger plugins trace self → plugins !! id = Some p0 →
  Outbound.senders self' = <[id := w']> (Outbound.senders self) →
  queue_ok FAILURE_QUEUE (Outbound.failures self') →
  books id p0 (trace ++ [s]) (Mpsc.items (Outbound.failures self')) w' →
  (∀ id', id' ≠ id → silent id' s
     ∧ of_id id' (Mpsc.items (Outbound.failures self')) = of_id id' (Mpsc.items (Outbound.failures self))) →
  (∀ p, s.2 ≠ Outbound.Refused p) →
  ledger plugins (trace ++ [s]) self'.
Proof.
  intros Hl Hp Hs Hf Hb Hother Hno. split; [done| |].
  - intros id'. rewrite Hs. destruct (decide (id' = id)) as [->|Hne].
    + by rewrite Hp, lookup_insert_eq.
    + rewrite lookup_insert_ne by done. pose proof (lg_workers _ _ _ Hl id') as Hw.
      destruct (plugins !! id'), (Outbound.senders self !! id'); try done. cbn in *.
      destruct (Hother id' Hne). by eapply books_silent.
  - intros m p [Hin|Hin]%elem_of_app; [by eapply lg_refused|].
    apply list_elem_of_singleton in Hin as <-. by destruct (Hno p).
Qed.

(** A step no channel notices. *)
Lemma ledger_still plugins trace self s :
  ledger plugins trace self → (∀ id, silent id s) →
  (∀ p, s.2 = Outbound.Refused p → plugins !! OTP.channel_id p = None) →
  ledger plugins (trace ++ [s]) self.
Proof.
  intros Hl Hs Hr. split; [apply (lg_failures _ _ _ Hl)| |].
  - intros id. pose proof (lg_workers _ _ _ Hl id) as Hw.
    destruct (plugins !! id), (Outbound.senders self !! id); try done. cbn in *.
    by eapply books_silent.
  - intros m p [Hin|Hin]%elem_of_app; [by eapply lg_refused|].
    apply list_elem_of_singleton in Hin as <-. by apply Hr.
Qed.

Lemma ledger_send plugins trace self packet r :
  ledger plugins trace self → Outbound.do_move (Outbound.Send packet) self = Some r →
  ∃ o self', r = Ret (o, self') ∧ ledger plugins (trace ++ [(Outbound.Send packet, o)]) self'.
Proof.
  intros Hl. cbn [Outbound.do_move]. unfold Outbound.send.
  destruct (Outbound.senders self !! OTP.channel_id packet) as [w|] eqn:Hw.
  - destruct (ledger_worker _ _ _ _ _ Hl Hw) as (p0 & Hp & [Htx Hq Hf Hpl]).
    unfold ChannelSender.send.
    destruct (Mpsc.send _ _) as [r'|] eqn:Hs; [|done].
    destruct (queue_send_spec _ _ _ _ Htx Hs) as (q & -> & Hok & Hitems). intros [= <-].
    eexists _, _. split; [done|].
    eapply (ledger_step _ _ _ _ (OTP.channel_id packet) p0); [done|done|done| | | |done].
    + apply (lg_failures _ _ _ Hl).
    + split; [done| | |by apply follows_silent]; rewrite !snoc_omap; cbn.
      * rewrite decide_True by done. change (ChannelSender.tx _) with q.
        rewrite Hitems, Hq, !app_nil_r, fmap_app. by rewrite <- app_assoc.
      * by rewrite !app_nil_r.
    + split; [|done]. by unfold silent, queued; cbn; rewrite decide_False.
  - intros [= <-]. eexists _, _. split; [done|]. apply ledger_still; [done|done|].
    intros p [= <-]. pose proof (lg_workers _ _ _ Hl (OTP.channel_id packet)) as Hb.
    rewrite Hw in Hb. by destruct (plugins !! _).
Qed.

Lemma ledger_turn plugins trace self id c r :
  ledger plugins trace self → after id trace (Chance.now c) →
  Outbound.do_move (Outbound.Turn id c) self = Some r →
  ∃ o self', r = Ret (o, self') ∧ ledger plugins (trace ++ [(Outbound.Turn id c, o)]) self'.
Proof.
  intros Hl Hafter. cbn [Outbound.do_move].
  destruct (Outbound.senders self !! id) as [w|] eqn:Hw; [|done]. cbn [mbind option_bind].
  destruct (ledger_worker _ _ _ _ _ Hl Hw) as (p0 & Hp & [Htx Hq Hf Hpl]).
  unfold Worker.turn. destruct (Worker.reporting w) eqn:Hrep; [done|].
  destruct (Mpsc.recv _) as [[packet rx]|] eqn:Hr; [|done].
  destruct (queue_recv_spec _ _ _ _ Htx Hr) as [Hitems Hok]. cbn [mbind option_bind].
  destruct (transmit_follows id p0 trace (Worker.plugin w) c (SendPacket.bytes packet) Hpl Hafter)
    as (sent & p' & -> & Hpay & Hpl'). cbn [mbind comp_bind]. intros [= <-].
  eexists _, _. split; [done|].
  eapply (ledger_step _ _ _ _ id p0); [done|done|done| | | |done].
  - apply (lg_failures _ _ _ Hl).
  - split; [done| | |done]; rewrite !snoc_omap; cbn [queued handled noticed snd option_list];
      rewrite decide_True by done; cbn [option_list]; rewrite ?app_nil_r.
    + rewrite Hq, Hitems, !fmap_app, <- app_assoc. cbn. by rewrite Hpay.
    + rewrite omap_app, Hf. cbn. rewrite app_nil_r.
      destruct sent; cbn; by rewrite <- ?app_assoc, ?app_nil_r.
  - split; [|done]. unfold silent; cbn. by rewrite !decide_False.
Qed.

Lemma ledger_report plugins trace self id r :
  ledger plugins trace self → Outbound.do_move (Outbound.Report id) self = Some r →
  ∃ o self', r = Ret (o, self') ∧ ledger plugins (trace ++ [(Outbound.Report id, o)]) self'.
Proof.
  intros Hl. cbn [Outbound.do_move]. unfold Outbound.report.
  destruct (Outbound.senders self !! id) as [w|] eqn:Hw; [|done]. cbn [mbind option_bind].
  destruct (ledger_worker _ _ _ _ _ Hl Hw) as (p0 & Hp & [Htx Hq Hf Hpl]).
  destruct (Worker.reporting w) as [bytes|] eqn:Hrep; [|done]. cbn [mbind option_bind].
  destruct (Mpsc.send _ _) as [r'|] eqn:Hs; [|done]. cbn [mbind option_bind].
  destruct (queue_send_spec _ _ _ _ (lg_failures _ _ _ Hl) Hs) as (q & -> & Hok & Hitems).
  intros [= <-]. eexists _, _. split; [done|].
  eapply (ledger_step _ _ _ _ id p0); [done|done|done|done| | |done].
  - change (Outbound.failures (_ <| Outbound.failures := q |>)) with q. rewrite Hitems.
    split; [done| | |by apply follows_silent]; rewrite !snoc_omap; cbn; rewrite ?app_nil_r; [done|].
    rewrite of_id_app, of_id_eq, Hf. done.
  - intros id' Hne. split; [done|]. change (Outbound.failures (_ <| Outbound.failures := q |>)) with q.
    rewrite Hitems, of_id_app, of_id_ne by done. by rewrite app_nil_r.
Qed.

Lemma ledger_notice plugins trace self r :
  ledger plugins trace self → Outbound.do_move Outbound.TakeFailure self = Some r →
  ∃ o self', r = Ret (o, self') ∧ ledger plugins (trace ++ [(Outbound.TakeFailure, o)]) self'.
Proof.
  intros Hl. cbn [Outbound.do_move]. destruct (Mpsc.recv _) as [[[i bytes] q]|] eqn:Hr; [|done].
  destruct (queue_recv_spec _ _ _ _ (lg_failures _ _ _ Hl) Hr) as [Hitems Hok]. cbn [mbind option_bind].
  intros [= <-]. eexists _, _. split; [done|]. split; [done| |].
  - intros id. cbn [Outbound.senders Outbound.failures update].
    pose proof (lg_workers _ _ _ Hl id) as Hw.
    change (Outbound.senders (self <| Outbound.failures := q |>)) with (Outbound.senders self).
    destruct (plugins !! id), (Outbound.senders self !! id); try done. cbn in Hw |- *.
    destruct Hw as [Htx Hq Hf Hp]. rewrite Hitems, of_id_app in Hf.
    split; [done| | |by apply follows_silent]; rewrite !snoc_omap; cbn; rewrite ?app_nil_r; [done|].
    rewrite Hf. destruct (decide (i = id)) as [->|Hne].
    + rewrite of_id_eq. cbn. by rewrite <- app_assoc.
    + rewrite of_id_ne by done. cbn. by rewrite app_nil_r.
  - intros m p [Hin|Hin]%elem_of_app; [by eapply lg_refused|].
    by apply list_elem_of_singleton in Hin.
Qed.

Lemma ledger_datagram plugins trace self id socket peer bytes nonce sent_ok now r :
  let m := Outbound.Datagram id socket peer bytes nonce sent_ok now in
  ledger plugins trace self → after id trace now → move_ok plugins m →
  Outbound.do_move m self = Some r →
  ∃ o self', r = Ret (o, self') ∧ ledger plugins (trace ++ [(m, o)]) self'.
Proof.
  intros m Hl Hafter [Hn Hsock]. cbn [Outbound.do_move m].
  destruct (Outbound.senders self !! id) as [w|] eqn:Hw; [|done]. cbn [mbind option_bind].
  destruct (ledger_worker _ _ _ _ _ Hl Hw) as (p0 & Hp & [Htx Hq Hf Hpl]).
  destruct (Worker.plugin w) as [f|s] eqn:Hplug; [done|].
  assert (∃ s0, p0 = Reverse s0) as [s0 ->].
  { destruct p0 as [f|s0]; [by destruct Hpl|by exists s0]. }
  destruct (datagram_follows id s0 trace s socket peer bytes nonce sent_ok now Hpl Hafter
    (Hsock s0 Hp) Hn) as (response & s' & -> & Hpl'). cbn [mbind comp_bind]. intros [= <-].
  eexists _, _. split; [done|].
  eapply (ledger_step _ _ _ _ id (Reverse s0)); [done|done|done| | | |done].
  - apply (lg_failures _ _ _ Hl).
  - split; [done| | |done]; rewrite !snoc_omap; cbn; by rewrite ?app_nil_r.
  - split; [|done]. unfold silent; cbn. by rewrite !decide_False.
Qed.

(** *** Runs *)

Lemma sorted_after id trace m moves now :
  StronglySorted Z.le (omap time_of (trace.*1 ++ m :: moves)) → time_of m = Some now →
  after id trace now.
Proof.
  intros Hsort Hm e He. rewrite omap_app in Hsort.
  apply last_Some_elem_of, list_elem_of_fmap in He as ([e' o] & -> & He). cbn.
  apply list_elem_of_omap in He as (s & Hs & Hev). apply event_time in Hev.
  eapply StronglySorted_app_1_elem_of in Hsort; [exact Hsort| |].
  - apply list_elem_of_omap. exists s.1. split; [by apply list_elem_of_fmap_2|done].
  - cbn. rewrite Hm. by left.
Qed.

Lemma ledger_move plugins trace self m moves r :
  ledger plugins trace self → move_ok plugins m →
  StronglySorted Z.le (omap time_of (trace.*1 ++ m :: moves)) →
  Outbound.do_move m self = Some r →
  ∃ o self', r = Ret (o, self') ∧ ledger plugins (trace ++ [(m, o)]) self'.
Proof.
  intros Hl Hok Hsort. destruct m.
  - by apply ledger_send.
  - apply ledger_turn; [done|]. by eapply sorted_after.
  - by apply ledger_report.
  - by apply ledger_notice.
  - apply ledger_datagram; [done| |done]. by eapply sorted_after.
Qed.

Lemma ledger_run plugins moves : ∀ trace self r,
  ledger plugins trace self → Forall (move_ok plugins) moves →
  StronglySorted Z.le (omap time_of (trace.*1 ++ moves)) →
  Outbound.run moves self = Some r →
  ∃ trace' self', r = Ret (trace', self') ∧ trace'.*1 = moves
    ∧ ledger plugins (trace ++ trace') self'.
Proof.
  induction moves as [|m moves IH]; intros trace self r Hl Hok Hsort Hrun; cbn [Outbound.run] in Hrun.
  { injection Hrun as <-. exists [], self. by rewrite app_nil_r. }
  apply Forall_cons in Hok as [Hm Hok].
  destruct (Outbound.do_move m self) as [rm|] eqn:Hmove; [|done].
  destruct (ledger_move _ _ _ _ _ _ Hl Hm Hsort Hmove) as (o & self1 & -> & Hl1).
  cbn [mbind option_bind] in Hrun.
  destruct (Outbound.run moves self1) as [r1|] eqn:Hrest; [|done]. cbn [mbind option_bind] in Hrun.
  destruct (IH (trace ++ [(m, o)]) self1 r1 Hl1 Hok) as (trace' & self' & -> & Hfst & Hl').
  { rewrite fmap_app, <- app_assoc. exact Hsort. }
  { done. }
  injection Hrun as <-. exists ((m, o) :: trace'), self'. split; [done|].
  split; [by cbn; rewrite Hfst|]. by rewrite <- app_assoc in Hl'.
Qed.

(** C38: No packet that a channel accepts is lost between the core and the
    socket: whatever the channels of a node are, and in whatever order their
    tasks, the core and the peers act, no task panics, and for every channel the
    packets accepted are, in order, those its plugin handled followed by those
    still queued; the failures among them are, in order, those the core was told
    of, those on their way and the one being reported; only a packet for a
    channel that does not exist comes back.  A forward channel sends on its
    sockets to its destinations unless the socket refuses, a reverse channel does what [Sender.outcome]
    promises at each step, and no queue outgrows its bound. *)
Theorem channels_lose_nothing plugins moves r :
  map_Forall (λ _, started) plugins → Forall (move_ok plugins) moves →
  StronglySorted Z.le (omap time_of moves) →
  Outbound.run moves (Outbound.new plugins) = Some r →
  ∃ trace self, r = Ret (trace, self) ∧ trace.*1 = moves
    ∧ len (Mpsc.items (Outbound.failures self)) <= FAILURE_QUEUE
    ∧ (∀ m p, (m, Outbound.Refused p) ∈ trace → plugins !! OTP.channel_id p = None)
    ∧ ∀ id p, plugins !! id = Some p →
        behaves id p trace
        ∧ ∃ w, Outbound.senders self !! id = Some w
          ∧ (let waiting := Mpsc.items (ChannelSender.tx (Worker.sender w)) in
             len waiting <= QUEUE_SIZE
             ∧ omap (queued id) trace
               = (payload <$> omap (handled id) trace) ++ (SendPacket.bytes <$> waiting))
          ∧ omap failed (omap (handled id) trace)
            = omap (noticed id) trace ++ of_id id (Mpsc.items (Outbound.failures self))
              ++ option_list (Worker.reporting w).
Proof.
  intros Hstart Hok Hsort Hrun.
  destruct (ledger_run plugins moves [] _ r (new_ledger plugins Hstart) Hok Hsort Hrun)
    as (trace & self & -> & Hfst & [[_ _ Hlen] Hworkers Hrefused]).
  exists trace, self. split_and!; [done|done|done|exact Hrefused|].
  intros id p Hp. specialize (Hworkers id). cbn [app] in Hworkers. rewrite Hp in Hworkers.
  destruct (Outbound.senders self !! id) as [w|]; [|done]. cbn in Hworkers.
  destruct Hworkers as [[_ _ Htx] Hq Hf [_ Hb]]. split; [done|]. by exists w.
Qed.

(** A worker with packets is never stuck for good: it can take a turn, or the
    core can take a failure off the queue, or the worker can put its own there. *)
Lemma outbound_progress plugins trace self id w :
  ledger plugins trace self → Outbound.senders self !! id = Some w →
  Worker.reporting w ≠ None ∨ Mpsc.items (ChannelSender.tx (Worker.sender w)) ≠ [] →
  is_Some (Outbound.do_move (Outbound.Report id) self)
  ∨ is_Some (Outbound.do_move Outbound.TakeFailure self)
  ∨ ∀ c, is_Some (Outbound.do_move (Outbound.Turn id c) self).
Proof.
  intros [[Ho Hc Hl] _ _] Hw Hbusy. cbn [Outbound.do_move]. unfold Outbound.report, Worker.turn.
  rewrite Hw. cbn [mbind option_bind]. destruct (Worker.reporting w) as [bytes|]; cbn [mbind option_bind].
  - unfold Mpsc.send, Mpsc.recv. rewrite Ho. cbn [negb].
    destruct (Mpsc.items (Outbound.failures self)) as [|f fs]; [left|right; left; by eexists].
    rewrite Hc. change (len [] <? FAILURE_QUEUE) with true. by eexists.
  - right. right. intros c. unfold Mpsc.recv.
    destruct (Mpsc.items (ChannelSender.tx _)); [by destruct Hbusy|]. by eexists.
Qed.

End outbound.

(** ** Inbound *)

Section inbound.
Context `{Blake3KeyedSpec, Countable SocketAddr}.

Abbreviation IB := (Inbound.t SocketAddr).
Abbreviation channel := (Channel.t SocketAddr).
Abbreviation IStep := (Inbound.Move SocketAddr * Inbound.Output SocketAddr)%type.

(** *** What a trace says of a channel and its sockets *)

(** The datagrams a socket's task goes on with. *)
Definition heard (c s : nat) (st : IStep) : option (list Z) :=
  match st with
  | (Inbound.Arrive c' s' _ bytes, Inbound.Heard _ _ _) =>
      if decide ((c', s') = (c, s)) then Some bytes else None
  | _ => None
  end.

(** What enters the queue of a channel, from a socket and at all. *)
Definition enqueued_by (c s : nat) (st : IStep) : option (list Z) :=
  match st.2 with
  | Inbound.Enqueued c' s' bytes => if decide ((c', s') = (c, s)) then Some bytes else None
  | _ => None
  end.

Definition enqueued (c : nat) (st : IStep) : option (list Z) :=
  match st.2 with
  | Inbound.Enqueued c' _ bytes => if decide (c' = c) then Some bytes else None
  | _ => None
  end.

(** What the core receives under an id. *)
Definition received (id : ChannelId) (st : IStep) : option (list Z) :=
  match st.2 with
  | Inbound.Received p => if decide (ITP.channel_id p = id) then Some (ITP.bytes p) else None
  | _ => None
  end.

(** The inbound queue, and what the tasks hold. *)
Definition labelled (q : Mpsc.t ITP.t) : list (ChannelId * list Z) :=
  (λ p, (ITP.channel_id p, ITP.bytes p)) <$> Mpsc.items q.

Definition pushing (socket : Socket.t SocketAddr) : list (list Z) :=
  match Socket.pc socket with Pushing bytes => [bytes] | _ => [] end.

Definition moving (ch : channel) : list (list Z) :=
  match Channel.pc ch with Moving bytes => [bytes] | _ => [] end.

Definition rx_of (ch : channel) : Mpsc.t (list Z) := ChannelReceiver.rx (Channel.receiver ch).

(** An earlier round of the timer probed the peer with the nonce. *)
Definition probed (c s : nat) (key : list Z) (trace : list IStep) (peer : SocketAddr)
    (nonce : list Z) : Prop :=
  ∃ m probes, (m, Inbound.Probed c s probes) ∈ trace ∧ (peer, probe_of key nonce) ∈ probes.

(** A socket's task goes on with a datagram, unless it answers a probe of its own. *)
Definition arrival_ok (c s : nat) (l : Listener SocketAddr) (before : list IStep) (st : IStep)
    : Prop :=
  match st with
  | (Inbound.Arrive c' s' peer bytes, o) =>
      (c', s') = (c, s) →
      o = Inbound.Heard c s bytes
      ∨ o = Inbound.Answer c s
        ∧ ∃ r nonce, l = Challenging r ∧ probed c s (ReverseReceiver.key r) before peer nonce
            ∧ is_response (ReverseReceiver.key r) nonce bytes
  | _ => True
  end.

Definition arrivals_ok (c s : nat) (l : Listener SocketAddr) (trace : list IStep) : Prop :=
  ∀ before st after, trace = before ++ st :: after → arrival_ok c s l before st.

(** The listener after a trace. *)
Definition listens (c s : nat) (l0 : Listener SocketAddr) (trace : list IStep)
    (l : Listener SocketAddr) : Prop :=
  match l0, l with
  | Plain, Plain => True
  | Challenging r0, Challenging r =>
      ReverseReceiver.key r = ReverseReceiver.key r0
      ∧ ∀ peer nonce, ReverseReceiver.challenges r !! peer = Some nonce →
          len nonce = 16 ∧ probed c s (ReverseReceiver.key r0) trace peer nonce
  | _, _ => False
  end.

(** The listeners of the constructors. *)
Inductive fresh_listener : Listener SocketAddr → Prop :=
  | fresh_plain : fresh_listener Plain
  | fresh_challenging destinations channel_key r :
      ReverseReceiver.new destinations channel_key = Ret r → fresh_listener (Challenging r).

Record socket_ok (c s : nat) (l0 : Listener SocketAddr) (trace : list IStep)
    (socket : Socket.t SocketAddr) : Prop := {
  so_listens : listens c s l0 trace (Socket.listener socket);
  so_arrivals : arrivals_ok c s l0 trace;
  so_heard : omap (heard c s) trace = omap (enqueued_by c s) trace ++ pushing socket;
}.

(** From the sockets of a channel to the core. *)
Record lane (c : nat) (id : ChannelId) (ls : list (Listener SocketAddr)) (trace : list IStep)
    (inbound : list (ChannelId * list Z)) (ch : channel) : Prop := {
  ln_id : ChannelReceiver.channel_id (Channel.receiver ch) = id;
  ln_rx : queue_ok QUEUE_SIZE (rx_of ch);
  ln_flow : omap (enqueued c) trace
    = omap (received id) trace ++ of_id id inbound ++ moving ch ++ Mpsc.items (rx_of ch);
  ln_sockets : ∀ s, option_relation (λ l socket, socket_ok c s l trace socket)
    (λ _, False) (λ _, False) (ls !! s) (Channel.sockets ch !! s);
  ln_ended : Channel.pc ch = Ended → Inbound.abandoned ch = true ∧ Mpsc.items (rx_of ch) = [];
}.

Record lanes (receivers : list (ChannelId * list (Listener SocketAddr))) (trace : list IStep)
    (self : IB) : Prop := {
  ls_inbound : queue_ok INBOUND_QUEUE (Inbound.inbound self);
  ls_lanes : ∀ c, option_relation
    (λ r ch, lane c r.1 r.2 trace (labelled (Inbound.inbound self)) ch)
    (λ _, False) (λ _, False) (receivers !! c) (Inbound.channels self !! c);
}.

(** *** Steps that are not noticed *)

Definition quiet_socket (c s : nat) (st : IStep) : Prop :=
  heard c s st = None ∧ enqueued_by c s st = None ∧ ∀ l before, arrival_ok c s l before st.

Lemma arrivals_snoc c s l trace st :
  arrivals_ok c s l trace → arrival_ok c s l trace st → arrivals_ok c s l (trace ++ [st]).
Proof.
  intros Ha Hst before st' after Heq. destruct after as [|x after _] using rev_ind.
  - by apply app_inj_tail in Heq as [-> ->].
  - rewrite app_comm_cons, app_assoc in Heq. apply app_inj_tail in Heq as [-> _]. by eapply Ha.
Qed.

Lemma probed_snoc c s key trace st peer nonce :
  probed c s key trace peer nonce → probed c s key (trace ++ [st]) peer nonce.
Proof. intros (m & probes & Hin & Hp). exists m, probes. split; [set_solver|done]. Qed.

Lemma listens_snoc c s l0 trace st l : listens c s l0 trace l → listens c s l0 (trace ++ [st]) l.
Proof.
  destruct l0 as [|r0], l as [|r]; try done. intros [Hk Hc]. split; [done|].
  intros peer nonce Hp. destruct (Hc _ _ Hp) as [Hl Hpr]. split; [done|by apply probed_snoc].
Qed.

Lemma socket_quiet c s l0 trace socket st :
  socket_ok c s l0 trace socket → quiet_socket c s st → socket_ok c s l0 (trace ++ [st]) socket.
Proof.
  intros [Hl Hw Hh] (Hqh & Hqe & Hqa). split; [by apply listens_snoc| |].
  - apply arrivals_snoc; [done|apply Hqa].
  - by rewrite !snoc_omap, Hqh, Hqe, Hh, !app_nil_r.
Qed.

(** *** Steps of one channel *)

Definition quiet_channel (c : nat) (st : IStep) : Prop :=
  enqueued c st = None ∧ ∀ s, quiet_socket c s st.

Lemma lane_quiet c id ls trace inbound inbound' ch st :
  lane c id ls trace inbound ch → quiet_channel c st → received id st = None →
  of_id id inbound' = of_id id inbound → lane c id ls (trace ++ [st]) inbound' ch.
Proof.
  intros [Hid Hrx Hflow Hsock Hend] [Hqe Hqs] Hqr Hin. split; [done|done| | |done].
  - by rewrite !snoc_omap, Hqe, Hqr, Hflow, Hin, !app_nil_r.
  - intros s. specialize (Hsock s). destruct (ls !! s), (Channel.sockets ch !! s); try done.
    cbn in *. by apply socket_quiet.
Qed.

Lemma lanes_lookup receivers trace self c ch :
  lanes receivers trace self → Inbound.channels self !! c = Some ch →
  ∃ id ls, receivers !! c = Some (id, ls) ∧ lane c id ls trace (labelled (Inbound.inbound self)) ch.
Proof.
  intros Hl Hch. pose proof (ls_lanes _ _ _ Hl c) as Hc. rewrite Hch in Hc.
  destruct (receivers !! c) as [[id ls]|]; [|done]. by exists id, ls.
Qed.

Lemma lanes_step receivers trace self self' st c id ls ch ch' :
  NoDup receivers.*1 → lanes receivers trace self → receivers !! c = Some (id, ls) →
  Inbound.channels self !! c = Some ch →
  (∀ c', Inbound.channels self' !! c' = if decide (c' = c) then Some ch' else Inbound.channels self !! c') →
  queue_ok INBOUND_QUEUE (Inbound.inbound self') →
  (∀ id', id' ≠ id → of_id id' (labelled (Inbound.inbound self'))
                     = of_id id' (labelled (Inbound.inbound self))) →
  (∀ c', c' ≠ c → quiet_channel c' st) → (∀ id', received id' st = None) →
  lane c id ls (trace ++ [st]) (labelled (Inbound.inbound self')) ch' →
  lanes receivers (trace ++ [st]) self'.
Proof.
  intros Hnd Hl Hr Hch Hlook Hin Hids Hq Hrec Hlane. split; [done|]. intros c'. rewrite Hlook.
  destruct (decide (c' = c)) as [->|Hne]; [by rewrite Hr|].
  pose proof (ls_lanes _ _ _ Hl c') as Hc.
  destruct (receivers !! c') as [[id' ls']|] eqn:Hr', (Inbound.channels self !! c'); try done.
  cbn in *. eapply lane_quiet; [done|by apply Hq|done|]. apply Hids. intros ->. apply Hne.
  eapply NoDup_lookup; [exact Hnd| |]; rewrite list_lookup_fmap; [by rewrite Hr'|by rewrite Hr].
Qed.

Lemma alter_lookup {A} (f : A → A) (i : nat) (l : list A) x :
  l !! i = Some x → ∀ j, alter f i l !! j = if decide (j = i) then Some (f x) else l !! j.
Proof.
  intros Hx j. destruct (decide (j = i)) as [->|Hne].
  - by rewrite list_lookup_alter_eq, Hx.
  - by apply list_lookup_alter_ne.
Qed.

Lemma sockets_step c (ls : list (Listener SocketAddr)) trace (sockets : list (Socket.t SocketAddr)) s socket f st :
  (∀ s, option_relation (λ l socket, socket_ok c s l trace socket)
     (λ _, False) (λ _, False) (ls !! s) (sockets !! s)) →
  sockets !! s = Some socket →
  (∀ l, ls !! s = Some l → socket_ok c s l trace socket → socket_ok c s l (trace ++ [st]) (f socket)) →
  (∀ s', s' ≠ s → quiet_socket c s' st) →
  ∀ s', option_relation (λ l socket, socket_ok c s' l (trace ++ [st]) socket)
     (λ _, False) (λ _, False) (ls !! s') (alter f s sockets !! s').
Proof.
  intros Hs Hsock Hf Hq s'. rewrite (alter_lookup f s sockets socket Hsock). specialize (Hs s').
  destruct (decide (s' = s)) as [->|Hne].
  - rewrite Hsock in Hs. destruct (ls !! s) as [l|] eqn:E; [|done]. by apply Hf.
  - destruct (ls !! s'), (sockets !! s'); try done. cbn in *. by apply socket_quiet; [|apply Hq].
Qed.

Lemma not_abandoned (ch : channel) s socket :
  Inbound.abandoned ch = true → Channel.sockets ch !! s = Some socket → Socket.pc socket = Stopped.
Proof.
  intros Ha Hs. unfold Inbound.abandoned in Ha. rewrite forallb_forall in Ha.
  specialize (Ha socket). rewrite <- list_elem_of_In in Ha.
  specialize (Ha ltac:(by eapply list_elem_of_lookup_2)). by destruct (Socket.pc socket).
Qed.

(** A step of a socket's task that was listening. *)
Lemma lanes_socket receivers trace self c s ch socket f st :
  NoDup receivers.*1 → lanes receivers trace self →
  Inbound.channels self !! c = Some ch → Channel.sockets ch !! s = Some socket →
  Socket.pc socket = Listening →
  (∀ l, socket_ok c s l trace socket → socket_ok c s l (trace ++ [st]) (f socket)) →
  (∀ c', enqueued c' st = None) → (∀ id, received id st = None) →
  (∀ c' s', (c', s') ≠ (c, s) → quiet_socket c' s' st) →
  lanes receivers (trace ++ [st]) (Inbound.set_socket c s f self).
Proof.
  intros Hnd Hl Hch Hsock Hpc Hf He Hrec Hq.
  destruct (lanes_lookup _ _ _ _ _ Hl Hch) as (id & ls & Hr & [Hid Hrx Hflow Hs Hend]).
  eapply (lanes_step _ _ _ _ _ c id ls ch); [done|done|done|done| | | | |done|].
  - apply alter_lookup, Hch.
  - apply (ls_inbound _ _ _ Hl).
  - done.
  - intros c' Hne. split; [done|]. intros s'. apply Hq. naive_solver.
  - split; [done|done| | |].
    + by rewrite !snoc_omap, He, Hrec, !app_nil_r.
    + eapply sockets_step; [done|done| |intros s' Hne; apply Hq; naive_solver].
      intros l _. apply Hf.
    + intros Hp. cbn in Hp. destruct (Hend Hp) as [Ha _].
      by rewrite (not_abandoned _ _ _ Ha Hsock) in Hpc.
Qed.

(** *** The moves *)

Definition imove_ok (m : Inbound.Move SocketAddr) : Prop :=
  match m with Inbound.Tick _ _ nonce_of => ∀ i, len (nonce_of i) = 16 | _ => True end.

Definition keeps (receivers : list (ChannelId * list (Listener SocketAddr))) trace
    (m : Inbound.Move SocketAddr) r : Prop :=
  ∃ o self', r = Ret (o, self') ∧ lanes receivers (trace ++ [(m, o)]) self'.

Ltac quietly :=
  unfold quiet_channel, quiet_socket; intros; repeat split; intros; cbn;
  repeat match goal with |- context [decide ?P] => rewrite (decide_False (P := P)) by naive_solver end;
  naive_solver.

Lemma socket_arrive c s l trace socket peer bytes :
  socket_ok c s l trace socket → Socket.pc socket = Listening →
  ∃ o l', Inbound.hear (Socket.listener socket) peer bytes = Ret (o, l')
    ∧ match o with
      | Some bytes' => bytes' = bytes
          ∧ socket_ok c s l (trace ++ [(Inbound.Arrive c s peer bytes, Inbound.Heard c s bytes)])
              (Socket.Build_t l' (Pushing bytes))
      | None => socket_ok c s l (trace ++ [(Inbound.Arrive c s peer bytes, Inbound.Answer c s)])
              (Socket.Build_t l' Listening)
      end.
Proof.
  intros [Hl Hw Hh] Hpc. unfold pushing in Hh. rewrite Hpc, app_nil_r in Hh.
  assert (∀ l', listens c s l trace l' →
    socket_ok c s l (trace ++ [(Inbound.Arrive c s peer bytes, Inbound.Heard c s bytes)])
      (Socket.Build_t l' (Pushing bytes))) as Hheard.
  { intros l' Hl'. split; [by apply listens_snoc|apply arrivals_snoc; [done|by left]|].
    rewrite !snoc_omap. cbn. rewrite decide_True by done. by rewrite Hh, app_nil_r. }
  destruct l as [|r0], (Socket.listener socket) as [|r]; try done; cbn [Inbound.hear].
  { exists (Some bytes), Plain. split; [done|]. split; [done|by apply Hheard]. }
  destruct Hl as [Hk Hc].
  assert (challenges_ok r) as Hok by (intros p n Hp; by apply Hc in Hp as [? _]).
  destruct (receive_spec r peer bytes Hok) as [(nonce & Hn & Hresp & ->)|[_ ->]]; cbn [mbind comp_bind].
  - exists None, (Challenging (r <| ReverseReceiver.challenges ::= delete peer |>)).
    split; [done|]. split.
    + apply listens_snoc. split; [done|]. intros p n Hp. cbn in Hp.
      apply lookup_delete_Some in Hp as [_ Hp]. by apply Hc.
    + apply arrivals_snoc; [done|]. right. split; [done|]. rewrite Hk in Hresp.
      exists r0, nonce. split; [done|]. split; [by apply Hc|done].
    + rewrite !snoc_omap. cbn. by rewrite Hh, !app_nil_r.
  - exists (Some bytes), (Challenging r). split; [done|]. split; [done|]. by apply Hheard.
Qed.

Lemma lanes_socket_at receivers trace self c s ch socket :
  lanes receivers trace self →
  Inbound.channels self !! c = Some ch → Channel.sockets ch !! s = Some socket →
  ∃ l, socket_ok c s l trace socket.
Proof.
  intros Hl Hch Hs. destruct (lanes_lookup _ _ _ _ _ Hl Hch) as (id & ls & _ & Hlane).
  pose proof (ln_sockets _ _ _ _ _ _ Hlane s) as Hso. rewrite Hs in Hso.
  destruct (ls !! s) as [l|]; [by exists l|done].
Qed.

Lemma lanes_arrive receivers trace self c s peer bytes r :
  NoDup receivers.*1 → lanes receivers trace self →
  Inbound.do_move (Inbound.Arrive c s peer bytes) self = Some r →
  keeps receivers trace (Inbound.Arrive c s peer bytes) r.
Proof.
  intros Hnd Hl. cbn [Inbound.do_move].
  destruct (Inbound.channels self !! c) as [ch|] eqn:Hch; [|done]. cbn [mbind option_bind].
  destruct (Channel.sockets ch !! s) as [socket|] eqn:Hs; [|done]. cbn [mbind option_bind].
  destruct (Socket.pc socket) eqn:Hpc; try done. intros [= <-]. unfold Inbound.arrive, keeps.
  destruct (lanes_socket_at _ _ _ _ _ _ _ Hl Hch Hs) as [l0 Hso].
  destruct (socket_arrive c s l0 trace socket peer bytes Hso Hpc) as (o & l' & Hhear & Ho).
  rewrite Hhear. cbn [mbind comp_bind].
  destruct o as [bytes'|]; [destruct Ho as [-> _]|]; eexists _, _; (split; [done|]);
    (eapply lanes_socket; [done..| |quietly|quietly|quietly]); intros l Hso';
    destruct (socket_arrive c s l trace socket peer bytes Hso' Hpc) as (o' & l'' & Hhear' & Ho');
    rewrite Hhear in Hhear'; injection Hhear' as <- <-; naive_solver.
Qed.

(** The timer: what is open afterwards was open before or has just been sent. *)
Lemma lanes_tick receivers trace self c s nonce_of r :
  NoDup receivers.*1 → lanes receivers trace self → (∀ i, len (nonce_of i) = 16) →
  Inbound.do_move (Inbound.Tick c s nonce_of) self = Some r →
  keeps receivers trace (Inbound.Tick c s nonce_of) r.
Proof.
  intros Hnd Hl Hn. cbn [Inbound.do_move].
  destruct (Inbound.channels self !! c) as [ch|] eqn:Hch; [|done]. cbn [mbind option_bind].
  destruct (Channel.sockets ch !! s) as [socket|] eqn:Hs; [|done]. cbn [mbind option_bind].
  destruct (Socket.listener socket) as [|rv] eqn:Hli; [done|].
  destruct (Socket.pc socket) eqn:Hpc; try done. intros [= <-].
  destruct (tick_spec rv nonce_of Hn) as (rv' & -> & Hk & Hd & Hc). cbn [mbind comp_bind].
  eexists _, _. split; [done|].
  eapply lanes_socket; [done..| |quietly|quietly|quietly].
  intros l [Hlis Hw Hh]. rewrite Hli in Hlis. split; cbn [Socket.listener update].
  - destruct l as [|r0]; [done|]. destruct Hlis as [Hk0 Hc0]. split; [congruence|].
    intros peer nonce. rewrite Hc. destruct (last _) as [[i d]|] eqn:Hlast.
    + intros [= <-]. split; [done|]. exists (Inbound.Tick c s nonce_of).
      eexists. split; [apply elem_of_app; right; by apply list_elem_of_singleton|].
      apply last_Some_elem_of, list_elem_of_filter in Hlast as [Hp Hin]. cbn in Hp. subst d.
      apply elem_of_lookup_imap in Hin as (j & x & [= <- <-] & Hj).
      rewrite <- Hk0. unfold probes. apply elem_of_lookup_imap. by eexists _, _.
    + intros Hp. destruct (Hc0 _ _ Hp). split; [done|by apply probed_snoc].
  - by apply arrivals_snoc.
  - rewrite !snoc_omap. cbn. rewrite !app_nil_r, Hh. done.
Qed.

Lemma lanes_error receivers trace self c s r :
  NoDup receivers.*1 → lanes receivers trace self →
  Inbound.do_move (Inbound.SocketError c s) self = Some r →
  keeps receivers trace (Inbound.SocketError c s) r.
Proof.
  intros Hnd Hl. cbn [Inbound.do_move].
  destruct (Inbound.channels self !! c) as [ch|] eqn:Hch; [|done]. cbn [mbind option_bind].
  destruct (Channel.sockets ch !! s) as [socket|] eqn:Hs; [|done]. cbn [mbind option_bind].
  destruct (Socket.pc socket) eqn:Hpc; try done. intros [= <-]. eexists _, _. split; [done|].
  eapply lanes_socket; [done..| |quietly|quietly|quietly].
  intros l [Hlis Hw Hh]. unfold pushing in Hh. rewrite Hpc in Hh.
  split; [by apply listens_snoc|by apply arrivals_snoc|]. rewrite !snoc_omap. cbn.
  rewrite !app_nil_r in *. done.
Qed.

Lemma lanes_push receivers trace self c s r :
  NoDup receivers.*1 → lanes receivers trace self →
  Inbound.do_move (Inbound.Push c s) self = Some r → keeps receivers trace (Inbound.Push c s) r.
Proof.
  intros Hnd Hl. cbn [Inbound.do_move].
  destruct (Inbound.channels self !! c) as [ch|] eqn:Hch; [|done]. cbn [mbind option_bind].
  destruct (Channel.sockets ch !! s) as [socket|] eqn:Hs; [|done]. cbn [mbind option_bind].
  destruct (Socket.pc socket) as [|bytes|] eqn:Hpc; try done. unfold Inbound.push.
  destruct (lanes_lookup _ _ _ _ _ Hl Hch) as (id & ls & Hr & [Hid Hrx Hflow Hso Hend]).
  destruct (Mpsc.send _ _) as [rs|] eqn:Hsend; [|done]. cbn [mbind option_bind].
  destruct (queue_send_spec _ _ _ _ Hrx Hsend) as (q & -> & Hok & Hitems). cbn [fmap option_fmap option_map].
  intros [= <-]. eexists _, _. split; [done|].
  eapply (lanes_step _ _ _ _ _ c id ls ch); [done|done|done|done| | | | | |].
  - intros c'. unfold Inbound.set_socket, Inbound.set_channel. cbn.
    erewrite alter_lookup by (erewrite alter_lookup by exact Hch; by rewrite decide_True).
    destruct (decide (c' = c)); [reflexivity|]. erewrite alter_lookup by exact Hch.
    by rewrite decide_False.
  - apply (ls_inbound _ _ _ Hl).
  - done.
  - quietly.
  - done.
  - split; [done|done| | |].
    + rewrite !snoc_omap. cbn. rewrite decide_True by done. unfold rx_of, moving. cbn.
      rewrite Hitems, Hflow, app_nil_r. unfold moving, rx_of. by rewrite <- !app_assoc.
    + eapply sockets_step; [done|done| |quietly].
      intros l _ [Hlis Hw Hh]. unfold pushing in Hh. rewrite Hpc in Hh.
      split; [by apply listens_snoc|by apply arrivals_snoc|].
      rewrite !snoc_omap. cbn. rewrite decide_True by done. by rewrite Hh, !app_nil_r.
    + intros Hp. cbn in Hp. destruct (Hend Hp) as [Ha _].
      by rewrite (not_abandoned _ _ _ Ha Hs) in Hpc.
Qed.

(** A step of the merging task: the sockets do not notice. *)
Lemma lane_merging c id ls trace inbound inbound' ch st rx pc :
  lane c id ls trace inbound ch → (∀ s, quiet_socket c s st) → enqueued c st = None →
  received id st = None → queue_ok QUEUE_SIZE rx → Channel.pc ch ≠ Ended →
  (pc = Ended → Inbound.abandoned ch = true ∧ Mpsc.items rx = []) →
  of_id id inbound' ++ match pc with Moving bytes => [bytes] | _ => [] end ++ Mpsc.items rx
    = of_id id inbound ++ moving ch ++ Mpsc.items (rx_of ch) →
  lane c id ls (trace ++ [st]) inbound'
    (ch <| Channel.receiver ::= λ r, r <| ChannelReceiver.rx := rx |> |> <| Channel.pc := pc |>).
Proof.
  intros [Hid Hrx Hflow Hso Hend] Hq He Hr Hok Hne Hended Heq. split; [done|done| | |done].
  - rewrite !snoc_omap, He, Hr, !app_nil_r, Hflow. unfold moving at 2, rx_of at 2. cbn.
    by rewrite Heq.
  - intros s. specialize (Hso s). cbn. destruct (ls !! s), (Channel.sockets ch !! s); try done.
    cbn in *. by apply socket_quiet.
Qed.

Lemma lanes_merging receivers trace self self' c ch id ls st rx pc f :
  NoDup receivers.*1 → lanes receivers trace self →
  Inbound.channels self !! c = Some ch → receivers !! c = Some (id, ls) →
  Inbound.channels self' = alter f c (Inbound.channels self) →
  f ch = ch <| Channel.receiver ::= λ r, r <| ChannelReceiver.rx := rx |> |> <| Channel.pc := pc |> →
  queue_ok INBOUND_QUEUE (Inbound.inbound self') → queue_ok QUEUE_SIZE rx →
  Channel.pc ch ≠ Ended →
  (pc = Ended → Inbound.abandoned ch = true ∧ Mpsc.items rx = []) →
  (∃ new, labelled (Inbound.inbound self') = labelled (Inbound.inbound self) ++ ((id,.) <$> new)
    ∧ new ++ match pc with Moving bytes => [bytes] | _ => [] end ++ Mpsc.items rx
      = moving ch ++ Mpsc.items (rx_of ch)) →
  (∀ c' s, quiet_socket c' s st) → (∀ c', enqueued c' st = None) → (∀ id, received id st = None) →
  lanes receivers (trace ++ [st]) self'.
Proof.
  intros Hnd Hl Hch Hr Heq Hfch Hin Hrx Hne Hended (new & Hlab & Hnew) Hq He Hrec.
  assert (∀ i, of_id i ((id,.) <$> new) = if decide (i = id) then new else []) as Hof.
  { intros i. apply of_id_labels. }
  destruct (lanes_lookup _ _ _ _ _ Hl Hch) as (id' & ls' & Hr' & Hlane).
  rewrite Hr in Hr'. injection Hr' as <- <-.
  eapply (lanes_step _ _ _ _ _ c id ls ch); [done|done|done|done| |done| | |done|].
  - rewrite Heq. by apply alter_lookup.
  - intros i Hi. by rewrite Hlab, of_id_app, Hof, decide_False, app_nil_r.
  - by split.
  - rewrite Hfch. eapply lane_merging; [done..|]. rewrite Hlab, of_id_app, Hof, decide_True by done.
    by rewrite <- app_assoc, Hnew.
Qed.

Lemma lanes_take receivers trace self c r :
  NoDup receivers.*1 → lanes receivers trace self →
  Inbound.do_move (Inbound.Take c) self = Some r → keeps receivers trace (Inbound.Take c) r.
Proof.
  intros Hnd Hl. cbn [Inbound.do_move].
  destruct (Inbound.channels self !! c) as [ch|] eqn:Hch; [|done]. cbn [mbind option_bind].
  destruct (Channel.pc ch) eqn:Hpc; try done.
  destruct (lanes_lookup _ _ _ _ _ Hl Hch) as (id & ls & Hr & Hlane).
  unfold ChannelReceiver.recv. destruct (Mpsc.recv _) as [[bytes rx]|] eqn:Hrecv; [|done].
  cbn [mbind option_bind]. intros [= <-].
  destruct (queue_recv_spec _ _ _ _ (ln_rx _ _ _ _ _ _ Hlane) Hrecv) as [Hitems Hok].
  eexists _, _. split; [done|].
  eapply (lanes_merging _ _ self _ c ch id ls _ rx (Moving bytes));
    [done|done|done|done|done|done| |done|by rewrite Hpc|done| |quietly|done|done].
  - apply (ls_inbound _ _ _ Hl).
  - exists []. split; [by rewrite app_nil_r|]. unfold moving. by rewrite Hpc, Hitems.
Qed.

Lemma lanes_merge receivers trace self c r :
  NoDup receivers.*1 → lanes receivers trace self →
  Inbound.do_move (Inbound.Merge c) self = Some r → keeps receivers trace (Inbound.Merge c) r.
Proof.
  intros Hnd Hl. cbn [Inbound.do_move].
  destruct (Inbound.channels self !! c) as [ch|] eqn:Hch; [|done]. cbn [mbind option_bind].
  destruct (Channel.pc ch) as [|bytes|] eqn:Hpc; try done.
  destruct (lanes_lookup _ _ _ _ _ Hl Hch) as (id & ls & Hr & Hlane). unfold Inbound.merge.
  rewrite (ln_id _ _ _ _ _ _ Hlane).
  destruct (Mpsc.send _ _) as [rs|] eqn:Hsend; [|done]. cbn [mbind option_bind].
  destruct (queue_send_spec _ _ _ _ (ls_inbound _ _ _ Hl) Hsend) as (q & -> & Hok & Hitems).
  intros [= <-]. eexists _, _. split; [done|].
  eapply (lanes_merging _ _ self _ c ch id ls _ (rx_of ch) Waiting);
    [done|done|done|done|done|by destruct ch as [[] ? ?]|done|apply (ln_rx _ _ _ _ _ _ Hlane)
    |by rewrite Hpc|done| |quietly|done|done].
  exists [bytes]. unfold labelled. cbn. rewrite Hitems, fmap_app. split; [done|].
  unfold moving. by rewrite Hpc.
Qed.

Lemma lanes_finish receivers trace self c r :
  NoDup receivers.*1 → lanes receivers trace self →
  Inbound.do_move (Inbound.Finish c) self = Some r → keeps receivers trace (Inbound.Finish c) r.
Proof.
  intros Hnd Hl. cbn [Inbound.do_move].
  destruct (Inbound.channels self !! c) as [ch|] eqn:Hch; [|done]. cbn [mbind option_bind].
  destruct (Channel.pc ch) eqn:Hpc; try done.
  destruct (lanes_lookup _ _ _ _ _ Hl Hch) as (id & ls & Hr & Hlane).
  unfold ChannelReceiver.recv, Mpsc.recv.
  destruct (Mpsc.items (ChannelReceiver.rx (Channel.receiver ch))) as [|b bs] eqn:Hitems; [|done].
  cbn [mbind option_bind]. destruct (Inbound.abandoned ch) eqn:Ha; [|done]. intros [= <-].
  eexists _, _. split; [done|].
  eapply (lanes_merging _ _ self _ c ch id ls _ (rx_of ch) Ended);
    [done|done|done|done|done|by destruct ch as [[] ? ?]| |apply (ln_rx _ _ _ _ _ _ Hlane)
    |by rewrite Hpc|done| |quietly|done|done].
  - apply (ls_inbound _ _ _ Hl).
  - exists []. split; [by rewrite app_nil_r|]. unfold moving. by rewrite Hpc.
Qed.

Lemma lanes_receive receivers trace self r :
  lanes receivers trace self → Inbound.do_move Inbound.Receive self = Some r →
  keeps receivers trace Inbound.Receive r.
Proof.
  intros Hl. cbn [Inbound.do_move]. destruct (Mpsc.recv _) as [[packet q]|] eqn:Hr; [|done].
  destruct (queue_recv_spec _ _ _ _ (ls_inbound _ _ _ Hl) Hr) as [Hitems Hok]. cbn [mbind option_bind].
  intros [= <-]. eexists _, _. split; [done|]. split; [done|]. intros c.
  change (Inbound.channels (self <| Inbound.inbound := q |>)) with (Inbound.channels self).
  pose proof (ls_lanes _ _ _ Hl c) as Hc.
  destruct (receivers !! c) as [[id ls]|], (Inbound.channels self !! c) as [ch|]; try done.
  cbn in Hc |- *. destruct Hc as [Hid Hrx Hflow Hso Hend]. split; [done|done| | |done].
  - rewrite !snoc_omap. unfold labelled in Hflow. rewrite Hitems, fmap_app, of_id_app in Hflow.
    cbn [option_list enqueued snd]. rewrite app_nil_r, Hflow, <- !app_assoc. f_equal.
    cbn. by destruct (decide (ITP.channel_id packet = id)).
  - intros s. specialize (Hso s). destruct (ls !! s), (Channel.sockets ch !! s); try done.
    cbn in *. by apply socket_quiet.
Qed.

Lemma lanes_move receivers trace self m r :
  NoDup receivers.*1 → lanes receivers trace self → imove_ok m →
  Inbound.do_move m self = Some r → keeps receivers trace m r.
Proof.
  intros Hnd Hl Hok. destruct m; [by apply lanes_arrive|by apply lanes_tick|by apply lanes_error
    |by apply lanes_push|by apply lanes_take|by apply lanes_merge|by apply lanes_finish
    |by apply lanes_receive].
Qed.

(** *** Runs *)

Definition fresh (receivers : list (ChannelId * list (Listener SocketAddr))) : Prop :=
  NoDup receivers.*1 ∧ Forall (λ r, Forall fresh_listener r.2) receivers.

Lemma fresh_listener_listens c s l : fresh_listener l → listens c s l [] l.
Proof.
  destruct 1 as [|destinations channel_key r Hr]; [done|].
  unfold ReverseReceiver.new in Hr. case_decide; [done|]. injection Hr as <-.
  split; [done|]. intros peer nonce. cbn. by rewrite lookup_empty.
Qed.

Lemma new_lanes receivers : fresh receivers → lanes receivers [] (Inbound.new receivers).
Proof.
  intros [_ Hf]. split; [by apply channel_ok|]. intros c. cbn. rewrite list_lookup_fmap.
  destruct (receivers !! c) as [[id ls]|] eqn:E; [|done]. cbn.
  rewrite Forall_lookup in Hf. specialize (Hf _ _ E). rewrite Forall_lookup in Hf.
  split; [done|by apply channel_ok|done| |done].
  intros s. cbn. rewrite list_lookup_fmap. destruct (ls !! s) as [l|] eqn:El; [|done]. cbn.
  split; [apply fresh_listener_listens; by apply (Hf s)| |done].
  intros [] ? ?; by intros [=].
Qed.

Lemma lanes_run receivers moves : ∀ trace self r,
  NoDup receivers.*1 → lanes receivers trace self → Forall imove_ok moves →
  Inbound.run moves self = Some r →
  ∃ trace' self', r = Ret (trace', self') ∧ trace'.*1 = moves
    ∧ lanes receivers (trace ++ trace') self'.
Proof.
  induction moves as [|m moves IH]; intros trace self r Hnd Hl Hok Hrun; cbn [Inbound.run] in Hrun.
  { injection Hrun as <-. exists [], self. by rewrite app_nil_r. }
  apply Forall_cons in Hok as [Hm Hok].
  destruct (Inbound.do_move m self) as [rm|] eqn:Hmove; [|done].
  destruct (lanes_move _ _ _ _ _ Hnd Hl Hm Hmove) as (o & self1 & -> & Hl1).
  cbn [mbind option_bind] in Hrun.
  destruct (Inbound.run moves self1) as [r1|] eqn:Hrest; [|done]. cbn [mbind option_bind] in Hrun.
  destruct (IH _ self1 r1 Hnd Hl1 Hok Hrest) as (trace' & self' & -> & Hfst & Hl').
  injection Hrun as <-. exists ((m, o) :: trace'), self'. split; [done|].
  split; [by cbn; rewrite Hfst|]. by rewrite <- app_assoc in Hl'.
Qed.

(** The tasks between the sockets and the core. *)
Definition internal (m : Inbound.Move SocketAddr) : Prop :=
  match m with
  | Inbound.Push _ _ | Inbound.Take _ | Inbound.Merge _ | Inbound.Receive => True
  | _ => False
  end.

(** Nothing held, nothing queued. *)
Definition drained (self : IB) : Prop :=
  Mpsc.items (Inbound.inbound self) = []
  ∧ ∀ c ch, Inbound.channels self !! c = Some ch →
      moving ch = [] ∧ Mpsc.items (rx_of ch) = []
      ∧ ∀ s socket, Channel.sockets ch !! s = Some socket → pushing socket = [].

(** A channel that holds something can move, or the core can receive. *)
Lemma lane_progress receivers trace self c ch :
  lanes receivers trace self → Inbound.channels self !! c = Some ch →
  moving ch ≠ [] ∨ Mpsc.items (rx_of ch) ≠ [] →
  ∃ m, internal m ∧ is_Some (Inbound.do_move m self).
Proof.
  intros Hl Hch Hbusy. destruct (lanes_lookup _ _ _ _ _ Hl Hch) as (id & ls & _ & Hlane).
  destruct (ls_inbound _ _ _ Hl) as [Ho Hc _]. unfold moving in Hbusy.
  destruct (Channel.pc ch) as [|bytes|] eqn:Hpc.
  - exists (Inbound.Take c). split; [done|]. cbn [Inbound.do_move]. rewrite Hch. cbn [mbind option_bind].
    rewrite Hpc. unfold ChannelReceiver.recv, Mpsc.recv. destruct Hbusy as [|Hb]; [done|].
    unfold rx_of in Hb. destruct (Mpsc.items _); [done|]. by eexists.
  - destruct (Mpsc.items (Inbound.inbound self)) as [|p ps] eqn:Hin.
    + exists (Inbound.Merge c). split; [done|]. cbn [Inbound.do_move]. rewrite Hch. cbn [mbind option_bind].
      rewrite Hpc. unfold Inbound.merge, Mpsc.send. rewrite Ho, Hc, Hin. by eexists.
    + exists Inbound.Receive. split; [done|]. cbn [Inbound.do_move]. unfold Mpsc.recv.
      rewrite Hin. by eexists.
  - destruct (ln_ended _ _ _ _ _ _ Hlane Hpc) as [_ Hnil]. by destruct Hbusy.
Qed.

Lemma inbound_progress receivers trace self :
  lanes receivers trace self → drained self ∨ ∃ m, internal m ∧ is_Some (Inbound.do_move m self).
Proof.
  intros Hl. destruct (Mpsc.items (Inbound.inbound self)) as [|p ps] eqn:Hin.
  2:{ right. exists Inbound.Receive. split; [done|]. cbn [Inbound.do_move]. unfold Mpsc.recv.
      rewrite Hin. by eexists. }
  destruct (decide (Exists (λ ch, ¬ (moving ch = [] ∧ Mpsc.items (rx_of ch) = []
    ∧ Forall (λ socket, pushing socket = []) (Channel.sockets ch))) (Inbound.channels self)))
    as [(ch & [c Hch]%list_elem_of_lookup_1 & Hbusy)%Exists_exists|Hno].
  - right. destruct (decide (moving ch = [] ∧ Mpsc.items (rx_of ch) = [])) as [[Hm Hi]|Hb].
    2:{ eapply lane_progress; [done|done|]. destruct (moving ch), (Mpsc.items (rx_of ch)); naive_solver. }
    assert (Exists (λ socket, pushing socket ≠ []) (Channel.sockets ch))
      as (socket & [s Hs]%list_elem_of_lookup_1 & Hp)%Exists_exists.
    { apply not_Forall_Exists; [intros ?; apply _|]. naive_solver. }
    destruct (lanes_lookup _ _ _ _ _ Hl Hch) as (id & ls & _ & [_ [Ho Hc _] _ _ _]).
    exists (Inbound.Push c s). split; [done|]. cbn [Inbound.do_move]. rewrite Hch. cbn [mbind option_bind].
    rewrite Hs. cbn [mbind option_bind]. unfold pushing in Hp.
    destruct (Socket.pc socket); try done. unfold Inbound.push, Mpsc.send.
    unfold rx_of in *. rewrite Ho, Hc, Hi. by eexists.
  - left. split; [done|]. intros c ch Hch. apply not_Exists_Forall in Hno; [|intros ?; apply _].
    rewrite Forall_lookup in Hno. specialize (Hno c ch Hch). apply dec_stable in Hno as (Hm & Hi & Hp).
    rewrite Forall_lookup in Hp. done.
Qed.

(** C31: Every datagram that is no answer to a probe reaches the core under the
    id of its channel.  For any receivers with distinct ids (ids are unique
    within a node by DESIGN.md; main checks it of senders only) and newly made listeners, and in whatever
    order their tasks, the core and the peers act, no task panics; a socket's task goes
    on with every datagram except authentic answers to a probe it sent to that
    peer; what it went on with has entered the channel's queue in order, but for
    one it may hold; what has entered the queue is, in order, what the core
    received under the channel's id followed by what is under way; no queue
    outgrows its bound, and unless nothing is under way some task can move. *)
Theorem datagrams_reach_the_core receivers moves r :
  fresh receivers → Forall imove_ok moves →
  Inbound.run moves (Inbound.new receivers) = Some r →
  ∃ trace self, r = Ret (trace, self) ∧ trace.*1 = moves
    ∧ len (Mpsc.items (Inbound.inbound self)) <= INBOUND_QUEUE
    ∧ (drained self ∨ ∃ m, internal m ∧ is_Some (Inbound.do_move m self))
    ∧ ∀ c id ls, receivers !! c = Some (id, ls) →
        ∃ ch, Inbound.channels self !! c = Some ch
          ∧ len (Mpsc.items (rx_of ch)) <= QUEUE_SIZE
          ∧ omap (enqueued c) trace
            = omap (received id) trace ++ of_id id (labelled (Inbound.inbound self))
              ++ moving ch ++ Mpsc.items (rx_of ch)
          ∧ ∀ s l, ls !! s = Some l →
              ∃ socket, Channel.sockets ch !! s = Some socket
                ∧ arrivals_ok c s l trace
                ∧ omap (heard c s) trace = omap (enqueued_by c s) trace ++ pushing socket.
Proof.
  intros Hfresh Hok Hrun.
  destruct (lanes_run receivers moves [] _ r (proj1 Hfresh) (new_lanes receivers Hfresh) Hok Hrun)
    as (trace & self & -> & Hfst & Hl). cbn [app] in Hl.
  exists trace, self. split; [done|]. split; [done|].
  split; [apply (ls_inbound _ _ _ Hl)|]. split; [by eapply inbound_progress|].
  intros c id ls Hr. pose proof (ls_lanes _ _ _ Hl c) as Hc. rewrite Hr in Hc.
  destruct (Inbound.channels self !! c) as [ch|]; [|done]. cbn in Hc.
  destruct Hc as [_ [_ _ Hlen] Hflow Hso _]. exists ch. split_and!; [done|done|done|].
  intros s l Hls. specialize (Hso s). rewrite Hls in Hso.
  destruct (Channel.sockets ch !! s) as [socket|]; [|done]. exists socket.
  by destruct Hso as [_ Ha Hh].
Qed.

End inbound.

(** ** Concrete runs *)

#[local] Existing Instance toy_keyed.
#[local] Existing Instance toy_keyed_spec.
#[local] Existing Instance toy_order.
#[local] Existing Instance toy_order_spec.

(** A forward channel 1 and a reverse channel 2. *)
Definition demo_plugins : gmap ChannelId (Plugin Z) :=
  {[1 := Forward (ForwardUdp.Build_t 1 [9]); 2 := Reverse (ReverseSender.Build_t (vec 32 3) 1 ∅)]}.

Lemma demo_started : map_Forall (λ _, started) demo_plugins.
Proof.
  apply map_Forall_insert_2; [|apply map_Forall_singleton].
  - by apply (started_forward [100] [9]).
  - by apply (started_reverse [100] (vec 32 3)).
Qed.

(** A packet leaves, one is refused by the socket, one has no path until a peer
    proves that it is there, and one is for no channel. *)
Definition demo_moves : list (Outbound.Move Z) :=
  let send id bytes := Outbound.Send (OTP.Build_t id bytes) in
  [send 1 [10]; send 1 [11]; send 2 [20]; send 2 [21]; send 3 [30];
   Outbound.Turn 1 (Chance.Build_t 1 5 6 true); Outbound.Turn 1 (Chance.Build_t 2 5 6 false);
   Outbound.Turn 2 (Chance.Build_t 3 0 0 true); Outbound.Report 2; Outbound.Report 1;
   Outbound.Datagram 2 0 7 (probe_of (vec 32 3) (vec 16 1)) (vec 16 2) true 4;
   Outbound.TakeFailure; Outbound.Turn 2 (Chance.Build_t 5 0 0 true)].

Lemma demo_moves_ok : Forall (move_ok demo_plugins) demo_moves.
Proof.
  repeat (apply Forall_cons; split; [first [exact I|idtac]|]); [|apply Forall_nil; done].
  split; [reflexivity|]. intros s Hs.
  assert (demo_plugins !! 2 = Some (Reverse (ReverseSender.Build_t (vec 32 3) 1 ∅))) as E
    by reflexivity.
  rewrite E in Hs. injection Hs as <-. cbn. lia.
Qed.

Definition default_out : list (Outbound.Move Z * Outbound.Output Z) * Outbound.t Z :=
  ([], Outbound.new ∅).

(** What a run computes. *)
Definition outcome_of {A} (d : A) (r : option (comp A)) : A :=
  match r with Some (Ret a) => a | _ => d end.

Lemma outcome_of_eq {A} (d : A) r :
  match r with Some (Ret _) => true | _ => false end = true → r = Some (Ret (outcome_of d r)).
Proof. by destruct r as [[]|]. Qed.

Definition demo_out : list (Outbound.Move Z * Outbound.Output Z) * Outbound.t Z :=
  outcome_of default_out (Outbound.run demo_moves (Outbound.new demo_plugins)).

Lemma demo_out_run :
  Outbound.run demo_moves (Outbound.new demo_plugins) = Some (Ret demo_out).
Proof. apply outcome_of_eq. vm_compute. reflexivity. Qed.

(** What the run shows. *)
Definition shown_out (o : list (Outbound.Move Z * Outbound.Output Z) * Outbound.t Z) : Prop :=
  omap (handled 1) o.1 = [SentTo 0 9 [10]; SendFailed [11]]
  ∧ omap (handled 2) o.1 = [SendFailed [20]; SentTo 0 7 [21]]
  ∧ omap (noticed 2) o.1 = [[20]]
  ∧ of_id 1 (Mpsc.items (Outbound.failures o.2)) = [[11]].

Lemma demo_out_shown : shown_out demo_out.
Proof. by vm_compute. Qed.

Lemma channels_lose_nothing_witness :
  ∃ o, Outbound.run demo_moves (Outbound.new demo_plugins) = Some (Ret o)
    ∧ behaves 2 (Reverse (ReverseSender.Build_t (vec 32 3) 1 ∅)) o.1 ∧ shown_out o.
Proof.
  destruct (channels_lose_nothing demo_plugins demo_moves (Ret demo_out))
    as (trace & self & Heq & _ & _ & _ & Hch).
  - exact demo_started.
  - exact demo_moves_ok.
  - repeat (constructor; [|cbn; repeat (constructor; [lia|]); constructor]). constructor.
  - exact demo_out_run.
  - apply Ret_inj in Heq. exists demo_out. split; [exact demo_out_run|].
    split; [|exact demo_out_shown]. rewrite Heq.
    exact (proj1 (Hch 2 (Reverse (ReverseSender.Build_t (vec 32 3) 1 ∅)) eq_refl)).
Defined.

(** A plain channel 1 with two sockets and a challenging channel 2. *)
Definition demo_receivers : list (ChannelId * list (Listener Z)) :=
  [(1, [Plain; Plain]); (2, [Challenging (ReverseReceiver.Build_t (vec 32 3) [9] ∅)])].

Lemma demo_fresh : fresh demo_receivers.
Proof.
  split; [apply NoDup_cons; split; [set_solver|apply NoDup_singleton]|].
  repeat constructor. by apply (fresh_challenging [9] (vec 32 3)).
Qed.

(** Two sockets of a channel in turn, a probe, its answer, a copy of the answer,
    and a socket that fails. *)
Definition demo_imoves : list (Inbound.Move Z) :=
  let answer := response_of (vec 32 3) (vec 16 0) (vec 16 5) in
  [Inbound.Arrive 0 0 70 [1]; Inbound.Arrive 0 1 71 [2]; Inbound.Push 0 1; Inbound.Push 0 0;
   Inbound.Take 0; Inbound.Merge 0; Inbound.Tick 1 0 (λ _, vec 16 0); Inbound.Arrive 1 0 9 answer;
   Inbound.Arrive 1 0 9 answer; Inbound.Push 1 0; Inbound.Take 1; Inbound.Merge 1;
   Inbound.SocketError 1 0; Inbound.Finish 1; Inbound.Receive; Inbound.Take 0].

Definition default_in : list (Inbound.Move Z * Inbound.Output Z) * Inbound.t Z :=
  ([], Inbound.new []).

Definition demo_in : list (Inbound.Move Z * Inbound.Output Z) * Inbound.t Z :=
  outcome_of default_in (Inbound.run demo_imoves (Inbound.new demo_receivers)).

Lemma demo_in_run : Inbound.run demo_imoves (Inbound.new demo_receivers) = Some (Ret demo_in).
Proof. apply outcome_of_eq. vm_compute. reflexivity. Qed.

Definition shown_in (o : list (Inbound.Move Z * Inbound.Output Z) * Inbound.t Z) : Prop :=
  let answer := response_of (vec 32 3) (vec 16 0) (vec 16 5) in
  omap (enqueued 0) o.1 = [[2]; [1]] ∧ omap (received 1) o.1 = [[2]]
  ∧ omap (heard 1 0) o.1 = [answer] ∧ of_id 2 (labelled (Inbound.inbound o.2)) = [answer].

Lemma demo_in_shown : shown_in demo_in.
Proof. by vm_compute. Qed.

Lemma datagrams_reach_the_core_witness :
  ∃ o, Inbound.run demo_imoves (Inbound.new demo_receivers) = Some (Ret o)
    ∧ (drained o.2 ∨ ∃ m, internal m ∧ is_Some (Inbound.do_move m o.2)) ∧ shown_in o.
Proof.
  destruct (datagrams_reach_the_core demo_receivers demo_imoves (Ret demo_in))
    as (trace & self & Heq & _ & _ & Hprog & _).
  - exact demo_fresh.
  - repeat constructor.
  - exact demo_in_run.
  - apply Ret_inj in Heq. exists demo_in. split; [exact demo_in_run|].
    split; [|exact demo_in_shown]. rewrite Heq. exact Hprog.
Defined.
