(* ===== verification/ForwardOut.v ===== *)
(** * The task between the core and the channels

    [forward_out] of remote.rs against the queues and workers of [Outbound]: it
    hands the packets of a batch to the channels one by one, waiting where a
    queue is full, and looks at the queue of failures only between batches
    (first, because its [select!] is biased).  What it does with a packet that
    comes back or a failure is a call of the core, which the channels do not
    notice.

    The two waits can meet: [forwarding_jams] and [forward_out_jams]. *)

From stdpp Require Import gmap.
From S2P Require Import Prelude Bytes Core UdpChannel UdpChannelFacts Runtime Channel ChannelFacts.

Module ForwardOut.
Section forward.
Context `{Blake3Keyed, Countable SocketAddr, !KeyOrder (Z * SocketAddr)}.

Record t := { batch : list OTP.t; outbound : Outbound.t SocketAddr }.

#[global] Instance eta_ForwardOut : Eta t := λ s, Build_t (batch s) (outbound s).

(** What the task does: [failures.recv()], a batch of [rx.recv()] and
    [rx.try_recv()], [channels.send(packet)]; and the moves of the workers. *)
Inductive Move : Type :=
  | Notice
  | TakeBatch (packets : list OTP.t)
  | Hand
  | Turn (channel_id : ChannelId) (c : Chance.t)
  | Report (channel_id : ChannelId)
  | Datagram (channel_id : ChannelId) (socket : Z) (peer : SocketAddr) (bytes nonce : list Z)
      (sent_ok : bool) (now : Z).

(** A move of the channels. *)
Definition channels_do (m : Outbound.Move SocketAddr) (batch : list OTP.t) (self : t)
    : option (comp t) :=
  r ← Outbound.do_move m (outbound self);
  Some ('(_, o) ← r; Ret (Build_t batch o)).

Definition do_move (m : Move) (self : t) : option (comp t) :=
  match m, batch self with
  | Notice, [] => channels_do Outbound.TakeFailure [] self
  | TakeBatch packets, [] =>
      match Mpsc.items (Outbound.failures (outbound self)) with
      | [] => if (1 <=? len packets) && (len packets <=? PACKET_BATCH_SIZE)
              then Some (Ret (self <| batch := packets |>)) else None
      | _ => None
      end
  | Hand, packet :: rest => channels_do (Outbound.Send packet) rest self
  | Turn id c, batch => channels_do (Outbound.Turn id c) batch self
  | Report id, batch => channels_do (Outbound.Report id) batch self
  | Datagram id socket peer bytes nonce sent_ok now, batch =>
      channels_do (Outbound.Datagram id socket peer bytes nonce sent_ok now) batch self
  | _, _ => None
  end.

Fixpoint run (moves : list Move) (self : t) : option (comp t) :=
  match moves with
  | [] => Some (Ret self)
  | m :: moves =>
      r ← do_move m self;
      match r with
      | Ret self => run moves self
      | Panic => Some Panic
      | NoFuel => Some NoFuel
      end
  end.

End forward.
Arguments t SocketAddr {_ _}.
Arguments Move : clear implicits.
End ForwardOut.

Section jam.
Context `{Blake3Keyed, Countable SocketAddr, !KeyOrder (Z * SocketAddr)}.

Abbreviation FO := (ForwardOut.t SocketAddr).

Definition full {A} (q : Mpsc.t A) : Prop :=
  Mpsc.open q = true ∧ Mpsc.capacity q <= len (Mpsc.items q).

Lemma full_waits {A} (q : Mpsc.t A) x : full q → Mpsc.send q x = None.
Proof. intros [Ho Hl]. unfold Mpsc.send. rewrite Ho. cbn [negb]. by rewrite (proj2 (Z.ltb_ge _ _)). Qed.

(** The task waits for room in the queue of a channel; the channel's worker has a
    failure to report and waits for room in the queue of failures. *)
Definition jammed (packet : OTP.t) (rest : list OTP.t) (self : FO) : Prop :=
  ForwardOut.batch self = packet :: rest
  ∧ full (Outbound.failures (ForwardOut.outbound self))
  ∧ ∃ w, Outbound.senders (ForwardOut.outbound self) !! OTP.channel_id packet = Some w
      ∧ is_Some (Worker.reporting w) ∧ full (ChannelSender.tx (Worker.sender w)).

Lemma jam_keeps packet rest self self' id w' :
  jammed packet rest self → ForwardOut.batch self' = packet :: rest →
  Outbound.failures (ForwardOut.outbound self') = Outbound.failures (ForwardOut.outbound self) →
  Outbound.senders (ForwardOut.outbound self')
    = <[id := w']> (Outbound.senders (ForwardOut.outbound self)) →
  (∀ w, Outbound.senders (ForwardOut.outbound self) !! id = Some w → OTP.channel_id packet = id →
     Worker.reporting w' = Worker.reporting w ∧ Worker.sender w' = Worker.sender w) →
  jammed packet rest self'.
Proof.
  intros (_ & Hf & w & Hw & Hr & Hq) Hb Hfail Hs Hsame. split; [done|]. rewrite Hfail, Hs.
  split; [done|]. destruct (decide (OTP.channel_id packet = id)) as [<-|Hne].
  - exists w'. rewrite lookup_insert_eq. destruct (Hsame w Hw eq_refl) as [-> ->]. done.
  - exists w. by rewrite lookup_insert_ne.
Qed.

Lemma forwarding_jam_move packet rest m self self' :
  ForwardOut.do_move m self = Some (Ret self') → jammed packet rest self →
  jammed packet rest self'
  ∧ match m with ForwardOut.Turn _ _ | ForwardOut.Datagram _ _ _ _ _ _ _ => True | _ => False end.
Proof.
  intros Hm Hj. pose proof Hj as (Hb & Hf & w & Hw & Hr & Hq). revert Hm.
  destruct m as [|packets| |id c|id|id socket peer bytes nonce sent_ok now];
    cbn [ForwardOut.do_move]; rewrite ?Hb; try done; unfold ForwardOut.channels_do;
    cbn [Outbound.do_move].
  - unfold Outbound.send, ChannelSender.send. rewrite Hw, full_waits by done. done.
  - destruct (Outbound.senders _ !! id) as [w0|] eqn:Hw0; [|done]. cbn [mbind option_bind].
    destruct (Worker.turn w0 c) as [r|] eqn:Ht; [|done]. cbn [mbind option_bind].
    destruct r as [[sent w']| |]; try done. cbn [mbind comp_bind]. intros [= <-]. split; [|done].
    eapply (jam_keeps _ _ self); [done|done|done|done|]. intros w1 Hw1 <-.
    rewrite Hw in Hw0. injection Hw0 as <-. unfold Worker.turn in Ht.
    by destruct (Worker.reporting w); [|destruct Hr].
  - unfold Outbound.report. destruct (Outbound.senders _ !! id) as [w0|]; [|done]. cbn [mbind option_bind].
    destruct (Worker.reporting w0); [|done]. cbn [mbind option_bind]. by rewrite full_waits by done.
  - destruct (Outbound.senders _ !! id) as [w0|] eqn:Hw0; [|done]. cbn [mbind option_bind].
    destruct (Worker.plugin w0); [done|]. cbn [mbind option_bind].
    destruct (ReverseSender.receive _ _ _ _ _ _ _) as [[response s']| |]; try done.
    cbn [mbind comp_bind]. intros [= <-]. split; [|done].
    eapply (jam_keeps _ _ self); [done|done|done|done|]. intros w1 Hw1 _. by simplify_eq.
Qed.

(** A jam lasts: whatever the workers and the peers do from then on, the task
    hands on no packet and takes no failure, and the core, whose packets it is
    the only one to take, sends nothing any more. *)
Theorem forwarding_jams packet rest moves : ∀ self self' : FO,
  jammed packet rest self → ForwardOut.run moves self = Some (Ret self') →
  jammed packet rest self'
  ∧ Forall (λ m, m ≠ ForwardOut.Hand ∧ m ≠ ForwardOut.Notice
                 ∧ ∀ packets, m ≠ ForwardOut.TakeBatch packets) moves.
Proof.
  induction moves as [|m moves IH]; intros self self' Hj Hr; cbn [ForwardOut.run] in Hr.
  { injection Hr as <-. by split. }
  destruct (ForwardOut.do_move m self) as [[self1| |]|] eqn:Hm; try done. cbn [mbind option_bind] in Hr.
  destruct (forwarding_jam_move packet rest m self self1 Hm Hj) as [Hj1 Hkind].
  destruct (IH self1 self' Hj1 Hr) as [Hj' Hall]. split; [done|]. constructor; [|done]. by destruct m.
Qed.

Definition fullb {A} (q : Mpsc.t A) : bool := Mpsc.open q && (Mpsc.capacity q <=? len (Mpsc.items q)).

Definition jammedb (self : FO) : bool :=
  match ForwardOut.batch self with
  | [] => false
  | packet :: _ =>
      fullb (Outbound.failures (ForwardOut.outbound self))
      && match Outbound.senders (ForwardOut.outbound self) !! OTP.channel_id packet with
         | Some w => bool_decide (is_Some (Worker.reporting w))
                     && fullb (ChannelSender.tx (Worker.sender w))
         | None => false
         end
  end.

Lemma fullb_spec {A} (q : Mpsc.t A) : fullb q = true → full q.
Proof. intros [Ho Hl]%andb_true_iff. split; [done|by apply Z.leb_le]. Qed.

Lemma jammedb_spec self :
  jammedb self = true → ∃ packet rest, jammed packet rest self.
Proof.
  unfold jammedb. destruct (ForwardOut.batch self) as [|packet rest] eqn:Hb; [done|].
  intros [Hf Hs]%andb_true_iff. exists packet, rest. split; [done|]. split; [by apply fullb_spec|].
  destruct (Outbound.senders _ !! _) as [w|]; [|done].
  apply andb_true_iff in Hs as [Hr Hq]. exists w. split; [done|].
  apply bool_decide_eq_true_1 in Hr.
  split; [done|by apply fullb_spec].
Qed.

End jam.

(** ** A run that jams *)

#[local] Existing Instance toy_keyed.
#[local] Existing Instance toy_order.

(** Two reverse channels without a live peer: every packet fails. *)
Definition lonely (channels : list ChannelId) : ForwardOut.t Z :=
  ForwardOut.Build_t []
    (Outbound.new (list_to_map
      ((λ id, (id, Reverse (ReverseSender.Build_t (vec 32 3) 1 ∅))) <$> channels))).

Definition to_channel (id : ChannelId) : OTP.t := OTP.Build_t id [].

(** A batch for one channel that its queue has room for. *)
Definition fill (id : ChannelId) : list (ForwardOut.Move Z) :=
  ForwardOut.TakeBatch (replicate 64 (to_channel id)) :: replicate 64 ForwardOut.Hand.

Definition fails (id : ChannelId) : list (ForwardOut.Move Z) :=
  [ForwardOut.Turn id (Chance.Build_t 0 0 0 true); ForwardOut.Report id].

(** Both queues fill before their workers get to run; then, during the next
    batch, the failures of the first fill the queue of failures. *)
Definition until_jammed : list (ForwardOut.Move Z) :=
  concat (replicate 4 (fill 1)) ++ concat (replicate 4 (fill 2))
  ++ [ForwardOut.TakeBatch [to_channel 2; to_channel 2]]
  ++ concat (replicate 256 (fails 1))
  ++ [ForwardOut.Turn 2 (Chance.Build_t 0 0 0 true); ForwardOut.Hand].

Fact forward_out_jams :
  ∃ self packet rest, ForwardOut.run until_jammed (lonely [1; 2]) = Some (Ret self)
    ∧ jammed packet rest self.
Proof.
  assert (match ForwardOut.run until_jammed (lonely [1; 2]) with
          | Some (Ret self) => jammedb self | _ => false end = true) as Hb
    by (vm_compute; reflexivity).
  destruct (ForwardOut.run until_jammed (lonely [1; 2])) as [[self| |]|]; try discriminate.
  destruct (jammedb_spec self Hb) as (packet & rest & Hj). by exists self, packet, rest.
Qed.
