(* ===== verification/Startup.v ===== *)
(** * Startup of a node

    raynet-shell's [main.rs], with the channel section of [config.rs], the clock
    of [utils.rs], and [relay::run] and [endpoint::run] up to the tasks they
    spawn (those are [Runtime] and [Channel]).  What the operating system and the
    parsers of the command line and of the file answer is the class [System];
    [io] is a computation that asks it, may leave with an [io::Error] and may
    panic.  Logging and the allocator are left out. *)

From stdpp Require Import strings.
From S2P Require Import Prelude Bytes Core Sequence Crypto Routing Relay Endpoint Config.
From S2P Require Import UdpChannel Runtime Channel.

(** ** Computations that ask the system *)

Definition io (W E A : Type) : Type := W → comp (result E A * W).

#[global] Instance io_ret W E : MRet (io W E) := λ A a w, Ret (Ok a, w).
#[global] Instance io_bind W E : MBind (io W E) := λ A B f m w,
  '(r, w) ← m w;
  match r with Ok a => f a w | Err e => Ret (Err e, w) end.

Definition lift {W E A} (m : comp A) : io W E A := λ w, a ← m; Ret (Ok a, w).

Definition ask {W E A} (f : W → A * W) : io W E A := λ w, let '(a, w) := f w in Ret (Ok a, w).

(** [f(..).await?] and [f(..)?] *)
Definition attempt {W E A} (f : W → result E A * W) : io W E A := λ w, Ret (f w).

(** [for x in l { b }] *)
Fixpoint io_for_each {W E A S} (l : list A) (b : A → S → io W E S) (s : S) : io W E S :=
  match l with
  | [] => mret s
  | x :: l => s ← b x s; io_for_each l b s
  end.

(** ** Configuration *)

Module HostPorts.
Record t := { host : string; ports : list Z }.
End HostPorts.

Inductive ChannelConfig : Type :=
  | Tx (id : ChannelId) (bind destination : HostPorts.t)
  | Rx (id : ChannelId) (bind : HostPorts.t)
  | RevTx (id : ChannelId) (bind : HostPorts.t)
  | RevRx (id : ChannelId) (bind destination : HostPorts.t).

Module FileConfig.
Record t := {
  endpoint : option bool;
  listen : option string;
  relay_key : option string;
  endpoint_key : option string;
  core : CoreFileConfig.t;
  route : option (list REC.t);
  channels : list ChannelConfig;
}.

Definition default : t :=
  Build_t None None None None CoreFileConfig.default_config None [].
End FileConfig.

Module CliConfig.
Record t := {
  endpoint : bool;
  listen : option string;
  relay_key : option string;
  endpoint_key : option string;
  config : option string;
}.
End CliConfig.

(** ** The system *)

(** [ToSocketAddrs], [SocketAddr], sockets, the file read and parsed ([None]:
    either failed), the clocks (nanoseconds; [system_time] since the epoch,
    [instant_now] since some start) and [rand]. *)
Class System (W E SocketAddr : Type) : Type := {
  IpAddr : Type;
  addr_ip : SocketAddr → IpAddr;
  addr_new : IpAddr → Z → SocketAddr;
  resolve_host (host : string) (port : Z) : W → result E (list SocketAddr) * W;
  no_address : E;
  resolve_addr (addr : string) : W → result E (list SocketAddr) * W;
  bind_udp (addr : SocketAddr) : W → result E unit * W;
  bind_tcp (addr : SocketAddr) : W → result E unit * W;
  read_config (path : string) : W → option FileConfig.t * W;
  system_time : W → Z * W;
  instant_now : W → Z * W;
  random_seed : W → list Z * W;
}.

(** [map.or(default)] of options. *)
Definition or {A} (a b : option A) : option A := match a with Some _ => a | None => b end.

(** ** utils.rs *)

Module CoreClock.
Record t := { boot_time_ms : Z; started_at : Z }.

(** [Duration::as_millis() as u64] *)
Definition as_millis (nanos : Z) : Z := wrap 64 (nanos / 1000000).

(** [now_millis], with its [expect]. *)
Definition now_millis (system_time : Z) : comp Z :=
  if system_time <? 0 then Panic else Ret (as_millis system_time).

Definition new `{System W E SocketAddr} : io W E t :=
  time ← ask system_time;
  boot_time_ms ← lift (now_millis time);
  started_at ← ask instant_now;
  mret (Build_t boot_time_ms started_at).

Definition elapsed_ms (self : t) (now : Z) : Z := as_millis ((now - started_at self) `max` 0).
End CoreClock.

Section startup.
Context `{Aegis128L, Blake3, HashIter, Blake3Keyed}.
Context `{Countable SocketAddr, !KeyOrder (Z * SocketAddr), Sys : !System W E SocketAddr}.

Abbreviation plugin := (Plugin SocketAddr).

(** [HostPorts::resolve] *)
Definition resolve (self : HostPorts.t) : io W E (list SocketAddr) :=
  _ ← lift (assert_that (negb (bool_decide (HostPorts.ports self = []))));
  addrs ← attempt (resolve_host (HostPorts.host self) 0);
  host ← attempt (λ w, match addrs with
                       | [] => (Err no_address, w)
                       | addr :: _ => (Ok (addr_ip addr), w)
                       end);
  mret (addr_new host <$> HostPorts.ports self).

(** ** The channels *)

(** The sockets of [bind_all], in order; its assertion is that of [bind_all]. *)
Definition bind_sockets (binds : list SocketAddr) : io W E unit :=
  _ ← lift (bind_all binds);
  io_for_each binds (λ addr _, attempt (bind_udp addr)) tt.

(** [ForwardUdp::sender] and its siblings. *)
Definition forward_sender (binds destinations : list SocketAddr) : io W E plugin :=
  sender ← lift (ForwardUdp.sender binds destinations);
  _ ← bind_sockets binds;
  mret (Forward sender).

Definition forward_receiver (binds : list SocketAddr) : io W E (list (Listener SocketAddr)) :=
  _ ← bind_sockets binds;
  mret ((λ _, Plain) <$> binds).

Definition reverse_sender (binds : list SocketAddr) (channel_key : list Z) : io W E plugin :=
  sender ← lift (ReverseSender.new binds channel_key);
  _ ← bind_sockets binds;
  mret (Reverse sender).

Definition reverse_receiver (binds destinations : list SocketAddr) (channel_key : list Z)
    : io W E (list (Listener SocketAddr)) :=
  receiver ← lift (ReverseReceiver.new destinations channel_key);
  _ ← bind_sockets binds;
  mret ((λ _, Challenging receiver) <$> binds).

Definition Senders : Type := list (ChannelId * plugin).
Definition Receivers : Type := list (ChannelId * list (Listener SocketAddr)).

(** One configured channel. *)
Definition build_channel (channel_key : list Z) (config : ChannelConfig)
    (built : Senders * Receivers) : io W E (Senders * Receivers) :=
  let '(senders, receivers) := built in
  match config with
  | Tx id bind destination =>
      binds ← resolve bind;
      destinations ← resolve destination;
      sender ← forward_sender binds destinations;
      mret (senders ++ [(id, sender)], receivers)
  | Rx id bind =>
      binds ← resolve bind;
      listeners ← forward_receiver binds;
      mret (senders, receivers ++ [(id, listeners)])
  | RevTx id bind =>
      binds ← resolve bind;
      sender ← reverse_sender binds channel_key;
      mret (senders ++ [(id, sender)], receivers)
  | RevRx id bind destination =>
      binds ← resolve bind;
      destinations ← resolve destination;
      listeners ← reverse_receiver binds destinations channel_key;
      mret (senders, receivers ++ [(id, listeners)])
  end.

Definition build_channels (configs : list ChannelConfig) (channel_key : list Z)
    : io W E (Senders * Receivers) :=
  io_for_each configs (build_channel channel_key) ([], []).

(** [Channels]: the table of senders with the plugins of its workers, and the
    state of the inbound tasks. *)
Record Channels := {
  senders : gmap ChannelId plugin;
  outbound : Outbound.t SocketAddr;
  inbound : Inbound.t SocketAddr;
}.

Definition channels (senders : Senders) (receivers : Receivers) : comp Channels :=
  by_id ← ChannelSenders.new senders;
  Ret (Build_Channels by_id (Outbound.new by_id) (Inbound.new receivers)).

(** ** The nodes *)

Inductive Node : Type :=
  | RelayNode (channels : Channels) (clock : CoreClock.t) (core : RelayCore.t)
  | EndpointNode (channels : Channels) (clock : CoreClock.t) (runtime : EndpointRuntime.t)
      (listen_addr : SocketAddr).

Definition relay_run (channels : Channels) (envelope_key : list Z) (tuning : RelayCoreTuning.t)
    : io W E Node :=
  clock ← CoreClock.new;
  seed ← ask random_seed;
  mret (RelayNode channels clock (RelayCore.new (relay_config envelope_key seed
    (CoreClock.boot_time_ms clock) (ChannelSenders.channel_ids (senders channels)) tuning))).

Definition endpoint_run (channels : Channels) (envelope_key message_key : list Z)
    (route : option RouteGraph.t) (tuning : EndpointCoreTuning.t) (listen_addr : SocketAddr)
    : io W E Node :=
  clock ← CoreClock.new;
  seed ← ask random_seed;
  config ← lift (endpoint_config envelope_key message_key seed (CoreClock.boot_time_ms clock)
    (ChannelSenders.channel_ids (senders channels)) route tuning);
  core ← lift (EndpointCore.new config);
  mret (EndpointNode channels clock
    (EndpointRuntime.new core ((λ _, ()) <$> senders channels)) listen_addr).

(** ** main *)

Definition load_config (path : option string) : io W E FileConfig.t :=
  match path with
  | Some path => file ← ask (read_config path); lift (unwrap file)
  | None => mret FileConfig.default
  end.

(** A key of 16 bytes derived from a passphrase. *)
Definition short_key (context psk : string) : comp (list Z) :=
  slice (derive_key (literal context) (literal psk)) 0 16.

Definition listen_address (cli : CliConfig.t) (file : FileConfig.t) : io W E SocketAddr :=
  let addr := default "[::0]:8443"%string (or (CliConfig.listen cli) (FileConfig.listen file)) in
  addrs ← ask (resolve_addr addr);
  addrs ← lift (unwrap_ok addrs);
  lift (unwrap (head addrs)).

(** The endpoint's part of [main]. *)
Definition start_endpoint (cli : CliConfig.t) (file : FileConfig.t) (channels : Channels)
    (envelope_key : list Z) : io W E Node :=
  route ← lift (build_optional (FileConfig.route file));
  listen_addr ← listen_address cli file;
  endpoint_psk ← lift (unwrap (or (CliConfig.endpoint_key cli) (FileConfig.endpoint_key file)));
  message_key ← lift (short_key "RayNet endpoint PSK v1" endpoint_psk);
  _ ← attempt (bind_tcp listen_addr);
  endpoint_run channels envelope_key message_key route
    (CoreFileConfig.endpoint_tuning (FileConfig.core file)) listen_addr.

Definition is_endpoint (cli : CliConfig.t) (file : FileConfig.t) : bool :=
  CliConfig.endpoint cli || default false (FileConfig.endpoint file).

Definition main (cli : CliConfig.t) : io W E Node :=
  file ← load_config (CliConfig.config cli);
  relay_psk ← lift (unwrap (or (CliConfig.relay_key cli) (FileConfig.relay_key file)));
  let channel_key := derive_key (literal "RayNet channel PSK v1") (literal relay_psk) in
  envelope_key ← lift (short_key "RayNet envelope PSK v1" relay_psk);
  '(senders, receivers) ← build_channels (FileConfig.channels file) channel_key;
  channels ← lift (channels senders receivers);
  if is_endpoint cli file then start_endpoint cli file channels envelope_key
  else relay_run channels envelope_key (CoreFileConfig.relay_tuning (FileConfig.core file)).

End startup.
Arguments Senders SocketAddr {_ _}.
Arguments Receivers SocketAddr {_ _}.
Arguments Channels SocketAddr {_ _}.
Arguments Node {_} SocketAddr {_ _}.
