(* ===== verification/StartupFacts.v ===== *)
(** * Correctness of the startup

    Which configurations start a node, and what the started node is made of.
    [yields m P]: whatever the system answers, [m] either fails or returns a
    value with [P].  [succeeds m P]: [m] returns a value with [P]. *)

From stdpp Require Import strings.
From S2P Require Import Prelude Bytes Core Sequence Crypto Routing Relay Endpoint EndpointSend.
From S2P Require Import Config ConfigFacts ConfigSend.
From S2P Require Import UdpChannel UdpChannelFacts Runtime Channel ChannelFacts Startup.

Abbreviation EC := EndpointCore.t.

Lemma fmap_const {A B} (x : B) (l : list A) : (λ _, x) <$> l = replicate (length l) x.
Proof. induction l as [|a l IH]; [done|]. cbn. by f_equal. Qed.

(** ** A logic of [io] *)

Section logic.
Context {W E : Type}.

Definition yields {A} (m : io W E A) (P : A → Prop) : Prop :=
  ∀ w a w', m w = Ret (Ok a, w') → P a.

Definition succeeds {A} (m : io W E A) (P : A → Prop) : Prop :=
  ∀ w, ∃ a w', m w = Ret (Ok a, w') ∧ P a.

Lemma yields_ret {A} (a : A) (P : A → Prop) : P a → yields (mret a) P.
Proof. by intros ? w a' w' [= <- <-]. Qed.

Lemma yields_bind {A B} (m : io W E A) (f : A → io W E B) P Q :
  yields m P → (∀ a, P a → yields (f a) Q) → yields (m ≫= f) Q.
Proof.
  intros Hm Hf w b w'. unfold mbind, io_bind.
  destruct (m w) as [[[a|e] w1]| |] eqn:Em; try done. cbn. intros Hb.
  by eapply Hf; [eapply Hm|].
Qed.

Lemma yields_lift {A} (m : comp A) (P : A → Prop) : (∀ a, m = Ret a → P a) → yields (lift m) P.
Proof.
  intros Hm w a w'. unfold lift. destruct m; try done. cbn. intros [= <- <-]. by apply Hm.
Qed.

Lemma yields_lift_bind {A B} (m : comp A) (f : A → io W E B) Q :
  (∀ a, m = Ret a → yields (f a) Q) → yields (lift m ≫= f) Q.
Proof. intros Hf. eapply yields_bind; [by apply yields_lift; intros a Ha; exact Ha|done]. Qed.

Lemma yields_skip {A B} (m : io W E A) (f : A → io W E B) Q :
  (∀ a, yields (f a) Q) → yields (m ≫= f) Q.
Proof. intros Hf. by apply (yields_bind m f (λ _, True)). Qed.

Lemma succeeds_ret {A} (a : A) (P : A → Prop) : P a → succeeds (mret a) P.
Proof. intros ? w. by exists a, w. Qed.

Lemma succeeds_bind {A B} (m : io W E A) (f : A → io W E B) P Q :
  succeeds m P → (∀ a, P a → succeeds (f a) Q) → succeeds (m ≫= f) Q.
Proof.
  intros Hm Hf w. destruct (Hm w) as (a & w1 & Em & Ha). unfold mbind, io_bind. rewrite Em. cbn.
  by apply Hf.
Qed.

Lemma succeeds_lift {A} (m : comp A) a (P : A → Prop) : m = Ret a → P a → succeeds (lift m) P.
Proof. intros -> ? w. by exists a, w. Qed.

Lemma succeeds_lift_bind {A B} (m : comp A) a (f : A → io W E B) Q :
  m = Ret a → succeeds (f a) Q → succeeds (lift m ≫= f) Q.
Proof. intros -> Hf w. apply Hf. Qed.

Lemma succeeds_skip {A B} (m : io W E A) (f : A → io W E B) Q :
  succeeds m (λ _, True) → (∀ a, succeeds (f a) Q) → succeeds (m ≫= f) Q.
Proof. intros Hm Hf. by apply (succeeds_bind m f (λ _, True)). Qed.

Lemma succeeds_ask {A} (f : W → A * W) (P : A → Prop) : (∀ w, P (f w).1) → succeeds (ask f) P.
Proof. intros Hf w. unfold ask. specialize (Hf w). destruct (f w) as [a w']. by exists a, w'. Qed.

Lemma succeeds_attempt {A} (f : W → result E A * W) (P : A → Prop) :
  (∀ w, ∃ a w', f w = (Ok a, w') ∧ P a) → succeeds (attempt f) P.
Proof. intros Hf w. destruct (Hf w) as (a & w' & Ef & Ha). exists a, w'. unfold attempt. by rewrite Ef. Qed.

(** A loop whose invariant knows the part of the list behind it. *)
Lemma yields_for_each {A S} (I : list A → S → Prop) l (b : A → S → io W E S) : ∀ done s,
  I done s → (∀ done x s, I done s → yields (b x s) (I (done ++ [x]))) →
  yields (io_for_each l b s) (I (done ++ l)).
Proof.
  induction l as [|x l IH]; intros ls s Hs Hb; cbn [io_for_each].
  - apply yields_ret. by rewrite app_nil_r.
  - eapply yields_bind; [by apply Hb|]. intros s' Hs'. cbn.
    rewrite cons_middle, app_assoc. by apply IH.
Qed.

Lemma succeeds_for_each {A S} (P : A → Prop) l (b : A → S → io W E S) s :
  Forall P l → (∀ x s, P x → succeeds (b x s) (λ _, True)) →
  succeeds (io_for_each l b s) (λ _, True).
Proof.
  intros Hl Hb. revert s. induction Hl as [|x l Hx Hl IH]; intros s; cbn [io_for_each].
  - by apply succeeds_ret.
  - eapply succeeds_bind; [by apply Hb|]. intros s' _. apply IH.
Qed.

(** Returning at all, with what is known of every value returned. *)
Lemma succeeds_yields {A} (m : io W E A) P : succeeds m (λ _, True) → yields m P → succeeds m P.
Proof. intros Hs Hy w. destruct (Hs w) as (a & w' & Em & _). exists a, w'. split; [done|by eapply Hy]. Qed.

End logic.

(** ** Configurations *)

Section startup.
Context `{Aes : Aegis128L, Bl : Blake3, It : HashIter, BK : Blake3Keyed, !Blake3KeyedSpec}.
Context `{Countable SocketAddr, !KeyOrder (Z * SocketAddr), Sys : !System W E SocketAddr}.

Abbreviation plugin := (Plugin SocketAddr).

(** What a channel is, and its id. *)
Definition sends (config : ChannelConfig) : bool :=
  match config with Tx _ _ _ | RevTx _ _ => true | Rx _ _ | RevRx _ _ _ => false end.

Definition id_of (config : ChannelConfig) : ChannelId :=
  match config with Tx id _ _ | Rx id _ | RevTx id _ | RevRx id _ _ => id end.

Definition tx_of (configs : list ChannelConfig) : list ChannelConfig :=
  filter (λ c, sends c = true) configs.
Definition rx_of (configs : list ChannelConfig) : list ChannelConfig :=
  filter (λ c, sends c = false) configs.

Definition has_ports (config : ChannelConfig) : Prop :=
  match config with
  | Rx _ bind | RevTx _ bind => HostPorts.ports bind ≠ []
  | Tx _ bind destination | RevRx _ bind destination =>
      HostPorts.ports bind ≠ [] ∧ HostPorts.ports destination ≠ []
  end.

(** The ports of a host at one address. *)
Definition at_host (hp : HostPorts.t) (addrs : list SocketAddr) : Prop :=
  HostPorts.ports hp ≠ [] ∧ ∃ ip, addrs = addr_new ip <$> HostPorts.ports hp.

(** What is made of a channel's configuration. *)
Definition made_sender (channel_key : list Z) (config : ChannelConfig) (s : ChannelId * plugin)
    : Prop :=
  match config with
  | Tx id bind destination => s.1 = id ∧ ∃ binds destinations f,
      at_host bind binds ∧ at_host destination destinations
      ∧ ForwardUdp.sender binds destinations = Ret f ∧ s.2 = Forward f
  | RevTx id bind => s.1 = id ∧ ∃ binds r,
      at_host bind binds ∧ ReverseSender.new binds channel_key = Ret r ∧ s.2 = Reverse r
  | _ => False
  end.

Definition made_receiver (channel_key : list Z) (config : ChannelConfig)
    (r : ChannelId * list (Listener SocketAddr)) : Prop :=
  match config with
  | Rx id bind => r.1 = id ∧ HostPorts.ports bind ≠ []
      ∧ r.2 = replicate (length (HostPorts.ports bind)) Plain
  | RevRx id bind destination => r.1 = id ∧ HostPorts.ports bind ≠ [] ∧ ∃ destinations rv,
      at_host destination destinations ∧ ReverseReceiver.new destinations channel_key = Ret rv
      ∧ r.2 = replicate (length (HostPorts.ports bind)) (Challenging rv)
  | _ => False
  end.

(** ** Building the channels *)

Lemma resolve_yields hp : yields (resolve (Sys := Sys) hp) (at_host hp).
Proof.
  unfold resolve. apply yields_lift_bind. intros ? Ha.
  apply yields_skip. intros addrs. apply yields_skip. intros ip. apply yields_ret.
  split; [|by exists ip]. intros Hnil. unfold assert_that in Ha. by rewrite bool_decide_true in Ha.
Qed.

Lemma build_channel_yields channel_key config ss rs :
  yields (build_channel (Sys := Sys) channel_key config (ss, rs)) (λ '(ss', rs'),
    if sends config then rs' = rs ∧ ∃ s, ss' = ss ++ [s] ∧ made_sender channel_key config s
    else ss' = ss ∧ ∃ r, rs' = rs ++ [r] ∧ made_receiver channel_key config r).
Proof.
  destruct config as [id bind destination|id bind|id bind|id bind destination]; cbn [build_channel sends].
  - eapply yields_bind; [apply resolve_yields|]. intros binds Hb.
    eapply yields_bind; [apply resolve_yields|]. intros destinations Hd.
    unfold forward_sender. eapply yields_bind.
    { apply yields_lift_bind. intros f Hf. apply yields_skip. intros _.
      apply (yields_ret _ (λ p, ∃ f, ForwardUdp.sender binds destinations = Ret f ∧ p = Forward f)).
      by exists f. }
    intros p (f & Hf & ->). apply yields_ret. split; [done|]. eexists. split; [done|].
    split; [done|]. by exists binds, destinations, f.
  - eapply yields_bind; [apply resolve_yields|]. intros binds [Hne [ip Hb]].
    unfold forward_receiver. eapply yields_bind.
    { apply yields_skip. intros _.
      apply (yields_ret _ (λ ls, ls = (λ _, Plain) <$> binds)). done. }
    intros ls ->. apply yields_ret. split; [done|]. eexists. split; [done|].
    split; [done|]. split; [done|]. cbn. by rewrite fmap_const, Hb, length_fmap.
  - eapply yields_bind; [apply resolve_yields|]. intros binds Hb.
    unfold reverse_sender. eapply yields_bind.
    { apply yields_lift_bind. intros r Hr. apply yields_skip. intros _.
      apply (yields_ret _ (λ p, ∃ r, ReverseSender.new binds channel_key = Ret r ∧ p = Reverse r)).
      by exists r. }
    intros p (r & Hr & ->). apply yields_ret. split; [done|]. eexists. split; [done|].
    split; [done|]. by exists binds, r.
  - eapply yields_bind; [apply resolve_yields|]. intros binds [Hne [ip Hb]].
    eapply yields_bind; [apply resolve_yields|]. intros destinations Hd.
    unfold reverse_receiver. eapply yields_bind.
    { apply yields_lift_bind. intros r Hr. apply yields_skip. intros _.
      apply (yields_ret _ (λ ls, ∃ r, ReverseReceiver.new destinations channel_key = Ret r
        ∧ ls = (λ _, Challenging r) <$> binds)). by exists r. }
    intros ls (r & Hr & ->). apply yields_ret. split; [done|]. eexists. split; [done|].
    split; [done|]. split; [done|]. exists destinations, r. split; [done|]. split; [done|].
    cbn. by rewrite fmap_const, Hb, length_fmap.
Qed.

Lemma build_channels_yields configs channel_key :
  yields (build_channels (Sys := Sys) configs channel_key) (λ '(ss, rs),
    Forall2 (made_sender channel_key) (tx_of configs) ss
    ∧ Forall2 (made_receiver channel_key) (rx_of configs) rs).
Proof.
  unfold build_channels. apply (yields_for_each (λ configs '(ss, rs),
    Forall2 (made_sender channel_key) (tx_of configs) ss
    ∧ Forall2 (made_receiver channel_key) (rx_of configs) rs) configs _ []); [done|].
  intros before config [ss rs] [Hs Hr] w [ss' rs'] w' Hb.
  apply build_channel_yields in Hb. unfold tx_of, rx_of in *.
  rewrite !filter_app, !filter_cons, !filter_nil.
  destruct (sends config); [destruct Hb as (-> & s & -> & Hm)|destruct Hb as (-> & r & -> & Hm)];
    cbn; rewrite ?app_nil_r; (split; [|done || by apply Forall2_app; [|by constructor]]);
    try done; by apply Forall2_app; [|by constructor].
Qed.

(** An operating system that resolves and binds whatever it is asked to. *)
Class Cooperative : Prop := {
  coop_host : ∀ host port w, ∃ addr addrs w', resolve_host host port w = (Ok (addr :: addrs), w');
  coop_addr : ∀ addr w, ∃ a addrs w', resolve_addr addr w = (Ok (a :: addrs), w');
  coop_udp : ∀ addr w, ∃ w', bind_udp addr w = (Ok tt, w');
  coop_tcp : ∀ addr w, ∃ w', bind_tcp addr w = (Ok tt, w');
  coop_time : ∀ w, 0 <= (system_time w).1;
}.

Lemma resolve_succeeds `{!Cooperative} hp :
  HostPorts.ports hp ≠ [] → succeeds (resolve (Sys := Sys) hp) (λ addrs, addrs ≠ []).
Proof.
  intros Hne. unfold resolve.
  eapply succeeds_lift_bind; [by rewrite bool_decide_false|].
  eapply (succeeds_bind _ _ (λ addrs, addrs ≠ [])).
  { apply succeeds_attempt. intros w. destruct (coop_host (HostPorts.host hp) 0 w) as (a & l & w' & ->).
    by eexists _, _. }
  intros [|a addrs] Ha; [done|].
  apply succeeds_skip; [apply succeeds_attempt; intros w; by eexists _, _|]. intros ip. apply succeeds_ret. by destruct (HostPorts.ports hp).
Qed.

Lemma bind_sockets_succeeds `{!Cooperative} binds :
  binds ≠ [] → succeeds (bind_sockets (Sys := Sys) binds) (λ _, True).
Proof.
  intros Hne. unfold bind_sockets, bind_all. rewrite decide_False by done.
  eapply succeeds_lift_bind; [done|].
  apply (succeeds_for_each (λ _, True)); [by apply Forall_true|]. intros addr [] _.
  apply succeeds_attempt. intros w. destruct (coop_udp addr w) as [w' ->]. by eexists _, _.
Qed.

Lemma build_channels_succeeds `{!Cooperative} configs channel_key :
  Forall has_ports configs → succeeds (build_channels (Sys := Sys) configs channel_key) (λ _, True).
Proof.
  intros Hp. apply (succeeds_for_each has_ports); [done|]. clear Hp configs.
  intros config [ss rs] Hp.
  destruct config as [id bind destination|id bind|id bind|id bind destination]; cbn in *.
  - destruct Hp as [Hb Hd]. eapply succeeds_bind; [by apply resolve_succeeds|]. intros binds Hbs.
    eapply succeeds_bind; [by apply resolve_succeeds|]. intros destinations Hds.
    apply succeeds_skip; [|intros; by apply succeeds_ret]. unfold forward_sender.
    eapply succeeds_lift_bind.
    { unfold ForwardUdp.sender, bind_all. by rewrite !decide_False. }
    apply succeeds_skip; [by apply bind_sockets_succeeds|]. intros _. by apply succeeds_ret.
  - eapply succeeds_bind; [by apply resolve_succeeds|]. intros binds Hbs.
    apply succeeds_skip; [|intros; by apply succeeds_ret]. unfold forward_receiver.
    apply succeeds_skip; [by apply bind_sockets_succeeds|]. intros _. by apply succeeds_ret.
  - eapply succeeds_bind; [by apply resolve_succeeds|]. intros binds Hbs.
    apply succeeds_skip; [|intros; by apply succeeds_ret]. unfold reverse_sender.
    eapply succeeds_lift_bind.
    { unfold ReverseSender.new, bind_all. by rewrite decide_False. }
    apply succeeds_skip; [by apply bind_sockets_succeeds|]. intros _. by apply succeeds_ret.
  - destruct Hp as [Hb Hd]. eapply succeeds_bind; [by apply resolve_succeeds|]. intros binds Hbs.
    eapply succeeds_bind; [by apply resolve_succeeds|]. intros destinations Hds.
    apply succeeds_skip; [|intros; by apply succeeds_ret]. unfold reverse_receiver.
    eapply succeeds_lift_bind.
    { unfold ReverseReceiver.new. by rewrite decide_False. }
    apply succeeds_skip; [by apply bind_sockets_succeeds|]. intros _. by apply succeeds_ret.
Qed.

(** ** The table of senders *)

Lemma senders_new_app {S} (l : list (ChannelId * S)) id x :
  ChannelSenders.new (l ++ [(id, x)])
  = m ← ChannelSenders.new l;
    match m !! id with Some _ => Panic | None => Ret (<[id := x]> m) end.
Proof.
  unfold ChannelSenders.new. rewrite for_each_app.
  destruct (for_each l _ ∅) as [m| |]; [|done|done]. cbn. by destruct (m !! id).
Qed.

Lemma senders_new {S} (l : list (ChannelId * S)) m :
  ChannelSenders.new l = Ret m → NoDup l.*1 ∧ ∀ id x, m !! id = Some x ↔ (id, x) ∈ l.
Proof.
  revert m. induction l as [|[id x] l IH] using rev_ind; intros m.
  - intros [= <-]. split; [apply NoDup_nil_2|]. intros i y. rewrite lookup_empty. set_solver.
  - rewrite senders_new_app. destruct (ChannelSenders.new l) as [m0| |]; [|done|done].
    destruct (IH m0 eq_refl) as [Hnd Hm]. cbn. destruct (m0 !! id) as [y|] eqn:Ei; [done|].
    intros [= <-].
    assert (id ∉ l.*1) as Hid.
    { intros ([i y] & -> & Hin)%list_elem_of_fmap. apply Hm in Hin. cbn in Ei. congruence. }
    split; [rewrite fmap_app; apply NoDup_app; split_and!; [done|set_solver|apply NoDup_singleton]|].
    intros i y. rewrite elem_of_app, list_elem_of_singleton.
    destruct (decide (i = id)) as [->|Hne].
    + rewrite lookup_insert_eq. split; [intros [= ->]; by right|]. intros [Hin|[= ->]]; [|done].
      destruct Hid. by apply (list_elem_of_fmap_2 fst) in Hin.
    + rewrite lookup_insert_ne by done. rewrite Hm. split; [by left|].
      intros [Hin|[= -> ->]]; done.
Qed.

Lemma senders_new_returns {S} (l : list (ChannelId * S)) :
  NoDup l.*1 → ∃ m, ChannelSenders.new l = Ret m.
Proof.
  induction l as [|[id x] l IH] using rev_ind; [by exists ∅|].
  rewrite fmap_app, senders_new_app. intros (Hnd & Hdis & _)%NoDup_app.
  destruct (IH Hnd) as [m Hm]. rewrite Hm. cbn. destruct (m !! id) as [y|] eqn:Ei; [|by eexists].
  apply (senders_new l m Hm) in Ei. destruct (Hdis id); [|set_solver].
  by apply (list_elem_of_fmap_2 fst) in Ei.
Qed.

Lemma channel_ids_elem {S} (m : gmap ChannelId S) id :
  id ∈ ChannelSenders.channel_ids m ↔ is_Some (m !! id).
Proof.
  unfold ChannelSenders.channel_ids, conv_iter. rewrite list_elem_of_fmap. split.
  - intros ([i x] & -> & Hin). rewrite merge_sort_Permutation in Hin.
    apply elem_of_map_to_list in Hin. by exists x.
  - intros [x Hx]. exists (id, x). split; [done|]. rewrite merge_sort_Permutation.
    by apply elem_of_map_to_list.
Qed.

Lemma made_ids channel_key configs ss :
  Forall2 (made_sender channel_key) configs ss → ss.*1 = id_of <$> configs.
Proof.
  induction 1 as [|config s configs ss Hm _ IH]; [done|]. cbn. rewrite IH. f_equal.
  destruct config; try done; by destruct Hm as [-> _].
Qed.

Lemma made_ports channel_key config :
  (∃ s, made_sender channel_key config s) ∨ (∃ r, made_receiver channel_key config r) →
  has_ports config.
Proof.
  destruct config; intros [(s & Hs)|(r & Hr)]; try done; cbn in *; unfold at_host in *; naive_solver.
Qed.

(** What was made is fresh, which is what the theorems on channels start from. *)
Lemma made_started channel_key config s : made_sender channel_key config s → started s.2.
Proof.
  destruct config; intros Hm; try done.
  - destruct Hm as (_ & binds & dests & f & _ & _ & Hf & ->). by eapply started_forward.
  - destruct Hm as (_ & binds & r & _ & Hr & ->). by eapply started_reverse.
Qed.

Lemma made_fresh channel_key config r :
  made_receiver channel_key config r → Forall fresh_listener r.2.
Proof.
  destruct config; intros Hm; try done.
  - destruct Hm as (_ & _ & ->). apply Forall_replicate. constructor.
  - destruct Hm as (_ & _ & dests & rv & _ & Hr & ->). apply Forall_replicate.
    by eapply fresh_challenging.
Qed.

(** ** What a node is *)

(** Sixteen bytes of a derived key. *)
Definition key_of (context psk : string) : list Z :=
  take 16 (derive_key (literal context) (literal psk)).

Lemma short_key_eq context psk : short_key context psk = Ret (key_of context psk).
Proof. unfold short_key. rewrite slice_returns by (rewrite ?derive_key_len; lia). done. Qed.

(** The channels of a node are those of its configuration, freshly made. *)
Definition wired (channel_key : list Z) (configs : list ChannelConfig) (c : Channels SocketAddr)
    : Prop :=
  ∃ ss rs, Forall2 (made_sender channel_key) (tx_of configs) ss
    ∧ Forall2 (made_receiver channel_key) (rx_of configs) rs
    ∧ (∀ id p, senders c !! id = Some p ↔ (id, p) ∈ ss)
    ∧ outbound c = Outbound.new (senders c) ∧ inbound c = Inbound.new rs.

Definition relay_psk (cli : CliConfig.t) (file : FileConfig.t) : option string :=
  or (CliConfig.relay_key cli) (FileConfig.relay_key file).
Definition endpoint_psk (cli : CliConfig.t) (file : FileConfig.t) : option string :=
  or (CliConfig.endpoint_key cli) (FileConfig.endpoint_key file).

(** The core of a node has the keys, the channels and the tuning of its
    configuration. *)
Definition runs (cli : CliConfig.t) (file : FileConfig.t) (node : Node SocketAddr) : Prop :=
  ∃ psk, relay_psk cli file = Some psk
  ∧ let channel_key := derive_key (literal "RayNet channel PSK v1") (literal psk) in
    let envelope_key := key_of "RayNet envelope PSK v1" psk in
    match node with
    | RelayNode c clock core =>
        is_endpoint cli file = false ∧ wired channel_key (FileConfig.channels file) c
        ∧ ∃ seed, core = RelayCore.new (relay_config envelope_key seed
            (CoreClock.boot_time_ms clock) (ChannelSenders.channel_ids (senders c))
            (CoreFileConfig.relay_tuning (FileConfig.core file)))
    | EndpointNode c clock runtime _ =>
        is_endpoint cli file = true ∧ wired channel_key (FileConfig.channels file) c
        ∧ ∃ epsk graph seed cfg core, endpoint_psk cli file = Some epsk
          ∧ build_optional (FileConfig.route file) = Ret graph
          ∧ endpoint_config envelope_key (key_of "RayNet endpoint PSK v1" epsk) seed
              (CoreClock.boot_time_ms clock) (ChannelSenders.channel_ids (senders c)) graph
              (CoreFileConfig.endpoint_tuning (FileConfig.core file)) = Ret cfg
          ∧ EndpointCore.new cfg = Ret core
          ∧ runtime = EndpointRuntime.new core ((λ _, ()) <$> senders c)
    end.

(** The senders of a configuration: the local channels of its core. *)
Definition sender_ids (file : FileConfig.t) : list ChannelId :=
  id_of <$> tx_of (FileConfig.channels file).

(** What the program checks of a configuration. *)
Record valid (cli : CliConfig.t) (file : FileConfig.t) : Prop := {
  vd_relay_key : is_Some (relay_psk cli file);
  vd_senders : NoDup (sender_ids file);
  vd_ports : Forall has_ports (FileConfig.channels file);
  vd_endpoint : is_endpoint cli file = true →
    is_Some (endpoint_psk cli file) ∧ checked_route (sender_ids file) (FileConfig.route file);
}.

(** The configuration file that [main] works with. *)
Definition loads (cli : CliConfig.t) (file : FileConfig.t) : Prop :=
  match CliConfig.config cli with
  | None => file = FileConfig.default
  | Some path => ∀ w : W, (read_config path w).1 = Some file
  end.

Lemma load_yields cli file :
  loads cli file → yields (load_config (Sys := Sys) (CliConfig.config cli)) (λ f, f = file).
Proof.
  unfold loads, load_config. destruct (CliConfig.config cli) as [path|].
  - intros Hl w f w'. specialize (Hl w). unfold mbind, io_bind, ask, lift.
    destruct (read_config path w) as [o w1]. cbn in *. subst o. by intros [= <- <-].
  - intros ->. by apply yields_ret.
Qed.

Lemma load_succeeds cli file :
  loads cli file → succeeds (load_config (Sys := Sys) (CliConfig.config cli)) (λ f, f = file).
Proof.
  intros Hl. apply succeeds_yields; [|by apply load_yields]. revert Hl. unfold loads, load_config.
  destruct (CliConfig.config cli) as [path|]; [|intros _; by apply succeeds_ret].
  intros Hl. eapply (succeeds_bind _ _ (λ o, o = Some file)); [by apply succeeds_ask|].
  intros ? ->. by eapply succeeds_lift.
Qed.

(** *** The two kinds of node *)

Lemma relay_run_yields c envelope_key tuning :
  yields (relay_run (Sys := Sys) c envelope_key tuning) (λ node,
    ∃ clock seed, node = RelayNode c clock (RelayCore.new (relay_config envelope_key seed
      (CoreClock.boot_time_ms clock) (ChannelSenders.channel_ids (senders c)) tuning))).
Proof.
  unfold relay_run. apply yields_skip. intros clock. apply yields_skip. intros seed.
  apply yields_ret. by exists clock, seed.
Qed.

Lemma start_endpoint_yields cli file c envelope_key :
  yields (start_endpoint (Sys := Sys) cli file c envelope_key) (λ node,
    ∃ clock addr epsk graph seed cfg core, endpoint_psk cli file = Some epsk
      ∧ build_optional (FileConfig.route file) = Ret graph
      ∧ endpoint_config envelope_key (key_of "RayNet endpoint PSK v1" epsk) seed
          (CoreClock.boot_time_ms clock) (ChannelSenders.channel_ids (senders c)) graph
          (CoreFileConfig.endpoint_tuning (FileConfig.core file)) = Ret cfg
      ∧ EndpointCore.new cfg = Ret core
      ∧ node = EndpointNode c clock (EndpointRuntime.new core ((λ _, ()) <$> senders c)) addr).
Proof.
  unfold start_endpoint, endpoint_run. apply yields_lift_bind. intros graph Hg.
  apply yields_skip. intros addr. apply yields_lift_bind. intros epsk He.
  apply yields_lift_bind. intros key Hk. rewrite short_key_eq in Hk. apply Ret_inj in Hk as <-.
  apply yields_skip. intros _. apply yields_skip. intros clock. apply yields_skip. intros seed.
  apply yields_lift_bind. intros cfg Hcfg. apply yields_lift_bind. intros core Hcore.
  apply yields_ret. exists clock, addr, epsk, graph, seed, cfg, core.
  split; [|done]. unfold endpoint_psk. by destruct (or _ _); [injection He as ->|].
Qed.

Lemma clock_succeeds `{!Cooperative} : succeeds (CoreClock.new : io W E CoreClock.t) (λ _, True).
Proof.
  unfold CoreClock.new.
  eapply (succeeds_bind _ _ (λ time, 0 <= time)); [apply succeeds_ask, coop_time|]. intros time Ht.
  eapply succeeds_lift_bind.
  { unfold CoreClock.now_millis. by rewrite (proj2 (Z.ltb_ge _ _)). }
  apply succeeds_skip; [by apply succeeds_ask|]. intros ?. by apply succeeds_ret.
Qed.

Lemma listen_succeeds `{!Cooperative} cli file :
  succeeds (listen_address (Sys := Sys) cli file) (λ _, True).
Proof.
  unfold listen_address. eapply (succeeds_bind _ _ (λ r, ∃ a l, r = Ok (a :: l))).
  - apply succeeds_ask. intros w. destruct (coop_addr (default "[::0]:8443"%string
      (or (CliConfig.listen cli) (FileConfig.listen file))) w) as (a & l & w' & ->).
    by exists a, l.
  - intros ? (a & l & ->). eapply succeeds_lift_bind; [done|]. by eapply succeeds_lift.
Qed.

(** *** The channels of a started node *)

Lemma checked_route_ext ids ids' route :
  (∀ id, id ∈ ids ↔ id ∈ ids') → checked_route ids route → checked_route ids' route.
Proof.
  intros Heq. unfold checked_route. destruct route as [edges|]; [|done].
  intros [Hok Hl]. split; [done|]. intros e He Hs. by apply Heq, Hl.
Qed.

Lemma within_limits_ext ids ids' route tuning :
  (∀ id, id ∈ ids ↔ id ∈ ids') → within_limits ids route tuning → within_limits ids' route tuning.
Proof.
  intros Heq [Ht Hr]. split; [done|]. destruct route as [edges|]; [done|].
  destruct Hr as [Hne Hw]. split.
  - destruct ids as [|id ids]; [done|]. intros ->. apply (not_elem_of_nil id), Heq. by left.
  - apply Forall_forall. intros id Hid. rewrite Forall_forall in Hw. by apply Hw, Heq.
Qed.

Lemma wired_ids channel_key configs c :
  wired channel_key configs c →
  ∀ id, id ∈ ChannelSenders.channel_ids (senders c) ↔ id ∈ id_of <$> tx_of configs.
Proof.
  intros (ss & rs & Hs & _ & Hlook & _) id. rewrite channel_ids_elem, <- (made_ids _ _ _ Hs).
  rewrite list_elem_of_fmap. split.
  - intros [p Hp]. exists (id, p). by rewrite <- Hlook.
  - intros ([i p] & -> & Hin). exists p. by apply Hlook.
Qed.

(** The premises of [channels_lose_nothing] and [datagrams_reach_the_core]. *)
Lemma wired_fresh channel_key configs c :
  wired channel_key configs c →
  map_Forall (λ _, started) (senders c)
  ∧ ∃ rs, inbound c = Inbound.new rs ∧ Forall (λ r, Forall fresh_listener r.2) rs.
Proof.
  intros (ss & rs & Hs & Hr & Hlook & _ & Hin). split.
  - intros id p Hp. apply Hlook in Hp.
    destruct (Forall2_in_r _ _ _ _ Hs Hp) as (config & _ & Hm). by apply made_started in Hm.
  - exists rs. split; [done|]. apply Forall_forall. intros r Hrin.
    destruct (Forall2_in_r _ _ _ _ Hr Hrin) as (config & _ & Hm). by apply made_fresh in Hm.
Qed.

Lemma channels_yields channel_key configs ss rs c :
  Forall2 (made_sender channel_key) (tx_of configs) ss →
  Forall2 (made_receiver channel_key) (rx_of configs) rs →
  channels ss rs = Ret c →
  wired channel_key configs c ∧ NoDup (id_of <$> tx_of configs) ∧ Forall has_ports configs.
Proof.
  intros Hs Hr. unfold channels. destruct (ChannelSenders.new ss) as [m| |] eqn:Em; [|done|done].
  destruct (senders_new ss m Em) as [Hnd Hm]. cbn. intros [= <-]. split; [by exists ss, rs|].
  split; [by rewrite <- (made_ids _ _ _ Hs)|].
  apply Forall_forall. intros config Hin. apply (made_ports channel_key).
  destruct (sends config) eqn:Ec; [left|right].
  - destruct (Forall2_in_l _ _ _ config Hs) as (s & _ & Hms); [|by exists s].
    by apply list_elem_of_filter.
  - destruct (Forall2_in_l _ _ _ config Hr) as (r & _ & Hmr); [|by exists r].
    by apply list_elem_of_filter.
Qed.

Lemma channels_returns channel_key configs ss rs :
  Forall2 (made_sender channel_key) (tx_of configs) ss → NoDup (id_of <$> tx_of configs) →
  ∃ c, channels ss rs = Ret c.
Proof.
  intros Hs Hnd. rewrite <- (made_ids _ _ _ Hs) in Hnd.
  destruct (senders_new_returns ss Hnd) as [m Hm]. unfold channels. rewrite Hm. by eexists.
Qed.

(** *** main *)

Lemma main_yields cli file :
  loads cli file → small_route (FileConfig.route file) →
  yields (main (Sys := Sys) cli) (λ node, valid cli file ∧ runs cli file node).
Proof.
  intros Hload Hsmall. unfold main. eapply yields_bind; [by apply load_yields|]. intros ? ->.
  apply yields_lift_bind. intros psk Hpsk.
  assert (relay_psk cli file = Some psk) as Hrelay
    by (unfold relay_psk; by destruct (or _ _); [injection Hpsk as ->|]).
  apply yields_lift_bind. intros key Hkey. rewrite short_key_eq in Hkey. apply Ret_inj in Hkey as <-.
  eapply yields_bind; [apply build_channels_yields|]. intros [ss rs] [Hs Hr].
  apply yields_lift_bind. intros c Hc.
  destruct (channels_yields _ _ _ _ _ Hs Hr Hc) as (Hw & Hnd & Hports).
  destruct (is_endpoint cli file) eqn:Eis.
  - intros w node w' Hn. apply start_endpoint_yields in Hn
      as (clock & addr & epsk & graph & seed & cfg & core & He & Hg & Hcfg & Hcore & ->).
    split.
    + split; [by eexists|done|done|]. intros _. split; [by exists epsk|].
      pose proof Hcfg as Hgraph. unfold endpoint_config in Hgraph.
      apply bind_ret in Hgraph as (g & Hgraph & _).
      eapply checked_route_ext; [by eapply wired_ids|]. by eapply route_graph_checked.
    + exists psk. split; [done|]. split; [done|]. split; [done|].
      by exists epsk, graph, seed, cfg, core.
  - intros w node w' Hn. apply relay_run_yields in Hn as (clock & seed & ->).
    split; [by split; [eexists|done|done|rewrite Eis]|].
    exists psk. split; [done|]. split; [done|]. split; [done|]. by exists seed.
Qed.

(** The endpoint is ready to send; a relay has nothing to ask for. *)
Definition fits (node : Node SocketAddr) : Prop :=
  match node with
  | RelayNode _ _ _ => True
  | EndpointNode _ _ runtime _ => sending_ready (EndpointRuntime.core runtime)
  end.

(** The limits that the program does not check. *)
Definition limited (file : FileConfig.t) : Prop :=
  within_limits (sender_ids file) (FileConfig.route file)
    (CoreFileConfig.endpoint_tuning (FileConfig.core file)).

Lemma start_endpoint_succeeds `{!Cooperative} cli file c channel_key envelope_key :
  wired channel_key (FileConfig.channels file) c → small_route (FileConfig.route file) →
  is_Some (endpoint_psk cli file) → checked_route (sender_ids file) (FileConfig.route file) →
  succeeds (start_endpoint (Sys := Sys) cli file c envelope_key)
    (λ node, limited file → fits node).
Proof.
  intros Hw Hsmall [epsk Hepsk] Hc.
  assert (∀ id, id ∈ sender_ids file ↔ id ∈ ChannelSenders.channel_ids (senders c)) as Hids
    by (intros id; symmetry; by eapply wired_ids).
  pose proof (checked_route_ext _ _ _ Hids Hc) as Hc'.
  pose proof (λ ek mk seed boot, configured_endpoint_starts _ _
    (CoreFileConfig.endpoint_tuning (FileConfig.core file)) ek mk seed boot Hsmall Hc') as Hstart.
  unfold start_endpoint, endpoint_run.
  destruct (Hstart [] [] [] 0) as (graph & _ & _ & Hg & _).
  eapply succeeds_lift_bind; [exact Hg|]. apply succeeds_skip; [apply listen_succeeds|]. intros addr.
  eapply succeeds_lift_bind; [unfold endpoint_psk in Hepsk; by rewrite Hepsk|].
  eapply succeeds_lift_bind; [apply short_key_eq|].
  apply succeeds_skip.
  { apply succeeds_attempt. intros w. destruct (coop_tcp addr w) as [w' ->]. by eexists _, _. }
  intros _. apply succeeds_skip; [apply clock_succeeds|]. intros clock.
  apply succeeds_skip; [by apply succeeds_ask|]. intros seed.
  destruct (Hstart envelope_key (key_of "RayNet endpoint PSK v1" epsk) seed
    (CoreClock.boot_time_ms clock)) as (graph' & cfg & core & Hg' & Hcfg & Hcore & Hready).
  rewrite Hg in Hg'. apply Ret_inj in Hg' as <-.
  eapply succeeds_lift_bind; [exact Hcfg|]. eapply succeeds_lift_bind; [exact Hcore|].
  apply succeeds_ret. intros Hlim. apply Hready. by eapply within_limits_ext.
Qed.

Lemma main_succeeds `{!Cooperative} cli file :
  loads cli file → small_route (FileConfig.route file) → valid cli file →
  succeeds (main (Sys := Sys) cli) (λ node, limited file → fits node).
Proof.
  intros Hload Hsmall [[psk Hpsk] Hnd Hports Hend]. unfold main.
  eapply succeeds_bind; [by apply load_succeeds|]. intros ? ->.
  eapply succeeds_lift_bind; [unfold relay_psk in Hpsk; by rewrite Hpsk|].
  eapply succeeds_lift_bind; [apply short_key_eq|].
  eapply succeeds_bind.
  { apply succeeds_yields; [by apply build_channels_succeeds|apply build_channels_yields]. }
  intros [ss rs] [Hs Hr].
  destruct (channels_returns _ _ ss rs Hs Hnd) as [c Hc]. eapply succeeds_lift_bind; [exact Hc|].
  destruct (channels_yields _ _ _ _ _ Hs Hr Hc) as (Hw & _ & _).
  destruct (is_endpoint cli file) eqn:Eis.
  - destruct (Hend eq_refl) as [Hepsk Hroute]. by eapply start_endpoint_succeeds.
  - unfold relay_run. apply succeeds_skip; [apply clock_succeeds|]. intros clock.
    apply succeeds_skip; [by apply succeeds_ask|]. intros seed. by apply succeeds_ret.
Qed.

(** C33: [main] starts a node exactly with the configurations it checks to be
    valid, and the node is the configured one.  For a configuration that loads,
    with a route of fewer than 2^30 edges: whatever the system answers, when a
    node starts the configuration is [valid] (a relay key, senders with
    different ids, ports wherever an address is configured, and for an endpoint
    its key and either no route or one from a single source to a single target,
    without a cycle, whose first hops are channels of the node's own), its
    channels are exactly those configured, each made with the channel key
    derived from the relay key, and its core has the keys, the local channels
    and the tuning of the configuration.  Conversely, when the system resolves
    and binds what it is asked to, every valid configuration starts, without an
    error or a panic, whatever its tuning.  Whether the endpoint can then send is not
    checked by the program: within the limits of [limited] (a route of at most
    65 names, or some sender without a route; channels and hints in the ranges
    of their types; a padding reserve of 1 to 255, a minimum MTU of at least
    446 bytes, and a positive feedback interval) it starts with the geometry
    under which every message of the promised size leaves within the MTU, over
    a graph without dead ends. *)
Theorem node_starts cli file :
  loads cli file → small_route (FileConfig.route file) →
  (∀ w node w', main (Sys := Sys) cli w = Ret (Ok node, w') →
     valid cli file ∧ runs cli file node)
  ∧ (Cooperative → valid cli file →
     ∀ w, ∃ node w', main (Sys := Sys) cli w = Ret (Ok node, w')
       ∧ (limited file → fits node)).
Proof.
  intros Hload Hsmall. split.
  - intros w node w' Hn. by eapply main_yields.
  - intros Hcoop Hvalid. by apply main_succeeds.
Qed.

End startup.

(** ** A system, and an endpoint that starts on it *)

#[local] Existing Instance toy_aegis.
#[local] Existing Instance toy_blake3.
#[local] Existing Instance Sequence.toy_iter.
#[local] Existing Instance toy_keyed.
#[local] Existing Instance toy_keyed_spec.
#[local] Existing Instance toy_order.

Definition demo_file : FileConfig.t :=
  let hp port := HostPorts.Build_t "localhost" [port; port + 1] in
  {| FileConfig.endpoint := None;
     FileConfig.listen := None;
     FileConfig.relay_key := Some "relay"%string;
     FileConfig.endpoint_key := Some "endpoint"%string;
     FileConfig.core := CoreFileConfig.default_config;
     FileConfig.route := Some demo_edges;
     FileConfig.channels :=
       [Tx 1 (hp 10) (hp 20); RevTx 2 (hp 30); Rx 3 (hp 40); RevRx 4 (hp 50) (hp 60)] |}.

(** Addresses are numbers, every host is [7], and every file is the one above. *)
#[local] Instance toy_system : System unit unit Z := {
  IpAddr := Z;
  addr_ip addr := addr;
  addr_new ip port := ip * 65536 + port;
  resolve_host host port w := (Ok [7], w);
  no_address := tt;
  resolve_addr addr w := (Ok [8443], w);
  bind_udp addr w := (Ok tt, w);
  bind_tcp addr w := (Ok tt, w);
  read_config path w := (Some demo_file, w);
  system_time w := (1700000000000000000, w);
  instant_now w := (5, w);
  random_seed w := (vec 16 3, w);
}.

#[local] Instance toy_cooperative : Cooperative (SocketAddr := Z) (W := unit) (E := unit).
Proof. split; cbn; intros; repeat eexists. by intros. Qed.

(** The command line asks for an endpoint; the file has the rest. *)
Definition demo_cli : CliConfig.t :=
  CliConfig.Build_t true None None None (Some "raynet.toml"%string).

Lemma demo_valid : valid demo_cli demo_file.
Proof.
  split; [by eexists|by vm_compute; repeat constructor; set_solver|repeat constructor; by intros|].
  intros _. split; [by eexists|]. exact demo_checked.
Qed.

Lemma node_starts_witness :
  ∃ node : Node Z, main (W := unit) (E := unit) demo_cli tt = Ret (Ok node, tt)
    ∧ fits node ∧ runs demo_cli demo_file node
    ∧ match node with EndpointNode _ _ _ _ => True | RelayNode _ _ _ => False end.
Proof.
  destruct (node_starts (SocketAddr := Z) (W := unit) (E := unit) demo_cli demo_file)
    as [Hsound Hstart].
  - intros w. reflexivity.
  - intros edges [= <-]. vm_compute. reflexivity.
  - destruct (Hstart toy_cooperative demo_valid tt) as (node & [] & Hmain & Hfits).
    exists node. destruct (Hsound tt node tt Hmain) as [_ Hruns].
    split; [exact Hmain|]. split; [exact (Hfits demo_within_limits)|]. split; [exact Hruns|].
    destruct node; [|exact I]. destruct Hruns as (psk & _ & His & _). discriminate His.
Defined.
